(* ===== verification/_CoqProject ===== *)
-Q . S2P
Prelude.v
Atomics.v
Ids.v
Payload.v
DirectV2.v
BroadcastV1.v
Trust.v
Fingerprint.v
Dedup.v
Reservation.v
Queues.v
Registry.v
Ingress.v
Directory.v
DirectInbound.v
BroadcastInbound.v
ConnectionPolicy.v
ConnectionManager.v
DialRoom.v
DialConcurrency.v
DialWorld.v
DiscoveryApi.v
Discovery.v
DiscoveryFacts.v
DiscoveryHistory.v
NetAddr.v
Preauth.v
Relay.v
Reachability.v
Provider.v
ProviderQueue.v
StaticProvider.v
PeerCache.v
PeerCacheFacts.v
CacheProvider.v
CacheView.v
Mdns.v
MdnsFacts.v
MdnsView.v
KademliaApi.v
Kademlia.v
KademliaFacts.v
KademliaView.v
KademliaClaims.v
Composition.v
CompositionFacts.v
CompositionClaims.v
Base64url.v
Ipc.v
IpcFacts.v
