(* ===== verification/Prelude.v ===== *)
(** * InterWeave: the transport core, verified

    InterWeave is a peer-to-peer transport: local clients register endpoints,
    exchange direct messages and broadcasts with the endpoints of trusted peers,
    and never see the network. Its core is a set of synchronous state machines
    under [src/crates/transport/runtime/src] and the types and codecs of
    [src/crates/api]; a libp2p adapter drives them with events and a clock. This
    library models those state machines as the code has them and proves the
    properties the rest of the system relies on.

    ** How the program is modelled

    - Unsigned integers are [N]; every operation that can leave its width is
      written with the behaviour the code chose (saturating, wrapping,
      checked). [usize] is that of the 64-bit targets.
    - [String] and byte slices are [bytes], lists of bytes; a validated newtype
      is a record over them whose only source is the modelled [parse].
    - [BTreeMap] and [BTreeSet] are stdpp's [gmap] and [gset]; where the code
      iterates, [btree_to_list] and [bset_to_list] give the entries in key
      order, so ties break as they do in the code.
    - [Result] is [result], [?] is [<-?]. A method with [&mut self] returns its
      answer beside the new state.
    - Time is the parameter the code makes it: every theorem about a history
      quantifies over the times given, ordered or not, unless it says so.
    - Shared memory is explicit where it is shared: the connection manager's
      counters, flag and published snapshot are a cell that programs of
      [Atomics] access one atomic operation at a time.
    - No definition of the code uses fuel. Loops are structural on the data they
      walk, or on the number of turns the code takes: [reserve_loop] over the
      values its compare-exchange meets, [admit_attempts] over the three attempts
      the code allows itself, [back_off] over the rounds without progress,
      [emit_quintets] over the five-bit groups that are ready, [show_dec] over the
      ten digits of a 32-bit number. [drain_all], a consumer that drains until
      nothing comes, counts its rounds, and its theorem says how many are enough.

    ** Files, and the code they model

    - [Prelude]: results, machine integers, bytes, big-endian integers, ordered
      keys and maps, stable sorts, sums over maps, and their automation.
    - [Atomics]: programs over shared memory, their interleavings, and the proof
      rule for a resource invariant.
    - [Ids], [Payload]: [api/transport-api/src/ids.rs] and [payload.rs].
    - [DirectV2], [BroadcastV1]: the two wire frames, [direct_v2.rs] (with the
      reject vocabulary of [status.rs]) and [broadcast_v1.rs].
    - [Trust]: [api/trust-api/src/lib.rs].
    - [Fingerprint]: [runtime/src/fingerprint.rs], [mesh_id.rs], [topic.rs].
    - [Dedup], [Reservation]: the two halves of [dedup.rs].
    - [Queues]: [endpoint_queue.rs] and [session_queue.rs].
    - [Registry]: [endpoint_registry.rs].
    - [Ingress]: [ingress.rs]; [Directory]: [directory.rs] and
      [endpoint_directory.rs].
    - [DirectInbound], [BroadcastInbound]: [direct_inbound.rs] and
      [broadcast_inbound.rs], the two admissions that compose all of the above.
    - [ConnectionPolicy]: [connection_policy.rs]. [ConnectionManager]:
      [connection_manager.rs], every operation as a program over the shared
      cell. [DialRoom], [DialConcurrency] and [DialWorld] prove it: how policy
      operations move the count of live quarantines, the resource invariant and
      its preservation by each program, and the step relation in which one
      manager, any number of dialing tasks and dropped tickets interleave.
    - [DiscoveryApi]: [api/discovery-api/src/lib.rs]. [Discovery]:
      [discovery.rs]. [DiscoveryFacts] and [DiscoveryHistory] prove it.
    - [NetAddr]: what the code uses of [std::net]'s textual addresses.
      [Preauth]: [preauth.rs]. [Relay]: [relay.rs]. [Reachability]:
      [reachability.rs].
    - [Provider]: the provider trait of [api/discovery-api/src/lib.rs] as a class,
      its documented rules as the class [ProviderContract], and the coordinator's
      side of the pump proved against that contract alone. [ProviderQueue]: the
      bounded queue the providers share and what a consumer makes of events.
    - [StaticProvider]: [discovery/static/src/lib.rs]. [PeerCache] and
      [PeerCacheFacts]: [discovery/cache/src/cache.rs], [record.rs] and
      [limits.rs]; [CacheProvider] and [CacheView]: its [provider.rs]. [Mdns],
      [MdnsFacts] and [MdnsView]: [discovery/mdns/src/lib.rs]. Each is an instance
      of the contract.
    - [KademliaApi]: [api/kademlia-control-api/src/lib.rs]. [Kademlia]:
      [discovery/kademlia/src], its budgets, pacing, result filter, health and
      provider; [KademliaFacts], [KademliaView] and [KademliaClaims] prove it.
    - [Composition]: [transport/composition/src/discovery.rs], the four providers
      beside one coordinator, with the network names of the libp2p
      [kademlia_driver.rs]; [CompositionFacts] and [CompositionClaims] prove it.
    - [Base64url]: [api/transport-api/src/base64url.rs]. [Ipc]: of the local socket,
      [api/ipc-protocol/src/framing.rs], [version.rs] and [handshake.rs], and
      [local/ipc-server/src]'s frame reader, [admission.rs], [counters.rs] and
      [keepalive.rs]; [IpcFacts] proves it.

    ** What the theorems show

    - Dialing: in every interleaving the counters are exact and within their
      ceilings; an admission commits only while what is published grants it; an
      identity mismatch of an admitted dial always finds room to be recorded;
      and a recorded quarantine outlives everything but a success.
    - Direct messages: acceptance is queueing in the destination's queue, a
      refusal leaves nothing behind, a retry replays the first answer, and two
      nodes that differ in their endpoints alone answer alike where the
      protocol says so.
    - Broadcasts: exact fan-out and no redelivery inside the window.
    - Wire frames: a frame decodes to a message exactly when it is its encoding.
    - State that a remote party can grow is bounded over every history
      (deduplication, reservations, handshakes, ingress buckets, discovery
      candidates, relay reservations, directory cache), and the bounds cost
      nobody what they protect: retention, single ownership, no starvation, no
      eviction of a trusted peer with a live address.
    - Discovery and reachability: what a consumer reads is attested by named
      sources whose word has not lapsed; late evidence restores nothing; one
      contradiction does not unverify an address; expiry is exact.
    - Providers: each obeys the trait's rules. The consumer is additive, as the
      coordinator is: an observation adds, a retraction takes away. One that drains
      a provider holds what the provider holds: exactly, for the cache; exactly, for
      the static provider, while reloads find nothing undelivered (and not
      otherwise: a retraction can be lost); for mDNS, once the queue has had room
      again; and for Kademlia with the addresses it was given before, which the
      provider replaces without retracting. Draining ends. The cache file reloads to what was written and is replaced
      whole or not at all. Kademlia asks the driver for no more queries than
      configured, and grants a targeted lookup exactly when its conditions hold.
    - Composition: the coordinator refuses nothing a provider reports; the address
      book is offered every candidate's current addresses; no eligible peer
      starves; driver and provider name one network; one failed mDNS interface
      degrades that provider for good.
    - The local socket: a base64url text and a frame decode exactly when they are
      encodings; how the stream is cut into reads is invisible, and the reader's
      buffer bounded; a hello is granted exactly its socket's authority; slots and
      their counts are exact; a silent client is closed, and exactly when.

    A theorem about a history is stated over a list of operations, or over the
    worlds [world_step] reaches from a new manager; each with a hypothesis has a
    closed instance beside it that exhibits a case where it holds.

    ** Parameters

    The base58 decoder ([Ids], and the providers that parse identities), SHA-256
    ([Fingerprint], [DirectInbound], [Composition]), the JSON codec of the cache
    file ([PeerCache]) and the JSON parser of a frame's body ([Ipc]) are third-party
    crates and are parameters. Of SHA-256, that
    its digest has 32 bytes is a hypothesis where the bytes are used, and
    collisions are stated as an alternative, never assumed away; of the codec, a
    round trip and 64-bit times are hypotheses where they are used. File
    operations enter as their outcomes, one argument per call.

    ** Not modelled

    - The libp2p adapter ([crates/transport/libp2p]) but for the names of a
      network, the rest of the composition crate, and the embedding crates:
      asynchronous glue around third-party behaviours, whose decisions are the
      state machines modelled here.
    - Profile configuration and identity, the documents, dispatch, writer and client
      of local IPC, the human and tool clients: file systems, sockets, databases,
      serde documents and user interfaces.
    - The multicast backend and the DHT driver beneath the two active providers:
      they enter as the events they report, in any order.
    - Tracing, [Debug] and [Display] of errors, and serde derives. Serialized
      documents enter as the values they hold.
    - Memory ordering below sequential consistency: every shared access of the
      dial gate is an [Acquire]/[Release] operation or a lock, and each of its
      counters is used alone. *)
From Corelib Require Export ssreflect.
From Stdlib Require Export Strings.Byte.
From stdpp Require Export base tactics numbers list gmap sorting strings.

#[global] Open Scope general_if_scope.
#[export] Set SsrOldRewriteGoalsOrder.

(** ** Fallible results *)

(** Rust's [Result]. *)
Inductive result (A E : Type) : Type :=
| Ok (a : A)
| Err (e : E).
Arguments Ok {A E} a.
Arguments Err {A E} e.

Definition result_bind {A B E} (r : result A E) (k : A → result B E) : result B E :=
  match r with Ok a => k a | Err e => Err e end.

Definition map_err {A E F} (f : E → F) (r : result A E) : result A F :=
  match r with Ok a => Ok a | Err e => Err (f e) end.

Definition result_map {A B E} (f : A → B) (r : result A E) : result B E :=
  match r with Ok a => Ok (f a) | Err e => Err e end.

Definition is_ok {A E} (r : result A E) : bool :=
  match r with Ok _ => true | Err _ => false end.

Declare Scope iw_scope.
Delimit Scope iw_scope with iw.

(** The [?] operator: [x <-? e; k] is [let x = e?; k]. *)
Notation "x <-? e ; k" := (result_bind e (λ x, k))
  (at level 20, e at level 100, k at level 200, only parsing) : iw_scope.
Notation "' p <-? e ; k" := (result_bind e (λ x, match x with p => k end))
  (at level 20, p pattern, e at level 100, k at level 200, only parsing) : iw_scope.
(** [guard? b else err; k] is [if !b { return Err(err) } k]. *)
Notation "'guard?' b 'else' err ; k" := (if b then k else Err err)
  (at level 20, b at level 100, err at level 100, k at level 200, only parsing) : iw_scope.
Open Scope iw_scope.

#[global] Instance result_eq_dec {A E} {HA : EqDecision A} {HE : EqDecision E} :
  EqDecision (result A E).
Proof. unfold EqDecision, Decision in *. decide equality. Defined.

Lemma result_bind_Ok {A B E} (r : result A E) (k : A → result B E) b :
  result_bind r k = Ok b ↔ ∃ a, r = Ok a ∧ k a = Ok b.
Proof. destruct r; naive_solver. Qed.

Lemma map_err_Ok {A E F} (f : E → F) (r : result A E) a :
  map_err f r = Ok a ↔ r = Ok a.
Proof. destruct r; naive_solver. Qed.

(** ** Machine integers

    Unsigned integers of the source are [N]; each operation that can leave
    the width is written with the behaviour the source chose for it
    (saturating, or [try_from(..).unwrap_or(MAX)]). *)

Local Open Scope N_scope.

Definition u8_max : N := 255.
Definition u16_max : N := 65535.
Definition u32_max : N := 4294967295.
Definition u64_max : N := 18446744073709551615.
(** [usize] of the 64-bit targets. *)
Definition usize_max : N := u64_max.

Definition sat_add (max a b : N) : N := N.min (a + b) max.
Definition sat_mul (max a b : N) : N := N.min (a * b) max.
(** [saturating_sub]: [N.sub] truncates at zero. *)
Definition sat_sub (a b : N) : N := a - b.
(** [T::try_from(n).unwrap_or(T::MAX)]. *)
Definition try_from_or_max (max n : N) : N := N.min n max.

(** Saturation is exact below the maximum; stated over a variable maximum,
    so that no proof computes with the 64-bit constant. *)
Lemma sat_add_exact max a b c : sat_add max a b ≤ c → c < max → sat_add max a b = a + b.
Proof. unfold sat_add. lia. Qed.
Lemma sat_add_small max a b c : a + b ≤ c → c ≤ max → sat_add max a b = a + b.
Proof. unfold sat_add. lia. Qed.
Lemma usize_max_ge : u32_max < usize_max.
Proof. by vm_compute. Qed.
Lemma u64_max_ge : u32_max < u64_max.
Proof. by vm_compute. Qed.

Definition len {A} (l : list A) : N := N.of_nat (length l).

Lemma len_nil {A} : len (@nil A) = 0.
Proof. done. Qed.
Lemma len_cons {A} (x : A) l : len (x :: l) = 1 + len l.
Proof. unfold len. simpl. lia. Qed.
Lemma len_app {A} (l k : list A) : len (l ++ k) = len l + len k.
Proof. unfold len. rw length_app. lia. Qed.
Lemma len_zero {A} (l : list A) : len l = 0 ↔ l = [].
Proof. unfold len. destruct l; simpl; split; intros; simplify_eq; try done; lia. Qed.

(** [slice[..n]] and [slice[n..]] with a machine-integer index. *)
Definition ntake {A} (n : N) (l : list A) : list A := take (N.to_nat n) l.
Definition ndrop {A} (n : N) (l : list A) : list A := drop (N.to_nat n) l.

Lemma ntake_len_app {A} (l k : list A) : ntake (len l) (l ++ k) = l.
Proof. unfold ntake, len. rw Nat2N.id. apply take_app_length. Qed.
Lemma ndrop_len_app {A} (l k : list A) : ndrop (len l) (l ++ k) = k.
Proof. unfold ndrop, len. rw Nat2N.id. apply drop_app_length. Qed.
Lemma len_ntake {A} n (l : list A) : n ≤ len l → len (ntake n l) = n.
Proof. unfold ntake, len. rw length_take. lia. Qed.
Lemma ntake_ndrop {A} n (l : list A) : ntake n l ++ ndrop n l = l.
Proof. apply take_drop. Qed.
Lemma len_ndrop {A} n (l : list A) : len (ndrop n l) = len l - n.
Proof. unfold ndrop, len. rw length_drop. lia. Qed.

(** ** Bytes *)

Abbreviation bytes := (list byte).

#[global] Instance byte_eq_dec : EqDecision byte.
Proof.
  refine (λ a b, cast_if (decide (Byte.to_N a = Byte.to_N b)));
    [abstract (apply (inj Some); rw -!Byte.of_to_N; by f_equal)|abstract congruence].
Defined.
#[global] Instance byte_countable : Countable byte :=
  inj_countable Byte.to_N Byte.of_N Byte.of_to_N.

Definition byte_val (b : byte) : N := Byte.to_N b.
(** [v as u8]: truncation to the low eight bits. *)
Definition byte_of (v : N) : byte :=
  default x00 (Byte.of_N (v mod 256)).

Lemma byte_val_lt b : byte_val b < 256.
Proof. unfold byte_val. pose proof (Byte.to_N_bounded b). lia. Qed.
Lemma byte_of_val b : byte_of (byte_val b) = b.
Proof.
  unfold byte_of. rewrite -> N.mod_small by apply byte_val_lt.
  unfold byte_val. by rw Byte.of_to_N.
Qed.
Lemma byte_val_of v : byte_val (byte_of v) = v mod 256.
Proof.
  unfold byte_of, byte_val.
  destruct (Byte.of_N (v mod 256)) as [b|] eqn:E; simpl.
  - by apply Byte.to_of_N in E.
  - apply Byte.of_N_None_iff in E.
    pose proof (N.mod_lt v 256 ltac:(lia)). lia.
Qed.
#[global] Instance byte_val_inj : Inj (=) (=) byte_val.
Proof. intros a b H. rw -(byte_of_val a) -(byte_of_val b). by rw H. Qed.

(** Big-endian integers: [to_be_bytes] and [from_be_bytes] at a width of
    [n] bytes. *)
Fixpoint to_be (n : nat) (v : N) : bytes :=
  match n with
  | O => []
  | S n => to_be n (v / 256) ++ [byte_of v]
  end.
Definition from_be (l : bytes) : N :=
  foldl (λ acc b, 256 * acc + byte_val b) 0 l.

Lemma length_to_be n v : length (to_be n v) = n.
Proof. revert v. induction n as [|n IH]; intros v; simpl; [done|].
  rw length_app IH /=. lia. Qed.
Lemma from_be_snoc l b : from_be (l ++ [b]) = 256 * from_be l + byte_val b.
Proof. unfold from_be. by rw foldl_app. Qed.
Lemma from_be_to_be n v : v < 256 ^ N.of_nat n → from_be (to_be n v) = v.
Proof.
  revert v. induction n as [|n IH]; intros v Hv.
  - simpl in *. rw N.pow_0_r in Hv. unfold from_be. simpl. lia.
  - cbn [to_be]. rw from_be_snoc byte_val_of IH.
    + pose proof (N.div_mod v 256 ltac:(lia)). lia.
    + rw Nat2N.inj_succ N.pow_succ_r' in Hv.
      apply N.Div0.div_lt_upper_bound. lia.
Qed.
Lemma from_be_lt l : from_be l < 256 ^ len l.
Proof.
  induction l as [|b l IH] using rev_ind.
  - by vm_compute.
  - rw from_be_snoc len_app. change (len [b]) with 1.
    rw N.pow_add_r. pose proof (byte_val_lt b).
    change (256 ^ 1) with 256. lia.
Qed.
Lemma to_be_from_be l : to_be (length l) (from_be l) = l.
Proof.
  induction l as [|b l IH] using rev_ind; [done|].
  rw length_app Nat.add_1_r. cbn [to_be]. rw from_be_snoc.
  pose proof (byte_val_lt b).
  replace ((256 * from_be l + byte_val b) / 256) with (from_be l).
  2:{ apply N.div_unique with (byte_val b); lia. }
  rw IH. do 2 f_equal.
  apply (inj byte_val). rw byte_val_of.
  symmetry. apply N.mod_unique with (from_be l); lia.
Qed.

Lemma to_be_inj n a b :
  a < 256 ^ N.of_nat n → b < 256 ^ N.of_nat n → to_be n a = to_be n b → a = b.
Proof. intros Ha Hb H%(f_equal from_be). by rw !from_be_to_be in H. Qed.

Lemma len_to_be n v : len (to_be n v) = N.of_nat n.
Proof. unfold len. by rw length_to_be. Qed.

(** ** Ordered maps

    Rust's [String] is ordered bytewise; the newtypes over it derive that
    order, and [BTreeMap] iterates in it.  A [BTreeMap] is a [gmap]; its
    iteration order is the sort of its entries by key. *)

Fixpoint bytes_leb (a b : bytes) : bool :=
  match a, b with
  | [], _ => true
  | _ :: _, [] => false
  | x :: a', y :: b' =>
      if byte_val x <? byte_val y then true
      else if byte_val y <? byte_val x then false
      else bytes_leb a' b'
  end.

Definition bytes_le (a b : bytes) : Prop := bytes_leb a b = true.

#[global] Instance bytes_le_dec : RelDecision bytes_le.
Proof. intros a b. unfold bytes_le. apply _. Defined.

Lemma bytes_leb_total a b : bytes_leb a b = true ∨ bytes_leb b a = true.
Proof.
  revert b. induction a as [|x a IH]; intros [|y b]; simpl; auto.
  destruct (N.ltb_spec (byte_val x) (byte_val y)); auto.
  destruct (N.ltb_spec (byte_val y) (byte_val x)); auto.
Qed.
Lemma bytes_leb_trans a b c :
  bytes_leb a b = true → bytes_leb b c = true → bytes_leb a c = true.
Proof.
  revert b c. induction a as [|x a IH]; intros [|y b] [|z c]; simpl; auto; try done.
  destruct (N.ltb_spec (byte_val x) (byte_val y)), (N.ltb_spec (byte_val y) (byte_val x)),
    (N.ltb_spec (byte_val y) (byte_val z)), (N.ltb_spec (byte_val z) (byte_val y)),
    (N.ltb_spec (byte_val x) (byte_val z)), (N.ltb_spec (byte_val z) (byte_val x));
    try done; try lia; eauto.
Qed.
Lemma bytes_leb_antisym a b :
  bytes_leb a b = true → bytes_leb b a = true → a = b.
Proof.
  revert b. induction a as [|x a IH]; intros [|y b]; simpl; auto; try done.
  destruct (N.ltb_spec (byte_val x) (byte_val y)) as [?|?];
    destruct (N.ltb_spec (byte_val y) (byte_val x)) as [?|?]; try done; try lia.
  intros. f_equal; [|by apply IH]. apply (inj byte_val). lia.
Qed.

(** A key type with its derived order. *)
Class OrdKey (K : Type) := {
  key_leb : K → K → bool;
  key_leb_total : ∀ a b, key_leb a b = true ∨ key_leb b a = true;
  key_leb_trans : ∀ a b c, key_leb a b = true → key_leb b c = true → key_leb a c = true;
  key_leb_antisym : ∀ a b, key_leb a b = true → key_leb b a = true → a = b
}.

#[global] Instance bytes_ord_key : OrdKey bytes := {
  key_leb := bytes_leb;
  key_leb_total := bytes_leb_total;
  key_leb_trans := bytes_leb_trans;
  key_leb_antisym := bytes_leb_antisym
}.

(** A newtype derives the order of what it wraps. *)
#[program] Definition newtype_ord_key {K J} `{OrdKey J} (f : K → J) `{!Inj (=) (=) f} :
    OrdKey K := {| key_leb a b := key_leb (f a) (f b) |}.
Next Obligation. intros. apply key_leb_total. Qed.
Next Obligation. intros K J ? f ? a b c ??. by apply (key_leb_trans _ (f b)). Qed.
Next Obligation. intros K J ? f ? a b ??. apply (inj f). by apply key_leb_antisym. Qed.

(** A pair is ordered lexicographically. *)
#[program] Definition pair_ord_key {K J} `{OrdKey K, OrdKey J} : OrdKey (K * J) :=
  {| key_leb a b :=
       if key_leb a.1 b.1 then (if key_leb b.1 a.1 then key_leb a.2 b.2 else true) else false |}.
Next Obligation.
  intros K J ?? [a1 a2] [b1 b2]; simpl.
  destruct (key_leb_total a1 b1) as [E|E]; rw E; destruct (key_leb b1 a1), (key_leb a1 b1);
    auto; apply key_leb_total.
Qed.
Next Obligation.
  intros K J ?? [a1 a2] [b1 b2] [c1 c2]; simpl.
  destruct (key_leb a1 b1) eqn:E1; [|done]. destruct (key_leb b1 c1) eqn:E2; [|done].
  rw (key_leb_trans _ _ _ E1 E2). destruct (key_leb c1 a1) eqn:E3; [|done].
  assert (key_leb c1 b1 = true) as -> by by apply (key_leb_trans _ a1).
  assert (key_leb b1 a1 = true) as -> by by apply (key_leb_trans _ c1). apply key_leb_trans.
Qed.
Next Obligation.
  intros K J ?? [a1 a2] [b1 b2]; simpl.
  destruct (key_leb a1 b1) eqn:E1; [|done]. destruct (key_leb b1 a1) eqn:E2; [|done].
  intros. f_equal; by apply key_leb_antisym.
Qed.
#[global] Existing Instance pair_ord_key.
(** [false < true]. *)
#[global, program] Instance bool_ord_key : OrdKey bool := {| key_leb a b := implb a b |}.
Next Obligation. by intros [] []; auto. Qed.
Next Obligation. by intros [] [] []. Qed.
Next Obligation. by intros [] []. Qed.
#[global, program] Instance N_ord_key : OrdKey N := {| key_leb := N.leb |}.
Next Obligation. intros a b. destruct (N.leb_spec a b); [by left|right]. apply N.leb_le. lia. Qed.
Next Obligation. intros a b c. rewrite !N.leb_le. lia. Qed.
Next Obligation. intros a b. rewrite !N.leb_le. lia. Qed.
#[global, program] Instance Z_ord_key : OrdKey Z := {| key_leb := Z.leb |}.
Next Obligation. intros a b. destruct (Z.leb_spec a b); [by left|right]. apply Z.leb_le. lia. Qed.
Next Obligation. intros a b c. rewrite !Z.leb_le. lia. Qed.
Next Obligation. intros a b. rewrite !Z.leb_le. lia. Qed.

Section ordered.
Context {K : Type} `{OrdKey K}.

Definition key_le (a b : K) : Prop := key_leb a b = true.
Definition key_lt (a b : K) : Prop := key_le a b ∧ a ≠ b.

#[global] Instance key_le_dec : RelDecision key_le.
Proof. intros a b. unfold key_le. apply _. Defined.
#[global] Instance key_le_refl : Reflexive key_le.
Proof. intros a. by destruct (key_leb_total a a). Qed.
#[global] Instance key_le_trans : Transitive key_le.
Proof. intros a b c. apply key_leb_trans. Qed.
#[global] Instance key_le_total : Total key_le.
Proof. intros a b. apply key_leb_total. Qed.
#[global] Instance key_le_antisym : AntiSymm (=) key_le.
Proof. intros a b ??. by apply key_leb_antisym. Qed.

Definition entry_le {V} (p q : K * V) : Prop := key_le p.1 q.1.
#[global] Instance entry_le_dec {V} : RelDecision (@entry_le V).
Proof. intros p q. unfold entry_le. apply _. Defined.
#[global] Instance entry_le_total {V} : Total (@entry_le V).
Proof. intros p q. apply (total key_le). Qed.
#[global] Instance entry_le_trans {V} : Transitive (@entry_le V).
Proof. intros p q r. apply (transitivity (R:=key_le)). Qed.

Context `{Countable K}.

(** [map.iter()], in key order. *)
Definition btree_to_list {V} (m : gmap K V) : list (K * V) :=
  merge_sort entry_le (map_to_list m).

Lemma btree_to_list_perm {V} (m : gmap K V) : btree_to_list m ≡ₚ map_to_list m.
Proof. apply merge_sort_Permutation. Qed.
Lemma elem_of_btree_to_list {V} (m : gmap K V) k v :
  (k, v) ∈ btree_to_list m ↔ m !! k = Some v.
Proof. by rw btree_to_list_perm elem_of_map_to_list. Qed.
Lemma btree_to_list_sorted {V} (m : gmap K V) :
  StronglySorted entry_le (btree_to_list m).
Proof. apply StronglySorted_merge_sort; apply _. Qed.
Lemma NoDup_btree_keys {V} (m : gmap K V) : NoDup (btree_to_list m).*1.
Proof. rw btree_to_list_perm. apply NoDup_fst_map_to_list. Qed.
(** The list is determined by its entries. *)
Lemma btree_to_list_unique {V} (m : gmap K V) (l : list (K * V)) :
  StronglySorted entry_le l → NoDup l.*1 → (∀ k v, (k, v) ∈ l ↔ m !! k = Some v) → btree_to_list m = l.
Proof.
  intros Hs Hn Hl. assert (btree_to_list m ≡ₚ l) as Hp.
  { apply NoDup_Permutation; [eapply NoDup_fmap_1, NoDup_btree_keys|by eapply NoDup_fmap_1|].
    intros [k v]. by rw elem_of_btree_to_list Hl. }
  eapply StronglySorted_unique_strong; [|apply btree_to_list_sorted|exact Hs|exact Hp].
  intros [k1 v1] [k2 v2] H1 H2 Hle Hge. assert (k1 = k2) as -> by by apply (anti_symm key_le).
  apply elem_of_btree_to_list in H1. apply Hl in H2. congruence.
Qed.
Lemma length_btree_to_list {V} (m : gmap K V) : length (btree_to_list m) = size m.
Proof. by rw btree_to_list_perm length_map_to_list. Qed.
End ordered.

(** [set.iter()] of a [BTreeSet], in order. *)
Definition bset_to_list {K} `{OrdKey K, Countable K} (s : gset K) : list K :=
  merge_sort key_le (elements s).

Lemma elem_of_bset {K} `{OrdKey K, Countable K} (s : gset K) x : x ∈ bset_to_list s ↔ x ∈ s.
Proof. unfold bset_to_list. by rewrite merge_sort_Permutation elem_of_elements. Qed.

(** [slice::sort_by]: a stable sort, as insertion from the right. *)
Fixpoint insert_by {A} (leb : A → A → bool) (x : A) (l : list A) : list A :=
  match l with
  | [] => [x]
  | y :: l => if leb x y then x :: y :: l else y :: insert_by leb x l
  end.
Definition sort_by {A} (leb : A → A → bool) (l : list A) : list A :=
  foldr (insert_by leb) [] l.
Lemma insert_by_perm {A} (leb : A → A → bool) x l : insert_by leb x l ≡ₚ x :: l.
Proof.
  induction l as [|y l IH]; [done|]. simpl. case_match; [done|]. rewrite IH. apply Permutation_swap.
Qed.
Lemma sort_by_perm {A} (leb : A → A → bool) l : sort_by leb l ≡ₚ l.
Proof.
  induction l as [|x l IH]; [done|]. simpl. rewrite insert_by_perm. by constructor.
Qed.
Lemma sort_by_sorted {A} (leb : A → A → bool) l :
  (∀ a b, leb a b = true ∨ leb b a = true) →
  (∀ a b c, leb a b = true → leb b c = true → leb a c = true) →
  StronglySorted (λ a b, leb a b = true) (sort_by leb l).
Proof.
  intros Htot Htr. induction l as [|x l IH]; [constructor|]. simpl.
  induction IH as [|y k Hk IHk Hall]; simpl; [repeat constructor|].
  destruct (leb x y) eqn:E.
  - constructor; [by constructor|]. constructor; [done|]. eapply Forall_impl; [exact Hall|].
    intros z Hz. by apply (Htr x y z).
  - constructor; [done|]. rewrite insert_by_perm. constructor; [|done].
    destruct (Htot x y); [congruence|done].
Qed.

(** [iter().min_by_key(..)]: the first of the least. *)
Fixpoint min_by {A} (f : A → N) (l : list A) : option A :=
  match l with
  | [] => None
  | x :: l =>
      match min_by f l with
      | Some y => if f y <? f x then Some y else Some x
      | None => Some x
      end
  end.
Lemma min_by_elem {A} (f : A → N) l x : min_by f l = Some x → x ∈ l.
Proof.
  revert x. induction l as [|y l IH]; intros x; [done|]. simpl.
  destruct (min_by f l) as [z|]; [case_match|]; intros [= <-]; try by left.
  right. by apply IH.
Qed.
Lemma min_by_None {A} (f : A → N) l : min_by f l = None → l = [].
Proof. destruct l; [done|]. simpl. by repeat case_match. Qed.

(** [iter().min_by_key(..)] with an ordered key. *)
Fixpoint min_key {A K} `{OrdKey K} (f : A → K) (l : list A) : option A :=
  match l with
  | [] => None
  | x :: l =>
      match min_key f l with
      | Some y => if key_leb (f x) (f y) then Some x else Some y
      | None => Some x
      end
  end.
Lemma min_key_elem {A K} `{OrdKey K} (f : A → K) l x : min_key f l = Some x → x ∈ l.
Proof.
  revert x. induction l as [|y l IH]; intros x; [done|]. simpl.
  destruct (min_key f l) as [z|]; [case_match|]; intros [= <-]; try by left.
  right. by apply IH.
Qed.
Lemma min_key_None {A K} `{OrdKey K} (f : A → K) l : min_key f l = None → l = [].
Proof. destruct l; [done|]. simpl. by repeat case_match. Qed.
Lemma min_key_least {A K} `{OrdKey K} (f : A → K) l x y :
  min_key f l = Some x → y ∈ l → key_le (f x) (f y).
Proof.
  revert x. induction l as [|z l IH]; intros x; [done|]. simpl.
  destruct (min_key f l) as [m|] eqn:E; intros Hx [->|Hy]%elem_of_cons.
  - destruct (key_leb (f z) (f m)) eqn:Ez; injection Hx as <-; [done|].
    destruct (total key_le (f m) (f z)) as [Hm|Hm]; [done|]. unfold key_le in Hm. congruence.
  - destruct (key_leb (f z) (f m)) eqn:Ez; injection Hx as <-; [|by apply IH].
    etrans; [exact Ez|]. by apply IH.
  - by injection Hx as <-.
  - apply min_key_None in E as ->. by apply elem_of_nil in Hy.
Qed.

(** A decidable statement about small machine integers, checked by
    enumeration. *)
Lemma N_lt_check (n : N) (P : N → Prop) `{!∀ x, Decision (P x)} :
  forallb (λ x, bool_decide (P x)) (N.of_nat <$> seq 0 (N.to_nat n)) = true →
  ∀ x, x < n → P x.
Proof.
  rw List.forallb_forall => Hall x Hx. eapply bool_decide_eq_true_1.
  apply Hall, list_elem_of_In, list_elem_of_fmap.
  exists (N.to_nat x). split; [lia|]. apply elem_of_seq. lia.
Qed.

Lemma len_length {A} (l : list A) n : len l = N.of_nat n → length l = n.
Proof. unfold len. lia. Qed.

Lemma to_be_from_be_len n l : len l = N.of_nat n → to_be n (from_be l) = l.
Proof. intros <-%len_length. apply to_be_from_be. Qed.

Lemma result_map_Ok {A B E} (f : A → B) (r : result A E) b :
  result_map f r = Ok b ↔ ∃ a, r = Ok a ∧ b = f a.
Proof. destruct r; naive_solver. Qed.

(** Invert a chain of [<-?] steps that returned [Ok]. *)
Ltac inv_ok H :=
  repeat first
    [ progress simplify_eq
    | match type of H with
      | result_bind _ _ = Ok _ =>
          let x := fresh "x" in let Hx := fresh "Hx" in
          apply result_bind_Ok in H as (x & Hx & H);
          match type of x with prod _ _ => destruct x as [??] | _ => idtac end
      | map_err _ _ = Ok _ => apply map_err_Ok in H
      end ].

#[global] Arguments to_be : simpl never.
#[global] Arguments from_be : simpl never.
#[global] Arguments len : simpl never.
#[global] Arguments ntake : simpl never.
#[global] Arguments ndrop : simpl never.
#[global] Arguments byte_of : simpl never.
#[global] Arguments byte_val : simpl never.
#[global] Opaque to_be from_be.

(** Every error a fallible step can return satisfies [Q]. *)
Definition errs {A E} (Q : E → Prop) (r : result A E) : Prop := ∀ e, r = Err e → Q e.

Lemma errs_ok {A E} (Q : E → Prop) (a : A) : errs Q (Ok a).
Proof. by intros e. Qed.
Lemma errs_err {A E} (Q : E → Prop) (e : E) : Q e → errs Q (@Err A E e).
Proof. by intros ? ? [= <-]. Qed.
Lemma errs_bind {A B E} (Q : E → Prop) (r : result A E) (k : A → result B E) :
  errs Q r → (∀ a, errs Q (k a)) → errs Q (result_bind r k).
Proof. intros Hr Hk e. destruct r; simpl; [apply Hk|]. intros [= ->]. by apply Hr. Qed.
Lemma errs_map_err {A E F} (Q : F → Prop) (f : E → F) (r : result A E) :
  (∀ e, Q (f e)) → errs Q (map_err f r).
Proof. intros Hf e. destruct r; simpl; [done|]. intros [= <-]. apply Hf. Qed.
Lemma errs_if {A E} (Q : E → Prop) (b : bool) (r s : result A E) :
  errs Q r → errs Q s → errs Q (if b then r else s).
Proof. by destruct b. Qed.

Create HintDb errs discriminated.
#[export] Hint Resolve errs_ok errs_err errs_bind errs_map_err errs_if : errs.
#[export] Hint Extern 1 (errs _ (match ?x with (_, _) => _ end)) => destruct x : errs.
#[export] Hint Extern 0 (_ = _) => reflexivity : errs.

Create Rewrite HintDb len.
#[export] Hint Rewrite @len_nil @len_cons @len_app len_to_be @len_ndrop : len.
Ltac len_simpl := autorewrite with len in *.

(** ** Lists and maps *)

Lemma list_filter_all {A} (P : A → Prop) `{!∀ x, Decision (P x)} (l : list A) :
  (∀ x, x ∈ l → P x) → filter P l = l.
Proof.
  induction l as [|x l IH]; intros H'; [done|].
  rw filter_cons_True; [|apply H'; by left]. rw IH //. intros y ?. apply H'. by right.
Qed.

Lemma len_filter_split {A} (f : A → bool) (l : list A) :
  len (filter (λ x, f x = true) l) + len (filter (λ x, f x = false) l) = len l.
Proof.
  induction l as [|x l IH]; [done|]. destruct (f x) eqn:E.
  - rewrite -> filter_cons_True by done. rewrite -> filter_cons_False by by rewrite E. rewrite !len_cons. lia.
  - rewrite -> filter_cons_False by by rewrite E. rewrite filter_cons_True // !len_cons. lia.
Qed.
Lemma sublist_elem_of {A} (l k : list A) x : x ∈ l → l `sublist_of` k → x ∈ k.
Proof. intros Hx Hs. induction Hs; set_solver. Qed.
Lemma StronglySorted_sublist {A} (R : relation A) (l k : list A) :
  StronglySorted R k → l `sublist_of` k → StronglySorted R l.
Proof.
  intros Hk Hs. induction Hs as [|x l k Hs IH|x l k Hs IH]; [done|..];
    apply StronglySorted_inv in Hk as [Hk Hall]; [|by apply IH].
  constructor; [by apply IH|]. rewrite !Forall_forall in Hall |- *. intros y Hy.
  eapply Hall, sublist_elem_of; done.
Qed.
(** The keys of a selection of a map's entries are strictly ascending. *)
Lemma btree_sublist_keys {K V} `{OrdKey K, Countable K} (m : gmap K V) (l : list (K * V)) :
  l `sublist_of` btree_to_list m → StronglySorted key_lt l.*1.
Proof.
  intros Hs. pose proof (StronglySorted_sublist _ _ _ (btree_to_list_sorted m) Hs) as Hsort.
  assert (NoDup l.*1) as Hnd.
  { eapply sublist_NoDup; [apply (NoDup_btree_keys m)|]. by apply fmap_sublist. }
  clear Hs. induction Hsort as [|[k v] l Hsort IH Hall]; [constructor|].
  apply NoDup_cons in Hnd as [Hk Hnd]. simpl. constructor; [by apply IH|].
  apply Forall_forall. intros k' Hk'. split; [|by intros ->].
  apply list_elem_of_fmap in Hk' as ([k2 v2] & -> & Hin). simpl.
  rewrite -> Forall_forall in Hall. apply (Hall _ Hin).
Qed.

Lemma omap_compose {A B C} (f : A → option B) (g : B → option C) (l : list A) :
  omap g (omap f l) = omap (λ x, f x ≫= g) l.
Proof.
  unfold omap. induction l as [|x l IH]; [done|]. simpl. destruct (f x) as [y|]; simpl; [|done].
  by rewrite IH.
Qed.
Lemma omap_pointwise {A B} (f g : A → option B) (l : list A) : (∀ x, f x = g x) → omap f l = omap g l.
Proof. intros Hfg. unfold omap. induction l as [|x l IH]; [done|]. simpl. by rewrite Hfg IH. Qed.
Lemma omap_sorted_keys {K V W} `{OrdKey K} (g : K → V → option W) (l : list (K * V)) :
  StronglySorted entry_le l → NoDup l.*1 →
  StronglySorted entry_le (omap (λ kv, pair kv.1 <$> g kv.1 kv.2) l) ∧
  NoDup (omap (λ kv, pair kv.1 <$> g kv.1 kv.2) l).*1 ∧
  (∀ k w, (k, w) ∈ omap (λ kv, pair kv.1 <$> g kv.1 kv.2) l ↔ ∃ v, (k, v) ∈ l ∧ g k v = Some w).
Proof.
  intros Hs Hn. assert (∀ k w, (k, w) ∈ omap (λ kv, pair kv.1 <$> g kv.1 kv.2) l ↔ ∃ v, (k, v) ∈ l ∧ g k v = Some w) as Hin.
  { intros k w. rewrite list_elem_of_omap. split.
    - intros ([k' v] & Hv & E). simpl in E. destruct (g k' v) as [w'|] eqn:Eg; [|done]. simpl in E.
      injection E as -> ->. by exists v.
    - intros (v & Hv & Eg). exists (k, v). split; [done|]. simpl. by rewrite Eg. }
  split_and!; [| |done]; clear Hin.
  - induction Hs as [|[k v] l Hs IH Hall]; [constructor|]. apply NoDup_cons in Hn as [_ Hn]. simpl.
    destruct (g k v) as [w|]; simpl; [|by apply IH]. constructor; [by apply IH|].
    apply Forall_forall. intros [k' w'] ([k2 v2] & Hin & E)%list_elem_of_omap. simpl in E.
    destruct (g k2 v2); [|done]. simpl in E. injection E as <- <-. rewrite -> Forall_forall in Hall. apply (Hall _ Hin).
  - clear Hs. induction l as [|[k v] l IH]; [constructor|]. apply NoDup_cons in Hn as [Hk Hn]. simpl.
    destruct (g k v) as [w|]; simpl; [|by apply IH]. constructor; [|by apply IH].
    intros ([k' w'] & Ek & ([k2 v2] & Hin & E)%list_elem_of_omap)%list_elem_of_fmap. simpl in *. subst k'.
    destruct (g k2 v2); [|done]. simpl in E. injection E as -> ->. apply Hk, list_elem_of_fmap. by exists (k, v2).
Qed.
(** A map updated pointwise iterates as its image. *)
Lemma btree_to_list_imap {K V W} `{OrdKey K, Countable K} (g : K → V → option W) (m : gmap K V) :
  btree_to_list (map_imap g m) = omap (λ kv, pair kv.1 <$> g kv.1 kv.2) (btree_to_list m).
Proof.
  destruct (omap_sorted_keys g (btree_to_list m)) as (H1 & H2 & H3); [apply btree_to_list_sorted|apply NoDup_btree_keys|].
  apply btree_to_list_unique; [done|done|]. intros k w. rewrite H3 map_lookup_imap bind_Some.
  by setoid_rewrite elem_of_btree_to_list.
Qed.
Lemma btree_to_list_filter {K V} `{OrdKey K, Countable K} (P : K * V → Prop) `{!∀ x, Decision (P x)} (m : gmap K V) :
  btree_to_list (filter P m) = filter P (btree_to_list m).
Proof.
  apply btree_to_list_unique.
  - eapply StronglySorted_sublist; [apply btree_to_list_sorted|apply sublist_filter].
  - eapply sublist_NoDup; [apply (NoDup_btree_keys m)|]. apply fmap_sublist, sublist_filter.
  - intros k v. rewrite list_elem_of_filter elem_of_btree_to_list map_lookup_filter_Some. naive_solver.
Qed.

(** The sum of a measure over the entries of a map ([values().map(..).sum()]). *)
Definition msum {K V} `{Countable K} (f : K → V → N) (m : gmap K V) : N :=
  map_fold (λ k v acc, f k v + acc) 0 m.

Section msum.
Context {K V : Type} `{Countable K}.
Implicit Types (f g : K → V → N) (m : gmap K V).

Lemma msum_empty f : msum f ∅ = 0.
Proof. apply map_fold_empty. Qed.
Lemma msum_insert_fresh f m k v :
  m !! k = None → msum f (<[k:=v]> m) = f k v + msum f m.
Proof. intros Hk. unfold msum. rw map_fold_insert_L //. intros. lia. Qed.
Lemma msum_delete f m k v :
  m !! k = Some v → msum f m = f k v + msum f (delete k m).
Proof.
  intros Hk. rewrite -{1}(insert_delete_id m k v Hk). apply msum_insert_fresh.
  apply lookup_delete_eq.
Qed.
Lemma msum_insert f m k v w :
  m !! k = Some v → msum f (<[k:=w]> m) + f k v = msum f m + f k w.
Proof.
  intros Hk. rw (msum_delete f m k v Hk).
  rw (msum_delete f (<[k:=w]> m) k w); [|apply lookup_insert_eq].
  rw delete_insert_eq. lia.
Qed.
Lemma msum_upsert f m k w :
  msum f (<[k:=w]> m) + match m !! k with Some v => f k v | None => 0 end = msum f m + f k w.
Proof.
  destruct (m !! k) as [v|] eqn:Hk; [by apply msum_insert|]. rw msum_insert_fresh //. lia.
Qed.
Lemma msum_ge f m k v : m !! k = Some v → f k v ≤ msum f m.
Proof. intros Hk. rw (msum_delete f m k v Hk). lia. Qed.
Lemma msum_mono f g m :
  (∀ k v, m !! k = Some v → f k v ≤ g k v) → msum f m ≤ msum g m.
Proof.
  induction m as [|k v m Hk IH] using map_ind; intros Hfg; [by rw !msum_empty|].
  rw !msum_insert_fresh //.
  assert (f k v ≤ g k v) by (apply Hfg, lookup_insert_eq).
  assert (msum f m ≤ msum g m); [|lia]. apply IH. intros k' v' ?. apply Hfg.
  rw lookup_insert_ne //. congruence.
Qed.
Lemma msum_ext f g m :
  (∀ k v, m !! k = Some v → f k v = g k v) → msum f m = msum g m.
Proof.
  intros Hfg. apply N.le_antisymm; apply msum_mono; intros ???; by rw Hfg.
Qed.
Lemma msum_add f g m : msum (λ k v, f k v + g k v) m = msum f m + msum g m.
Proof.
  induction m as [|k v m Hk IH] using map_ind; [by rw !msum_empty|].
  rw !msum_insert_fresh // IH. lia.
Qed.
Lemma msum_size m : msum (λ _ _, 1) m = N.of_nat (size m).
Proof.
  induction m as [|k v m Hk IH] using map_ind; [by rw msum_empty map_size_empty|].
  rw msum_insert_fresh // map_size_insert_None // IH. lia.
Qed.
End msum.
