(* ===== verification/Atomics.v ===== *)
(** * Programs over shared memory

    Code that several tasks run at once touches shared memory only through
    single atomic accesses: a load, a store, a read-modify-write. [prog] is
    such code as a value: it either returns, or performs one access and goes
    on with what the access yielded. [run] executes a program alone; an
    interleaving executes one access of one program at a time. [safe] is the
    proof rule for interleavings: a program owns some of the resources an
    invariant accounts for, and each of its accesses keeps the invariant
    whatever the other programs own. *)
From S2P Require Import Prelude.

Inductive prog (S A : Type) : Type :=
| Ret (a : A)
| Act (X : Type) (f : S → X * S) (k : X → prog S A).
Arguments Ret {S A} a.
Arguments Act {S A X} f k.

Fixpoint pbind {S A B} (p : prog S A) (k : A → prog S B) : prog S B :=
  match p with
  | Ret a => k a
  | Act f j => Act f (λ x, pbind (j x) k)
  end.
Definition pmap {S A B} (g : A → B) (p : prog S A) : prog S B := pbind p (λ a, Ret (g a)).
(** One access. *)
Definition act {S X} (f : S → X * S) : prog S X := Act f Ret.

Notation "x <-- e ; k" := (pbind e (λ x, k))
  (at level 20, e at level 100, k at level 200, only parsing) : iw_scope.
Notation "' p <-- e ; k" := (pbind e (λ x, match x with p => k end))
  (at level 20, p pattern, e at level 100, k at level 200, only parsing) : iw_scope.

(** The program alone. *)
Fixpoint run {S A} (p : prog S A) (s : S) : A * S :=
  match p with
  | Ret a => (a, s)
  | Act f k => let '(x, s) := f s in run (k x) s
  end.

Lemma run_bind {S A B} (p : prog S A) (k : A → prog S B) s :
  run (pbind p k) s = run (k (run p s).1) (run p s).2.
Proof.
  revert s. induction p as [a|X f j IH]; intros s; [done|]. simpl.
  destruct (f s) as [x s']. apply IH.
Qed.
Lemma run_map {S A B} (g : A → B) (p : prog S A) s : run (pmap g p) s = (g (run p s).1, (run p s).2).
Proof. unfold pmap. by rewrite run_bind. Qed.

(** Every value the program may return, whatever its accesses see. *)
Fixpoint always {S A} (P : A → Prop) (p : prog S A) : Prop :=
  match p with
  | Ret a => P a
  | Act f k => ∀ s, always P (k (f s).1)
  end.
Lemma always_bind {S A B} (P : B → Prop) (p : prog S A) (k : A → prog S B) :
  always (λ a, always P (k a)) p → always P (pbind p k).
Proof. induction p as [a|X f j IH]; [done|]. intros Hp s. apply IH, Hp. Qed.
Lemma always_mono {S A} (P Q : A → Prop) (p : prog S A) :
  (∀ a, P a → Q a) → always P p → always Q p.
Proof. intros HPQ. induction p as [a|X f j IH]; [apply HPQ|]. intros Hp s. apply IH, Hp. Qed.
Lemma always_true {S A} (P : A → Prop) (p : prog S A) : (∀ a, P a) → always P p.
Proof. intros HP. induction p as [a|X f j IH]; [apply HP|]. intros s. apply IH. Qed.

(** ** Ownership

    [inv k s g r] holds of the shared state [s] when the tasks together own
    [r], the one task with private state holds [g], and [k] is what has been
    learned so far, which only grows. *)
Class Resources (R : Type) := {
  r_op : R → R → R;
  r_assoc : Assoc (=) r_op;
  r_comm : Comm (=) r_op
}.
#[global] Existing Instance r_assoc.
#[global] Existing Instance r_comm.
Infix "⊙" := r_op (at level 50, left associativity) : iw_scope.

(** A change of what the owner claims, with no access. *)
Definition shifts {S R G K} `{Resources R} (grows : K → K → Prop) (inv : K → S → G → R → Prop)
    (k0 : K) (g : G) (r : R) (g' : G) (r' : R) : Prop :=
  ∀ k s f, grows k0 k → inv k s g (r ⊙ f) → inv k s g' (r' ⊙ f).

Section shifts.
Context {S R G K : Type} `{Resources R} (grows : K → K → Prop) (inv : K → S → G → R → Prop).
Abbreviation shifts := (shifts grows inv).

Lemma shifts_refl k g r : shifts k g r g r.
Proof. by intros ?. Qed.
Lemma shifts_trans k g1 r1 g2 r2 g3 r3 :
  shifts k g1 r1 g2 r2 → shifts k g2 r2 g3 r3 → shifts k g1 r1 g3 r3.
Proof. intros H1 H2 k' s f Hk Hi. by apply H2, H1. Qed.
Lemma shifts_mono `{!PreOrder grows} k k' g r g' r' :
  grows k k' → shifts k g r g' r' → shifts k' g r g' r'.
Proof. intros Hk Hs k2 s f Hk2. apply Hs. by etrans. Qed.
End shifts.

(** A program of a task that does not own [g]. *)
Section client.
Context {S R G K : Type} `{Resources R}.
Context (grows : K → K → Prop) `{!PreOrder grows}.
Context (inv : K → S → G → R → Prop).

Fixpoint safe_client {A} (k0 : K) (r : R) (p : prog S A) (Φ : A → K → R → Prop) : Prop :=
  match p with
  | Ret a => ∃ r', (∀ g, shifts grows inv k0 g r g r') ∧ Φ a k0 r'
  | Act f j =>
      ∀ k s g fr, grows k0 k → inv k s g (r ⊙ fr) →
      ∃ r', inv k (f s).2 g (r' ⊙ fr) ∧ safe_client k r' (j (f s).1) Φ
  end.

Lemma safe_client_bind {A B} k r (p : prog S A) (j : A → prog S B) Φ :
  safe_client k r p (λ a k' r', grows k k' → safe_client k' r' (j a) Φ) →
  safe_client k r (pbind p j) Φ.
Proof.
  assert (∀ k1, grows k k1 → safe_client k1 r p (λ a k' r', grows k k' → safe_client k' r' (j a) Φ) →
    safe_client k1 r (pbind p j) Φ) as Hgen; [|by apply Hgen].
  revert r. induction p as [a|X f i IH]; intros r k1 Hk1; simpl.
  - intros (r' & Hs & Hsafe). specialize (Hsafe Hk1). destruct (j a) as [b|Y f' i']; simpl in *.
    + destruct Hsafe as (r2 & Hs2 & HΦ). exists r2. split; [|done]. intros g. by eapply shifts_trans.
    + intros k2 s g fr Hk2 Hi. apply Hsafe; [done|]. by apply Hs.
  - intros Hp k2 s g fr Hk2 Hi. destruct (Hp k2 s g fr Hk2 Hi) as (r' & Hi' & Hs).
    exists r'. split; [done|]. apply IH; [|done]. by etrans.
Qed.
Lemma safe_client_shift {A} k r r' (p : prog S A) Φ :
  (∀ g, shifts grows inv k g r g r') → safe_client k r' p Φ → safe_client k r p Φ.
Proof.
  intros Hs. destruct p as [a|X f i]; simpl.
  - intros (r2 & Hs2 & HΦ). exists r2. split; [|done]. intros g. by eapply shifts_trans.
  - intros Hp k2 s g fr Hk2 Hi. apply Hp; [done|]. by apply Hs.
Qed.
Lemma safe_client_wand {A} k r (p : prog S A) (Φ Ψ : A → K → R → Prop) :
  safe_client k r p Φ → (∀ a k' r', grows k k' → Φ a k' r' → Ψ a k' r') → safe_client k r p Ψ.
Proof.
  intros Hp HΦ.
  assert (∀ k1, grows k k1 → safe_client k1 r p Φ → safe_client k1 r p Ψ) as Hgen; [|by apply Hgen].
  clear Hp. revert r. induction p as [a|X f i IH]; intros r k1 Hk1; simpl.
  - intros (r' & Hs & Ha). exists r'. split; [done|]. by apply HΦ.
  - intros Hp k2 s g fr Hk2 Hi. destruct (Hp k2 s g fr Hk2 Hi) as (r' & Hi' & Hs).
    exists r'. split; [done|]. apply IH; [|done]. by etrans.
Qed.
Lemma safe_client_mono {A} k k1 r (p : prog S A) (Φ : A → K → R → Prop) :
  (∀ a k r k', grows k k' → Φ a k r → Φ a k' r) →
  grows k k1 → safe_client k r p Φ → safe_client k1 r p Φ.
Proof.
  intros HΦ Hk. destruct p as [a|X f i]; simpl.
  - intros (r' & Hs & Ha). exists r'. split; [|by eapply HΦ]. intros g. by eapply shifts_mono.
  - intros Hp k2 s g fr Hk2. apply Hp. by etrans.
Qed.
End client.

(** The program of the task that owns [g]. [learns] is what one of its accesses
    may add to what is known. *)
Class Knows {K} (grows learns : K → K → Prop) := {
  knows_preorder : PreOrder grows;
  knows_refl : Reflexive learns;
  knows_sub : ∀ k k', learns k k' → grows k k'
}.
Section owner.
Context {S R G K : Type} `{Resources R}.
Context (grows learns : K → K → Prop) {Hknows : Knows grows learns}.
Context (inv : K → S → G → R → Prop).
#[local] Instance owner_preorder : PreOrder grows := knows_preorder.

Fixpoint safe {A} (k0 : K) (g : G) (r : R) (p : prog S A) (Φ : A → K → G → R → Prop) : Prop :=
  match p with
  | Ret a => ∃ g' r', shifts grows inv k0 g r g' r' ∧ Φ a k0 g' r'
  | Act f j =>
      ∀ k s fr, grows k0 k → inv k s g (r ⊙ fr) →
      ∃ k' g' r', learns k k' ∧ inv k' (f s).2 g' (r' ⊙ fr) ∧ safe k' g' r' (j (f s).1) Φ
  end.

Lemma safe_bind {A B} k g r (p : prog S A) (j : A → prog S B) Φ :
  safe k g r p (λ a k' g' r', grows k k' → safe k' g' r' (j a) Φ) → safe k g r (pbind p j) Φ.
Proof.
  assert (∀ k1, grows k k1 → safe k1 g r p (λ a k' g' r', grows k k' → safe k' g' r' (j a) Φ) →
    safe k1 g r (pbind p j) Φ) as Hgen; [|by apply Hgen].
  revert g r. induction p as [a|X f i IH]; intros g r k1 Hk1; simpl.
  - intros (g' & r' & Hs & Hsafe). specialize (Hsafe Hk1). destruct (j a) as [b|Y f' i']; simpl in *.
    + destruct Hsafe as (g2 & r2 & Hs2 & HΦ). exists g2, r2. split; [by eapply shifts_trans|done].
    + intros k2 s fr Hk2 Hi. apply Hsafe; [done|]. by apply Hs.
  - intros Hp k2 s fr Hk2 Hi. destruct (Hp k2 s fr Hk2 Hi) as (k' & g' & r' & Hk' & Hi' & Hs).
    exists k', g', r'. split; [done|]. split; [done|]. apply IH; [|done]. etrans; [exact Hk1|]. etrans; [exact Hk2|]. by apply knows_sub.
Qed.
Lemma safe_shift {A} k g r g' r' (p : prog S A) Φ :
  shifts grows inv k g r g' r' → safe k g' r' p Φ → safe k g r p Φ.
Proof.
  intros Hs. destruct p as [a|X f i]; simpl.
  - intros (g2 & r2 & Hs2 & HΦ). exists g2, r2. split; [by eapply shifts_trans|done].
  - intros Hp k2 s fr Hk2 Hi. apply Hp; [done|]. by apply Hs.
Qed.
Lemma safe_wand {A} k g r (p : prog S A) (Φ Ψ : A → K → G → R → Prop) :
  safe k g r p Φ → (∀ a k' g' r', grows k k' → Φ a k' g' r' → Ψ a k' g' r') → safe k g r p Ψ.
Proof.
  intros Hp HΦ. assert (∀ k1, grows k k1 → safe k1 g r p Φ → safe k1 g r p Ψ) as Hgen; [|by apply Hgen].
  clear Hp. revert g r. induction p as [a|X f i IH]; intros g r k1 Hk1; simpl.
  - intros (g' & r' & Hs & Ha). exists g', r'. split; [done|]. by apply HΦ.
  - intros Hp k2 s fr Hk2 Hi. destruct (Hp k2 s fr Hk2 Hi) as (k' & g' & r' & Hk' & Hi' & Hs).
    exists k', g', r'. split; [done|]. split; [done|]. apply IH; [|done]. etrans; [exact Hk1|]. etrans; [exact Hk2|]. by apply knows_sub.
Qed.
Lemma safe_mono {A} k k1 g r (p : prog S A) (Φ : A → K → G → R → Prop) :
  (∀ a k g r k', grows k k' → Φ a k g r → Φ a k' g r) →
  grows k k1 → safe k g r p Φ → safe k1 g r p Φ.
Proof.
  intros HΦ Hk. destruct p as [a|X f i]; simpl.
  - intros (g' & r' & Hs & Ha). exists g', r'. split; [by apply (shifts_mono grows inv k)|by eapply HΦ].
  - intros Hp k2 s fr Hk2. apply Hp. by etrans.
Qed.
(** What any task may do, the owner of [g] may do. *)
Lemma safe_of_client {A} k g r (p : prog S A) Φ :
  safe_client grows inv k r p (λ a k' r', Φ a k' g r') → safe k g r p Φ.
Proof.
  assert (∀ k1, grows k k1 → safe_client grows inv k1 r p (λ a k' r', Φ a k' g r') → safe k1 g r p Φ) as Hgen;
    [|by apply Hgen].
  revert r. induction p as [a|X f i IH]; intros r k1 Hk1; simpl.
  - intros (r' & Hs & Ha). by exists g, r'.
  - intros Hp k2 s fr Hk2 Hi. destruct (Hp k2 s g fr Hk2 Hi) as (r' & Hi' & Hs).
    exists k2, g, r'. split; [apply knows_refl|]. split; [done|]. apply IH; [|done]. by etrans.
Qed.
End owner.
