(* ===== verification/Ids.v ===== *)
(** * Identifiers

    [crates/api/transport-api/src/ids.rs]: the identifier newtypes, whose
    grammars hold by construction.  A newtype over [String] is a record over
    its UTF-8 bytes; [parse] is the only constructor the source exports, so
    "well formed" ([*_wf]) is exactly "some [parse] returned it".

    The base58 decoder used by [TransportIdentity] is a third-party crate and
    is a parameter. *)
From S2P Require Import Prelude.
From Stdlib Require Strings.String.
Local Open Scope N_scope.

(** Byte strings written as literals. *)
Definition bs (s : string) : bytes := Stdlib.Strings.String.list_byte_of_string s.
Arguments bs s%_string_scope.

(** ** The [u8] character classes *)
Definition in_range (lo hi : N) (b : byte) : bool :=
  (lo <=? byte_val b) && (byte_val b <=? hi).
Definition is_ascii_lowercase := in_range 97 122.
Definition is_ascii_uppercase := in_range 65 90.
Definition is_ascii_digit := in_range 48 57.
Definition is_ascii_alphanumeric (b : byte) : bool :=
  is_ascii_lowercase b || is_ascii_uppercase b || is_ascii_digit b.
Definition byte_in (l : bytes) (b : byte) : bool := bool_decide (b ∈ l).

Inductive IdError :=
| IdEmpty
| IdTooLong (got max : N)
| IdIllegalByte (index : N) (b : byte)
| IdIllegalLeadingByte (b : byte)
| IdWrongLength (got expected : N)
| IdNotCanonicalPeerId.

#[global] Instance IdError_eq_dec : EqDecision IdError.
Proof. solve_decision. Defined.

(** [for (index, &b) in bytes.iter().enumerate() { if !ok(b) { return Err(..) } }] *)
Fixpoint first_illegal (ok : byte → bool) (index : N) (l : bytes) : option (N * byte) :=
  match l with
  | [] => None
  | b :: l => if ok b then first_illegal ok (index + 1) l else Some (index, b)
  end.

(** ** [EndpointId] *)
Record EndpointId := MkEndpointId { EndpointId_as_str : bytes }.
Definition EndpointId_MAX_BYTES : N := 64.

Definition endpoint_byte_ok (b : byte) : bool :=
  is_ascii_lowercase b || is_ascii_digit b || byte_in (bs "._-") b.

Definition EndpointId_parse (value : bytes) : result EndpointId IdError :=
  match value with
  | [] => Err IdEmpty
  | first :: _ =>
      if EndpointId_MAX_BYTES <? len value
      then Err (IdTooLong (len value) EndpointId_MAX_BYTES)
      else if negb (is_ascii_lowercase first)
      then Err (IdIllegalLeadingByte first)
      else match first_illegal endpoint_byte_ok 0 value with
           | Some (index, b) => Err (IdIllegalByte index b)
           | None => Ok (MkEndpointId value)
           end
  end.

(** ** [ChannelId] *)
Record ChannelId := MkChannelId { ChannelId_as_str : bytes }.
Definition ChannelId_MAX_BYTES : N := 128.

Definition channel_byte_ok (b : byte) : bool :=
  is_ascii_alphanumeric b || byte_in (bs "._:/-") b.

Definition ChannelId_parse (value : bytes) : result ChannelId IdError :=
  match value with
  | [] => Err IdEmpty
  | first :: _ =>
      if ChannelId_MAX_BYTES <? len value
      then Err (IdTooLong (len value) ChannelId_MAX_BYTES)
      else if negb (is_ascii_alphanumeric first)
      then Err (IdIllegalLeadingByte first)
      else match first_illegal channel_byte_ok 0 value with
           | Some (index, b) => Err (IdIllegalByte index b)
           | None => Ok (MkChannelId value)
           end
  end.

(** ** [MessageId] *)
Record MessageId := MkMessageId { MessageId_as_bytes : bytes }.
Definition MessageId_HEX_CHARS : N := 32.
Definition MessageId_LEN : nat := 16.
Definition MessageId_wf (m : MessageId) : Prop :=
  length (MessageId_as_bytes m) = MessageId_LEN.

Definition HEX_DIGITS : bytes := bs "0123456789abcdef".
Definition hex_digit (v : N) : byte := default x00 (HEX_DIGITS !! N.to_nat v).

Definition lower_hex_value (b : byte) : option N :=
  let v := byte_val b in
  if (48 <=? v) && (v <=? 57) then Some (v - 48)
  else if (97 <=? v) && (v <=? 102) then Some (v - 97 + 10)
  else None.

(** The pair loop of [parse_hex], starting at pair [i]. *)
Fixpoint parse_hex_pairs (i : N) (l : bytes) : result bytes IdError :=
  match l with
  | a :: b :: l =>
      match lower_hex_value a with
      | None => Err (IdIllegalByte (i * 2) a)
      | Some hi =>
          match lower_hex_value b with
          | None => Err (IdIllegalByte (i * 2 + 1) b)
          | Some lo =>
              rest <-? parse_hex_pairs (i + 1) l;
              Ok (byte_of (N.lor (N.shiftl hi 4) lo) :: rest)
          end
      end
  | _ => Ok []
  end.

Definition MessageId_parse_hex (value : bytes) : result MessageId IdError :=
  if len value =? MessageId_HEX_CHARS
  then out <-? parse_hex_pairs 0 value; Ok (MkMessageId out)
  else Err (IdWrongLength (len value) MessageId_HEX_CHARS).

Definition MessageId_to_hex (m : MessageId) : bytes :=
  MessageId_as_bytes m ≫= λ b,
    [hex_digit (N.shiftr (byte_val b) 4); hex_digit (N.land (byte_val b) 15)].

(** ** [TransportIdentity] *)
Record TransportIdentity := MkTransportIdentity { TransportIdentity_as_str : bytes }.
Definition TransportIdentity_MAX_BYTES : N := 256.

Definition strip_prefix (p value : bytes) : option bytes :=
  if decide (p = ntake (len p) value) then Some (ndrop (len p) value) else None.

Definition base58_byte_ok (b : byte) : bool :=
  is_ascii_alphanumeric b && negb (byte_in (bs "0OIl") b).

Section TransportIdentity.
(** [bs58::decode(value).onto(&mut buf)] with a 64-byte buffer: [None] for
    a decoding or buffer error. *)
Variable bs58_decode_onto : N → bytes → option bytes.

Definition check_canonical (value : bytes) : result unit IdError :=
  let ed25519 := bool_decide (is_Some (strip_prefix (bs "12D3KooW") value)) in
  match (match strip_prefix (bs "12D3KooW") value with
         | Some r => Some r
         | None => strip_prefix (bs "Qm") value
         end) with
  | None => Err IdNotCanonicalPeerId
  | Some rest =>
      if negb (len rest =? 44) then Err IdNotCanonicalPeerId
      else if negb (forallb base58_byte_ok rest) then Err IdNotCanonicalPeerId
      else match bs58_decode_onto 64 value with
           | None => Err IdNotCanonicalPeerId
           | Some decoded =>
               if ed25519 then
                 if negb (len decoded =? 38)
                    || negb (bool_decide (ntake 6 decoded = [x00; x24; x08; x01; x12; x20]))
                 then Err IdNotCanonicalPeerId else Ok tt
               else
                 if negb (len decoded =? 34)
                    || negb (bool_decide (ntake 2 decoded = [x12; x20]))
                 then Err IdNotCanonicalPeerId else Ok tt
           end
  end.

Definition TransportIdentity_parse (value : bytes) : result TransportIdentity IdError :=
  match value with
  | [] => Err IdEmpty
  | _ =>
      if TransportIdentity_MAX_BYTES <? len value
      then Err (IdTooLong (len value) TransportIdentity_MAX_BYTES)
      else _ <-? check_canonical value; Ok (MkTransportIdentity value)
  end.
End TransportIdentity.

(** ** Instances: every identifier is a key *)
#[global] Instance EndpointId_eq_dec : EqDecision EndpointId.
Proof. solve_decision. Defined.
#[global] Instance ChannelId_eq_dec : EqDecision ChannelId.
Proof. solve_decision. Defined.
#[global] Instance MessageId_eq_dec : EqDecision MessageId.
Proof. solve_decision. Defined.
#[global] Instance TransportIdentity_eq_dec : EqDecision TransportIdentity.
Proof. solve_decision. Defined.
#[global] Program Instance EndpointId_countable : Countable EndpointId :=
  inj_countable' EndpointId_as_str MkEndpointId _.
Next Obligation. by intros []. Qed.
#[global] Program Instance ChannelId_countable : Countable ChannelId :=
  inj_countable' ChannelId_as_str MkChannelId _.
Next Obligation. by intros []. Qed.
#[global] Program Instance MessageId_countable : Countable MessageId :=
  inj_countable' MessageId_as_bytes MkMessageId _.
Next Obligation. by intros []. Qed.
#[global] Program Instance TransportIdentity_countable : Countable TransportIdentity :=
  inj_countable' TransportIdentity_as_str MkTransportIdentity _.
Next Obligation. by intros []. Qed.
#[global] Instance EndpointId_as_str_inj : Inj (=) (=) EndpointId_as_str.
Proof. by intros [] [] [=->]. Qed.
#[global] Instance EndpointId_ord : OrdKey EndpointId := newtype_ord_key EndpointId_as_str.
#[global] Instance ChannelId_as_str_inj : Inj (=) (=) ChannelId_as_str.
Proof. by intros [] [] [=->]. Qed.
#[global] Instance ChannelId_ord : OrdKey ChannelId := newtype_ord_key ChannelId_as_str.
#[global] Instance TransportIdentity_as_str_inj : Inj (=) (=) TransportIdentity_as_str.
Proof. by intros [] [] [=->]. Qed.
#[global] Instance TransportIdentity_ord : OrdKey TransportIdentity := newtype_ord_key TransportIdentity_as_str.

(** ** Grammar of the parsed identifiers *)

Lemma first_illegal_None ok i l :
  first_illegal ok i l = None ↔ Forall (λ b, ok b = true) l.
Proof.
  revert i. induction l as [|b l IH]; intros i; simpl; [done|].
  rw Forall_cons. destruct (ok b) eqn:E; rw ?IH; naive_solver.
Qed.

Lemma first_illegal_Some ok i l j b :
  first_illegal ok i l = Some (j, b) ↔
  ∃ pre post, l = pre ++ b :: post ∧ j = i + len pre ∧
              Forall (λ c, ok c = true) pre ∧ ok b = false.
Proof.
  revert i. induction l as [|c l IH]; intros i; simpl.
  { split; [done|]. intros (pre & post & H & _). by destruct pre. }
  destruct (ok c) eqn:E.
  - rw IH. split.
    + intros (pre & post & -> & -> & ? & ?). exists (c :: pre), post.
      rw len_cons Forall_cons. repeat split; try done; lia.
    + intros (pre & post & H & -> & Hpre & ?). destruct pre as [|c' pre]; simplify_eq/=.
      { congruence. }
      exists pre, post. rw len_cons. apply Forall_cons in Hpre as [_ ?].
      repeat split; try done; lia.
  - split.
    + intros [= <- <-]. exists [], l. rw len_nil. repeat split; try done; lia.
    + intros (pre & post & H & -> & Hpre & ?). destruct pre as [|c' pre]; simplify_eq/=.
      * by rw N.add_0_r.
      * apply Forall_cons in Hpre as [? _]. congruence.
Qed.

(** [^[a-z][a-z0-9._-]{0,63}$] *)
Definition endpoint_grammar (l : bytes) : Prop :=
  ∃ c rest, l = c :: rest ∧ is_ascii_lowercase c = true ∧ len rest ≤ 63 ∧
            Forall (λ b, endpoint_byte_ok b = true) rest.
(** [^[A-Za-z0-9][A-Za-z0-9._:/-]{0,127}$] *)
Definition channel_grammar (l : bytes) : Prop :=
  ∃ c rest, l = c :: rest ∧ is_ascii_alphanumeric c = true ∧ len rest ≤ 127 ∧
            Forall (λ b, channel_byte_ok b = true) rest.

Definition EndpointId_wf (e : EndpointId) : Prop := endpoint_grammar (EndpointId_as_str e).
Definition ChannelId_wf (c : ChannelId) : Prop := channel_grammar (ChannelId_as_str c).

Lemma EndpointId_parse_Ok value e :
  EndpointId_parse value = Ok e ↔ e = MkEndpointId value ∧ endpoint_grammar value.
Proof.
  unfold EndpointId_parse, endpoint_grammar, EndpointId_MAX_BYTES.
  destruct value as [|c rest]; [split; [done|]; by intros (_ & ? & ? & ? & _)|].
  rw len_cons. destruct (N.ltb_spec 64 (1 + len rest)); 
    [split; [done|]; intros (_ & ? & ? & [= <- <-] & _ & ? & _); lia|].
  destruct (is_ascii_lowercase c) eqn:Ec; simpl;
    [|split; [done|]; intros (_ & ? & ? & [= <- <-] & ? & _); congruence].
  assert (endpoint_byte_ok c = true) as Hc by (unfold endpoint_byte_ok; by rw Ec).
  rw Hc. destruct (first_illegal endpoint_byte_ok (0 + 1) rest) as [[j b]|] eqn:E.
  - split; [done|]. intros (_ & c' & rest' & [= <- <-] & _ & _ & HF).
    apply (first_illegal_None _ (0 + 1)) in HF. simpl in *. congruence.
  - apply first_illegal_None in E. split; [|by intros [-> _]].
    intros [= <-]. split; [done|]. exists c, rest. repeat split; try done; lia.
Qed.

Lemma ChannelId_parse_Ok value e :
  ChannelId_parse value = Ok e ↔ e = MkChannelId value ∧ channel_grammar value.
Proof.
  unfold ChannelId_parse, channel_grammar, ChannelId_MAX_BYTES.
  destruct value as [|c rest]; [split; [done|]; by intros (_ & ? & ? & ? & _)|].
  rw len_cons. destruct (N.ltb_spec 128 (1 + len rest)); 
    [split; [done|]; intros (_ & ? & ? & [= <- <-] & _ & ? & _); lia|].
  destruct (is_ascii_alphanumeric c) eqn:Ec; simpl;
    [|split; [done|]; intros (_ & ? & ? & [= <- <-] & ? & _); congruence].
  assert (channel_byte_ok c = true) as Hc by (unfold channel_byte_ok; by rw Ec).
  rw Hc. destruct (first_illegal channel_byte_ok (0 + 1) rest) as [[j b]|] eqn:E.
  - split; [done|]. intros (_ & c' & rest' & [= <- <-] & _ & _ & HF).
    apply (first_illegal_None _ (0 + 1)) in HF. simpl in *. congruence.
  - apply first_illegal_None in E. split; [|by intros [-> _]].
    intros [= <-]. split; [done|]. exists c, rest. repeat split; try done; lia.
Qed.

Lemma EndpointId_wf_len e : EndpointId_wf e → 1 ≤ len (EndpointId_as_str e) ≤ 64.
Proof. intros (c & rest & -> & _ & ? & _). rw len_cons. lia. Qed.

Lemma EndpointId_wf_parse e :
  EndpointId_wf e → EndpointId_parse (EndpointId_as_str e) = Ok e.
Proof. intros H. apply EndpointId_parse_Ok. by destruct e. Qed.

(** ** Hexadecimal message identifiers *)

Lemma lower_hex_value_digit v :
  v < 16 → lower_hex_value (hex_digit v) = Some v.
Proof. revert v. refine (N_lt_check _ _ _). by vm_compute. Qed.

Lemma lower_hex_value_Some b v :
  lower_hex_value b = Some v → v < 16 ∧ hex_digit v = b.
Proof. destruct b; vm_compute; intros [= <-] || intros [=]; by split. Qed.

Lemma hex_nibbles_byte x :
  x < 256 →
  let hi := x / 16 in let lo := x mod 16 in
  N.lor (N.shiftl hi 4) lo < 256 ∧
  N.shiftr (N.lor (N.shiftl hi 4) lo) 4 = hi ∧ N.land (N.lor (N.shiftl hi 4) lo) 15 = lo.
Proof. revert x. refine (N_lt_check _ _ _). by vm_compute. Qed.

Lemma hex_nibbles hi lo :
  hi < 16 → lo < 16 →
  N.lor (N.shiftl hi 4) lo < 256 ∧
  N.shiftr (N.lor (N.shiftl hi 4) lo) 4 = hi ∧ N.land (N.lor (N.shiftl hi 4) lo) 15 = lo.
Proof.
  intros Hhi Hlo. pose proof (hex_nibbles_byte (hi * 16 + lo) ltac:(lia)) as H.
  cbv zeta in H.
  replace ((hi * 16 + lo) / 16) with hi in H
    by (apply N.div_unique with lo; lia).
  by replace ((hi * 16 + lo) mod 16) with lo in H
    by (apply N.mod_unique with hi; lia).
Qed.

Lemma byte_nibbles b :
  byte_of (N.lor (N.shiftl (N.shiftr (byte_val b) 4) 4) (N.land (byte_val b) 15)) = b.
Proof. by destruct b. Qed.
Lemma byte_nibble_hi b : N.shiftr (byte_val b) 4 < 16.
Proof. by destruct b. Qed.
Lemma byte_nibble_lo b : N.land (byte_val b) 15 < 16.
Proof. by destruct b. Qed.

Definition hex_bytes (l : bytes) : bytes := MessageId_to_hex (MkMessageId l).

Lemma hex_bytes_cons b l :
  hex_bytes (b :: l) =
  hex_digit (N.shiftr (byte_val b) 4) :: hex_digit (N.land (byte_val b) 15) :: hex_bytes l.
Proof. done. Qed.

Lemma length_hex_bytes l : length (hex_bytes l) = (2 * length l)%nat.
Proof. induction l as [|b l IH]; [done|]. rw hex_bytes_cons. simpl. lia. Qed.

Lemma parse_hex_pairs_hex i l : parse_hex_pairs i (hex_bytes l) = Ok l.
Proof.
  revert i. induction l as [|b l IH]; intros i; [done|].
  rw hex_bytes_cons. cbn [parse_hex_pairs].
  rw !lower_hex_value_digit ?IH; [|apply byte_nibble_lo|apply byte_nibble_hi].
  simpl. by rw byte_nibbles.
Qed.

Lemma hex_parse_hex_pairs i l out n :
  length l = (2 * n)%nat → parse_hex_pairs i l = Ok out →
  hex_bytes out = l ∧ length out = n.
Proof.
  revert i l out. induction n as [|n IH]; intros i l out Hlen H.
  { destruct l; [|done]. by simplify_eq/=. }
  destruct l as [|a [|b l]]; simpl in Hlen; try lia. cbn [parse_hex_pairs] in H.
  destruct (lower_hex_value a) as [hi|] eqn:Ea; [|done].
  destruct (lower_hex_value b) as [lo|] eqn:Eb; [|done].
  apply result_bind_Ok in H as (rest & Hr & [= <-]).
  apply IH in Hr as [Hr Hl]; [|lia].
  apply lower_hex_value_Some in Ea as [? Ha], Eb as [? Hb].
  destruct (hex_nibbles hi lo) as (Hlt & Hhi & Hlo); [done..|].
  rw hex_bytes_cons byte_val_of. rewrite -> N.mod_small by done.
  rw Hhi Hlo Ha Hb Hr /=. by rw Hl.
Qed.

(** ** Properties *)

(** [EndpointId::parse] accepts exactly the contract grammar
    [^[a-z][a-z0-9._-]{0,63}$] and keeps the text unchanged; each refusal
    names the true reason, and an [IllegalByte] names the first offending
    position. *)
Theorem endpoint_parse_spec (value : bytes) :
  match EndpointId_parse value with
  | Ok e => EndpointId_as_str e = value ∧ endpoint_grammar value
  | Err IdEmpty => value = []
  | Err (IdTooLong got max) => got = len value ∧ max = 64 ∧ 64 < len value
  | Err (IdIllegalLeadingByte b) =>
      ∃ rest, value = b :: rest ∧ is_ascii_lowercase b = false ∧ len value ≤ 64
  | Err (IdIllegalByte i b) =>
      ∃ pre post, value = pre ++ b :: post ∧ i = len pre ∧ len value ≤ 64 ∧
        Forall (λ c, endpoint_byte_ok c = true) pre ∧ endpoint_byte_ok b = false
  | Err _ => False
  end.
Proof.
  destruct (EndpointId_parse value) as [e|err] eqn:E.
  { by apply EndpointId_parse_Ok in E as [-> ?]. }
  unfold EndpointId_parse, EndpointId_MAX_BYTES in E.
  destruct value as [|c rest]; [by simplify_eq|].
  destruct (N.ltb_spec 64 (len (c :: rest))); [by simplify_eq|].
  destruct (is_ascii_lowercase c) eqn:Ec; [|injection E as <-; by exists rest].
  destruct (first_illegal _ _ _) as [[j b]|] eqn:F; [|done].
  apply first_illegal_Some in F as (pre & post & Heq & -> & ? & ?).
  injection E as <-. exists pre, post. rw N.add_0_l. by repeat split.
Qed.

(** the canonical hexadecimal form of a [MessageId] round-trips in both
    directions: every identifier prints to a string that parses back to it,
    and a string that parses is the one its identifier prints to, so there is
    exactly one spelling. *)
Theorem message_id_hex_roundtrip (m : MessageId) :
  (MessageId_wf m ↔ MessageId_parse_hex (MessageId_to_hex m) = Ok m) ∧
  ∀ s, MessageId_parse_hex s = Ok m → MessageId_to_hex m = s ∧ MessageId_wf m.
Proof.
  assert (∀ s, MessageId_parse_hex s = Ok m → MessageId_to_hex m = s ∧ MessageId_wf m) as Hinv.
  { intros s H. unfold MessageId_parse_hex, MessageId_HEX_CHARS in H.
    destruct (N.eqb_spec (len s) 32) as [Hs|]; [|done].
    apply result_bind_Ok in H as (out & H & [= <-]).
    apply (hex_parse_hex_pairs _ _ _ 16) in H; [|unfold len in Hs; lia].
    by destruct H. }
  split; [|done]. split; [|by intros [_ ?]%Hinv].
  intros Hwf. destruct m as [l]. unfold MessageId_wf, MessageId_LEN in Hwf. simpl in Hwf.
  unfold MessageId_parse_hex. change (MessageId_to_hex _) with (hex_bytes l).
  rw parse_hex_pairs_hex /len length_hex_bytes Hwf //.
Qed.

Lemma strip_prefix_Some p value rest :
  strip_prefix p value = Some rest → value = p ++ rest.
Proof.
  unfold strip_prefix. case_decide as Hp; [|done]. intros [= <-].
  rewrite {1}Hp. by rw ntake_ndrop.
Qed.

(** Whatever the base58 decoder answers, an accepted [TransportIdentity] is
    its own text, at one of the two canonical lengths. *)
Lemma TransportIdentity_parse_Ok dec value p :
  TransportIdentity_parse dec value = Ok p →
  TransportIdentity_as_str p = value ∧ (len value = 52 ∨ len value = 46).
Proof.
  unfold TransportIdentity_parse. destruct value as [|c v] eqn:Hv; [done|].
  rw -Hv. destruct (_ <? _); [done|].
  rw result_bind_Ok => -[[] [Hc [= <-]]]. split; [done|].
  unfold check_canonical in Hc.
  destruct (strip_prefix (bs "12D3KooW") value) as [r|] eqn:E1;
    [|destruct (strip_prefix (bs "Qm") value) as [r|] eqn:E2; [|done]];
    (destruct (N.eqb_spec (len r) 44) as [Hr|]; [|done]);
    [apply strip_prefix_Some in E1 as ->|apply strip_prefix_Some in E2 as ->];
    rw len_app Hr; by [left|right].
Qed.
