(* ===== verification/Payload.v ===== *)
(** * Payloads and the bounds-checked wire reader

    [crates/api/transport-api/src/payload.rs] (media types and payloads), the
    [Cursor] that both frame decoders use ([direct_v2.rs], and its private
    twin in [broadcast_v1.rs]), and the part of [core::str::from_utf8] they
    rely on. *)
From S2P Require Import Prelude Ids.
Local Open Scope N_scope.

(** ** [core::str::from_utf8]: well-formed UTF-8 byte sequences *)
Definition utf8_cont (b : byte) : bool := in_range 128 191 b.

Fixpoint utf8_valid (l : bytes) : bool :=
  match l with
  | [] => true
  | b0 :: l =>
      let v := byte_val b0 in
      if v <? 128 then utf8_valid l
      else if (194 <=? v) && (v <=? 223) then
        match l with b1 :: l => utf8_cont b1 && utf8_valid l | _ => false end
      else if (224 <=? v) && (v <=? 239) then
        match l with
        | b1 :: b2 :: l =>
            in_range (if v =? 224 then 160 else 128) (if v =? 237 then 159 else 191) b1
            && utf8_cont b2 && utf8_valid l
        | _ => false
        end
      else if (240 <=? v) && (v <=? 244) then
        match l with
        | b1 :: b2 :: b3 :: l =>
            in_range (if v =? 240 then 144 else 128) (if v =? 244 then 143 else 191) b1
            && utf8_cont b2 && utf8_cont b3 && utf8_valid l
        | _ => false
        end
      else false
  end.

Lemma utf8_valid_ascii l : Forall (λ b, byte_val b < 128) l → utf8_valid l = true.
Proof.
  induction 1 as [|b l Hb _ IH]; [done|]. simpl.
  by rewrite -> (proj2 (N.ltb_lt _ _) Hb).
Qed.

(** ** Media types and payloads *)
Definition MAX_PAYLOAD_BYTES : N := 49152.
Definition MAX_MEDIA_TYPE_BYTES : N := 128.

Inductive PayloadError :=
| PayloadTooLargeErr (got limit : N)
| EmptyMediaType
| MediaTypeTooLong (got : N)
| MediaTypeNotAscii (index : N).

Record MediaType := MkMediaType { MediaType_as_str : bytes }.

Definition media_byte_ok (b : byte) : bool := in_range 32 126 b.

Definition MediaType_parse (value : bytes) : result MediaType PayloadError :=
  match value with
  | [] => Err EmptyMediaType
  | _ =>
      if MAX_MEDIA_TYPE_BYTES <? len value then Err (MediaTypeTooLong (len value))
      else match first_illegal media_byte_ok 0 value with
           | Some (index, _) => Err (MediaTypeNotAscii index)
           | None => Ok (MkMediaType value)
           end
  end.

Record Payload := MkPayload {
  Payload_media_type : option MediaType;
  Payload_bytes : bytes
}.

Definition Payload_new (media_type : option MediaType) (b : bytes) (limit : N) :
    result Payload PayloadError :=
  let limit := N.min limit MAX_PAYLOAD_BYTES in
  if limit <? len b then Err (PayloadTooLargeErr (len b) limit)
  else Ok (MkPayload media_type b).

Definition Payload_at_ceiling (media_type : option MediaType) (b : bytes) :
    result Payload PayloadError :=
  Payload_new media_type b MAX_PAYLOAD_BYTES.

#[global] Instance PayloadError_eq_dec : EqDecision PayloadError.
Proof. solve_decision. Defined.
#[global] Instance MediaType_eq_dec : EqDecision MediaType.
Proof. solve_decision. Defined.
#[global] Instance Payload_eq_dec : EqDecision Payload.
Proof. solve_decision. Defined.

(** Well-formed values: those the checked constructors return. *)
Definition MediaType_wf (m : MediaType) : Prop :=
  1 ≤ len (MediaType_as_str m) ≤ 128 ∧
  Forall (λ b, media_byte_ok b = true) (MediaType_as_str m).
Definition Payload_wf (p : Payload) : Prop :=
  len (Payload_bytes p) ≤ MAX_PAYLOAD_BYTES ∧
  match Payload_media_type p with Some m => MediaType_wf m | None => True end.

Lemma MediaType_parse_Ok value m :
  MediaType_parse value = Ok m ↔ m = MkMediaType value ∧ MediaType_wf m.
Proof.
  unfold MediaType_parse, MediaType_wf, MAX_MEDIA_TYPE_BYTES.
  destruct value as [|c v] eqn:E.
  { split; [done|]. intros [-> [H _]]. change (1 ≤ 0 ≤ 128) in H. lia. }
  rw -E. assert (1 ≤ len value) by (rw E len_cons; lia).
  destruct (N.ltb_spec 128 (len value)).
  { split; [done|]. intros [-> [? _]]. simpl in *. lia. }
  destruct (first_illegal _ _ _) as [[j b]|] eqn:F.
  - split; [done|]. intros [-> [_ HF]]. simpl in HF.
    apply (first_illegal_None _ 0) in HF. congruence.
  - apply first_illegal_None in F. split; [|naive_solver].
    intros [= <-]. done.
Qed.

Lemma MediaType_wf_parse m : MediaType_wf m → MediaType_parse (MediaType_as_str m) = Ok m.
Proof. intros H. apply MediaType_parse_Ok. by destruct m. Qed.

Lemma Payload_new_Ok m b limit p :
  Payload_new m b limit = Ok p ↔
  p = MkPayload m b ∧ len b ≤ N.min limit MAX_PAYLOAD_BYTES.
Proof.
  unfold Payload_new. destruct (N.ltb_spec (N.min limit MAX_PAYLOAD_BYTES) (len b)).
  - split; [done|]. intros [_ ?]. lia.
  - split; [|naive_solver]. by intros [= <-].
Qed.

Lemma in_range_lt lo hi n b : in_range lo hi b = true → hi < n → byte_val b < n.
Proof. unfold in_range. rw andb_true_iff !N.leb_le. lia. Qed.

Lemma endpoint_byte_ascii b : endpoint_byte_ok b = true → byte_val b < 128.
Proof. by destruct b. Qed.
Lemma media_byte_ascii b : media_byte_ok b = true → byte_val b < 128.
Proof. by destruct b. Qed.

Lemma EndpointId_wf_utf8 e : EndpointId_wf e → utf8_valid (EndpointId_as_str e) = true.
Proof.
  intros (c & rest & -> & Hc & _ & HF). apply utf8_valid_ascii, Forall_cons. split.
  - by apply in_range_lt with 97 122.
  - eapply Forall_impl; [done|]. apply endpoint_byte_ascii.
Qed.
Lemma MediaType_wf_utf8 m : MediaType_wf m → utf8_valid (MediaType_as_str m) = true.
Proof.
  intros [_ HF]. apply utf8_valid_ascii. eapply Forall_impl; [done|].
  apply media_byte_ascii.
Qed.

(** ** The bounds-checked reader *)
Record Cursor := MkCursor { cur_buffer : bytes; cur_at : N }.

Definition Cursor_new (buffer : bytes) : Cursor := MkCursor buffer 0.
Definition Cursor_remaining (c : Cursor) : N := sat_sub (len (cur_buffer c)) (cur_at c).

Section Cursor.
Context {E : Type}.
(** The decoder's own [Truncated] constructor. *)
Variable truncated : string → N → N → E.

Definition Cursor_take (c : Cursor) (field : string) (n : N) : result (bytes * Cursor) E :=
  let available := Cursor_remaining c in
  if available <? n then Err (truncated field n available)
  else Ok (ntake n (ndrop (cur_at c) (cur_buffer c)),
           MkCursor (cur_buffer c) (cur_at c + n)).

Definition Cursor_take_u8 (c : Cursor) (field : string) : result (N * Cursor) E :=
  ' (s, c) <-? Cursor_take c field 1;
  Ok (match s with b :: _ => byte_val b | [] => 0 end, c).

(** [take_array::<N>]: the slice itself, whose length is [N]. *)
Definition Cursor_take_array (c : Cursor) (field : string) (n : N) : result (bytes * Cursor) E :=
  Cursor_take c field n.

(** The unread suffix, which is all a read depends on. *)
Definition cursor_rest (c : Cursor) : bytes := ndrop (cur_at c) (cur_buffer c).

Lemma Cursor_remaining_rest c : Cursor_remaining c = len (cursor_rest c).
Proof. unfold Cursor_remaining, cursor_rest, sat_sub. by rw len_ndrop. Qed.

Lemma cursor_rest_step c n :
  cursor_rest (MkCursor (cur_buffer c) (cur_at c + n)) = ndrop n (cursor_rest c).
Proof. unfold cursor_rest, ndrop. simpl. rw drop_drop. f_equal. lia. Qed.

Lemma Cursor_take_inv c field n l c' :
  Cursor_take c field n = Ok (l, c') →
  cursor_rest c = l ++ cursor_rest c' ∧ len l = n.
Proof.
  unfold Cursor_take. rw Cursor_remaining_rest.
  destruct (N.ltb_spec (len (cursor_rest c)) n); [done|].
  intros [= <- <-]. rw cursor_rest_step ntake_ndrop. split; [done|].
  by apply len_ntake.
Qed.

(** Reading back what was written. *)
Lemma Cursor_take_app c field n l k :
  cursor_rest c = l ++ k → len l = n →
  ∃ c', Cursor_take c field n = Ok (l, c') ∧ cursor_rest c' = k.
Proof.
  intros Hr <-. unfold Cursor_take. rw Cursor_remaining_rest.
  destruct (N.ltb_spec (len (cursor_rest c)) (len l)) as [Hlt|_].
  { rw Hr len_app in Hlt. lia. }
  exists (MkCursor (cur_buffer c) (cur_at c + len l)).
  split; [|by rw cursor_rest_step Hr ndrop_len_app].
  do 2 f_equal. fold (cursor_rest c). by rw Hr ntake_len_app.
Qed.

Lemma Cursor_take_u8_inv c field v c' :
  Cursor_take_u8 c field = Ok (v, c') →
  ∃ b, cursor_rest c = b :: cursor_rest c' ∧ v = byte_val b.
Proof.
  unfold Cursor_take_u8. rw result_bind_Ok => -[[s d] [Ht [= <- <-]]].
  apply Cursor_take_inv in Ht as [Hr Hl].
  destruct s as [|b [|b' s]]; rw ?len_cons ?len_nil in Hl; try lia.
  by exists b.
Qed.
Lemma Cursor_take_u8_app c field b k :
  cursor_rest c = b :: k →
  ∃ c', Cursor_take_u8 c field = Ok (byte_val b, c') ∧ cursor_rest c' = k.
Proof.
  intros Hr. destruct (Cursor_take_app c field 1 [b] k) as (c' & Ht & Hc'); [done..|].
  exists c'. unfold Cursor_take_u8. by rw Ht.
Qed.
End Cursor.

(** A [u8] length prefix written by [u8::try_from(len).unwrap_or(u8::MAX)]. *)
Definition len_u8 (l : bytes) : byte := byte_of (try_from_or_max u8_max (len l)).
Lemma byte_val_len_u8 l : len l ≤ 255 → byte_val (len_u8 l) = len l.
Proof.
  intros. unfold len_u8, try_from_or_max, u8_max. rw byte_val_of N.min_l //.
  apply N.mod_small. lia.
Qed.
Lemma len_u8_eq l b : len l = byte_val b → len_u8 l = b.
Proof.
  intros H. apply (inj byte_val). pose proof (byte_val_lt b).
  rw byte_val_len_u8; lia.
Qed.

(** The [u32] length prefix of a payload within the ceiling. *)
Lemma from_be_len_u32 (l : bytes) :
  len l ≤ MAX_PAYLOAD_BYTES → from_be (to_be 4 (try_from_or_max u32_max (len l))) = len l.
Proof.
  unfold MAX_PAYLOAD_BYTES, try_from_or_max, u32_max. intros.
  rw N.min_l; [|lia]. apply from_be_to_be. change (256 ^ N.of_nat 4) with 4294967296. lia.
Qed.
Lemma to_be_len_u32 (l raw : bytes) :
  len raw = 4 → len l = from_be raw → to_be 4 (try_from_or_max u32_max (len l)) = raw.
Proof.
  intros Hr ->. pose proof (from_be_lt raw) as Hlt. rw Hr in Hlt.
  change (256 ^ 4) with 4294967296 in Hlt.
  unfold try_from_or_max, u32_max. rw N.min_l; [|lia]. by apply to_be_from_be_len.
Qed.

(** [usize::try_from] of a [u32] read from four bytes never saturates. *)
Lemma usize_of_u32 (l : bytes) :
  len l ≤ 4 → try_from_or_max usize_max (from_be l) = from_be l.
Proof.
  intros Hl. unfold try_from_or_max. apply N.min_l.
  pose proof (from_be_lt l) as Hlt.
  assert (256 ^ len l ≤ 256 ^ 4) by (apply N.pow_le_mono_r; lia).
  change (256 ^ 4) with 4294967296 in *. unfold usize_max, u64_max. lia.
Qed.
