(* ===== verification/DirectV2.v ===== *)
(** * The [DirectMessageV2] wire frame

    [crates/api/transport-api/src/direct_v2.rs] and the coarse wire
    vocabulary of [status.rs].

    - [DirectMessageV2_encode], [DirectMessageV2_decode] and the header
      parser they share are the source's, field by field, with every early
      return;
    - encoding and decoding are inverse to each other on well-formed values,
      in both directions: the wire has one spelling per message. *)
From S2P Require Import Prelude Ids Payload.
Local Open Scope N_scope.

(** The coarse vocabulary a peer may receive ([status.rs]). *)
Inductive DirectRejectReason :=
| NoRoute | UnauthorizedPeer | Overloaded | Malformed | TooLarge
| ShuttingDown | Unsupported.
#[global] Instance DirectRejectReason_eq_dec : EqDecision DirectRejectReason.
Proof. solve_decision. Defined.

Inductive FrameError :=
| FrameTruncated (field : string) (needed available : N)
| FramePayloadTooLarge (got max : N)
| FrameDeclaredTooLong (field : string) (got max : N)
| FrameEmptySourceEndpoint
| FrameEndpoint (field : string) (error : IdError)
| FrameMedia (error : PayloadError)
| FrameTrailingBytes (extra : N).

Definition FrameError_to_wire (e : FrameError) : DirectRejectReason :=
  match e with
  | FramePayloadTooLarge _ _ => TooLarge
  | _ => Malformed
  end.

Record DirectMessageV2 := MkDirectMessageV2 {
  dm_message_id : MessageId;
  dm_sent_at_ms : N;
  dm_source_endpoint : EndpointId;
  dm_destination_endpoint : option EndpointId;
  dm_payload : Payload
}.

Record DirectHeaderV2 := MkDirectHeaderV2 {
  dh_message_id : MessageId;
  dh_sent_at_ms : N;
  dh_source_endpoint : EndpointId;
  dh_destination_endpoint : option EndpointId;
  dh_media_type : option MediaType;
  dh_declared_payload_len : N
}.

(** The affirmative response and the refusal. *)
Record AcceptedV2 := MkAcceptedV2 {
  av_message_id : MessageId;
  av_resolved_destination_endpoint : EndpointId
}.
Record RejectedV2 := MkRejectedV2 {
  rv_message_id : MessageId;
  rv_reason : DirectRejectReason
}.

Definition opt_endpoint_bytes (e : option EndpointId) : bytes :=
  match e with Some e => EndpointId_as_str e | None => [] end.
Definition opt_media_bytes (m : option MediaType) : bytes :=
  match m with Some m => MediaType_as_str m | None => [] end.

Definition DirectMessageV2_encode (m : DirectMessageV2) : bytes :=
  let source := EndpointId_as_str (dm_source_endpoint m) in
  let destination := opt_endpoint_bytes (dm_destination_endpoint m) in
  let media := opt_media_bytes (Payload_media_type (dm_payload m)) in
  let b := Payload_bytes (dm_payload m) in
  MessageId_as_bytes (dm_message_id m)
  ++ to_be 8 (dm_sent_at_ms m)
  ++ len_u8 source :: source
  ++ len_u8 destination :: destination
  ++ len_u8 media :: media
  ++ to_be 4 (try_from_or_max u32_max (len b)) ++ b.

(** Refuse a declared length above its ceiling. *)
Definition frame_ceiling (field : string) (got max : N) : result unit FrameError :=
  if max <? got then Err (FrameDeclaredTooLong field got max) else Ok tt.

Definition frame_endpoint (field : string) (raw : bytes) : result EndpointId FrameError :=
  if utf8_valid raw then
    map_err (FrameEndpoint field) (EndpointId_parse raw)
  else Err (FrameEndpoint field
              (IdIllegalByte 0 (match raw with b :: _ => b | [] => x00 end))).

Local Notation take := (Cursor_take FrameTruncated).
Local Notation take_u8 := (Cursor_take_u8 FrameTruncated).
Local Notation take_array := (Cursor_take_array FrameTruncated).

(** The three variable-length header fields. *)
Definition parse_source (c : Cursor) : result (EndpointId * Cursor) FrameError :=
  ' (n, c) <-? take_u8 c "source_endpoint_len";
  if n =? 0 then Err FrameEmptySourceEndpoint
  else
    _ <-? frame_ceiling "source_endpoint" n EndpointId_MAX_BYTES;
    ' (raw, c) <-? take c "source_endpoint" n;
    e <-? frame_endpoint "source_endpoint" raw;
    Ok (e, c).

Definition parse_destination (c : Cursor) : result (option EndpointId * Cursor) FrameError :=
  ' (n, c) <-? take_u8 c "destination_endpoint_len";
  if n =? 0 then Ok (None, c)
  else
    _ <-? frame_ceiling "destination_endpoint" n EndpointId_MAX_BYTES;
    ' (raw, c) <-? take c "destination_endpoint" n;
    e <-? frame_endpoint "destination_endpoint" raw;
    Ok (Some e, c).

Definition parse_media (c : Cursor) : result (option MediaType * Cursor) FrameError :=
  ' (n, c) <-? take_u8 c "media_type_len";
  if n =? 0 then Ok (None, c)
  else
    _ <-? frame_ceiling "media_type" n MAX_MEDIA_TYPE_BYTES;
    ' (raw, c) <-? take c "media_type" n;
    if utf8_valid raw then
      m <-? map_err FrameMedia (MediaType_parse raw);
      Ok (Some m, c)
    else Err (FrameMedia (MediaTypeNotAscii 0)).

Definition parse_header (c : Cursor) : result (DirectHeaderV2 * Cursor) FrameError :=
  ' (id, c) <-? take_array c "message_id" 16;
  ' (sent, c) <-? take_array c "sent_at_ms" 8;
  ' (source, c) <-? parse_source c;
  ' (destination, c) <-? parse_destination c;
  ' (media, c) <-? parse_media c;
  ' (declared, c) <-? take_array c "payload_len" 4;
  Ok (MkDirectHeaderV2 (MkMessageId id) (from_be sent) source destination media
        (try_from_or_max usize_max (from_be declared)), c).

Definition declared_payload_len (buffer : bytes) : result N FrameError :=
  result_map (λ p, dh_declared_payload_len p.1) (parse_header (Cursor_new buffer)).

Definition DirectMessageV2_decode (buffer : bytes) (limit : N) :
    result DirectMessageV2 FrameError :=
  ' (header, c) <-? parse_header (Cursor_new buffer);
  let n := dh_declared_payload_len header in
  let max := N.min limit MAX_PAYLOAD_BYTES in
  if max <? n then Err (FramePayloadTooLarge n max)
  else
    ' (raw, c) <-? take c "payload" n;
    payload <-? map_err FrameMedia (Payload_new (dh_media_type header) raw limit);
    let extra := Cursor_remaining c in
    if 0 <? extra then Err (FrameTrailingBytes extra)
    else Ok (MkDirectMessageV2 (dh_message_id header) (dh_sent_at_ms header)
               (dh_source_endpoint header) (dh_destination_endpoint header) payload).

#[global] Instance FrameError_eq_dec : EqDecision FrameError.
Proof. solve_decision. Defined.
#[global] Instance DirectMessageV2_eq_dec : EqDecision DirectMessageV2.
Proof. solve_decision. Defined.

(** ** Well-formed messages *)
Definition opt_endpoint_wf (e : option EndpointId) : Prop :=
  match e with Some e => EndpointId_wf e | None => True end.
Definition opt_media_wf (m : option MediaType) : Prop :=
  match m with Some m => MediaType_wf m | None => True end.

Record DirectMessageV2_wf (m : DirectMessageV2) : Prop := {
  dmw_id : MessageId_wf (dm_message_id m);
  dmw_sent : dm_sent_at_ms m ≤ u64_max;
  dmw_source : EndpointId_wf (dm_source_endpoint m);
  dmw_destination : opt_endpoint_wf (dm_destination_endpoint m);
  dmw_payload : Payload_wf (dm_payload m)
}.

(** ** Each header field reads back what the encoder wrote *)

Lemma frame_endpoint_wf field e :
  EndpointId_wf e → frame_endpoint field (EndpointId_as_str e) = Ok e.
Proof.
  intros H. unfold frame_endpoint. rw (EndpointId_wf_utf8 _ H) (EndpointId_wf_parse _ H) //.
Qed.
Lemma frame_endpoint_inv field raw e :
  frame_endpoint field raw = Ok e → EndpointId_as_str e = raw ∧ EndpointId_wf e.
Proof.
  unfold frame_endpoint. destruct (utf8_valid raw); [|done].
  rw map_err_Ok EndpointId_parse_Ok. intros [-> ?]. done.
Qed.
Lemma frame_ceiling_Ok field got max u : frame_ceiling field got max = Ok u ↔ got ≤ max.
Proof.
  unfold frame_ceiling. destruct u, (N.ltb_spec max got); split; intros; try done; lia.
Qed.

Section fields.
Implicit Types c : Cursor.

Lemma parse_source_app c e k :
  EndpointId_wf e →
  cursor_rest c = len_u8 (EndpointId_as_str e) :: EndpointId_as_str e ++ k →
  ∃ c', parse_source c = Ok (e, c') ∧ cursor_rest c' = k.
Proof.
  intros Hwf Hr. pose proof (EndpointId_wf_len _ Hwf). unfold parse_source.
  destruct (Cursor_take_u8_app FrameTruncated _ "source_endpoint_len" _ _ Hr)
    as (c1 & -> & Hr1). simpl.
  rw byte_val_len_u8; [|lia]. destruct (N.eqb_spec (len (EndpointId_as_str e)) 0); [lia|].
  rw (proj2 (frame_ceiling_Ok _ _ _ tt)); [|unfold EndpointId_MAX_BYTES; lia]. simpl.
  destruct (Cursor_take_app FrameTruncated _ "source_endpoint" _ _ _ Hr1 eq_refl)
    as (c2 & -> & Hr2). simpl.
  rw frame_endpoint_wf //. by exists c2.
Qed.

Lemma parse_source_inv c e c' :
  parse_source c = Ok (e, c') →
  cursor_rest c = len_u8 (EndpointId_as_str e) :: EndpointId_as_str e ++ cursor_rest c' ∧
  EndpointId_wf e.
Proof.
  unfold parse_source. intros H. inv_ok H.
  destruct (_ =? 0); [done|]. inv_ok H.
  apply Cursor_take_u8_inv in Hx as (b & -> & ->).
  apply Cursor_take_inv in Hx1 as [-> Hl].
  apply frame_endpoint_inv in Hx2 as [<- ?]. split; [|done].
  by rw (len_u8_eq _ _ Hl).
Qed.

Lemma parse_destination_app c e k :
  opt_endpoint_wf e →
  cursor_rest c = len_u8 (opt_endpoint_bytes e) :: opt_endpoint_bytes e ++ k →
  ∃ c', parse_destination c = Ok (e, c') ∧ cursor_rest c' = k.
Proof.
  intros Hwf Hr. unfold parse_destination.
  destruct (Cursor_take_u8_app FrameTruncated _ "destination_endpoint_len" _ _ Hr)
    as (c1 & -> & Hr1). simpl.
  destruct e as [e|]; simpl in *; [|by exists c1].
  pose proof (EndpointId_wf_len _ Hwf).
  rw byte_val_len_u8; [|lia]. destruct (N.eqb_spec (len (EndpointId_as_str e)) 0); [lia|].
  rw (proj2 (frame_ceiling_Ok _ _ _ tt)); [|unfold EndpointId_MAX_BYTES; lia]. simpl.
  destruct (Cursor_take_app FrameTruncated _ "destination_endpoint" _ _ _ Hr1 eq_refl)
    as (c2 & -> & Hr2). simpl.
  rw frame_endpoint_wf //. by exists c2.
Qed.

Lemma parse_destination_inv c e c' :
  parse_destination c = Ok (e, c') →
  cursor_rest c = len_u8 (opt_endpoint_bytes e) :: opt_endpoint_bytes e ++ cursor_rest c' ∧
  opt_endpoint_wf e.
Proof.
  unfold parse_destination. intros H. inv_ok H.
  apply Cursor_take_u8_inv in Hx as (b & -> & ->).
  destruct (N.eqb_spec (byte_val b) 0) as [Hb|]; inv_ok H.
  { split; [|done]. simpl. f_equal. symmetry. by apply len_u8_eq. }
  apply Cursor_take_inv in Hx0 as [-> Hl].
  apply frame_endpoint_inv in Hx1 as [<- ?]. split; [|done].
  simpl. by rw (len_u8_eq _ _ Hl).
Qed.

Lemma parse_media_app c m k :
  opt_media_wf m →
  cursor_rest c = len_u8 (opt_media_bytes m) :: opt_media_bytes m ++ k →
  ∃ c', parse_media c = Ok (m, c') ∧ cursor_rest c' = k.
Proof.
  intros Hwf Hr. unfold parse_media.
  destruct (Cursor_take_u8_app FrameTruncated _ "media_type_len" _ _ Hr)
    as (c1 & -> & Hr1). simpl.
  destruct m as [m|]; simpl in *; [|by exists c1].
  pose proof (proj1 Hwf).
  rw byte_val_len_u8; [|lia]. destruct (N.eqb_spec (len (MediaType_as_str m)) 0); [lia|].
  rw (proj2 (frame_ceiling_Ok _ _ _ tt)); [|unfold MAX_MEDIA_TYPE_BYTES; lia]. simpl.
  destruct (Cursor_take_app FrameTruncated _ "media_type" _ _ _ Hr1 eq_refl)
    as (c2 & -> & Hr2). simpl.
  rw MediaType_wf_utf8 // MediaType_wf_parse //. by exists c2.
Qed.

Lemma parse_media_inv c m c' :
  parse_media c = Ok (m, c') →
  cursor_rest c = len_u8 (opt_media_bytes m) :: opt_media_bytes m ++ cursor_rest c' ∧
  opt_media_wf m.
Proof.
  unfold parse_media. intros H. inv_ok H.
  apply Cursor_take_u8_inv in Hx as (b & -> & ->).
  destruct (N.eqb_spec (byte_val b) 0) as [Hb|]; inv_ok H.
  { split; [|done]. simpl. f_equal. symmetry. by apply len_u8_eq. }
  destruct (utf8_valid _); [|done]. inv_ok H.
  apply Cursor_take_inv in Hx0 as [-> Hl].
  apply map_err_Ok, MediaType_parse_Ok in Hx1 as [-> ?]. split; [|done].
  simpl. by rw (len_u8_eq _ _ Hl).
Qed.
End fields.

(** The bytes of a header, and the message it heads. *)
Definition header_bytes (h : DirectHeaderV2) (payload_len : bytes) : bytes :=
  MessageId_as_bytes (dh_message_id h) ++ to_be 8 (dh_sent_at_ms h)
  ++ len_u8 (EndpointId_as_str (dh_source_endpoint h)) :: EndpointId_as_str (dh_source_endpoint h)
  ++ len_u8 (opt_endpoint_bytes (dh_destination_endpoint h))
     :: opt_endpoint_bytes (dh_destination_endpoint h)
  ++ len_u8 (opt_media_bytes (dh_media_type h)) :: opt_media_bytes (dh_media_type h)
  ++ payload_len.

Record header_wf (h : DirectHeaderV2) : Prop := {
  hw_id : MessageId_wf (dh_message_id h);
  hw_sent : dh_sent_at_ms h ≤ u64_max;
  hw_source : EndpointId_wf (dh_source_endpoint h);
  hw_destination : opt_endpoint_wf (dh_destination_endpoint h);
  hw_media : opt_media_wf (dh_media_type h)
}.

Lemma parse_header_app c h pl k :
  header_wf h → len pl = 4 → dh_declared_payload_len h = from_be pl →
  cursor_rest c = header_bytes h pl ++ k →
  ∃ c', parse_header c = Ok (h, c') ∧ cursor_rest c' = k.
Proof.
  intros [Hid Hsent Hs Hd Hm] Hpl Hdl Hr. unfold header_bytes in Hr.
  repeat (rewrite <- app_assoc in Hr || rewrite <- app_comm_cons in Hr).
  unfold parse_header, Cursor_take_array.
  destruct (Cursor_take_app FrameTruncated c "message_id" 16 _ _ Hr) as (c1 & -> & Hr1).
  { unfold len. by rw Hid. }
  simpl. destruct (Cursor_take_app FrameTruncated c1 "sent_at_ms" 8 _ _ Hr1)
    as (c2 & -> & Hr2); [apply len_to_be|].
  simpl. destruct (parse_source_app _ _ _ Hs Hr2) as (c3 & -> & Hr3).
  simpl. destruct (parse_destination_app _ _ _ Hd Hr3) as (c4 & -> & Hr4).
  simpl. destruct (parse_media_app _ _ _ Hm Hr4) as (c5 & -> & Hr5).
  simpl. destruct (Cursor_take_app FrameTruncated c5 "payload_len" 4 _ _ Hr5 Hpl)
    as (c6 & -> & Hr6).
  exists c6. split; [|done]. simpl.
  rw from_be_to_be; [|change (256 ^ N.of_nat 8) with 18446744073709551616;
                      unfold u64_max in Hsent; lia].
  unfold try_from_or_max, usize_max, u64_max.
  pose proof (from_be_lt pl) as Hlt. rw Hpl in Hlt. change (256 ^ 4) with 4294967296 in Hlt.
  rw N.min_l; [|lia]. rw -Hdl. by destruct h as [[]].
Qed.

Lemma parse_header_inv c h c' :
  parse_header c = Ok (h, c') →
  header_wf h ∧ ∃ pl, len pl = 4 ∧ dh_declared_payload_len h = from_be pl ∧
    cursor_rest c = header_bytes h pl ++ cursor_rest c'.
Proof.
  unfold parse_header, Cursor_take_array. intros H. inv_ok H.
  apply Cursor_take_inv in Hx as [Hr1 Hl1], Hx0 as [Hr2 Hl2], Hx4 as [Hr6 Hl6].
  apply parse_source_inv in Hx1 as [Hr3 ?]. apply parse_destination_inv in Hx2 as [Hr4 ?].
  apply parse_media_inv in Hx3 as [Hr5 ?].
  pose proof (from_be_lt l0) as Hlt. rw Hl2 in Hlt.
  change (256 ^ 8) with 18446744073709551616 in Hlt.
  pose proof (from_be_lt l1) as Hlt1. rw Hl6 in Hlt1. change (256 ^ 4) with 4294967296 in Hlt1.
  split.
  { split; simpl; try done.
    - by apply len_length.
    - unfold u64_max. lia. }
  exists l1. split; [done|]. simpl. split.
  { unfold try_from_or_max, usize_max, u64_max. lia. }
  unfold header_bytes. simpl. rw to_be_from_be_len; [|done].
  rw Hr1 Hr2 Hr3 Hr4 Hr5 Hr6. by simplify_list_eq.
Qed.

(** The header and payload a message encodes to. *)
Definition header_of (m : DirectMessageV2) : DirectHeaderV2 :=
  MkDirectHeaderV2 (dm_message_id m) (dm_sent_at_ms m) (dm_source_endpoint m)
    (dm_destination_endpoint m) (Payload_media_type (dm_payload m))
    (len (Payload_bytes (dm_payload m))).

Lemma encode_header m :
  DirectMessageV2_encode m =
  header_bytes (header_of m) (to_be 4 (try_from_or_max u32_max (len (Payload_bytes (dm_payload m)))))
  ++ Payload_bytes (dm_payload m).
Proof. unfold DirectMessageV2_encode, header_bytes. simpl. by simplify_list_eq. Qed.

Lemma decode_encode m limit :
  DirectMessageV2_wf m → len (Payload_bytes (dm_payload m)) ≤ limit →
  DirectMessageV2_decode (DirectMessageV2_encode m) limit = Ok m.
Proof.
  intros [? ? ? ? [Hlen ?]] Hlim. unfold DirectMessageV2_decode. rw encode_header.
  set (h := header_of m).
  destruct m as [id st src dst [md b]]; simpl in *.
  set (pl := to_be 4 (try_from_or_max u32_max (len b))).
  destruct (parse_header_app (Cursor_new (header_bytes h pl ++ b)) h pl b)
    as (c & -> & Hr); [done|apply len_to_be| |done|].
  { by rw from_be_len_u32. }
  simpl. rewrite -> (proj2 (N.ltb_ge _ _)) by lia.
  destruct (Cursor_take_app FrameTruncated c "payload" (len b) b [])
    as (c' & -> & Hr'); [by rw app_nil_r|done|].
  simpl. rw (proj2 (Payload_new_Ok _ _ _ (MkPayload md b))).
  2:{ split; [done|lia]. }
  simpl. by rw Cursor_remaining_rest Hr'.
Qed.

Lemma decode_inv b limit m :
  DirectMessageV2_decode b limit = Ok m →
  b = DirectMessageV2_encode m ∧ DirectMessageV2_wf m ∧
  len (Payload_bytes (dm_payload m)) ≤ limit.
Proof.
  unfold DirectMessageV2_decode. intros H. inv_ok H. cbv zeta in H.
  destruct (N.ltb_spec (N.min limit MAX_PAYLOAD_BYTES) (dh_declared_payload_len d)); [done|].
  inv_ok H. apply map_err_Ok, Payload_new_Ok in Hx1 as [-> Hb].
  destruct (N.ltb_spec 0 (Cursor_remaining c0)); [done|]. simplify_eq.
  apply parse_header_inv in Hx as ([] & pl & Hpl & Hd & Hr).
  apply Cursor_take_inv in Hx0 as [Hr0 Hl0].
  rw Cursor_remaining_rest in H1.
  assert (cursor_rest c0 = []) as Hnil by (apply len_zero; lia).
  change (cursor_rest (Cursor_new b)) with b in Hr.
  split; [|split; [split; simpl; try done; split; simpl; try done; lia|simpl; lia]].
  rw encode_header /= (to_be_len_u32 _ pl) //; [|congruence].
  rw Hr Hr0 Hnil app_nil_r. done.
Qed.

(** A header refusal is always [malformed] on the wire. *)
Lemma take_errs c field n :
  errs (λ e, FrameError_to_wire e = Malformed) (Cursor_take FrameTruncated c field n).
Proof. unfold Cursor_take. auto with errs. Qed.
#[local] Hint Resolve take_errs : errs.

Lemma parse_header_errs c :
  errs (λ e, FrameError_to_wire e = Malformed) (parse_header c).
Proof.
  unfold parse_header, parse_source, parse_destination, parse_media,
    Cursor_take_array, Cursor_take_u8, frame_ceiling, frame_endpoint.
  auto 30 with errs.
Qed.

(** ** Properties *)

(** C8: the direct frame has exactly one spelling per message.  A byte string
    decodes to [m] under a payload limit if and only if it is the encoding of
    [m], [m] satisfies every grammar and width, and its payload is within the
    limit: decoding inverts encoding (round trip) and nothing else decodes
    (no trailing bytes, no second spelling, nothing over the ceiling). *)
Theorem direct_frame_decode_iff (b : bytes) (limit : N) (m : DirectMessageV2) :
  DirectMessageV2_decode b limit = Ok m ↔
  b = DirectMessageV2_encode m ∧ DirectMessageV2_wf m ∧
  len (Payload_bytes (dm_payload m)) ≤ limit.
Proof.
  split; [apply decode_inv|]. intros (-> & ? & ?). by apply decode_encode.
Qed.

(** a peer is told [too_large] exactly when the header is intact and
    declares a payload above the effective ceiling; every other refusal is
    [malformed], and a header refusal is the one [declared_payload_len]
    reports. *)
Theorem direct_frame_too_large_iff (b : bytes) (limit : N) :
  ((∃ e, DirectMessageV2_decode b limit = Err e ∧ FrameError_to_wire e = TooLarge) ↔
   (∃ n, declared_payload_len b = Ok n ∧ N.min limit MAX_PAYLOAD_BYTES < n)) ∧
  (∀ e, declared_payload_len b = Err e → DirectMessageV2_decode b limit = Err e).
Proof.
  unfold DirectMessageV2_decode, declared_payload_len.
  destruct (parse_header (Cursor_new b)) as [[h c]|e] eqn:Hh; simpl.
  - destruct (N.ltb_spec (N.min limit MAX_PAYLOAD_BYTES) (dh_declared_payload_len h)).
    { split; [|done]. split; intros _; eauto. }
    split; [|done]. split; [|naive_solver lia].
    intros (e & He & Hw).
    destruct (Cursor_take _ _ _ _) as [[raw c']|e'] eqn:Ht; simpl in He.
    + destruct (Payload_new _ _ _); simpl in He; [|by simplify_eq].
      destruct (0 <? _); by simplify_eq.
    + unfold Cursor_take in Ht. destruct (_ <? _); by simplify_eq.
  - split; [|naive_solver]. split; [|naive_solver].
    intros (e' & [= <-] & Hw). apply parse_header_errs in Hh. congruence.
Qed.
