(* ===== verification/BroadcastV1.v ===== *)
(** * The [BroadcastMessageV1] envelope

    [crates/api/transport-api/src/broadcast_v1.rs]: the envelope a GossipSub
    message carries, its encoder and its decoder. *)
From S2P Require Import Prelude Ids Payload DirectV2.
Local Open Scope N_scope.

Definition BROADCAST_VERSION : N := 1.
Definition MAX_FRAME_OVERHEAD : N := 1 + 16 + 8 + 1 + MAX_MEDIA_TYPE_BYTES + 4.

Inductive BroadcastFrameError :=
| BfTruncated (field : string) (needed available : N)
| BfUnsupportedVersion (got : N)
| BfDeclaredTooLong (field : string) (got max : N)
| BfPayloadTooLarge (got max : N)
| BfMedia (error : PayloadError)
| BfTrailingBytes (extra : N).

Record BroadcastMessageV1 := MkBroadcastMessageV1 {
  bm_message_id : MessageId;
  bm_sent_at_ms : N;
  bm_payload : Payload
}.

#[global] Instance BroadcastFrameError_eq_dec : EqDecision BroadcastFrameError.
Proof. solve_decision. Defined.
#[global] Instance BroadcastMessageV1_eq_dec : EqDecision BroadcastMessageV1.
Proof. solve_decision. Defined.

Definition BroadcastMessageV1_encode (m : BroadcastMessageV1) : bytes :=
  let media := opt_media_bytes (Payload_media_type (bm_payload m)) in
  let b := Payload_bytes (bm_payload m) in
  byte_of BROADCAST_VERSION
  :: MessageId_as_bytes (bm_message_id m)
  ++ to_be 8 (bm_sent_at_ms m)
  ++ len_u8 media :: media
  ++ to_be 4 (try_from_or_max u32_max (len b)) ++ b.

Definition bf_ceiling (field : string) (got max : N) : result unit BroadcastFrameError :=
  if max <? got then Err (BfDeclaredTooLong field got max) else Ok tt.

Local Notation take := (Cursor_take BfTruncated).
Local Notation take_u8 := (Cursor_take_u8 BfTruncated).
Local Notation take_array := (Cursor_take_array BfTruncated).

Definition bf_parse_media (c : Cursor) :
    result (option MediaType * Cursor) BroadcastFrameError :=
  ' (n, c) <-? take_u8 c "media_type_len";
  if n =? 0 then Ok (None, c)
  else
    _ <-? bf_ceiling "media_type" n MAX_MEDIA_TYPE_BYTES;
    ' (raw, c) <-? take c "media_type" n;
    if utf8_valid raw then
      m <-? map_err BfMedia (MediaType_parse raw);
      Ok (Some m, c)
    else Err (BfMedia (MediaTypeNotAscii 0)).

Definition bf_parse_payload (c : Cursor) (media : option MediaType) (limit : N) :
    result (Payload * Cursor) BroadcastFrameError :=
  ' (declared, c) <-? take_array c "payload_len" 4;
  let n := try_from_or_max usize_max (from_be declared) in
  let max := N.min limit MAX_PAYLOAD_BYTES in
  if max <? n then Err (BfPayloadTooLarge n max)
  else
    ' (raw, c) <-? take c "payload" n;
    p <-? map_err BfMedia (Payload_new media raw limit);
    Ok (p, c).

Definition BroadcastMessageV1_decode (buffer : bytes) (limit : N) :
    result BroadcastMessageV1 BroadcastFrameError :=
  ' (version, c) <-? take_u8 (Cursor_new buffer) "version";
  if negb (version =? BROADCAST_VERSION) then Err (BfUnsupportedVersion version)
  else
    ' (id, c) <-? take_array c "message_id" 16;
    ' (sent, c) <-? take_array c "sent_at_ms" 8;
    ' (media, c) <-? bf_parse_media c;
    ' (payload, c) <-? bf_parse_payload c media limit;
    let extra := Cursor_remaining c in
    if 0 <? extra then Err (BfTrailingBytes extra)
    else Ok (MkBroadcastMessageV1 (MkMessageId id) (from_be sent) payload).

Record BroadcastMessageV1_wf (m : BroadcastMessageV1) : Prop := {
  bmw_id : MessageId_wf (bm_message_id m);
  bmw_sent : bm_sent_at_ms m ≤ u64_max;
  bmw_payload : Payload_wf (bm_payload m)
}.

(** ** Field by field *)

Lemma bf_ceiling_Ok field got max u : bf_ceiling field got max = Ok u ↔ got ≤ max.
Proof. unfold bf_ceiling. destruct u, (N.ltb_spec max got); split; intros; try done; lia. Qed.

Lemma bf_parse_media_app c m k :
  opt_media_wf m →
  cursor_rest c = len_u8 (opt_media_bytes m) :: opt_media_bytes m ++ k →
  ∃ c', bf_parse_media c = Ok (m, c') ∧ cursor_rest c' = k.
Proof.
  intros Hwf Hr. unfold bf_parse_media.
  destruct (Cursor_take_u8_app BfTruncated _ "media_type_len" _ _ Hr) as (c1 & -> & Hr1). simpl.
  destruct m as [m|]; simpl in *; [|by exists c1].
  pose proof (proj1 Hwf).
  rw byte_val_len_u8; [|lia]. destruct (N.eqb_spec (len (MediaType_as_str m)) 0); [lia|].
  rw (proj2 (bf_ceiling_Ok _ _ _ tt)); [|unfold MAX_MEDIA_TYPE_BYTES; lia]. simpl.
  destruct (Cursor_take_app BfTruncated _ "media_type" _ _ _ Hr1 eq_refl) as (c2 & -> & Hr2).
  simpl. rw MediaType_wf_utf8 // MediaType_wf_parse //. by exists c2.
Qed.

Lemma bf_parse_media_inv c m c' :
  bf_parse_media c = Ok (m, c') →
  cursor_rest c = len_u8 (opt_media_bytes m) :: opt_media_bytes m ++ cursor_rest c' ∧
  opt_media_wf m.
Proof.
  unfold bf_parse_media. intros H. inv_ok H.
  apply Cursor_take_u8_inv in Hx as (b & -> & ->).
  destruct (N.eqb_spec (byte_val b) 0) as [Hb|]; inv_ok H.
  { split; [|done]. simpl. f_equal. symmetry. by apply len_u8_eq. }
  destruct (utf8_valid _); [|done]. inv_ok H.
  apply Cursor_take_inv in Hx0 as [-> Hl].
  apply map_err_Ok, MediaType_parse_Ok in Hx1 as [-> ?]. split; [|done].
  simpl. by rw (len_u8_eq _ _ Hl).
Qed.

Lemma bf_parse_payload_app c m limit b k :
  len b ≤ N.min limit MAX_PAYLOAD_BYTES →
  cursor_rest c = to_be 4 (try_from_or_max u32_max (len b)) ++ b ++ k →
  ∃ c', bf_parse_payload c m limit = Ok (MkPayload m b, c') ∧ cursor_rest c' = k.
Proof.
  intros Hb Hr. unfold bf_parse_payload, Cursor_take_array.
  destruct (Cursor_take_app BfTruncated _ "payload_len" 4 _ _ Hr (len_to_be _ _))
    as (c1 & -> & Hr1). simpl.
  rw from_be_len_u32; [|lia].
  assert (try_from_or_max usize_max (len b) = len b) as ->.
  { unfold try_from_or_max. apply N.min_l. trans MAX_PAYLOAD_BYTES; [lia|done]. }
  rewrite -> (proj2 (N.ltb_ge _ _)) by done.
  destruct (Cursor_take_app BfTruncated _ "payload" _ _ _ Hr1 eq_refl) as (c2 & -> & Hr2).
  simpl. rw (proj2 (Payload_new_Ok _ _ _ (MkPayload m b))); [|done]. by exists c2.
Qed.

Lemma bf_parse_payload_inv c m limit p c' :
  bf_parse_payload c m limit = Ok (p, c') →
  Payload_media_type p = m ∧ len (Payload_bytes p) ≤ N.min limit MAX_PAYLOAD_BYTES ∧
  cursor_rest c = to_be 4 (try_from_or_max u32_max (len (Payload_bytes p)))
                  ++ Payload_bytes p ++ cursor_rest c'.
Proof.
  unfold bf_parse_payload, Cursor_take_array. intros H. inv_ok H. cbv zeta in H.
  destruct (N.ltb_spec (N.min limit MAX_PAYLOAD_BYTES) (try_from_or_max usize_max (from_be l)));
    [done|]. inv_ok H.
  apply map_err_Ok, Payload_new_Ok in Hx1 as [-> Hb].
  apply Cursor_take_inv in Hx as [Hr1 Hl1], Hx0 as [Hr2 Hl2].
  split; [done|]. split; [done|]. simpl. rw (to_be_len_u32 l0 l Hl1); [by rw -Hr2|].
  rw Hl2. apply usize_of_u32. by rw Hl1.
Qed.

(** ** Properties *)

(** C9: the broadcast envelope has exactly one spelling per message: a byte
    string decodes to [m] under a payload limit if and only if it is the
    encoding of [m], [m] is well formed, and its payload is within the limit;
    and every such encoding fits the transmit ceiling
    [MAX_FRAME_OVERHEAD + payload]. *)
Theorem broadcast_frame_decode_iff (b : bytes) (limit : N) (m : BroadcastMessageV1) :
  (BroadcastMessageV1_decode b limit = Ok m ↔
   b = BroadcastMessageV1_encode m ∧ BroadcastMessageV1_wf m ∧
   len (Payload_bytes (bm_payload m)) ≤ limit) ∧
  (BroadcastMessageV1_decode b limit = Ok m →
   len b ≤ MAX_FRAME_OVERHEAD + len (Payload_bytes (bm_payload m))).
Proof.
  assert (BroadcastMessageV1_decode b limit = Ok m →
    b = BroadcastMessageV1_encode m ∧ BroadcastMessageV1_wf m ∧
    len (Payload_bytes (bm_payload m)) ≤ limit) as Hinv.
  { unfold BroadcastMessageV1_decode, Cursor_take_array. intros H. inv_ok H.
    destruct (N.eqb_spec n BROADCAST_VERSION) as [->|]; [|done]. simpl in H. inv_ok H.
    cbv zeta in H. destruct (N.ltb_spec 0 (Cursor_remaining c3)); [done|]. simplify_eq.
    apply Cursor_take_u8_inv in Hx as (v & Hr0 & Hv).
    apply Cursor_take_inv in Hx0 as [Hr1 Hl1], Hx1 as [Hr2 Hl2].
    apply bf_parse_media_inv in Hx2 as [Hr3 ?].
    apply bf_parse_payload_inv in Hx3 as (<- & Hb & Hr4).
    rw Cursor_remaining_rest in H0.
    assert (cursor_rest c3 = []) as Hnil by (apply len_zero; lia).
    change (cursor_rest (Cursor_new b)) with b in Hr0.
    pose proof (from_be_lt l0) as Hlt. rw Hl2 in Hlt.
    change (256 ^ 8) with 18446744073709551616 in Hlt.
    split; [|split; [split; simpl|simpl; lia]].
    - unfold BroadcastMessageV1_encode. simpl. rw to_be_from_be_len //.
      rw Hr0 Hr1 Hr2 Hr3 Hr4 Hnil Hv byte_of_val. by simplify_list_eq.
    - by apply len_length.
    - unfold u64_max. lia.
    - split; [lia|]. done. }
  split; [split; [done|]|].
  - intros (-> & [Hid Hsent [Hlen Hm]] & Hlim). clear Hinv.
    destruct m as [[id] st [md p]]. simpl in *.
    unfold BroadcastMessageV1_encode, BroadcastMessageV1_decode, Cursor_take_array. simpl.
    destruct (Cursor_take_u8_app BfTruncated (Cursor_new (byte_of BROADCAST_VERSION :: id
      ++ to_be 8 st ++ len_u8 (opt_media_bytes md) :: opt_media_bytes md
      ++ to_be 4 (try_from_or_max u32_max (len p)) ++ p)) "version" _ _ eq_refl)
      as (c0 & -> & Hr0). simpl.
    destruct (Cursor_take_app BfTruncated c0 "message_id" 16 _ _ Hr0) as (c1 & -> & Hr1).
    { unfold MessageId_wf, MessageId_LEN in Hid. simpl in Hid. unfold len. lia. }
    simpl. destruct (Cursor_take_app BfTruncated c1 "sent_at_ms" 8 _ _ Hr1) as (c2 & -> & Hr2);
      [apply len_to_be|].
    simpl. destruct (bf_parse_media_app _ _ _ Hm Hr2) as (c3 & -> & Hr3). simpl.
    destruct (bf_parse_payload_app c3 md limit p []) as (c4 & -> & Hr4); [lia|by rw app_nil_r|].
    simpl. rw Cursor_remaining_rest Hr4 /= from_be_to_be //.
    change (256 ^ N.of_nat 8) with 18446744073709551616. unfold u64_max in Hsent. lia.
  - intros (-> & [Hid _ [_ Hm]] & _)%Hinv. unfold BroadcastMessageV1_encode, MAX_FRAME_OVERHEAD.
    unfold MessageId_wf, MessageId_LEN in Hid.
    assert (len (MessageId_as_bytes (bm_message_id m)) = 16) by (unfold len; lia).
    assert (len (opt_media_bytes (Payload_media_type (bm_payload m))) ≤ MAX_MEDIA_TYPE_BYTES).
    { destruct (Payload_media_type _) as [mt|]; simpl; [|done]. apply Hm. }
    len_simpl. lia.
Qed.
