(* ===== verification/Trust.v ===== *)
(** * Peer trust

    [crates/api/trust-api/src/lib.rs]: the deny-by-default allowlist of the
    application data plane, the endpoint narrowing filter, and the separate
    infrastructure set. *)
From S2P Require Import Prelude Ids.
Local Open Scope N_scope.

Inductive DenyReason := NotAllowlisted | NarrowedByEndpoint | SelfIdentity.
Inductive TrustDecision := Allowed | Denied (reason : DenyReason).

Definition TrustDecision_is_allowed (d : TrustDecision) : bool :=
  match d with Allowed => true | Denied _ => false end.

Inductive TrustPolicyError :=
| AllowlistTooLarge (got max : N)
| LocalPeer.

#[global] Instance DenyReason_eq_dec : EqDecision DenyReason.
Proof. solve_decision. Defined.
#[global] Instance TrustDecision_eq_dec : EqDecision TrustDecision.
Proof. solve_decision. Defined.
#[global] Instance TrustPolicyError_eq_dec : EqDecision TrustPolicyError.
Proof. solve_decision. Defined.

Record PeerTrustPolicy := MkPeerTrustPolicy {
  ptp_allowed_peers : gset TransportIdentity;
  ptp_local_peer : option TransportIdentity
}.

Definition PeerTrustPolicy_MAX_ALLOWED_PEERS : N := 4096.

(** [PeerTrustPolicy::default]: the empty allowlist. *)
Definition PeerTrustPolicy_default : PeerTrustPolicy := MkPeerTrustPolicy ∅ None.

Definition PeerTrustPolicy_new (allowed_peers : list TransportIdentity) :
    result PeerTrustPolicy TrustPolicyError :=
  let allowed : gset TransportIdentity := list_to_set allowed_peers in
  if PeerTrustPolicy_MAX_ALLOWED_PEERS <? N.of_nat (size allowed)
  then Err (AllowlistTooLarge (N.of_nat (size allowed)) PeerTrustPolicy_MAX_ALLOWED_PEERS)
  else Ok (MkPeerTrustPolicy allowed None).

Definition PeerTrustPolicy_with_local_peer (p : PeerTrustPolicy) (local : TransportIdentity) :
    PeerTrustPolicy :=
  MkPeerTrustPolicy (ptp_allowed_peers p ∖ {[local]}) (Some local).

Definition PeerTrustPolicy_len (p : PeerTrustPolicy) : N := N.of_nat (size (ptp_allowed_peers p)).

Definition PeerTrustPolicy_allow (p : PeerTrustPolicy) (peer : TransportIdentity) :
    result (bool * PeerTrustPolicy) TrustPolicyError :=
  if bool_decide (ptp_local_peer p = Some peer) then Err LocalPeer
  else if bool_decide (peer ∈ ptp_allowed_peers p) then Ok (false, p)
  else if PeerTrustPolicy_MAX_ALLOWED_PEERS <=? PeerTrustPolicy_len p
  then Err (AllowlistTooLarge (PeerTrustPolicy_len p + 1) PeerTrustPolicy_MAX_ALLOWED_PEERS)
  else Ok (true, MkPeerTrustPolicy ({[peer]} ∪ ptp_allowed_peers p) (ptp_local_peer p)).

Definition PeerTrustPolicy_revoke (p : PeerTrustPolicy) (peer : TransportIdentity) :
    bool * PeerTrustPolicy :=
  (bool_decide (peer ∈ ptp_allowed_peers p),
   MkPeerTrustPolicy (ptp_allowed_peers p ∖ {[peer]}) (ptp_local_peer p)).

Definition PeerTrustPolicy_decide (p : PeerTrustPolicy) (peer : TransportIdentity) :
    TrustDecision :=
  if bool_decide (ptp_local_peer p = Some peer) then Denied SelfIdentity
  else if bool_decide (peer ∈ ptp_allowed_peers p) then Allowed
  else Denied NotAllowlisted.

(** ** Endpoint narrowing *)
Inductive EndpointTrustPolicy :=
| InheritProfileTrust
| StaticSubset (allowed_peers : gset TransportIdentity).

Definition EndpointTrustPolicy_MAX_STATIC_SUBSET : N := PeerTrustPolicy_MAX_ALLOWED_PEERS.

Definition EndpointTrustPolicy_admits (e : EndpointTrustPolicy) (peer : TransportIdentity) : bool :=
  match e with
  | InheritProfileTrust => true
  | StaticSubset allowed => bool_decide (peer ∈ allowed)
  end.

Definition EndpointTrustPolicy_is_subset_of (e : EndpointTrustPolicy) (p : PeerTrustPolicy) : bool :=
  match e with
  | InheritProfileTrust => true
  | StaticSubset allowed => bool_decide (allowed ⊆ ptp_allowed_peers p)
  end.

Definition PeerTrustPolicy_decide_for_endpoint (p : PeerTrustPolicy) (peer : TransportIdentity)
    (endpoint : EndpointTrustPolicy) : TrustDecision :=
  match PeerTrustPolicy_decide p peer with
  | Denied reason => Denied reason
  | Allowed =>
      if EndpointTrustPolicy_admits endpoint peer then Allowed
      else Denied NarrowedByEndpoint
  end.

(** ** Reading the configured arrays

    [bounded_peer_seq] counts the array as it arrives; [bounded_subset]
    ([BoundedSubset]) also refuses a repeat. [None] is a parse error. *)
Fixpoint bounded_peer_seq (max count : N) (out : gset TransportIdentity)
    (seq : list TransportIdentity) : option (gset TransportIdentity) :=
  match seq with
  | [] => Some out
  | peer :: seq =>
      let count := sat_add usize_max count 1 in
      if max <? count then None
      else bounded_peer_seq max count ({[peer]} ∪ out) seq
  end.

Fixpoint bounded_subset (max count : N) (out : gset TransportIdentity)
    (seq : list TransportIdentity) : option (gset TransportIdentity) :=
  match seq with
  | [] => Some out
  | peer :: seq =>
      let count := sat_add usize_max count 1 in
      if max <? count then None
      else if bool_decide (peer ∈ out) then None
      else bounded_subset max count ({[peer]} ∪ out) seq
  end.

(** ** Infrastructure peers: a separate type *)
Record InfrastructureSet := MkInfrastructureSet { infra_allowed_peers : gset TransportIdentity }.
Definition InfrastructureSet_MAX_ALLOWED_PEERS : N := 256.

Definition InfrastructureSet_new (allowed_peers : list TransportIdentity) :
    result InfrastructureSet TrustPolicyError :=
  let allowed : gset TransportIdentity := list_to_set allowed_peers in
  if InfrastructureSet_MAX_ALLOWED_PEERS <? N.of_nat (size allowed)
  then Err (AllowlistTooLarge (N.of_nat (size allowed)) InfrastructureSet_MAX_ALLOWED_PEERS)
  else Ok (MkInfrastructureSet allowed).

Definition permits_control_connection (s : InfrastructureSet) (peer : TransportIdentity) : bool :=
  bool_decide (peer ∈ infra_allowed_peers s).

(** ** The policy a running profile can hold

    Every value a policy can take: built by [new], bound to the local peer,
    and then changed only by [allow] and [revoke]. *)
Inductive policy_reachable : PeerTrustPolicy → Prop :=
| reach_default : policy_reachable PeerTrustPolicy_default
| reach_new l p : PeerTrustPolicy_new l = Ok p → policy_reachable p
| reach_local p local :
    policy_reachable p → policy_reachable (PeerTrustPolicy_with_local_peer p local)
| reach_allow p peer b p' :
    policy_reachable p → PeerTrustPolicy_allow p peer = Ok (b, p') → policy_reachable p'
| reach_revoke p peer :
    policy_reachable p → policy_reachable (PeerTrustPolicy_revoke p peer).2.

Record policy_inv (p : PeerTrustPolicy) : Prop := {
  pinv_bound : PeerTrustPolicy_len p ≤ PeerTrustPolicy_MAX_ALLOWED_PEERS;
  pinv_local : ∀ local, ptp_local_peer p = Some local → local ∉ ptp_allowed_peers p
}.

Lemma size_difference_singleton (X : gset TransportIdentity) x :
  (size (X ∖ {[x]}) ≤ size X)%nat.
Proof. apply subseteq_size. set_solver. Qed.

Lemma policy_inv_revoke p peer : policy_inv p → policy_inv (PeerTrustPolicy_revoke p peer).2.
Proof.
  intros [Hb Hl]. split; simpl.
  - unfold PeerTrustPolicy_len in *. simpl.
    pose proof (size_difference_singleton (ptp_allowed_peers p) peer). lia.
  - intros local ?%Hl. set_solver.
Qed.

Lemma policy_inv_allow p peer b p' :
  policy_inv p → PeerTrustPolicy_allow p peer = Ok (b, p') → policy_inv p'.
Proof.
  intros [Hb Hl]. unfold PeerTrustPolicy_allow.
  case_bool_decide as Hloc; [done|]. case_bool_decide; [by intros [= <- <-]|].
  destruct (N.leb_spec PeerTrustPolicy_MAX_ALLOWED_PEERS (PeerTrustPolicy_len p)); [done|].
  intros [= <- <-]. split; simpl.
  - unfold PeerTrustPolicy_len in *. simpl. rw size_union; [|set_solver]. rw size_singleton. lia.
  - intros local Hlocal. pose proof (Hl _ Hlocal). set_solver.
Qed.

Lemma policy_reachable_inv p : policy_reachable p → policy_inv p.
Proof.
  induction 1 as [|l p H|p local _ [Hb Hl]|p peer b p' _ IH H|p peer _ IH].
  - split; [done|]. by intros ? [=].
  - unfold PeerTrustPolicy_new in H.
    destruct (N.ltb_spec PeerTrustPolicy_MAX_ALLOWED_PEERS
      (N.of_nat (size (list_to_set l : gset TransportIdentity)))); [done|].
    simplify_eq. split; [done|]. by intros ? [=].
  - split; simpl.
    + unfold PeerTrustPolicy_len in *. simpl.
      pose proof (size_difference_singleton (ptp_allowed_peers p) local). lia.
    + intros ? [= <-]. set_solver.
  - by eapply policy_inv_allow.
  - by apply policy_inv_revoke.
Qed.

(** [decide] and [decide_for_endpoint], as set membership. *)
Lemma decide_Allowed p peer :
  PeerTrustPolicy_decide p peer = Allowed ↔
  peer ∈ ptp_allowed_peers p ∧ ptp_local_peer p ≠ Some peer.
Proof. unfold PeerTrustPolicy_decide. repeat case_bool_decide; naive_solver. Qed.

Lemma decide_for_endpoint_Allowed p peer e :
  PeerTrustPolicy_decide_for_endpoint p peer e = Allowed ↔
  PeerTrustPolicy_decide p peer = Allowed ∧ EndpointTrustPolicy_admits e peer = true.
Proof.
  unfold PeerTrustPolicy_decide_for_endpoint.
  destruct (PeerTrustPolicy_decide p peer), (EndpointTrustPolicy_admits e peer); naive_solver.
Qed.

(** ** Properties *)

(** endpoint narrowing never widens profile trust.  A peer is admitted at
    an endpoint exactly when it is on the profile allowlist, is not the local
    identity, and the endpoint's filter admits it; the endpoint filter alone
    can only turn an [Allowed] into [NarrowedByEndpoint]. *)
Theorem endpoint_trust_narrows (p : PeerTrustPolicy) (peer : TransportIdentity)
    (e : EndpointTrustPolicy) :
  (PeerTrustPolicy_decide_for_endpoint p peer e = Allowed ↔
   peer ∈ ptp_allowed_peers p ∧ ptp_local_peer p ≠ Some peer ∧
   EndpointTrustPolicy_admits e peer = true) ∧
  (PeerTrustPolicy_decide_for_endpoint p peer e ≠ PeerTrustPolicy_decide p peer →
   PeerTrustPolicy_decide p peer = Allowed ∧
   PeerTrustPolicy_decide_for_endpoint p peer e = Denied NarrowedByEndpoint).
Proof.
  split.
  - rw decide_for_endpoint_Allowed decide_Allowed. naive_solver.
  - unfold PeerTrustPolicy_decide_for_endpoint.
    destruct (PeerTrustPolicy_decide p peer); [|done].
    by destruct (EndpointTrustPolicy_admits e peer).
Qed.

(** in every state an allowlist can reach through [new],
    [with_local_peer], [allow] and [revoke], it holds at most 4096 peers and
    never the local identity, so what the allowlist lists is exactly what
    [decide] admits; a peer just revoked is denied, a peer just allowed is
    admitted, and nobody else's decision changes. *)
Theorem trust_policy_reachable (p : PeerTrustPolicy) (peer : TransportIdentity)
    (H : policy_reachable p) :
  PeerTrustPolicy_len p ≤ 4096 ∧
  (∀ q, q ∈ ptp_allowed_peers p ↔ PeerTrustPolicy_decide p q = Allowed) ∧
  (PeerTrustPolicy_decide (PeerTrustPolicy_revoke p peer).2 peer ≠ Allowed) ∧
  (∀ q, q ≠ peer →
    PeerTrustPolicy_decide (PeerTrustPolicy_revoke p peer).2 q = PeerTrustPolicy_decide p q) ∧
  match PeerTrustPolicy_allow p peer with
  | Ok (fresh, p') =>
      PeerTrustPolicy_decide p' peer = Allowed ∧
      (fresh = true ↔ PeerTrustPolicy_decide p peer ≠ Allowed) ∧
      ∀ q, q ≠ peer → PeerTrustPolicy_decide p' q = PeerTrustPolicy_decide p q
  | Err LocalPeer => ptp_local_peer p = Some peer
  | Err (AllowlistTooLarge got max) =>
      PeerTrustPolicy_len p = 4096 ∧ got = 4097 ∧ max = 4096 ∧ peer ∉ ptp_allowed_peers p
  end.
Proof.
  destruct (policy_reachable_inv _ H) as [Hb Hl]. unfold PeerTrustPolicy_MAX_ALLOWED_PEERS in Hb.
  repeat split; try done.
  - intros Hq. apply decide_Allowed. split; [done|]. by intros ?%Hl.
  - by intros [? _]%decide_Allowed.
  - rw decide_Allowed. simpl. set_solver.
  - intros q Hq. unfold PeerTrustPolicy_decide. simpl.
    case_bool_decide; [done|]. do 2 case_bool_decide; set_solver.
  - unfold PeerTrustPolicy_allow. case_bool_decide as Hloc; [done|].
    case_bool_decide as Hin.
    { split; [by apply decide_Allowed|]. split; [|done]. rw decide_Allowed. naive_solver. }
    unfold PeerTrustPolicy_MAX_ALLOWED_PEERS in *.
    destruct (N.leb_spec 4096 (PeerTrustPolicy_len p)); [repeat split; try done; lia|].
    split; [|split].
    + apply decide_Allowed. simpl. set_solver.
    + rw decide_Allowed. naive_solver.
    + intros q Hq. unfold PeerTrustPolicy_decide. simpl.
      case_bool_decide; [done|]. do 2 case_bool_decide; set_solver.
Qed.

Definition demo_peer : TransportIdentity := MkTransportIdentity (bs "peer-a").
Definition demo_peer' : TransportIdentity := MkTransportIdentity (bs "peer-b").

Definition demo_policy : PeerTrustPolicy :=
  PeerTrustPolicy_with_local_peer (MkPeerTrustPolicy (list_to_set [demo_peer]) None) demo_peer'.

Lemma demo_policy_reachable : policy_reachable demo_policy.
Proof. apply reach_local, (reach_new [demo_peer]). by vm_compute. Qed.

Lemma trust_policy_reachable_witness :
  policy_reachable demo_policy ∧ PeerTrustPolicy_decide demo_policy demo_peer = Allowed ∧
  PeerTrustPolicy_decide (PeerTrustPolicy_revoke demo_policy demo_peer).2 demo_peer ≠ Allowed.
Proof.
  split; [apply demo_policy_reachable|]. split; [by vm_compute|].
  apply (trust_policy_reachable demo_policy demo_peer demo_policy_reachable).
Defined.
