(* ===== verification/Fingerprint.v ===== *)
(** * Derived digests

    [crates/transport/runtime/src/fingerprint.rs], [mesh_id.rs] and
    [topic.rs]: the content identity a dedup entry stores, the mesh duplicate
    identity, and the topic key.  SHA-256 is a third-party crate and is a
    parameter ([Sha256]); the bytes each function feeds it are the source's. *)
From S2P Require Import Prelude Ids.
Local Open Scope N_scope.

(** [Sha256::digest]. *)
Class Sha256 := sha256 : bytes → bytes.

Definition FINGERPRINT_DOMAIN : bytes :=
  bs "interweave/direct-content-fingerprint/v1" ++ [x00].
Definition MESH_DOMAIN : bytes := bs "interweave/gossipsub-message-id/v1" ++ [x00].
Definition TOPIC_DOMAIN : bytes := bs "interweave/topic/v1" ++ [x00].

Record ContentFingerprint := MkContentFingerprint { fingerprint_bytes : bytes }.
Record MeshMessageId := MkMeshMessageId { mesh_id_bytes : bytes }.
Record TopicKey := MkTopicKey { topic_key_bytes : bytes }.

#[global] Instance ContentFingerprint_eq_dec : EqDecision ContentFingerprint.
Proof. solve_decision. Defined.

Inductive FingerprintError :=
| FpEmptyMediaType
| FpMediaTypeTooLong (got : N)
| FpMediaTypeNotPrintable.

(** The hasher updates made for the media type. *)
Definition fingerprint_media (media_type : option bytes) : result bytes FingerprintError :=
  match media_type with
  | None => Ok [x00]
  | Some media =>
      if bool_decide (media = []) then Err FpEmptyMediaType
      else if negb (forallb (in_range 32 126) media) then Err FpMediaTypeNotPrintable
      else if 128 <? len media then Err (FpMediaTypeTooLong (len media))
      else Ok (x01 :: to_be 2 (try_from_or_max u16_max (len media)) ++ media)
  end.

(** What follows the media type: the length-prefixed payload. *)
Definition fingerprint_payload (payload : bytes) : bytes :=
  to_be 4 (try_from_or_max u32_max (len payload)) ++ payload.

Definition mesh_preimage (source : bytes) (sequence_number : N) : bytes :=
  MESH_DOMAIN ++ to_be 2 (try_from_or_max u16_max (len source)) ++ source
  ++ to_be 8 sequence_number.

Definition topic_preimage (channel : ChannelId) : bytes :=
  TOPIC_DOMAIN ++ ChannelId_as_str channel.

Section Digests.
Context {sha : Sha256}.

Definition direct_content_fingerprint_v1 (media_type : option bytes) (payload : bytes) :
    result ContentFingerprint FingerprintError :=
  media <-? fingerprint_media media_type;
  Ok (MkContentFingerprint
        (sha256 (FINGERPRINT_DOMAIN ++ media ++ fingerprint_payload payload))).

Definition gossipsub_message_id_v1 (source : bytes) (sequence_number : N) : MeshMessageId :=
  MkMeshMessageId (sha256 (mesh_preimage source sequence_number)).

Definition topic_key_v1 (channel : ChannelId) : TopicKey :=
  MkTopicKey (sha256 (topic_preimage channel)).
End Digests.

(** Lower-case hex of the key. *)
Definition TopicKey_wire_string (k : TopicKey) : bytes :=
  topic_key_bytes k ≫= λ b,
    [hex_digit (N.shiftr (byte_val b) 4); hex_digit (N.land (byte_val b) 15)].

(** Two digest inputs of which the digest cannot tell which was hashed. *)
Definition sha_collision {sha : Sha256} : Prop :=
  ∃ x y : bytes, x ≠ y ∧ sha256 x = sha256 y.

Lemma sha_eq_or_collision {sha : Sha256} (x y : bytes) :
  sha256 x = sha256 y → x = y ∨ sha_collision.
Proof. intros. destruct (decide (x = y)); [by left|]. right. by exists x, y. Qed.

(** ** The hashed streams are injective *)

Lemma app_inj_len {A} (a b c d : list A) :
  len a = len b → a ++ c = b ++ d → a = b ∧ c = d.
Proof. unfold len. intros. apply app_inj_1; [lia|done]. Qed.

Lemma fingerprint_payload_inj p q : fingerprint_payload p = fingerprint_payload q → p = q.
Proof.
  intros [_ ?]%(app_inj_len (to_be 4 _) (to_be 4 _)); [done|]. by len_simpl.
Qed.

Lemma fingerprint_stream_inj m1 m2 s1 s2 p1 p2 :
  fingerprint_media m1 = Ok s1 → fingerprint_media m2 = Ok s2 →
  s1 ++ fingerprint_payload p1 = s2 ++ fingerprint_payload p2 →
  m1 = m2 ∧ p1 = p2.
Proof.
  assert (∀ m s, fingerprint_media m = Ok s →
    (m = None ∧ s = [x00]) ∨
    ∃ l, m = Some l ∧ len l ≤ 128 ∧ s = x01 :: to_be 2 (len l) ++ l) as Hs.
  { intros [l|] s; simpl; [|intros [= <-]; by left].
    case_bool_decide; [done|]. destruct (negb _); [done|].
    destruct (N.ltb_spec 128 (len l)); [done|]. intros [= <-]. right. exists l.
    unfold try_from_or_max, u16_max. rw N.min_l; [done|lia]. }
  intros [[-> ->]|(l1 & -> & H1 & ->)]%Hs [[-> ->]|(l2 & -> & H2 & ->)]%Hs Heq;
    pose proof (f_equal head Heq) as Hh; try discriminate Hh; clear Hh;
    apply (f_equal tail) in Heq; cbn [app tail] in Heq.
  - split; [done|]. by apply fingerprint_payload_inj.
  - rw -!app_assoc in Heq.
    apply (app_inj_len (to_be 2 (len l1)) (to_be 2 (len l2))) in Heq as [Hl Heq]; [|by len_simpl].
    apply to_be_inj in Hl; [|change (256 ^ N.of_nat 2) with 65536; lia..].
    apply (app_inj_len l1 l2) in Heq as [-> ?%fingerprint_payload_inj]; [|done]. by subst.
Qed.

(** The domains differ before either ends, so no two derivations hash a
    common input. *)
Lemma domains_differ x y :
  FINGERPRINT_DOMAIN ++ x ≠ TOPIC_DOMAIN ++ y ∧ FINGERPRINT_DOMAIN ++ x ≠ MESH_DOMAIN ++ y ∧
  MESH_DOMAIN ++ x ≠ TOPIC_DOMAIN ++ y.
Proof. repeat split; by intros H%(f_equal (lookup 11%nat)). Qed.
#[local] Opaque FINGERPRINT_DOMAIN MESH_DOMAIN TOPIC_DOMAIN.

(** ** Properties *)

(** [DirectContentFingerprintV1] binds the content: two contents with one
    fingerprint are the same media type (absence included) and the same
    payload, or they exhibit two distinct inputs SHA-256 maps to one digest.
    So no framing ambiguity can make two contents share an identity. *)
Theorem fingerprint_binds_content (sha : Sha256) (m1 m2 : option bytes) (p1 p2 : bytes)
    (f : ContentFingerprint)
    (H1 : direct_content_fingerprint_v1 m1 p1 = Ok f)
    (H2 : direct_content_fingerprint_v1 m2 p2 = Ok f) :
  (m1 = m2 ∧ p1 = p2) ∨ sha_collision.
Proof.
  unfold direct_content_fingerprint_v1 in *. inv_ok H1. inv_ok H2.
  apply sha_eq_or_collision in H2 as [H2|?]; [left|by right].
  apply app_inv_head in H2. by eapply fingerprint_stream_inj.
Qed.

(** A 32-byte stand-in for SHA-256, for concrete evaluations only: the last
    32 bytes of its input. *)
Definition demo_sha : Sha256 := λ l, ndrop (len l - 32) l.

Lemma fingerprint_binds_content_witness :
  ∃ f, @direct_content_fingerprint_v1 demo_sha (Some (bs "text/plain")) (bs "hello") = Ok f ∧
       ((Some (bs "text/plain") = Some (bs "text/plain") ∧ bs "hello" = bs "hello")
        ∨ @sha_collision demo_sha).
Proof.
  eexists. split; [reflexivity|].
  eapply (fingerprint_binds_content demo_sha); reflexivity.
Defined.

(** the mesh identity and the topic key bind their inputs, and the three
    derivations never hash a common input: a digest shared by two different
    sources/sequence numbers, by two different channels, or by two different
    derivations exhibits a SHA-256 collision. *)
Theorem digests_separated (sha : Sha256) (s1 s2 : bytes) (n1 n2 : N) (c1 c2 : ChannelId)
    (media : option bytes) (payload : bytes)
    (Hn1 : n1 ≤ u64_max) (Hn2 : n2 ≤ u64_max) (Hs1 : len s1 ≤ u16_max) (Hs2 : len s2 ≤ u16_max) :
  (gossipsub_message_id_v1 s1 n1 = gossipsub_message_id_v1 s2 n2 →
     (s1 = s2 ∧ n1 = n2) ∨ sha_collision) ∧
  (topic_key_v1 c1 = topic_key_v1 c2 → c1 = c2 ∨ sha_collision) ∧
  (mesh_id_bytes (gossipsub_message_id_v1 s1 n1) = topic_key_bytes (topic_key_v1 c1) →
     sha_collision) ∧
  (∀ f, direct_content_fingerprint_v1 media payload = Ok f →
     fingerprint_bytes f = topic_key_bytes (topic_key_v1 c1) ∨
     fingerprint_bytes f = mesh_id_bytes (gossipsub_message_id_v1 s1 n1) → sha_collision).
Proof.
  unfold gossipsub_message_id_v1, topic_key_v1, topic_preimage, mesh_preimage. simpl.
  split; [|split; [|split]].
  - intros [= H]. apply sha_eq_or_collision in H as [H|?]; [left|by right].
    apply app_inv_head, (app_inj_len (to_be 2 _) (to_be 2 _)) in H as [Hl H]; [|by len_simpl].
    unfold try_from_or_max in Hl. rw !N.min_l in Hl; [|done..].
    apply to_be_inj in Hl; [|change (256 ^ N.of_nat 2) with 65536; unfold u16_max in *; lia..].
    apply (app_inj_len s1 s2) in H as [-> H]; [|done].
    apply to_be_inj in H;
      [done|change (256 ^ N.of_nat 8) with 18446744073709551616; unfold u64_max in *; lia..].
  - intros [= H]. apply sha_eq_or_collision in H as [H|?]; [left|by right].
    apply app_inv_head in H. destruct c1, c2. by f_equal.
  - intros H. apply sha_eq_or_collision in H as [H|?]; [|done].
    by apply (domains_differ _ _) in H.
  - unfold direct_content_fingerprint_v1. intros f H. inv_ok H. simpl.
    intros [[H|?]%sha_eq_or_collision|[H|?]%sha_eq_or_collision]; try done;
      by apply (domains_differ _ _) in H.
Qed.

Lemma digests_separated_witness :
  7 ≤ u64_max ∧ len (bs "src") ≤ u16_max ∧
  (@topic_key_v1 demo_sha (MkChannelId (bs "a")) = @topic_key_v1 demo_sha (MkChannelId (bs "a")) →
   MkChannelId (bs "a") = MkChannelId (bs "a") ∨ @sha_collision demo_sha).
Proof.
  split; [by vm_compute|]. split; [by vm_compute|].
  apply (digests_separated demo_sha (bs "src") (bs "src") 7 7 _ _ None [] ); by vm_compute.
Defined.
