(* ===== verification/Dedup.v ===== *)
(** * Bounded duplicate suppression

    [crates/transport/runtime/src/dedup.rs], the [DedupCache] half: an
    LRU/TTL cache of accepted messages.  [entries] is the [BTreeMap], [order]
    the [VecDeque] that carries recency (front = least recently used).

    The main result is the guarantee the cache exists for: a recorded message
    presented again inside its TTL is recognised, with the route it was first
    given, as long as fewer than [max_entries] operations on other keys
    happened in between ([dedup_retention]). *)
From S2P Require Import Prelude Ids Fingerprint.
Local Open Scope N_scope.

Definition DEFAULT_MAX_ENTRIES : N := 10000.
Definition DEFAULT_TTL_MS : N := 5 * 60 * 1000.

Inductive DestinationSelector := Explicit (e : EndpointId) | Default.

Inductive DedupKey :=
| KeyBroadcast (source_peer : TransportIdentity) (channel : ChannelId) (message_id : MessageId)
| KeyDirect (source_peer : TransportIdentity) (source_endpoint : EndpointId)
    (destination_selector : DestinationSelector) (message_id : MessageId).

Definition DedupKey_source_peer (k : DedupKey) : TransportIdentity :=
  match k with KeyBroadcast p _ _ => p | KeyDirect p _ _ _ => p end.

Inductive RecordedRoute := RouteBroadcast | RouteDirect (resolved_endpoint : EndpointId).

Record AcceptedRecord := MkAcceptedRecord {
  ar_route : RecordedRoute;
  ar_fingerprint : ContentFingerprint;
  ar_stored_at_ms : N
}.

Inductive Admission := Fresh | DuplicateAccepted (route : RecordedRoute) | Conflict.

#[global] Instance DestinationSelector_eq_dec : EqDecision DestinationSelector.
Proof. solve_decision. Defined.
#[global] Instance DedupKey_eq_dec : EqDecision DedupKey.
Proof. solve_decision. Defined.
#[global] Instance RecordedRoute_eq_dec : EqDecision RecordedRoute.
Proof. solve_decision. Defined.
#[global] Instance AcceptedRecord_eq_dec : EqDecision AcceptedRecord.
Proof. solve_decision. Defined.
#[global] Instance Admission_eq_dec : EqDecision Admission.
Proof. solve_decision. Defined.
#[global] Program Instance DedupKey_countable : Countable DedupKey :=
  inj_countable'
    (λ k, match k with
          | KeyBroadcast p c m => inl (p, c, m)
          | KeyDirect p e (Explicit d) m => inr (p, e, Some d, m)
          | KeyDirect p e Default m => inr (p, e, None, m)
          end)
    (λ x, match x with
          | inl (p, c, m) => KeyBroadcast p c m
          | inr (p, e, Some d, m) => KeyDirect p e (Explicit d) m
          | inr (p, e, None, m) => KeyDirect p e Default m
          end) _.
Next Obligation. by intros [|??[]?]. Qed.

Record DedupCache := MkDedupCache {
  dc_entries : gmap DedupKey AcceptedRecord;
  dc_order : list DedupKey;
  dc_max_entries : N;
  dc_ttl_ms : N
}.

Definition DedupCache_new (max_entries ttl_ms : N) : DedupCache :=
  MkDedupCache ∅ [] (N.max max_entries 1) ttl_ms.
Definition DedupCache_default : DedupCache := DedupCache_new DEFAULT_MAX_ENTRIES DEFAULT_TTL_MS.
Definition DedupCache_len (c : DedupCache) : N := N.of_nat (size (dc_entries c)).

(** [order.iter().position(..)] then [order.remove(pos)]. *)
Fixpoint remove_first {A} `{EqDecision A} (k : A) (l : list A) : list A :=
  match l with
  | [] => []
  | x :: l => if decide (x = k) then l else x :: remove_first k l
  end.

(** [now_ms.saturating_sub(r.stored_at_ms) >= ttl] *)
Definition record_expired (ttl now_ms : N) (r : AcceptedRecord) : bool :=
  ttl <=? sat_sub now_ms (ar_stored_at_ms r).

(** The removal loop of [expire] over the collected keys. *)
Definition expire_keys (ks : list DedupKey) (c : DedupCache) : DedupCache :=
  foldl (λ c k, MkDedupCache (delete k (dc_entries c)) (remove_first k (dc_order c))
                  (dc_max_entries c) (dc_ttl_ms c)) c ks.

Definition DedupCache_expire (c : DedupCache) (now_ms : N) : DedupCache :=
  let expired :=
    (filter (λ p, record_expired (dc_ttl_ms c) now_ms p.2 = true)
       (map_to_list (dc_entries c))).*1 in
  expire_keys expired c.

Definition DedupCache_touch (c : DedupCache) (key : DedupKey) : DedupCache :=
  if bool_decide (key ∈ dc_order c)
  then MkDedupCache (dc_entries c) (remove_first key (dc_order c) ++ [key])
         (dc_max_entries c) (dc_ttl_ms c)
  else c.

Definition DedupCache_admit (c : DedupCache) (key : DedupKey) (fingerprint : ContentFingerprint)
    (now_ms : N) : Admission * DedupCache :=
  let c := DedupCache_expire c now_ms in
  match dc_entries c !! key with
  | None => (Fresh, c)
  | Some record =>
      if bool_decide (ar_fingerprint record = fingerprint)
      then (DuplicateAccepted (ar_route record), DedupCache_touch c key)
      else (Conflict, c)
  end.

(** [while entries.len() >= max { pop_front, or break; entries.remove }] *)
Fixpoint evict (max : N) (entries : gmap DedupKey AcceptedRecord) (order : list DedupKey) :
    gmap DedupKey AcceptedRecord * list DedupKey :=
  if max <=? N.of_nat (size entries) then
    match order with
    | [] => (entries, [])
    | oldest :: order => evict max (delete oldest entries) order
    end
  else (entries, order).

Definition DedupCache_record_accepted (c : DedupCache) (key : DedupKey) (route : RecordedRoute)
    (fingerprint : ContentFingerprint) (now_ms : N) : DedupCache :=
  let c := DedupCache_expire c now_ms in
  if bool_decide (is_Some (dc_entries c !! key)) then c
  else
    let '(entries, order) := evict (dc_max_entries c) (dc_entries c) (dc_order c) in
    MkDedupCache (<[key := MkAcceptedRecord route fingerprint now_ms]> entries)
      (order ++ [key]) (dc_max_entries c) (dc_ttl_ms c).

Definition DedupCache_get (c : DedupCache) (key : DedupKey) : option AcceptedRecord :=
  dc_entries c !! key.

(** ** The cache invariant *)
Record dedup_inv (c : DedupCache) : Prop := {
  di_nodup : NoDup (dc_order c);
  di_dom : ∀ k, k ∈ dc_order c ↔ is_Some (dc_entries c !! k);
  di_bound : DedupCache_len c ≤ dc_max_entries c;
  di_max : 1 ≤ dc_max_entries c
}.

Section remove_first.
Context {A : Type} `{EqDecision A}.
Implicit Types l : list A.

Lemma remove_first_filter k l : NoDup l → remove_first k l = filter (λ x, x ≠ k) l.
Proof.
  induction 1 as [|x l Hx _ IH]; [done|]. simpl. case_decide as Hd.
  - subst x. rw filter_cons_False; [|naive_solver].
    symmetry. apply list_filter_all. intros y Hy ->. done.
  - rw filter_cons_True; [by rw IH|done].
Qed.
Lemma elem_of_remove_first k l x :
  NoDup l → x ∈ remove_first k l ↔ x ∈ l ∧ x ≠ k.
Proof. intros H. rw (remove_first_filter _ _ H) list_elem_of_filter. naive_solver. Qed.
Lemma NoDup_remove_first k l : NoDup l → NoDup (remove_first k l).
Proof. intros H. rw remove_first_filter //. by apply NoDup_filter. Qed.

(** How many elements follow [k]: its distance from the recent end. *)
Fixpoint behind (k : A) l : N :=
  match l with
  | [] => 0
  | x :: l => if decide (x = k) then len l else behind k l
  end.

Lemma behind_app_l k l1 l2 : k ∈ l1 → behind k (l1 ++ l2) = behind k l1 + len l2.
Proof.
  induction l1 as [|x l1 IH]; [by intros ?%not_elem_of_nil|].
  simpl. case_decide; [by rw len_app|]. intros [->|?]%elem_of_cons; [done|]. by apply IH.
Qed.
Lemma behind_filter (P : A → Prop) `{!∀ x, Decision (P x)} k l :
  P k → behind k (filter P l) ≤ behind k l.
Proof.
  intros Hk. induction l as [|x l IH]; [done|].
  destruct (decide (P x)).
  - rw filter_cons_True //. simpl. case_decide; [|done].
    unfold len. pose proof (length_filter P l). lia.
  - rw filter_cons_False //. simpl. case_decide; [naive_solver|done].
Qed.
Lemma behind_bound k l : behind k l ≤ len l.
Proof. induction l as [|x l IH]; simpl; [done|]. case_decide; len_simpl; lia. Qed.
End remove_first.

(** ** Each step keeps the invariant *)

Lemma expire_keys_spec ks c :
  NoDup (dc_order c) →
  let c' := expire_keys ks c in
  (∀ k, dc_entries c' !! k = if decide (k ∈ ks) then None else dc_entries c !! k) ∧
  dc_order c' = filter (λ x, x ∉ ks) (dc_order c) ∧
  dc_max_entries c' = dc_max_entries c ∧ dc_ttl_ms c' = dc_ttl_ms c.
Proof.
  revert c. induction ks as [|k ks IH]; intros c Hnd; simpl.
  - repeat split; try done.
    symmetry. apply list_filter_all. intros ??. apply not_elem_of_nil.
  - destruct (IH (MkDedupCache (delete k (dc_entries c)) (remove_first k (dc_order c))
      (dc_max_entries c) (dc_ttl_ms c))) as (Hl & Ho & Hm & Ht); [by apply NoDup_remove_first|].
    simpl in *. repeat split; try done.
    + intros k'. unfold expire_keys in Hl. rw Hl. rw lookup_delete.
      repeat case_decide; set_solver.
    + unfold expire_keys in Ho. rw Ho remove_first_filter // list_filter_filter.
      apply list_filter_iff. set_solver.
Qed.

Lemma elem_of_expired c now k :
  k ∈ (filter (λ p, record_expired (dc_ttl_ms c) now p.2 = true)
         (map_to_list (dc_entries c))).*1 ↔
  ∃ r, dc_entries c !! k = Some r ∧ record_expired (dc_ttl_ms c) now r = true.
Proof.
  rw list_elem_of_fmap. setoid_rewrite list_elem_of_filter. split.
  - intros ([k' r] & -> & ? & ?%elem_of_map_to_list). by exists r.
  - intros (r & ? & ?). exists (k, r). rw elem_of_map_to_list. done.
Qed.

Lemma expire_params c now :
  NoDup (dc_order c) →
  dc_max_entries (DedupCache_expire c now) = dc_max_entries c ∧
  dc_ttl_ms (DedupCache_expire c now) = dc_ttl_ms c.
Proof. intros H. split; apply (expire_keys_spec _ _ H). Qed.

(** [expire] keeps exactly the live records. *)
Lemma expire_lookup c now k :
  NoDup (dc_order c) →
  dc_entries (DedupCache_expire c now) !! k =
  match dc_entries c !! k with
  | Some r => if record_expired (dc_ttl_ms c) now r then None else Some r
  | None => None
  end.
Proof.
  intros H. unfold DedupCache_expire. destruct (expire_keys_spec
    (filter (λ p, record_expired (dc_ttl_ms c) now p.2 = true)
         (map_to_list (dc_entries c))).*1 c H) as (-> & _).
  case_decide as Hd; rw elem_of_expired in Hd.
  - destruct Hd as (r & -> & ->). done.
  - destruct (dc_entries c !! k) as [r|] eqn:E; [|done].
    destruct (record_expired _ _ r) eqn:Er; [|done]. naive_solver.
Qed.

Lemma expire_order c now :
  NoDup (dc_order c) →
  ∃ ks : list DedupKey, dc_order (DedupCache_expire c now) = filter (λ x, x ∉ ks) (dc_order c) ∧
        (∀ k, k ∈ ks ↔ ∃ r, dc_entries c !! k = Some r ∧
                            record_expired (dc_ttl_ms c) now r = true).
Proof.
  intros H. eexists. split; [by apply expire_keys_spec|]. apply elem_of_expired.
Qed.

Lemma expire_inv c now : dedup_inv c → dedup_inv (DedupCache_expire c now).
Proof.
  intros [Hnd Hdom Hb Hm]. destruct (expire_order c now Hnd) as (ks & Ho & Hks).
  destruct (expire_params c now Hnd) as [Hmax _].
  split.
  - rw Ho. by apply NoDup_filter.
  - intros k. rw Ho list_elem_of_filter Hks Hdom expire_lookup //.
    destruct (dc_entries c !! k) as [r|]; [|split; [by intros [_ ?]|by intros [? [=]]]].
    destruct (record_expired _ _ r) eqn:Er.
    + split; [intros [[] _]; by exists r|by intros [? [=]]].
    + split; [intros _; by eexists|]. intros _. split; [|by eexists].
      intros (r' & [= <-] & ?). congruence.
  - rw Hmax. etrans; [|exact Hb]. unfold DedupCache_len.
    assert (dc_entries (DedupCache_expire c now) ⊆ dc_entries c) as Hsub%map_subseteq_size; [|lia].
    apply map_subseteq_spec. intros k r. rw expire_lookup //.
    destruct (dc_entries c !! k); [|done]. by destruct (record_expired _ _ _).
  - by rw Hmax.
Qed.

Lemma touch_inv c k : dedup_inv c → dedup_inv (DedupCache_touch c k).
Proof.
  intros [Hnd Hdom Hb Hm]. unfold DedupCache_touch. case_bool_decide as Hk; [|done].
  split; simpl; try done.
  - apply NoDup_app. split; [by apply NoDup_remove_first|]. split; [|apply NoDup_singleton].
    intros x [_ ?]%elem_of_remove_first ?%list_elem_of_singleton; done.
  - intros k'. rw elem_of_app elem_of_remove_first // list_elem_of_singleton -Hdom.
    destruct (decide (k' = k)); naive_solver.
Qed.

Lemma touch_entries c k : dc_entries (DedupCache_touch c k) = dc_entries c.
Proof. unfold DedupCache_touch. by case_bool_decide. Qed.
Lemma touch_params c k :
  dc_max_entries (DedupCache_touch c k) = dc_max_entries c ∧
  dc_ttl_ms (DedupCache_touch c k) = dc_ttl_ms c.
Proof. unfold DedupCache_touch. by case_bool_decide. Qed.

Lemma admit_inv c k fp now : dedup_inv c → dedup_inv (DedupCache_admit c k fp now).2.
Proof.
  intros H%(expire_inv _ now). unfold DedupCache_admit.
  destruct (_ !! k); [|done]. case_bool_decide; [by apply touch_inv|done].
Qed.

(** What eviction leaves: a suffix of the order, short enough for one more. *)
Lemma evict_spec max entries order entries' order' :
  1 ≤ max → NoDup order → (∀ k, k ∈ order ↔ is_Some (entries !! k)) →
  N.of_nat (size entries) ≤ max →
  evict max entries order = (entries', order') →
  (∀ k, k ∈ order' ↔ is_Some (entries' !! k)) ∧ NoDup order' ∧
  N.of_nat (size entries') < max ∧
  ((order' = order ∧ entries' = entries) ∨
   ∃ k, order = k :: order' ∧ entries' = delete k entries ∧ N.of_nat (size entries) = max).
Proof.
  intros Hmax Hnd Hdom Hle. destruct order as [|k order]; simpl.
  - destruct (N.leb_spec max (N.of_nat (size entries))) as [Hge|Hlt].
    + exfalso. assert (entries = ∅) as He.
      { apply map_empty => k. apply eq_None_not_Some. rw -Hdom. apply not_elem_of_nil. }
      rw He map_size_empty in Hge. lia.
    + intros [= <- <-]. split; [done|]. split; [done|]. split; [done|]. by left.
  - destruct (N.leb_spec max (N.of_nat (size entries))) as [Hge|Hlt].
    + apply NoDup_cons in Hnd as [Hk Hnd].
      assert (is_Some (entries !! k)) as [r Hr] by (apply Hdom; by left).
      pose proof (map_size_delete k entries) as Hsz. rw Hr in Hsz.
      assert (size entries ≠ 0%nat).
      { intros Hz%map_size_empty_inv. by rw Hz in Hr. }
      assert (N.of_nat (size (delete k entries)) < max) as Hsm by lia.
      assert (evict max (delete k entries) order = (delete k entries, order)) as ->.
      { destruct order; simpl; by rewrite -> (proj2 (N.leb_gt _ _)). }
      intros [= <- <-]. split.
      { intros k'. rw lookup_delete. case_decide as Hkk.
        - subst. rw is_Some_alt. naive_solver.
        - rw -Hdom elem_of_cons. naive_solver. }
      split; [done|]. split; [done|]. right. exists k. split_and!; try done. lia.
    + intros [= <- <-]. split; [done|]. split; [done|]. split; [done|]. by left.
Qed.

Lemma record_inv c k route fp now :
  dedup_inv c → dedup_inv (DedupCache_record_accepted c k route fp now).
Proof.
  intros H%(expire_inv _ now). unfold DedupCache_record_accepted.
  set (c1 := DedupCache_expire c now) in *. destruct H as [Hnd Hdom Hb Hm].
  case_bool_decide as Hk; [done|].
  destruct (evict _ _ _) as [entries order] eqn:E.
  apply evict_spec in E as (Hdom' & Hnd' & Hsz & Hcase); try done.
  assert (entries !! k = None) as Hnone.
  { apply eq_None_not_Some. intros Hs. apply Hk.
    destruct Hcase as [[_ ->]|(k' & _ & -> & _)]; [done|].
    destruct Hs as [r [_ ?]%lookup_delete_Some]. by exists r. }
  split; simpl; try done.
  - apply NoDup_app. split; [done|]. split; [|apply NoDup_singleton].
    intros x Hx ->%list_elem_of_singleton. apply Hdom' in Hx. rw Hnone in Hx.
    by destruct Hx.
  - intros k'. rw elem_of_app list_elem_of_singleton Hdom' lookup_insert.
    case_decide; [subst; naive_solver|]. naive_solver.
  - unfold DedupCache_len. simpl. rw map_size_insert_None //. lia.
Qed.

(** ** Sequences of operations *)
Inductive dedup_op :=
| OpAdmit (key : DedupKey) (fp : ContentFingerprint) (now : N)
| OpRecord (key : DedupKey) (route : RecordedRoute) (fp : ContentFingerprint) (now : N).

Definition op_key (o : dedup_op) : DedupKey :=
  match o with OpAdmit k _ _ => k | OpRecord k _ _ _ => k end.
Definition op_now (o : dedup_op) : N :=
  match o with OpAdmit _ _ t => t | OpRecord _ _ _ t => t end.

Definition dedup_step (c : DedupCache) (o : dedup_op) : DedupCache :=
  match o with
  | OpAdmit k fp t => (DedupCache_admit c k fp t).2
  | OpRecord k route fp t => DedupCache_record_accepted c k route fp t
  end.
Definition dedup_run (c : DedupCache) (ops : list dedup_op) : DedupCache := foldl dedup_step c ops.

(** Operations on keys other than [k]. *)
Definition others (k : DedupKey) (ops : list dedup_op) : N :=
  len (filter (λ o, op_key o ≠ k) ops).

Lemma step_inv c o : dedup_inv c → dedup_inv (dedup_step c o).
Proof. destruct o; [apply admit_inv|apply record_inv]. Qed.
Lemma run_inv c ops : dedup_inv c → dedup_inv (dedup_run c ops).
Proof. revert c. induction ops as [|o ops IH]; intros c Hc; [done|]. by apply IH, step_inv. Qed.
Lemma step_params c o :
  dedup_inv c →
  dc_max_entries (dedup_step c o) = dc_max_entries c ∧ dc_ttl_ms (dedup_step c o) = dc_ttl_ms c.
Proof.
  intros Hc. destruct (expire_params c (op_now o) (di_nodup _ Hc)) as [Hm Ht].
  destruct o as [k fp t|k route fp t]; simpl in *.
  - unfold DedupCache_admit. destruct (_ !! k); [|done].
    case_bool_decide; [|done]. destruct (touch_params (DedupCache_expire c t) k) as [??].
    simpl. split; congruence.
  - unfold DedupCache_record_accepted. case_bool_decide; [done|].
    by destruct (evict _ _ _).
Qed.
Lemma run_params c ops :
  dedup_inv c →
  dc_max_entries (dedup_run c ops) = dc_max_entries c ∧ dc_ttl_ms (dedup_run c ops) = dc_ttl_ms c.
Proof.
  revert c. induction ops as [|o ops IH]; intros c Hc; [done|]. simpl.
  destruct (step_params c o Hc) as [<- <-]. by apply IH, step_inv.
Qed.
Lemma new_inv max ttl : dedup_inv (DedupCache_new max ttl).
Proof.
  split; simpl.
  - constructor.
  - intros k. rw lookup_empty. split; [by intros ?%not_elem_of_nil|by intros [? [=]]].
  - unfold DedupCache_len. simpl. rw map_size_empty. lia.
  - lia.
Qed.

Lemma inv_size c : dedup_inv c → N.of_nat (size (dc_entries c)) = len (dc_order c).
Proof.
  intros [Hnd Hdom _ _]. unfold len. f_equal. rw -size_dom.
  assert (dom (dc_entries c) = list_to_set (dc_order c)) as ->.
  { apply set_eq => k. by rw elem_of_dom elem_of_list_to_set Hdom. }
  by apply size_list_to_set.
Qed.

(** One operation keeps a live record and moves it back by at most one. *)
Definition keeps (k : DedupKey) (r : AcceptedRecord) (n : N) (c c' : DedupCache) : Prop :=
  dc_entries c' !! k = Some r ∧ behind k (dc_order c') ≤ behind k (dc_order c) + n ∧
  dc_max_entries c' = dc_max_entries c ∧ dc_ttl_ms c' = dc_ttl_ms c.

Lemma expire_keeps c k r now :
  dedup_inv c → dc_entries c !! k = Some r → record_expired (dc_ttl_ms c) now r = false →
  keeps k r 0 c (DedupCache_expire c now).
Proof.
  intros [Hnd Hdom _ _] Hk Hlive. split; [by rw expire_lookup // Hk Hlive|].
  split; [|by apply expire_params].
  destruct (expire_order c now Hnd) as (ks & -> & Hks). rw N.add_0_r.
  apply behind_filter. rw Hks Hk. naive_solver congruence.
Qed.

Lemma touch_keeps c k r k' :
  dedup_inv c → dc_entries c !! k = Some r →
  keeps k r (if decide (k' = k) then 0 else 1) c (DedupCache_touch c k').
Proof.
  intros [Hnd Hdom _ _] Hk. split; [by rw touch_entries|].
  split; [|apply touch_params]. unfold DedupCache_touch. case_bool_decide as Hin; [|lia].
  simpl. rw (remove_first_filter _ _ Hnd). case_decide as Hkk.
  - subst. assert (∀ l, k ∉ l → behind k (l ++ [k]) = 0) as ->; [|lia|].
    + intros l. induction l as [|x l IH]; simpl; [by rw decide_True|].
      intros [? ?]%not_elem_of_cons. rw decide_False //. by apply IH.
    + rw list_elem_of_filter. naive_solver.
  - rw behind_app_l.
    + pose proof (behind_filter (λ x, x ≠ k') k (dc_order c) ltac:(done)).
      change (len [k']) with 1. lia.
    + rw list_elem_of_filter Hdom. split; [done|]. by exists r.
Qed.

Lemma admit_keeps c k r k' fp now :
  dedup_inv c → dc_entries c !! k = Some r → record_expired (dc_ttl_ms c) now r = false →
  keeps k r (if decide (k' = k) then 0 else 1) c (DedupCache_admit c k' fp now).2.
Proof.
  intros Hc Hk Hlive.
  destruct (expire_keeps _ _ _ _ Hc Hk Hlive) as (Hk1 & Hb1 & Hm1 & Ht1).
  apply (expire_inv _ now) in Hc. unfold DedupCache_admit.
  set (c1 := DedupCache_expire c now) in *.
  assert (keeps k r (if decide (k' = k) then 0 else 1) c c1) as Hstay.
  { split_and!; try done. case_decide; lia. }
  destruct (dc_entries c1 !! k'); [|done]. case_bool_decide; [|done].
  destruct (touch_keeps c1 k r k' Hc Hk1) as (? & ? & ? & ?).
  split_and!; simpl; try congruence; try done. destruct (decide (k' = k)); lia.
Qed.

Lemma record_keeps c k r k' route fp now :
  dedup_inv c → dc_entries c !! k = Some r → record_expired (dc_ttl_ms c) now r = false →
  (k' ≠ k → behind k (dc_order c) + 1 < dc_max_entries c) →
  keeps k r (if decide (k' = k) then 0 else 1) c (DedupCache_record_accepted c k' route fp now).
Proof.
  intros Hc Hk Hlive Hroom.
  destruct (expire_keeps _ _ _ _ Hc Hk Hlive) as (Hk1 & Hb1 & Hm1 & Ht1).
  apply (expire_inv _ now) in Hc. unfold DedupCache_record_accepted.
  set (c1 := DedupCache_expire c now) in *. rw N.add_0_r in Hb1.
  case_bool_decide as Hin.
  { split_and!; try done. case_decide; lia. }
  destruct (evict _ _ _) as [entries order] eqn:E. pose proof (inv_size _ Hc) as Hsize.
  destruct Hc as [Hnd Hdom Hb Hm]. unfold DedupCache_len in Hb.
  apply evict_spec in E as (Hdom' & _ & Hsz & Hcase); try done.
  case_decide as Hkk; [subst; destruct Hin; by exists r|]. specialize (Hroom Hkk).
  assert (entries !! k = Some r ∧ behind k order ≤ behind k (dc_order c1)) as [Hr Hbo].
  { destruct Hcase as [[-> ->]|(k0 & Ho & -> & Hfull)]; [done|].
    rw Ho in Hb1 |- *. simpl in Hb1 |- *. rw Ho len_cons in Hsize. case_decide; [lia|].
    rw lookup_delete_ne //. }
  split_and!; simpl; try done.
  - rw lookup_insert_ne //.
  - rw behind_app_l; [|apply Hdom'; by exists r]. change (len [k']) with 1. lia.
Qed.

Lemma run_keeps c k r ops :
  dedup_inv c → dc_entries c !! k = Some r →
  Forall (λ o, record_expired (dc_ttl_ms c) (op_now o) r = false) ops →
  behind k (dc_order c) + others k ops < dc_max_entries c →
  dc_entries (dedup_run c ops) !! k = Some r ∧ dc_ttl_ms (dedup_run c ops) = dc_ttl_ms c.
Proof.
  revert c. induction ops as [|o ops IH]; intros c Hc Hk Hlive Hroom; [done|].
  apply Forall_cons in Hlive as [Ho Hlive].
  assert (keeps k r (if decide (op_key o = k) then 0 else 1) c (dedup_step c o))
    as (Hk' & Hb' & Hm' & Ht').
  { destruct o as [k' fp now|k' route fp now]; simpl in *; [by apply admit_keeps|].
    apply record_keeps; try done. intros Hkk. unfold others in Hroom.
    rw filter_cons_True // in Hroom. len_simpl. lia. }
  destruct (IH (dedup_step c o)) as [? Ht]; [by apply step_inv|done|by rw Ht'| |].
  - rw Hm'. unfold others in *. destruct (decide (op_key o = k)).
    + rw filter_cons_False in Hroom; [|naive_solver]. lia.
    + rw filter_cons_True // in Hroom. len_simpl. lia.
  - split; [done|]. by rw Ht.
Qed.

(** Recording a fresh key stores it at the recent end. *)
Lemma record_fresh c k route fp t :
  dedup_inv c → (DedupCache_admit c k fp t).1 = Fresh →
  let c1 := DedupCache_record_accepted (DedupCache_admit c k fp t).2 k route fp t in
  dc_entries c1 !! k = Some (MkAcceptedRecord route fp t) ∧
  behind k (dc_order c1) = 0 ∧ dc_max_entries c1 = dc_max_entries c ∧ dc_ttl_ms c1 = dc_ttl_ms c.
Proof.
  intros Hc Hfresh c1. unfold DedupCache_admit in *.
  pose proof (expire_inv c t Hc) as Hc0. set (c0 := DedupCache_expire c t) in *.
  destruct (expire_params c t (di_nodup _ Hc)) as [Hm0 Ht0]. fold c0 in Hm0, Ht0.
  destruct (dc_entries c0 !! k) eqn:E0; [by case_bool_decide|]. clear Hfresh.
  subst c1. simpl. unfold DedupCache_record_accepted.
  pose proof (expire_inv c0 t Hc0) as Hc00.
  destruct (expire_params c0 t (di_nodup _ Hc0)) as [Hm00 Ht00].
  assert (dc_entries (DedupCache_expire c0 t) !! k = None) as Hnone
    by (rw expire_lookup; [by rw E0|apply Hc0]).
  rw Hnone. rw bool_decide_eq_false_2; [|by intros [? [=]]].
  destruct (evict _ _ _) as [entries order] eqn:E. destruct Hc00 as [Hnd Hdom Hb Hm].
  apply evict_spec in E as (Hdom' & _ & _ & Hcase); try done.
  assert (k ∉ order) as Hk.
  { rw Hdom'. destruct Hcase as [[_ ->]|(k' & _ & -> & _)]; rw ?lookup_delete_Some ?Hnone.
    - by intros [? [=]].
    - intros [r [_ ?]%lookup_delete_Some]. congruence. }
  split_and!; simpl; try congruence; [apply lookup_insert_eq|].
  clear -Hk. induction order as [|x l IH]; simpl; [by rw decide_True|].
  apply not_elem_of_cons in Hk as [??]. rw decide_False //. by apply IH.
Qed.

(** A recorded acceptance answers every later copy inside the window. *)
Lemma accepted_then_duplicate (c : DedupCache) (k : DedupKey) (route : RecordedRoute)
    (fp fp' : ContentFingerprint) (t now : N) (ops : list dedup_op)
    (Hc : dedup_inv c) (Hfresh : (DedupCache_admit c k fp t).1 = Fresh)
    (Hops : Forall (λ o, sat_sub (op_now o) t < dc_ttl_ms c) ops)
    (Hnow : sat_sub now t < dc_ttl_ms c) (Hothers : others k ops < dc_max_entries c) :
  let c1 := DedupCache_record_accepted (DedupCache_admit c k fp t).2 k route fp t in
  (DedupCache_admit (dedup_run c1 ops) k fp' now).1 =
  if bool_decide (fp = fp') then DuplicateAccepted route else Conflict.
Proof.
  intros c1. destruct (record_fresh c k route fp t Hc Hfresh) as (Hk & Hb & Hm & Ht).
  fold c1 in Hk, Hb, Hm, Ht.
  assert (dedup_inv c1) as Hc1 by (apply record_inv, admit_inv, Hc).
  destruct (run_keeps c1 k (MkAcceptedRecord route fp t) ops) as [Hk' Ht']; try done.
  { eapply Forall_impl; [done|]. simpl. intros o Ho. unfold record_expired.
    apply N.leb_gt. simpl. lia. }
  { lia. }
  unfold DedupCache_admit. rw expire_lookup; [|apply run_inv, Hc1].
  rw Hk'. unfold record_expired. rw Ht' Ht. simpl.
  rewrite -> (proj2 (N.leb_gt _ _)) by done. simpl. by case_bool_decide.
Qed.

(** ** Properties *)

(** the cache is bounded and truthful in every reachable state: it never
    holds more than [max_entries] records, its recency queue lists exactly
    the recorded keys once each, asking never creates a record, and an answer
    other than [Fresh] comes from a record younger than the TTL. *)
Theorem dedup_cache_invariant (max ttl : N) (ops : list dedup_op) :
  let c := dedup_run (DedupCache_new max ttl) ops in
  DedupCache_len c ≤ N.max max 1 ∧ NoDup (dc_order c) ∧
  (∀ k, k ∈ dc_order c ↔ is_Some (dc_entries c !! k)) ∧
  (∀ k fp now, dc_entries (DedupCache_admit c k fp now).2 ⊆ dc_entries c) ∧
  (∀ k fp now, (DedupCache_admit c k fp now).1 ≠ Fresh →
     ∃ r, dc_entries c !! k = Some r ∧ sat_sub now (ar_stored_at_ms r) < ttl).
Proof.
  intros c. pose proof (run_inv _ ops (new_inv max ttl)) as Hc. fold c in Hc.
  assert (dc_max_entries c = N.max max 1 ∧ dc_ttl_ms c = ttl) as [Hm Ht].
  { subst c. pose proof (new_inv max ttl) as Hn.
    by destruct (run_params _ ops Hn). }
  pose proof (di_bound _ Hc). pose proof (di_nodup _ Hc) as Hnd.
  assert (dc_entries (DedupCache_expire c 0) ⊆ dc_entries c ∧
          ∀ now, dc_entries (DedupCache_expire c now) ⊆ dc_entries c) as [_ Hsub].
  { split; [|intros now]; apply map_subseteq_spec; intros k r; rw expire_lookup //;
      destruct (dc_entries c !! k); try done; by destruct (record_expired _ _ _). }
  split_and!; [lia|done|apply Hc| |].
  - intros k fp now. unfold DedupCache_admit. destruct (_ !! k); [|apply Hsub].
    case_bool_decide; simpl; [rw touch_entries|]; apply Hsub.
  - intros k fp now. unfold DedupCache_admit. rw expire_lookup //.
    destruct (dc_entries c !! k) as [r|]; [|done].
    unfold record_expired. rw Ht. destruct (N.leb_spec ttl (sat_sub now (ar_stored_at_ms r)));
      [done|]. intros _. by exists r.
Qed.

(** C30: at most one delivery inside the window.  Once a message was fresh and
    its acceptance recorded at time [t], then after any further operations
    inside the TTL of which fewer than [max_entries] concern other keys, the
    same message is answered [DuplicateAccepted] with the route first
    recorded, and a different content under the same key is a [Conflict]:
    it is never [Fresh] again, whatever was admitted in between. *)
Theorem dedup_retention (c : DedupCache) (k : DedupKey) (route : RecordedRoute)
    (fp fp' : ContentFingerprint) (t now : N) (ops : list dedup_op)
    (Hc : dedup_inv c) (Hfresh : (DedupCache_admit c k fp t).1 = Fresh)
    (Hops : Forall (λ o, sat_sub (op_now o) t < dc_ttl_ms c) ops)
    (Hnow : sat_sub now t < dc_ttl_ms c) (Hothers : others k ops < dc_max_entries c) :
  let c1 := DedupCache_record_accepted (DedupCache_admit c k fp t).2 k route fp t in
  (DedupCache_admit (dedup_run c1 ops) k fp' now).1 =
  if bool_decide (fp = fp') then DuplicateAccepted route else Conflict.
Proof. by apply accepted_then_duplicate. Qed.

Definition demo_key (n : N) : DedupKey :=
  KeyDirect (MkTransportIdentity (bs "peer-a")) (MkEndpointId (bs "human")) Default
    (MkMessageId (to_be 16 n)).
Definition demo_fp (n : N) : ContentFingerprint := MkContentFingerprint (to_be 32 n).

(** A full two-entry cache: one other key is recorded in between. *)
Lemma dedup_retention_witness :
  let c := DedupCache_new 2 1000 in
  dedup_inv c ∧ (DedupCache_admit c (demo_key 1) (demo_fp 1) 10).1 = Fresh ∧
  (DedupCache_admit (dedup_run (DedupCache_record_accepted
      (DedupCache_admit c (demo_key 1) (demo_fp 1) 10).2 (demo_key 1)
      (RouteDirect (MkEndpointId (bs "human"))) (demo_fp 1) 10)
    [OpRecord (demo_key 2) RouteBroadcast (demo_fp 2) 500]) (demo_key 1) (demo_fp 1) 1009).1 =
  DuplicateAccepted (RouteDirect (MkEndpointId (bs "human"))).
Proof.
  split; [apply new_inv|]. split; [by vm_compute|].
  rw (dedup_retention (DedupCache_new 2 1000) (demo_key 1)
    (RouteDirect (MkEndpointId (bs "human"))) (demo_fp 1) (demo_fp 1) 10 1009
    [OpRecord (demo_key 2) RouteBroadcast (demo_fp 2) 500]).
  - by rw bool_decide_eq_true_2.
  - apply new_inv.
  - by vm_compute.
  - repeat constructor; by vm_compute.
  - by vm_compute.
  - by vm_compute.
Defined.
