(* ===== verification/Reservation.v ===== *)
(** * In-flight reservations

    [crates/transport/runtime/src/dedup.rs], the [ReservationMap] half: one
    owner per key, matching duplicates attached as waiters, and two budgets
    counted in outstanding requests (owners and waiters together). *)
From S2P Require Import Prelude Ids Fingerprint Dedup.
Local Open Scope N_scope.

Definition DEFAULT_MAX_RESERVATIONS : N := 128.
Definition DEFAULT_MAX_RESERVATIONS_PER_PEER : N := 8.
Definition MAX_RESERVATIONS_CEILING : N := 512.
Definition MAX_RESERVATIONS_PER_PEER_CEILING : N := 32.

Inductive ReservationFailure := ResOverloaded | ResConflict.
Inductive Reservation := Owner | Waiter.

Record InFlight := MkInFlight { if_fingerprint : ContentFingerprint; if_waiters : N }.

Record ReservationMap := MkReservationMap {
  rm_in_flight : gmap DedupKey InFlight;
  rm_per_peer : gmap TransportIdentity N;
  rm_max_global : N;
  rm_max_per_peer : N
}.

Definition ReservationMap_new (max_global max_per_peer : N) : ReservationMap :=
  MkReservationMap ∅ ∅ (N.min max_global MAX_RESERVATIONS_CEILING)
    (N.min max_per_peer MAX_RESERVATIONS_PER_PEER_CEILING).
Definition ReservationMap_default : ReservationMap :=
  ReservationMap_new DEFAULT_MAX_RESERVATIONS DEFAULT_MAX_RESERVATIONS_PER_PEER.
Definition ReservationMap_len (m : ReservationMap) : N := N.of_nat (size (rm_in_flight m)).

(** Requests one key accounts for: its owner and its waiters. *)
Definition entry_requests (e : InFlight) : N := sat_add usize_max (if_waiters e) 1.

Definition ReservationMap_outstanding (m : ReservationMap) : N :=
  msum (λ _ e, entry_requests e) (rm_in_flight m).

(** [*self.per_peer.entry(peer).or_default() += 1] *)
Definition charge_peer (per_peer : gmap TransportIdentity N) (peer : TransportIdentity) :
    gmap TransportIdentity N :=
  <[peer := default 0 (per_peer !! peer) + 1]> per_peer.

Definition ReservationMap_acquire (m : ReservationMap) (key : DedupKey)
    (fingerprint : ContentFingerprint) :
    result Reservation ReservationFailure * ReservationMap :=
  let peer := DedupKey_source_peer key in
  let held := default 0 (rm_per_peer m !! peer) in
  let outstanding := ReservationMap_outstanding m in
  match rm_in_flight m !! key with
  | Some entry =>
      if negb (bool_decide (if_fingerprint entry = fingerprint)) then (Err ResConflict, m)
      else if (rm_max_per_peer m <=? held) || (rm_max_global m <=? outstanding)
      then (Err ResOverloaded, m)
      else
        (Ok Waiter,
         MkReservationMap
           (<[key := MkInFlight (if_fingerprint entry) (sat_add usize_max (if_waiters entry) 1)]>
              (rm_in_flight m))
           (charge_peer (rm_per_peer m) peer) (rm_max_global m) (rm_max_per_peer m))
  | None =>
      if rm_max_global m <=? outstanding then (Err ResOverloaded, m)
      else if rm_max_per_peer m <=? held then (Err ResOverloaded, m)
      else
        (Ok Owner,
         MkReservationMap (<[key := MkInFlight fingerprint 0]> (rm_in_flight m))
           (charge_peer (rm_per_peer m) peer) (rm_max_global m) (rm_max_per_peer m))
  end.

Definition ReservationMap_release (m : ReservationMap) (key : DedupKey) : ReservationMap :=
  match rm_in_flight m !! key with
  | None => m
  | Some entry =>
      let charged := sat_add usize_max (if_waiters entry) 1 in
      let peer := DedupKey_source_peer key in
      let per_peer :=
        match rm_per_peer m !! peer with
        | None => rm_per_peer m
        | Some count =>
            let count := sat_sub count charged in
            if count =? 0 then delete peer (rm_per_peer m)
            else <[peer := count]> (rm_per_peer m)
        end in
      MkReservationMap (delete key (rm_in_flight m)) per_peer (rm_max_global m) (rm_max_per_peer m)
  end.

#[global] Instance Reservation_eq_dec : EqDecision Reservation.
Proof. solve_decision. Defined.
#[global] Instance ReservationFailure_eq_dec : EqDecision ReservationFailure.
Proof. solve_decision. Defined.

(** ** The accounting invariant *)

(** What [peer] has outstanding according to the keys themselves. *)
Definition peer_requests (peer : TransportIdentity) (m : ReservationMap) : N :=
  msum (λ k e, if decide (DedupKey_source_peer k = peer) then entry_requests e else 0)
    (rm_in_flight m).

Record res_inv (m : ReservationMap) : Prop := {
  ri_counts : ∀ p, default 0 (rm_per_peer m !! p) = peer_requests p m;
  ri_pos : ∀ p, rm_per_peer m !! p ≠ Some 0;
  ri_global : ReservationMap_outstanding m ≤ rm_max_global m;
  ri_per_peer : ∀ p, peer_requests p m ≤ rm_max_per_peer m;
  ri_ceilings : rm_max_global m ≤ 512 ∧ rm_max_per_peer m ≤ 32
}.

Lemma new_res_inv g p : res_inv (ReservationMap_new g p).
Proof.
  split; unfold peer_requests, ReservationMap_outstanding; simpl; intros;
    rw ?lookup_empty ?msum_empty; try done; try lia.
  unfold MAX_RESERVATIONS_CEILING, MAX_RESERVATIONS_PER_PEER_CEILING. lia.
Qed.

Lemma sat_add_succ max w :
  w < 512 → u32_max < max → sat_add max (sat_add max w 1) 1 = sat_add max w 1 + 1.
Proof. unfold sat_add, u32_max. lia. Qed.

(** No key's request count saturates while the global budget holds. *)
Lemma entry_requests_eq m k e :
  res_inv m → rm_in_flight m !! k = Some e →
  entry_requests e = if_waiters e + 1 ∧ if_waiters e < 512.
Proof.
  intros [_ _ Hg _ [Hc _]] Hk.
  pose proof (msum_ge (λ _ e, entry_requests e) _ _ _ Hk) as Hle. simpl in Hle.
  unfold ReservationMap_outstanding in Hg.
  assert (entry_requests e ≤ 512) as He by lia.
  assert (entry_requests e = if_waiters e + 1) as He'; [|lia].
  apply sat_add_exact with 512; [done|by vm_compute].
Qed.

Lemma entry_requests_fresh fp : entry_requests (MkInFlight fp 0) = 1.
Proof. by vm_compute. Qed.

Lemma charge_lookup pp p q :
  default 0 (charge_peer pp p !! q) =
  default 0 (pp !! q) + (if decide (p = q) then 1 else 0).
Proof.
  unfold charge_peer. rw lookup_insert. case_decide; [by subst|]. lia.
Qed.

Lemma acquire_inv m k fp r m' :
  res_inv m → ReservationMap_acquire m k fp = (r, m') → res_inv m'.
Proof.
  intros Hm. destruct Hm as [Hc Hp Hg Hpp Hce] eqn:Em. clear Em.
  unfold ReservationMap_acquire.
  rw (Hc (DedupKey_source_peer k)). destruct (rm_in_flight m !! k) as [e|] eqn:Ek.
  - case_bool_decide as Hfp; simpl; [|by intros [= <- <-]].
    destruct (N.leb_spec (rm_max_per_peer m) (peer_requests (DedupKey_source_peer k) m)) as [|Hlp];
      simpl; [by intros [= <- <-]|].
    destruct (N.leb_spec (rm_max_global m) (ReservationMap_outstanding m)) as [|Hlg];
      simpl; [by intros [= <- <-]|].
    intros [= <- <-]. destruct (entry_requests_eq _ _ _ Hm Ek) as [He Hw].
    set (e' := MkInFlight (if_fingerprint e) (sat_add usize_max (if_waiters e) 1)).
    assert (entry_requests e' = entry_requests e + 1) as He'.
    { exact (sat_add_succ _ _ Hw usize_max_ge). }
    assert (∀ p, peer_requests p (MkReservationMap (<[k:=e']> (rm_in_flight m))
        (charge_peer (rm_per_peer m) (DedupKey_source_peer k)) (rm_max_global m) (rm_max_per_peer m))
        = peer_requests p m + (if decide (DedupKey_source_peer k = p) then 1 else 0)) as Hpr.
    { intros p. unfold peer_requests. simpl.
      pose proof (msum_insert (λ k e, if decide (DedupKey_source_peer k = p)
        then entry_requests e else 0) _ _ _ e' Ek) as Hs. simpl in Hs. case_decide; lia. }
    split; simpl; try done.
    + intros p. rw charge_lookup Hc Hpr. done.
    + intros p. unfold charge_peer. rw lookup_insert. case_decide; [|apply Hp]. intros [=]. lia.
    + unfold ReservationMap_outstanding in *. simpl.
      pose proof (msum_insert (λ _ e, entry_requests e) _ _ _ e' Ek) as Hs. simpl in Hs. lia.
    + intros p. rw Hpr. pose proof (Hpp p). case_decide; [subst; lia|lia].
  - destruct (N.leb_spec (rm_max_global m) (ReservationMap_outstanding m)) as [|Hlg];
      [by intros [= <- <-]|].
    destruct (N.leb_spec (rm_max_per_peer m) (peer_requests (DedupKey_source_peer k) m)) as [|Hlp];
      [by intros [= <- <-]|].
    intros [= <- <-].
    assert (∀ p, peer_requests p (MkReservationMap (<[k:=MkInFlight fp 0]> (rm_in_flight m))
        (charge_peer (rm_per_peer m) (DedupKey_source_peer k)) (rm_max_global m) (rm_max_per_peer m))
        = peer_requests p m + (if decide (DedupKey_source_peer k = p) then 1 else 0)) as Hpr.
    { intros p. unfold peer_requests. simpl. rw msum_insert_fresh //.
      rw entry_requests_fresh. lia. }
    split; simpl; try done.
    + intros p. rw charge_lookup Hc Hpr. done.
    + intros p. unfold charge_peer. rw lookup_insert. case_decide; [|apply Hp]. intros [=]. lia.
    + unfold ReservationMap_outstanding in *. simpl. rw msum_insert_fresh //.
      rw entry_requests_fresh. lia.
    + intros p. rw Hpr. pose proof (Hpp p). case_decide; [subst; lia|lia].
Qed.

Lemma release_inv m k : res_inv m → res_inv (ReservationMap_release m k).
Proof.
  intros Hm. destruct Hm as [Hc Hp Hg Hpp Hce] eqn:Em. clear Em.
  unfold ReservationMap_release. destruct (rm_in_flight m !! k) as [e|] eqn:Ek; [|done].
  destruct (entry_requests_eq _ _ _ Hm Ek) as [He Hw].
  fold (entry_requests e). set (q := DedupKey_source_peer k).
  assert (∀ p, peer_requests p m =
    msum (λ k e, if decide (DedupKey_source_peer k = p) then entry_requests e else 0)
      (delete k (rm_in_flight m)) + (if decide (q = p) then entry_requests e else 0)) as Hpr.
  { intros p. unfold peer_requests. rw (msum_delete _ _ _ _ Ek). unfold q. lia. }
  assert (∀ p, default 0 ((match rm_per_peer m !! q with
    | None => rm_per_peer m
    | Some count => if sat_sub count (entry_requests e) =? 0 then delete q (rm_per_peer m)
                    else <[q:=sat_sub count (entry_requests e)]> (rm_per_peer m) end) !! p) =
    default 0 (rm_per_peer m !! p) - (if decide (q = p) then entry_requests e else 0)) as Hpp'.
  { intros p. destruct (rm_per_peer m !! q) as [n|] eqn:Eq.
    - destruct (N.eqb_spec (sat_sub n (entry_requests e)) 0) as [Hz|Hz].
      + rw lookup_delete. case_decide; [|lia]. subst p. rw Eq. simpl. unfold sat_sub in Hz. lia.
      + rw lookup_insert. case_decide; [|lia]. subst p. by rw Eq.
    - case_decide; [|lia]. subst p. rw Eq. simpl. lia. }
  split; simpl.
  - intros p. rw Hpp' Hc Hpr. unfold peer_requests. simpl. lia.
  - intros p. destruct (rm_per_peer m !! q) as [n|] eqn:Eq; [|apply Hp].
    destruct (N.eqb_spec (sat_sub n (entry_requests e)) 0).
    + rw lookup_delete. case_decide; [done|apply Hp].
    + rw lookup_insert. case_decide; [congruence|apply Hp].
  - unfold ReservationMap_outstanding in *. simpl.
    pose proof (msum_delete (λ _ e, entry_requests e) _ _ _ Ek) as Hs. simpl in Hs. lia.
  - intros p. pose proof (Hpp p) as Hb. rw Hpr in Hb. unfold peer_requests. simpl. lia.
  - done.
Qed.


(** ** Histories *)

Inductive res_op :=
| RAcquire (key : DedupKey) (fingerprint : ContentFingerprint)
| RRelease (key : DedupKey).
#[global] Instance res_op_eq_dec : EqDecision res_op.
Proof. solve_decision. Defined.

Definition res_step (m : ReservationMap) (op : res_op) : ReservationMap :=
  match op with
  | RAcquire key fp => (ReservationMap_acquire m key fp).2
  | RRelease key => ReservationMap_release m key
  end.
Definition res_run (m : ReservationMap) (ops : list res_op) : ReservationMap :=
  foldl res_step m ops.

Lemma acquire_max m k fp r m' :
  ReservationMap_acquire m k fp = (r, m') →
  rm_max_global m' = rm_max_global m ∧ rm_max_per_peer m' = rm_max_per_peer m.
Proof.
  unfold ReservationMap_acquire. repeat case_match; by intros [= <- <-].
Qed.
Lemma step_max m op :
  rm_max_global (res_step m op) = rm_max_global m ∧
  rm_max_per_peer (res_step m op) = rm_max_per_peer m.
Proof.
  destruct op as [k fp|k]; simpl.
  - destruct (ReservationMap_acquire m k fp) as [r m'] eqn:E. by eapply acquire_max.
  - unfold ReservationMap_release. by case_match.
Qed.
Lemma run_max m ops :
  rm_max_global (res_run m ops) = rm_max_global m ∧
  rm_max_per_peer (res_run m ops) = rm_max_per_peer m.
Proof.
  revert m. induction ops as [|op ops IH]; intros m; [done|]. simpl.
  destruct (IH (res_step m op)) as [-> ->]. apply step_max.
Qed.
Lemma step_res_inv m op : res_inv m → res_inv (res_step m op).
Proof.
  intros Hm. destruct op as [k fp|k]; simpl; [|by apply release_inv].
  destruct (ReservationMap_acquire m k fp) as [r m'] eqn:E. by eapply acquire_inv.
Qed.
Lemma run_res_inv m ops : res_inv m → res_inv (res_run m ops).
Proof.
  revert m. induction ops as [|op ops IH]; intros m Hm; [done|]. simpl.
  by apply IH, step_res_inv.
Qed.

(** The per-peer counters are a function of the in-flight keys. *)
Lemma res_inv_ext m m' :
  res_inv m → res_inv m' → rm_in_flight m = rm_in_flight m' →
  rm_max_global m = rm_max_global m' → rm_max_per_peer m = rm_max_per_peer m' → m = m'.
Proof.
  intros [Hc Hp _ _ _] [Hc' Hp' _ _ _] Hf Hg Hq.
  destruct m as [f pp g q], m' as [f' pp' g' q']. simpl in *. subst f' g' q'. f_equal.
  apply map_eq. intros p. specialize (Hc p). specialize (Hc' p).
  specialize (Hp p). specialize (Hp' p).
  assert (default 0 (pp !! p) = default 0 (pp' !! p)) as Hd by by rw Hc Hc'.
  destruct (pp !! p) as [a|], (pp' !! p) as [b|]; simpl in *; congruence.
Qed.

Lemma release_in_flight m k :
  rm_in_flight (ReservationMap_release m k) = delete k (rm_in_flight m).
Proof.
  unfold ReservationMap_release. case_match eqn:E; [done|]. by rw delete_id.
Qed.

(** An owner that releases leaves the map as it found it. *)
Lemma acquire_release m k fp m1 :
  res_inv m → ReservationMap_acquire m k fp = (Ok Owner, m1) → ReservationMap_release m1 k = m.
Proof.
  intros Hm Ha. pose proof (acquire_inv _ _ _ _ _ Hm Ha) as Hm1.
  destruct (acquire_max _ _ _ _ _ Ha) as [Eg Ep].
  destruct (step_max m1 (RRelease k)) as [Eg' Ep']. simpl in Eg', Ep'.
  apply res_inv_ext; [by apply release_inv|done| |congruence..]. rw release_in_flight.
  revert Ha. unfold ReservationMap_acquire. destruct (rm_in_flight m !! k) eqn:Ek.
  - repeat case_match; intros [=].
  - case_match; [done|]. case_match; [done|]. intros [= <-]. simpl.
    rw delete_insert_eq. by apply delete_id.
Qed.

(** The in-flight entry of a key survives everything but its own release. *)
Lemma res_step_keeps m op k e :
  rm_in_flight m !! k = Some e → op ≠ RRelease k →
  ∃ e', rm_in_flight (res_step m op) !! k = Some e' ∧ if_fingerprint e' = if_fingerprint e.
Proof.
  intros Hk Hop. destruct op as [k' fp|k']; simpl.
  - unfold ReservationMap_acquire. destruct (decide (k' = k)) as [->|Hne].
    + rw Hk. repeat case_match; simpl; eauto. eexists. split; [apply lookup_insert_eq|done].
    + repeat case_match; simpl; eauto; exists e; by rw lookup_insert_ne.
  - unfold ReservationMap_release. assert (k' ≠ k) by congruence.
    case_match; simpl; eauto. exists e. by rw lookup_delete_ne.
Qed.
Lemma res_run_keeps m ops k e :
  rm_in_flight m !! k = Some e → RRelease k ∉ ops →
  ∃ e', rm_in_flight (res_run m ops) !! k = Some e' ∧ if_fingerprint e' = if_fingerprint e.
Proof.
  revert m e. induction ops as [|op ops IH]; intros m e Hk Hn; [by eauto|].
  apply not_elem_of_cons in Hn as [Hop Hn]. simpl.
  destruct (res_step_keeps m op k e Hk) as (e1 & He1 & Hf1); [done|].
  destruct (IH _ _ He1 Hn) as (e2 & He2 & Hf2). exists e2. split; [done|congruence].
Qed.

Lemma acquire_key_frame m k fp :
  delete k (rm_in_flight (ReservationMap_acquire m k fp).2) = delete k (rm_in_flight m).
Proof. unfold ReservationMap_acquire. repeat case_match; simpl; by rw ?delete_insert_eq. Qed.


Lemma run_acquires_frame m k fps :
  delete k (rm_in_flight (res_run m (RAcquire k <$> fps))) = delete k (rm_in_flight m).
Proof.
  revert m. induction fps as [|fp fps IH]; intros m; [done|]. simpl.
  unfold res_run in IH. rw IH. apply acquire_key_frame.
Qed.

Lemma outstanding_ge_size m : res_inv m → ReservationMap_len m ≤ ReservationMap_outstanding m.
Proof.
  intros Hm. unfold ReservationMap_len, ReservationMap_outstanding. rw -msum_size.
  apply msum_mono. intros k e Hk. destruct (entry_requests_eq m k e Hm Hk) as [-> _]. lia.
Qed.

(** whatever sequence of acquisitions and releases a map has seen, the
    requests outstanding (owners and waiters) stay within the configured
    global budget and its ceiling of 512, every peer's counter is exactly
    the sum of the owners and waiters its keys account for and stays within
    the per-peer budget and its ceiling of 32, and there are no more keys in
    flight than requests. *)
Theorem reservation_budgets (g p : N) (ops : list res_op) :
  let m := res_run (ReservationMap_new g p) ops in
  ReservationMap_outstanding m ≤ N.min g 512 ∧
  ReservationMap_len m ≤ ReservationMap_outstanding m ∧
  ∀ peer, default 0 (rm_per_peer m !! peer) = peer_requests peer m ∧
          peer_requests peer m ≤ N.min p 32.
Proof.
  intros m. assert (res_inv m) as Hm by apply run_res_inv, new_res_inv.
  destruct (run_max (ReservationMap_new g p) ops) as [Eg Ep]. fold m in Eg, Ep. simpl in Eg, Ep.
  split; [|split; [by apply outstanding_ge_size|]].
  - pose proof (ri_global _ Hm) as H. by rw Eg in H.
  - intros peer. split; [apply (ri_counts _ Hm)|].
    pose proof (ri_per_peer _ Hm peer) as H. by rw Ep in H.
Qed.

(** one key, one owner.  Between the acquisition that made a request the
    owner of [k] and the release of [k], no acquisition of [k] is ever told
    it owns the key, whatever else happens in between; and one that carries
    different content is refused as a conflict. *)
Theorem reservation_single_owner (m m1 : ReservationMap) (k : DedupKey)
    (fp fp' : ContentFingerprint) (ops : list res_op) :
  ReservationMap_acquire m k fp = (Ok Owner, m1) → RRelease k ∉ ops →
  (ReservationMap_acquire (res_run m1 ops) k fp').1 ≠ Ok Owner ∧
  (fp' ≠ fp → (ReservationMap_acquire (res_run m1 ops) k fp').1 = Err ResConflict).
Proof.
  intros Ha Hn.
  assert (rm_in_flight m1 !! k = Some (MkInFlight fp 0)) as Hk.
  { revert Ha. unfold ReservationMap_acquire. repeat case_match; intros [=]; subst.
    apply lookup_insert_eq. }
  destruct (res_run_keeps m1 ops k _ Hk Hn) as (e & He & Hf). simpl in Hf.
  unfold ReservationMap_acquire. rw He. split.
  - by repeat case_match.
  - intros Hne. rw bool_decide_eq_false_2; [done|congruence].
Qed.

Lemma reservation_single_owner_witness :
  let m := ReservationMap_new 4 4 in
  let m1 := (ReservationMap_acquire m (demo_key 1) (demo_fp 1)).2 in
  (ReservationMap_acquire (res_run m1 [RAcquire (demo_key 1) (demo_fp 1); RRelease (demo_key 2)])
     (demo_key 1) (demo_fp 2)).1 = Err ResConflict.
Proof.
  apply (reservation_single_owner (ReservationMap_new 4 4) _ (demo_key 1) (demo_fp 1) (demo_fp 2)).
  - by vm_compute.
  - apply (bool_decide_unpack (_ ∉ _)). by vm_compute.
  - by vm_compute.
Defined.

(** a release gives back exactly what the key was charged.  From any
    reachable map in which [k] is idle, however many requests for [k] arrive
    (owner, attached waiters, conflicts, overloads), one release of [k]
    restores the map, counters included. *)
Theorem reservation_release_restores (g p : N) (ops : list res_op) (k : DedupKey)
    (fps : list ContentFingerprint) :
  let m := res_run (ReservationMap_new g p) ops in
  rm_in_flight m !! k = None →
  ReservationMap_release (res_run m (RAcquire k <$> fps)) k = m.
Proof.
  intros m Hk. assert (res_inv m) as Hm by apply run_res_inv, new_res_inv.
  set (m' := res_run m (RAcquire k <$> fps)).
  destruct (run_max m (RAcquire k <$> fps)) as [Eg Ep]. fold m' in Eg, Ep.
  destruct (step_max m' (RRelease k)) as [Eg' Ep']. simpl in Eg', Ep'.
  apply res_inv_ext; [by apply release_inv, run_res_inv|done| |congruence..].
  rw release_in_flight /m' run_acquires_frame. by apply delete_id.
Qed.

Lemma reservation_release_restores_witness :
  let m := res_run (ReservationMap_new 4 4) [RAcquire (demo_key 2) (demo_fp 2)] in
  rm_in_flight m !! demo_key 1 = None ∧
  ReservationMap_release (res_run m (RAcquire (demo_key 1) <$> [demo_fp 1; demo_fp 1; demo_fp 2]))
    (demo_key 1) = m.
Proof.
  split; [by vm_compute|].
  apply (reservation_release_restores 4 4 [RAcquire (demo_key 2) (demo_fp 2)] (demo_key 1)).
  by vm_compute.
Defined.
