(* ===== verification/Queues.v ===== *)
(** * Bounded delivery queues

    [crates/transport/runtime/src/endpoint_queue.rs], the per-endpoint FIFO
    whose [push] is the acceptance point of a direct message, and
    [session_queue.rs], the per-session broadcast queue that drops its oldest
    event when it is full.  Both maps are keyed by local state only: no
    operation but [open] adds a key. *)
From S2P Require Import Prelude Ids Payload DirectV2.
Local Open Scope N_scope.

(** ** Endpoint queues *)

Record DirectEvent := MkDirectEvent {
  de_source_peer : TransportIdentity;
  de_source_endpoint : EndpointId;
  de_destination_endpoint : EndpointId;
  de_message_id : MessageId;
  de_payload : Payload;
  de_received_at : N
}.

Inductive QueueRefusal := QFull (bound : N) | QNotOpen.

Definition QueueRefusal_to_wire (r : QueueRefusal) : DirectRejectReason :=
  match r with QFull _ => Overloaded | QNotOpen => NoRoute end.

(** The two modules' [Queue], over their event type. *)
Record Queue (E : Type) := MkQueue { q_events : list E; q_bound : N }.
Arguments MkQueue {E} _ _.
Arguments q_events {E} _.
Arguments q_bound {E} _.

Record EndpointQueues := MkEndpointQueues { eq_queues : gmap EndpointId (Queue DirectEvent) }.

Definition EndpointQueues_new : EndpointQueues := MkEndpointQueues ∅.

Definition EndpointQueues_open (q : EndpointQueues) (endpoint : EndpointId) (bound : N) :
    EndpointQueues :=
  MkEndpointQueues (<[endpoint := MkQueue [] (N.max bound 1)]> (eq_queues q)).

(** The number of events dropped, and the map without the queue. *)
Definition EndpointQueues_close (q : EndpointQueues) (endpoint : EndpointId) :
    N * EndpointQueues :=
  (match eq_queues q !! endpoint with Some queue => len (q_events queue) | None => 0 end,
   MkEndpointQueues (delete endpoint (eq_queues q))).

Definition EndpointQueues_len (q : EndpointQueues) (endpoint : EndpointId) : N :=
  match eq_queues q !! endpoint with Some queue => len (q_events queue) | None => 0 end.

Definition EndpointQueues_push (q : EndpointQueues) (event : DirectEvent) :
    result unit QueueRefusal * EndpointQueues :=
  match eq_queues q !! de_destination_endpoint event with
  | None => (Err QNotOpen, q)
  | Some queue =>
      if q_bound queue <=? len (q_events queue) then (Err (QFull (q_bound queue)), q)
      else
        (Ok (),
         MkEndpointQueues
           (<[de_destination_endpoint event :=
                MkQueue (q_events queue ++ [event]) (q_bound queue)]> (eq_queues q)))
  end.

Definition EndpointQueues_drain_up_to (q : EndpointQueues) (endpoint : EndpointId) (max : N) :
    list DirectEvent * EndpointQueues :=
  match eq_queues q !! endpoint with
  | None => ([], q)
  | Some queue =>
      let take := N.min (len (q_events queue)) max in
      (ntake take (q_events queue),
       MkEndpointQueues
         (<[endpoint := MkQueue (ndrop take (q_events queue)) (q_bound queue)]> (eq_queues q)))
  end.

Definition EndpointQueues_drain (q : EndpointQueues) (endpoint : EndpointId) :
    list DirectEvent * EndpointQueues :=
  EndpointQueues_drain_up_to q endpoint usize_max.

(** ** Session queues *)

Record BroadcastEvent := MkBroadcastEvent {
  be_source_peer : TransportIdentity;
  be_channel : ChannelId;
  be_message_id : MessageId;
  be_payload : Payload;
  be_received_at : N
}.

Inductive SessionDrop := SFull (bound : N) | SNotOpen.
Inductive Pushed := Queued | DroppedOldest (bound : N).

Record SessionQueues := MkSessionQueues { sq_queues : gmap bytes (Queue BroadcastEvent) }.

Definition SessionQueues_new : SessionQueues := MkSessionQueues ∅.

Definition SessionQueues_open (q : SessionQueues) (session : bytes) (bound : N) : SessionQueues :=
  MkSessionQueues (<[session := MkQueue [] (N.max bound 1)]> (sq_queues q)).

Definition SessionQueues_close (q : SessionQueues) (session : bytes) : N * SessionQueues :=
  (match sq_queues q !! session with Some queue => len (q_events queue) | None => 0 end,
   MkSessionQueues (delete session (sq_queues q))).

(** The bound is taken as given: unlike [open], [set_bound] does not clamp it. *)
Definition SessionQueues_set_bound (q : SessionQueues) (bound : N) : SessionQueues :=
  MkSessionQueues ((λ queue, MkQueue (q_events queue) bound) <$> sq_queues q).

Definition SessionQueues_is_open (q : SessionQueues) (session : bytes) : bool :=
  bool_decide (is_Some (sq_queues q !! session)).

Definition SessionQueues_len (q : SessionQueues) (session : bytes) : N :=
  match sq_queues q !! session with Some queue => len (q_events queue) | None => 0 end.

Definition SessionQueues_push (q : SessionQueues) (session : bytes) (event : BroadcastEvent) :
    result Pushed SessionDrop * SessionQueues :=
  match sq_queues q !! session with
  | None => (Err SNotOpen, q)
  | Some queue =>
      let '(pushed, events) :=
        if q_bound queue <=? len (q_events queue)
        then (DroppedOldest (q_bound queue), tail (q_events queue))
        else (Queued, q_events queue) in
      (Ok pushed,
       MkSessionQueues
         (<[session := MkQueue (events ++ [event]) (q_bound queue)]> (sq_queues q)))
  end.

Definition SessionQueues_drain_up_to (q : SessionQueues) (session : bytes) (max : N) :
    list BroadcastEvent * SessionQueues :=
  match sq_queues q !! session with
  | None => ([], q)
  | Some queue =>
      let take := N.min (len (q_events queue)) max in
      (ntake take (q_events queue),
       MkSessionQueues
         (<[session := MkQueue (ndrop take (q_events queue)) (q_bound queue)]> (sq_queues q)))
  end.

#[global] Instance DirectEvent_eq_dec : EqDecision DirectEvent.
Proof. solve_decision. Defined.
#[global] Instance BroadcastEvent_eq_dec : EqDecision BroadcastEvent.
Proof. solve_decision. Defined.
#[global] Instance QueueRefusal_eq_dec : EqDecision QueueRefusal.
Proof. solve_decision. Defined.
#[global] Instance Pushed_eq_dec : EqDecision Pushed.
Proof. solve_decision. Defined.
#[global] Instance SessionDrop_eq_dec : EqDecision SessionDrop.
Proof. solve_decision. Defined.

(** ** Endpoint queues: lossless FIFO within the bound *)

(** What waits for an endpoint; an endpoint with no queue has no backlog. *)
Definition waiting (q : EndpointQueues) (e : EndpointId) : list DirectEvent :=
  match eq_queues q !! e with Some queue => q_events queue | None => [] end.

Inductive queue_op :=
| QOpen (e : EndpointId) (bound : N)
| QClose (e : EndpointId)
| QPush (event : DirectEvent)
| QDrain (e : EndpointId) (max : N).
#[global] Instance queue_op_eq_dec : EqDecision queue_op.
Proof. solve_decision. Defined.

(** One operation: the new queues, the events it accepted, the events it
    handed out (with the endpoint they were drained from). *)
Definition queue_step (q : EndpointQueues) (op : queue_op) :
    EndpointQueues * list DirectEvent * list (EndpointId * DirectEvent) :=
  match op with
  | QOpen e bound => (EndpointQueues_open q e bound, [], [])
  | QClose e => ((EndpointQueues_close q e).2, [], [])
  | QPush event =>
      let '(r, q') := EndpointQueues_push q event in (q', if is_ok r then [event] else [], [])
  | QDrain e max =>
      let '(out, q') := EndpointQueues_drain_up_to q e max in (q', [], (λ ev, (e, ev)) <$> out)
  end.
Fixpoint queue_run (q : EndpointQueues) (ops : list queue_op) :
    EndpointQueues * list DirectEvent * list (EndpointId * DirectEvent) :=
  match ops with
  | [] => (q, [], [])
  | op :: ops =>
      let '(q1, a1, d1) := queue_step q op in
      let '(q2, a2, d2) := queue_run q1 ops in (q2, a1 ++ a2, d1 ++ d2)
  end.

(** The accepted events addressed to [e], and the events drained from [e]. *)
Definition accepted_for (e : EndpointId) (l : list DirectEvent) : list DirectEvent :=
  filter (λ ev, de_destination_endpoint ev = e) l.
Definition drained_from (e : EndpointId) (l : list (EndpointId * DirectEvent)) : list DirectEvent :=
  (filter (λ p, p.1 = e) l).*2.

(** The lease of [e] does not change hands. *)
Definition keeps_lease (e : EndpointId) (op : queue_op) : Prop :=
  match op with QOpen e' _ | QClose e' => e' ≠ e | _ => True end.
#[global] Instance keeps_lease_dec e op : Decision (keeps_lease e op).
Proof. destruct op; simpl; apply _. Defined.

Record queues_inv (q : EndpointQueues) : Prop := {
  qi_bound : ∀ e queue, eq_queues q !! e = Some queue →
    1 ≤ q_bound queue ∧ len (q_events queue) ≤ q_bound queue;
  qi_dest : ∀ e queue ev, eq_queues q !! e = Some queue → ev ∈ q_events queue →
    de_destination_endpoint ev = e
}.

Lemma drained_from_same e out : drained_from e ((λ ev, (e, ev)) <$> out) = out.
Proof.
  unfold drained_from. rw list_filter_all.
  - rw -list_fmap_compose. apply list_fmap_id.
  - by intros p (ev & -> & _)%list_elem_of_fmap.
Qed.
Lemma drained_from_other e e' out : e' ≠ e → drained_from e ((λ ev, (e', ev)) <$> out) = [].
Proof.
  intros Hne. unfold drained_from. induction out as [|x out IH]; [done|].
  simpl. by rw filter_cons_False.
Qed.
Lemma drained_from_app e l k : drained_from e (l ++ k) = drained_from e l ++ drained_from e k.
Proof. unfold drained_from. by rw filter_app fmap_app. Qed.

Lemma queue_step_inv q op : queues_inv q → queues_inv (queue_step q op).1.1.
Proof.
  intros [Hb Hd]. destruct op as [e b|e|ev|e max]; simpl.
  - split; simpl; intros e' queue; rw lookup_insert; case_decide; subst; eauto.
    + intros [= <-]. simpl. rw len_nil. lia.
    + intros ev [= <-] Hin. by apply elem_of_nil in Hin.
  - split; simpl; intros e' queue; rw lookup_delete; case_decide; subst; naive_solver.
  - unfold EndpointQueues_push.
    destruct (eq_queues q !! de_destination_endpoint ev) as [queue|] eqn:E; [|done].
    destruct (N.leb_spec (q_bound queue) (len (q_events queue))); [done|].
    split; simpl; intros e' queue'; rw lookup_insert; case_decide; subst; eauto.
    + intros [= <-]. simpl. len_simpl. destruct (Hb _ _ E). lia.
    + intros ev' [= <-] [?|Hin]%elem_of_app; [by eauto|]. apply list_elem_of_singleton in Hin. by subst.
  - unfold EndpointQueues_drain_up_to. destruct (eq_queues q !! e) as [queue|] eqn:E; [|done].
    split; simpl; intros e' queue'; rw lookup_insert; case_decide; subst; eauto.
    + intros [= <-]. simpl. len_simpl. destruct (Hb _ _ E). lia.
    + intros ev' [= <-] Hin. eapply Hd; [done|]. simpl in Hin.
      unfold ndrop in Hin. eapply elem_of_subseteq; [|exact Hin]. apply subseteq_drop.
Qed.

Lemma queue_run_inv q ops : queues_inv q → queues_inv (queue_run q ops).1.1.
Proof.
  revert q. induction ops as [|op ops IH]; intros q Hq; [done|]. simpl.
  pose proof (queue_step_inv q op Hq) as H1. destruct (queue_step q op) as [[q1 a1] d1].
  specialize (IH q1 H1). by destruct (queue_run q1 ops) as [[q2 a2] d2].
Qed.

Lemma queue_step_fifo q op e :
  keeps_lease e op →
  let '(q', acc, out) := queue_step q op in
  drained_from e out ++ waiting q' e = waiting q e ++ accepted_for e acc.
Proof.
  destruct op as [e' b|e'|ev|e' max]; simpl; intros Hk.
  - unfold waiting. simpl. by rw lookup_insert_ne // app_nil_r.
  - unfold waiting. simpl. by rw lookup_delete_ne // app_nil_r.
  - unfold EndpointQueues_push, waiting.
    destruct (eq_queues q !! de_destination_endpoint ev) as [queue|] eqn:E; simpl;
      [|by rw app_nil_r].
    destruct (N.leb_spec (q_bound queue) (len (q_events queue))); simpl; [by rw app_nil_r|].
    unfold accepted_for. rw lookup_insert. case_decide as He.
    + subst e. rw E. simpl. by rw filter_cons_True.
    + rw filter_cons_False //=. by rw app_nil_r.
  - unfold EndpointQueues_drain_up_to, waiting.
    destruct (eq_queues q !! e') as [queue|] eqn:E; simpl; [|by rw app_nil_r].
    rw lookup_insert. case_decide as He.
    + subst e'. rw drained_from_same E /= app_nil_r. apply ntake_ndrop.
    + rw drained_from_other //. by rw app_nil_r.
Qed.

(** C37: the endpoint queue is a lossless FIFO.  While an endpoint's lease
    does not change hands, what its holder has drained followed by what still
    waits is exactly what was waiting before followed by the events [push]
    accepted for it, in order, whatever happens on the other endpoints: an
    accepted event is delivered once, in order, and only to the endpoint it
    was resolved to. *)
Theorem endpoint_queue_fifo (q : EndpointQueues) (ops : list queue_op) (e : EndpointId) :
  Forall (keeps_lease e) ops →
  let '(q', acc, out) := queue_run q ops in
  drained_from e out ++ waiting q' e = waiting q e ++ accepted_for e acc.
Proof.
  revert q. induction ops as [|op ops IH]; intros q Hall; simpl; [by rw app_nil_r|].
  apply Forall_cons in Hall as [Hop Hall].
  pose proof (queue_step_fifo q op e Hop) as H1.
  destruct (queue_step q op) as [[q1 a1] d1]. specialize (IH q1 Hall).
  destruct (queue_run q1 ops) as [[q2 a2] d2].
  unfold accepted_for in *. rw drained_from_app filter_app -app_assoc IH app_assoc H1.
  by rw app_assoc.
Qed.

Definition demo_endpoint (n : N) : EndpointId := MkEndpointId [byte_of (97 + n)].
Definition demo_direct (n : N) : DirectEvent :=
  MkDirectEvent (MkTransportIdentity [x61]) (demo_endpoint 0) (demo_endpoint 1)
    (MkMessageId [byte_of n]) (MkPayload None [byte_of n]) n.

Lemma endpoint_queue_fifo_witness :
  let q := EndpointQueues_open EndpointQueues_new (demo_endpoint 1) 2 in
  let '(q', acc, out) := queue_run q
    [QPush (demo_direct 1); QPush (demo_direct 2); QPush (demo_direct 3);
     QOpen (demo_endpoint 2) 1; QDrain (demo_endpoint 1) 1; QPush (demo_direct 4)] in
  drained_from (demo_endpoint 1) out ++ waiting q' (demo_endpoint 1) =
  waiting q (demo_endpoint 1) ++ accepted_for (demo_endpoint 1) acc.
Proof.
  apply (endpoint_queue_fifo (EndpointQueues_open EndpointQueues_new (demo_endpoint 1) 2)).
  apply (bool_decide_unpack (Forall _ _)). by vm_compute.
Defined.

(** every queue a history of operations can produce holds at most its
    bound, the bound is at least one, every event it holds was resolved to
    that very endpoint; and [push] accepts an event exactly when the queue it
    is addressed to is open and below its bound, refusing it otherwise with
    nothing changed. *)
Theorem endpoint_queue_bounds (ops : list queue_op) (ev : DirectEvent) :
  let q := (queue_run EndpointQueues_new ops).1.1 in
  let e := de_destination_endpoint ev in
  (∀ e' queue, eq_queues q !! e' = Some queue →
     1 ≤ q_bound queue ∧ len (q_events queue) ≤ q_bound queue ∧
     Forall (λ ev', de_destination_endpoint ev' = e') (q_events queue)) ∧
  ((EndpointQueues_push q ev).1 = Ok () ↔
     ∃ queue, eq_queues q !! e = Some queue ∧ len (q_events queue) < q_bound queue) ∧
  ((EndpointQueues_push q ev).1 ≠ Ok () → (EndpointQueues_push q ev).2 = q).
Proof.
  intros q e. assert (queues_inv q) as [Hb Hd].
  { apply queue_run_inv. split; simpl; intros ??; by rw lookup_empty. }
  split; [|unfold EndpointQueues_push; fold e].
  - intros e' queue E. destruct (Hb _ _ E). repeat split; [done..|].
    apply Forall_forall. intros. by eapply Hd.
  - destruct (eq_queues q !! e) as [queue|] eqn:E; simpl; [|naive_solver].
    destruct (N.leb_spec (q_bound queue) (len (q_events queue))); simpl.
    + split; [|done]. split; [done|]. intros (queue' & [= <-] & ?). lia.
    + split; [|done]. split; eauto.
Qed.

(** ** Session queues: the newest events within the bound *)

Inductive session_op :=
| SOpen (s : bytes) (bound : N)
| SClose (s : bytes)
| SSetBound (bound : N)
| SPush (s : bytes) (event : BroadcastEvent)
| SDrain (s : bytes) (max : N).
#[global] Instance session_op_eq_dec : EqDecision session_op.
Proof. solve_decision. Defined.

(** One operation, and how many events of session [s] it reported dropped. *)
Definition session_step (s : bytes) (q : SessionQueues) (op : session_op) : SessionQueues * N :=
  match op with
  | SOpen s' bound => (SessionQueues_open q s' bound, 0)
  | SClose s' => ((SessionQueues_close q s').2, 0)
  | SSetBound bound => (SessionQueues_set_bound q bound, 0)
  | SPush s' ev =>
      let '(r, q') := SessionQueues_push q s' ev in
      (q', match r with
           | Ok (DroppedOldest _) => if decide (s' = s) then 1 else 0
           | _ => 0
           end)
  | SDrain s' max => ((SessionQueues_drain_up_to q s' max).2, 0)
  end.
Fixpoint session_run (s : bytes) (q : SessionQueues) (ops : list session_op) : SessionQueues * N :=
  match ops with
  | [] => (q, 0)
  | op :: ops =>
      let '(q1, d1) := session_step s q op in
      let '(q2, d2) := session_run s q1 ops in (q2, d1 + d2)
  end.

(** An operation that is not a reopening, a close, a drain or a
    reconfiguration of session [s]. *)
Definition leaves_session (s : bytes) (op : session_op) : Prop :=
  match op with
  | SOpen s' _ | SClose s' | SDrain s' _ => s' ≠ s
  | SSetBound _ => False
  | SPush _ _ => True
  end.
#[global] Instance leaves_session_dec s op : Decision (leaves_session s op).
Proof. destruct op; simpl; apply _. Defined.

Definition pushed_to (s : bytes) (ops : list session_op) : list BroadcastEvent :=
  omap (λ op, match op with
              | SPush s' ev => if decide (s' = s) then Some ev else None
              | _ => None
              end) ops.

(** The newest [n] of a list. *)
Definition newest {A} (n : N) (l : list A) : list A := ndrop (len l - n) l.

Lemma newest_all {A} n (l : list A) : len l ≤ n → newest n l = l.
Proof. intros H. unfold newest, ndrop. by replace (len l - n) with 0 by lia. Qed.
Lemma len_newest {A} n (l : list A) : len (newest n l) = N.min n (len l).
Proof. unfold newest. len_simpl. lia. Qed.
Lemma tail_drop {A} n (l : list A) : tail (drop n l) = drop (S n) l.
Proof. revert l. induction n as [|n IH]; intros [|x l]; try done. apply (IH l). Qed.
(** Dropping the oldest of a full window and appending is sliding the window. *)
Lemma newest_slide {A} n (l : list A) x :
  1 ≤ n → n ≤ len l → newest n (l ++ [x]) = tail (newest n l) ++ [x].
Proof.
  intros Hn Hl. unfold newest, ndrop. len_simpl.
  replace (N.to_nat (len l + (1 + 0) - n)) with (S (N.to_nat (len l - n))) by lia.
  unfold len in *. rw drop_app_le; [|lia]. by rw tail_drop.
Qed.

Lemma pushed_to_cons s op ops : pushed_to s (op :: ops) = pushed_to s [op] ++ pushed_to s ops.
Proof. unfold pushed_to. simpl. by case_match. Qed.

Lemma session_step_newest s q op b seen :
  1 ≤ b → sq_queues q !! s = Some (MkQueue (newest b seen) b) → leaves_session s op →
  sq_queues (session_step s q op).1 !! s =
    Some (MkQueue (newest b (seen ++ pushed_to s [op])) b) ∧
  (session_step s q op).2 + (len seen - b) = len (seen ++ pushed_to s [op]) - b.
Proof.
  intros Hb Hq Hop. unfold pushed_to.
  destruct op as [s' b'|s'|b'|s' ev|s' max]; simpl in *; rw ?app_nil_r //.
  - by rw lookup_insert_ne.
  - by rw lookup_delete_ne.
  - destruct (decide (s' = s)) as [->|Hne].
    + unfold SessionQueues_push. rw Hq. simpl. rw len_newest.
      destruct (N.leb_spec b (N.min b (len seen))); simpl; rw lookup_insert_eq; len_simpl.
      * rw newest_slide; [split; [done|lia]|lia|lia].
      * split; [|lia]. rewrite -> !newest_all by (len_simpl; lia). done.
    + rw app_nil_r. unfold SessionQueues_push.
      destruct (sq_queues q !! s') as [queue|] eqn:E; simpl; [|done].
      destruct (_ <=? _); simpl; rw lookup_insert_ne //.
  - unfold SessionQueues_drain_up_to. case_match; simpl; [by rw lookup_insert_ne|done].
Qed.

(** a slow session loses its oldest broadcasts and nothing else.  From
    the moment a session's queue is opened, whatever is pushed to it and
    whatever happens to the other sessions, it holds exactly the newest
    [max(bound, 1)] of the events pushed to it, in order, and the number of
    drops reported for it is exactly the number of events it no longer
    holds. *)
Theorem session_queue_keeps_newest (q : SessionQueues) (s : bytes) (bound : N)
    (ops : list session_op) :
  Forall (leaves_session s) ops →
  let '(q', dropped) := session_run s (SessionQueues_open q s bound) ops in
  let b := N.max bound 1 in
  sq_queues q' !! s = Some (MkQueue (newest b (pushed_to s ops)) b) ∧
  dropped = len (pushed_to s ops) - b.
Proof.
  intros Hall. set (b := N.max bound 1).
  assert (∀ seen q, sq_queues q !! s = Some (MkQueue (newest b seen) b) →
    sq_queues (session_run s q ops).1 !! s = Some (MkQueue (newest b (seen ++ pushed_to s ops)) b) ∧
    (session_run s q ops).2 + (len seen - b) = len (seen ++ pushed_to s ops) - b) as Hrun.
  { clear q. induction Hall as [|op ops Hop Hall IH]; intros seen q Hq.
    - simpl. by rw app_nil_r.
    - rw (pushed_to_cons s op ops) app_assoc. cbn [session_run]. destruct (session_step_newest s q op b seen ltac:(lia) Hq Hop) as [H1 H2].
      destruct (session_step s q op) as [q1 d1]. simpl in *.
      destruct (IH _ _ H1) as [H3 H4]. destruct (session_run s q1 ops) as [q2 d2]. simpl in *.
      split; [done|lia]. }
  specialize (Hrun [] (SessionQueues_open q s bound)).
  destruct (session_run s (SessionQueues_open q s bound) ops) as [q' d]. simpl in Hrun.
  destruct Hrun as [H1 H2]; [apply lookup_insert_eq|]. split; [done|].
  rw len_nil in H2. lia.
Qed.

Definition demo_broadcast (n : N) : BroadcastEvent :=
  MkBroadcastEvent (MkTransportIdentity [x61]) (MkChannelId [x67]) (MkMessageId [byte_of n])
    (MkPayload None [byte_of n]) n.

Lemma session_queue_keeps_newest_witness :
  let '(q', dropped) := session_run [x61] (SessionQueues_open SessionQueues_new [x61] 2)
    [SPush [x61] (demo_broadcast 1); SOpen [x62] 1; SPush [x61] (demo_broadcast 2);
     SPush [x62] (demo_broadcast 9); SPush [x61] (demo_broadcast 3)] in
  sq_queues q' !! [x61] = Some (MkQueue [demo_broadcast 2; demo_broadcast 3] 2) ∧ dropped = 1.
Proof.
  apply (session_queue_keeps_newest SessionQueues_new [x61] 2
    [SPush [x61] (demo_broadcast 1); SOpen [x62] 1; SPush [x61] (demo_broadcast 2);
     SPush [x62] (demo_broadcast 9); SPush [x61] (demo_broadcast 3)]).
  apply (bool_decide_unpack (Forall _ _)). by vm_compute.
Defined.

Lemma session_over_bound_run (s : bytes) (bound : N) (evs : list BroadcastEvent) : ∀ q queue,
  sq_queues q !! s = Some queue → q_bound queue = bound → bound < len (q_events queue) →
  let '(q', dropped) := session_run s q (SPush s <$> evs) in
  sq_queues q' !! s = Some (MkQueue (ndrop (len evs) (q_events queue ++ evs)) bound) ∧ dropped = len evs.
Proof.
  induction evs as [|ev evs IH]; intros q queue Hq Hb Hlt; simpl.
  - rw app_nil_r. destruct queue as [l b]. simpl in *. by subst b.
  - unfold SessionQueues_push. rw Hq Hb. destruct (N.leb_spec bound (len (q_events queue))); [|lia].
    simpl. rw decide_True //. destruct (q_events queue) as [|e l] eqn:El; [rw len_nil in Hlt; lia|]. rw len_cons in Hlt.
    specialize (IH (MkSessionQueues (<[s:=MkQueue (l ++ [ev]) bound]> (sq_queues q))) (MkQueue (l ++ [ev]) bound)).
    simpl in *. destruct (session_run s _ _) as [q2 d2]. destruct IH as [H1 ->];
      [apply lookup_insert_eq|done|rw len_app len_cons len_nil; lia|]. rw H1 len_cons. split; [|lia].
    rewrite <- app_assoc. unfold ndrop. by replace (N.to_nat (1 + len evs)) with (S (N.to_nat (len evs))) by lia.
Qed.
(** C38: a queue left above a lowered bound does not refuse pushes until it
    drains: every push is accepted by dropping the oldest event and taking the new
    one, so after any pushes the queue holds the newest events of all, as many as
    it held, above its bound, and each push counts one event dropped. *)
Theorem session_push_over_bound (q : SessionQueues) (s : bytes) (queue : Queue BroadcastEvent)
    (bound : N) (evs : list BroadcastEvent) :
  sq_queues q !! s = Some queue → bound < len (q_events queue) →
  let '(q', dropped) := session_run s (SessionQueues_set_bound q bound) (SPush s <$> evs) in
  sq_queues q' !! s = Some (MkQueue (ndrop (len evs) (q_events queue ++ evs)) bound) ∧
  SessionQueues_len q' s = len (q_events queue) ∧ bound < SessionQueues_len q' s ∧ dropped = len evs.
Proof.
  intros Hq Hlt.
  pose proof (session_over_bound_run s bound evs (SessionQueues_set_bound q bound) (MkQueue (q_events queue) bound)) as H.
  destruct (session_run _ _ _) as [q' dropped]. destruct H as [H1 H2]; [simpl; by rw lookup_fmap Hq|done..|].
  assert (SessionQueues_len q' s = len (q_events queue)) as Hl.
  { unfold SessionQueues_len. rw H1. simpl. rw len_ndrop len_app. lia. }
  by rw Hl.
Qed.

Lemma session_push_over_bound_witness :
  let q := (session_run [x61] (SessionQueues_open SessionQueues_new [x61] 3)
    [SPush [x61] (demo_broadcast 1); SPush [x61] (demo_broadcast 2);
     SPush [x61] (demo_broadcast 3)]).1 in
  let '(q', dropped) := session_run [x61] (SessionQueues_set_bound q 1) (SPush [x61] <$> [demo_broadcast 4; demo_broadcast 5]) in
  sq_queues q' !! [x61] = Some (MkQueue [demo_broadcast 3; demo_broadcast 4; demo_broadcast 5] 1) ∧
  SessionQueues_len q' [x61] = 3 ∧ 1 < SessionQueues_len q' [x61] ∧ dropped = 2.
Proof.
  apply (session_push_over_bound (session_run [x61] (SessionQueues_open SessionQueues_new [x61] 3)
    [SPush [x61] (demo_broadcast 1); SPush [x61] (demo_broadcast 2);
     SPush [x61] (demo_broadcast 3)]).1 [x61]
     (MkQueue [demo_broadcast 1; demo_broadcast 2; demo_broadcast 3] 3)); by vm_compute.
Defined.
