(* ===== verification/Registry.v ===== *)
(** * Endpoint registry and leases

    [crates/transport/runtime/src/endpoint_registry.rs]: the configured
    endpoints, the exclusive leases local sessions hold on them, inbound
    resolution, the advertised directory and outbound authorization; with
    [Generation] of [crates/api/local-client-api/src/lib.rs] and
    [TransportError] of [crates/api/transport-api/src/status.rs]. *)
From S2P Require Import Prelude Ids Payload DirectV2 Trust.
Local Open Scope N_scope.

(** ** Vocabulary *)

Inductive TransportError :=
| TE_InvalidArgument | TE_PayloadTooLarge | TE_ChannelNotJoined | TE_EndpointNotRegistered
| TE_EndpointUnknown | TE_EndpointInUse | TE_EndpointDisabled | TE_EndpointClientKindDenied
| TE_CapabilityDenied | TE_UnauthorizedPeer | TE_PeerUnknown | TE_PeerUnreachable
| TE_RemoteEndpointUnavailable | TE_Timeout | TE_CancelledBeforeDispatch
| TE_CancellationRaced | TE_Overloaded | TE_BackendUnavailable | TE_ProtocolUnsupported
| TE_ProtocolViolation | TE_VersionIncompatible | TE_ShuttingDown | TE_Internal.

Definition TransportError_to_wire (e : TransportError) : DirectRejectReason :=
  match e with
  | TE_EndpointUnknown | TE_EndpointDisabled | TE_EndpointClientKindDenied
  | TE_EndpointNotRegistered | TE_EndpointInUse | TE_RemoteEndpointUnavailable
  | TE_PeerUnknown | TE_CapabilityDenied => NoRoute
  | TE_UnauthorizedPeer => UnauthorizedPeer
  | TE_PayloadTooLarge => TooLarge
  | TE_Overloaded => Overloaded
  | TE_ShuttingDown => ShuttingDown
  | TE_ProtocolUnsupported | TE_VersionIncompatible => Unsupported
  | TE_InvalidArgument | TE_ProtocolViolation => Malformed
  | TE_ChannelNotJoined | TE_PeerUnreachable | TE_Timeout | TE_CancelledBeforeDispatch
  | TE_CancellationRaced | TE_BackendUnavailable | TE_Internal => Overloaded
  end.

(** A lease generation: 16 to 64 bytes of [A-Za-z0-9_-]. *)
Record Generation := MkGeneration { Generation_as_str : bytes }.
Definition Generation_MIN_BYTES : N := 16.
Definition Generation_MAX_BYTES : N := 64.
Definition Generation_parse (value : bytes) : option Generation :=
  if (Generation_MIN_BYTES <=? len value) && (len value <=? Generation_MAX_BYTES) &&
     forallb (λ b, is_ascii_alphanumeric b || byte_in (bs "_-") b) value
  then Some (MkGeneration value) else None.

Record LocalSessionId := MkLocalSessionId { LocalSessionId_0 : bytes }.

Record RegisteredEndpoint := MkRegisteredEndpoint {
  re_enabled : bool;
  re_advertise : bool;
  re_allowed_client_kinds : list bytes;
  re_inbound : EndpointTrustPolicy;
  re_outbound : EndpointTrustPolicy
}.
Definition RegisteredEndpoint_default : RegisteredEndpoint :=
  MkRegisteredEndpoint true false [] InheritProfileTrust InheritProfileTrust.

Record ActiveLease := MkActiveLease {
  al_owner : LocalSessionId;
  al_epoch : Generation;
  al_client_kind : bytes
}.

Inductive ResolveFailure :=
| RF_EndpointUnknown | RF_EndpointDisabled | RF_EndpointOffline
| RF_NoDefaultConfigured | RF_EndpointPolicyDenied.
Definition ResolveFailure_to_wire (f : ResolveFailure) : DirectRejectReason := NoRoute.

Inductive ClaimFailure :=
| CF_EndpointUnknown | CF_EndpointDisabled | CF_EndpointClientKindDenied | CF_EndpointInUse
| CF_SessionAlreadyLeased (held : EndpointId) | CF_EpochInUse (held : EndpointId).

Definition TransportError_from_claim (f : ClaimFailure) : TransportError :=
  match f with
  | CF_EndpointUnknown => TE_EndpointUnknown
  | CF_EndpointDisabled => TE_EndpointDisabled
  | CF_EndpointClientKindDenied => TE_EndpointClientKindDenied
  | CF_EndpointInUse => TE_EndpointInUse
  | CF_SessionAlreadyLeased _ | CF_EpochInUse _ => TE_InvalidArgument
  end.

#[global] Instance TransportError_eq_dec : EqDecision TransportError.
Proof. solve_decision. Defined.
#[global] Instance Generation_eq_dec : EqDecision Generation.
Proof. solve_decision. Defined.
#[global] Instance LocalSessionId_eq_dec : EqDecision LocalSessionId.
Proof. solve_decision. Defined.
#[global] Instance ActiveLease_eq_dec : EqDecision ActiveLease.
Proof. solve_decision. Defined.
#[global] Instance ResolveFailure_eq_dec : EqDecision ResolveFailure.
Proof. solve_decision. Defined.
#[global] Instance ClaimFailure_eq_dec : EqDecision ClaimFailure.
Proof. solve_decision. Defined.

(** ** The registry *)

Record EndpointRegistry := MkEndpointRegistry {
  er_endpoints : gmap EndpointId RegisteredEndpoint;
  er_leases : gmap EndpointId ActiveLease;
  er_default_direct_endpoint : option EndpointId
}.

Definition EndpointRegistry_new (endpoints : gmap EndpointId RegisteredEndpoint)
    (default_direct_endpoint : option EndpointId) : EndpointRegistry :=
  MkEndpointRegistry endpoints ∅ default_direct_endpoint.

(** [leases.iter().find(..)]: the first held lease, in key order, that
    satisfies the predicate. *)
Definition find_lease (p : ActiveLease → bool) (leases : gmap EndpointId ActiveLease) :
    option EndpointId :=
  fst <$> head (filter (λ kl, p kl.2 = true) (btree_to_list leases)).

Definition EndpointRegistry_claim (r : EndpointRegistry) (endpoint : EndpointId)
    (session : LocalSessionId) (client_kind : bytes) (epoch : Generation) :
    result ActiveLease ClaimFailure * EndpointRegistry :=
  match er_endpoints r !! endpoint with
  | None => (Err CF_EndpointUnknown, r)
  | Some configured =>
      if negb (re_enabled configured) then (Err CF_EndpointDisabled, r)
      else if negb (bool_decide (re_allowed_client_kinds configured = [])) &&
              negb (existsb (λ k, bool_decide (k = client_kind)) (re_allowed_client_kinds configured))
      then (Err CF_EndpointClientKindDenied, r)
      else if bool_decide (is_Some (er_leases r !! endpoint)) then (Err CF_EndpointInUse, r)
      else
        match find_lease (λ l, bool_decide (al_owner l = session)) (er_leases r) with
        | Some held => (Err (CF_SessionAlreadyLeased held), r)
        | None =>
            match find_lease (λ l, bool_decide (al_epoch l = epoch)) (er_leases r) with
            | Some held => (Err (CF_EpochInUse held), r)
            | None =>
                let lease := MkActiveLease session epoch client_kind in
                (Ok lease,
                 MkEndpointRegistry (er_endpoints r) (<[endpoint := lease]> (er_leases r))
                   (er_default_direct_endpoint r))
            end
        end
  end.

Definition EndpointRegistry_release_session (r : EndpointRegistry) (session : LocalSessionId) :
    list EndpointId * EndpointRegistry :=
  let released :=
    (filter (λ el, al_owner el.2 = session) (btree_to_list (er_leases r))).*1 in
  (released,
   MkEndpointRegistry (er_endpoints r) (foldl (λ m e, delete e m) (er_leases r) released)
     (er_default_direct_endpoint r)).

Definition EndpointRegistry_revoke (r : EndpointRegistry) (endpoint : EndpointId) :
    option Generation * EndpointRegistry :=
  (al_epoch <$> er_leases r !! endpoint,
   MkEndpointRegistry (er_endpoints r) (delete endpoint (er_leases r))
     (er_default_direct_endpoint r)).

Definition EndpointRegistry_set_enabled (r : EndpointRegistry) (endpoint : EndpointId)
    (enabled : bool) : option Generation * EndpointRegistry :=
  match er_endpoints r !! endpoint with
  | None => (None, r)
  | Some e =>
      let e := MkRegisteredEndpoint enabled (re_advertise e) (re_allowed_client_kinds e)
                 (re_inbound e) (re_outbound e) in
      let r := MkEndpointRegistry (<[endpoint := e]> (er_endpoints r)) (er_leases r)
                 (er_default_direct_endpoint r) in
      if enabled then (None, r) else EndpointRegistry_revoke r endpoint
  end.

Definition EndpointRegistry_set_default (r : EndpointRegistry) (endpoint : option EndpointId) :
    EndpointRegistry :=
  MkEndpointRegistry (er_endpoints r) (er_leases r) endpoint.

Definition EndpointRegistry_holds_lease (r : EndpointRegistry) (endpoint : EndpointId)
    (epoch : Generation) : bool :=
  match er_leases r !! endpoint with
  | Some l => bool_decide (al_epoch l = epoch)
  | None => false
  end.

Definition EndpointRegistry_resolve_inbound (r : EndpointRegistry) (requested : option EndpointId)
    (source_peer_allowed : EndpointTrustPolicy → bool) :
    result (EndpointId * ActiveLease) ResolveFailure :=
  target <-? (match requested with
              | Some e => Ok e
              | None => match er_default_direct_endpoint r with
                        | Some e => Ok e
                        | None => Err RF_NoDefaultConfigured
                        end
              end);
  match er_endpoints r !! target with
  | None => Err RF_EndpointUnknown
  | Some configured =>
      guard? re_enabled configured else RF_EndpointDisabled;
      guard? source_peer_allowed (re_inbound configured) else RF_EndpointPolicyDenied;
      match er_leases r !! target with
      | None => Err RF_EndpointOffline
      | Some lease => Ok (target, lease)
      end
  end.

Definition MAX_DIRECTORY_ENTRIES : N := 32.

Definition EndpointRegistry_advertised_for (r : EndpointRegistry) (peer : TransportIdentity)
    (profile : PeerTrustPolicy) (cap : N) : list EndpointId :=
  let l := btree_to_list (er_endpoints r) in
  let l := filter (λ ec, re_enabled ec.2 && re_advertise ec.2 = true) l in
  let l := filter (λ ec, is_Some (er_leases r !! ec.1)) l in
  let l := filter (λ ec, TrustDecision_is_allowed
             (PeerTrustPolicy_decide_for_endpoint profile peer (re_inbound ec.2)) = true) l in
  ntake (N.min cap MAX_DIRECTORY_ENTRIES) l.*1.

Definition EndpointRegistry_authorize_outbound (r : EndpointRegistry) (from : EndpointId)
    (peer : TransportIdentity) (profile : PeerTrustPolicy) : TrustDecision :=
  match er_endpoints r !! from with
  | None => PeerTrustPolicy_decide_for_endpoint profile peer (StaticSubset ∅)
  | Some configured => PeerTrustPolicy_decide_for_endpoint profile peer (re_outbound configured)
  end.

(** ** Leases *)

Definition kind_allowed (c : RegisteredEndpoint) (kind : bytes) : Prop :=
  re_allowed_client_kinds c = [] ∨ kind ∈ re_allowed_client_kinds c.

Record lease_inv (r : EndpointRegistry) : Prop := {
  li_configured : ∀ e l, er_leases r !! e = Some l →
    ∃ c, er_endpoints r !! e = Some c ∧ re_enabled c = true ∧ kind_allowed c (al_client_kind l);
  li_owner : ∀ e1 e2 l1 l2, er_leases r !! e1 = Some l1 → er_leases r !! e2 = Some l2 →
    al_owner l1 = al_owner l2 → e1 = e2;
  li_epoch : ∀ e1 e2 l1 l2, er_leases r !! e1 = Some l1 → er_leases r !! e2 = Some l2 →
    al_epoch l1 = al_epoch l2 → e1 = e2
}.

Lemma find_lease_None p leases :
  find_lease p leases = None ↔ ∀ e l, leases !! e = Some l → p l = false.
Proof.
  unfold find_lease. split.
  - intros H e l Hl%elem_of_btree_to_list. destruct (p l) eqn:Ep; [|done].
    assert ((e, l) ∈ filter (λ kl, p kl.2 = true) (btree_to_list leases)) as Hin
      by by apply list_elem_of_filter.
    destruct (filter _ _); [by apply elem_of_nil in Hin|done].
  - intros H. destruct (filter _ _) as [|[e l] rest] eqn:Ef; [done|].
    assert ((e, l) ∈ filter (λ kl, p kl.2 = true) (btree_to_list leases)) as Hin
      by (rw Ef; by left).
    apply list_elem_of_filter in Hin as [Hp Hin%elem_of_btree_to_list]. simpl in Hp.
    by rw (H _ _ Hin) in Hp.
Qed.

Lemma existsb_kind k ks : existsb (λ k', bool_decide (k' = k)) ks = true ↔ k ∈ (ks : list bytes).
Proof.
  rw List.existsb_exists. setoid_rewrite bool_decide_eq_true.
  setoid_rewrite <-list_elem_of_In. naive_solver.
Qed.

Lemma kind_check c k :
  negb (bool_decide (re_allowed_client_kinds c = [])) &&
    negb (existsb (λ k', bool_decide (k' = k)) (re_allowed_client_kinds c)) = false ↔
  kind_allowed c k.
Proof.
  unfold kind_allowed. rw -existsb_kind. case_bool_decide; simpl; [tauto|].
  destruct (existsb _ _); simpl; split; try done; [by right|]. by intros [].
Qed.

(** The conditions under which a claim is granted, and what it then does. *)
Lemma claim_ok_iff r e s k g l r' :
  EndpointRegistry_claim r e s k g = (Ok l, r') ↔
  (∃ c, er_endpoints r !! e = Some c ∧ re_enabled c = true ∧ kind_allowed c k) ∧
  er_leases r !! e = None ∧
  (∀ e' l', er_leases r !! e' = Some l' → al_owner l' ≠ s ∧ al_epoch l' ≠ g) ∧
  l = MkActiveLease s g k ∧
  r' = MkEndpointRegistry (er_endpoints r) (<[e := l]> (er_leases r)) (er_default_direct_endpoint r).
Proof.
  unfold EndpointRegistry_claim. split.
  - destruct (er_endpoints r !! e) as [c|]; [|done].
    destruct (re_enabled c) eqn:En; simpl; [|done].
    destruct (_ && _) eqn:Ek; [done|]. apply kind_check in Ek.
    case_bool_decide as Hl; [done|]. apply eq_None_not_Some in Hl.
    destruct (find_lease _ _) eqn:E1; [done|]. rewrite -> find_lease_None in E1.
    destruct (find_lease (λ l0, bool_decide (al_epoch l0 = g)) _) eqn:E2; [done|].
    rewrite -> find_lease_None in E2. intros [= <- <-].
    split; [by eauto|]. split; [done|]. split; [|done]. intros e' l' Hl'.
    split; eapply bool_decide_eq_false_1; by eauto.
  - intros ((c & -> & -> & Hk) & Hl & Hd & -> & ->). simpl.
    apply kind_check in Hk. rw Hk Hl bool_decide_eq_false_2; [|by intros [??]].
    assert (find_lease (λ l0, bool_decide (al_owner l0 = s)) (er_leases r) = None) as ->.
    { apply find_lease_None. intros e' l' Hl'. apply bool_decide_eq_false_2. by apply (Hd e' l'). }
    assert (find_lease (λ l0, bool_decide (al_epoch l0 = g)) (er_leases r) = None) as ->; [|done].
    apply find_lease_None. intros e' l' Hl'. apply bool_decide_eq_false_2. by apply (Hd e' l').
Qed.

(** A refused claim changes nothing. *)
Lemma claim_err r e s k g f r' : EndpointRegistry_claim r e s k g = (Err f, r') → r' = r.
Proof. unfold EndpointRegistry_claim. repeat case_match; by intros [=]. Qed.

Lemma foldl_delete_lookup {V} (es : list EndpointId) (m : gmap EndpointId V) e :
  foldl (λ m e, delete e m) m es !! e = if decide (e ∈ es) then None else m !! e.
Proof.
  revert m. induction es as [|x es IH]; intros m; [done|]. simpl. rw IH lookup_delete.
  do 2 case_decide; try case_decide; subst; set_solver.
Qed.

(** Releasing a session deletes exactly its leases. *)
Lemma release_lookup r s e :
  er_leases (EndpointRegistry_release_session r s).2 !! e =
  match er_leases r !! e with
  | Some l => if decide (al_owner l = s) then None else Some l
  | None => None
  end.
Proof.
  simpl. rw foldl_delete_lookup. case_decide as Hin.
  - apply list_elem_of_fmap in Hin as ([e' l] & -> & Hin).
    apply list_elem_of_filter in Hin as [Ho Hin%elem_of_btree_to_list]. simpl in *.
    rw Hin. by rw decide_True.
  - destruct (er_leases r !! e) as [l|] eqn:E; [|done]. case_decide as Ho; [|done].
    destruct Hin. apply list_elem_of_fmap. exists (e, l). split; [done|].
    apply list_elem_of_filter. split; [done|]. by apply elem_of_btree_to_list.
Qed.

Inductive reg_op :=
| RegClaim (e : EndpointId) (s : LocalSessionId) (kind : bytes) (epoch : Generation)
| RegRelease (s : LocalSessionId)
| RegRevoke (e : EndpointId)
| RegSetEnabled (e : EndpointId) (enabled : bool)
| RegSetDefault (e : option EndpointId).
#[global] Instance reg_op_eq_dec : EqDecision reg_op.
Proof. solve_decision. Defined.

Definition reg_step (r : EndpointRegistry) (op : reg_op) : EndpointRegistry :=
  match op with
  | RegClaim e s kind epoch => (EndpointRegistry_claim r e s kind epoch).2
  | RegRelease s => (EndpointRegistry_release_session r s).2
  | RegRevoke e => (EndpointRegistry_revoke r e).2
  | RegSetEnabled e enabled => (EndpointRegistry_set_enabled r e enabled).2
  | RegSetDefault e => EndpointRegistry_set_default r e
  end.
Definition reg_run (r : EndpointRegistry) (ops : list reg_op) : EndpointRegistry :=
  foldl reg_step r ops.

(** Removing leases keeps the invariant. *)
Lemma lease_inv_sub r r' :
  lease_inv r → er_endpoints r' = er_endpoints r → er_leases r' ⊆ er_leases r → lease_inv r'.
Proof.
  intros [Hc Ho He] Heq Hsub. split.
  - intros e l Hl. rw Heq. eapply Hc, lookup_weaken; eauto.
  - intros; eapply Ho; eauto using lookup_weaken.
  - intros; eapply He; eauto using lookup_weaken.
Qed.

Lemma lease_inv_claim r e s k g l r' :
  lease_inv r → EndpointRegistry_claim r e s k g = (Ok l, r') → lease_inv r'.
Proof.
  intros [Hc Ho He] (Hcfg & Hl & Hd & -> & ->)%claim_ok_iff. split; simpl.
  - intros e' l'. rw lookup_insert. case_decide; [subst|by apply Hc]. by intros [= <-].
  - intros e1 e2 l1 l2. rw !lookup_insert. do 2 case_decide; subst; try done.
    + intros [= <-] H2 Heq. by destruct (Hd _ _ H2) as [[] _].
    + intros H1 [= <-] Heq. by destruct (Hd _ _ H1) as [[] _].
    + apply Ho.
  - intros e1 e2 l1 l2. rw !lookup_insert. do 2 case_decide; subst; try done.
    + intros [= <-] H2 Heq. by destruct (Hd _ _ H2) as [_ []].
    + intros H1 [= <-] Heq. by destruct (Hd _ _ H1) as [_ []].
    + apply He.
Qed.

Lemma lease_inv_set_enabled r e b :
  lease_inv r → lease_inv (EndpointRegistry_set_enabled r e b).2.
Proof.
  intros [Hc Ho He]. unfold EndpointRegistry_set_enabled.
  destruct (er_endpoints r !! e) as [c|] eqn:Ee; [|done]. destruct b; simpl.
  - split; simpl; [|done..]. intros e' l' Hl'. rw lookup_insert. case_decide as Hd.
    + subst e'. eexists. split; [done|]. split; [done|]. destruct (Hc _ _ Hl') as (c' & ? & _ & ?).
      by simplify_eq.
    + by apply Hc.
  - split; simpl; intros *; rw !lookup_delete; repeat case_decide; try done.
    + intros Hl'. rw lookup_insert_ne //. by apply Hc.
    + apply Ho.
    + apply He.
Qed.

Lemma reg_step_inv r op : lease_inv r → lease_inv (reg_step r op).
Proof.
  intros Hr. destruct op as [e s k g|s|e|e b|e]; simpl.
  - destruct (EndpointRegistry_claim r e s k g) as [[l|f] r'] eqn:E.
    + by eapply lease_inv_claim.
    + by apply claim_err in E as ->.
  - apply (lease_inv_sub r); [done..|]. apply map_subseteq_spec. intros e l.
    change (foldl _ _ _) with (er_leases (EndpointRegistry_release_session r s).2).
    rw release_lookup. by repeat case_match.
  - apply (lease_inv_sub r); [done..|]. apply delete_subseteq.
  - by apply lease_inv_set_enabled.
  - by apply (lease_inv_sub r).
Qed.

Lemma reg_run_inv r ops : lease_inv r → lease_inv (reg_run r ops).
Proof.
  revert r. induction ops as [|op ops IH]; intros r Hr; [done|]. by apply IH, reg_step_inv.
Qed.
Lemma new_lease_inv eps d : lease_inv (EndpointRegistry_new eps d).
Proof. split; simpl; intros *; by rw ?lookup_empty. Qed.

(** The operations that end the lease [l] on [e]. *)
Definition ends_lease (e : EndpointId) (l : ActiveLease) (op : reg_op) : Prop :=
  match op with
  | RegRelease s => s = al_owner l
  | RegRevoke e' => e' = e
  | RegSetEnabled e' b => e' = e ∧ b = false
  | _ => False
  end.
#[global] Instance ends_lease_dec e l op : Decision (ends_lease e l op).
Proof. destruct op; simpl; apply _. Defined.

Lemma step_keeps_lease r e l op :
  er_leases r !! e = Some l → ¬ ends_lease e l op → er_leases (reg_step r op) !! e = Some l.
Proof.
  intros Hl Hop. destruct op as [e' s k g|s|e'|e' b|e']; cbn [reg_step ends_lease] in *.
  - destruct (EndpointRegistry_claim r e' s k g) as [[l'|f] r'] eqn:E; simpl.
    + apply claim_ok_iff in E as (_ & Hn & _ & -> & ->). simpl. rw lookup_insert_ne //. congruence.
    + by apply claim_err in E as ->.
  - rw release_lookup Hl decide_False //.
  - simpl. by rw lookup_delete_ne.
  - unfold EndpointRegistry_set_enabled. case_match; [|done]. destruct b; simpl; [done|].
    rw lookup_delete_ne; [done|]. intros ->. by apply Hop.
  - done.
Qed.
Lemma run_keeps_lease r e l ops :
  er_leases r !! e = Some l → Forall (λ op, ¬ ends_lease e l op) ops →
  er_leases (reg_run r ops) !! e = Some l.
Proof.
  intros Hl Hall. revert r Hl. induction Hall as [|op ops Hop _ IH]; intros r Hl; [done|].
  by apply IH, step_keeps_lease.
Qed.

(** C10: over every history of claims, releases, revocations, enablements and
    default changes, each lease is held on a configured, enabled endpoint by
    a client kind that endpoint allows, one session holds at most one lease,
    and no two leases share an epoch, so an epoch identifies one lease. *)
Theorem registry_lease_invariant (eps : gmap EndpointId RegisteredEndpoint)
    (d : option EndpointId) (ops : list reg_op) :
  let r := reg_run (EndpointRegistry_new eps d) ops in
  (∀ e l, er_leases r !! e = Some l →
     ∃ c, er_endpoints r !! e = Some c ∧ re_enabled c = true ∧
          (re_allowed_client_kinds c = [] ∨ al_client_kind l ∈ re_allowed_client_kinds c)) ∧
  (∀ e1 e2 l1 l2, er_leases r !! e1 = Some l1 → er_leases r !! e2 = Some l2 →
     al_owner l1 = al_owner l2 ∨ al_epoch l1 = al_epoch l2 → e1 = e2) ∧
  (∀ e1 e2 g, EndpointRegistry_holds_lease r e1 g = true →
     EndpointRegistry_holds_lease r e2 g = true → e1 = e2).
Proof.
  intros r. destruct (reg_run_inv _ ops (new_lease_inv eps d)) as [Hc Ho He]. fold r in Hc, Ho, He.
  split; [exact Hc|]. split.
  - intros e1 e2 l1 l2 H1 H2 [H|H]; eauto.
  - intros e1 e2 g. unfold EndpointRegistry_holds_lease.
    destruct (er_leases r !! e1) as [l1|] eqn:E1; [|done].
    destruct (er_leases r !! e2) as [l2|] eqn:E2; [|done].
    intros H1%bool_decide_eq_true H2%bool_decide_eq_true. eapply He; eauto. congruence.
Qed.

(** C11: a lease is never displaced.  Once granted, a lease stays exactly as
    it was until its own session is released, its endpoint is revoked or its
    endpoint is disabled; until then every claim of the endpoint, and every
    claim by the same session, is refused. *)
Theorem lease_exclusive (r r1 : EndpointRegistry) (e : EndpointId) (s : LocalSessionId)
    (kind : bytes) (g : Generation) (l : ActiveLease) (ops : list reg_op) :
  EndpointRegistry_claim r e s kind g = (Ok l, r1) →
  Forall (λ op, ¬ ends_lease e l op) ops →
  let r2 := reg_run r1 ops in
  EndpointRegistry_holds_lease r2 e g = true ∧
  ∀ e' s' kind' g', e' = e ∨ s' = s ∨ g' = g →
    is_ok (EndpointRegistry_claim r2 e' s' kind' g').1 = false.
Proof.
  intros Hc Hall r2. apply claim_ok_iff in Hc as (_ & _ & _ & -> & ->).
  set (l := MkActiveLease s g kind) in *.
  assert (er_leases r2 !! e = Some l) as Hl.
  { apply run_keeps_lease; [|done]. apply lookup_insert_eq. }
  split; [unfold EndpointRegistry_holds_lease; rw Hl; by apply bool_decide_eq_true_2|].
  intros e' s' kind' g' Hor.
  destruct (EndpointRegistry_claim r2 e' s' kind' g') as [[l'|f] r'] eqn:E; [|done].
  apply claim_ok_iff in E as (_ & Hn & Hd & _). destruct (Hd _ _ Hl) as [H1 H2]. simpl in *.
  destruct Hor as [-> | [-> | ->]]; congruence.
Qed.

Definition demo_registry : EndpointRegistry :=
  EndpointRegistry_new
    (list_to_map [(MkEndpointId (bs "claude"),
                   MkRegisteredEndpoint true true [] InheritProfileTrust InheritProfileTrust);
                  (MkEndpointId (bs "human"), RegisteredEndpoint_default)])
    (Some (MkEndpointId (bs "human"))).
Definition demo_session (n : N) : LocalSessionId := MkLocalSessionId [byte_of n].
Definition demo_epoch (n : N) : Generation := MkGeneration (replicate 16 (byte_of (65 + n))).

Lemma lease_exclusive_witness :
  let c := EndpointRegistry_claim demo_registry (MkEndpointId (bs "human")) (demo_session 1)
             (bs "k") (demo_epoch 1) in
  EndpointRegistry_holds_lease
    (reg_run c.2 [RegClaim (MkEndpointId (bs "human")) (demo_session 2) (bs "k") (demo_epoch 2);
                  RegRevoke (MkEndpointId (bs "claude"))])
    (MkEndpointId (bs "human")) (demo_epoch 1) = true.
Proof.
  refine (proj1 (lease_exclusive demo_registry _ (MkEndpointId (bs "human")) (demo_session 1)
    (bs "k") (demo_epoch 1) (MkActiveLease (demo_session 1) (demo_epoch 1) (bs "k")) _ _ _)).
  - by vm_compute.
  - apply (bool_decide_unpack (Forall _ _)). by vm_compute.
Defined.

(** ** Resolution and the advertised directory *)

Lemma resolve_ok_iff r req ok e l :
  EndpointRegistry_resolve_inbound r req ok = Ok (e, l) ↔
  (req = Some e ∨ req = None ∧ er_default_direct_endpoint r = Some e) ∧
  er_leases r !! e = Some l ∧
  ∃ c, er_endpoints r !! e = Some c ∧ re_enabled c = true ∧ ok (re_inbound c) = true.
Proof.
  unfold EndpointRegistry_resolve_inbound. split.
  - intros H. apply result_bind_Ok in H as (t & Ht & H).
    destruct (er_endpoints r !! t) as [c|] eqn:Ec; [|done].
    destruct (re_enabled c) eqn:En; [|done]. destruct (ok _) eqn:Ek; [|done].
    destruct (er_leases r !! t) as [l'|] eqn:El; [|done]. injection H as -> ->.
    split; [|by eauto]. destruct req; [left; congruence|right]. by case_match; simplify_eq.
  - intros ([->|[-> ->]] & Hl & c & Hc & Hen & Hok); simpl; by rw Hc Hen Hok Hl.
Qed.

(** The endpoints that may be advertised to [peer]. *)
Definition advertisable (r : EndpointRegistry) (peer : TransportIdentity)
    (profile : PeerTrustPolicy) (e : EndpointId) : Prop :=
  ∃ c, er_endpoints r !! e = Some c ∧ re_enabled c = true ∧ re_advertise c = true ∧
       is_Some (er_leases r !! e) ∧
       TrustDecision_is_allowed
         (PeerTrustPolicy_decide_for_endpoint profile peer (re_inbound c)) = true.

(** The selection [advertised_for] takes a prefix of. *)
Lemma advertised_bounded r peer profile cap :
  StronglySorted key_lt (EndpointRegistry_advertised_for r peer profile cap) ∧
  len (EndpointRegistry_advertised_for r peer profile cap) ≤ N.min cap 32.
Proof.
  unfold EndpointRegistry_advertised_for. split.
  - eapply StronglySorted_sublist; [|apply sublist_take].
    apply btree_sublist_keys with (er_endpoints r).
    etrans; [apply sublist_filter|]. etrans; apply sublist_filter.
  - unfold ntake, len. rw length_take. unfold MAX_DIRECTORY_ENTRIES. lia.
Qed.

(** the directory answered to a peer lists endpoints in strictly
    ascending order, at most [cap] and never more than 32; each listed
    endpoint is configured for advertisement and a message that same peer
    addresses to it resolves to it; and when the answer is shorter than the
    limit it lists every such endpoint. *)
Theorem advertised_directory_sound (r : EndpointRegistry) (peer : TransportIdentity)
    (profile : PeerTrustPolicy) (cap : N) :
  let out := EndpointRegistry_advertised_for r peer profile cap in
  let ok pol := TrustDecision_is_allowed (PeerTrustPolicy_decide_for_endpoint profile peer pol) in
  StronglySorted key_lt out ∧
  len out ≤ N.min cap 32 ∧
  (∀ e, e ∈ out → advertisable r peer profile e ∧
     ∃ l, EndpointRegistry_resolve_inbound r (Some e) ok = Ok (e, l)) ∧
  (len out < N.min cap 32 → ∀ e, advertisable r peer profile e → e ∈ out).
Proof.
  intros out ok. destruct (advertised_bounded r peer profile cap) as [Hsort Hlen].
  split; [done|]. split; [done|]. clear Hsort Hlen.
  unfold out, EndpointRegistry_advertised_for. set (l := filter _ (filter _ (filter _ _))).
  assert (∀ e, e ∈ l.*1 ↔ advertisable r peer profile e) as Hl.
  { intros e. rw list_elem_of_fmap. unfold l, advertisable. split.
    - intros ([e' c] & -> & H). rewrite -> !list_elem_of_filter in H. simpl in H.
      destruct H as (? & ? & [??]%andb_prop & Hm%elem_of_btree_to_list). eauto 10.
    - intros (c & Hc & He & Ha & Hs & Ht). exists (e, c). split; [done|].
      rewrite !list_elem_of_filter. simpl. rw He Ha elem_of_btree_to_list. done. }
  split.
  - intros e Hin. assert (advertisable r peer profile e) as Hadv.
    { apply Hl. eapply sublist_elem_of; [exact Hin|apply sublist_take]. }
    split; [done|]. destruct Hadv as (c & Hc & He & _ & [lease Hlease] & Ht). exists lease.
    apply resolve_ok_iff. split; [by left|]. eauto.
  - intros Hlt e Hadv%Hl. revert Hlt. unfold ntake, len. rw length_take => Hlt.
    unfold MAX_DIRECTORY_ENTRIES. rw take_ge; [done|].
    unfold MAX_DIRECTORY_ENTRIES in Hlt. lia.
Qed.
