(* ===== verification/Ingress.v ===== *)
(** * Ingress rate limits and channel subscriptions

    [crates/transport/runtime/src/ingress.rs]: the token bucket, the
    per-peer and global limiter built from it, and the registry of local
    channel joins. *)
From S2P Require Import Prelude Ids.
Local Open Scope N_scope.

(** ** Token buckets *)

Definition DEFAULT_PER_PEER_PER_MINUTE : N := 120.
Definition DEFAULT_PER_PEER_BURST : N := 32.
Definition DEFAULT_GLOBAL_PER_MINUTE : N := 1200.
Definition DEFAULT_GLOBAL_BURST : N := 256.
Definition MS_PER_MINUTE : N := 60000.

Record Bucket := MkBucket {
  b_tokens : N;
  b_burst : N;
  b_per_minute : N;
  b_last_refill_ms : N
}.

Definition Bucket_new (per_minute burst now_ms : N) : Bucket :=
  MkBucket burst burst per_minute now_ms.

Definition Bucket_refill (b : Bucket) (now_ms : N) : Bucket :=
  if b_per_minute b =? 0 then b
  else
    let elapsed := sat_sub now_ms (b_last_refill_ms b) in
    if elapsed =? 0 then b
    else
      let gained := N.min (sat_mul u64_max elapsed (b_per_minute b) / MS_PER_MINUTE) u32_max in
      if gained =? 0 then b
      else
        let tokens :=
          N.min (sat_add u32_max (b_tokens b) (try_from_or_max u32_max gained)) (b_burst b) in
        let consumed_ms := sat_mul u64_max gained MS_PER_MINUTE / b_per_minute b in
        MkBucket tokens (b_burst b) (b_per_minute b)
          (sat_add u64_max (b_last_refill_ms b) consumed_ms).

Definition Bucket_try_consume (b : Bucket) (now_ms : N) : bool * Bucket :=
  let b := Bucket_refill b now_ms in
  if b_tokens b =? 0 then (false, b)
  else (true, MkBucket (b_tokens b - 1) (b_burst b) (b_per_minute b) (b_last_refill_ms b)).

(** ** The limiter *)

Inductive IngressDenial := PerPeerExhausted | GlobalExhausted.

Record IngressLimiter := MkIngressLimiter {
  il_per_peer : gmap TransportIdentity Bucket;
  il_global : option Bucket;
  il_per_peer_per_minute : N;
  il_per_peer_burst : N;
  il_last_prune_ms : N
}.

Definition PRUNE_INTERVAL_MS : N := 60000.

Definition IngressLimiter_new (per_peer_per_minute per_peer_burst global_per_minute global_burst
    now_ms : N) : IngressLimiter :=
  MkIngressLimiter ∅ (Some (Bucket_new global_per_minute global_burst now_ms))
    per_peer_per_minute per_peer_burst now_ms.
Definition IngressLimiter_with_defaults (now_ms : N) : IngressLimiter :=
  IngressLimiter_new DEFAULT_PER_PEER_PER_MINUTE DEFAULT_PER_PEER_BURST
    DEFAULT_GLOBAL_PER_MINUTE DEFAULT_GLOBAL_BURST now_ms.
Definition IngressLimiter_per_peer_only (per_minute burst now_ms : N) : IngressLimiter :=
  MkIngressLimiter ∅ None per_minute burst now_ms.

(** [retain]: every bucket is refilled, the full ones are dropped. *)
Definition prune_bucket (now_ms : N) (b : Bucket) : option Bucket :=
  let b := Bucket_refill b now_ms in
  if b_tokens b <? b_burst b then Some b else None.
Definition IngressLimiter_prune_idle (l : IngressLimiter) (now_ms : N) : IngressLimiter :=
  MkIngressLimiter (omap (prune_bucket now_ms) (il_per_peer l)) (il_global l)
    (il_per_peer_per_minute l) (il_per_peer_burst l) (il_last_prune_ms l).

Definition IngressLimiter_sweep (l : IngressLimiter) (now_ms : N) : IngressLimiter :=
  if PRUNE_INTERVAL_MS <=? sat_sub now_ms (il_last_prune_ms l) then
    let l := IngressLimiter_prune_idle l now_ms in
    MkIngressLimiter (il_per_peer l) (il_global l) (il_per_peer_per_minute l)
      (il_per_peer_burst l) now_ms
  else l.

Definition IngressLimiter_admit (l : IngressLimiter) (peer : TransportIdentity) (now_ms : N) :
    result unit IngressDenial * IngressLimiter :=
  let l := IngressLimiter_sweep l now_ms in
  let bucket :=
    default (Bucket_new (il_per_peer_per_minute l) (il_per_peer_burst l) now_ms)
      (il_per_peer l !! peer) in
  let '(ok, bucket) := Bucket_try_consume bucket now_ms in
  let with_global g :=
    MkIngressLimiter (<[peer := bucket]> (il_per_peer l)) g (il_per_peer_per_minute l)
      (il_per_peer_burst l) (il_last_prune_ms l) in
  if negb ok then (Err PerPeerExhausted, with_global (il_global l))
  else
    match il_global l with
    | None => (Ok (), with_global None)
    | Some global =>
        let '(ok, global) := Bucket_try_consume global now_ms in
        if negb ok then (Err GlobalExhausted, with_global (Some global))
        else (Ok (), with_global (Some global))
    end.

Definition IngressLimiter_tracked_peers (l : IngressLimiter) : N :=
  N.of_nat (size (il_per_peer l)).

(** ** Subscriptions *)

Definition MAX_SUBSCRIPTIONS : N := 1024.
Definition MAX_SESSIONS_PER_CHANNEL : N := 64.

Inductive SubscriptionDenial := TooManySubscriptions | TooManySessions | CeilingOutOfRange.

Record SubscriptionRegistry := MkSubscriptionRegistry {
  sr_joins : gmap ChannelId (gset bytes);
  sr_desired : gset ChannelId;
  sr_ceiling : N
}.

Definition SubscriptionRegistry_default : SubscriptionRegistry :=
  MkSubscriptionRegistry ∅ ∅ MAX_SUBSCRIPTIONS.

(** [joins.keys().filter(|c| !desired.contains(c)).count()] *)
Definition joined_elsewhere (joins : gmap ChannelId (gset bytes)) (desired : gset ChannelId) : N :=
  N.of_nat (size (filter (λ c, c ∉ desired) (dom joins))).

Definition SubscriptionRegistry_set_desired (r : SubscriptionRegistry) (desired : gset ChannelId) :
    result unit SubscriptionDenial * SubscriptionRegistry :=
  if sr_ceiling r <? sat_add usize_max (joined_elsewhere (sr_joins r) desired)
                       (N.of_nat (size desired))
  then (Err TooManySubscriptions, r)
  else (Ok (), MkSubscriptionRegistry (sr_joins r) desired (sr_ceiling r)).

Definition SubscriptionRegistry_configure (r : SubscriptionRegistry) (desired : gset ChannelId)
    (ceiling : N) : result unit SubscriptionDenial * SubscriptionRegistry :=
  if negb ((1 <=? ceiling) && (ceiling <=? MAX_SUBSCRIPTIONS)) then (Err CeilingOutOfRange, r)
  else
    let previous := sr_ceiling r in
    let r := MkSubscriptionRegistry (sr_joins r) (sr_desired r) ceiling in
    let '(res, r) := SubscriptionRegistry_set_desired r desired in
    (res, if is_ok res then r
          else MkSubscriptionRegistry (sr_joins r) (sr_desired r) previous).

Definition SubscriptionRegistry_subscriptions (r : SubscriptionRegistry) : N :=
  joined_elsewhere (sr_joins r) (sr_desired r) + N.of_nat (size (sr_desired r)).

Definition SubscriptionRegistry_join (r : SubscriptionRegistry) (channel : ChannelId)
    (session : bytes) : result unit SubscriptionDenial * SubscriptionRegistry :=
  let insert :=
    (Ok (),
     MkSubscriptionRegistry
       (<[channel := {[session]} ∪ default ∅ (sr_joins r !! channel)]> (sr_joins r))
       (sr_desired r) (sr_ceiling r)) in
  match sr_joins r !! channel with
  | Some sessions =>
      if bool_decide (session ∈ sessions) then (Ok (), r)
      else if MAX_SESSIONS_PER_CHANNEL <=? N.of_nat (size sessions) then (Err TooManySessions, r)
      else insert
  | None =>
      let held := SubscriptionRegistry_subscriptions r in
      if negb (bool_decide (channel ∈ sr_desired r)) && (sr_ceiling r <=? held)
      then (Err TooManySubscriptions, r)
      else insert
  end.

Definition SubscriptionRegistry_leave (r : SubscriptionRegistry) (channel : ChannelId)
    (session : bytes) : SubscriptionRegistry :=
  match sr_joins r !! channel with
  | None => r
  | Some set =>
      let set := set ∖ {[session]} in
      MkSubscriptionRegistry
        (if bool_decide (set = ∅) then delete channel (sr_joins r)
         else <[channel := set]> (sr_joins r))
        (sr_desired r) (sr_ceiling r)
  end.

Definition SubscriptionRegistry_holds_any (r : SubscriptionRegistry) (session : bytes) : bool :=
  bool_decide (map_Exists (λ _ set, session ∈ set) (sr_joins r)).
Definition SubscriptionRegistry_join_references (r : SubscriptionRegistry) : N :=
  msum (λ _ set, N.of_nat (size set)) (sr_joins r).
Definition SubscriptionRegistry_may_publish (r : SubscriptionRegistry) (channel : ChannelId)
    (session : bytes) : bool :=
  match sr_joins r !! channel with
  | Some set => bool_decide (session ∈ set)
  | None => false
  end.
Definition SubscriptionRegistry_subscribers (r : SubscriptionRegistry) (channel : ChannelId) :
    list bytes :=
  match sr_joins r !! channel with
  | Some set => bset_to_list set
  | None => []
  end.
Definition SubscriptionRegistry_backend_should_subscribe (r : SubscriptionRegistry)
    (channel : ChannelId) : bool :=
  bool_decide (is_Some (sr_joins r !! channel)) || bool_decide (channel ∈ sr_desired r).

#[global] Instance IngressDenial_eq_dec : EqDecision IngressDenial.
Proof. solve_decision. Defined.
#[global] Instance SubscriptionDenial_eq_dec : EqDecision SubscriptionDenial.
Proof. solve_decision. Defined.
#[global] Instance Bucket_eq_dec : EqDecision Bucket.
Proof. solve_decision. Defined.

(** ** The rate bound

    Time only moves forward (the callers pass a monotonic clock), so a
    history is a list of requests, each with the time elapsed since the one
    before it. *)

(** What a refill does, whatever the saturation limits are: it credits some
    [g] tokens, never more than the burst, and moves the clock forward by at
    least [g] token periods but never past now. *)
Lemma refill_credit (M m K r e tokens burst last : N) :
  1 ≤ r → last + e ≤ M →
  let g := N.min (sat_mul M e r / K) m in
  let c := sat_mul M g K / r in
  sat_add M last c = last + c ∧ c ≤ e ∧ g * (K / r) ≤ c ∧
  N.min (sat_add m tokens (try_from_or_max m g)) burst ≤ N.min (tokens + g) burst.
Proof.
  intros Hr HM g c. unfold sat_mul, sat_add, try_from_or_max in *.
  assert (g * K ≤ N.min (e * r) M) as Hg.
  { destruct (N.eq_dec K 0) as [->|HK]; [lia|].
    pose proof (N.Div0.mul_div_le (N.min (e * r) M) K). unfold g. nia. }
  assert (c ≤ e) as Hc.
  { unfold c. apply N.Div0.div_le_upper_bound. lia. }
  repeat split; [lia|done| |lia].
  unfold c. rewrite -> (N.min_l (g * K)) by lia. apply N.div_le_lower_bound; [lia|].
  pose proof (N.Div0.mul_div_le K r). nia.
Qed.

(** A bucket of rate [r] and burst [B] that has let [c] requests through
    since [t0]: every token it spent or still holds was in the initial burst
    or was paid for with [q = 60000 / r] milliseconds. *)
Record bucket_paid (r B t0 c now : N) (b : Bucket) : Prop := {
  bp_rate : b_per_minute b = r;
  bp_burst : b_burst b = B;
  bp_tokens : b_tokens b ≤ B;
  bp_last : b_last_refill_ms b ≤ now;
  bp_paid : (c + b_tokens b) * (MS_PER_MINUTE / r) + t0 ≤
            B * (MS_PER_MINUTE / r) + b_last_refill_ms b
}.

Lemma bucket_paid_new r B t0 c now :
  c * (MS_PER_MINUTE / r) + t0 ≤ now → bucket_paid r B t0 c now (Bucket_new r B now).
Proof. intros H. split; simpl; try done. nia. Qed.

Lemma bucket_paid_full r B t0 c now b :
  bucket_paid r B t0 c now b → b_tokens b = B → c * (MS_PER_MINUTE / r) + t0 ≤ now.
Proof. intros [_ _ _ Hl Hp] Ht. rw Ht in Hp. nia. Qed.

Lemma bucket_paid_refill r B t0 c now now' b :
  1 ≤ r → now ≤ now' → now' ≤ u64_max →
  bucket_paid r B t0 c now b → bucket_paid r B t0 c now' (Bucket_refill b now').
Proof.
  intros Hr Hn HM [Hrate Hburst Ht Hl Hp]. unfold Bucket_refill.
  assert (bucket_paid r B t0 c now' b) as Hb by (split; [done..|lia|done]).
  destruct (b_per_minute b =? 0); [done|].
  set (e := sat_sub now' (b_last_refill_ms b)).
  assert (b_last_refill_ms b + e ≤ now') as He by (unfold e, sat_sub; lia). clearbody e.
  destruct (e =? 0); [done|]. destruct (N.min _ _ =? 0); [done|].
  destruct (refill_credit u64_max u32_max MS_PER_MINUTE (b_per_minute b) e
    (b_tokens b) (b_burst b) (b_last_refill_ms b)) as (H1 & H2 & H3 & H4); [lia..|].
  set (g := N.min (_ / _) _) in *. set (d := sat_mul _ g _ / _) in *.
  set (t := N.min (sat_add _ _ _) _) in *. clearbody g d t. subst r B.
  split; cbn [b_tokens b_burst b_per_minute b_last_refill_ms]; [done|done|lia|lia|]. rw H1.
  set (q := MS_PER_MINUTE / b_per_minute b) in *. clearbody q.
  assert ((c + t) * q ≤ (c + b_tokens b) * q + g * q) by nia. lia.
Qed.

Lemma bucket_paid_consume r B t0 c now now' b ok b' :
  1 ≤ r → now ≤ now' → now' ≤ u64_max →
  bucket_paid r B t0 c now b → Bucket_try_consume b now' = (ok, b') →
  bucket_paid r B t0 (if ok then c + 1 else c) now' b'.
Proof.
  intros Hr Hn HM Hb. unfold Bucket_try_consume.
  destruct (bucket_paid_refill _ _ _ _ _ _ _ Hr Hn HM Hb) as [H1 H2 H3 H4 H5].
  destruct (N.eqb_spec (b_tokens (Bucket_refill b now')) 0); intros [= <- <-]; [done|].
  split; cbn [b_tokens b_burst b_per_minute b_last_refill_ms]; try done; [lia|].
  by replace (c + 1 + _) with (c + b_tokens (Bucket_refill b now')) by lia.
Qed.

Lemma bucket_paid_less r B t0 c c' now b :
  c' ≤ c → bucket_paid r B t0 c now b → bucket_paid r B t0 c' now b.
Proof.
  intros Hc [H1 H2 H3 H4 H5]. split; [done..|]. etrans; [|exact H5].
  apply N.add_le_mono_r, N.mul_le_mono_r. lia.
Qed.

Fixpoint ingress_run (l : IngressLimiter) (now : N) (reqs : list (TransportIdentity * N)) :
    list TransportIdentity * IngressLimiter * N :=
  match reqs with
  | [] => ([], l, now)
  | (peer, wait) :: reqs =>
      let now := now + wait in
      let '(r, l) := IngressLimiter_admit l peer now in
      let '(adm, l, now) := ingress_run l now reqs in
      ((if is_ok r then [peer] else []) ++ adm, l, now)
  end.

(** How many requests of [peer] are among the admitted. *)
Definition admitted_of (peer : TransportIdentity) (adm : list TransportIdentity) : N :=
  len (filter (λ p, p = peer) adm).

Section rate.
Context (r B gr gB t0 : N).

(** The limiter at [now], having admitted [cp p] requests of each peer [p]
    and [cg] in all: a peer with no bucket is one whose bucket would be
    full. *)
Record limiter_paid (cp : TransportIdentity → N) (cg now : N) (l : IngressLimiter) : Prop := {
  lp_rate : il_per_peer_per_minute l = r;
  lp_burst : il_per_peer_burst l = B;
  lp_some : ∀ p b, il_per_peer l !! p = Some b → bucket_paid r B t0 (cp p) now b;
  lp_none : ∀ p, il_per_peer l !! p = None → cp p * (MS_PER_MINUTE / r) + t0 ≤ now;
  lp_global : ∃ g, il_global l = Some g ∧ bucket_paid gr gB t0 cg now g
}.

Lemma limiter_paid_new : limiter_paid (λ _, 0) 0 t0 (IngressLimiter_new r B gr gB t0).
Proof.
  split; simpl; try done.
  eexists. split; [done|]. apply bucket_paid_new. lia.
Qed.

Lemma bucket_paid_later r' B' c now now' b :
  now ≤ now' → bucket_paid r' B' t0 c now b → bucket_paid r' B' t0 c now' b.
Proof. intros Hn [H1 H2 H3 H4 H5]. split; try done. lia. Qed.

Hypothesis (Hr : 1 ≤ r) (Hgr : 1 ≤ gr).

Lemma limiter_paid_sweep cp cg now now' l :
  now ≤ now' → now' ≤ u64_max → limiter_paid cp cg now l →
  limiter_paid cp cg now' (IngressLimiter_sweep l now').
Proof.
  intros Hn HM [H1 H2 H3 H4 (g & Hg & Hgp)]. unfold IngressLimiter_sweep.
  case_match; split; simpl; try done.
  - intros p b. rw lookup_omap. destruct (il_per_peer l !! p) as [b0|] eqn:E; [|done]. simpl.
    unfold prune_bucket. case_match; [|done]. intros [= <-].
    eapply bucket_paid_refill; eauto.
  - intros p. rw lookup_omap. destruct (il_per_peer l !! p) as [b0|] eqn:E; simpl.
    + unfold prune_bucket. destruct (N.ltb_spec (b_tokens (Bucket_refill b0 now'))
        (b_burst (Bucket_refill b0 now'))) as [|Hge]; [done|]. intros _.
      pose proof (bucket_paid_refill _ _ _ _ _ _ _ Hr Hn HM (H3 _ _ E)) as Hb.
      eapply bucket_paid_full; [exact Hb|]. destruct Hb as [_ Hb Ht _ _]. lia.
    + intros _. specialize (H4 _ E). lia.
  - exists g. split; [done|]. by eapply bucket_paid_later.
  - intros p b Hb. eapply bucket_paid_later; eauto.
  - intros p Hp. specialize (H4 _ Hp). lia.
  - exists g. split; [done|]. by eapply bucket_paid_later.
Qed.

Lemma limiter_paid_put cp cg cg' now l peer b x g :
  limiter_paid cp cg now l → bucket_paid r B t0 (cp peer + x) now b →
  bucket_paid gr gB t0 cg' now g →
  limiter_paid (λ p, cp p + if bool_decide (p = peer) then x else 0) cg' now
    (MkIngressLimiter (<[peer := b]> (il_per_peer l)) (Some g) (il_per_peer_per_minute l)
       (il_per_peer_burst l) (il_last_prune_ms l)).
Proof.
  intros [H1 H2 H3 H4 _] Hb Hg. split; cbn [il_per_peer il_global il_per_peer_per_minute
    il_per_peer_burst]; try done; [| |by eauto].
  - intros p b'. rw lookup_insert. case_decide as Hp.
    + intros [= <-]. subst p. by rw bool_decide_eq_true_2.
    + rw bool_decide_eq_false_2; [by rw N.add_0_r; apply H3|congruence].
  - intros p. rw lookup_insert. case_decide as Hp; [done|].
    rw bool_decide_eq_false_2; [by rw N.add_0_r; apply H4|congruence].
Qed.

(** Serving one request: the peer's own bucket first, then the global. *)
Lemma limiter_paid_admit cp cg now now' l peer res l' :
  now ≤ now' → now' ≤ u64_max → limiter_paid cp cg now l →
  IngressLimiter_admit l peer now' = (res, l') →
  limiter_paid (λ p, cp p + if bool_decide (p = peer) then (if is_ok res then 1 else 0) else 0)
    (cg + if is_ok res then 1 else 0) now' l'.
Proof.
  intros Hn HM Hl. unfold IngressLimiter_admit.
  pose proof (limiter_paid_sweep _ _ _ _ _ Hn HM Hl) as Hl1.
  set (l1 := IngressLimiter_sweep l now') in *. clearbody l1.
  destruct Hl1 as [H1 H2 H3 H4 (g & Hg & Hgp)] eqn:EH. clear EH.
  set (b0 := default _ _).
  assert (bucket_paid r B t0 (cp peer) now' b0) as Hb0.
  { unfold b0. destruct (il_per_peer l1 !! peer) eqn:E; simpl; [by apply H3|].
    rw H1 H2. by apply bucket_paid_new, H4. }
  destruct (Bucket_try_consume b0 now') as [ok b1] eqn:Ec.
  pose proof (bucket_paid_consume _ _ _ _ _ _ _ _ _ Hr (N.le_refl _) HM Hb0 Ec) as Hb1.
  rw Hg. destruct ok; cbn [negb].
  2:{ intros [= <- <-]. apply (limiter_paid_put cp cg); [done|by rw N.add_0_r|by rw N.add_0_r]. }
  destruct (Bucket_try_consume g now') as [ok g1] eqn:Eg.
  pose proof (bucket_paid_consume _ _ _ _ _ _ _ _ _ Hgr (N.le_refl _) HM Hgp Eg) as Hg1.
  destruct ok; cbn [negb]; intros [= <- <-]; apply (limiter_paid_put cp cg); try done.
  - simpl. rw N.add_0_r. eapply bucket_paid_less; [|exact Hb1]. lia.
  - by rw N.add_0_r.
Qed.

Lemma ingress_run_now l now reqs : now ≤ (ingress_run l now reqs).2.
Proof.
  revert l now. induction reqs as [|[p w] reqs IH]; intros l now; simpl; [lia|].
  destruct (IngressLimiter_admit l p (now + w)) as [res l1]. specialize (IH l1 (now + w)).
  destruct (ingress_run l1 (now + w) reqs) as [[adm l2] now2]. simpl in *. lia.
Qed.

Lemma limiter_paid_run cp cg now l reqs adm l' now' :
  limiter_paid cp cg now l → ingress_run l now reqs = (adm, l', now') → now' ≤ u64_max →
  limiter_paid (λ p, cp p + admitted_of p adm) (cg + len adm) now' l'.
Proof.
  revert cp cg now l adm. induction reqs as [|[p w] reqs IH]; intros cp cg now l adm Hl; simpl.
  - intros [= <- <- <-] _. destruct Hl as [H1 H2 H3 H4 H5]. split; try done.
    + intros p b Hb. rw N.add_0_r. by apply H3.
    + intros p Hp. rw N.add_0_r. by apply H4.
    + by rw N.add_0_r.
  - destruct (IngressLimiter_admit l p (now + w)) as [res l1] eqn:Ea.
    pose proof (ingress_run_now l1 (now + w) reqs) as Hnow.
    destruct (ingress_run l1 (now + w) reqs) as [[adm2 l2] now2] eqn:Er.
    simpl in Hnow. intros [= <- <- <-] HM.
    pose proof (limiter_paid_admit cp cg now (now + w) l p res l1
      ltac:(lia) (N.le_trans _ _ _ Hnow HM) Hl Ea) as Hl1.
    pose proof (IH _ _ _ _ _ Hl1 Er HM) as [H1 H2 H3 H4 H5].
    assert (∀ q, cp q + (if bool_decide (q = p) then (if is_ok res then 1 else 0) else 0)
      + admitted_of q adm2 = cp q + admitted_of q ((if is_ok res then [p] else []) ++ adm2)) as Hq.
    { intros q. unfold admitted_of. rw filter_app len_app. destruct (is_ok res).
      - case_bool_decide; [subst; by rw filter_cons_True // len_cons /= len_nil; lia|].
        rw filter_cons_False; [|congruence]. simpl. rw len_nil. lia.
      - rw filter_nil len_nil. case_bool_decide; lia. }
    split; try done.
    + intros q b Hb. rw -Hq. by apply H3.
    + intros q Hb. rw -Hq. by apply H4.
    + destruct H5 as (g & Hg & Hgp). exists g. split; [done|].
      replace (cg + len _) with (cg + (if is_ok res then 1 else 0) + len adm2); [done|].
      rw len_app. destruct (is_ok res); len_simpl; lia.
Qed.
End rate.



Definition ingress_peer (n : N) : TransportIdentity := MkTransportIdentity [byte_of (65 + n)].

Definition demo_requests : list (TransportIdentity * N) :=
  [(ingress_peer 1, 0); (ingress_peer 1, 1); (ingress_peer 1, 1); (ingress_peer 2, 400);
   (ingress_peer 1, 100); (ingress_peer 1, 1)].
Definition demo_ingress : list TransportIdentity * IngressLimiter * N :=
  ingress_run (IngressLimiter_new 120 2 1200 256 1000) 1000 demo_requests.
Example demo_ingress_admits : admitted_of (ingress_peer 1) demo_ingress.1.1 = 3.
Proof. by vm_compute. Qed.


(** ** The rate is delivered

    A token period that divides a minute is kept exactly: the sub-token
    remainder survives every refill. *)

(** The bucket with no machine arithmetic: one token per [q] milliseconds,
    the clock moved by whole periods. *)
Definition refill_ideal (q : N) (b : Bucket) (now : N) : Bucket :=
  let k := (now - b_last_refill_ms b) / q in
  MkBucket (N.min (b_tokens b + k) (b_burst b)) (b_burst b) (b_per_minute b)
    (b_last_refill_ms b + k * q).

Lemma refill_exact_arith (M m K q r e last now tokens burst : N) :
  1 ≤ r → 1 ≤ q → K = q * r → e * r ≤ M → e ≤ m → burst ≤ m → last + e ≤ M →
  N.min (sat_mul M e r / K) m = e / q ∧
  sat_add M last (sat_mul M (e / q) K / r) = last + e / q * q ∧
  N.min (sat_add m tokens (try_from_or_max m (e / q))) burst = N.min (tokens + e / q) burst.
Proof.
  intros Hr Hq -> HM Hm Hb Hl. unfold sat_mul, sat_add, try_from_or_max.
  rewrite -> (N.min_l (e * r)) by lia. rw N.Div0.div_mul_cancel_r; [|lia].
  assert (e / q ≤ e) by (apply N.Div0.div_le_upper_bound; nia).
  pose proof (N.Div0.mul_div_le e q).
  assert (e / q * (q * r) ≤ e * r) by nia.
  rewrite -> (N.min_l (e / q * _)) by lia. rw N.mul_assoc N.div_mul; [|lia].
  repeat split; lia.
Qed.

Lemma factor_bounds k q r : k = q * r → 1 ≤ k → 1 ≤ q ∧ r ≤ k.
Proof. intros -> H. destruct q as [|q]; [lia|]. split; [lia|]. nia. Qed.

Lemma refill_exact b now :
  let r := b_per_minute b in
  let q := MS_PER_MINUTE / r in
  1 ≤ r → MS_PER_MINUTE = q * r → b_tokens b ≤ b_burst b → b_burst b ≤ u32_max →
  now - b_last_refill_ms b ≤ u32_max → now ≤ u64_max →
  b_last_refill_ms b ≤ now → Bucket_refill b now = refill_ideal q b now.
Proof.
  intros r q Hr Hq Ht Hb He HM Hl. unfold Bucket_refill, refill_ideal.
  destruct (factor_bounds MS_PER_MINUTE q r Hq) as [Hq1 Hr1]; [by vm_compute|].
  fold r q. unfold sat_sub. set (e := now - b_last_refill_ms b) in *.
  assert (b_last_refill_ms b + e ≤ u64_max) as HlM by lia.
  assert (e * r ≤ u64_max) as Her.
  { transitivity (u32_max * MS_PER_MINUTE); [nia|by vm_compute]. }
  destruct (refill_exact_arith u64_max u32_max MS_PER_MINUTE q r e (b_last_refill_ms b) now
    (b_tokens b) (b_burst b)) as (H1 & H2 & H3); try done.
  assert (MkBucket (N.min (b_tokens b + 0) (b_burst b)) (b_burst b) r
    (b_last_refill_ms b + 0 * q) = b) as Hid.
  { destruct b as [tk bu pm la]. simpl in *. f_equal; lia. }
  destruct (N.eqb_spec r 0); [lia|]. destruct (N.eqb_spec e 0) as [->|]; [by rw N.Div0.div_0_l|].
  cbv zeta. rw H1. destruct (N.eqb_spec (e / q) 0) as [E0|]; [by rw E0|].
  by rw H2 H3.
Qed.

(** refilling is independent of how often it is done.  When the token
    period is a whole number of milliseconds, refilling at [t1] and again at
    [t2] leaves exactly the bucket one refill at [t2] leaves: no fraction of
    a token is ever lost or gained (the defaults, 120 and 1200 per minute,
    are such rates). *)
Theorem refill_path_independent (b : Bucket) (t1 t2 : N) :
  1 ≤ b_per_minute b → (b_per_minute b | 60000) →
  b_tokens b ≤ b_burst b → b_burst b ≤ u32_max →
  b_last_refill_ms b ≤ t1 → t1 ≤ t2 → t2 - b_last_refill_ms b ≤ u32_max → t2 ≤ u64_max →
  Bucket_refill (Bucket_refill b t1) t2 = Bucket_refill b t2.
Proof.
  intros Hr [q Hq] Ht Hb H1 H12 H2 HM.
  assert (60000 / b_per_minute b = q) as Eq by (rw Hq; apply N.div_mul; lia).
  assert (1 ≤ q) by nia.
  rewrite -> (refill_exact b t1), (refill_exact b t2) by (rw ?Eq; (done || lia)).
  fold MS_PER_MINUTE in Eq. rw Eq.
  pose proof (N.Div0.mul_div_le (t1 - b_last_refill_ms b) q) as Hle. rw N.mul_comm in Hle.
  rewrite -> refill_exact by (cbn [refill_ideal b_per_minute b_burst b_tokens b_last_refill_ms];
    rw ?Eq; (done || (generalize dependent ((t1 - b_last_refill_ms b) / q * q); intros; lia) ||
    lia)).
  unfold refill_ideal. cbn [b_per_minute b_burst b_tokens b_last_refill_ms]. rw ?Eq.
  set (e1 := t1 - b_last_refill_ms b) in *. set (e2 := t2 - b_last_refill_ms b) in *.
  replace (t2 - (b_last_refill_ms b + e1 / q * q)) with (e2 - e1 / q * q) by (unfold e2; lia).
  assert ((e2 - e1 / q * q) / q = e2 / q - e1 / q) as ->.
  { symmetry. apply (N.div_unique _ _ _ (e2 mod q)); [apply N.mod_lt; lia|].
    pose proof (N.div_mod e2 q ltac:(lia)). assert (e1 / q ≤ e2 / q); [|nia].
    apply N.Div0.div_le_mono. lia. }
  assert (e1 / q ≤ e2 / q) by (apply N.Div0.div_le_mono; lia).
  f_equal; nia.
Qed.

Lemma refill_path_independent_witness :
  let b := MkBucket 0 32 120 1000 in
  Bucket_refill (Bucket_refill b 1750) 2500 = Bucket_refill b 2500 ∧
  b_tokens (Bucket_refill b 2500) = 3.
Proof.
  split; [|by vm_compute].
  apply (refill_path_independent (MkBucket 0 32 120 1000) 1750 2500); try by vm_compute.
  by exists 500.
Defined.

Lemma gained_pos (M m K r e : N) :
  1 ≤ K → K ≤ M → 1 ≤ m → K ≤ e * r → 1 ≤ N.min (sat_mul M e r / K) m.
Proof.
  intros. enough (1 ≤ sat_mul M e r / K) by lia. apply N.div_le_lower_bound; [lia|].
  unfold sat_mul. lia.
Qed.

Lemma consume_true_iff b now :
  (Bucket_try_consume b now).1 = true ↔ 1 ≤ b_tokens (Bucket_refill b now).
Proof.
  unfold Bucket_try_consume.
  destruct (N.eqb_spec (b_tokens (Bucket_refill b now)) 0); split; simpl; try done; lia.
Qed.

Lemma refill_min_pos (m t g burst : N) :
  1 ≤ m → 1 ≤ t + g → 1 ≤ burst → g ≤ m →
  1 ≤ N.min (sat_add m t (try_from_or_max m g)) burst.
Proof. unfold sat_add, try_from_or_max. lia. Qed.

Lemma refill_tokens_pos b now :
  1 ≤ b_tokens b → 1 ≤ b_burst b → 1 ≤ b_tokens (Bucket_refill b now).
Proof.
  intros Ht Hb. unfold Bucket_refill. case_match; [done|]. case_match; [done|].
  case_match; [done|]. cbn [b_tokens]. 
  apply refill_min_pos; [by vm_compute| |done|apply N.le_min_r].
  etrans; [exact Ht|apply N.le_add_r].
Qed.

(** A bucket that had time to earn one token has one. *)
Lemma refill_after_wait b now :
  1 ≤ b_per_minute b → 1 ≤ b_burst b →
  MS_PER_MINUTE ≤ (now - b_last_refill_ms b) * b_per_minute b →
  1 ≤ b_tokens (Bucket_refill b now).
Proof.
  intros Hr Hb He. unfold Bucket_refill, sat_sub. set (e := now - b_last_refill_ms b) in *.
  destruct (N.eqb_spec (b_per_minute b) 0); [lia|].
  destruct (N.eqb_spec e 0) as [E0|]; [by rw E0 in He|].
  pose proof (gained_pos u64_max u32_max MS_PER_MINUTE (b_per_minute b) e
    ltac:(by vm_compute) ltac:(by vm_compute) ltac:(by vm_compute) He) as Hg.
  pose proof (N.le_min_r (sat_mul u64_max e (b_per_minute b) / MS_PER_MINUTE) u32_max) as Hm.
  set (g := N.min (_ / _) _) in *. clearbody g.
  destruct (N.eqb_spec g 0); [lia|]. cbn [b_tokens].
  apply refill_min_pos; [by vm_compute|lia|done|done].
Qed.

Lemma refill_after_wait_paid r B t0 c now w b :
  1 ≤ r → 1 ≤ B → 60000 ≤ w * r → bucket_paid r B t0 c now b →
  1 ≤ b_tokens (Bucket_refill b (now + w)).
Proof.
  intros Hr HB Hw [Hrate Hburst _ Hl _]. apply refill_after_wait; [lia..|]. rw Hrate.
  etrans; [exact Hw|]. apply N.mul_le_mono_r. lia.
Qed.

(** a denied peer is not starved.  After any history, a peer that waits
    for one token period of its own bucket and of the global one, with nothing
    admitted meanwhile, is admitted, whether or not its bucket was pruned. *)
Theorem ingress_no_starvation (r B gr gB t0 : N) (reqs : list (TransportIdentity * N))
    (peer : TransportIdentity) (w : N) (adm : list TransportIdentity) (l' : IngressLimiter)
    (now : N) :
  1 ≤ r → 1 ≤ B → 1 ≤ gr → 1 ≤ gB →
  ingress_run (IngressLimiter_new r B gr gB t0) t0 reqs = (adm, l', now) →
  60000 ≤ w * r → 60000 ≤ w * gr → now + w ≤ u64_max →
  (IngressLimiter_admit l' peer (now + w)).1 = Ok ().
Proof.
  intros Hr HB Hgr HgB Hrun Hw Hgw HM.
  destruct (limiter_paid_run r B gr gB t0 Hr Hgr _ _ _ _ _ _ _ _
    (limiter_paid_new r B gr gB t0) Hrun ltac:(lia)) as [H1 H2 H3 _ (g & Hg & Hgp)].
  unfold IngressLimiter_admit. set (l1 := IngressLimiter_sweep l' (now + w)).
  assert (il_global l1 = Some g ∧ il_per_peer_per_minute l1 = r ∧ il_per_peer_burst l1 = B)
    as (Hg1 & Hr1 & HB1) by (unfold l1, IngressLimiter_sweep; by case_match).
  set (b0 := default _ _).
  assert (1 ≤ b_tokens (Bucket_refill b0 (now + w))) as Hb%consume_true_iff.
  { unfold b0. destruct (il_per_peer l1 !! peer) as [b|] eqn:E; simpl.
    - revert E. unfold l1, IngressLimiter_sweep. case_match; simpl.
      + rw lookup_omap. destruct (il_per_peer l' !! peer) as [b'|] eqn:E'; [|done]. simpl.
        unfold prune_bucket. destruct (N.ltb_spec (b_tokens (Bucket_refill b' (now + w)))
          (b_burst (Bucket_refill b' (now + w)))) as [Hlt|]; [|done]. intros [= <-].
        pose proof (refill_after_wait_paid _ _ _ _ _ w _ Hr HB Hw (H3 _ _ E')).
        apply refill_tokens_pos; lia.
      + intros E'. by apply (refill_after_wait_paid _ _ _ _ _ w _ Hr HB Hw (H3 _ _ E')).
    - rw Hr1 HB1. by apply refill_tokens_pos. }
  pose proof (refill_after_wait_paid _ _ _ _ _ w _ Hgr HgB Hgw Hgp) as Hg2%consume_true_iff.
  destruct (Bucket_try_consume b0 _) as [ok b1]. simpl in Hb. subst ok. cbn [negb]. rw Hg1.
  destruct (Bucket_try_consume g _) as [ok g1]. simpl in Hg2. by subst ok.
Qed.

Lemma ingress_no_starvation_witness :
  (IngressLimiter_admit demo_ingress.1.2 (ingress_peer 1) (demo_ingress.2 + 500)).1 = Ok ().
Proof.
  apply (ingress_no_starvation 120 2 1200 256 1000 demo_requests (ingress_peer 1) 500
    demo_ingress.1.1 demo_ingress.1.2 demo_ingress.2); by vm_compute.
Defined.

(** ** Subscription bounds *)

Inductive sub_op :=
| SubConfigure (desired : gset ChannelId) (ceiling : N)
| SubSetDesired (desired : gset ChannelId)
| SubJoin (channel : ChannelId) (session : bytes)
| SubLeave (channel : ChannelId) (session : bytes).

Definition sub_step (r : SubscriptionRegistry) (op : sub_op) : SubscriptionRegistry :=
  match op with
  | SubConfigure desired ceiling => (SubscriptionRegistry_configure r desired ceiling).2
  | SubSetDesired desired => (SubscriptionRegistry_set_desired r desired).2
  | SubJoin c s => (SubscriptionRegistry_join r c s).2
  | SubLeave c s => SubscriptionRegistry_leave r c s
  end.
Definition sub_run (r : SubscriptionRegistry) (ops : list sub_op) : SubscriptionRegistry :=
  foldl sub_step r ops.

Record sub_inv (r : SubscriptionRegistry) : Prop := {
  si_ceiling : 1 ≤ sr_ceiling r ≤ 1024;
  si_total : SubscriptionRegistry_subscriptions r ≤ sr_ceiling r;
  si_sets : ∀ c set, sr_joins r !! c = Some set → set ≠ ∅ ∧ N.of_nat (size set) ≤ 64
}.

(** The two counts of [subscriptions] are the channels held for any reason. *)
Lemma subscriptions_union joins desired :
  joined_elsewhere joins desired + N.of_nat (size desired) =
  N.of_nat (size (dom joins ∪ desired)).
Proof.
  unfold joined_elsewhere.
  assert (filter (λ c, c ∉ desired) (dom joins) = dom joins ∖ desired) as -> by set_solver.
  rw (union_comm_L (dom joins)) size_union_alt. lia.
Qed.

Lemma set_desired_inv r d : sub_inv r → sub_inv (SubscriptionRegistry_set_desired r d).2.
Proof.
  intros [H1 H2 H3]. unfold SubscriptionRegistry_set_desired.
  destruct (N.ltb_spec (sr_ceiling r) (sat_add usize_max (joined_elsewhere (sr_joins r) d)
    (N.of_nat (size d)))) as [|Hle]; [done|]. split; simpl; try done.
  unfold SubscriptionRegistry_subscriptions. simpl.
  etrans; [|exact Hle]. erewrite (sat_add_exact usize_max _ _ _ Hle); [done|].
  apply N.le_lt_trans with 1024; [lia|by vm_compute].
Qed.

Lemma configure_inv r d c : sub_inv r → sub_inv (SubscriptionRegistry_configure r d c).2.
Proof.
  intros [H1 H2 H3]. unfold SubscriptionRegistry_configure.
  destruct (N.leb_spec 1 c); [|done]. destruct (N.leb_spec c MAX_SUBSCRIPTIONS); [|done]. simpl.
  unfold SubscriptionRegistry_set_desired. simpl.
  destruct (N.ltb_spec c (sat_add usize_max (joined_elsewhere (sr_joins r) d)
    (N.of_nat (size d)))) as [|Hle]; simpl; [by split|]. split; simpl; try done.
  unfold SubscriptionRegistry_subscriptions. simpl.
  etrans; [|exact Hle]. erewrite (sat_add_exact usize_max _ _ _ Hle); [done|].
  apply N.le_lt_trans with 1024; [done|by vm_compute].
Qed.

Lemma size_one_session (s : bytes) : N.of_nat (size ({[s]} ∪ ∅ : gset bytes)) ≤ 64.
Proof.
  assert ({[s]} ∪ ∅ = ({[s]} : gset bytes)) as -> by set_solver. by rw size_singleton.
Qed.

Lemma join_inv r c s : sub_inv r → sub_inv (SubscriptionRegistry_join r c s).2.
Proof.
  intros [H1 H2 H3]. unfold SubscriptionRegistry_join.
  destruct (sr_joins r !! c) as [set|] eqn:E.
  - case_bool_decide as Hin; [done|].
    destruct (N.leb_spec MAX_SESSIONS_PER_CHANNEL (N.of_nat (size set))) as [|Hlt]; [done|].
    split; simpl; try done.
    + unfold SubscriptionRegistry_subscriptions in *. simpl. rw !subscriptions_union in H2 *.
      assert (c ∈ dom (sr_joins r)) by by apply elem_of_dom_2 in E.
      rw dom_insert_L. by replace ({[c]} ∪ dom (sr_joins r)) with (dom (sr_joins r)) by set_solver.
    + intros c' set'. rw lookup_insert. case_decide; [|by apply H3]. intros [= <-].
      split; [set_solver|]. rewrite -> size_union by set_solver. rw size_singleton.
      unfold MAX_SESSIONS_PER_CHANNEL in Hlt. lia.
  - destruct (negb _ && _) eqn:Ec; [done|]. split; simpl; try done.
    + unfold SubscriptionRegistry_subscriptions in *. simpl. revert Ec.
      rw !subscriptions_union in H2 *. rw dom_insert_L. case_bool_decide as Hd; simpl.
      * intros _. by replace ({[c]} ∪ dom (sr_joins r) ∪ sr_desired r)
          with (dom (sr_joins r) ∪ sr_desired r) by set_solver.
      * intros Hlt%N.leb_gt.
        assert (size ({[c]} ∪ dom (sr_joins r) ∪ sr_desired r) ≤
          1 + size (dom (sr_joins r) ∪ sr_desired r))%nat; [|lia].
        rw -union_assoc_L size_union_alt size_singleton.
        pose proof (subseteq_size ((dom (sr_joins r) ∪ sr_desired r) ∖ {[c]})
          (dom (sr_joins r) ∪ sr_desired r) ltac:(set_solver)). lia.
    + clear Ec. intros c' set'. rw lookup_insert. case_decide; [|by apply H3]. intros [= <-].
      split; [set_solver|apply size_one_session].
Qed.

Lemma leave_inv r c s : sub_inv r → sub_inv (SubscriptionRegistry_leave r c s).
Proof.
  intros [H1 H2 H3]. unfold SubscriptionRegistry_leave.
  destruct (sr_joins r !! c) as [set|] eqn:E; [|done]. split; simpl; [done|..].
  - etrans; [|exact H2]. unfold SubscriptionRegistry_subscriptions. simpl.
    rw !subscriptions_union. assert (c ∈ dom (sr_joins r)) by by apply elem_of_dom_2 in E.
    enough (size (dom (if bool_decide (set ∖ {[s]} = ∅) then delete c (sr_joins r)
      else <[c:=set ∖ {[s]}]> (sr_joins r)) ∪ sr_desired r) ≤
      size (dom (sr_joins r) ∪ sr_desired r))%nat by lia.
    apply subseteq_size. case_bool_decide; rw ?dom_delete_L ?dom_insert_L; set_solver.
  - destruct (H3 _ _ E) as [Hne Hs]. intros c' set'.
    case_bool_decide as He; [rw lookup_delete|rw lookup_insert]; case_decide; try done;
      try by apply H3.
    intros [= <-]. split; [done|].
    pose proof (subseteq_size (set ∖ {[s]}) set ltac:(set_solver)). lia.
Qed.

Lemma sub_run_inv r ops : sub_inv r → sub_inv (sub_run r ops).
Proof.
  revert r. induction ops as [|op ops IH]; intros r Hr; [done|]. apply IH.
  destruct op; simpl; auto using set_desired_inv, configure_inv, join_inv, leave_inv.
Qed.

(** over every history of configuration, joins and leaves the profile
    holds no more channels (configured or joined) than its ceiling, itself
    within 1 to 1024; every joined channel has between 1 and 64 sessions; a
    session may publish on a channel exactly when it is among the
    subscribers a broadcast there is delivered to; and the backend subscribes
    to every channel somebody may publish on. *)
Theorem subscription_bounds (ops : list sub_op) :
  let r := sub_run SubscriptionRegistry_default ops in
  SubscriptionRegistry_subscriptions r ≤ sr_ceiling r ∧ 1 ≤ sr_ceiling r ≤ 1024 ∧
  (∀ c, SubscriptionRegistry_subscribers r c = [] ∨
        1 ≤ len (SubscriptionRegistry_subscribers r c) ≤ 64) ∧
  (∀ c s, SubscriptionRegistry_may_publish r c s = true ↔
          s ∈ SubscriptionRegistry_subscribers r c) ∧
  (∀ c s, SubscriptionRegistry_may_publish r c s = true →
          SubscriptionRegistry_backend_should_subscribe r c = true).
Proof.
  intros r. assert (sub_inv r) as [H1 H2 H3].
  { apply sub_run_inv. by split. }
  split; [done|]. split; [done|]. split; [|split].
  - intros c. unfold SubscriptionRegistry_subscribers.
    destruct (sr_joins r !! c) as [set|] eqn:E; [right|by left].
    destruct (H3 _ _ E) as [Hne Hs]. unfold bset_to_list, len.
    rewrite -> merge_sort_Permutation. change (length (elements set)) with (size set).
    split; [|done]. assert (size set ≠ 0%nat); [by intros ?%size_empty_inv%leibniz_equiv|lia].
  - intros c s. unfold SubscriptionRegistry_may_publish, SubscriptionRegistry_subscribers.
    destruct (sr_joins r !! c) as [set|]; [|split; [done|by intros ?%elem_of_nil]].
    rw bool_decide_eq_true. unfold bset_to_list.
    rewrite -> merge_sort_Permutation. by rw elem_of_elements.
  - intros c s. unfold SubscriptionRegistry_may_publish,
      SubscriptionRegistry_backend_should_subscribe.
    by destruct (sr_joins r !! c).
Qed.
