(* ===== verification/Directory.v ===== *)
(** * The endpoint directory

    [crates/transport/runtime/src/directory.rs] with the shapes and ceilings
    of [crates/api/transport-api/src/endpoint_directory.rs]: the responder's
    budget, validation of a remote's answer, and the bounded cache with its
    clamped freshness. *)
From S2P Require Import Prelude Ids Payload DirectV2 Trust Registry Ingress.
Local Open Scope N_scope.

Definition MAX_DIRECTORY_TTL_MS : N := 300000.
Definition DEFAULT_QUERIES_PER_PEER_PER_MINUTE : N := 12.
Definition MAX_QUERIES_PER_PEER_PER_MINUTE : N := 60.
Definition DEFAULT_INFLIGHT_QUERIES : N := 16.
Definition MAX_INFLIGHT_QUERIES : N := 64.

Record EndpointDirectoryV1 := MkEndpointDirectoryV1 {
  ed_generated_at_ms : N;
  ed_ttl_ms : N;
  ed_endpoints : list EndpointId
}.
Inductive DirectoryRefusal := DR_Overloaded | DR_Unauthorized | DR_Unavailable.

(** ** The responder's budget *)

Inductive BudgetDenial := PeerExhausted | InFlightExhausted.
Inductive BudgetConfigError := QueriesPerPeer (n : N) | MaxInflight (n : N).

Record DirectoryBudget := MkDirectoryBudget {
  db_per_peer : IngressLimiter;
  db_inflight : N;
  db_max_inflight : N
}.

Definition DirectoryBudget_with_defaults (now_ms : N) : DirectoryBudget :=
  MkDirectoryBudget
    (IngressLimiter_per_peer_only DEFAULT_QUERIES_PER_PEER_PER_MINUTE
       DEFAULT_QUERIES_PER_PEER_PER_MINUTE now_ms)
    0 DEFAULT_INFLIGHT_QUERIES.

Definition DirectoryBudget_reserve (b : DirectoryBudget) :
    result unit BudgetDenial * DirectoryBudget :=
  if db_max_inflight b <=? db_inflight b then (Err InFlightExhausted, b)
  else (Ok (), MkDirectoryBudget (db_per_peer b) (db_inflight b + 1) (db_max_inflight b)).

Definition DirectoryBudget_charge_rate (b : DirectoryBudget) (peer : TransportIdentity)
    (now_ms : N) : result unit BudgetDenial * DirectoryBudget :=
  let '(r, l) := IngressLimiter_admit (db_per_peer b) peer now_ms in
  (match r with Ok _ => Ok () | Err _ => Err PeerExhausted end,
   MkDirectoryBudget l (db_inflight b) (db_max_inflight b)).

Definition DirectoryBudget_end_exchange (b : DirectoryBudget) : DirectoryBudget :=
  MkDirectoryBudget (db_per_peer b) (sat_sub (db_inflight b) 1) (db_max_inflight b).

Definition DirectoryBudget_set_limits (b : DirectoryBudget)
    (queries_per_peer_per_minute max_inflight now_ms : N) :
    result unit BudgetConfigError * DirectoryBudget :=
  if (queries_per_peer_per_minute =? 0) ||
     (MAX_QUERIES_PER_PEER_PER_MINUTE <? queries_per_peer_per_minute)
  then (Err (QueriesPerPeer queries_per_peer_per_minute), b)
  else if (max_inflight =? 0) || (MAX_INFLIGHT_QUERIES <? max_inflight)
  then (Err (MaxInflight max_inflight), b)
  else
    (Ok (),
     MkDirectoryBudget
       (IngressLimiter_per_peer_only queries_per_peer_per_minute queries_per_peer_per_minute now_ms)
       (db_inflight b) max_inflight).

(** ** Validating an answer *)

Inductive DirectoryViolation := TooManyEntries (got : N) | Duplicate (e : EndpointId).

Record ValidatedDirectory := MkValidatedDirectory {
  vd_endpoints : list EndpointId;
  vd_ttl_ms : N;
  vd_generated_at_ms : N;
  vd_noncanonical : bool
}.

(** [endpoints.windows(2).all(|w| w[0] <= w[1])] *)
Fixpoint windows_sorted (l : list EndpointId) : bool :=
  match l with
  | a :: (b :: _) as t => bool_decide (key_le a b) && windows_sorted t
  | _ => true
  end.
(** [endpoints.windows(2).find(|w| w[0] == w[1])] *)
Fixpoint windows_duplicate (l : list EndpointId) : option EndpointId :=
  match l with
  | a :: (b :: _) as t => if bool_decide (a = b) then Some a else windows_duplicate t
  | _ => None
  end.

Definition validate_response (raw : EndpointDirectoryV1) :
    result ValidatedDirectory DirectoryViolation :=
  if MAX_DIRECTORY_ENTRIES <? len (ed_endpoints raw)
  then Err (TooManyEntries (len (ed_endpoints raw)))
  else
    let noncanonical := negb (windows_sorted (ed_endpoints raw)) in
    let endpoints := merge_sort key_le (ed_endpoints raw) in
    match windows_duplicate endpoints with
    | Some dup => Err (Duplicate dup)
    | None =>
        Ok (MkValidatedDirectory endpoints (ed_ttl_ms raw) (ed_generated_at_ms raw) noncanonical)
    end.

Definition clamp_ttl (remote_ttl_ms local_cache_ttl_ms : N) : N :=
  let local :=
    if local_cache_ttl_ms <? MAX_DIRECTORY_TTL_MS then local_cache_ttl_ms
    else MAX_DIRECTORY_TTL_MS in
  if remote_ttl_ms <? local then remote_ttl_ms else local.

(** ** The cache *)

Record CacheEntry := MkCacheEntry {
  ce_endpoints : list EndpointId;
  ce_received_at_ms : N;
  ce_fresh_until_ms : N;
  ce_generated_at_ms : N;
  ce_noncanonical : bool
}.

Record DirectoryCache := MkDirectoryCache {
  dir_entries : gmap TransportIdentity CacheEntry;
  dir_max_peers : N;
  dir_local_ttl_ms : N
}.

Definition DirectoryCache_new (max_peers local_ttl_ms : N) : DirectoryCache :=
  MkDirectoryCache ∅ (N.max max_peers 1) local_ttl_ms.

Definition DirectoryCache_expire (c : DirectoryCache) (now_ms : N) : DirectoryCache :=
  MkDirectoryCache (filter (λ pe, now_ms < ce_fresh_until_ms pe.2) (dir_entries c))
    (dir_max_peers c) (dir_local_ttl_ms c).

(** The room made for a new peer: expire, then evict the oldest if still full. *)
Definition DirectoryCache_make_room (c : DirectoryCache) (peer : TransportIdentity) (now_ms : N) :
    DirectoryCache :=
  if negb (bool_decide (is_Some (dir_entries c !! peer))) &&
     (dir_max_peers c <=? N.of_nat (size (dir_entries c)))
  then
    let c := DirectoryCache_expire c now_ms in
    match min_by (λ pe, ce_received_at_ms pe.2) (btree_to_list (dir_entries c)) with
    | Some (oldest, _) =>
        if dir_max_peers c <=? N.of_nat (size (dir_entries c))
        then MkDirectoryCache (delete oldest (dir_entries c)) (dir_max_peers c) (dir_local_ttl_ms c)
        else c
    | None => c
    end
  else c.

Definition DirectoryCache_insert (c : DirectoryCache) (peer : TransportIdentity)
    (validated : ValidatedDirectory) (now_ms : N) : CacheEntry * DirectoryCache :=
  let c := DirectoryCache_make_room c peer now_ms in
  let ttl := clamp_ttl (vd_ttl_ms validated) (dir_local_ttl_ms c) in
  let entry := MkCacheEntry (vd_endpoints validated) now_ms (sat_add u64_max now_ms ttl)
                 (vd_generated_at_ms validated) (vd_noncanonical validated) in
  (entry, MkDirectoryCache (<[peer := entry]> (dir_entries c)) (dir_max_peers c) (dir_local_ttl_ms c)).

Definition retime (local_ttl_ms : N) (e : CacheEntry) : CacheEntry :=
  MkCacheEntry (ce_endpoints e) (ce_received_at_ms e)
    (N.min (ce_fresh_until_ms e) (sat_add u64_max (ce_received_at_ms e) local_ttl_ms))
    (ce_generated_at_ms e) (ce_noncanonical e).
Definition DirectoryCache_set_local_ttl (c : DirectoryCache) (local_ttl_ms : N) : DirectoryCache :=
  MkDirectoryCache (retime local_ttl_ms <$> dir_entries c) (dir_max_peers c) local_ttl_ms.

Definition DirectoryCache_get (c : DirectoryCache) (peer : TransportIdentity) (now_ms : N) :
    option CacheEntry :=
  match dir_entries c !! peer with
  | Some e => if now_ms <? ce_fresh_until_ms e then Some e else None
  | None => None
  end.

Definition DirectoryCache_forget (c : DirectoryCache) (peer : TransportIdentity) :
    bool * DirectoryCache :=
  (bool_decide (is_Some (dir_entries c !! peer)),
   MkDirectoryCache (delete peer (dir_entries c)) (dir_max_peers c) (dir_local_ttl_ms c)).

#[global] Instance ValidatedDirectory_eq_dec : EqDecision ValidatedDirectory.
Proof. solve_decision. Defined.
#[global] Instance DirectoryViolation_eq_dec : EqDecision DirectoryViolation.
Proof. solve_decision. Defined.
#[global] Instance CacheEntry_eq_dec : EqDecision CacheEntry.
Proof. solve_decision. Defined.

(** ** Validation *)

Lemma windows_sorted_iff l : windows_sorted l = true ↔ StronglySorted key_le l.
Proof.
  induction l as [|a l IH]; [split; [constructor|done]|]. destruct l as [|b l].
  - split; [repeat constructor|done].
  - change (windows_sorted (a :: b :: l)) with
      (bool_decide (key_le a b) && windows_sorted (b :: l)).
    rw andb_true_iff IH bool_decide_eq_true. split.
    + intros [Hab Hs]. constructor; [done|]. constructor; [done|].
      apply StronglySorted_inv in Hs as [_ Hall]. eapply Forall_impl; [exact Hall|].
      intros x Hx. by etrans.
    + intros Hs. apply StronglySorted_inv in Hs as [Hs Hall]. apply Forall_cons in Hall. tauto.
Qed.

(** On a sorted list, no adjacent repeat is no repeat. *)
Lemma windows_duplicate_sorted l :
  StronglySorted key_le l → windows_duplicate l = None ↔ StronglySorted key_lt l.
Proof.
  induction l as [|a l IH]; intros Hs; [split; [constructor|done]|].
  apply StronglySorted_inv in Hs as [Hs Hall]. destruct l as [|b l].
  { split; [repeat constructor|done]. }
  change (windows_duplicate (a :: b :: l)) with
    (if bool_decide (a = b) then Some a else windows_duplicate (b :: l)).
  case_bool_decide as Hab.
  - split; [done|]. intros Hl. apply StronglySorted_inv in Hl as [_ Hl].
    apply Forall_cons in Hl as [[_ []] _]. done.
  - rewrite -> IH by done. split.
    + intros Hl. constructor; [done|]. rewrite !Forall_forall in Hall |- *. intros x Hx.
      split; [by apply Hall|]. intros <-. apply elem_of_cons in Hx as [|Hx]; [done|].
      apply Hab. apply StronglySorted_inv in Hs as [_ Hs]. rewrite -> Forall_forall in Hs.
      apply (anti_symm key_le); [|by apply Hs]. apply Hall. by left.
    + by intros [Hl _]%StronglySorted_inv.
Qed.

Lemma windows_duplicate_Some l e : windows_duplicate l = Some e → ¬ NoDup l ∧ e ∈ l.
Proof.
  induction l as [|a l IH]; [done|]. destruct l as [|b l]; [done|].
  change (windows_duplicate (a :: b :: l)) with
    (if bool_decide (a = b) then Some a else windows_duplicate (b :: l)).
  case_bool_decide as Hab.
  - intros [= <-]. subst b. split; [|by left]. rw NoDup_cons. intros [[] _]. by left.
  - intros [Hd Hin]%IH. split; [|by right]. by rw NoDup_cons => -[].
Qed.

Lemma sorted_lt_NoDup (l : list EndpointId) : StronglySorted key_lt l → NoDup l.
Proof.
  induction 1 as [|a l Hl IH Hall]; [constructor|]. constructor; [|done].
  intros Hin. rewrite -> Forall_forall in Hall. by destruct (Hall _ Hin).
Qed.

Lemma validate_ok_iff raw v :
  validate_response raw = Ok v ↔
  len (ed_endpoints raw) ≤ 32 ∧ NoDup (ed_endpoints raw) ∧
  v = MkValidatedDirectory (merge_sort key_le (ed_endpoints raw)) (ed_ttl_ms raw)
        (ed_generated_at_ms raw) (negb (windows_sorted (ed_endpoints raw))).
Proof.
  unfold validate_response, MAX_DIRECTORY_ENTRIES.
  destruct (N.ltb_spec 32 (len (ed_endpoints raw))) as [|Hle]; [split; [done|lia]|].
  pose proof (merge_sort_Permutation key_le (ed_endpoints raw)) as Hp.
  destruct (windows_duplicate _) as [d|] eqn:Ed.
  - split; [done|]. intros (_ & Hnd & _). apply windows_duplicate_Some in Ed as [[] _].
    by rw Hp.
  - apply windows_duplicate_sorted in Ed; [|apply StronglySorted_merge_sort; apply _].
    apply sorted_lt_NoDup in Ed. rw Hp in Ed. split; [by intros [= <-]|by intros (_ & _ & ->)].
Qed.

Lemma merge_sort_sorted_id (l : list EndpointId) :
  StronglySorted key_le l → merge_sort key_le l = l.
Proof.
  intros Hl. apply (StronglySorted_unique key_le); [|done|apply merge_sort_Permutation].
  apply StronglySorted_merge_sort; apply _.
Qed.
Lemma sorted_lt_le (l : list EndpointId) : StronglySorted key_lt l → StronglySorted key_le l.
Proof.
  induction 1 as [|a l Hl IH Hall]; [constructor|]. constructor; [done|].
  eapply Forall_impl; [exact Hall|]. by intros x [].
Qed.

(** a remote's directory is accepted exactly when it has at most 32
    entries and no repeat; what is then kept is the same endpoints in strictly
    ascending order, flagged noncanonical exactly when they arrived out of
    order; an answer refused as a duplicate names an endpoint it really
    contains. *)
Theorem directory_validation (raw : EndpointDirectoryV1) :
  (is_ok (validate_response raw) = true ↔
     len (ed_endpoints raw) ≤ 32 ∧ NoDup (ed_endpoints raw)) ∧
  (∀ v, validate_response raw = Ok v →
     vd_endpoints v ≡ₚ ed_endpoints raw ∧ StronglySorted key_lt (vd_endpoints v) ∧
     (vd_noncanonical v = false ↔ vd_endpoints v = ed_endpoints raw) ∧
     vd_ttl_ms v = ed_ttl_ms raw) ∧
  (∀ e, validate_response raw = Err (Duplicate e) → e ∈ ed_endpoints raw).
Proof.
  split; [|split].
  - split.
    + destruct (validate_response raw) as [v|] eqn:E; [|done].
      apply validate_ok_iff in E. tauto.
    + intros [Hl Hn]. assert (∃ v, validate_response raw = Ok v) as [v ->]; [|done].
      eexists. by apply validate_ok_iff.
  - intros v (Hl & Hn & ->)%validate_ok_iff. simpl.
    assert (StronglySorted key_le (merge_sort key_le (ed_endpoints raw))) as Hs
      by (apply StronglySorted_merge_sort; apply _).
    pose proof (merge_sort_Permutation key_le (ed_endpoints raw)) as Hp.
    split; [done|]. split; [|split; [|done]].
    + apply windows_duplicate_sorted; [done|].
      destruct (windows_duplicate _) as [d|] eqn:Ed; [|done].
      apply windows_duplicate_Some in Ed as [[] _]. by rw Hp.
    + rw negb_false_iff windows_sorted_iff. split; [apply merge_sort_sorted_id|].
      intros <-. done.
  - intros e. unfold validate_response. case_match; [done|].
    destruct (windows_duplicate _) as [d|] eqn:Ed; [|done]. intros [= <-].
    apply windows_duplicate_Some in Ed as [_ Hin].
    by rewrite -> merge_sort_Permutation in Hin.
Qed.

(** what one node advertises another accepts.  The list
    [advertised_for] builds for a peer, sent as that node's directory, passes
    the receiver's validation unchanged and canonical. *)
Theorem advertised_validates (r : EndpointRegistry) (peer : TransportIdentity)
    (profile : PeerTrustPolicy) (cap generated ttl : N) :
  let out := EndpointRegistry_advertised_for r peer profile cap in
  validate_response (MkEndpointDirectoryV1 generated ttl out) =
  Ok (MkValidatedDirectory out ttl generated false).
Proof.
  intros out. destruct (advertised_bounded r peer profile cap) as [Hs Hl]. fold out in Hs, Hl.
  apply validate_ok_iff. simpl. split; [lia|]. split; [by apply sorted_lt_NoDup|].
  apply sorted_lt_le in Hs as Hs'. rw (merge_sort_sorted_id out Hs').
  apply windows_sorted_iff in Hs' as ->. done.
Qed.

(** ** The cache over time *)

Inductive cache_op :=
| DcInsert (peer : TransportIdentity) (v : ValidatedDirectory) (now : N)
| DcSetTtl (ttl : N)
| DcForget (peer : TransportIdentity).

Definition cache_step (c : DirectoryCache) (op : cache_op) : DirectoryCache :=
  match op with
  | DcInsert peer v now => (DirectoryCache_insert c peer v now).2
  | DcSetTtl ttl => DirectoryCache_set_local_ttl c ttl
  | DcForget peer => (DirectoryCache_forget c peer).2
  end.
Definition cache_run (c : DirectoryCache) (ops : list cache_op) : DirectoryCache :=
  foldl cache_step c ops.

(** What a cached entry promises: its freshness lies within both ceilings of
    its receipt. *)
Definition entry_clamped (local : N) (e : CacheEntry) : Prop :=
  ce_fresh_until_ms e ≤ ce_received_at_ms e + N.min local MAX_DIRECTORY_TTL_MS.

Record cache_inv (c : DirectoryCache) : Prop := {
  ci_bound : N.of_nat (size (dir_entries c)) ≤ dir_max_peers c;
  ci_max : 1 ≤ dir_max_peers c;
  ci_clamped : ∀ p e, dir_entries c !! p = Some e → entry_clamped (dir_local_ttl_ms c) e
}.

Lemma clamp_ttl_min a b : clamp_ttl a b = N.min a (N.min b MAX_DIRECTORY_TTL_MS).
Proof.
  unfold clamp_ttl. destruct (N.ltb_spec b MAX_DIRECTORY_TTL_MS);
    [destruct (N.ltb_spec a b)|destruct (N.ltb_spec a MAX_DIRECTORY_TTL_MS)]; lia.
Qed.

(** Making room only removes entries, and leaves room for the new peer. *)
Lemma make_room_spec c p now :
  cache_inv c →
  let c' := DirectoryCache_make_room c p now in
  dir_entries c' ⊆ dir_entries c ∧ dir_max_peers c' = dir_max_peers c ∧
  dir_local_ttl_ms c' = dir_local_ttl_ms c ∧
  N.of_nat (size (<[p := ()]> (const () <$> dir_entries c'))) ≤ dir_max_peers c.
Proof.
  intros [Hb Hm Hc] c'. unfold c', DirectoryCache_make_room.
  assert (∀ m : gmap TransportIdentity CacheEntry,
    (size (<[p := ()]> (const () <$> m)) ≤ 1 + size m)%nat) as Hins.
  { intros m. destruct (m !! p) eqn:E.
    - rw map_size_insert_Some; [rw map_size_fmap; lia|]. rw lookup_fmap E. by eexists.
    - rw map_size_insert_None; [by rw map_size_fmap|]. by rw lookup_fmap E. }
  case_bool_decide as Hp; simpl.
  { repeat split; try done. rw map_size_insert_Some; [by rw map_size_fmap|].
    rw lookup_fmap. by apply fmap_is_Some. }
  destruct (N.leb_spec (dir_max_peers c) (N.of_nat (size (dir_entries c)))) as [Hfull|Hroom].
  2:{ repeat split; try done. specialize (Hins (dir_entries c)). lia. }
  set (m := filter _ (dir_entries c)).
  assert (m ⊆ dir_entries c) as Hsub by apply map_filter_subseteq.
  destruct (min_by _ _) as [[o e]|] eqn:Emin; simpl.
  - case_match eqn:El; simpl; repeat split; try done.
    + etrans; [apply delete_subseteq|done].
    + apply min_by_elem, elem_of_btree_to_list in Emin. specialize (Hins (delete o m)).
      rw map_size_delete_Some in Hins; [|by eexists].
      assert (size m ≠ 0%nat).
      { intros Hz%map_size_empty_inv. by rw Hz lookup_empty in Emin. }
      pose proof (map_subseteq_size _ _ Hsub). lia.
    + simpl in El. apply N.leb_gt in El. fold m in El |- *. specialize (Hins m). lia.
  - apply min_by_None in Emin. fold m. repeat split; try done. specialize (Hins m).
    pose proof (length_btree_to_list m) as Hlen. rw Emin in Hlen. simpl in Hlen. lia.
Qed.

Lemma size_insert_shape {V} (m : gmap TransportIdentity V) p v :
  size (<[p := v]> m) = size (<[p := ()]> (const () <$> m)).
Proof.
  destruct (m !! p) eqn:E.
  - rw !map_size_insert_Some ?lookup_fmap ?E ?map_size_fmap //; by eexists.
  - by rw !map_size_insert_None ?lookup_fmap ?E ?map_size_fmap.
Qed.

Lemma insert_clamped c p v now e c' :
  DirectoryCache_insert c p v now = (e, c') →
  entry_clamped (dir_local_ttl_ms (DirectoryCache_make_room c p now)) e.
Proof.
  unfold DirectoryCache_insert, entry_clamped. intros [= <- _]. simpl.
  rw clamp_ttl_min. unfold sat_add. generalize u64_max. intros M. lia.
Qed.

Lemma cache_step_inv c op : cache_inv c → cache_inv (cache_step c op).
Proof.
  intros Hc. pose proof Hc as [Hb Hm Hcl]. destruct op as [p v now|ttl|p]; simpl.
  - destruct (make_room_spec c p now Hc) as (Hsub & Emax & Ettl & Hsize).
    pose proof (insert_clamped c p v now _ _ eq_refl) as He.
    unfold DirectoryCache_insert. split; simpl.
    + rw size_insert_shape Emax. done.
    + by rw Emax.
    + intros q e. rw lookup_insert. case_decide; [by intros [= <-]|]. intros Hq.
      rw Ettl. eapply Hcl, lookup_weaken; eauto.
  - split; simpl; [by rw map_size_fmap|done|]. intros p e. rw lookup_fmap.
    destruct (dir_entries c !! p) as [e0|] eqn:E; [|done]. simpl. intros [= <-].
    specialize (Hcl _ _ E). unfold entry_clamped, retime, sat_add in *. simpl.
    generalize u64_max. intros M. lia.
  - split; simpl; [|done|].
    + etrans; [|exact Hb]. pose proof (map_subseteq_size _ _ (delete_subseteq (dir_entries c) p)).
      lia.
    + intros q e. rw lookup_delete. case_decide; [done|]. apply Hcl.
Qed.

Lemma cache_run_inv c ops : cache_inv c → cache_inv (cache_run c ops).
Proof.
  revert c. induction ops as [|op ops IH]; intros c Hc; [done|]. by apply IH, cache_step_inv.
Qed.

(** over every history of insertions, TTL changes and removals the cache
    holds at most [max(max_peers, 1)] peers, and an entry it answers with is
    younger than the local TTL in force now and than five minutes, whatever
    TTL the remote asked for and whatever the local TTL was when the entry
    was received. *)
Theorem directory_cache_fresh (max_peers ttl : N) (ops : list cache_op) :
  let c := cache_run (DirectoryCache_new max_peers ttl) ops in
  N.of_nat (size (dir_entries c)) ≤ dir_max_peers c ∧
  ∀ peer now e, DirectoryCache_get c peer now = Some e →
    now < ce_received_at_ms e + N.min (dir_local_ttl_ms c) 300000.
Proof.
  intros c. destruct (cache_run_inv (DirectoryCache_new max_peers ttl) ops) as [Hb Hm Hc].
  { split; simpl; [|lia|done]. rw map_size_empty. lia. }
  fold c in Hb, Hm, Hc. split; [done|]. intros peer now e. unfold DirectoryCache_get.
  destruct (dir_entries c !! peer) as [e'|] eqn:E; [|done].
  destruct (N.ltb_spec now (ce_fresh_until_ms e')); [|done]. intros [= <-].
  specialize (Hc _ _ E). unfold entry_clamped, MAX_DIRECTORY_TTL_MS in Hc. lia.
Qed.

(** ** The responder's budget *)

Inductive budget_op :=
| DbReserve
| DbCharge (peer : TransportIdentity) (now : N)
| DbEnd
| DbSetLimits (q m now : N).

(** One operation, and whether it was a granted reservation. *)
Definition budget_step (b : DirectoryBudget) (op : budget_op) : bool * DirectoryBudget :=
  match op with
  | DbReserve => let '(r, b) := DirectoryBudget_reserve b in (is_ok r, b)
  | DbCharge peer now => (false, (DirectoryBudget_charge_rate b peer now).2)
  | DbEnd => (false, DirectoryBudget_end_exchange b)
  | DbSetLimits q m now => (false, (DirectoryBudget_set_limits b q m now).2)
  end.
Definition budget_run (b : DirectoryBudget) (ops : list budget_op) : DirectoryBudget :=
  foldl (λ b op, (budget_step b op).2) b ops.

Lemma budget_run_bounds b ops :
  db_inflight b ≤ 64 ∧ 1 ≤ db_max_inflight b ≤ 64 →
  db_inflight (budget_run b ops) ≤ 64 ∧ 1 ≤ db_max_inflight (budget_run b ops) ≤ 64.
Proof.
  revert b. induction ops as [|op ops IH]; intros b [H1 H2]; [done|]. apply IH. clear IH.
  destruct op as [|p t| |q m t]; simpl.
  - unfold DirectoryBudget_reserve.
    destruct (N.leb_spec (db_max_inflight b) (db_inflight b)); simpl; lia.
  - unfold DirectoryBudget_charge_rate. by destruct (IngressLimiter_admit _ _ _).
  - unfold sat_sub. lia.
  - unfold DirectoryBudget_set_limits, MAX_INFLIGHT_QUERIES. case_match; [done|].
    destruct (N.eqb_spec m 0), (N.ltb_spec 64 m); simpl; try done. lia.
Qed.

(** however often the limits are changed, at most 64 directory exchanges
    are ever in flight, the configured limit stays within 1 to 64, and a
    lowered limit admits no new exchange until enough of the running ones
    have ended. *)
Theorem directory_budget_bounds (now : N) (ops : list budget_op) :
  let b := budget_run (DirectoryBudget_with_defaults now) ops in
  db_inflight b ≤ 64 ∧ 1 ≤ db_max_inflight b ≤ 64 ∧
  (is_ok (DirectoryBudget_reserve b).1 = true ↔ db_inflight b < db_max_inflight b).
Proof.
  intros b. assert (db_inflight b ≤ 64 ∧ 1 ≤ db_max_inflight b ≤ 64) as [H1 H2].
  { apply budget_run_bounds. vm_compute. by repeat split. }
  split; [done|]. split; [done|]. unfold DirectoryBudget_reserve.
  destruct (N.leb_spec (db_max_inflight b) (db_inflight b)); simpl; split; try done; lia.
Qed.
