(* ===== verification/DirectInbound.v ===== *)
(** * Admission of a direct message

    [crates/transport/runtime/src/direct_inbound.rs]: the ten steps from a
    decoded frame to [AcceptedV2].  The context the Rust code borrows
    mutably is a record threaded through; SHA-256 is the parameter [sha]. *)
From S2P Require Import Prelude Ids Payload DirectV2 Trust Fingerprint Dedup Reservation Queues.
From S2P Require Import Registry Ingress.
Local Open Scope N_scope.

Record Clocks := MkClocks { monotonic_ms : N; wall_ms : N }.

Record PrefixContext := MkPrefixContext {
  pc_trust : PeerTrustPolicy;
  pc_ingress : IngressLimiter;
  pc_draining : bool
}.

Record AdmissionContext := MkAdmissionContext {
  ac_prefix : PrefixContext;
  ac_dedup : DedupCache;
  ac_reservations : ReservationMap;
  ac_registry : EndpointRegistry;
  ac_queues : EndpointQueues
}.

Inductive Refusal :=
| UntrustedPeer | Draining | RateLimited | Unfingerprintable | DuplicateConflict
| RefOverloaded | RefNoRoute (failure : ResolveFailure) | RefQueue (refusal : QueueRefusal).

Definition Refusal_to_wire (r : Refusal) : DirectRejectReason :=
  match r with
  | UntrustedPeer => UnauthorizedPeer
  | Draining => ShuttingDown
  | RateLimited | RefOverloaded => Overloaded
  | Unfingerprintable | DuplicateConflict => Malformed
  | RefNoRoute inner => ResolveFailure_to_wire inner
  | RefQueue inner => QueueRefusal_to_wire inner
  end.

Inductive Outcome :=
| Accepted (resolved_endpoint : EndpointId)
| OutDuplicateAccepted (resolved_endpoint : EndpointId)
| AttachedAsWaiter
| Refused (refusal : Refusal).

#[global] Instance Refusal_eq_dec : EqDecision Refusal.
Proof. solve_decision. Defined.
#[global] Instance Outcome_eq_dec : EqDecision Outcome.
Proof. solve_decision. Defined.

Definition admit_prefix (source_peer : TransportIdentity) (now_ms : N) (ctx : PrefixContext) :
    result unit Refusal * PrefixContext :=
  match PeerTrustPolicy_decide (pc_trust ctx) source_peer with
  | Denied _ => (Err UntrustedPeer, ctx)
  | Allowed =>
      if pc_draining ctx then (Err Draining, ctx)
      else
        let '(r, ingress) := IngressLimiter_admit (pc_ingress ctx) source_peer now_ms in
        let ctx := MkPrefixContext (pc_trust ctx) ingress (pc_draining ctx) in
        match r with
        | Err _ => (Err RateLimited, ctx)
        | Ok _ => (Ok (), ctx)
        end
  end.

Definition dedup_key (frame : DirectMessageV2) (source_peer : TransportIdentity) : DedupKey :=
  KeyDirect source_peer (dm_source_endpoint frame)
    (match dm_destination_endpoint frame with Some e => Explicit e | None => Default end)
    (dm_message_id frame).

(** The decision closure handed to [resolve_inbound]. *)
Definition policy_allows (trust : PeerTrustPolicy) (source_peer : TransportIdentity)
    (policy : EndpointTrustPolicy) : bool :=
  TrustDecision_is_allowed (PeerTrustPolicy_decide_for_endpoint trust source_peer policy).

(** The event queued for the resolved endpoint. *)
Definition direct_event (frame : DirectMessageV2) (source_peer : TransportIdentity)
    (resolved : EndpointId) (wall : N) : DirectEvent :=
  MkDirectEvent source_peer (dm_source_endpoint frame) resolved (dm_message_id frame)
    (dm_payload frame) wall.

Section Admit.
Context {sha : Sha256}.

Definition frame_fingerprint (payload : Payload) : result ContentFingerprint FingerprintError :=
  direct_content_fingerprint_v1 (MediaType_as_str <$> Payload_media_type payload)
    (Payload_bytes payload).

(** From step 7 on the key is held: every exit releases it. *)
Definition admit_owned (frame : DirectMessageV2) (source_peer : TransportIdentity)
    (clocks : Clocks) (key : DedupKey) (fingerprint : ContentFingerprint)
    (ctx : AdmissionContext) : Outcome * AdmissionContext :=
  let release queues dedup :=
    MkAdmissionContext (ac_prefix ctx) dedup
      (ReservationMap_release (ac_reservations ctx) key) (ac_registry ctx) queues in
  match EndpointRegistry_resolve_inbound (ac_registry ctx) (dm_destination_endpoint frame)
          (policy_allows (pc_trust (ac_prefix ctx)) source_peer) with
  | Err failure => (Refused (RefNoRoute failure), release (ac_queues ctx) (ac_dedup ctx))
  | Ok (resolved, _) =>
      let event := direct_event frame source_peer resolved (wall_ms clocks) in
      let '(r, queues) := EndpointQueues_push (ac_queues ctx) event in
      match r with
      | Err refusal => (Refused (RefQueue refusal), release queues (ac_dedup ctx))
      | Ok _ =>
          (Accepted resolved,
           release queues
             (DedupCache_record_accepted (ac_dedup ctx) key (RouteDirect resolved) fingerprint
                (monotonic_ms clocks)))
      end
  end.

Definition admit_structured (frame : DirectMessageV2) (source_peer : TransportIdentity)
    (clocks : Clocks) (ctx : AdmissionContext) : Outcome * AdmissionContext :=
  match frame_fingerprint (dm_payload frame) with
  | Err _ => (Refused Unfingerprintable, ctx)
  | Ok fingerprint =>
      let key := dedup_key frame source_peer in
      let '(admission, dedup) := DedupCache_admit (ac_dedup ctx) key fingerprint
                                   (monotonic_ms clocks) in
      let ctx := MkAdmissionContext (ac_prefix ctx) dedup (ac_reservations ctx)
                   (ac_registry ctx) (ac_queues ctx) in
      match admission with
      | DuplicateAccepted (RouteDirect resolved) => (OutDuplicateAccepted resolved, ctx)
      | DuplicateAccepted RouteBroadcast => (Refused DuplicateConflict, ctx)
      | Conflict => (Refused DuplicateConflict, ctx)
      | Fresh =>
          let '(r, reservations) := ReservationMap_acquire (ac_reservations ctx) key fingerprint in
          let ctx := MkAdmissionContext (ac_prefix ctx) (ac_dedup ctx) reservations
                       (ac_registry ctx) (ac_queues ctx) in
          match r with
          | Ok Waiter => (AttachedAsWaiter, ctx)
          | Err ResOverloaded => (Refused RefOverloaded, ctx)
          | Err ResConflict => (Refused DuplicateConflict, ctx)
          | Ok Owner => admit_owned frame source_peer clocks key fingerprint ctx
          end
      end
  end.

Definition admit_inbound (frame : DirectMessageV2) (source_peer : TransportIdentity)
    (clocks : Clocks) (ctx : AdmissionContext) : Outcome * AdmissionContext :=
  let '(r, prefix) := admit_prefix source_peer (monotonic_ms clocks) (ac_prefix ctx) in
  let ctx := MkAdmissionContext prefix (ac_dedup ctx) (ac_reservations ctx) (ac_registry ctx)
               (ac_queues ctx) in
  match r with
  | Err refusal => (Refused refusal, ctx)
  | Ok _ => admit_structured frame source_peer clocks ctx
  end.
End Admit.

(** ** The gates *)

Lemma admit_prefix_frame p now c r c' :
  admit_prefix p now c = (r, c') → pc_trust c' = pc_trust c ∧ pc_draining c' = pc_draining c.
Proof.
  unfold admit_prefix. destruct (PeerTrustPolicy_decide _ _); [|by intros [= <- <-]].
  destruct (pc_draining c) eqn:Ed; [by intros [= <- <-]|].
  destruct (IngressLimiter_admit _ _ _) as [[] l]; by intros [= <- <-].
Qed.

Lemma admit_prefix_ok p now c u c' :
  admit_prefix p now c = (Ok u, c') →
  PeerTrustPolicy_decide (pc_trust c) p = Allowed ∧ pc_draining c = false.
Proof.
  unfold admit_prefix. destruct (PeerTrustPolicy_decide _ _); [|done].
  by destruct (pc_draining c).
Qed.

(** Only the owner of a fresh key reaches the steps that change the queues:
    every other path leaves all but the prefix, the dedup cache and the
    reservations as they were. *)
Inductive admit_case {sha : Sha256} (f : DirectMessageV2) (p : TransportIdentity) (k : Clocks)
    (ctx : AdmissionContext) (o : Outcome) (ctx' : AdmissionContext) : Prop :=
| case_prefix (refusal : Refusal) (prefix : PrefixContext) :
    admit_prefix p (monotonic_ms k) (ac_prefix ctx) = (Err refusal, prefix) →
    o = Refused refusal →
    ctx' = MkAdmissionContext prefix (ac_dedup ctx) (ac_reservations ctx) (ac_registry ctx)
             (ac_queues ctx) →
    admit_case f p k ctx o ctx'
| case_answered (prefix : PrefixContext) (dedup : DedupCache) :
    admit_prefix p (monotonic_ms k) (ac_prefix ctx) = (Ok (), prefix) →
    (∀ e, o ≠ Accepted e) → o ≠ AttachedAsWaiter →
    ctx' = MkAdmissionContext prefix dedup (ac_reservations ctx) (ac_registry ctx)
             (ac_queues ctx) →
    admit_case f p k ctx o ctx'
| case_waiter (prefix : PrefixContext) (dedup : DedupCache) (rm : ReservationMap) :
    admit_prefix p (monotonic_ms k) (ac_prefix ctx) = (Ok (), prefix) →
    o = AttachedAsWaiter →
    ctx' = MkAdmissionContext prefix dedup rm (ac_registry ctx) (ac_queues ctx) →
    admit_case f p k ctx o ctx'
| case_owner (prefix : PrefixContext) (fp : ContentFingerprint) (dedup : DedupCache)
    (rm : ReservationMap) :
    admit_prefix p (monotonic_ms k) (ac_prefix ctx) = (Ok (), prefix) →
    frame_fingerprint (dm_payload f) = Ok fp →
    DedupCache_admit (ac_dedup ctx) (dedup_key f p) fp (monotonic_ms k) = (Fresh, dedup) →
    ReservationMap_acquire (ac_reservations ctx) (dedup_key f p) fp = (Ok Owner, rm) →
    admit_owned f p k (dedup_key f p) fp
      (MkAdmissionContext prefix dedup rm (ac_registry ctx) (ac_queues ctx)) = (o, ctx') →
    admit_case f p k ctx o ctx'.

(** A refused acquisition leaves the reservations alone. *)
Lemma acquire_err m k fp e m' : ReservationMap_acquire m k fp = (Err e, m') → m' = m.
Proof. unfold ReservationMap_acquire. repeat case_match; by intros [=]. Qed.

Lemma admit_inbound_cases {sha : Sha256} f p k ctx o ctx' :
  admit_inbound f p k ctx = (o, ctx') → admit_case f p k ctx o ctx'.
Proof.
  unfold admit_inbound. destruct (admit_prefix _ _ _) as [[[]|r] prefix] eqn:Ep.
  2:{ intros [= <- <-]. by eapply case_prefix. }
  unfold admit_structured. cbn [ac_dedup ac_prefix ac_reservations ac_registry ac_queues].
  destruct (frame_fingerprint _) as [fp|] eqn:Ef.
  2:{ intros [= <- <-]. by eapply case_answered. }
  destruct (DedupCache_admit _ _ _ _) as [[|[|e]|] dedup] eqn:Ed;
    try (intros [= <- <-]; by eapply case_answered).
  destruct (ReservationMap_acquire _ _ _) as [[[]|[]] rm] eqn:Ea.
  - intros Ho. by eapply case_owner.
  - intros [= <- <-]. by eapply case_waiter.
  - apply acquire_err in Ea as ->. intros [= <- <-]. by eapply case_answered.
  - apply acquire_err in Ea as ->. intros [= <- <-]. by eapply case_answered.
Qed.

Lemma push_ok q ev u q' :
  EndpointQueues_push q ev = (Ok u, q') →
  waiting q' (de_destination_endpoint ev) = waiting q (de_destination_endpoint ev) ++ [ev] ∧
  ∀ e, e ≠ de_destination_endpoint ev → eq_queues q' !! e = eq_queues q !! e.
Proof.
  unfold EndpointQueues_push, waiting. destruct (eq_queues q !! _) as [queue|] eqn:E; [|done].
  case_match; [done|]. intros [= <- <-]. simpl. rw lookup_insert_eq. split; [done|].
  intros e He. by rw lookup_insert_ne.
Qed.
Lemma push_err q ev r q' : EndpointQueues_push q ev = (Err r, q') → q' = q.
Proof. unfold EndpointQueues_push. repeat case_match; by intros [=]. Qed.

(** What the owner's steps do to each part of the context. *)
Lemma admit_owned_spec {sha : Sha256} f p k key fp ctx o ctx' :
  admit_owned f p k key fp ctx = (o, ctx') →
  ac_reservations ctx' = ReservationMap_release (ac_reservations ctx) key ∧
  ac_registry ctx' = ac_registry ctx ∧ ac_prefix ctx' = ac_prefix ctx ∧
  ((∃ e l, o = Accepted e ∧
      EndpointRegistry_resolve_inbound (ac_registry ctx) (dm_destination_endpoint f)
        (policy_allows (pc_trust (ac_prefix ctx)) p) = Ok (e, l) ∧
      EndpointQueues_push (ac_queues ctx) (direct_event f p e (wall_ms k)) =
        (Ok (), ac_queues ctx') ∧
      ac_dedup ctx' = DedupCache_record_accepted (ac_dedup ctx) key (RouteDirect e) fp
        (monotonic_ms k)) ∨
   (∃ r, o = Refused r ∧ ac_queues ctx' = ac_queues ctx ∧ ac_dedup ctx' = ac_dedup ctx ∧
      ((∃ failure, r = RefNoRoute failure) ∨ (∃ q, r = RefQueue q)))).
Proof.
  unfold admit_owned. destruct (EndpointRegistry_resolve_inbound _ _ _) as [[e l]|failure] eqn:Er.
  - destruct (EndpointQueues_push _ _) as [[[]|r] q] eqn:Eq; intros [= <- <-]; simpl.
    + repeat split; try done. left. by exists e, l.
    + apply push_err in Eq as ->. repeat split; try done. right. eexists. by eauto 10.
  - intros [= <- <-]. simpl. repeat split; try done. right. eexists. by eauto 10.
Qed.

(** ** Properties *)

(** C4: acceptance is queueing.  A message is answered [Accepted] only when
    the peer is trusted by the profile and by the endpoint's inbound policy,
    the node is not draining, the endpoint is the one addressed (or the
    default, when none was), is configured, enabled and leased; and then
    exactly one event, carrying the message and the wall-clock receipt time,
    is appended to that endpoint's queue and no other queue changes.  Every
    other answer leaves every queue as it was. *)
Theorem accepted_iff_queued (sha : Sha256) (f : DirectMessageV2) (p : TransportIdentity)
    (k : Clocks) (ctx ctx' : AdmissionContext) (o : Outcome) :
  admit_inbound f p k ctx = (o, ctx') →
  (∀ e, o = Accepted e →
     PeerTrustPolicy_decide (pc_trust (ac_prefix ctx)) p = Allowed ∧
     pc_draining (ac_prefix ctx) = false ∧
     (dm_destination_endpoint f = Some e ∨
      dm_destination_endpoint f = None ∧
      er_default_direct_endpoint (ac_registry ctx) = Some e) ∧
     is_Some (er_leases (ac_registry ctx) !! e) ∧
     (∃ c, er_endpoints (ac_registry ctx) !! e = Some c ∧ re_enabled c = true ∧
           EndpointTrustPolicy_admits (re_inbound c) p = true) ∧
     waiting (ac_queues ctx') e = waiting (ac_queues ctx) e ++ [direct_event f p e (wall_ms k)] ∧
     ∀ e', e' ≠ e → eq_queues (ac_queues ctx') !! e' = eq_queues (ac_queues ctx) !! e') ∧
  ((∀ e, o ≠ Accepted e) → ac_queues ctx' = ac_queues ctx).
Proof.
  intros H. destruct (admit_inbound_cases _ _ _ _ _ _ H)
    as [r prefix Hp -> ->|prefix dedup Hp Hna _ ->|prefix dedup rm Hp -> ->|prefix fp dedup rm Hp Hf Hd Ha Ho];
    try (split; [intros e; naive_solver|done]).
  apply admit_owned_spec in Ho as (_ & _ & _ & [(e & l & -> & Hr & Hq & _)|(r & -> & Hq & _)]);
    [|split; [done|]; intros _; by rw Hq].
  split; [|intros Hne; by destruct (Hne e)]. intros e' [= <-]. simpl in *.
  destruct (admit_prefix_ok _ _ _ _ _ Hp) as [Ht Hdr].
  destruct (admit_prefix_frame _ _ _ _ _ Hp) as [Htr _]. rw Htr in Hr.
  apply resolve_ok_iff in Hr as (Hreq & Hl & c & Hc & He & Hok).
  apply push_ok in Hq as [Hq Hother]. simpl in Hq, Hother.
  split; [done|]. split; [done|]. split; [done|]. split; [by eexists|]. split; [|done].
  exists c. split; [done|]. split; [done|]. revert Hok. unfold policy_allows,
    PeerTrustPolicy_decide_for_endpoint. rw Ht. by case_match.
Qed.

(** A running node: a trusted peer, one leased endpoint with an open queue. *)
Definition demo_source : TransportIdentity := MkTransportIdentity (bs "peer-a").
Definition demo_trust : PeerTrustPolicy := MkPeerTrustPolicy {[demo_source]} None.
Definition demo_leased : EndpointRegistry :=
  (EndpointRegistry_claim demo_registry (MkEndpointId (bs "human")) (demo_session 1) (bs "k")
     (demo_epoch 1)).2.
Definition demo_context : AdmissionContext :=
  MkAdmissionContext
    (MkPrefixContext demo_trust (IngressLimiter_with_defaults 0) false)
    (DedupCache_new 8 1000) (ReservationMap_new 4 4) demo_leased
    (EndpointQueues_open EndpointQueues_new (MkEndpointId (bs "human")) 2).
Definition demo_frame : DirectMessageV2 :=
  MkDirectMessageV2 (MkMessageId (to_be 16 7)) 5 (MkEndpointId (bs "cli")) None
    (MkPayload None (bs "hi")).
Definition demo_admitted : Outcome * AdmissionContext :=
  admit_inbound (sha := demo_sha) demo_frame demo_source (MkClocks 10 99) demo_context.
Example demo_admitted_accepts : demo_admitted.1 = Accepted (MkEndpointId (bs "human")).
Proof. by vm_compute. Qed.

Lemma accepted_iff_queued_witness :
  waiting (ac_queues demo_admitted.2) (MkEndpointId (bs "human")) =
  waiting (ac_queues demo_context) (MkEndpointId (bs "human")) ++
  [direct_event demo_frame demo_source (MkEndpointId (bs "human")) 99].
Proof.
  apply (proj1 (accepted_iff_queued demo_sha demo_frame demo_source (MkClocks 10 99) demo_context
    demo_admitted.2 demo_admitted.1 ltac:(apply surjective_pairing)) (MkEndpointId (bs "human"))).
  by vm_compute.
Defined.

(** C5: nothing is left behind.  Whatever the answer, the registry and the
    trust policy are untouched; unless the message was attached to one
    already in flight, the reservation map ends exactly as it began, so no
    exit leaks budget; and a peer that is not trusted, or is answered while
    the node drains, changes nothing at all, while a rate-limited one changes
    only the limiter. *)
Theorem admission_leaves_no_residue (sha : Sha256) (f : DirectMessageV2) (p : TransportIdentity)
    (k : Clocks) (ctx ctx' : AdmissionContext) (o : Outcome) :
  admit_inbound f p k ctx = (o, ctx') → res_inv (ac_reservations ctx) →
  ac_registry ctx' = ac_registry ctx ∧
  pc_trust (ac_prefix ctx') = pc_trust (ac_prefix ctx) ∧
  (o ≠ AttachedAsWaiter → ac_reservations ctx' = ac_reservations ctx) ∧
  (o = Refused UntrustedPeer ∨ o = Refused Draining → ctx' = ctx) ∧
  (o = Refused RateLimited → ac_dedup ctx' = ac_dedup ctx ∧
     ac_reservations ctx' = ac_reservations ctx ∧ ac_queues ctx' = ac_queues ctx).
Proof.
  intros H Hres. pose proof (admit_inbound_cases _ _ _ _ _ _ H) as Hcase.
  assert (∀ prefix, admit_prefix p (monotonic_ms k) (ac_prefix ctx) = (Ok (), prefix) →
    o ≠ Refused UntrustedPeer ∧ o ≠ Refused Draining ∧ o ≠ Refused RateLimited) as Hnot.
  { intros prefix Hp. revert H. unfold admit_inbound. rw Hp. simpl.
    unfold admit_structured, admit_owned.
    repeat case_match; intros [= <- <-]; done. }
  destruct Hcase as [r prefix Hp -> ->|prefix dedup Hp _ _ ->|prefix dedup rm Hp -> ->
    |prefix fp dedup rm Hp Hf Hd Ha Ho].
  - destruct (admit_prefix_frame _ _ _ _ _ Hp) as [Ht _]. simpl.
    split; [done|]. split; [done|]. split; [done|]. split; [|done].
    intros Hor. assert (prefix = ac_prefix ctx) as ->; [|by destruct ctx].
    revert Hp. unfold admit_prefix. repeat case_match; intros [=]; subst; try done;
      by destruct Hor.
  - destruct (Hnot _ Hp) as (? & ? & ?).
    destruct (admit_prefix_frame _ _ _ _ _ Hp) as [Ht _]. simpl.
    repeat split; try done. by intros [].
  - destruct (admit_prefix_frame _ _ _ _ _ Hp) as [Ht _]. simpl.
    repeat split; try done. by intros [].
  - destruct (Hnot _ Hp) as (? & ? & ?).
    destruct (admit_prefix_frame _ _ _ _ _ Hp) as [Ht _].
    apply admit_owned_spec in Ho as (Hr & Hreg & Hpre & _). simpl in *.
    split; [done|]. split; [by rw Hpre|]. split; [|split; [by intros []|done]].
    intros _. rw Hr. by eapply acquire_release.
Qed.

Lemma admission_leaves_no_residue_witness :
  ac_reservations demo_admitted.2 = ac_reservations demo_context.
Proof.
  refine (proj1 (proj2 (proj2 (admission_leaves_no_residue demo_sha demo_frame demo_source
    (MkClocks 10 99) demo_context demo_admitted.2 demo_admitted.1
    ltac:(apply surjective_pairing) (new_res_inv 4 4)))) _).
  by vm_compute.
Defined.

(** C6: a retry replays the first answer.  Once a message was accepted for
    endpoint [e], any later copy of it from the same peer (its [sent_at_ms]
    may differ) that passes the prefix gates inside the dedup window is
    answered [DuplicateAccepted e] and is not queued again, whatever happened
    meanwhile to the registry, the default endpoint, the queues and the
    reservations, as long as fewer than [max_entries] other messages went
    through the cache. *)
Theorem retry_replays_route (sha : Sha256) (f f2 : DirectMessageV2) (p : TransportIdentity)
    (k k2 : Clocks) (ctx ctx1 ctx2 : AdmissionContext) (e : EndpointId) (ops : list dedup_op) :
  dedup_inv (ac_dedup ctx) →
  admit_inbound f p k ctx = (Accepted e, ctx1) →
  ac_dedup ctx2 = dedup_run (ac_dedup ctx1) ops →
  Forall (λ o, sat_sub (op_now o) (monotonic_ms k) < dc_ttl_ms (ac_dedup ctx)) ops →
  others (dedup_key f p) ops < dc_max_entries (ac_dedup ctx) →
  sat_sub (monotonic_ms k2) (monotonic_ms k) < dc_ttl_ms (ac_dedup ctx) →
  (dm_message_id f2, dm_source_endpoint f2, dm_destination_endpoint f2, dm_payload f2) =
  (dm_message_id f, dm_source_endpoint f, dm_destination_endpoint f, dm_payload f) →
  (admit_prefix p (monotonic_ms k2) (ac_prefix ctx2)).1 = Ok () →
  (admit_inbound f2 p k2 ctx2).1 = OutDuplicateAccepted e ∧
  ac_queues (admit_inbound f2 p k2 ctx2).2 = ac_queues ctx2.
Proof.
  intros Hinv H Hd2 Hops Hoth Hnow [= Hid Hsrc Hdst Hpay] Hp2.
  destruct (admit_inbound_cases _ _ _ _ _ _ H)
    as [? ? ? ? ?|? ? ? Hna _ ?|? ? ? ? ? ?|prefix fp dedup rm Hp Hf Hd Ha Ho];
    [done|by destruct (Hna e)|done|].
  apply admit_owned_spec in Ho as (_ & _ & _ & [(e' & l & [= <-] & _ & _ & Hrec)|(r & ? & _)]);
    [|done].
  simpl in Hrec. unfold admit_inbound.
  destruct (admit_prefix p (monotonic_ms k2) (ac_prefix ctx2)) as [r prefix2] eqn:Ep2.
  simpl in Hp2. subst r. unfold admit_structured. simpl.
  assert (dedup_key f2 p = dedup_key f p) as -> by (unfold dedup_key; by rw Hid Hsrc Hdst).
  rw Hpay Hf Hd2 Hrec.
  pose proof (accepted_then_duplicate (ac_dedup ctx) (dedup_key f p) (RouteDirect e) fp fp
    (monotonic_ms k) (monotonic_ms k2) ops Hinv ltac:(by rw Hd) Hops Hnow Hoth) as Hdup.
  rw Hd bool_decide_eq_true_2 // in Hdup. simpl in Hdup.
  rw [DedupCache_admit _ _ _ _]surjective_pairing Hdup. done.
Qed.

Lemma retry_replays_route_witness :
  let ctx2 := MkAdmissionContext (ac_prefix demo_admitted.2)
    (dedup_run (ac_dedup demo_admitted.2)
      [OpRecord (demo_key 2) RouteBroadcast (demo_fp 2) 500])
    (ReservationMap_new 1 1) (EndpointRegistry_new ∅ None) EndpointQueues_new in
  let f2 := MkDirectMessageV2 (dm_message_id demo_frame) 77 (dm_source_endpoint demo_frame)
    (dm_destination_endpoint demo_frame) (dm_payload demo_frame) in
  (admit_inbound (sha := demo_sha) f2 demo_source (MkClocks 900 1000) ctx2).1 =
  OutDuplicateAccepted (MkEndpointId (bs "human")).
Proof.
  intros ctx2 f2.
  refine (proj1 (retry_replays_route demo_sha demo_frame f2 demo_source (MkClocks 10 99)
    (MkClocks 900 1000) demo_context demo_admitted.2 ctx2 (MkEndpointId (bs "human"))
    [OpRecord (demo_key 2) RouteBroadcast (demo_fp 2) 500] (new_inv 8 1000) _ _ _ _ _ _ _)).
  - transitivity (demo_admitted.1, demo_admitted.2); [apply surjective_pairing|].
    by rw demo_admitted_accepts.
  - done.
  - repeat constructor; by vm_compute.
  - by vm_compute.
  - by vm_compute.
  - done.
  - by vm_compute.
Defined.

(** What the peer is told: the endpoint a message went to, that it waits for
    its twin, or a coarse code. *)
Inductive wire_answer :=
| WireAccepted (e : EndpointId)
| WireWaits
| WireRejected (reason : DirectRejectReason).
Definition answer (o : Outcome) : wire_answer :=
  match o with
  | Accepted e | OutDuplicateAccepted e => WireAccepted e
  | AttachedAsWaiter => WireWaits
  | Refused r => WireRejected (Refusal_to_wire r)
  end.

(** The two answers that depend on local endpoint state by design: delivery,
    and a full queue of an endpoint that is attended. *)
Definition delivers_or_full (o : Outcome) : bool :=
  match o with Accepted _ | Refused (RefQueue (QFull _)) => true | _ => false end.

(** C7: the protocol is no endpoint oracle.  Take two nodes that differ only
    in their endpoints: what is configured, enabled, advertised, leased, which
    policies narrow it and which queues are open.  Unless one of them delivers
    the message or holds a full queue for it, the peer is told exactly the
    same thing by both: an unknown, disabled, unattended or policy-denied
    endpoint cannot be told apart. *)
Theorem no_endpoint_oracle (sha : Sha256) (f : DirectMessageV2) (p : TransportIdentity)
    (k : Clocks) (ctx1 ctx2 : AdmissionContext) :
  ac_prefix ctx1 = ac_prefix ctx2 → ac_dedup ctx1 = ac_dedup ctx2 →
  ac_reservations ctx1 = ac_reservations ctx2 →
  let o1 := (admit_inbound f p k ctx1).1 in
  let o2 := (admit_inbound f p k ctx2).1 in
  delivers_or_full o1 = false → delivers_or_full o2 = false → answer o1 = answer o2.
Proof.
  intros Hp Hd Hr. unfold admit_inbound. rw Hp.
  destruct (admit_prefix _ _ _) as [[[]|r] prefix]; [|done].
  unfold admit_structured. cbn [ac_dedup ac_prefix ac_reservations ac_registry ac_queues].
  rw Hd Hr. destruct (frame_fingerprint _) as [fp|]; [|done].
  destruct (DedupCache_admit _ _ _ _) as [[|[|e]|] dedup]; try done.
  destruct (ReservationMap_acquire _ _ _) as [[[]|[]] rm]; try done.
  assert (∀ key ctx, let o := (admit_owned f p k key fp ctx).1 in
    delivers_or_full o = false → answer o = WireRejected NoRoute) as Howned.
  { intros key ctx. unfold admit_owned.
    destruct (EndpointRegistry_resolve_inbound _ _ _) as [[e l]|failure]; [|done].
    destruct (EndpointQueues_push _ _) as [[[]|[b|]] q]; done. }
  intros H1 H2. by rw !Howned.
Qed.

Lemma no_endpoint_oracle_witness :
  let with_endpoints r q := MkAdmissionContext (ac_prefix demo_context) (ac_dedup demo_context)
    (ac_reservations demo_context) r q in
  answer (admit_inbound (sha := demo_sha) demo_frame demo_source (MkClocks 10 99)
    (with_endpoints demo_registry EndpointQueues_new)).1 =
  answer (admit_inbound (sha := demo_sha) demo_frame demo_source (MkClocks 10 99)
    (with_endpoints (EndpointRegistry_new ∅ None) (ac_queues demo_context))).1.
Proof.
  intros w. apply (no_endpoint_oracle demo_sha demo_frame demo_source (MkClocks 10 99)
    (w demo_registry EndpointQueues_new) (w (EndpointRegistry_new ∅ None) (ac_queues demo_context)));
    by vm_compute.
Defined.
