(* ===== verification/BroadcastInbound.v ===== *)
(** * Admission of a broadcast

    [crates/transport/runtime/src/broadcast_inbound.rs]: the verdict the
    mesh is owed ([classify_broadcast]), and local delivery to every joined
    session, for a message from the mesh ([admit_broadcast]) and for one a
    local session published ([admit_local_broadcast]). *)
From S2P Require Import Prelude Ids Payload DirectV2 BroadcastV1 Trust Fingerprint Dedup Reservation.
From S2P Require Import Queues Registry Ingress DirectInbound.
Local Open Scope N_scope.

Inductive ProtocolVerdict := VAccept (frame : BroadcastMessageV1) | VIgnore | VReject.

Inductive BroadcastAdmission :=
| Delivered (sessions : list bytes) (dropped : list (bytes * SessionDrop))
| NobodyJoined
| BRefused (refusal : Refusal)
| BDuplicate
| BConflict
| BUnfingerprintable.

Definition classify_broadcast (raw : bytes) (limit : N) (source : TransportIdentity)
    (trust : PeerTrustPolicy) : ProtocolVerdict :=
  match BroadcastMessageV1_decode raw limit with
  | Err _ => VReject
  | Ok frame =>
      match PeerTrustPolicy_decide trust source with
      | Denied _ => VIgnore
      | Allowed => VAccept frame
      end
  end.

Record LocalContext := MkLocalContext {
  lc_dedup : DedupCache;
  lc_subs : SubscriptionRegistry;
  lc_queues : SessionQueues
}.
Record BroadcastContext := MkBroadcastContext {
  bc_prefix : PrefixContext;
  bc_dedup : DedupCache;
  bc_subs : SubscriptionRegistry;
  bc_queues : SessionQueues
}.

(** The delivery loop: what each subscriber's push answered, in order. *)
Fixpoint fan_out (exclude : option bytes) (event : BroadcastEvent) (subscribers : list bytes)
    (sessions : list bytes) (dropped : list (bytes * SessionDrop)) (queues : SessionQueues) :
    list bytes * list (bytes * SessionDrop) * SessionQueues :=
  match subscribers with
  | [] => (sessions, dropped, queues)
  | session :: subscribers =>
      if bool_decide (Some session = exclude)
      then fan_out exclude event subscribers sessions dropped queues
      else
        let '(r, queues) := SessionQueues_push queues session event in
        match r with
        | Ok Queued => fan_out exclude event subscribers (sessions ++ [session]) dropped queues
        | Ok (DroppedOldest bound) =>
            fan_out exclude event subscribers (sessions ++ [session])
              (dropped ++ [(session, SFull bound)]) queues
        | Err drop =>
            fan_out exclude event subscribers sessions (dropped ++ [(session, drop)]) queues
        end
  end.

Definition broadcast_key (frame : BroadcastMessageV1) (channel : ChannelId)
    (source : TransportIdentity) : DedupKey :=
  KeyBroadcast source channel (bm_message_id frame).

Definition broadcast_event (frame : BroadcastMessageV1) (channel : ChannelId)
    (source : TransportIdentity) (wall : N) : BroadcastEvent :=
  MkBroadcastEvent source channel (bm_message_id frame) (bm_payload frame) wall.

Section Broadcast.
Context {sha : Sha256}.

Definition admit_local_broadcast (frame : BroadcastMessageV1) (channel : ChannelId)
    (source : TransportIdentity) (clocks : Clocks) (exclude : option bytes)
    (ctx : LocalContext) : BroadcastAdmission * LocalContext :=
  match frame_fingerprint (bm_payload frame) with
  | Err _ => (BUnfingerprintable, ctx)
  | Ok fingerprint =>
      let key := broadcast_key frame channel source in
      let '(admission, dedup) :=
        DedupCache_admit (lc_dedup ctx) key fingerprint (monotonic_ms clocks) in
      match admission with
      | DuplicateAccepted _ => (BDuplicate, MkLocalContext dedup (lc_subs ctx) (lc_queues ctx))
      | Conflict => (BConflict, MkLocalContext dedup (lc_subs ctx) (lc_queues ctx))
      | Fresh =>
          let subscribers := SubscriptionRegistry_subscribers (lc_subs ctx) channel in
          let recorded :=
            DedupCache_record_accepted dedup key RouteBroadcast fingerprint
              (monotonic_ms clocks) in
          if bool_decide (subscribers = [])
          then (NobodyJoined, MkLocalContext recorded (lc_subs ctx) (lc_queues ctx))
          else
            let event := broadcast_event frame channel source (wall_ms clocks) in
            let '(sessions, dropped, queues) :=
              fan_out exclude event subscribers [] [] (lc_queues ctx) in
            (Delivered sessions dropped, MkLocalContext recorded (lc_subs ctx) queues)
      end
  end.

Definition admit_broadcast (frame : BroadcastMessageV1) (channel : ChannelId)
    (source : TransportIdentity) (clocks : Clocks) (ctx : BroadcastContext) :
    BroadcastAdmission * BroadcastContext :=
  let '(r, prefix) := admit_prefix source (monotonic_ms clocks) (bc_prefix ctx) in
  match r with
  | Err refusal =>
      (BRefused refusal, MkBroadcastContext prefix (bc_dedup ctx) (bc_subs ctx) (bc_queues ctx))
  | Ok _ =>
      let '(o, l) :=
        admit_local_broadcast frame channel source clocks None
          (MkLocalContext (bc_dedup ctx) (bc_subs ctx) (bc_queues ctx)) in
      (o, MkBroadcastContext prefix (lc_dedup l) (lc_subs l) (lc_queues l))
  end.
End Broadcast.

(** ** The fan-out *)

(** One session's queue after one push. *)
Definition push_one (event : BroadcastEvent) (queue : Queue BroadcastEvent) :
    Queue BroadcastEvent :=
  MkQueue ((if q_bound queue <=? len (q_events queue) then tail (q_events queue)
            else q_events queue) ++ [event]) (q_bound queue).

Lemma push_lookup q s ev s' :
  sq_queues (SessionQueues_push q s ev).2 !! s' =
  if decide (s = s') then push_one ev <$> (sq_queues q !! s') else sq_queues q !! s'.
Proof.
  unfold SessionQueues_push, push_one. destruct (sq_queues q !! s) as [queue|] eqn:E.
  - destruct (_ <=? _) eqn:El; simpl; rw lookup_insert; case_decide; subst; try done;
      by rw E /= El.
  - case_decide; subst; [by rw E|done].
Qed.

(** What one push to [s] reports as lost. *)
Definition drop_report (q : SessionQueues) (s : bytes) : option (bytes * SessionDrop) :=
  match sq_queues q !! s with
  | None => Some (s, SNotOpen)
  | Some queue =>
      if q_bound queue <=? len (q_events queue) then Some (s, SFull (q_bound queue)) else None
  end.
(** The subscribers a broadcast is offered to. *)
Definition targets (exclude : option bytes) (subs : list bytes) : list bytes :=
  filter (λ s, Some s ≠ exclude) subs.

Lemma filter_ext_in {A} (P Q : A → Prop) `{!∀ x, Decision (P x), !∀ x, Decision (Q x)}
    (l : list A) : (∀ x, x ∈ l → P x ↔ Q x) → filter P l = filter Q l.
Proof.
  induction l as [|x l IH]; intros Hall; [done|]. rewrite !filter_cons.
  destruct (Hall x ltac:(by left)) as [H1 H2].
  rewrite IH; [|intros y Hy; apply Hall; by right]. do 2 case_decide; tauto.
Qed.
Lemma omap_ext_in {A B} (f g : A → option B) (l : list A) :
  (∀ x, x ∈ l → f x = g x) → omap f l = omap g l.
Proof.
  intros Hall. by apply list_omap_ext, Forall_Forall2_diag, Forall_forall.
Qed.

(** Every session but the excluded one gets exactly one copy: queues of
    sessions outside the list are untouched, and the report accounts for every
    one of them. *)
Lemma fan_out_spec exclude ev subs ses drp q ses' drp' q' :
  NoDup subs → fan_out exclude ev subs ses drp q = (ses', drp', q') →
  (∀ s, sq_queues q' !! s =
     if bool_decide (s ∈ targets exclude subs) then push_one ev <$> (sq_queues q !! s)
     else sq_queues q !! s) ∧
  ses' = ses ++ filter (λ s, is_Some (sq_queues q !! s)) (targets exclude subs) ∧
  drp' = drp ++ omap (drop_report q) (targets exclude subs).
Proof.
  intros Hnd. revert ses drp q. induction subs as [|x subs IH]; intros ses drp q; simpl.
  { intros [= <- <- <-]. rw !app_nil_r. done. }
  apply NoDup_cons in Hnd as [Hx Hnd]. unfold targets in *. case_bool_decide as He.
  { rw filter_cons_False; [by apply IH|]. tauto. }
  rw filter_cons_True //. set (ts := filter _ subs) in *.
  assert (x ∉ ts) as Hxt by (unfold ts; rw list_elem_of_filter; tauto).
  pose proof (push_lookup q x ev) as Hpush.
  destruct (SessionQueues_push q x ev) as [r q1] eqn:Eq. simpl in Hpush.
  assert (∀ s, s ∈ ts → sq_queues q1 !! s = sq_queues q !! s) as Hsame.
  { intros s Hs. rw Hpush decide_False //. by intros ->. }
  assert (∀ ses drp, fan_out exclude ev subs ses drp q1 = (ses', drp', q') →
    (∀ s, sq_queues q' !! s = if bool_decide (s ∈ x :: ts)
       then push_one ev <$> (sq_queues q !! s) else sq_queues q !! s) ∧
    ses' = ses ++ filter (λ s, is_Some (sq_queues q !! s)) ts ∧
    drp' = drp ++ omap (drop_report q) ts) as Hrest.
  { intros ses0 drp0 (H1 & -> & ->)%(IH Hnd). split; [|split].
    - intros s. rw H1 Hpush. destruct (decide (x = s)) as [->|Hne].
      + rw bool_decide_eq_false_2 // bool_decide_eq_true_2 //. by left.
      + by rw (bool_decide_ext (s ∈ x :: ts) (s ∈ ts)); [|set_solver].
    - f_equal. apply filter_ext_in. intros s Hs. by rw Hsame.
    - f_equal. apply omap_ext_in. intros s Hs. unfold drop_report. by rw Hsame. }
  revert Eq. unfold SessionQueues_push. simpl. unfold drop_report at 1.
  destruct (sq_queues q !! x) as [queue|] eqn:E.
  - rw filter_cons_True; [|by rw E; eexists].
    destruct (_ <=? _); intros [= <- _] (H1 & -> & ->)%Hrest; by rw -?app_assoc.
  - rw filter_cons_False; [|by rw E => -[]].
    intros [= <- _] (H1 & -> & ->)%Hrest. by rw -app_assoc.
Qed.

Lemma NoDup_subscribers r c : NoDup (SubscriptionRegistry_subscribers r c).
Proof.
  unfold SubscriptionRegistry_subscribers. destruct (_ !! _); [|constructor].
  unfold bset_to_list. rewrite -> merge_sort_Permutation. apply NoDup_elements.
Qed.
Lemma elem_of_subscribers r c s :
  s ∈ SubscriptionRegistry_subscribers r c ↔ SubscriptionRegistry_may_publish r c s = true.
Proof.
  unfold SubscriptionRegistry_may_publish, SubscriptionRegistry_subscribers.
  destruct (_ !! _); [|by rw elem_of_nil]. rw bool_decide_eq_true. unfold bset_to_list.
  rewrite -> merge_sort_Permutation. by rw elem_of_elements.
Qed.

(** Only a fresh message reaches the queues, and it is recorded. *)
Lemma local_broadcast_fresh {sha : Sha256} f c p k ex ctx o ctx' :
  admit_local_broadcast f c p k ex ctx = (o, ctx') →
  lc_subs ctx' = lc_subs ctx ∧
  ((∃ fp dedup, frame_fingerprint (bm_payload f) = Ok fp ∧
      DedupCache_admit (lc_dedup ctx) (broadcast_key f c p) fp (monotonic_ms k) = (Fresh, dedup) ∧
      lc_dedup ctx' = DedupCache_record_accepted dedup (broadcast_key f c p) RouteBroadcast fp
        (monotonic_ms k) ∧
      ((o = NobodyJoined ∧ lc_queues ctx' = lc_queues ctx) ∨
       (∃ ses drp, o = Delivered ses drp ∧
          fan_out ex (broadcast_event f c p (wall_ms k))
            (SubscriptionRegistry_subscribers (lc_subs ctx) c) [] [] (lc_queues ctx) =
          (ses, drp, lc_queues ctx')))) ∨
   ((o = BUnfingerprintable ∨ o = BDuplicate ∨ o = BConflict) ∧ lc_queues ctx' = lc_queues ctx)).
Proof.
  unfold admit_local_broadcast. destruct (frame_fingerprint _) as [fp|] eqn:Ef.
  2:{ intros [= <- <-]. split; [done|]. right. tauto. }
  destruct (DedupCache_admit _ _ _ _) as [[|r|] dedup] eqn:Ed.
  - case_bool_decide.
    + intros [= <- <-]. split; [done|]. left. exists fp, dedup. naive_solver.
    + destruct (fan_out _ _ _ _ _ _) as [[ses drp] q] eqn:Eq. intros [= <- <-].
      split; [done|]. left. exists fp, dedup. split; [done|]. split; [done|]. split; [done|].
      right. by exists ses, drp.
  - intros [= <- <-]. split; [done|]. right. tauto.
  - intros [= <- <-]. split; [done|]. right. tauto.
Qed.

(** C36: a delivered broadcast reaches every session that joined the channel,
    the publisher's own apart, and nobody else: each such session with an
    open queue gets exactly one copy at the end of its queue, stamped with
    one receipt time, losing its own oldest event if it was full; every other
    queue is untouched; the sessions reported as served are exactly those,
    and every loss is reported with its session.  An answer other than
    [Delivered] changes no queue. *)
Theorem broadcast_fan_out (sha : Sha256) (f : BroadcastMessageV1) (c : ChannelId)
    (p : TransportIdentity) (k : Clocks) (ex : option bytes) (ctx ctx' : LocalContext)
    (o : BroadcastAdmission) :
  admit_local_broadcast f c p k ex ctx = (o, ctx') →
  (∀ ses drp, o = Delivered ses drp →
     let target s := SubscriptionRegistry_may_publish (lc_subs ctx) c s = true ∧ Some s ≠ ex in
     let ev := broadcast_event f c p (wall_ms k) in
     (∀ s, target s → sq_queues (lc_queues ctx') !! s =
             push_one ev <$> (sq_queues (lc_queues ctx) !! s)) ∧
     (∀ s, ¬ target s → sq_queues (lc_queues ctx') !! s = sq_queues (lc_queues ctx) !! s) ∧
     (∀ s, s ∈ ses ↔ target s ∧ SessionQueues_is_open (lc_queues ctx) s = true) ∧
     (∀ s d, (s, d) ∈ drp ↔ target s ∧ drop_report (lc_queues ctx) s = Some (s, d))) ∧
  ((∀ ses drp, o ≠ Delivered ses drp) → lc_queues ctx' = lc_queues ctx).
Proof.
  intros H. apply local_broadcast_fresh in H as [_ [(fp & dedup & _ & _ & _ &
    [[-> Hq]|(ses & drp & -> & Hf)])|[Ho Hq]]];
    [by split|split|split; [by destruct Ho as [->|[->| ->]]|done]];
    [|intros Hne; by destruct (Hne ses drp)].
  intros ses' drp' [= <- <-] target ev.
  destruct (fan_out_spec _ _ _ _ _ _ _ _ _ (NoDup_subscribers _ _) Hf) as (H1 & -> & ->).
  assert (∀ s, s ∈ targets ex (SubscriptionRegistry_subscribers (lc_subs ctx) c) ↔ target s) as Ht.
  { intros s. unfold targets, target. rw list_elem_of_filter elem_of_subscribers. tauto. }
  split; [|split; [|split]].
  - intros s Hs%Ht. by rw H1 bool_decide_eq_true_2.
  - intros s Hs. rw -Ht in Hs. by rw H1 bool_decide_eq_false_2.
  - intros s. simpl. rw list_elem_of_filter Ht. unfold SessionQueues_is_open.
    rw bool_decide_eq_true. tauto.
  - intros s d. simpl. rw list_elem_of_omap. setoid_rewrite Ht. split.
    + intros (s' & Hs' & Hr). assert (s' = s) as ->; [|done]. revert Hr. unfold drop_report.
      case_match; [case_match|]; by intros [= -> _].
    + intros [Hs Hr]. by exists s.
Qed.

Definition demo_local : LocalContext :=
  MkLocalContext (DedupCache_new 8 1000)
    (sub_run SubscriptionRegistry_default
       [SubJoin (MkChannelId (bs "general")) (bs "a"); SubJoin (MkChannelId (bs "general")) (bs "b")])
    (SessionQueues_open (SessionQueues_open SessionQueues_new (bs "a") 2) (bs "b") 2).
Definition demo_bframe : BroadcastMessageV1 :=
  MkBroadcastMessageV1 (MkMessageId (to_be 16 7)) 5 (MkPayload None (bs "hi")).
Definition demo_delivered : BroadcastAdmission * LocalContext :=
  admit_local_broadcast (sha := demo_sha) demo_bframe (MkChannelId (bs "general"))
    (MkTransportIdentity (bs "peer-a")) (MkClocks 10 99) (Some (bs "a")) demo_local.
Example demo_delivered_to : demo_delivered.1 = Delivered [bs "b"] [].
Proof. by vm_compute. Qed.

Lemma broadcast_fan_out_witness :
  sq_queues (lc_queues demo_delivered.2) !! bs "b" =
  Some (MkQueue [broadcast_event demo_bframe (MkChannelId (bs "general"))
    (MkTransportIdentity (bs "peer-a")) 99] 2).
Proof.
  refine (eq_trans (proj1 (proj1 (broadcast_fan_out demo_sha demo_bframe
    (MkChannelId (bs "general")) (MkTransportIdentity (bs "peer-a")) (MkClocks 10 99)
    (Some (bs "a")) demo_local demo_delivered.2 demo_delivered.1
    ltac:(apply surjective_pairing)) [bs "b"] [] demo_delivered_to) (bs "b") _) _).
  - split; [by vm_compute|done].
  - by vm_compute.
Defined.

(** a broadcast is delivered at most once.  After a message was admitted
    (whether or not anybody was listening), every later copy of it inside the
    dedup window is answered [Duplicate] and changes no queue, even if
    sessions joined in between, as long as fewer than [max_entries] other
    messages went through the cache. *)
Theorem broadcast_no_redelivery (sha : Sha256) (f f2 : BroadcastMessageV1) (c : ChannelId)
    (p : TransportIdentity) (k k2 : Clocks) (ex ex2 : option bytes) (ctx ctx1 ctx2 : LocalContext)
    (o : BroadcastAdmission) (ops : list dedup_op) :
  dedup_inv (lc_dedup ctx) →
  admit_local_broadcast f c p k ex ctx = (o, ctx1) →
  o = NobodyJoined ∨ (∃ ses drp, o = Delivered ses drp) →
  lc_dedup ctx2 = dedup_run (lc_dedup ctx1) ops →
  Forall (λ o, sat_sub (op_now o) (monotonic_ms k) < dc_ttl_ms (lc_dedup ctx)) ops →
  others (broadcast_key f c p) ops < dc_max_entries (lc_dedup ctx) →
  sat_sub (monotonic_ms k2) (monotonic_ms k) < dc_ttl_ms (lc_dedup ctx) →
  (bm_message_id f2, bm_payload f2) = (bm_message_id f, bm_payload f) →
  (admit_local_broadcast f2 c p k2 ex2 ctx2).1 = BDuplicate ∧
  lc_queues (admit_local_broadcast f2 c p k2 ex2 ctx2).2 = lc_queues ctx2.
Proof.
  intros Hinv H Ho Hd2 Hops Hoth Hnow [= Hid Hpay].
  apply local_broadcast_fresh in H as [_ [(fp & dedup & Hf & Hd & Hrec & _)|[Hno _]]].
  2:{ destruct Ho as [->|(? & ? & ->)]; by destruct Hno as [?|[?|?]]. }
  unfold admit_local_broadcast.
  assert (broadcast_key f2 c p = broadcast_key f c p) as -> by (unfold broadcast_key; by rw Hid).
  rw Hpay Hf Hd2 Hrec.
  pose proof (accepted_then_duplicate (lc_dedup ctx) (broadcast_key f c p) RouteBroadcast fp fp
    (monotonic_ms k) (monotonic_ms k2) ops Hinv ltac:(by rw Hd) Hops Hnow Hoth) as Hdup.
  rw Hd bool_decide_eq_true_2 // in Hdup. simpl in Hdup.
  rw [DedupCache_admit _ _ _ _]surjective_pairing Hdup. done.
Qed.

Lemma broadcast_no_redelivery_witness :
  let ctx2 := MkLocalContext (dedup_run (lc_dedup demo_delivered.2)
      [OpRecord (demo_key 2) RouteBroadcast (demo_fp 2) 500])
    (lc_subs demo_local) (lc_queues demo_local) in
  (admit_local_broadcast (sha := demo_sha) demo_bframe (MkChannelId (bs "general"))
    (MkTransportIdentity (bs "peer-a")) (MkClocks 900 1000) None ctx2).1 = BDuplicate.
Proof.
  intros ctx2.
  refine (proj1 (broadcast_no_redelivery demo_sha demo_bframe demo_bframe
    (MkChannelId (bs "general")) (MkTransportIdentity (bs "peer-a")) (MkClocks 10 99)
    (MkClocks 900 1000) (Some (bs "a")) None demo_local demo_delivered.2 ctx2 demo_delivered.1
    [OpRecord (demo_key 2) RouteBroadcast (demo_fp 2) 500] (new_inv 8 1000) _ _ _ _ _ _ _)).
  - apply surjective_pairing.
  - right. exists [bs "b"], []. apply demo_delivered_to.
  - done.
  - repeat constructor; by vm_compute.
  - by vm_compute.
  - by vm_compute.
  - done.
Defined.

(** an untrusted publisher is inert.  Its well-formed envelope is
    ignored, never accepted (a malformed one is rejected whoever sent it), and
    even if it reached local admission it would be refused there with nothing
    changed: no token charged, nothing recorded, nothing delivered. *)
Theorem broadcast_untrusted_inert (sha : Sha256) (raw : bytes) (limit : N)
    (f : BroadcastMessageV1) (c : ChannelId) (p : TransportIdentity) (k : Clocks)
    (ctx : BroadcastContext) (reason : DenyReason) :
  PeerTrustPolicy_decide (pc_trust (bc_prefix ctx)) p = Denied reason →
  classify_broadcast raw limit p (pc_trust (bc_prefix ctx)) =
    (if is_ok (BroadcastMessageV1_decode raw limit) then VIgnore else VReject) ∧
  admit_broadcast f c p k ctx = (BRefused UntrustedPeer, ctx).
Proof.
  intros Hd. unfold classify_broadcast, admit_broadcast, admit_prefix. rw Hd. split.
  - by destruct (BroadcastMessageV1_decode raw limit).
  - by destruct ctx.
Qed.

Lemma broadcast_untrusted_inert_witness :
  let ctx := MkBroadcastContext
    (MkPrefixContext PeerTrustPolicy_default (IngressLimiter_with_defaults 0) false)
    (lc_dedup demo_local) (lc_subs demo_local) (lc_queues demo_local) in
  classify_broadcast (BroadcastMessageV1_encode demo_bframe) 1000
    (MkTransportIdentity (bs "peer-a")) PeerTrustPolicy_default = VIgnore ∧
  admit_broadcast (sha := demo_sha) demo_bframe (MkChannelId (bs "general"))
    (MkTransportIdentity (bs "peer-a")) (MkClocks 10 99) ctx = (BRefused UntrustedPeer, ctx).
Proof.
  intros ctx. exact (broadcast_untrusted_inert demo_sha (BroadcastMessageV1_encode demo_bframe) 1000
    demo_bframe (MkChannelId (bs "general")) (MkTransportIdentity (bs "peer-a")) (MkClocks 10 99)
    ctx NotAllowlisted ltac:(by vm_compute)).
Defined.
