(* ===== verification/ConnectionPolicy.v ===== *)
(** * Dial admission and suppression

    [crates/transport/runtime/src/connection_policy.rs]: which dials are
    admitted, the bounded tables of per-address and per-peer suppression, and
    the address book whose entries live outside the bound. *)
From S2P Require Import Prelude Ids.
Local Open Scope N_scope.

Definition IDENTITY_MISMATCH_QUARANTINE_MS : N := 30 * 60 * 1000.
Definition DEFAULT_MAX_ADDRESS_ENTRIES : N := 8192.
Definition DEFAULT_MAX_PEER_ENTRIES : N := 4096.
Definition DEFAULT_MAX_CONNECTED_PEERS : N := 256.
Definition DEFAULT_MAX_CONNECTIONS_PER_PEER : N := 3.
Definition DEFAULT_IDLE_TTL_MS : N := 60 * 60 * 1000.

Inductive ConnectionClass := DataPlaneTrusted | ConnectivityInfrastructureOnly | Unauthorized.

Inductive DialOrigin :=
| Manual | OriginConnectionManager | DiscoveryReconnect | KademliaQuery | RelayReservation
| RelayCircuit | AutonatProbe | DcutrHolePunch.

Definition names_application_destination (o : DialOrigin) : bool :=
  match o with
  | Manual | OriginConnectionManager | DiscoveryReconnect | KademliaQuery | RelayCircuit
  | DcutrHolePunch => true
  | _ => false
  end.

Record DialRequest := MkDialRequest {
  dr_peer : option TransportIdentity;
  dr_address : bytes;
  dr_origin : DialOrigin
}.

Inductive DialDenial :=
| DD_ShuttingDown | DD_Unauthorized | DD_NotAuthorizedForDataPlane | DD_PeerBackoff
| DD_AddressQuarantined | DD_TooManyPendingDials | DD_ConnectionLimitReached
| DD_PolicySuperseded | DD_PolicyStateFull.

#[global] Instance ConnectionClass_eq_dec : EqDecision ConnectionClass.
Proof. solve_decision. Defined.
#[global] Instance DialOrigin_eq_dec : EqDecision DialOrigin.
Proof. solve_decision. Defined.
#[global] Instance DialDenial_eq_dec : EqDecision DialDenial.
Proof. solve_decision. Defined.

(** ** Suppression state *)

Record AddressState := MkAddressState {
  as_consecutive_failures : N;
  as_last_touched_ms : N;
  as_last_success_ms : option N;
  as_quarantined_until_ms : option N
}.
Definition AddressState_default : AddressState := MkAddressState 0 0 None None.

Definition AddressState_is_dialable_at (s : AddressState) (now_ms : N) : bool :=
  match as_quarantined_until_ms s with None => true | Some until => until <=? now_ms end.
Definition AddressState_is_known_good (s : AddressState) : bool :=
  bool_decide (is_Some (as_last_success_ms s)).
Definition AddressState_is_recently_good (s : AddressState) : bool :=
  bool_decide (is_Some (as_last_success_ms s)) && (as_consecutive_failures s =? 0).
Definition AddressState_is_punitive_at (s : AddressState) (now_ms : N) : bool :=
  match as_quarantined_until_ms s with None => false | Some until => now_ms <? until end.

Record PeerBackoff := MkPeerBackoff {
  pb_consecutive_failures : N;
  pb_last_touched_ms : N;
  pb_until_ms : option N
}.
Definition PeerBackoff_default : PeerBackoff := MkPeerBackoff 0 0 None.

Definition PeerBackoff_is_clear_at (b : PeerBackoff) (now_ms : N) : bool :=
  match pb_until_ms b with None => true | Some until => until <=? now_ms end.
Definition PeerBackoff_is_punitive_at (b : PeerBackoff) (now_ms : N) : bool :=
  negb (PeerBackoff_is_clear_at b now_ms).

Abbreviation AddressKey := (TransportIdentity * bytes)%type.
Abbreviation Book := (gmap TransportIdentity (gset bytes)).

Record ConnectionPolicy := MkConnectionPolicy {
  cp_addresses : gmap AddressKey AddressState;
  cp_book : Book;
  cp_peers : gmap TransportIdentity PeerBackoff;
  cp_max_addresses : N;
  cp_max_peers : N;
  cp_idle_ttl_ms : N;
  cp_max_pending_dials : N;
  cp_max_connections : N;
  cp_max_connected_peers : N;
  cp_max_connections_per_peer : N;
  cp_shutting_down : bool
}.

(** Functional field updates. *)
Definition set_addresses (p : ConnectionPolicy) (a : gmap AddressKey AddressState) :
    ConnectionPolicy :=
  MkConnectionPolicy a (cp_book p) (cp_peers p) (cp_max_addresses p) (cp_max_peers p)
    (cp_idle_ttl_ms p) (cp_max_pending_dials p) (cp_max_connections p)
    (cp_max_connected_peers p) (cp_max_connections_per_peer p) (cp_shutting_down p).
Definition set_book (p : ConnectionPolicy) (b : Book) : ConnectionPolicy :=
  MkConnectionPolicy (cp_addresses p) b (cp_peers p) (cp_max_addresses p) (cp_max_peers p)
    (cp_idle_ttl_ms p) (cp_max_pending_dials p) (cp_max_connections p)
    (cp_max_connected_peers p) (cp_max_connections_per_peer p) (cp_shutting_down p).
Definition set_peers (p : ConnectionPolicy) (b : gmap TransportIdentity PeerBackoff) :
    ConnectionPolicy :=
  MkConnectionPolicy (cp_addresses p) (cp_book p) b (cp_max_addresses p) (cp_max_peers p)
    (cp_idle_ttl_ms p) (cp_max_pending_dials p) (cp_max_connections p)
    (cp_max_connected_peers p) (cp_max_connections_per_peer p) (cp_shutting_down p).

Definition in_book (book : Book) (peer : TransportIdentity) (address : bytes) : bool :=
  match book !! peer with Some known => bool_decide (address ∈ known) | None => false end.
(** The closure [outside_book] over a table key. *)
Definition outside_book (book : Book) (key : AddressKey) : bool := negb (in_book book key.1 key.2).

Definition ConnectionPolicy_default : ConnectionPolicy :=
  MkConnectionPolicy ∅ ∅ ∅ DEFAULT_MAX_ADDRESS_ENTRIES DEFAULT_MAX_PEER_ENTRIES
    DEFAULT_IDLE_TTL_MS 0 0 DEFAULT_MAX_CONNECTED_PEERS DEFAULT_MAX_CONNECTIONS_PER_PEER false.
Definition ConnectionPolicy_new (max_pending_dials max_connections : N) : ConnectionPolicy :=
  MkConnectionPolicy ∅ ∅ ∅ DEFAULT_MAX_ADDRESS_ENTRIES DEFAULT_MAX_PEER_ENTRIES
    DEFAULT_IDLE_TTL_MS max_pending_dials max_connections DEFAULT_MAX_CONNECTED_PEERS
    DEFAULT_MAX_CONNECTIONS_PER_PEER false.

Definition ConnectionPolicy_address_entries (p : ConnectionPolicy) : N :=
  N.of_nat (size (cp_addresses p)).
Definition ConnectionPolicy_peer_entries (p : ConnectionPolicy) : N := N.of_nat (size (cp_peers p)).

(** [prune]: the number removed and the policy. *)
Definition ConnectionPolicy_prune (p : ConnectionPolicy) (now_ms : N) : N * ConnectionPolicy :=
  let idle touched := cp_idle_ttl_ms p <=? sat_sub now_ms touched in
  let before := ConnectionPolicy_address_entries p + ConnectionPolicy_peer_entries p in
  let addresses :=
    filter (λ ks, in_book (cp_book p) ks.1.1 ks.1.2 || AddressState_is_punitive_at ks.2 now_ms
                  || negb (idle (as_last_touched_ms ks.2)) = true) (cp_addresses p) in
  let peers :=
    filter (λ kb, PeerBackoff_is_punitive_at kb.2 now_ms || negb (idle (pb_last_touched_ms kb.2))
                  = true) (cp_peers p) in
  let p := set_peers (set_addresses p addresses) peers in
  (before - (ConnectionPolicy_address_entries p + ConnectionPolicy_peer_entries p), p).

(** [addresses.keys().filter(outside_book).count()] *)
Definition outside_count (p : ConnectionPolicy) : N :=
  N.of_nat (size (filter (λ ks, outside_book (cp_book p) ks.1 = true) (cp_addresses p))).

Definition ConnectionPolicy_make_room_for_address (p : ConnectionPolicy) (now_ms : N) :
    bool * ConnectionPolicy :=
  if outside_count p <? cp_max_addresses p then (true, p)
  else
    let candidates :=
      filter (λ ks, outside_book (cp_book p) ks.1 && negb (AddressState_is_punitive_at ks.2 now_ms)
                    = true) (btree_to_list (cp_addresses p)) in
    match min_by (λ ks, as_last_touched_ms ks.2) candidates with
    | Some (key, _) => (true, set_addresses p (delete key (cp_addresses p)))
    | None => (false, p)
    end.

Definition ConnectionPolicy_release_from_book (p : ConnectionPolicy) (peer : TransportIdentity)
    (address : bytes) (now_ms : N) : bool * ConnectionPolicy :=
  if negb (in_book (cp_book p) peer address) then (true, p)
  else
    let key := (peer, address) in
    let leave p :=
      match cp_book p !! peer with
      | None => p
      | Some known =>
          let known := known ∖ {[address]} in
          set_book p (if bool_decide (known = ∅) then delete peer (cp_book p)
                      else <[peer := known]> (cp_book p))
      end in
    match cp_addresses p !! key with
    | None => (true, leave p)
    | Some s =>
        let punitive := AddressState_is_punitive_at s now_ms in
        let '(room, p) := ConnectionPolicy_make_room_for_address p now_ms in
        if punitive && negb room then (false, p)
        else
          let p := if negb room then set_addresses p (delete key (cp_addresses p)) else p in
          (true, leave p)
    end.

Definition ConnectionPolicy_make_room_for_peer (p : ConnectionPolicy) (now_ms : N) :
    bool * ConnectionPolicy :=
  if ConnectionPolicy_peer_entries p <? cp_max_peers p then (true, p)
  else
    match min_by (λ kb, pb_last_touched_ms kb.2)
            (filter (λ kb, negb (PeerBackoff_is_punitive_at kb.2 now_ms) = true)
               (btree_to_list (cp_peers p))) with
    | Some (key, _) => (true, set_peers p (delete key (cp_peers p)))
    | None => (false, p)
    end.

Definition ConnectionPolicy_live_quarantines (p : ConnectionPolicy) (now_ms : N) : N :=
  N.of_nat (size (filter (λ ks, negb (in_book (cp_book p) ks.1.1 ks.1.2) &&
                                AddressState_is_punitive_at ks.2 now_ms = true) (cp_addresses p))).

(** The loop of [quarantined_until]: [None] as soon as one address is not
    under a live quarantine. *)
Fixpoint quarantined_until_loop (p : ConnectionPolicy) (peer : TransportIdentity) (now_ms : N)
    (earliest : option N) (addresses : list bytes) : option N :=
  match addresses with
  | [] => earliest
  | address :: addresses =>
      match cp_addresses p !! (peer, address) ≫= as_quarantined_until_ms with
      | Some until =>
          if now_ms <? until
          then quarantined_until_loop p peer now_ms
                 (Some (match earliest with None => until | Some e => N.min e until end)) addresses
          else None
      | None => None
      end
  end.
Definition ConnectionPolicy_quarantined_until (p : ConnectionPolicy) (peer : TransportIdentity)
    (now_ms : N) : option N :=
  match cp_book p !! peer with
  | None => None
  | Some known => quarantined_until_loop p peer now_ms None (bset_to_list known)
  end.

Definition ConnectionPolicy_clear_peer_backoff (p : ConnectionPolicy) (peer : TransportIdentity) :
    bool * ConnectionPolicy :=
  (bool_decide (is_Some (cp_peers p !! peer)), set_peers p (delete peer (cp_peers p))).

Definition ConnectionPolicy_lift_peer_backoff (p : ConnectionPolicy) (peer : TransportIdentity)
    (now_ms : N) : bool * ConnectionPolicy :=
  match cp_peers p !! peer with
  | Some backoff =>
      if PeerBackoff_is_punitive_at backoff now_ms
      then (true, set_peers p (<[peer := MkPeerBackoff (pb_consecutive_failures backoff)
                                           (pb_last_touched_ms backoff) None]> (cp_peers p)))
      else (false, p)
  | None => (false, p)
  end.

(** ** Admission *)

Definition ConnectionPolicy_admit (p : ConnectionPolicy) (request : DialRequest)
    (class : ConnectionClass) (now_ms : N) : result unit DialDenial :=
  guard? negb (cp_shutting_down p) else DD_ShuttingDown;
  _ <-? (match class with
         | Unauthorized => Err DD_Unauthorized
         | ConnectivityInfrastructureOnly =>
             if names_application_destination (dr_origin request)
             then Err DD_NotAuthorizedForDataPlane else Ok ()
         | DataPlaneTrusted => Ok ()
         end);
  match dr_peer request with
  | None => Ok ()
  | Some peer =>
      let key := (peer, dr_address request) in
      guard? negb (match cp_peers p !! peer with
                   | Some backoff =>
                       negb (PeerBackoff_is_clear_at backoff now_ms) &&
                       (bool_decide (dr_address request = []) ||
                        bool_decide (is_Some (cp_addresses p !! key)))
                   | None => false
                   end) else DD_PeerBackoff;
      guard? negb (match cp_addresses p !! key with
                   | Some state => negb (AddressState_is_dialable_at state now_ms)
                   | None => false
                   end) else DD_AddressQuarantined;
      guard? negb (negb (bool_decide (is_Some (cp_addresses p !! key))) &&
                   negb (in_book (cp_book p) peer (dr_address request)) &&
                   (cp_max_addresses p <=? outside_count p) &&
                   negb (existsb (λ ks, outside_book (cp_book p) ks.1 &&
                                        negb (AddressState_is_punitive_at ks.2 now_ms))
                           (btree_to_list (cp_addresses p)))) else DD_PolicyStateFull;
      Ok ()
  end.

(** ** Outcomes *)

Definition ConnectionPolicy_record_success (p : ConnectionPolicy) (peer : TransportIdentity)
    (address : bytes) (now_ms : N) : ConnectionPolicy :=
  let key := (peer, address) in
  let '(room, p) :=
    if negb (bool_decide (is_Some (cp_addresses p !! key))) &&
       negb (in_book (cp_book p) peer address)
    then ConnectionPolicy_make_room_for_address p now_ms else (true, p) in
  if negb room then set_peers p (delete peer (cp_peers p))
  else
    let entry := MkAddressState 0 now_ms (Some now_ms) None in
    set_peers (set_addresses p (<[key := entry]> (cp_addresses p))) (delete peer (cp_peers p)).

(** [contains_key(&key) || in_book(..) || { prune; make_room }] *)
Definition outcome_room (p : ConnectionPolicy) (peer : TransportIdentity) (address : bytes)
    (now_ms : N) : bool * ConnectionPolicy :=
  if bool_decide (is_Some (cp_addresses p !! (peer, address))) || in_book (cp_book p) peer address
  then (true, p)
  else ConnectionPolicy_make_room_for_address (ConnectionPolicy_prune p now_ms).2 now_ms.

Definition ConnectionPolicy_score_address_failure (p : ConnectionPolicy)
    (peer : TransportIdentity) (address : bytes) (now_ms : N) : ConnectionPolicy :=
  let key := (peer, address) in
  let '(room, p) := outcome_room p peer address now_ms in
  if room then
    let entry := default AddressState_default (cp_addresses p !! key) in
    set_addresses p
      (<[key := MkAddressState (sat_add u32_max (as_consecutive_failures entry) 1) now_ms
                  (as_last_success_ms entry) (as_quarantined_until_ms entry)]> (cp_addresses p))
  else p.

Definition ConnectionPolicy_record_address_failure (p : ConnectionPolicy)
    (peer : TransportIdentity) (address : bytes) (now_ms backoff_ms : N) :
    bool * ConnectionPolicy :=
  let p := ConnectionPolicy_score_address_failure p peer address now_ms in
  let alternative_exists :=
    existsb (λ ks, bool_decide (ks.1.1 = peer) && negb (bool_decide (ks.1.2 = address)) &&
                   AddressState_is_known_good ks.2 && AddressState_is_dialable_at ks.2 now_ms)
      (btree_to_list (cp_addresses p)) in
  if alternative_exists then (false, p)
  else
    let '(room, p) :=
      if bool_decide (is_Some (cp_peers p !! peer)) then (true, p)
      else ConnectionPolicy_make_room_for_peer p now_ms in
    if negb room then (false, p)
    else
      let b := default PeerBackoff_default (cp_peers p !! peer) in
      (true,
       set_peers p
         (<[peer := MkPeerBackoff (sat_add u32_max (pb_consecutive_failures b) 1) now_ms
                      (Some (sat_add u64_max now_ms backoff_ms))]> (cp_peers p))).

Definition ConnectionPolicy_record_identity_mismatch (p : ConnectionPolicy)
    (expected_peer : TransportIdentity) (address : bytes) (now_ms : N) :
    bool * ConnectionPolicy :=
  let key := (expected_peer, address) in
  let '(room, p) := outcome_room p expected_peer address now_ms in
  if negb room then (false, p)
  else
    let entry := default AddressState_default (cp_addresses p !! key) in
    (true,
     set_addresses p
       (<[key := MkAddressState (sat_add u32_max (as_consecutive_failures entry) 1) now_ms None
                   (Some (sat_add u64_max now_ms IDENTITY_MISMATCH_QUARANTINE_MS))]>
          (cp_addresses p))).

Definition ConnectionPolicy_is_address_dialable (p : ConnectionPolicy) (peer : TransportIdentity)
    (address : bytes) (now_ms : N) : bool :=
  match cp_addresses p !! (peer, address) with
  | Some s => AddressState_is_dialable_at s now_ms
  | None => true
  end.

(** The sort key [(!recently_good, failures, address)]. *)
Definition preference (p : ConnectionPolicy) (peer : TransportIdentity) (a : bytes) :
    bool * N * bytes :=
  let s := cp_addresses p !! (peer, a) in
  (negb (match s with Some s => AddressState_is_recently_good s | None => false end),
   match s with Some s => as_consecutive_failures s | None => 0 end, a).
Definition preference_le (x y : bool * N * bytes) : Prop :=
  let '(b1, n1, a1) := x in
  let '(b2, n2, a2) := y in
  (negb b1 && b2) || (bool_decide (b1 = b2) && ((n1 <? n2) || ((n1 =? n2) && bytes_leb a1 a2)))
  = true.
#[global] Instance preference_le_dec : RelDecision preference_le.
Proof. intros [[b1 n1] a1] [[b2 n2] a2]. unfold preference_le. apply _. Defined.

Definition ConnectionPolicy_preferred_addresses (p : ConnectionPolicy) (peer : TransportIdentity)
    (candidates : list bytes) (now_ms : N) : list bytes :=
  merge_sort (λ a b, preference_le (preference p peer a) (preference p peer b))
    (filter (λ a, ConnectionPolicy_is_address_dialable p peer a now_ms = true) candidates).

(** [book.entry(peer).or_default().insert(address)], the one way into the
    book ([ConnectionManager::learn_address]). *)
Definition book_insert (p : ConnectionPolicy) (peer : TransportIdentity) (address : bytes) :
    ConnectionPolicy :=
  set_book p (<[peer := {[address]} ∪ default ∅ (cp_book p !! peer)]> (cp_book p)).

(** ** Histories *)

Inductive pol_op :=
| PPrune (now : N)
| PRelease (peer : TransportIdentity) (a : bytes) (now : N)
| PLearn (peer : TransportIdentity) (a : bytes) (now : N)
| PSuccess (peer : TransportIdentity) (a : bytes) (now : N)
| PScore (peer : TransportIdentity) (a : bytes) (now : N)
| PFailure (peer : TransportIdentity) (a : bytes) (now backoff : N)
| PMismatch (peer : TransportIdentity) (a : bytes) (now : N)
| PClear (peer : TransportIdentity) (now : N)
| PLift (peer : TransportIdentity) (now : N).

Definition pol_step (p : ConnectionPolicy) (op : pol_op) : ConnectionPolicy :=
  match op with
  | PPrune now => (ConnectionPolicy_prune p now).2
  | PRelease peer a now => (ConnectionPolicy_release_from_book p peer a now).2
  | PLearn peer a _ => book_insert p peer a
  | PSuccess peer a now => ConnectionPolicy_record_success p peer a now
  | PScore peer a now => ConnectionPolicy_score_address_failure p peer a now
  | PFailure peer a now backoff =>
      (ConnectionPolicy_record_address_failure p peer a now backoff).2
  | PMismatch peer a now => (ConnectionPolicy_record_identity_mismatch p peer a now).2
  | PClear peer _ => (ConnectionPolicy_clear_peer_backoff p peer).2
  | PLift peer now => (ConnectionPolicy_lift_peer_backoff p peer now).2
  end.
Definition pol_now (op : pol_op) : N :=
  match op with
  | PPrune now | PRelease _ _ now | PLearn _ _ now | PSuccess _ _ now | PScore _ _ now
  | PFailure _ _ now _ | PMismatch _ _ now | PClear _ now | PLift _ now => now
  end.
Definition pol_run (p : ConnectionPolicy) (ops : list pol_op) : ConnectionPolicy :=
  foldl pol_step p ops.

(** ** What the table operations remove *)

(** [p'] is [p] less some table entries, none of them a live quarantine. *)
Record sheds (now : N) (p p' : ConnectionPolicy) : Prop := {
  sh_sub : cp_addresses p' ⊆ cp_addresses p;
  sh_live : ∀ k s, cp_addresses p !! k = Some s → AddressState_is_punitive_at s now = true →
    cp_addresses p' !! k = Some s;
  sh_book : cp_book p' = cp_book p;
  sh_max : cp_max_addresses p' = cp_max_addresses p;
  sh_max_peers : cp_max_peers p' = cp_max_peers p
}.

Lemma sheds_refl now p : sheds now p p.
Proof. by split. Qed.
Lemma sheds_trans now p1 p2 p3 : sheds now p1 p2 → sheds now p2 p3 → sheds now p1 p3.
Proof.
  intros [H1 H2 H3 H4 H5] [H1' H2' H3' H4' H5']. split; [by etrans|by eauto|congruence..].
Qed.

Lemma prune_sheds p now : sheds now p (ConnectionPolicy_prune p now).2.
Proof.
  split; simpl; try done; [apply map_filter_subseteq|].
  intros k s Hk Hp. apply map_lookup_filter_Some. split; [done|]. simpl. rw Hp.
  by rw orb_true_r.
Qed.

Lemma make_room_cases p now room p' :
  ConnectionPolicy_make_room_for_address p now = (room, p') →
  (room = true ∧ p' = p ∧ outside_count p < cp_max_addresses p) ∨
  (room = true ∧ cp_max_addresses p ≤ outside_count p ∧
   ∃ k s, cp_addresses p !! k = Some s ∧ outside_book (cp_book p) k = true ∧
     AddressState_is_punitive_at s now = false ∧ p' = set_addresses p (delete k (cp_addresses p))) ∨
  (room = false ∧ p' = p ∧ cp_max_addresses p ≤ outside_count p ∧
   ∀ k s, cp_addresses p !! k = Some s → outside_book (cp_book p) k = true →
     AddressState_is_punitive_at s now = true).
Proof.
  unfold ConnectionPolicy_make_room_for_address.
  destruct (N.ltb_spec (outside_count p) (cp_max_addresses p)) as [|Hfull].
  { intros [= <- <-]. by left. }
  destruct (min_by _ _) as [[k s]|] eqn:E; intros [= <- <-].
  - right; left. split; [done|]. split; [done|]. apply min_by_elem in E.
    apply list_elem_of_filter in E as [[Ho Hp]%andb_prop Hin%elem_of_btree_to_list]. simpl in *.
    exists k, s. by rw negb_true_iff in Hp.
  - right; right. apply min_by_None in E. split_and!; try done. intros k s Hk Ho.
    apply not_false_is_true. intros Hp.
    assert ((k, s) ∈ filter (λ ks, outside_book (cp_book p) ks.1 &&
      negb (AddressState_is_punitive_at ks.2 now) = true) (btree_to_list (cp_addresses p))) as Hin.
    { apply list_elem_of_filter. simpl. rw Ho Hp. split; [done|]. by apply elem_of_btree_to_list. }
    rw E in Hin. by apply elem_of_nil in Hin.
Qed.

Lemma make_room_sheds p now room p' :
  ConnectionPolicy_make_room_for_address p now = (room, p') → sheds now p p'.
Proof.
  intros [(_ & -> & _)|[(_ & _ & k & s & Hk & _ & Hp & ->)|(_ & -> & _)]]%make_room_cases;
    try apply sheds_refl.
  split; simpl; try done; [apply delete_subseteq|].
  intros k' s' Hk' Hp'. rw lookup_delete_ne; [done|]. intros ->. congruence.
Qed.

Lemma outcome_room_sheds p peer a now room p' :
  outcome_room p peer a now = (room, p') → sheds now p p'.
Proof.
  unfold outcome_room. case_match; [intros [= <- <-]; apply sheds_refl|].
  intros Hm%make_room_sheds. eapply sheds_trans; [apply prune_sheds|done].
Qed.

(** ** The bound *)

Lemma outside_count_alt p :
  outside_count p = msum (λ k _, if outside_book (cp_book p) k then 1 else 0) (cp_addresses p).
Proof.
  unfold outside_count. induction (cp_addresses p) as [|k s m Hk IH] using map_ind.
  { rw map_filter_empty map_size_empty msum_empty. done. }
  rw msum_insert_fresh // -IH. destruct (outside_book (cp_book p) k) eqn:E.
  - rw map_filter_insert_True // map_size_insert_None; [lia|].
    apply map_lookup_filter_None. by left.
  - rw map_filter_insert_False; [by rw delete_id|by rw /= E].
Qed.

Lemma outside_count_mono p p' :
  cp_addresses p' ⊆ cp_addresses p → cp_book p' = cp_book p → outside_count p' ≤ outside_count p.
Proof.
  intros Hsub Hbook. unfold outside_count. rw Hbook.
  enough (size (filter (λ ks, outside_book (cp_book p) ks.1 = true) (cp_addresses p')) ≤
    size (filter (λ ks, outside_book (cp_book p) ks.1 = true) (cp_addresses p)))%nat by lia.
  apply map_subseteq_size, map_subseteq_spec. intros k s.
  rw !map_lookup_filter_Some. intros [Hk Ho]. split; [|done]. by eapply lookup_weaken.
Qed.

Lemma outside_count_insert p k s :
  outside_count (set_addresses p (<[k := s]> (cp_addresses p))) =
  outside_count p +
    (if outside_book (cp_book p) k && bool_decide (cp_addresses p !! k = None) then 1 else 0).
Proof.
  rw !outside_count_alt. simpl. destruct (cp_addresses p !! k) as [s0|] eqn:E.
  - rw bool_decide_eq_false_2 // andb_false_r.
    pose proof (msum_insert (λ k _, if outside_book (cp_book p) k then 1 else 0) _ _ _ s E). simpl in *.
    lia.
  - rw msum_insert_fresh // bool_decide_eq_true_2 // andb_true_r. lia.
Qed.

Record pol_inv (p : ConnectionPolicy) : Prop := {
  pi_addresses : outside_count p ≤ cp_max_addresses p;
  pi_peers : ConnectionPolicy_peer_entries p ≤ cp_max_peers p
}.

(** Room granted is room for one more record outside the book. *)
Lemma make_room_count p now p' :
  outside_count p ≤ cp_max_addresses p →
  ConnectionPolicy_make_room_for_address p now = (true, p') → outside_count p' < cp_max_addresses p'.
Proof.
  intros Hle [(_ & -> & ?)|[(_ & Hfull & k & s & Hk & Ho & _ & ->)|(? & _)]]%make_room_cases;
    [done| |done].
  simpl. rw !outside_count_alt in Hle Hfull *. simpl.
  rw (msum_delete _ _ _ _ Hk) Ho in Hle Hfull. lia.
Qed.

(** Storing a record for a key that is known, booked or has room made for it
    keeps the bound. *)
Lemma outcome_room_insert p peer a now room p' s :
  outside_count p ≤ cp_max_addresses p → outcome_room p peer a now = (room, p') →
  outside_count p' ≤ cp_max_addresses p' ∧
  (room = true → outside_count (set_addresses p' (<[(peer, a) := s]> (cp_addresses p')))
                 ≤ cp_max_addresses p').
Proof.
  intros Hle Hroom. pose proof (outcome_room_sheds _ _ _ _ _ _ Hroom) as [Hsub _ Hb Hm _].
  pose proof (outside_count_mono _ _ Hsub Hb) as Hmono.
  split; [lia|]. intros ->. rw outside_count_insert. revert Hroom. unfold outcome_room.
  destruct (bool_decide _ || _) eqn:Ek.
  - intros [= ->]. apply orb_prop in Ek as [[s0 Es]%bool_decide_eq_true|Eb].
    + rw Es andb_false_r. lia.
    + unfold outside_book. simpl. rw Eb. simpl. lia.
  - intros Hroom. apply make_room_count in Hroom; [case_match; lia|].
    pose proof (prune_sheds p now) as [Hs' _ Hb' Hm' _].
    pose proof (outside_count_mono _ _ Hs' Hb'). lia.
Qed.

Lemma success_inv p peer a now :
  pol_inv p → pol_inv (ConnectionPolicy_record_success p peer a now).
Proof.
  intros [Ha Hp]. unfold ConnectionPolicy_record_success.
  assert (∀ m : gmap TransportIdentity PeerBackoff, (size (delete peer m) ≤ size m)%nat) as Hdel.
  { intros m. apply map_subseteq_size, delete_subseteq. }
  unfold ConnectionPolicy_peer_entries in *. pose proof (Hdel (cp_peers p)).
  destruct (negb _ && negb _) eqn:Ek.
  - destruct (ConnectionPolicy_make_room_for_address p now) as [room p'] eqn:Er.
    pose proof (make_room_sheds _ _ _ _ Er) as [Hsub _ Hb Hm Hmp].
    pose proof (outside_count_mono _ _ Hsub Hb).
    assert (cp_peers p' = cp_peers p) as Epeers.
    { apply make_room_cases in Er as [(_ & -> & _)|[(_ & _ & ? & ? & _ & _ & _ & ->)|(_ & -> & _)]];
        done. }
    destruct room; cbn [negb].
    + apply make_room_count in Er; [|done]. split.
      * change (outside_count (set_addresses p' (<[(peer, a) := MkAddressState 0 now (Some now) None]>
          (cp_addresses p'))) ≤ cp_max_addresses p'). rw outside_count_insert. case_match; lia.
      * unfold ConnectionPolicy_peer_entries. simpl. rw Epeers. lia.
    + split; [change (outside_count p' ≤ cp_max_addresses p'); lia|].
      unfold ConnectionPolicy_peer_entries. simpl. rw Epeers. lia.
  - cbn [negb]. split.
    + change (outside_count (set_addresses p (<[(peer, a) := MkAddressState 0 now (Some now) None]>
        (cp_addresses p))) ≤ cp_max_addresses p). rw outside_count_insert. unfold outside_book. simpl.
      apply andb_false_iff in Ek as [[s Es]%negb_false_iff%bool_decide_eq_true|Eb].
      * rw Es andb_false_r. lia.
      * rw Eb. simpl. lia.
    + unfold ConnectionPolicy_peer_entries. simpl. lia.
Qed.

Lemma prune_peers_le p now :
  ConnectionPolicy_peer_entries (ConnectionPolicy_prune p now).2 ≤ ConnectionPolicy_peer_entries p.
Proof.
  unfold ConnectionPolicy_peer_entries. simpl.
  assert (∀ m1 m2 : gmap TransportIdentity PeerBackoff, m1 ⊆ m2 →
    N.of_nat (size m1) ≤ N.of_nat (size m2)) as H.
  { intros m1 m2 Hs%map_subseteq_size. lia. }
  apply H, map_filter_subseteq.
Qed.

Lemma outcome_room_peers p peer a now room p' :
  outcome_room p peer a now = (room, p') →
  ConnectionPolicy_peer_entries p' ≤ ConnectionPolicy_peer_entries p.
Proof.
  unfold outcome_room. case_match; [by intros [= <- <-]|].
  intros Hm%make_room_cases. etrans; [|apply (prune_peers_le p now)].
  destruct Hm as [(_ & -> & _)|[(_ & _ & ? & ? & _ & _ & _ & ->)|(_ & -> & _)]]; done.
Qed.

Lemma score_inv p peer a now :
  pol_inv p → pol_inv (ConnectionPolicy_score_address_failure p peer a now).
Proof.
  intros [Ha Hp]. unfold ConnectionPolicy_score_address_failure.
  destruct (outcome_room p peer a now) as [room p'] eqn:Er.
  pose proof (outcome_room_sheds _ _ _ _ _ _ Er) as [_ _ _ Hm Hmp].
  pose proof (outcome_room_peers _ _ _ _ _ _ Er).
  set (s := MkAddressState _ _ _ _).
  destruct (outcome_room_insert p peer a now room p' s Ha Er) as [H1 H2].
  destruct room; split; try done; try lia; [by apply H2|].
  unfold ConnectionPolicy_peer_entries in *. simpl. lia.
Qed.

Lemma mismatch_inv p peer a now :
  pol_inv p → pol_inv (ConnectionPolicy_record_identity_mismatch p peer a now).2.
Proof.
  intros [Ha Hp]. unfold ConnectionPolicy_record_identity_mismatch.
  destruct (outcome_room p peer a now) as [room p'] eqn:Er.
  pose proof (outcome_room_sheds _ _ _ _ _ _ Er) as [_ _ _ Hm Hmp].
  pose proof (outcome_room_peers _ _ _ _ _ _ Er).
  set (s := MkAddressState _ _ _ _).
  destruct (outcome_room_insert p peer a now room p' s Ha Er) as [H1 H2].
  destruct room; cbn [negb snd]; split; try done; try lia; [by apply H2|].
  unfold ConnectionPolicy_peer_entries in *. simpl. lia.
Qed.

Lemma failure_inv p peer a now backoff :
  pol_inv p → pol_inv (ConnectionPolicy_record_address_failure p peer a now backoff).2.
Proof.
  intros Hp. unfold ConnectionPolicy_record_address_failure.
  pose proof (score_inv p peer a now Hp) as Hs.
  set (p1 := ConnectionPolicy_score_address_failure p peer a now) in *. clearbody p1.
  case_match; [done|]. destruct Hs as [H1 H2]. unfold ConnectionPolicy_peer_entries in *.
  case_bool_decide as Hk; simpl.
  { split; [done|]. unfold ConnectionPolicy_peer_entries. simpl.
    rw map_size_insert_Some; [done|done]. }
  assert (cp_peers p1 !! peer = None) as Hnone by by apply eq_None_not_Some.
  unfold ConnectionPolicy_make_room_for_peer, ConnectionPolicy_peer_entries.
  destruct (N.ltb_spec (N.of_nat (size (cp_peers p1))) (cp_max_peers p1)); cbn [negb snd].
  { split; [done|]. unfold ConnectionPolicy_peer_entries. simpl. rw map_size_insert_None //. lia. }
  destruct (min_by _ _) as [[k b]|] eqn:E; cbn [negb snd]; [|by split].
  apply min_by_elem, list_elem_of_filter in E as [_ Hin%elem_of_btree_to_list].
  split; [done|]. unfold ConnectionPolicy_peer_entries. simpl.
  rw map_size_insert_None; [|by rw lookup_delete_None; right].
  rw map_size_delete_Some; [|by eexists].
  assert (size (cp_peers p1) ≠ 0%nat); [|lia].
  intros Hz%map_size_empty_inv. by rw Hz lookup_empty in Hin.
Qed.

Lemma in_book_insert p peer a q b :
  in_book (cp_book (book_insert p peer a)) q b =
  bool_decide ((q, b) = (peer, a)) || in_book (cp_book p) q b.
Proof.
  unfold book_insert, in_book. simpl. rw lookup_insert. case_decide as Hq.
  - subst q. destruct (cp_book p !! peer) as [known|]; simpl;
      repeat case_bool_decide; set_solver.
  - rw bool_decide_eq_false_2 //. congruence.
Qed.

Lemma learn_inv p peer a : pol_inv p → pol_inv (book_insert p peer a).
Proof.
  intros [Ha Hp]. split; [|done]. etrans; [|exact Ha]. rw !outside_count_alt. simpl.
  apply msum_mono. intros [q b] s _. unfold outside_book. simpl.
  pose proof (in_book_insert p peer a q b) as Hi. simpl in Hi. rw Hi.
  destruct (in_book (cp_book p) q b); [by rw orb_true_r|]. simpl. by case_match.
Qed.

(** The book less one address. *)
Definition book_leave (peer : TransportIdentity) (address : bytes) (p : ConnectionPolicy) :
    ConnectionPolicy :=
  match cp_book p !! peer with
  | None => p
  | Some known =>
      let known := known ∖ {[address]} in
      set_book p (if bool_decide (known = ∅) then delete peer (cp_book p)
                  else <[peer := known]> (cp_book p))
  end.

Lemma in_book_leave p peer a q b :
  in_book (cp_book (book_leave peer a p)) q b =
  negb (bool_decide ((q, b) = (peer, a))) && in_book (cp_book p) q b.
Proof.
  unfold book_leave, in_book. destruct (cp_book p !! peer) as [known|] eqn:E.
  - simpl. case_bool_decide as He; rw ?lookup_delete ?lookup_insert; destruct (decide (peer = q)) as [<-|Hq].
    + rw E. repeat case_bool_decide; set_solver.
    + rw bool_decide_eq_false_2 //. congruence.
    + rw E. repeat case_bool_decide; set_solver.
    + rw bool_decide_eq_false_2 //. congruence.
  - destruct (decide (q = peer)) as [->|Hq]; [by rw E andb_false_r|].
    rw bool_decide_eq_false_2 //. congruence.
Qed.

Lemma leave_count p peer a :
  outside_count (book_leave peer a p) ≤
  outside_count p + (if bool_decide (cp_addresses p !! (peer, a) = None) then 0 else 1).
Proof.
  rw !outside_count_alt. assert (cp_addresses (book_leave peer a p) = cp_addresses p) as ->.
  { unfold book_leave. by case_match. }
  assert (∀ q b, (q, b) ≠ (peer, a) → outside_book (cp_book (book_leave peer a p)) (q, b) =
    outside_book (cp_book p) (q, b)) as Hsame.
  { intros q b Hne. unfold outside_book. simpl. rw in_book_leave bool_decide_eq_false_2 //. }
  destruct (cp_addresses p !! (peer, a)) as [s|] eqn:E; simpl.
  - rw !(msum_delete _ _ _ _ E). simpl.
    assert (msum (λ k _, if outside_book (cp_book (book_leave peer a p)) k then 1 else 0)
      (delete (peer, a) (cp_addresses p)) =
      msum (λ k _, if outside_book (cp_book p) k then 1 else 0)
      (delete (peer, a) (cp_addresses p))) as ->.
    { apply msum_ext. intros [q b] s' [Hne _]%lookup_delete_Some. by rw Hsame. }
    case_match; case_match; lia.
  - rw N.add_0_r. apply msum_mono. intros [q b] s' Hk. rw Hsame //. congruence.
Qed.

Lemma release_from_book_alt p peer a now :
  ConnectionPolicy_release_from_book p peer a now =
  if negb (in_book (cp_book p) peer a) then (true, p)
  else match cp_addresses p !! (peer, a) with
       | None => (true, book_leave peer a p)
       | Some s =>
           let '(room, p) := ConnectionPolicy_make_room_for_address p now in
           if AddressState_is_punitive_at s now && negb room then (false, p)
           else (true, book_leave peer a
                   (if negb room then set_addresses p (delete (peer, a) (cp_addresses p)) else p))
       end.
Proof. done. Qed.

Lemma book_leave_frame peer a p :
  cp_peers (book_leave peer a p) = cp_peers p ∧
  cp_max_addresses (book_leave peer a p) = cp_max_addresses p ∧
  cp_max_peers (book_leave peer a p) = cp_max_peers p ∧
  cp_addresses (book_leave peer a p) = cp_addresses p.
Proof. unfold book_leave. by case_match. Qed.

Lemma book_release_inv p peer a now :
  pol_inv p → pol_inv (ConnectionPolicy_release_from_book p peer a now).2.
Proof.
  intros [Ha Hp]. rw release_from_book_alt. case_match; [done|].
  unfold ConnectionPolicy_peer_entries in *.
  destruct (cp_addresses p !! (peer, a)) as [s|] eqn:Ek.
  - destruct (ConnectionPolicy_make_room_for_address p now) as [room p'] eqn:Er.
    pose proof (make_room_sheds _ _ _ _ Er) as [Hsub _ Hb Hm Hmp].
    pose proof (outside_count_mono _ _ Hsub Hb) as Hc.
    assert (cp_peers p' = cp_peers p) as Epeers.
    { apply make_room_cases in Er as [(_ & -> & _)|[(_ & _ & ? & ? & _ & _ & _ & ->)|(_ & -> & _)]];
        done. }
    destruct (_ && _) eqn:Epun; cbn [snd].
    { split; [lia|]. unfold ConnectionPolicy_peer_entries. rw Epeers. lia. }
    set (p2 := if negb room then _ else _).
    destruct (book_leave_frame peer a p2) as (Hpe & Hma & Hmp2 & _).
    pose proof (leave_count p2 peer a) as Hlc.
    assert (cp_peers p2 = cp_peers p' ∧ cp_max_addresses p2 = cp_max_addresses p' ∧
      cp_max_peers p2 = cp_max_peers p') as (E1 & E2 & E3) by by destruct room.
    split; [|unfold ConnectionPolicy_peer_entries; rw Hpe E1 Hmp2 E3 Epeers Hmp; lia].
    rw Hma E2. destruct room; simpl in p2.
    + apply make_room_count in Er; [|done]. subst p2. case_match; lia.
    + revert Hlc. rw bool_decide_eq_true_2; [intros Hlc|apply lookup_delete_eq].
      assert (outside_count p2 ≤ outside_count p') as H2; [|lia].
      apply outside_count_mono; [apply delete_subseteq|done].
  - cbn [snd]. destruct (book_leave_frame peer a p) as (Hpe & Hma & Hmp2 & _).
    pose proof (leave_count p peer a) as Hlc. rw Ek in Hlc. simpl in Hlc.
    split; [lia|]. unfold ConnectionPolicy_peer_entries. rw Hpe. lia.
Qed.

Lemma pol_step_inv p op : pol_inv p → pol_inv (pol_step p op).
Proof.
  intros Hp. destruct op; simpl; auto using success_inv, score_inv, learn_inv, book_release_inv,
    mismatch_inv, failure_inv.
  - destruct Hp as [Ha Hp]. pose proof (prune_sheds p now) as [Hs _ Hb Hm Hmp].
    pose proof (outside_count_mono _ _ Hs Hb). pose proof (prune_peers_le p now).
    simpl in *. split; simpl; lia.
  - destruct Hp as [Ha Hp]. split; [done|]. unfold ConnectionPolicy_peer_entries in *. simpl.
    pose proof (map_subseteq_size _ _ (delete_subseteq (cp_peers p) peer)). lia.
  - destruct Hp as [Ha Hp]. unfold ConnectionPolicy_lift_peer_backoff.
    destruct (cp_peers p !! peer) as [b|] eqn:E; [|done]. case_match; [|done]. split; [done|].
    unfold ConnectionPolicy_peer_entries in *. simpl. rw map_size_insert_Some //.
Qed.
Lemma pol_run_inv p ops : pol_inv p → pol_inv (pol_run p ops).
Proof.
  revert p. induction ops as [|op ops IH]; intros p Hp; [done|]. by apply IH, pol_step_inv.
Qed.
Lemma pol_new_inv a b : pol_inv (ConnectionPolicy_new a b).
Proof.
  split; [rw outside_count_alt; simpl; rw msum_empty|unfold ConnectionPolicy_peer_entries; simpl;
    rw map_size_empty]; by vm_compute.
Qed.

(** ** Quarantines outlive everything but a success *)

(** [key] is quarantined until at least [until]. *)
Definition held_until (key : AddressKey) (until : N) (p : ConnectionPolicy) : Prop :=
  ∃ s u, cp_addresses p !! key = Some s ∧ as_quarantined_until_ms s = Some u ∧ until ≤ u.

Lemma held_sheds key until now p p' :
  now < until → sheds now p p' → held_until key until p → held_until key until p'.
Proof.
  intros Hn [_ Hlive _ _ _] (s & u & Hk & Hu & Hle). exists s, u. split; [|done].
  apply Hlive; [done|]. unfold AddressState_is_punitive_at. rw Hu. apply N.ltb_lt. lia.
Qed.

Lemma held_outcome key until now p peer a room p' :
  now < until → outcome_room p peer a now = (room, p') → held_until key until p →
  held_until key until p'.
Proof. intros Hn H%outcome_room_sheds. by apply held_sheds with now. Qed.

(** The quarantine of [(peer, a)] ends only with a success there. *)
Definition keeps_quarantine (key : AddressKey) (t until : N) (op : pol_op) : Prop :=
  t ≤ pol_now op < until ∧
  match op with PSuccess peer a _ => (peer, a) ≠ key | _ => True end.
#[global] Instance keeps_quarantine_dec key t until op : Decision (keeps_quarantine key t until op).
Proof. unfold keeps_quarantine. destruct op; apply _. Defined.

Lemma held_release key until now p peer a :
  now < until → held_until key until p →
  held_until key until (ConnectionPolicy_release_from_book p peer a now).2.
Proof.
  intros Hn Hh. rw release_from_book_alt. case_match; [done|].
  assert (∀ q, held_until key until q → held_until key until (book_leave peer a q)) as Hleave.
  { intros q. unfold held_until. by destruct (book_leave_frame peer a q) as (_ & _ & _ & ->). }
  destruct (cp_addresses p !! (peer, a)) as [s|] eqn:Ek; [|by apply Hleave].
  destruct (ConnectionPolicy_make_room_for_address p now) as [room p'] eqn:Er.
  pose proof (make_room_sheds _ _ _ _ Er) as Hs.
  pose proof (held_sheds _ _ _ _ _ Hn Hs Hh) as Hh'.
  destruct (AddressState_is_punitive_at s now) eqn:Ep; destruct room; simpl; auto.
  apply Hleave. destruct Hh' as (s' & u & Hk & Hu & Hle). exists s', u. split; [|done]. simpl.
  rw lookup_delete_ne; [done|]. intros <-. destruct Hs as [Hsub _ _ _ _].
  assert (s' = s) as ->.
  { pose proof (lookup_weaken _ _ _ _ Hk Hsub). congruence. }
  unfold AddressState_is_punitive_at in Ep. rw Hu in Ep. apply N.ltb_ge in Ep. lia.
Qed.

Lemma held_score key until now p peer a :
  now < until → held_until key until p →
  held_until key until (ConnectionPolicy_score_address_failure p peer a now).
Proof.
  intros Hn Hh. unfold ConnectionPolicy_score_address_failure.
  destruct (outcome_room p peer a now) as [room p'] eqn:Er.
  pose proof (held_outcome _ _ _ _ _ _ _ _ Hn Er Hh) as (s & u & Hk & Hu & Hle).
  destruct room; [|by exists s, u]. destruct (decide ((peer, a) = key)) as [<-|Hne].
  - eexists _, u. simpl. rw lookup_insert_eq Hk. simpl. split; [done|]. done.
  - exists s, u. simpl. by rw lookup_insert_ne.
Qed.

Lemma held_step key t until p op :
  until = sat_add u64_max t IDENTITY_MISMATCH_QUARANTINE_MS → keeps_quarantine key t until op →
  held_until key until p → held_until key until (pol_step p op).
Proof.
  intros Hu [[Ht Hn] Hop] Hh. destruct op as [now|peer a now|peer a now|peer a now|peer a now
    |peer a now b|peer a now|peer now|peer now]; cbn [pol_step pol_now] in *.
  - eapply held_sheds; [exact Hn|apply prune_sheds|done].
  - by apply held_release.
  - done.
  - unfold ConnectionPolicy_record_success. destruct (negb _ && negb _).
    + destruct (ConnectionPolicy_make_room_for_address p now) as [room p'] eqn:Er.
      pose proof (held_sheds _ _ _ _ _ Hn (make_room_sheds _ _ _ _ Er) Hh) as (s & u & Hk & ? & ?).
      destruct room; exists s, u; simpl; by rw ?lookup_insert_ne.
    + destruct Hh as (s & u & Hk & ? & ?). exists s, u. simpl. by rw lookup_insert_ne.
  - by apply held_score.
  - unfold ConnectionPolicy_record_address_failure.
    pose proof (held_score key until now p peer a Hn Hh) as Hh'.
    set (p1 := ConnectionPolicy_score_address_failure p peer a now) in *. clearbody p1.
    case_match; [done|]. case_bool_decide; [done|]. simpl.
    unfold ConnectionPolicy_make_room_for_peer. repeat case_match; simplify_eq; done.
  - unfold ConnectionPolicy_record_identity_mismatch.
    destruct (outcome_room p peer a now) as [room p'] eqn:Er.
    pose proof (held_outcome _ _ _ _ _ _ _ _ Hn Er Hh) as (s & u & Hk & Hsu & Hle).
    destruct room; [|by exists s, u]. destruct (decide ((peer, a) = key)) as [<-|Hne].
    + eexists _, _. simpl. rw lookup_insert_eq. split; [done|]. split; [done|].
      subst until. unfold sat_add. generalize u64_max IDENTITY_MISMATCH_QUARANTINE_MS. intros. lia.
    + exists s, u. simpl. by rw lookup_insert_ne.
  - done.
  - unfold ConnectionPolicy_lift_peer_backoff. by repeat case_match.
Qed.

Lemma held_run key t until p ops :
  until = sat_add u64_max t IDENTITY_MISMATCH_QUARANTINE_MS →
  Forall (keeps_quarantine key t until) ops → held_until key until p →
  held_until key until (pol_run p ops).
Proof.
  intros Hu Hall. revert p. induction Hall as [|op ops Hop _ IH]; intros p Hp; [done|].
  by apply IH, held_step with t.
Qed.

Lemma held_denied peer a until p now :
  held_until (peer, a) until p → now < until →
  ConnectionPolicy_is_address_dialable p peer a now = false ∧
  ∀ origin class, is_ok (ConnectionPolicy_admit p (MkDialRequest (Some peer) a origin) class now)
                  = false.
Proof.
  intros (s & u & Hk & Hu & Hle) Hn.
  assert (AddressState_is_dialable_at s now = false) as Hd.
  { unfold AddressState_is_dialable_at. rw Hu. apply N.leb_gt. lia. }
  split; [unfold ConnectionPolicy_is_address_dialable; by rw Hk|].
  intros origin class. unfold ConnectionPolicy_admit. simpl. rw Hk Hd. simpl.
  destruct (negb _); [|done]. destruct (match class with Unauthorized => _ | _ => _ end); [|done].
  simpl. by destruct (negb _).
Qed.

Lemma mismatch_held p peer a t p1 :
  ConnectionPolicy_record_identity_mismatch p peer a t = (true, p1) →
  held_until (peer, a) (sat_add u64_max t IDENTITY_MISMATCH_QUARANTINE_MS) p1.
Proof.
  unfold ConnectionPolicy_record_identity_mismatch.
  destruct (outcome_room p peer a t) as [room p'] eqn:Er. destruct room; [|done]. intros [= <-].
  eexists _, _. simpl. rw lookup_insert_eq. done.
Qed.

(** over every history of outcomes, pruning, book changes and backoff
    changes, the table holds at most 8192 records of addresses outside the
    book and at most 4096 peers. *)
Theorem policy_state_bounded (dials connections : N) (ops : list pol_op) :
  let p := pol_run (ConnectionPolicy_new dials connections) ops in
  outside_count p ≤ cp_max_addresses p ∧ ConnectionPolicy_peer_entries p ≤ cp_max_peers p.
Proof.
  intros p. destruct (pol_run_inv _ ops (pol_new_inv dials connections)) as [H1 H2].
  fold p in H1, H2. done.
Qed.

(** C35: a quarantine cannot be laundered.  Once an identity mismatch is
    recorded for an address of a peer, then for the next thirty minutes that
    address is not dialable and no dial to it is admitted, whatever outcomes
    are recorded for other addresses, however full the table gets, and
    whether the address enters or leaves the book: only a recorded success at
    that very address ends it. *)
Theorem quarantine_survives (p p1 : ConnectionPolicy) (peer : TransportIdentity) (a : bytes)
    (t now : N) (ops : list pol_op) :
  let deadline := sat_add u64_max t IDENTITY_MISMATCH_QUARANTINE_MS in
  ConnectionPolicy_record_identity_mismatch p peer a t = (true, p1) →
  Forall (keeps_quarantine (peer, a) t deadline) ops → now < deadline →
  let p2 := pol_run p1 ops in
  ConnectionPolicy_is_address_dialable p2 peer a now = false ∧
  ∀ origin class, is_ok (ConnectionPolicy_admit p2 (MkDialRequest (Some peer) a origin) class now)
                  = false.
Proof.
  intros deadline Hm Hops Hn p2. apply held_denied with deadline; [|done].
  apply held_run with t; [done|done|]. by eapply mismatch_held.
Qed.

Definition policy_peer (n : N) : TransportIdentity := MkTransportIdentity [byte_of (65 + n)].

Lemma quarantine_survives_witness :
  let p1 := (ConnectionPolicy_record_identity_mismatch (ConnectionPolicy_new 4 4)
    (policy_peer 1) (bs "/ip4/1") 1000).2 in
  ConnectionPolicy_is_address_dialable
    (pol_run p1 [PSuccess (policy_peer 1) (bs "/ip4/2") 2000; PPrune 1700000;
                 PLearn (policy_peer 1) (bs "/ip4/1") 1700000;
                 PRelease (policy_peer 1) (bs "/ip4/1") 1700001])
    (policy_peer 1) (bs "/ip4/1") 1800999 = false.
Proof.
  refine (proj1 (quarantine_survives (ConnectionPolicy_new 4 4) _ (policy_peer 1) (bs "/ip4/1")
    1000 1800999 [PSuccess (policy_peer 1) (bs "/ip4/2") 2000; PPrune 1700000;
                 PLearn (policy_peer 1) (bs "/ip4/1") 1700000;
                 PRelease (policy_peer 1) (bs "/ip4/1") 1700001] _ _ _)).
  - by vm_compute.
  - apply (bool_decide_unpack (Forall _ _)). by vm_compute.
  - by vm_compute.
Defined.

(** ** Admission *)

(** an admitted dial can always be punished.  Whenever a dial naming a
    peer is admitted, the identity mismatch it may end in can be recorded at
    that moment: admission already refused it if the table could not take the
    quarantine.  And admission respects the class: nothing is admitted to an
    unauthorized peer, and an infrastructure peer is admitted only for
    origins that do not name an application destination. *)
Theorem admitted_dial_recordable (dials connections : N) (ops : list pol_op)
    (peer : TransportIdentity) (a : bytes) (origin : DialOrigin) (class : ConnectionClass) (now : N) :
  let p := pol_run (ConnectionPolicy_new dials connections) ops in
  ConnectionPolicy_admit p (MkDialRequest (Some peer) a origin) class now = Ok () →
  (ConnectionPolicy_record_identity_mismatch p peer a now).1 = true ∧
  (class = DataPlaneTrusted ∨
   class = ConnectivityInfrastructureOnly ∧ names_application_destination origin = false).
Proof.
  intros p. assert (pol_inv p) as [Ha _] by apply pol_run_inv, pol_new_inv. clearbody p.
  unfold ConnectionPolicy_admit. cbn [dr_peer dr_address dr_origin].
  destruct (negb (cp_shutting_down p)); [|done]. intros H.
  apply result_bind_Ok in H as ([] & Hclass & H).
  split; [|destruct class; [by left|right|done]; by destruct (names_application_destination origin)].
  destruct (negb (match cp_peers p !! peer with Some _ => _ | None => _ end)); [|done].
  destruct (negb (match cp_addresses p !! _ with Some _ => _ | None => _ end)); [|done].
  destruct (negb (_ && _)) eqn:Efull; [|done]. clear H Hclass.
  unfold ConnectionPolicy_record_identity_mismatch, outcome_room. revert Efull.
  case_bool_decide as Hk; [done|]. destruct (in_book (cp_book p) peer a) eqn:Hb; [done|].
  cbn [orb negb andb].
  intros Efull%negb_true_iff.
  destruct (ConnectionPolicy_make_room_for_address _ now) as [room p'] eqn:Er.
  destruct room; [done|]. exfalso.
  apply make_room_cases in Er as [(Hf & _)|[(Hf & _)|(_ & _ & Hge & Hall)]]; [discriminate Hf..|].
  pose proof (prune_sheds p now) as [Hsub Hlive Hbook Hmax _].
  set (q := (ConnectionPolicy_prune p now).2) in *. clearbody q.
  pose proof (outside_count_mono p q Hsub Hbook) as Hmono. rw Hmax in Hge.
  apply andb_false_iff in Efull as [Hlt%N.leb_gt|Hex%negb_false_iff]; [lia|].
  apply List.existsb_exists in Hex as ([k s] & Hin & [Ho Hp]%andb_prop). simpl in *.
  apply list_elem_of_In, elem_of_btree_to_list in Hin. apply negb_true_iff in Hp.
  destruct (cp_addresses q !! k) as [s'|] eqn:Eq.
  - assert (s' = s) as ->.
    { pose proof (lookup_weaken _ _ _ _ Eq Hsub). congruence. }
    rw -Hbook in Ho. by rw (Hall _ _ Eq Ho) in Hp.
  - assert (outside_count q < outside_count p); [|lia].
    rw (outside_count_alt p) (msum_delete _ _ _ _ Hin) Ho.
    pose proof (outside_count_alt (set_addresses p (delete k (cp_addresses p)))) as Halt.
    simpl in Halt. rw -Halt.
    enough (outside_count q ≤ outside_count (set_addresses p (delete k (cp_addresses p)))) by lia.
    apply outside_count_mono; [|done]. simpl.
    apply map_subseteq_spec. intros k' s' Hk'. rw lookup_delete_ne; [|congruence].
    by eapply lookup_weaken.
Qed.

Lemma admitted_dial_recordable_witness :
  let p := pol_run (ConnectionPolicy_new 4 4) [PMismatch (policy_peer 1) (bs "/ip4/1") 1000] in
  (ConnectionPolicy_record_identity_mismatch p (policy_peer 1) (bs "/ip4/2") 2000).1 = true.
Proof.
  refine (proj1 (admitted_dial_recordable 4 4 [PMismatch (policy_peer 1) (bs "/ip4/1") 1000]
    (policy_peer 1) (bs "/ip4/2") Manual DataPlaneTrusted 2000 _)).
  by vm_compute.
Defined.

(** ** Preference order *)

Lemma preference_total x y : preference_le x y ∨ preference_le y x.
Proof.
  destruct x as [[b1 n1] a1], y as [[b2 n2] a2]. unfold preference_le.
  destruct b1, b2; simpl; auto; destruct (N.ltb_spec n1 n2), (N.ltb_spec n2 n1); auto;
    destruct (N.eqb_spec n1 n2), (N.eqb_spec n2 n1); try lia; simpl; apply bytes_leb_total.
Qed.
Lemma preference_trans x y z : preference_le x y → preference_le y z → preference_le x z.
Proof.
  destruct x as [[b1 n1] a1], y as [[b2 n2] a2], z as [[b3 n3] a3]. unfold preference_le.
  destruct b1, b2, b3; simpl; try done;
    destruct (N.ltb_spec n1 n2), (N.ltb_spec n2 n3), (N.ltb_spec n1 n3),
      (N.eqb_spec n1 n2), (N.eqb_spec n2 n3), (N.eqb_spec n1 n3); simpl; try done; try lia;
    apply bytes_leb_trans.
Qed.

(** the addresses offered for a dial are exactly the dialable candidates,
    each as often as it was offered, none of them quarantined, ordered so that
    a recently good address comes before any other and among equals the
    address with fewer failures comes first. *)
Theorem preferred_addresses_ordered (p : ConnectionPolicy) (peer : TransportIdentity)
    (candidates : list bytes) (now : N) :
  let out := ConnectionPolicy_preferred_addresses p peer candidates now in
  out ≡ₚ filter (λ a, ConnectionPolicy_is_address_dialable p peer a now = true) candidates ∧
  StronglySorted (λ a b, preference_le (preference p peer a) (preference p peer b)) out.
Proof.
  intros out. unfold out, ConnectionPolicy_preferred_addresses. split; [apply merge_sort_Permutation|].
  apply StronglySorted_merge_sort.
  - intros a b c. apply preference_trans.
  - intros a b. apply preference_total.
Qed.
