(* ===== verification/ConnectionManager.v ===== *)
(** * The connection manager

    [crates/transport/runtime/src/connection_manager.rs]: the root connection
    funnel. The manager owns the policy and publishes immutable snapshots of
    it; the tasks that dial hold a snapshot and decide against it. Policy is
    photographed, resources are live: the counters of pending dials, open
    connections and outcome reservations are atomics the manager, the snapshots
    and the tickets share. Operations that touch them are programs over that
    shared memory ([Atomics]); the memory is one cell per manager, so a ticket
    of one manager handed to another still names its own counters. *)
From S2P Require Import Prelude Atomics Ids Trust ConnectionPolicy.
Local Open Scope N_scope.

(** ** Trust sources *)

Record TrustSources := MkTrustSources {
  ts_peers : PeerTrustPolicy;
  ts_infrastructure : InfrastructureSet;
  ts_local_peer : option TransportIdentity
}.
Definition TrustSources_default : TrustSources :=
  MkTrustSources PeerTrustPolicy_default (MkInfrastructureSet ∅) None.
Definition TrustSources_new (peers : PeerTrustPolicy) (infrastructure : InfrastructureSet) :
    TrustSources := MkTrustSources peers infrastructure None.
Definition TrustSources_bind (t : TrustSources) (local : option TransportIdentity) : TrustSources :=
  MkTrustSources (ts_peers t) (ts_infrastructure t) local.

Definition TrustSources_classify (t : TrustSources) (peer : TransportIdentity) : ConnectionClass :=
  if bool_decide (ts_local_peer t = Some peer) then Unauthorized
  else if TrustDecision_is_allowed (PeerTrustPolicy_decide (ts_peers t) peer) then DataPlaneTrusted
  else if permits_control_connection (ts_infrastructure t) peer
  then ConnectivityInfrastructureOnly
  else Unauthorized.
(** [matches!(classify(peer), ConnectionClass::Unauthorized)] *)
Definition unclassified (t : TrustSources) (peer : TransportIdentity) : bool :=
  bool_decide (TrustSources_classify t peer = Unauthorized).

(** ** Shared memory *)

(** The counters, flags and published cell of one manager. *)
Abbreviation Cell := nat (only parsing).

Record PolicySnapshot := MkPolicySnapshot {
  ps_policy : ConnectionPolicy;
  ps_trust : TrustSources;
  ps_revision : N;
  ps_cell : Cell;
  ps_max_pending_dials : N;
  ps_max_connections : N
}.

Record Shared := MkShared {
  sh_pending : N;
  sh_outcomes : N;
  sh_connections : N;
  sh_shutting_down : bool;
  sh_published : PolicySnapshot;
  (** [ManagerLiveness]: whether the manager still exists *)
  sh_alive : bool
}.
Abbreviation heap := (Cell → Shared) (only parsing).
Definition hset (h : heap) (c : Cell) (s : Shared) : heap := λ d, if decide (d = c) then s else h d.
(** One access to one cell. *)
Definition on {X} (c : Cell) (f : Shared → X * Shared) : prog heap X :=
  act (λ h, let '(x, s) := f (h c) in (x, hset h c s)).

Definition load_shutting (c : Cell) : prog heap bool := on c (λ s, (sh_shutting_down s, s)).
Definition load_alive (c : Cell) : prog heap bool := on c (λ s, (sh_alive s, s)).
Definition load_published (c : Cell) : prog heap PolicySnapshot := on c (λ s, (sh_published s, s)).
Definition load_pending (c : Cell) : prog heap N := on c (λ s, (sh_pending s, s)).
Definition load_connections (c : Cell) : prog heap N := on c (λ s, (sh_connections s, s)).
Definition store_shutting (c : Cell) : prog heap () :=
  on c (λ s, ((), MkShared (sh_pending s) (sh_outcomes s) (sh_connections s) true (sh_published s)
                    (sh_alive s))).
Definition install (c : Cell) (next : PolicySnapshot) : prog heap () :=
  on c (λ s, ((), MkShared (sh_pending s) (sh_outcomes s) (sh_connections s) (sh_shutting_down s)
                    next (sh_alive s))).

(** [AtomicUsize::fetch_sub] wraps. *)
Definition wrapping_sub (a b : N) : N := (a + (usize_max + 1) - b) mod (usize_max + 1).

(** The three counters. *)
Inductive Counter := CPending | COutcomes | CConnections.
#[global] Instance Counter_eq_dec : EqDecision Counter.
Proof. solve_decision. Defined.
Definition get_counter (k : Counter) (s : Shared) : N :=
  match k with CPending => sh_pending s | COutcomes => sh_outcomes s | CConnections => sh_connections s end.
Definition set_counter (k : Counter) (s : Shared) (n : N) : Shared :=
  match k with
  | CPending => MkShared n (sh_outcomes s) (sh_connections s) (sh_shutting_down s) (sh_published s) (sh_alive s)
  | COutcomes => MkShared (sh_pending s) n (sh_connections s) (sh_shutting_down s) (sh_published s) (sh_alive s)
  | CConnections => MkShared (sh_pending s) (sh_outcomes s) n (sh_shutting_down s) (sh_published s) (sh_alive s)
  end.
Definition fetch_sub (c : Cell) (k : Counter) (n : N) : prog heap () :=
  on c (λ s, ((), set_counter k s (wrapping_sub (get_counter k s) n))).

(** [reserve], at its linearization point: the compare-exchange that took the
    unit, or the read that found the ceiling reached ([reserve_linearizes]). *)
Definition reserve (c : Cell) (k : Counter) (ceiling : N) : prog heap (result () ()) :=
  on c (λ s, if ceiling <=? get_counter k s then (Err (), s)
             else (Ok (), set_counter k s (get_counter k s + 1))).

(** The loop [reserve] runs: [current] was read, and each attempt at the
    compare-exchange meets the value then stored, or fails spuriously. [None]
    is a loop still running when the attempts end. *)
Fixpoint reserve_loop (ceiling current : N) (attempts : list (N * bool)) : option (result N N) :=
  if ceiling <=? current then Some (Err current)
  else match attempts with
       | [] => None
       | (stored, spurious) :: attempts =>
           if (stored =? current) && negb spurious then Some (Ok (current + 1))
           else reserve_loop ceiling stored attempts
       end.

(** The loop decides as [reserve] does on one value: the value the successful
    compare-exchange met in place, or the one that showed the ceiling reached. *)
Lemma reserve_linearizes ceiling current attempts r :
  reserve_loop ceiling current attempts = Some r →
  (∃ v, r = Ok (v + 1) ∧ v < ceiling ∧ (v, false) ∈ attempts) ∨
  (∃ v, r = Err v ∧ ceiling ≤ v ∧ (v = current ∨ v ∈ attempts.*1)).
Proof.
  revert current. induction attempts as [|[stored spurious] l IH]; intros current; simpl;
    destruct (N.leb_spec ceiling current) as [Hc|Hc]; [|done| |].
  1,2: intros [= <-]; right; exists current; split_and!; [done..|by left].
  destruct (N.eqb_spec stored current) as [->|Hne], spurious; simpl.
  2:{ intros [= <-]. left. exists current. split_and!; [done..|]. by left. }
  all: intros [(v & -> & Hv & Hin)|(v & -> & Hv & Hin)]%IH; [left|right]; exists v; split_and!; try done.
  all: rewrite ?elem_of_cons; naive_solver.
Qed.

(** ** Tickets and slots *)

Record ConnectionSlot := MkConnectionSlot { cs_cell : Cell; cs_released : bool }.
Definition ConnectionSlot_drop (s : ConnectionSlot) : prog heap () :=
  _ <-- (if negb (cs_released s) then fetch_sub (cs_cell s) CConnections 1 else Ret ());
  Ret ().

(** The counters a ticket names are those of [tk_cell]. *)
Record DialTicket := MkDialTicket {
  tk_cell : Cell;
  tk_outcome_reserved : bool;
  tk_origin : DialOrigin;
  tk_peer : option TransportIdentity;
  tk_address : bytes;
  tk_settled : bool;
  tk_connection_kept : bool;
  tk_admitted_at_ms : N
}.
Definition ticket_flags (t : DialTicket) (outcome_reserved settled connection_kept : bool) :
    DialTicket :=
  MkDialTicket (tk_cell t) outcome_reserved (tk_origin t) (tk_peer t) (tk_address t) settled
    connection_kept (tk_admitted_at_ms t).

Definition DialTicket_settled_at (t : DialTicket) (now_ms : N) : N :=
  if tk_admitted_at_ms t <? now_ms then now_ms else tk_admitted_at_ms t.
Definition DialTicket_owns_scheduler_claim (t : DialTicket) : bool :=
  bool_decide (tk_origin t = OriginConnectionManager).
Definition DialTicket_rebind_address (t : DialTicket) (address : bytes) : bool * DialTicket :=
  if negb (bool_decide (tk_address t = [])) || bool_decide (address = []) then (false, t)
  else (true, MkDialTicket (tk_cell t) (tk_outcome_reserved t) (tk_origin t) (tk_peer t) address
                (tk_settled t) (tk_connection_kept t) (tk_admitted_at_ms t)).
Definition DialTicket_drop (t : DialTicket) : prog heap () :=
  _ <-- (if tk_outcome_reserved t then fetch_sub (tk_cell t) COutcomes 1 else Ret ());
  _ <-- (if negb (tk_connection_kept t) then fetch_sub (tk_cell t) CConnections 1 else Ret ());
  _ <-- (if negb (tk_settled t) then fetch_sub (tk_cell t) CPending 1 else Ret ());
  Ret ().

(** ** Snapshots *)

Definition PolicySnapshot_is_current (s : PolicySnapshot) : prog heap bool :=
  alive <-- load_alive (ps_cell s);
  if negb alive then Ret false
  else
    current <-- load_published (ps_cell s);
    Ret (ps_revision s =? ps_revision current).
Definition PolicySnapshot_classify (s : PolicySnapshot) (peer : TransportIdentity) :
    ConnectionClass := TrustSources_classify (ps_trust s) peer.
Definition PolicySnapshot_address_dialable (s : PolicySnapshot) (peer : TransportIdentity)
    (address : bytes) (now_ms : N) : bool :=
  ConnectionPolicy_is_address_dialable (ps_policy s) peer address now_ms.
(** The class of what a request names. *)
Definition request_class (s : PolicySnapshot) (request : DialRequest) : ConnectionClass :=
  match dr_peer request with
  | Some peer => TrustSources_classify (ps_trust s) peer
  | None => Unauthorized
  end.
(** The room a quarantine can still take. *)
Definition outcome_ceiling (p : ConnectionPolicy) (now_ms : N) : N :=
  sat_sub (cp_max_addresses p) (ConnectionPolicy_live_quarantines p now_ms).

(** The revalidation that ends [admit]. *)
Definition admit_revalidate (s : PolicySnapshot) (ticket : DialTicket) :
    prog heap (result DialTicket DialDenial) :=
  let refuse := _ <-- DialTicket_drop ticket; Ret (Err DD_PolicySuperseded) in
  shutting <-- load_shutting (ps_cell s);
  if shutting then refuse
  else
    current <-- PolicySnapshot_is_current s;
    if negb current then refuse else Ret (Ok ticket).

(** The resource half of [admit]. *)
Definition admit_reserve (s : PolicySnapshot) (request : DialRequest) (now_ms : N) :
    prog heap (result DialTicket DialDenial) :=
  pending <-- reserve (ps_cell s) CPending (ps_max_pending_dials s);
  match pending with
  | Err _ => Ret (Err DD_TooManyPendingDials)
  | Ok _ =>
      let ticket := MkDialTicket (ps_cell s) false (dr_origin request) (dr_peer request)
                      (dr_address request) false false now_ms in
      connection <-- reserve (ps_cell s) CConnections (ps_max_connections s);
      match connection with
      | Err _ =>
          _ <-- DialTicket_drop (ticket_flags ticket false false true);
          Ret (Err DD_ConnectionLimitReached)
      | Ok _ =>
          match dr_peer request with
          | None => admit_revalidate s ticket
          | Some _ =>
              outcome <-- reserve (ps_cell s) COutcomes (outcome_ceiling (ps_policy s) now_ms);
              match outcome with
              | Err _ => _ <-- DialTicket_drop ticket; Ret (Err DD_PolicyStateFull)
              | Ok _ => admit_revalidate s (ticket_flags ticket true false false)
              end
          end
      end
  end.

Definition PolicySnapshot_admit (s : PolicySnapshot) (request : DialRequest) (now_ms : N) :
    prog heap (result DialTicket DialDenial) :=
  let class := request_class s request in
  shutting <-- load_shutting (ps_cell s);
  if shutting then Ret (Err DD_ShuttingDown)
  else
    current <-- PolicySnapshot_is_current s;
    if negb current then Ret (Err DD_PolicySuperseded)
    else
      match ConnectionPolicy_admit (ps_policy s) request class now_ms with
      | Err e => Ret (Err e)
      | Ok _ => admit_reserve s request now_ms
      end.

Record SnapshotHandle := MkSnapshotHandle { hd_cell : Cell }.
Definition SnapshotHandle_load (h : SnapshotHandle) : prog heap PolicySnapshot :=
  load_published (hd_cell h).
Definition ADMIT_RELOAD_ATTEMPTS : nat := 3.
Fixpoint admit_attempts (n : nat) (h : SnapshotHandle) (request : DialRequest) (now_ms : N) :
    prog heap (result DialTicket DialDenial) :=
  match n with
  | O => Ret (Err DD_PolicySuperseded)
  | S n =>
      s <-- SnapshotHandle_load h;
      r <-- PolicySnapshot_admit s request now_ms;
      match r with
      | Err DD_PolicySuperseded => admit_attempts n h request now_ms
      | _ => Ret r
      end
  end.
Definition SnapshotHandle_admit (h : SnapshotHandle) (request : DialRequest) (now_ms : N) :
    prog heap (result DialTicket DialDenial) :=
  admit_attempts ADMIT_RELOAD_ATTEMPTS h request now_ms.

(** ** The manager *)

Definition DEFAULT_MAX_RETRY_ENTRIES : N := 1024.
Definition DEFAULT_MAX_ADDRESSES_PER_PEER : N := 8.
Definition MAX_ADDRESSES_PER_PEER : N := 32.
Definition MAX_RETIRED_BOOK_PEERS : N := 256.
Definition MAX_GATE_NOTES : N := 64.
Definition RETRY_BASE_MS : N := 30000.
Definition RETRY_CEILING_MS : N := 5 * 60 * 1000.

Definition retry_backoff_ms (attempts : N) : N :=
  let shifted := sat_mul u64_max RETRY_BASE_MS (N.shiftl 1 (if attempts <? 8 then attempts else 8)) in
  if shifted <? RETRY_CEILING_MS then shifted else RETRY_CEILING_MS.

Record Retry := MkRetry {
  rt_due_at_ms : N;
  rt_attempts : N;
  rt_claimed : bool;
  rt_waits_on : option TransportIdentity
}.
Record Revoked := MkRevoked {
  rv_peer : TransportIdentity;
  rv_was : ConnectionClass;
  rv_now : ConnectionClass
}.
Record RetryScheduled := MkRetryScheduled {
  rs_attempt : N;
  rs_delay_ms : N;
  rs_peer_backoff : bool
}.
Inductive GateNote :=
| NoteRetryScheduled (peer : TransportIdentity) (origin : DialOrigin) (retry : RetryScheduled)
| NoteAddressQuarantined (peer : TransportIdentity) (for_ms : N).
Record PeerGateState := MkPeerGateState {
  pgs_backoff_until_ms : option N;
  pgs_quarantined_until_ms : option N;
  pgs_retry_due_at_ms : option N
}.
Inductive RetentionRefusal := PerPeerLimitReached | ConnectedPeerLimitReached.

Definition permits (now was : ConnectionClass) : bool :=
  match was, now with
  | Unauthorized, _ => true
  | _, DataPlaneTrusted => true
  | ConnectivityInfrastructureOnly, ConnectivityInfrastructureOnly => true
  | _, _ => false
  end.

Record ConnectionManager := MkConnectionManager {
  cm_policy : ConnectionPolicy;
  cm_trust : TrustSources;
  cm_revision : N;
  cm_cell : Cell;
  cm_max_pending_dials : N;
  cm_outcomes_to_return : N;
  cm_max_connections : N;
  cm_local_peer : option TransportIdentity;
  cm_retries : gmap TransportIdentity Retry;
  cm_network_lifts : gmap TransportIdentity N;
  cm_retired : list TransportIdentity;
  cm_notes : list GateNote;
  cm_notes_dropped : N;
  cm_clock_ms : N;
  cm_max_addresses_per_peer : N;
  cm_max_retry_entries : N
}.

(** Functional field updates. *)
Definition with_policy (m : ConnectionManager) (v : ConnectionPolicy) : ConnectionManager :=
  MkConnectionManager v (cm_trust m) (cm_revision m) (cm_cell m) (cm_max_pending_dials m)
    (cm_outcomes_to_return m) (cm_max_connections m) (cm_local_peer m) (cm_retries m)
    (cm_network_lifts m) (cm_retired m) (cm_notes m) (cm_notes_dropped m) (cm_clock_ms m)
    (cm_max_addresses_per_peer m) (cm_max_retry_entries m).
Definition with_trust (m : ConnectionManager) (v : TrustSources) : ConnectionManager :=
  MkConnectionManager (cm_policy m) v (cm_revision m) (cm_cell m) (cm_max_pending_dials m)
    (cm_outcomes_to_return m) (cm_max_connections m) (cm_local_peer m) (cm_retries m)
    (cm_network_lifts m) (cm_retired m) (cm_notes m) (cm_notes_dropped m) (cm_clock_ms m)
    (cm_max_addresses_per_peer m) (cm_max_retry_entries m).
Definition with_revision (m : ConnectionManager) (v : N) : ConnectionManager :=
  MkConnectionManager (cm_policy m) (cm_trust m) v (cm_cell m) (cm_max_pending_dials m)
    (cm_outcomes_to_return m) (cm_max_connections m) (cm_local_peer m) (cm_retries m)
    (cm_network_lifts m) (cm_retired m) (cm_notes m) (cm_notes_dropped m) (cm_clock_ms m)
    (cm_max_addresses_per_peer m) (cm_max_retry_entries m).
Definition with_outcomes_to_return (m : ConnectionManager) (v : N) : ConnectionManager :=
  MkConnectionManager (cm_policy m) (cm_trust m) (cm_revision m) (cm_cell m)
    (cm_max_pending_dials m) v (cm_max_connections m) (cm_local_peer m) (cm_retries m)
    (cm_network_lifts m) (cm_retired m) (cm_notes m) (cm_notes_dropped m) (cm_clock_ms m)
    (cm_max_addresses_per_peer m) (cm_max_retry_entries m).
Definition with_local_peer (m : ConnectionManager) (v : option TransportIdentity) : ConnectionManager :=
  MkConnectionManager (cm_policy m) (cm_trust m) (cm_revision m) (cm_cell m)
    (cm_max_pending_dials m) (cm_outcomes_to_return m) (cm_max_connections m) v (cm_retries m)
    (cm_network_lifts m) (cm_retired m) (cm_notes m) (cm_notes_dropped m) (cm_clock_ms m)
    (cm_max_addresses_per_peer m) (cm_max_retry_entries m).
Definition with_retries (m : ConnectionManager) (v : gmap TransportIdentity Retry) : ConnectionManager :=
  MkConnectionManager (cm_policy m) (cm_trust m) (cm_revision m) (cm_cell m)
    (cm_max_pending_dials m) (cm_outcomes_to_return m) (cm_max_connections m) (cm_local_peer
    m) v (cm_network_lifts m) (cm_retired m) (cm_notes m) (cm_notes_dropped m) (cm_clock_ms m)
    (cm_max_addresses_per_peer m) (cm_max_retry_entries m).
Definition with_network_lifts (m : ConnectionManager) (v : gmap TransportIdentity N) : ConnectionManager :=
  MkConnectionManager (cm_policy m) (cm_trust m) (cm_revision m) (cm_cell m)
    (cm_max_pending_dials m) (cm_outcomes_to_return m) (cm_max_connections m) (cm_local_peer
    m) (cm_retries m) v (cm_retired m) (cm_notes m) (cm_notes_dropped m) (cm_clock_ms m)
    (cm_max_addresses_per_peer m) (cm_max_retry_entries m).
Definition with_retired (m : ConnectionManager) (v : list TransportIdentity) : ConnectionManager :=
  MkConnectionManager (cm_policy m) (cm_trust m) (cm_revision m) (cm_cell m)
    (cm_max_pending_dials m) (cm_outcomes_to_return m) (cm_max_connections m) (cm_local_peer
    m) (cm_retries m) (cm_network_lifts m) v (cm_notes m) (cm_notes_dropped m) (cm_clock_ms m)
    (cm_max_addresses_per_peer m) (cm_max_retry_entries m).
Definition with_clock_ms (m : ConnectionManager) (v : N) : ConnectionManager :=
  MkConnectionManager (cm_policy m) (cm_trust m) (cm_revision m) (cm_cell m)
    (cm_max_pending_dials m) (cm_outcomes_to_return m) (cm_max_connections m) (cm_local_peer
    m) (cm_retries m) (cm_network_lifts m) (cm_retired m) (cm_notes m) (cm_notes_dropped m) v
    (cm_max_addresses_per_peer m) (cm_max_retry_entries m).
Definition with_max_addresses_per_peer (m : ConnectionManager) (v : N) : ConnectionManager :=
  MkConnectionManager (cm_policy m) (cm_trust m) (cm_revision m) (cm_cell m)
    (cm_max_pending_dials m) (cm_outcomes_to_return m) (cm_max_connections m) (cm_local_peer
    m) (cm_retries m) (cm_network_lifts m) (cm_retired m) (cm_notes m) (cm_notes_dropped m)
    (cm_clock_ms m) v (cm_max_retry_entries m).
Definition with_notes (m : ConnectionManager) (l : list GateNote) (n : N) : ConnectionManager :=
  MkConnectionManager (cm_policy m) (cm_trust m) (cm_revision m) (cm_cell m)
    (cm_max_pending_dials m) (cm_outcomes_to_return m) (cm_max_connections m) (cm_local_peer
    m) (cm_retries m) (cm_network_lifts m) (cm_retired m) l n (cm_clock_ms m)
    (cm_max_addresses_per_peer m) (cm_max_retry_entries m).

Definition snapshot_of (m : ConnectionManager) : PolicySnapshot :=
  MkPolicySnapshot (cm_policy m) (cm_trust m) (cm_revision m) (cm_cell m) (cm_max_pending_dials m)
    (cm_max_connections m).

(** [new]: the manager, and the cell it shares. *)
Definition ConnectionManager_new (c : Cell) (policy : ConnectionPolicy) (max_pending_dials : N) :
    Shared * ConnectionManager :=
  let m := MkConnectionManager policy TrustSources_default 0 c max_pending_dials 0
             (cp_max_connections policy) None ∅ ∅ [] [] 0 0 DEFAULT_MAX_ADDRESSES_PER_PEER
             DEFAULT_MAX_RETRY_ENTRIES in
  (MkShared 0 0 0 false (snapshot_of m) true, m).
(** Dropping the manager drops the one strong reference to its liveness. *)
Definition ConnectionManager_drop (m : ConnectionManager) : prog heap () :=
  on (cm_cell m) (λ s, ((), MkShared (sh_pending s) (sh_outcomes s) (sh_connections s)
                              (sh_shutting_down s) (sh_published s) false)).

Definition ConnectionManager_set_max_addresses_per_peer (m : ConnectionManager) (limit : N) :
    ConnectionManager :=
  with_max_addresses_per_peer m (N.max 1 (N.min limit MAX_ADDRESSES_PER_PEER)).
Definition ConnectionManager_handle (m : ConnectionManager) : SnapshotHandle :=
  MkSnapshotHandle (cm_cell m).
Definition ConnectionManager_classify (m : ConnectionManager) (peer : TransportIdentity) :
    ConnectionClass := TrustSources_classify (cm_trust m) peer.

Definition ConnectionManager_publish (m : ConnectionManager) : prog heap ConnectionManager :=
  let m := with_revision m (sat_add u64_max (cm_revision m) 1) in
  _ <-- install (cm_cell m) (snapshot_of m);
  if 0 <? cm_outcomes_to_return m then
    _ <-- fetch_sub (cm_cell m) COutcomes (cm_outcomes_to_return m);
    Ret (with_outcomes_to_return m 0)
  else Ret m.

Definition ConnectionManager_bind_local_peer (m : ConnectionManager) (local : TransportIdentity) :
    prog heap ConnectionManager :=
  ConnectionManager_publish
    (with_trust (with_local_peer m (Some local)) (TrustSources_bind (cm_trust m) (Some local))).

Definition ConnectionManager_observe (m : ConnectionManager) (now_ms : N) : ConnectionManager :=
  with_clock_ms m (N.max (cm_clock_ms m) now_ms).

Definition ConnectionManager_hand_over (m : ConnectionManager) (peer : TransportIdentity)
    (address : bytes) (now_ms : N) : prog heap (bool * ConnectionManager) :=
  let p := cm_policy m in
  let live := in_book (cp_book p) peer address &&
              match cp_addresses p !! (peer, address) with
              | Some s => AddressState_is_punitive_at s now_ms
              | None => false
              end in
  if negb live then
    let '(gone, p) := ConnectionPolicy_release_from_book p peer address now_ms in
    Ret (gone, with_policy m p)
  else
    reserved <-- reserve (cm_cell m) COutcomes (outcome_ceiling p now_ms);
    match reserved with
    | Err _ => Ret (false, m)
    | Ok _ =>
        let '(gone, p) := ConnectionPolicy_release_from_book p peer address now_ms in
        let m := with_policy m p in
        if negb gone then
          _ <-- fetch_sub (cm_cell m) COutcomes 1;
          Ret (false, m)
        else
          m <-- ConnectionManager_publish
                  (with_outcomes_to_return m (cm_outcomes_to_return m + 1));
          Ret (true, m)
    end.

(** [for address in addresses { let _ = self.hand_over(..) }] *)
Fixpoint hand_over_all (m : ConnectionManager) (peer : TransportIdentity) (addresses : list bytes) :
    prog heap ConnectionManager :=
  match addresses with
  | [] => Ret m
  | address :: addresses =>
      r <-- ConnectionManager_hand_over m peer address (cm_clock_ms m);
      hand_over_all r.2 peer addresses
  end.
Definition known_of (p : ConnectionPolicy) (peer : TransportIdentity) : list bytes :=
  match cp_book p !! peer with Some known => bset_to_list known | None => [] end.
(** [while self.retired.len() > MAX_RETIRED_BOOK_PEERS]: the peers that stay
    and those not reached. *)
Fixpoint retire_loop (m : ConnectionManager) (stuck retired : list TransportIdentity) :
    prog heap (ConnectionManager * list TransportIdentity * list TransportIdentity) :=
  match retired with
  | oldest :: rest =>
      if MAX_RETIRED_BOOK_PEERS <? len retired then
        m <-- hand_over_all m oldest (known_of (cm_policy m) oldest);
        retire_loop m (if bool_decide (is_Some (cp_book (cm_policy m) !! oldest))
                       then stuck ++ [oldest] else stuck) rest
      else Ret (m, stuck, retired)
  | [] => Ret (m, stuck, [])
  end.
Definition retire_unclassified_book_peers (m : ConnectionManager) : prog heap ConnectionManager :=
  let kept := filter (λ peer, unclassified (cm_trust m) peer = true) (cm_retired m) in
  let newly :=
    filter (λ peer, unclassified (cm_trust m) peer && negb (bool_decide (peer ∈ kept)) = true)
      (btree_to_list (cp_book (cm_policy m))).*1 in
  '(m, stuck, retired) <-- retire_loop m [] (kept ++ newly);
  Ret (with_retired m (stuck ++ retired)).

Definition revoked_of (was now : TrustSources) (peer : TransportIdentity) : option Revoked :=
  let w := TrustSources_classify was peer in
  let n := TrustSources_classify now peer in
  if negb (bool_decide (w = n)) && negb (permits n w) then Some (MkRevoked peer w n) else None.
Definition ConnectionManager_set_trust (m : ConnectionManager) (trust : TrustSources)
    (live : list TransportIdentity) : prog heap (list Revoked * ConnectionManager) :=
  let previous := cm_trust m in
  m <-- retire_unclassified_book_peers (with_trust m (TrustSources_bind trust (cm_local_peer m)));
  m <-- ConnectionManager_publish m;
  Ret (omap (revoked_of previous (cm_trust m)) live, m).

(** ** Learning addresses *)

(** [iter().max_by(..)]: the last of the greatest. *)
Definition max_last {A} (leb : A → A → bool) (l : list A) : option A :=
  foldl (λ acc y, match acc with None => Some y | Some x => if leb x y then Some y else acc end)
    None l.

Definition last_success (p : ConnectionPolicy) (peer : TransportIdentity) (a : bytes) : option N :=
  cp_addresses p !! (peer, a) ≫= as_last_success_ms.
Definition address_failures (p : ConnectionPolicy) (peer : TransportIdentity) (a : bytes) : N :=
  match cp_addresses p !! (peer, a) with Some s => as_consecutive_failures s | None => 0 end.
(** [Option]'s derived order: [None] first. *)
Definition opt_leb (a b : option N) : bool :=
  match a, b with None, _ => true | Some _, None => false | Some x, Some y => x <=? y end.

(** [max_by_key(|a| (last_success(a), Reverse(a)))] over the proven ones. *)
Definition newest_proven (p : ConnectionPolicy) (peer : TransportIdentity) (known : list bytes) :
    option bytes :=
  max_last
    (λ a b, let sa := last_success p peer a in
            let sb := last_success p peer b in
            if bool_decide (sa = sb) then bytes_leb b a else opt_leb sa sb)
    (filter (λ a, bool_decide (is_Some (last_success p peer a)) = true) known).

Definition evictable (p : ConnectionPolicy) (peer : TransportIdentity) (known : list bytes)
    (now_ms : N) (a : bytes) : bool :=
  negb (ConnectionPolicy_is_address_dialable p peer a now_ms) ||
  (0 <? address_failures p peer a) && negb (bool_decide (newest_proven p peer known = Some a)).
(** The key [(!dialable, Reverse(last_success), address_failures)], compared. *)
Definition victim_leb (p : ConnectionPolicy) (peer : TransportIdentity) (now_ms : N) (a b : bytes) :
    bool :=
  let qa := negb (ConnectionPolicy_is_address_dialable p peer a now_ms) in
  let qb := negb (ConnectionPolicy_is_address_dialable p peer b now_ms) in
  if bool_decide (qa = qb) then
    let sa := last_success p peer a in
    let sb := last_success p peer b in
    if bool_decide (sa = sb) then address_failures p peer a <=? address_failures p peer b else opt_leb sb sa
  else qb.
Definition victim (p : ConnectionPolicy) (peer : TransportIdentity) (known : list bytes)
    (now_ms : N) : option bytes :=
  max_last (victim_leb p peer now_ms)
    (filter (λ a, evictable p peer known now_ms a = true) known).

(** [retry.due_at_ms = retry.due_at_ms.min(now_ms)], unless claimed. *)
Definition due_by (now_ms : N) (r : Retry) : Retry :=
  if rt_claimed r then r
  else MkRetry (N.min (rt_due_at_ms r) now_ms) (rt_attempts r) false (rt_waits_on r).
(** The new entry, and the retry an untried address makes due. *)
Definition learn_new (m : ConnectionManager) (peer : TransportIdentity) (address : bytes)
    (now_ms : N) : ConnectionManager :=
  let untried := bool_decide (cp_addresses (cm_policy m) !! (peer, address) = None) in
  let m := with_policy m (book_insert (cm_policy m) peer address) in
  if untried then
    match cm_retries m !! peer with
    | Some r => with_retries m (<[peer := due_by now_ms r]> (cm_retries m))
    | None => m
    end
  else m.

Definition ConnectionManager_learn_address (m : ConnectionManager) (peer : TransportIdentity)
    (address : bytes) (now_ms : N) : prog heap (bool * ConnectionManager) :=
  let m := ConnectionManager_observe m now_ms in
  if unclassified (cm_trust m) peer then Ret (false, m)
  else if in_book (cp_book (cm_policy m)) peer address then Ret (true, m)
  else
    let known := known_of (cm_policy m) peer in
    if bool_decide (is_Some (cp_book (cm_policy m) !! peer)) &&
       (cm_max_addresses_per_peer m <=? len known) then
      match victim (cm_policy m) peer known now_ms with
      | None => Ret (false, m)
      | Some stale =>
          '(gone, m) <-- ConnectionManager_hand_over m peer stale now_ms;
          if negb gone then Ret (false, m)
          else Ret (true, learn_new m peer address now_ms)
      end
    else Ret (true, learn_new m peer address now_ms).

Definition ConnectionManager_dial_candidates (m : ConnectionManager) (peer : TransportIdentity)
    (now_ms : N) : list bytes :=
  ConnectionPolicy_preferred_addresses (cm_policy m) peer (known_of (cm_policy m) peer) now_ms.
Definition ConnectionManager_known_addresses (m : ConnectionManager) (peer : TransportIdentity) : N :=
  match cp_book (cm_policy m) !! peer with Some known => N.of_nat (size known) | None => 0 end.

(** ** The retry table *)

Definition ConnectionManager_clear_retry_claim (m : ConnectionManager) (peer : TransportIdentity) :
    ConnectionManager := with_retries m (delete peer (cm_retries m)).
Definition set_claimed (b : bool) (r : Retry) : Retry :=
  MkRetry (rt_due_at_ms r) (rt_attempts r) b (rt_waits_on r).
(** [if let Some(entry) = self.retries.get_mut(peer) { entry.claimed = b }] *)
Definition mark_claim (b : bool) (m : ConnectionManager) (peer : TransportIdentity) :
    ConnectionManager :=
  match cm_retries m !! peer with
  | Some r => with_retries m (<[peer := set_claimed b r]> (cm_retries m))
  | None => m
  end.
Definition ConnectionManager_reclaim_retry := mark_claim true.
Definition ConnectionManager_release_retry_claim := mark_claim false.

Definition is_due (now_ms : N) (r : Retry) : bool := negb (rt_claimed r) && (rt_due_at_ms r <=? now_ms).
Definition ConnectionManager_take_due_retries (m : ConnectionManager) (now_ms limit : N) :
    list TransportIdentity * ConnectionManager :=
  let m := ConnectionManager_observe m now_ms in
  let due := filter (λ kr, is_due now_ms kr.2 = true) (btree_to_list (cm_retries m)) in
  let taken := ntake limit (sort_by (λ a b, rt_due_at_ms a.2 <=? rt_due_at_ms b.2) due) in
  (taken.*1, foldl (mark_claim true) m taken.*1).
Definition ConnectionManager_scheduled_retries (m : ConnectionManager) : N :=
  N.of_nat (size (cm_retries m)).
Definition ConnectionManager_is_retry_due (m : ConnectionManager) (peer : TransportIdentity)
    (now_ms : N) : bool :=
  match cm_retries m !! peer with Some r => is_due now_ms r | None => false end.

Definition attempts_of (m : ConnectionManager) (peer : TransportIdentity) : N :=
  match cm_retries m !! peer with Some r => rt_attempts r | None => 0 end.
Definition ConnectionManager_retry_delay_ms (m : ConnectionManager) (peer : TransportIdentity) : N :=
  retry_backoff_ms (attempts_of m peer).
Definition ConnectionManager_schedule_retry (m : ConnectionManager) (peer : TransportIdentity)
    (now_ms delay : N) (claimed : bool) : N * ConnectionManager :=
  let attempts := attempts_of m peer in
  let retries :=
    if bool_decide (cm_retries m !! peer = None) &&
       (cm_max_retry_entries m <=? N.of_nat (size (cm_retries m))) then
      match max_last (λ a b, rt_due_at_ms a.2 <=? rt_due_at_ms b.2) (btree_to_list (cm_retries m)) with
      | Some (furthest, _) => delete furthest (cm_retries m)
      | None => cm_retries m
      end
    else cm_retries m in
  let attempt := sat_add u32_max attempts 1 in
  (attempt,
   with_retries m
     (<[peer := MkRetry (sat_add u64_max now_ms delay) attempt claimed None]> retries)).

Definition ConnectionManager_note (m : ConnectionManager) (note : GateNote) : ConnectionManager :=
  if MAX_GATE_NOTES <=? len (cm_notes m)
  then with_notes m (tail (cm_notes m) ++ [note]) (sat_add u64_max (cm_notes_dropped m) 1)
  else with_notes m (cm_notes m ++ [note]) (cm_notes_dropped m).
Definition ConnectionManager_drain_notes (m : ConnectionManager) : list GateNote * ConnectionManager :=
  (cm_notes m, with_notes m [] (cm_notes_dropped m)).

(** ** Settling a dial *)

Definition ConnectionManager_issued_here (m : ConnectionManager) (t : DialTicket) : bool :=
  bool_decide (tk_cell t = cm_cell m).

Definition ConnectionManager_settle (m : ConnectionManager) (t : DialTicket) :
    prog heap ConnectionManager :=
  _ <-- fetch_sub (tk_cell t) CPending 1;
  if tk_outcome_reserved t && bool_decide (tk_cell t = cm_cell m) then
    _ <-- DialTicket_drop (ticket_flags t false true (tk_connection_kept t));
    Ret (with_outcomes_to_return m (cm_outcomes_to_return m + 1))
  else
    _ <-- DialTicket_drop (ticket_flags t (tk_outcome_reserved t) true (tk_connection_kept t));
    Ret m.
Definition ConnectionManager_keep_connection (m : ConnectionManager) (t : DialTicket) :
    prog heap (ConnectionSlot * ConnectionManager) :=
  m <-- ConnectionManager_settle m (ticket_flags t (tk_outcome_reserved t) (tk_settled t) true);
  Ret (MkConnectionSlot (tk_cell t) false, m).
(** Settle, publish, answer. *)
Definition settle_and_publish {A} (m : ConnectionManager) (t : DialTicket) (a : A) :
    prog heap (A * ConnectionManager) :=
  m <-- ConnectionManager_settle m t;
  m <-- ConnectionManager_publish m;
  Ret (a, m).
(** [return] with a ticket not issued here: it drops. *)
Definition not_issued {A} (m : ConnectionManager) (t : DialTicket) (a : A) :
    prog heap (A * ConnectionManager) :=
  _ <-- DialTicket_drop t; Ret (a, m).

Definition ConnectionManager_record_success (m : ConnectionManager) (t : DialTicket) (now_ms : N) :
    prog heap (ConnectionSlot * ConnectionManager) :=
  let now_ms := DialTicket_settled_at t now_ms in
  let m := ConnectionManager_observe m now_ms in
  if negb (ConnectionManager_issued_here m t) then ConnectionManager_keep_connection m t
  else
    let m :=
      match tk_peer t with
      | Some peer =>
          let m := with_policy m (ConnectionPolicy_record_success (cm_policy m) peer (tk_address t) now_ms) in
          with_retries m (delete peer (cm_retries m))
      | None => m
      end in
    '(slot, m) <-- ConnectionManager_keep_connection m t;
    m <-- ConnectionManager_publish m;
    Ret (slot, m).

(** Whether another dial holds the claim this failure would rewrite. *)
Definition held_by_another (m : ConnectionManager) (t : DialTicket) (peer : TransportIdentity) : bool :=
  negb (DialTicket_owns_scheduler_claim t) &&
  match cm_retries m !! peer with Some r => rt_claimed r | None => false end.

Definition ConnectionManager_record_failure (m : ConnectionManager) (t : DialTicket) (now_ms : N) :
    prog heap (option RetryScheduled * ConnectionManager) :=
  let now_ms := DialTicket_settled_at t now_ms in
  let m := ConnectionManager_observe m now_ms in
  if negb (ConnectionManager_issued_here m t) then not_issued m t None
  else if bool_decide (tk_address t = []) then settle_and_publish m t None
  else if bool_decide (tk_origin t = DcutrHolePunch) then settle_and_publish m t None
  else
    match tk_peer t with
    | None => settle_and_publish m t None
    | Some peer =>
        let delay := ConnectionManager_retry_delay_ms m peer in
        let '(peer_backoff, p) :=
          ConnectionPolicy_record_address_failure (cm_policy m) peer (tk_address t) now_ms delay in
        '(_, m) <-- ConnectionManager_learn_address (with_policy m p) peer (tk_address t) now_ms;
        let '(attempt, m) :=
          ConnectionManager_schedule_retry m peer now_ms delay (held_by_another m t peer) in
        let retry := MkRetryScheduled attempt delay peer_backoff in
        let m := ConnectionManager_note m (NoteRetryScheduled peer (tk_origin t) retry) in
        settle_and_publish m t (Some retry)
    end.

(** What a retry waits for after its relay was not reached. *)
Definition hop_unreached (relay : TransportIdentity) (relay_came_up : bool) (now_ms : N) (r : Retry) :
    Retry :=
  if relay_came_up then MkRetry now_ms (rt_attempts r) (rt_claimed r) (rt_waits_on r)
  else MkRetry (rt_due_at_ms r) (rt_attempts r) (rt_claimed r) (Some relay).
(** The address of a hop that failed: ranked down and learned. *)
Definition rank_down (m : ConnectionManager) (peer : TransportIdentity) (address : bytes) (now_ms : N) :
    prog heap ConnectionManager :=
  if bool_decide (address = []) then Ret m
  else
    '(_, m) <-- ConnectionManager_learn_address
                  (with_policy m (ConnectionPolicy_score_address_failure (cm_policy m) peer address now_ms))
                  peer address now_ms;
    Ret m.
Definition ConnectionManager_record_relay_hop_unreached (m : ConnectionManager) (t : DialTicket)
    (relay : TransportIdentity) (relay_came_up : bool) (now_ms : N) :
    prog heap (option RetryScheduled * ConnectionManager) :=
  let now_ms := DialTicket_settled_at t now_ms in
  let m := ConnectionManager_observe m now_ms in
  if negb (ConnectionManager_issued_here m t) then not_issued m t None
  else
    match tk_peer t with
    | None => settle_and_publish m t None
    | Some peer =>
        m <-- rank_down m peer (tk_address t) now_ms;
        let delay := ConnectionManager_retry_delay_ms m peer in
        let '(attempt, m) :=
          ConnectionManager_schedule_retry m peer now_ms delay (held_by_another m t peer) in
        let m :=
          match cm_retries m !! peer with
          | Some r => with_retries m (<[peer := hop_unreached relay relay_came_up now_ms r]> (cm_retries m))
          | None => m
          end in
        let retry := MkRetryScheduled attempt (if relay_came_up then 0 else delay) false in
        let m := ConnectionManager_note m (NoteRetryScheduled peer (tk_origin t) retry) in
        settle_and_publish m t (Some retry)
    end.

Definition reached (relay : TransportIdentity) (now_ms : N) (r : Retry) : Retry :=
  if negb (rt_claimed r) && bool_decide (rt_waits_on r = Some relay)
  then MkRetry (N.min (rt_due_at_ms r) now_ms) (rt_attempts r) (rt_claimed r) None
  else r.
Definition ConnectionManager_relay_reached (m : ConnectionManager) (relay : TransportIdentity)
    (now_ms : N) : ConnectionManager :=
  let m := ConnectionManager_observe m now_ms in
  with_retries m (reached relay now_ms <$> cm_retries m).

Definition ConnectionManager_record_address_failure_unadmitted (m : ConnectionManager)
    (peer : TransportIdentity) (address : bytes) (now_ms : N) : prog heap ConnectionManager :=
  if bool_decide (address = []) then Ret m
  else
    let delay := ConnectionManager_retry_delay_ms m peer in
    let '(_, p) := ConnectionPolicy_record_address_failure (cm_policy m) peer address now_ms delay in
    '(_, m) <-- ConnectionManager_learn_address (with_policy m p) peer address now_ms;
    ConnectionManager_publish m.
Definition ConnectionManager_record_permanent_address_failure_unadmitted (m : ConnectionManager)
    (peer : TransportIdentity) (address : bytes) : prog heap ConnectionManager :=
  if bool_decide (address = []) then Ret m
  else
    '(_, m) <-- ConnectionManager_hand_over m peer address (cm_clock_ms m);
    ConnectionManager_publish m.

Definition ConnectionManager_record_permanent_failure (m : ConnectionManager) (t : DialTicket)
    (now_ms : N) : prog heap (() * ConnectionManager) :=
  let now_ms := DialTicket_settled_at t now_ms in
  let m := ConnectionManager_observe m now_ms in
  if negb (ConnectionManager_issued_here m t) then not_issued m t ()
  else
    match tk_peer t with
    | None => settle_and_publish m t ()
    | Some peer =>
        '(_, m) <-- ConnectionManager_hand_over m peer (tk_address t) now_ms;
        let m := if DialTicket_owns_scheduler_claim t
                 then ConnectionManager_release_retry_claim m peer else m in
        settle_and_publish m t ()
    end.

(** [if ticket.owns_scheduler_claim() && let Some(peer) = ticket.peer()] *)
Definition on_own_claim (f : ConnectionManager → TransportIdentity → ConnectionManager)
    (m : ConnectionManager) (t : DialTicket) : ConnectionManager :=
  if DialTicket_owns_scheduler_claim t
  then match tk_peer t with Some peer => f m peer | None => m end else m.
Definition ConnectionManager_record_authorization_withdrawn (m : ConnectionManager) (t : DialTicket)
    (now_ms : N) : prog heap (() * ConnectionManager) :=
  let m := ConnectionManager_observe m now_ms in
  if negb (ConnectionManager_issued_here m t) then not_issued m t ()
  else settle_and_publish (on_own_claim ConnectionManager_clear_retry_claim m t) t ().
Definition ConnectionManager_record_locally_refused (m : ConnectionManager) (t : DialTicket)
    (now_ms : N) : prog heap (() * ConnectionManager) :=
  let m := ConnectionManager_observe m now_ms in
  if negb (ConnectionManager_issued_here m t) then not_issued m t ()
  else settle_and_publish (on_own_claim ConnectionManager_clear_retry_claim m t) t ().

Definition ConnectionManager_record_identity_mismatch (m : ConnectionManager) (t : DialTicket)
    (now_ms : N) : prog heap (bool * ConnectionManager) :=
  let now_ms := DialTicket_settled_at t now_ms in
  let m := ConnectionManager_observe m now_ms in
  if negb (ConnectionManager_issued_here m t) then not_issued m t false
  else
    let '(mismatched, m) :=
      match tk_peer t with
      | Some peer =>
          let '(b, p) :=
            ConnectionPolicy_record_identity_mismatch (cm_policy m) peer (tk_address t) now_ms in
          let m := with_policy m p in
          (b, if b then ConnectionManager_note m
                          (NoteAddressQuarantined peer IDENTITY_MISMATCH_QUARANTINE_MS) else m)
      | None => (false, m)
      end in
    settle_and_publish (on_own_claim ConnectionManager_release_retry_claim m t) t mismatched.

(** ** Connections held *)

Definition ConnectionManager_admit_inbound (m : ConnectionManager) :
    prog heap (option ConnectionSlot * ConnectionManager) :=
  shutting <-- load_shutting (cm_cell m);
  if shutting then Ret (None, m)
  else
    r <-- reserve (cm_cell m) CConnections (cm_max_connections m);
    match r with
    | Err _ => Ret (None, m)
    | Ok _ =>
        m <-- ConnectionManager_publish m;
        Ret (Some (MkConnectionSlot (cm_cell m) false), m)
    end.
Definition ConnectionManager_admits_retention (m : ConnectionManager)
    (held_for_peer connected_peers : N) : result () RetentionRefusal :=
  if cp_max_connections_per_peer (cm_policy m) <=? held_for_peer then Err PerPeerLimitReached
  else if (held_for_peer =? 0) && (cp_max_connected_peers (cm_policy m) <=? connected_peers)
  then Err ConnectedPeerLimitReached
  else Ok ().
Definition ConnectionManager_record_inbound_retained (m : ConnectionManager)
    (peer : TransportIdentity) (now_ms : N) : prog heap (bool * ConnectionManager) :=
  let m := ConnectionManager_observe m now_ms in
  let '(backoff, p) := ConnectionPolicy_clear_peer_backoff (cm_policy m) peer in
  let retry := bool_decide (is_Some (cm_retries m !! peer)) in
  let m := with_retries (with_policy m p) (delete peer (cm_retries m)) in
  if backoff || retry then m <-- ConnectionManager_publish m; Ret (true, m) else Ret (false, m).
Definition ConnectionManager_record_connection_closed (m : ConnectionManager) (slot : ConnectionSlot) :
    prog heap ConnectionManager :=
  _ <-- ConnectionSlot_drop slot; ConnectionManager_publish m.

(** One peer of the loop in [network_added]. *)
Definition lift_peer (now_ms : N) (st : ConnectionManager * N) (peer : TransportIdentity) :
    ConnectionManager * N :=
  let '(m, lifted) := st in
  let '(backoff, p) := ConnectionPolicy_lift_peer_backoff (cm_policy m) peer now_ms in
  let m := with_policy m p in
  let data_plane := bool_decide (ConnectionManager_classify m peer = DataPlaneTrusted) in
  let '(retry, m) :=
    match cm_retries m !! peer with
    | Some r =>
        if data_plane && negb (rt_claimed r) && (now_ms <? rt_due_at_ms r)
        then (true, with_retries m (<[peer := MkRetry now_ms (rt_attempts r) (rt_claimed r)
                                                (rt_waits_on r)]> (cm_retries m)))
        else (false, m)
    | None => (false, m)
    end in
  if backoff || retry
  then (with_network_lifts m (<[peer := now_ms]> (cm_network_lifts m)), lifted + 1)
  else (m, lifted).
(** The lifts still inside the floor, of peers still classified. *)
Definition prune_lifts (m : ConnectionManager) (now_ms : N) : ConnectionManager :=
  with_network_lifts m
    (filter (λ pa, (sat_sub now_ms pa.2 <? RETRY_BASE_MS) && negb (unclassified (cm_trust m) pa.1) = true)
       (cm_network_lifts m)).
(** The held-off peers that may be lifted now, in order. *)
Definition liftable (m : ConnectionManager) : list TransportIdentity :=
  bset_to_list
    (filter (λ p, negb (unclassified (cm_trust m) p) && bool_decide (cm_network_lifts m !! p = None) = true)
       (dom (cm_retries m) ∪ dom (cp_peers (cm_policy m)) : gset TransportIdentity)).
Definition ConnectionManager_network_added (m : ConnectionManager) (now_ms : N) :
    prog heap (N * ConnectionManager) :=
  let m := prune_lifts (ConnectionManager_observe m now_ms) now_ms in
  let '(m, lifted) := foldl (lift_peer now_ms) (m, 0) (liftable m) in
  if 0 <? lifted then m <-- ConnectionManager_publish m; Ret (lifted, m) else Ret (lifted, m).

Definition ConnectionManager_holds_off (m : ConnectionManager) (peer : TransportIdentity)
    (now_ms : N) : bool :=
  match cp_peers (cm_policy m) !! peer with
  | Some backoff => PeerBackoff_is_punitive_at backoff now_ms
  | None => false
  end.
Definition ConnectionManager_authorizes_for (m : ConnectionManager) (class : ConnectionClass)
    (origin : DialOrigin) : prog heap bool :=
  shutting <-- load_shutting (cm_cell m);
  Ret (negb shutting &&
       match class with
       | Unauthorized => false
       | DataPlaneTrusted => true
       | ConnectivityInfrastructureOnly => negb (names_application_destination origin)
       end).
Definition ConnectionManager_authorizes (m : ConnectionManager) (class : ConnectionClass) :
    prog heap bool := ConnectionManager_authorizes_for m class Manual.
Definition ConnectionManager_is_local_peer (m : ConnectionManager) (peer : TransportIdentity) : bool :=
  bool_decide (cm_local_peer m = Some peer).
Definition set_shutting_down (p : ConnectionPolicy) : ConnectionPolicy :=
  MkConnectionPolicy (cp_addresses p) (cp_book p) (cp_peers p) (cp_max_addresses p) (cp_max_peers p)
    (cp_idle_ttl_ms p) (cp_max_pending_dials p) (cp_max_connections p) (cp_max_connected_peers p)
    (cp_max_connections_per_peer p) true.
Definition ConnectionManager_begin_shutdown (m : ConnectionManager) : prog heap ConnectionManager :=
  _ <-- store_shutting (cm_cell m);
  ConnectionManager_publish (with_policy m (set_shutting_down (cm_policy m))).
Definition ConnectionManager_peer_gate_state (m : ConnectionManager) (peer : TransportIdentity)
    (now_ms : N) : PeerGateState :=
  MkPeerGateState
    (match cp_peers (cm_policy m) !! peer ≫= pb_until_ms with
     | Some until_ms => if now_ms <? until_ms then Some until_ms else None
     | None => None
     end)
    (ConnectionPolicy_quarantined_until (cm_policy m) peer now_ms)
    (rt_due_at_ms <$> cm_retries m !! peer).
