(* ===== verification/DialRoom.v ===== *)
(** * The room quarantines take

    Live quarantines outside the address book occupy the bounded table for as
    long as they last, and nothing may evict them. Dial admission counts them
    to reserve room for the outcome of each dial it admits. This file shows how
    each policy operation moves that count. *)
From S2P Require Import Prelude Ids ConnectionPolicy ConnectionManager.
Local Open Scope N_scope.

Abbreviation lq := ConnectionPolicy_live_quarantines.

(** Whether a table entry takes room at [t]. *)
Definition takes_room (p : ConnectionPolicy) (t : N) (k : AddressKey) (s : AddressState) : N :=
  if negb (in_book (cp_book p) k.1 k.2) && AddressState_is_punitive_at s t then 1 else 0.

Lemma lq_alt p t : lq p t = msum (takes_room p t) (cp_addresses p).
Proof.
  unfold ConnectionPolicy_live_quarantines.
  induction (cp_addresses p) as [|k s m Hk IH] using map_ind.
  { by rw map_filter_empty map_size_empty msum_empty. }
  rw msum_insert_fresh // -IH. unfold takes_room.
  destruct (negb (in_book (cp_book p) k.1 k.2) && AddressState_is_punitive_at s t) eqn:E.
  - rw map_filter_insert_True // map_size_insert_None; [lia|]. apply map_lookup_filter_None. by left.
  - rw map_filter_insert_False; [by rw delete_id|by rw /= E].
Qed.

Lemma punitive_later s t t' : t ≤ t' → AddressState_is_punitive_at s t' = true →
  AddressState_is_punitive_at s t = true.
Proof.
  unfold AddressState_is_punitive_at. destruct (as_quarantined_until_ms s); [|done].
  rewrite !N.ltb_lt. lia.
Qed.
Lemma takes_room_le1 p t k s : takes_room p t k s ≤ 1.
Proof. unfold takes_room. case_match; lia. Qed.
Lemma lq_later p t t' : t ≤ t' → lq p t' ≤ lq p t.
Proof.
  intros Ht. rw !lq_alt. apply msum_mono. intros k s _. unfold takes_room.
  destruct (negb _); simpl; [|lia]. destruct (AddressState_is_punitive_at s t') eqn:E; [|case_match; lia].
  by rw (punitive_later s t t' Ht E).
Qed.
Lemma lq_sub p p' t :
  cp_addresses p' ⊆ cp_addresses p → cp_book p' = cp_book p → lq p' t ≤ lq p t.
Proof.
  intros Hsub Hb. unfold ConnectionPolicy_live_quarantines. rw Hb.
  enough (size (filter (λ ks, negb (in_book (cp_book p) ks.1.1 ks.1.2) &&
      AddressState_is_punitive_at ks.2 t = true) (cp_addresses p')) ≤
    size (filter (λ ks, negb (in_book (cp_book p) ks.1.1 ks.1.2) &&
      AddressState_is_punitive_at ks.2 t = true) (cp_addresses p)))%nat by lia.
  apply map_subseteq_size, map_subseteq_spec. intros k s.
  rw !map_lookup_filter_Some. intros [Hk Ho]. split; [|done]. by eapply lookup_weaken.
Qed.
Lemma lq_insert p k s t :
  lq (set_addresses p (<[k := s]> (cp_addresses p))) t +
    match cp_addresses p !! k with Some s0 => takes_room p t k s0 | None => 0 end =
  lq p t + takes_room p t k s.
Proof.
  rw !lq_alt. pose proof (msum_upsert (takes_room p t) (cp_addresses p) k s) as H.
  exact H.
Qed.
Lemma lq_insert_le p k s t :
  lq (set_addresses p (<[k := s]> (cp_addresses p))) t ≤ lq p t + takes_room p t k s.
Proof. pose proof (lq_insert p k s t). lia. Qed.
Lemma lq_peers p b t : lq (set_peers p b) t = lq p t.
Proof. done. Qed.

Lemma lq_sheds now p p' t : sheds now p p' → lq p' t ≤ lq p t.
Proof. intros [Hs _ Hb _ _]. by apply lq_sub. Qed.

(** ** What an operation does to the count *)

Lemma lq_book_insert p peer a t : lq (book_insert p peer a) t ≤ lq p t.
Proof.
  rw !lq_alt. apply msum_mono. intros [q b] s _. unfold takes_room. simpl.
  pose proof (in_book_insert p peer a q b) as Hi. simpl in Hi. rw Hi.
  destruct (in_book (cp_book p) q b); [by rw orb_true_r|]. simpl.
  destruct (bool_decide _); simpl; [|lia]. case_match; lia.
Qed.
Lemma lq_success p peer a now t : lq (ConnectionPolicy_record_success p peer a now) t ≤ lq p t.
Proof.
  unfold ConnectionPolicy_record_success.
  assert (∀ q, lq (set_peers (set_addresses q (<[(peer, a) := MkAddressState 0 now (Some now) None]>
    (cp_addresses q))) (delete peer (cp_peers q))) t ≤ lq q t) as Hput.
  { intros q. rw lq_peers. etrans; [apply lq_insert_le|]. unfold takes_room. simpl.
    by rw andb_false_r N.add_0_r. }
  destruct (negb _ && negb _); [|apply Hput].
  destruct (ConnectionPolicy_make_room_for_address p now) as [room p'] eqn:Er.
  pose proof (lq_sheds _ _ _ t (make_room_sheds _ _ _ _ Er)) as Hs.
  destruct room; cbn [negb]; [by etrans; [apply Hput|]|by rw lq_peers].
Qed.
Lemma lq_score p peer a now t : lq (ConnectionPolicy_score_address_failure p peer a now) t ≤ lq p t.
Proof.
  unfold ConnectionPolicy_score_address_failure.
  destruct (outcome_room p peer a now) as [room p'] eqn:Er.
  pose proof (lq_sheds _ _ _ t (outcome_room_sheds _ _ _ _ _ _ Er)) as Hs.
  destruct room; [|done]. etrans; [|exact Hs].
  pose proof (lq_insert p' (peer, a)
    (MkAddressState (sat_add u32_max (as_consecutive_failures
        (default AddressState_default (cp_addresses p' !! (peer, a)))) 1) now
       (as_last_success_ms (default AddressState_default (cp_addresses p' !! (peer, a))))
       (as_quarantined_until_ms (default AddressState_default (cp_addresses p' !! (peer, a))))) t) as Hi.
  destruct (cp_addresses p' !! (peer, a)) as [s|]; unfold takes_room in Hi; simpl in *.
  - unfold AddressState_is_punitive_at in Hi. simpl in Hi. lia.
  - rw andb_false_r in Hi. lia.
Qed.
Lemma lq_failure p peer a now d t :
  lq (ConnectionPolicy_record_address_failure p peer a now d).2 t ≤ lq p t.
Proof.
  unfold ConnectionPolicy_record_address_failure. pose proof (lq_score p peer a now t) as Hs.
  set (p1 := ConnectionPolicy_score_address_failure p peer a now) in *. clearbody p1.
  case_match; [done|]. case_bool_decide; [done|]. simpl.
  unfold ConnectionPolicy_make_room_for_peer.
  destruct (_ <? _); [done|]. destruct (min_by _ _) as [[k b]|]; done.
Qed.
Lemma lq_mismatch p peer a now t :
  lq (ConnectionPolicy_record_identity_mismatch p peer a now).2 t ≤ lq p t + 1.
Proof.
  unfold ConnectionPolicy_record_identity_mismatch.
  destruct (outcome_room p peer a now) as [room p'] eqn:Er.
  pose proof (lq_sheds _ _ _ t (outcome_room_sheds _ _ _ _ _ _ Er)) as Hs.
  destruct room; cbn [negb snd]; [|lia].
  etrans; [apply lq_insert_le|]. match goal with |- _ + takes_room ?p ?t ?k ?s ≤ _ =>
    pose proof (takes_room_le1 p t k s) end. lia.
Qed.
Lemma lq_leave p peer a t :
  lq (book_leave peer a p) t ≤ lq p t +
    match cp_addresses p !! (peer, a) with
    | Some s => if AddressState_is_punitive_at s t then 1 else 0
    | None => 0
    end.
Proof.
  rw !lq_alt. destruct (book_leave_frame peer a p) as (_ & _ & _ & ->).
  assert (∀ k s, k ≠ (peer, a) → takes_room (book_leave peer a p) t k s = takes_room p t k s) as Hsame.
  { intros [q b] s Hne. unfold takes_room. simpl. by rw in_book_leave bool_decide_eq_false_2. }
  destruct (cp_addresses p !! (peer, a)) as [s|] eqn:E.
  - rw !(msum_delete _ _ _ _ E).
    assert (msum (takes_room (book_leave peer a p) t) (delete (peer, a) (cp_addresses p)) =
      msum (takes_room p t) (delete (peer, a) (cp_addresses p))) as ->.
    { apply msum_ext. intros k s' [Hne _]%lookup_delete_Some. by apply Hsame. }
    unfold takes_room. destruct (AddressState_is_punitive_at s t); [repeat case_match; lia|].
    rw !andb_false_r. lia.
  - rw N.add_0_r. apply msum_mono. intros k s' Hk. rw Hsame //. congruence.
Qed.
(** A live quarantine takes one unit of room as it leaves; any other entry none. *)
Lemma lq_release p peer a now t : now ≤ t →
  lq (ConnectionPolicy_release_from_book p peer a now).2 t ≤ lq p t +
    if in_book (cp_book p) peer a &&
       match cp_addresses p !! (peer, a) with
       | Some s => AddressState_is_punitive_at s now
       | None => false
       end then 1 else 0.
Proof.
  intros Ht. rw release_from_book_alt. destruct (in_book (cp_book p) peer a); [|simpl; lia].
  cbn [negb andb]. destruct (cp_addresses p !! (peer, a)) as [s|] eqn:E.
  2:{ cbn [snd]. etrans; [apply lq_leave|]. by rw E. }
  destruct (ConnectionPolicy_make_room_for_address p now) as [room p'] eqn:Er.
  pose proof (make_room_sheds _ _ _ _ Er) as Hsh. pose proof (lq_sheds _ _ _ t Hsh) as Hs.
  destruct (AddressState_is_punitive_at s now && negb room) eqn:Eq; cbn [snd]; [lia|].
  set (p2 := if negb room then _ else _).
  assert (lq p2 t ≤ lq p t ∧ (cp_addresses p2 !! (peer, a) = Some s ∨ cp_addresses p2 !! (peer, a) = None))
    as [Hp2 Hk].
  { unfold p2. destruct room; cbn [negb].
    - split; [done|]. destruct (cp_addresses p' !! (peer, a)) as [s'|] eqn:E'; [left|by right].
      destruct Hsh as [Hsub _ _ _ _]. pose proof (lookup_weaken _ _ _ _ E' Hsub). congruence.
    - split; [|right; simpl; apply lookup_delete_eq]. etrans; [|exact Hs].
      apply lq_sub; [apply delete_subseteq|done]. }
  etrans; [apply lq_leave|]. destruct Hk as [-> | ->].
  - destruct (AddressState_is_punitive_at s t) eqn:Et; [|case_match; lia].
    rw (punitive_later s now t Ht Et). lia.
  - case_match; lia.
Qed.

(** ** Room for an outcome *)

(** While live quarantines leave the table a slot, a mismatch is recorded. *)
Lemma mismatch_has_room p peer a now :
  pol_inv p → lq p now < cp_max_addresses p →
  (ConnectionPolicy_record_identity_mismatch p peer a now).1 = true.
Proof.
  intros [Ha _] Hroom. unfold ConnectionPolicy_record_identity_mismatch, outcome_room.
  destruct (bool_decide _ || _); [done|].
  destruct (ConnectionPolicy_make_room_for_address _ now) as [room p'] eqn:Er.
  destruct room; [done|]. exfalso.
  apply make_room_cases in Er as [(Hf & _)|[(Hf & _)|(_ & _ & Hge & Hall)]]; [discriminate Hf..|].
  pose proof (prune_sheds p now) as Hsh. pose proof (lq_sheds _ _ _ now Hsh) as Hle.
  destruct Hsh as [_ _ _ Hmax _]. set (q := (ConnectionPolicy_prune p now).2) in *. clearbody q.
  assert (lq q now = outside_count q) as Heq; [|lia].
  rw lq_alt outside_count_alt. apply msum_ext. intros k s Hk. unfold takes_room, outside_book.
  destruct (in_book (cp_book q) k.1 k.2) eqn:Eb; [done|]. cbn [negb andb].
  rw (Hall k s Hk); [done|]. unfold outside_book. by rw Eb.
Qed.

(** ** Frames *)

(** What no table operation changes. *)
Definition pol_frame (p p' : ConnectionPolicy) : Prop :=
  cp_max_addresses p' = cp_max_addresses p ∧ cp_shutting_down p' = cp_shutting_down p.
Lemma pol_frame_trans p1 p2 p3 : pol_frame p1 p2 → pol_frame p2 p3 → pol_frame p1 p3.
Proof. intros [? ?] [? ?]. split; congruence. Qed.
Lemma make_room_frame p now : pol_frame p (ConnectionPolicy_make_room_for_address p now).2.
Proof.
  unfold ConnectionPolicy_make_room_for_address. destruct (_ <? _); [done|].
  by destruct (min_by _ _) as [[k s]|].
Qed.
Lemma outcome_room_frame p peer a now : pol_frame p (outcome_room p peer a now).2.
Proof.
  unfold outcome_room. destruct (_ || _); [done|].
  eapply pol_frame_trans; [|apply make_room_frame]. done.
Qed.
Lemma success_frame p peer a now : pol_frame p (ConnectionPolicy_record_success p peer a now).
Proof.
  unfold ConnectionPolicy_record_success. destruct (negb _ && negb _).
  - pose proof (make_room_frame p now) as H.
    by destruct (ConnectionPolicy_make_room_for_address p now) as [[] p'].
  - done.
Qed.
Lemma score_frame p peer a now : pol_frame p (ConnectionPolicy_score_address_failure p peer a now).
Proof.
  unfold ConnectionPolicy_score_address_failure. pose proof (outcome_room_frame p peer a now) as H.
  by destruct (outcome_room p peer a now) as [[] p'].
Qed.
Lemma failure_frame p peer a now d :
  pol_frame p (ConnectionPolicy_record_address_failure p peer a now d).2.
Proof.
  unfold ConnectionPolicy_record_address_failure. pose proof (score_frame p peer a now) as H.
  set (p1 := ConnectionPolicy_score_address_failure p peer a now) in *. clearbody p1.
  case_match; [done|]. case_bool_decide; [done|]. simpl.
  unfold ConnectionPolicy_make_room_for_peer.
  destruct (_ <? _); [done|]. by destruct (min_by _ _) as [[k b]|].
Qed.
Lemma mismatch_frame p peer a now :
  pol_frame p (ConnectionPolicy_record_identity_mismatch p peer a now).2.
Proof.
  unfold ConnectionPolicy_record_identity_mismatch. pose proof (outcome_room_frame p peer a now) as H.
  by destruct (outcome_room p peer a now) as [[] p'].
Qed.
Lemma leave_frame p peer a : pol_frame p (book_leave peer a p).
Proof. unfold book_leave. by case_match. Qed.
Lemma release_frame p peer a now :
  pol_frame p (ConnectionPolicy_release_from_book p peer a now).2.
Proof.
  rw release_from_book_alt. case_match; [done|]. destruct (cp_addresses p !! _); [|apply leave_frame].
  pose proof (make_room_frame p now) as Hf.
  destruct (ConnectionPolicy_make_room_for_address p now) as [room p']. cbn [snd] in Hf.
  destruct (_ && _); [done|]. cbn [snd]. destruct room; cbn [negb];
    (eapply pol_frame_trans; [|apply leave_frame]); done.
Qed.
Lemma lift_frame p peer now : pol_frame p (ConnectionPolicy_lift_peer_backoff p peer now).2.
Proof. unfold ConnectionPolicy_lift_peer_backoff. by repeat case_match. Qed.
Lemma lq_lift p peer now t : lq (ConnectionPolicy_lift_peer_backoff p peer now).2 t = lq p t.
Proof. unfold ConnectionPolicy_lift_peer_backoff. by repeat case_match. Qed.
