(* ===== verification/DialConcurrency.v ===== *)
(** * Dialing from many tasks

    One manager, any number of tasks admitting dials against snapshots they
    hold, tickets and slots dropped wherever they are: every interleaving of
    their accesses to the shared cell. The invariant accounts for the units of
    each counter among the tasks, the tickets and the slots, and for the room
    the admitted dials' outcomes may still take beside the live quarantines. *)
From stdpp Require Import gmultiset.
From S2P Require Import Prelude Atomics Ids Trust ConnectionPolicy ConnectionManager DialRoom.
Local Open Scope N_scope.

(** ** Units *)

(** What a task holds: pending dials, connections, outcome units of admitted
    dials, outcome units on their way back, and outcome units reserved under a
    snapshot of the given revision and not yet revalidated. *)
Record units := MkUnits {
  u_pending : N;
  u_connections : N;
  u_admitted : N;
  u_returning : N;
  u_reserved : gmultiset N
}.
Definition units_op (a b : units) : units :=
  MkUnits (u_pending a + u_pending b) (u_connections a + u_connections b)
    (u_admitted a + u_admitted b) (u_returning a + u_returning b) (u_reserved a ⊎ u_reserved b).
#[global] Program Instance units_resources : Resources units := {| r_op := units_op |}.
Next Obligation.
  intros [] [] []. unfold units_op. simpl. f_equal; [lia..|]. apply gmultiset_disj_union_assoc.
Qed.
Next Obligation.
  intros [] []. unfold units_op. simpl. f_equal; [lia..|]. apply gmultiset_disj_union_comm.
Qed.
Lemma multiplicity_le_size (x : N) (X : gmultiset N) : (multiplicity x X ≤ size X)%nat.
Proof.
  induction X as [|y X IH] using gmultiset_ind.
  - rewrite multiplicity_empty. lia.
  - rewrite multiplicity_disj_union gmultiset_size_disj_union gmultiset_size_singleton.
    destruct (decide (y = x)) as [->|Hne].
    + rewrite multiplicity_singleton; destruct (decide (x = x)); [lia|done].
    + rewrite multiplicity_singleton_ne; [lia|done].
Qed.
Definition no_units : units := MkUnits 0 0 0 0 ∅.
Lemma units_left a : no_units ⊙ a = a.
Proof. destruct a. unfold r_op. simpl. unfold units_op. simpl. f_equal. apply gmultiset_disj_union_left_id. Qed.
Lemma units_right a : a ⊙ no_units = a.
Proof. rewrite (comm r_op). apply units_left. Qed.

Definition b2n (b : bool) : N := if b then 1 else 0.
(** What a ticket and a slot hold of cell [c]. *)
Definition ticket_units (c : Cell) (t : DialTicket) : units :=
  if bool_decide (tk_cell t = c)
  then MkUnits (b2n (negb (tk_settled t))) (b2n (negb (tk_connection_kept t)))
         (b2n (tk_outcome_reserved t)) 0 ∅
  else no_units.
Definition slot_units (c : Cell) (s : ConnectionSlot) : units :=
  if bool_decide (cs_cell s = c) then MkUnits 0 (b2n (negb (cs_released s))) 0 0 ∅ else no_units.

(** ** What has been learned *)

(** The latest time any call was given, and every snapshot published so far. *)
Record known := MkKnown { k_time : N; k_published : list PolicySnapshot }.
Definition k_grows (k k' : known) : Prop :=
  k_time k ≤ k_time k' ∧ k_published k ⊆ k_published k'.
#[global] Instance k_grows_preorder : PreOrder k_grows.
Proof.
  split; [by intros k|]. intros k1 k2 k3 [H1 H2] [H3 H4]. split; [lia|]. by etrans.
Qed.
(** An access of the manager may publish; it gives no later time. *)
Definition k_learns (k k' : known) : Prop :=
  k_time k' = k_time k ∧ k_published k ⊆ k_published k'.
#[global] Instance k_knows : Knows k_grows k_learns.
Proof.
  split; [apply _|by intros k|]. intros k k' [Ht Hp]. split; [lia|done].
Qed.
Definition k_at (k : known) (now : N) : known := MkKnown (N.max (k_time k) now) (k_published k).
Lemma k_at_grows k now : k_grows k (k_at k now).
Proof. split; [simpl; lia|done]. Qed.

(** ** The invariant *)

Section dial.
Context (c : Cell).

Record dial_inv (k : known) (h : heap) (m : ConnectionManager) (r : units) : Prop := {
  di_cell : cm_cell m = c;
  di_pending : sh_pending (h c) = u_pending r ∧ u_pending r ≤ cm_max_pending_dials m ≤ usize_max;
  di_connections :
    sh_connections (h c) = u_connections r ∧ u_connections r ≤ cm_max_connections m ≤ usize_max;
  di_outcomes :
    sh_outcomes (h c) = u_admitted r + u_returning r + N.of_nat (size (u_reserved r))
                        + cm_outcomes_to_return m ∧
    sh_outcomes (h c) ≤ cp_max_addresses (cm_policy m) ≤ usize_max;
  di_policy : pol_inv (cm_policy m);
  di_trust : ps_trust (sh_published (h c)) = cm_trust m;
  di_shutting : cp_shutting_down (ps_policy (sh_published (h c))) = cp_shutting_down (cm_policy m);
  di_revision : ps_revision (sh_published (h c)) = cm_revision m;
  di_width : cm_revision m ≤ u64_max;
  di_current : sh_published (h c) ∈ k_published k;
  di_snapshots : ∀ s, s ∈ k_published k →
    ps_cell s = c ∧ ps_revision s ≤ cm_revision m ∧
    ps_max_pending_dials s = cm_max_pending_dials m ∧ ps_max_connections s = cm_max_connections m ∧
    cp_max_addresses (ps_policy s) = cp_max_addresses (cm_policy m);
  di_reserved : ∀ n, n ∈ u_reserved r → n ≤ cm_revision m;
  (** no two snapshots share a revision *)
  di_unique : cm_revision m < u64_max →
    ∀ s, s ∈ k_published k → ps_revision s = cm_revision m → s = sh_published (h c);
  (** the published count misses only quarantines whose unit is still held *)
  di_behind : cm_revision m < u64_max →
    ∀ t, k_time k ≤ t →
    lq (cm_policy m) t ≤ lq (ps_policy (sh_published (h c))) t + cm_outcomes_to_return m;
  (** every admitted dial has room for its outcome *)
  di_room : cm_revision m < u64_max →
    ∀ t, k_time k ≤ t →
    lq (cm_policy m) t + u_admitted r + N.of_nat (multiplicity (cm_revision m) (u_reserved r))
    ≤ cp_max_addresses (cm_policy m)
}.

Abbreviation grants := (shifts k_grows dial_inv).
Abbreviation msafe := (safe k_grows k_learns dial_inv).
Abbreviation csafe := (safe_client k_grows dial_inv).

Lemma inv_later k k' h m r : k_time k ≤ k_time k' → k_published k = k_published k' →
  dial_inv k h m r → dial_inv k' h m r.
Proof.
  intros Ht Hp []. split; try done; try by rw -Hp.
  - intros Hrev t Hle. apply di_behind0; [done|lia].
  - intros Hrev t Hle. apply di_room0; [done|lia].
Qed.
Lemma inv_heap k h h' m r : h' c = h c → dial_inv k h m r → dial_inv k h' m r.
Proof. intros E []. by split; rw ?E. Qed.

(** ** Accesses *)

Lemma hset_eq h d s : hset h d s d = s.
Proof. unfold hset. by destruct (decide (d = d)). Qed.
Lemma hset_ne h d e s : d ≠ e → hset h d s e = h e.
Proof. intros Hne. unfold hset. by destruct (decide (e = d)). Qed.

Lemma on_other {X} d (f : Shared → X * Shared) h : d ≠ c →
  ((λ h, let '(x, s) := f (h d) in (x, hset h d s)) h).2 c = h c.
Proof. intros Hd. simpl. destruct (f (h d)). by apply hset_ne. Qed.

(** An access to another cell. *)
Lemma csafe_other {X A} d (f : Shared → X * Shared) (j : X → prog heap A) k r Φ : d ≠ c →
  (∀ x k', k_grows k k' → csafe k' r (j x) Φ) → csafe k r (pbind (on d f) j) Φ.
Proof.
  intros Hd Hj. simpl. intros k' h m fr Hk Hi. exists r. split; [|by apply Hj].
  eapply inv_heap; [|exact Hi]. by apply on_other.
Qed.
(** An access that reads. *)
Lemma csafe_load {X A} (f : Shared → X) (j : X → prog heap A) k r Φ :
  (∀ k' h m fr, k_grows k k' → dial_inv k' h m (r ⊙ fr) → csafe k' r (j (f (h c))) Φ) →
  csafe k r (pbind (on c (λ s, (f s, s))) j) Φ.
Proof.
  intros Hj. simpl. intros k' h m fr Hk Hi. exists r. split; [|by eapply Hj].
  eapply inv_heap; [|exact Hi]. apply hset_eq.
Qed.
Lemma wrapping_sub_exact a b : b ≤ a → a ≤ usize_max → wrapping_sub a b = a - b.
Proof.
  intros Hb Ha. unfold wrapping_sub. replace (a + (usize_max + 1) - b) with ((a - b) + 1 * (usize_max + 1)) by lia.
  rw N.Div0.mod_add N.mod_small //. lia.
Qed.

(** One access to a counter of the cell, as a step of the invariant. *)
Lemma set_counter_frame (h : heap) kd n :
  let h' := hset h c (set_counter kd (h c) n) in
  sh_published (h' c) = sh_published (h c) ∧
  (∀ kd', get_counter kd' (h' c) = if bool_decide (kd' = kd) then n else get_counter kd' (h c)).
Proof.
  cbv zeta. rewrite hset_eq. split; [by destruct kd|].
  intros kd'. by destruct kd, kd'.
Qed.

Lemma inv_pending k h m r n :
  dial_inv k h m r → n ≤ cm_max_pending_dials m →
  dial_inv k (hset h c (set_counter CPending (h c) n)) m
    (MkUnits n (u_connections r) (u_admitted r) (u_returning r) (u_reserved r)).
Proof. intros [] Hn. split; rewrite ?hset_eq; try done. split; [done|]. simpl. lia. Qed.
Lemma inv_connections k h m r n :
  dial_inv k h m r → n ≤ cm_max_connections m →
  dial_inv k (hset h c (set_counter CConnections (h c) n)) m
    (MkUnits (u_pending r) n (u_admitted r) (u_returning r) (u_reserved r)).
Proof. intros [] Hn. split; rewrite ?hset_eq; try done. split; [done|]. simpl. lia. Qed.
Lemma inv_outcomes k h m r n a b g :
  dial_inv k h m r →
  n = a + b + N.of_nat (size g) + cm_outcomes_to_return m → n ≤ cp_max_addresses (cm_policy m) →
  (∀ x, x ∈ g → x ≤ cm_revision m) →
  (cm_revision m < u64_max → ∀ t, k_time k ≤ t →
   lq (cm_policy m) t + a + N.of_nat (multiplicity (cm_revision m) g) ≤ cp_max_addresses (cm_policy m)) →
  dial_inv k (hset h c (set_counter COutcomes (h c) n)) m
    (MkUnits (u_pending r) (u_connections r) a b g).
Proof. intros [] Hn Hle Hg Hroom. split; rewrite ?hset_eq; try done. split; [done|]. simpl. lia. Qed.

(** Outcome units may always be marked as on their way back. *)
Lemma give_up_admitted k m p n a b g : grants k m (MkUnits p n a b g) m (MkUnits p n 0 (a + b) g).
Proof.
  intros k' h f Hk []. split; try done; simpl in *.
  - split; [|lia]. rewrite (proj1 di_outcomes0). lia.
  - intros Hrev t Ht. specialize (di_room0 Hrev t Ht). lia.
Qed.
Lemma give_up_reserved k m p n a b x :
  grants k m (MkUnits p n a b {[+ x +]}) m (MkUnits p n a (b + 1) ∅).
Proof.
  intros k' h f Hk []. simpl in *.
  rewrite gmultiset_size_disj_union gmultiset_size_singleton in di_outcomes0.
  rewrite -> multiplicity_disj_union in di_room0.
  split; try done; simpl; rewrite ?gmultiset_disj_union_left_id.
  - split; [|lia]. rewrite (proj1 di_outcomes0). lia.
  - intros y Hy. apply di_reserved0. apply gmultiset_elem_of_disj_union. by right.
  - intros Hrev t Ht. specialize (di_room0 Hrev t Ht). lia.
Qed.

(** ** The clients' accesses *)

Lemma csafe_fetch_pending {A} k p n a b g (j : () → prog heap A) Φ : 1 ≤ p →
  (∀ k', k_grows k k' → csafe k' (MkUnits (p - 1) n a b g) (j ()) Φ) →
  csafe k (MkUnits p n a b g) (pbind (fetch_sub c CPending 1) j) Φ.
Proof.
  intros Hp Hj. simpl. intros k' h m f Hk Hi. exists (MkUnits (p - 1) n a b g). split; [|by apply Hj].
  destruct (di_pending _ _ _ _ Hi) as [E Hle]. simpl in E, Hle. rewrite E.
  rewrite wrapping_sub_exact; [|lia..].
  replace (p + u_pending f - 1) with (p - 1 + u_pending f) by lia.
  apply (inv_pending k' h m _ (p - 1 + u_pending f) Hi). lia.
Qed.
Lemma csafe_fetch_connections {A} k p n a b g (j : () → prog heap A) Φ : 1 ≤ n →
  (∀ k', k_grows k k' → csafe k' (MkUnits p (n - 1) a b g) (j ()) Φ) →
  csafe k (MkUnits p n a b g) (pbind (fetch_sub c CConnections 1) j) Φ.
Proof.
  intros Hp Hj. simpl. intros k' h m f Hk Hi. exists (MkUnits p (n - 1) a b g). split; [|by apply Hj].
  destruct (di_connections _ _ _ _ Hi) as [E Hle]. simpl in E, Hle. rewrite E.
  rewrite wrapping_sub_exact; [|lia..].
  replace (n + u_connections f - 1) with (n - 1 + u_connections f) by lia.
  apply (inv_connections k' h m _ (n - 1 + u_connections f) Hi). lia.
Qed.
Lemma csafe_fetch_outcomes {A} k p n a b g x (j : () → prog heap A) Φ : x ≤ b →
  (∀ k', k_grows k k' → csafe k' (MkUnits p n a (b - x) g) (j ()) Φ) →
  csafe k (MkUnits p n a b g) (pbind (fetch_sub c COutcomes x) j) Φ.
Proof.
  intros Hp Hj. simpl. intros k' h m f Hk Hi. exists (MkUnits p n a (b - x) g). split; [|by apply Hj].
  destruct (di_outcomes _ _ _ _ Hi) as [E Hle]. simpl in E. rewrite wrapping_sub_exact; [|lia..].
  eapply (inv_outcomes k' h m _ (sh_outcomes (h c) - x) _ _ _ Hi); simpl; [lia|lia| |].
  - apply (di_reserved _ _ _ _ Hi).
  - apply (di_room _ _ _ _ Hi).
Qed.
Lemma csafe_reserve_pending {A} k p n a b g s (j : result () () → prog heap A) Φ :
  s ∈ k_published k →
  (∀ k', k_grows k k' → csafe k' (MkUnits p n a b g) (j (Err ())) Φ) →
  (∀ k', k_grows k k' → csafe k' (MkUnits (p + 1) n a b g) (j (Ok ())) Φ) →
  csafe k (MkUnits p n a b g) (pbind (reserve c CPending (ps_max_pending_dials s)) j) Φ.
Proof.
  intros Hs Herr Hok. simpl. intros k' h m f Hk Hi.
  destruct (di_snapshots _ _ _ _ Hi s) as (_ & _ & -> & _); [by apply Hk|].
  destruct (di_pending _ _ _ _ Hi) as [E Hle]. simpl in E, Hle. rewrite E.
  destruct (N.leb_spec (cm_max_pending_dials m) (p + u_pending f)).
  - exists (MkUnits p n a b g). split; [|by apply Herr]. simpl. eapply inv_heap; [apply hset_eq|done].
  - exists (MkUnits (p + 1) n a b g). split; [|by apply Hok]. simpl.
    replace (p + u_pending f + 1) with (p + 1 + u_pending f) by lia.
    apply (inv_pending k' h m _ (p + 1 + u_pending f) Hi). lia.
Qed.
Lemma csafe_reserve_connections {A} k p n a b g s (j : result () () → prog heap A) Φ :
  s ∈ k_published k →
  (∀ k', k_grows k k' → csafe k' (MkUnits p n a b g) (j (Err ())) Φ) →
  (∀ k', k_grows k k' → csafe k' (MkUnits p (n + 1) a b g) (j (Ok ())) Φ) →
  csafe k (MkUnits p n a b g) (pbind (reserve c CConnections (ps_max_connections s)) j) Φ.
Proof.
  intros Hs Herr Hok. simpl. intros k' h m f Hk Hi.
  destruct (di_snapshots _ _ _ _ Hi s) as (_ & _ & _ & -> & _); [by apply Hk|].
  destruct (di_connections _ _ _ _ Hi) as [E Hle]. simpl in E, Hle. rewrite E.
  destruct (N.leb_spec (cm_max_connections m) (n + u_connections f)).
  - exists (MkUnits p n a b g). split; [|by apply Herr]. simpl. eapply inv_heap; [apply hset_eq|done].
  - exists (MkUnits p (n + 1) a b g). split; [|by apply Hok]. simpl.
    replace (n + u_connections f + 1) with (n + 1 + u_connections f) by lia.
    apply (inv_connections k' h m _ (n + 1 + u_connections f) Hi). lia.
Qed.
(** Under a snapshot, an outcome unit is reserved for its revision. *)
Lemma csafe_reserve_outcomes {A} k p n a b s now (j : result () () → prog heap A) Φ :
  s ∈ k_published k → now ≤ k_time k →
  (∀ k', k_grows k k' → csafe k' (MkUnits p n a b ∅) (j (Err ())) Φ) →
  (∀ k', k_grows k k' → csafe k' (MkUnits p n a b {[+ ps_revision s +]}) (j (Ok ())) Φ) →
  csafe k (MkUnits p n a b ∅)
    (pbind (reserve c COutcomes (outcome_ceiling (ps_policy s) now)) j) Φ.
Proof.
  intros Hs Hnow Herr Hok. simpl. intros k' h m f Hk Hi.
  destruct (di_snapshots _ _ _ _ Hi s) as (_ & Hrev & _ & _ & Hmax); [by apply Hk|].
  destruct (di_outcomes _ _ _ _ Hi) as [E Hle]. simpl in E. rewrite gmultiset_disj_union_left_id in E.
  unfold outcome_ceiling, sat_sub. rewrite Hmax.
  destruct (N.leb_spec (cp_max_addresses (cm_policy m) - lq (ps_policy s) now) (sh_outcomes (h c))) as [|Hlt].
  - exists (MkUnits p n a b ∅). split; [|by apply Herr]. simpl. eapply inv_heap; [apply hset_eq|done].
  - exists (MkUnits p n a b {[+ ps_revision s +]}). split; [|by apply Hok]. simpl.
    eapply (inv_outcomes k' h m _ (sh_outcomes (h c) + 1) (a + u_admitted f) (b + u_returning f)
      ({[+ ps_revision s +]} ⊎ u_reserved f) Hi).
    + rewrite gmultiset_size_disj_union gmultiset_size_singleton. lia.
    + lia.
    + intros x [Hx|Hx]%gmultiset_elem_of_disj_union.
      * apply gmultiset_elem_of_singleton in Hx as ->. done.
      * apply (di_reserved _ _ _ _ Hi). simpl. by rewrite gmultiset_disj_union_left_id.
    + intros Hlim t Ht. rewrite multiplicity_disj_union.
      pose proof (di_room _ _ _ _ Hi Hlim t Ht) as Hroom. simpl in Hroom.
      rewrite gmultiset_disj_union_left_id in Hroom.
      destruct (decide (ps_revision s = cm_revision m)) as [Heq|Hne].
      * rewrite Heq multiplicity_singleton. destruct (decide (cm_revision m = cm_revision m)); [|done].
        pose proof (di_unique _ _ _ _ Hi Hlim s (proj2 Hk s Hs) Heq) as Hcur.
        pose proof (di_behind _ _ _ _ Hi Hlim t Ht) as Hb. rewrite -Hcur in Hb.
        assert (now ≤ t) as Hnt by (destruct Hk; lia). pose proof (lq_later (ps_policy s) now t Hnt) as Hl.
        assert (N.of_nat (multiplicity (cm_revision m) (u_reserved f)) ≤ N.of_nat (size (u_reserved f))).
        { pose proof (multiplicity_le_size (cm_revision m) (u_reserved f)). lia. }
        lia.
      * rewrite multiplicity_singleton_ne; [|done]. lia.
Qed.

Lemma csafe_ret {A} k r (a : A) (Φ : A → known → units → Prop) : Φ a k r → csafe k r (Ret a) Φ.
Proof. intros Ha. exists r. split; [|done]. intros m. apply shifts_refl. Qed.


(** A dropped ticket gives back every unit it holds. *)
Lemma drop_returning_safe k t : tk_cell t = c →
  csafe k (MkUnits (b2n (negb (tk_settled t))) (b2n (negb (tk_connection_kept t))) 0
             (b2n (tk_outcome_reserved t)) ∅) (DialTicket_drop t) (λ _ _ r, r = no_units).
Proof.
  intros Hc. unfold DialTicket_drop. rewrite Hc.
  destruct (tk_outcome_reserved t), (tk_connection_kept t), (tk_settled t); cbn [negb b2n pbind];
    repeat first
      [ apply csafe_ret; reflexivity
      | apply csafe_fetch_outcomes; [done|intros ? _]
      | apply csafe_fetch_connections; [done|intros ? _]
      | apply csafe_fetch_pending; [done|intros ? _] ].
Qed.
Lemma drop_safe k t :
  csafe k (ticket_units c t) (DialTicket_drop t) (λ _ _ r, r = no_units).
Proof.
  unfold ticket_units. case_bool_decide as Hc.
  - eapply safe_client_shift; [intros m; apply give_up_admitted|]. rewrite N.add_0_r.
    by apply drop_returning_safe.
  - unfold DialTicket_drop.
    destruct (tk_outcome_reserved t), (tk_connection_kept t), (tk_settled t); cbn [negb pbind];
      repeat first
        [ apply csafe_ret; reflexivity
        | apply csafe_other; [done|intros ? ? _] ].
Qed.
Lemma slot_drop_safe k s :
  csafe k (slot_units c s) (ConnectionSlot_drop s) (λ _ _ r, r = no_units).
Proof.
  unfold slot_units, ConnectionSlot_drop. case_bool_decide as Hc.
  - rewrite Hc. destruct (cs_released s); cbn [negb b2n pbind]; [by apply csafe_ret|].
    apply csafe_fetch_connections; [done|intros ? _]. by apply csafe_ret.
  - destruct (cs_released s); cbn [negb b2n pbind]; [by apply csafe_ret|].
    apply csafe_other; [done|intros ? ? _]. by apply csafe_ret.
Qed.

(** ** Admission *)

(** An access that reads, and what the reading lets the task claim. *)
Lemma csafe_load_claim {X A} (f : Shared → X) (j : X → prog heap A) k r Φ :
  (∀ k' h m fr, k_grows k k' → dial_inv k' h m (r ⊙ fr) →
   ∃ r', dial_inv k' h m (r' ⊙ fr) ∧ csafe k' r' (j (f (h c))) Φ) →
  csafe k r (pbind (on c (λ s, (f s, s))) j) Φ.
Proof.
  intros Hj. simpl. intros k' h m fr Hk Hi. destruct (Hj k' h m fr Hk Hi) as (r' & Hi' & Hs).
  exists r'. split; [|done]. eapply inv_heap; [apply hset_eq|done].
Qed.

(** What holds of a ticket of this manager between its admission and its
    settlement. *)
Definition open_ticket (k : known) (t : DialTicket) : Prop :=
  tk_cell t = c →
  tk_outcome_reserved t = true ∧ tk_settled t = false ∧ tk_connection_kept t = false ∧
  is_Some (tk_peer t) ∧ tk_admitted_at_ms t ≤ k_time k.
Definition admitted_post (a : result DialTicket DialDenial) (k : known) (r : units) : Prop :=
  match a with
  | Ok t => tk_cell t = c ∧ r = ticket_units c t ∧ open_ticket k t
  | Err _ => r = no_units
  end.
Lemma admitted_post_mono a k r k' : k_grows k k' → admitted_post a k r → admitted_post a k' r.
Proof.
  intros Hk. destruct a as [t|]; simpl; [|done]. intros (Hc & Hr & Ho). split_and!; [done..|].
  intros _. destruct (Ho Hc) as (? & ? & ? & ? & ?). split_and!; try done. destruct Hk. lia.
Qed.

(** A unit reserved under the snapshot found current belongs to the dial. *)
Lemma claim_reserved k h m p n x f :
  dial_inv k h m (MkUnits p n 0 0 {[+ x +]} ⊙ f) → x = ps_revision (sh_published (h c)) →
  dial_inv k h m (MkUnits p n 1 0 ∅ ⊙ f).
Proof.
  intros [] ->. simpl in *. rewrite di_revision0 in di_outcomes0 di_reserved0 di_room0.
  rewrite gmultiset_size_disj_union gmultiset_size_singleton in di_outcomes0.
  rewrite -> multiplicity_disj_union, multiplicity_singleton_eq in di_room0.
  split; try done; simpl; rewrite ?gmultiset_disj_union_left_id.
  - split; [|lia]. rewrite (proj1 di_outcomes0). lia.
  - intros y Hy. apply di_reserved0. apply gmultiset_elem_of_disj_union. by right.
  - intros Hrev t Ht. specialize (di_room0 Hrev t Ht). lia.
Qed.

Lemma refuse_safe k t e p n a b : tk_cell t = c →
  MkUnits p n a b ∅ = MkUnits (b2n (negb (tk_settled t))) (b2n (negb (tk_connection_kept t))) 0
                        (b2n (tk_outcome_reserved t)) ∅ →
  csafe k (MkUnits p n a b ∅) (pbind (DialTicket_drop t) (λ _, Ret (Err e))) admitted_post.
Proof.
  intros Hc ->. apply safe_client_bind; [apply _|]. eapply safe_client_wand; [apply _|by apply drop_returning_safe|].
  intros [] k' r' _ -> _. by apply csafe_ret.
Qed.

Lemma admit_revalidate_safe k s t : s ∈ k_published k → ps_cell s = c →
  tk_cell t = c → is_Some (tk_peer t) → tk_admitted_at_ms t ≤ k_time k →
  csafe k (MkUnits 1 1 0 0 {[+ ps_revision s +]}) (admit_revalidate s (ticket_flags t true false false))
    admitted_post.
Proof.
  intros Hs Hcell Hc Hpeer Htime. unfold admit_revalidate, PolicySnapshot_is_current. rewrite Hcell.
  assert (∀ k, csafe k (MkUnits 1 1 0 0 {[+ ps_revision s +]})
    (pbind (DialTicket_drop (ticket_flags t true false false)) (λ _, Ret (Err DD_PolicySuperseded)))
    admitted_post) as Hrefuse.
  { intros k0. eapply safe_client_shift; [intros m; apply give_up_reserved|]. by apply refuse_safe. }
  apply csafe_load. intros k1 h1 m1 f1 Hk1 _. destruct (sh_shutting_down (h1 c)); [apply Hrefuse|].
  apply safe_client_bind; [apply _|].
  apply csafe_load. intros k2 h2 m2 f2 Hk2 _. destruct (sh_alive (h2 c)); cbn [negb];
    [|apply csafe_ret; intros _; apply Hrefuse].
  apply csafe_load_claim. intros k3 h3 m3 f3 Hk3 Hi.
  destruct (N.eqb_spec (ps_revision s) (ps_revision (sh_published (h3 c)))) as [Heq|Hne].
  - exists (MkUnits 1 1 1 0 ∅). split; [by eapply claim_reserved|].
    apply csafe_ret. intros _. apply csafe_ret. simpl. split_and!; [done| |].
    + unfold ticket_units. by rewrite bool_decide_eq_true_2.
    + intros _. split_and!; try done. simpl. destruct Hk1, Hk2, Hk3. lia.
  - eexists. split; [done|]. apply csafe_ret. intros _. apply Hrefuse.
Qed.

Lemma admit_reserve_safe k s request peer now : s ∈ k_published k → ps_cell s = c → now ≤ k_time k →
  dr_peer request = Some peer → csafe k no_units (admit_reserve s request now) admitted_post.
Proof.
  intros Hs Hcell Hnow Hpeer. unfold admit_reserve. rewrite Hcell Hpeer.
  apply csafe_reserve_pending; [done|intros k1 Hk1; by apply csafe_ret|intros k1 Hk1].
  apply csafe_reserve_connections; [by apply Hk1|intros k2 Hk2; by apply refuse_safe|intros k2 Hk2].
  apply csafe_reserve_outcomes; [by apply Hk2, Hk1|destruct Hk1, Hk2; lia|intros k3 Hk3; by apply refuse_safe|].
  intros k3 Hk3. apply admit_revalidate_safe; try done; [by apply Hk3, Hk2, Hk1|].
  simpl. destruct Hk1, Hk2, Hk3. lia.
Qed.
Lemma admit_peer p request class now :
  ConnectionPolicy_admit p request class now = Ok () → dr_peer request = None → class ≠ Unauthorized.
Proof. unfold ConnectionPolicy_admit. intros Ha Hn ->. by destruct (negb _). Qed.

Lemma snapshot_admit_safe k s request now : s ∈ k_published k → ps_cell s = c → now ≤ k_time k →
  csafe k no_units (PolicySnapshot_admit s request now) admitted_post.
Proof.
  intros Hs Hcell Hnow. unfold PolicySnapshot_admit, PolicySnapshot_is_current. rewrite Hcell.
  apply csafe_load. intros k1 h1 m1 f1 Hk1 _. destruct (sh_shutting_down (h1 c)); [by apply csafe_ret|].
  apply safe_client_bind; [apply _|].
  apply csafe_load. intros k2 h2 m2 f2 Hk2 _. destruct (sh_alive (h2 c)); cbn [negb];
    [|apply csafe_ret; intros _; by apply csafe_ret].
  apply csafe_load. intros k3 h3 m3 f3 Hk3 _. apply csafe_ret. intros _.
  destruct (_ =? _); cbn [negb]; [|by apply csafe_ret].
  destruct (ConnectionPolicy_admit _ _ _ _) as [[]|e] eqn:Ha; [|by apply csafe_ret].
  destruct (dr_peer request) as [peer|] eqn:Hp.
  - apply admit_reserve_safe with peer; try done; [by apply Hk3, Hk2, Hk1|destruct Hk1, Hk2, Hk3; lia].
  - exfalso. apply (admit_peer _ _ _ _ Ha Hp). unfold request_class. by rewrite Hp.
Qed.
Lemma attempts_safe k n request now : now ≤ k_time k →
  csafe k no_units (admit_attempts n (MkSnapshotHandle c) request now) admitted_post.
Proof.
  revert k. induction n as [|n IH]; intros k Hnow; [by apply csafe_ret|]. cbn [admit_attempts].
  unfold SnapshotHandle_load. cbn [hd_cell].
  apply csafe_load. intros k1 h m f Hk1 Hi. apply safe_client_bind; [apply _|].
  eapply safe_client_wand; [apply _|apply snapshot_admit_safe|].
  - apply (di_current _ _ _ _ Hi).
  - apply (di_snapshots _ _ _ _ Hi). apply (di_current _ _ _ _ Hi).
  - destruct Hk1. lia.
  - intros [t|e] k2 r Hk2 Hpost _; [by apply csafe_ret|].
    destruct e; try (by apply csafe_ret). simpl in Hpost. subst r. apply IH.
    destruct Hk1, Hk2. lia.
Qed.

(** ** The manager's accesses *)

(** What only publication changes. *)
Definition same_gate (m m' : ConnectionManager) : Prop :=
  cm_cell m' = cm_cell m ∧ cm_max_pending_dials m' = cm_max_pending_dials m ∧
  cm_max_connections m' = cm_max_connections m ∧ cm_revision m' = cm_revision m ∧
  cm_trust m' = cm_trust m ∧ pol_frame (cm_policy m) (cm_policy m') ∧
  (pol_inv (cm_policy m) → pol_inv (cm_policy m')).
Lemma same_gate_refl m : same_gate m m.
Proof. by split_and!. Qed.
Lemma same_gate_trans m1 m2 m3 : same_gate m1 m2 → same_gate m2 m3 → same_gate m1 m3.
Proof.
  intros (?&?&?&?&?&Hf&Hi) (?&?&?&?&?&Hf'&Hi'). split_and!; try congruence.
  - by eapply pol_frame_trans.
  - auto.
Qed.

Lemma shift_keep k m m' r : same_gate m m' → cm_outcomes_to_return m' = cm_outcomes_to_return m →
  (∀ t, k_time k ≤ t → lq (cm_policy m') t ≤ lq (cm_policy m) t) → grants k m r m' r.
Proof.
  intros (E1&E2&E3&E4&E5&[E6 E7]&Hinv) E8 Hlq k' h f [Hk _] [].
  split; rewrite ?E1 ?E2 ?E3 ?E4 ?E5 ?E6 ?E7 ?E8; auto.
  - intros Hrev t Ht. etrans; [apply Hlq; lia|]. by apply di_behind0.
  - intros Hrev t Ht. specialize (di_room0 Hrev t Ht). assert (k_time k ≤ t) as Hkt by lia.
    specialize (Hlq t Hkt). lia.
Qed.
(** An admitted dial's unit becomes the quarantine it recorded, and is held for
    it until the next publication. *)
Lemma shift_settle k m m' p n a b g : same_gate m m' →
  cm_outcomes_to_return m' = cm_outcomes_to_return m + 1 → 1 ≤ a →
  (∀ t, k_time k ≤ t → lq (cm_policy m') t ≤ lq (cm_policy m) t + 1) →
  grants k m (MkUnits p n a b g) m' (MkUnits p n (a - 1) b g).
Proof.
  intros (E1&E2&E3&E4&E5&[E6 E7]&Hinv) E8 Ha Hlq k' h f [Hk _] []. simpl in *.
  split; simpl; rewrite ?E1 ?E2 ?E3 ?E4 ?E5 ?E6 ?E7 ?E8; auto.
  - split; [|lia]. rewrite (proj1 di_outcomes0). lia.
  - intros Hrev t Ht. assert (k_time k ≤ t) as Hkt by lia. specialize (Hlq t Hkt).
    specialize (di_behind0 Hrev t Ht). lia.
  - intros Hrev t Ht. specialize (di_room0 Hrev t Ht). assert (k_time k ≤ t) as Hkt by lia.
    specialize (Hlq t Hkt). lia.
Qed.

(** The state a publication leaves. *)
Definition published (m : ConnectionManager) : ConnectionManager :=
  with_outcomes_to_return (with_revision m (sat_add u64_max (cm_revision m) 1)) 0.

(** The shared memory may still reflect an earlier [g] while the manager has
    moved on to [m] in private. *)
Definition lags (k : known) (g m : ConnectionManager) : Prop :=
  cm_cell m = cm_cell g ∧ cm_max_pending_dials m = cm_max_pending_dials g ∧
  cm_max_connections m = cm_max_connections g ∧ cm_revision m = cm_revision g ∧
  cm_outcomes_to_return m = cm_outcomes_to_return g ∧
  cp_max_addresses (cm_policy m) = cp_max_addresses (cm_policy g) ∧
  (pol_inv (cm_policy g) → pol_inv (cm_policy m)) ∧
  ∀ t, k_time k ≤ t → lq (cm_policy m) t ≤ lq (cm_policy g) t.
Lemma lags_trust k m tr : lags k (with_trust m tr) m.
Proof. by split_and!. Qed.
Lemma lags_later k k' g m : k_time k ≤ k_time k' → lags k g m → lags k' g m.
Proof. intros Ht (?&?&?&?&?&?&?&Hlq). split_and!; try done. intros t Hle. apply Hlq. lia. Qed.

Lemma install_inv k h g m r :
  let m1 := with_revision m (sat_add u64_max (cm_revision m) 1) in
  lags k g m → dial_inv k h g r →
  dial_inv (MkKnown (k_time k) (snapshot_of m1 :: k_published k))
    (hset h c (MkShared (sh_pending (h c)) (sh_outcomes (h c)) (sh_connections (h c))
       (sh_shutting_down (h c)) (snapshot_of m1) (sh_alive (h c))))
    (published m)
    (MkUnits (u_pending r) (u_connections r) (u_admitted r)
       (u_returning r + cm_outcomes_to_return m) (u_reserved r)).
Proof.
  intros m1 (E1&E2&E3&E4&E5&E6&Epol&Elq) []. rewrite -E1 in di_cell0. rewrite -E2 in di_pending0.
  rewrite -E3 in di_connections0. rewrite -E5 -E6 in di_outcomes0. rewrite -E4 in di_revision0 di_width0.
  rewrite -E4 -E2 -E3 -E6 in di_snapshots0. rewrite -E4 in di_reserved0 di_room0. rewrite -E6 in di_room0.
  assert (cm_revision m1 < u64_max → cm_revision m1 = cm_revision m + 1) as Hnext.
  { unfold m1. simpl. unfold sat_add. generalize u64_max. intros. lia. }
  assert (cm_revision m ≤ u64_max → cm_revision m ≤ cm_revision m1) as Hmono.
  { unfold m1. simpl. unfold sat_add. generalize u64_max. intros. lia. }
  specialize (Hmono di_width0).
  assert (cm_revision m1 < u64_max → multiplicity (cm_revision m1) (u_reserved r) = 0%nat) as Hnone.
  { intros Hlt%Hnext. destruct (multiplicity (cm_revision m1) (u_reserved r)) eqn:E; [done|].
    assert (cm_revision m1 ∈ u_reserved r) as Hin by (unfold elem_of, gmultiset_elem_of; lia).
    apply di_reserved0 in Hin. lia. }
  split; simpl; rewrite ?hset_eq; try done; try (by auto).
  - simpl. split; [|lia]. rewrite (proj1 di_outcomes0). lia.
  - unfold sat_add. apply N.le_min_r.
  - by left.
  - intros s [-> | Hs]%elem_of_cons; [by split_and!|].
    destruct (di_snapshots0 s Hs) as (? & ? & ? & ? & ?). split_and!; try done.
    etrans; [eassumption|exact Hmono].
  - intros x Hx. etrans; [by apply di_reserved0|exact Hmono].
  - intros Hlt s [-> | Hs]%elem_of_cons Heq; [done|]. exfalso.
    destruct (di_snapshots0 s Hs) as (_ & Hle & _). specialize (Hnext Hlt). simpl in *. lia.
  - intros Hlt t Ht. simpl. lia.
  - intros Hlt t Ht. rewrite (Hnone Hlt). specialize (Hnext Hlt).
    assert (cm_revision m < u64_max) as Hlt' by (simpl in *; lia). specialize (di_room0 Hlt' t Ht).
    specialize (Elq t Ht). lia.
Qed.

Lemma publish_safe k g m r : lags k g m → cm_cell m = c →
  msafe k g r (ConnectionManager_publish m)
    (λ m' _ g' r', g' = m' ∧ r' = r ∧ m' = published m).
Proof.
  intros Hlag Hc. unfold ConnectionManager_publish. simpl. rewrite Hc. intros k' h f Hk Hi.
  set (m1 := with_revision m _). eexists (MkKnown (k_time k') (snapshot_of m1 :: k_published k')), (published m),
    (MkUnits (u_pending r) (u_connections r) (u_admitted r) (u_returning r + cm_outcomes_to_return m)
       (u_reserved r)).
  split; [split; simpl; [lia|set_solver]|]. split.
  { pose proof (install_inv k' h g m _ (lags_later _ _ _ _ (proj1 Hk) Hlag) Hi) as Hi'. cbv zeta in Hi'. fold m1 in Hi'.
    eapply eq_ind; [exact Hi'|]. unfold units_op. simpl. f_equal. lia. }
  destruct (N.ltb_spec 0 (cm_outcomes_to_return m)) as [Hpos|Hz]; cbn [pbind].
  - apply safe_of_client; [apply _|]. apply csafe_fetch_outcomes; [lia|]. intros k2 _.
    apply csafe_ret. split_and!; [done| |done]. rewrite N.add_sub. by destruct r.
  - eexists _, _. split; [apply shifts_refl|]. assert (published m = m1) as Hp.
    { unfold published, m1. assert (cm_outcomes_to_return m = 0) as Hz' by lia. by destruct m; simpl in *; subst. }
    split_and!; [done| |done]. assert (cm_outcomes_to_return m = 0) as -> by lia.
    rewrite N.add_0_r. by destruct r.
Qed.

(** What the manager's private code keeps_gate: its cell, its trust, its clock. *)
Definition keeps_gate (m m' : ConnectionManager) : Prop :=
  cm_cell m' = cm_cell m ∧ cm_trust m' = cm_trust m ∧ cm_clock_ms m' = cm_clock_ms m ∧
  cm_local_peer m' = cm_local_peer m ∧
  (cm_outcomes_to_return m = 0 → cm_outcomes_to_return m' = 0).
Lemma keeps_refl m : keeps_gate m m.
Proof. by split_and!. Qed.
Lemma keeps_trans m1 m2 m3 : keeps_gate m1 m2 → keeps_gate m2 m3 → keeps_gate m1 m3.
Proof. intros (?&?&?&?&?) (?&?&?&?&?). split_and!; try congruence. auto. Qed.
Lemma keeps_published m : keeps_gate m (published m).
Proof. by split_and!. Qed.

(** A quarantine handed over takes a unit of room the moment it is reserved. *)
Lemma inv_hand_over k h g g' r now :
  dial_inv k h g r → same_gate g g' → cm_outcomes_to_return g' = cm_outcomes_to_return g + 1 →
  (∀ t, k_time k ≤ t → lq (cm_policy g') t ≤ lq (cm_policy g) t + 1) → now ≤ k_time k →
  sh_outcomes (h c) < outcome_ceiling (cm_policy g) now →
  dial_inv k (hset h c (set_counter COutcomes (h c) (sh_outcomes (h c) + 1))) g' r.
Proof.
  intros [] (E1&E2&E3&E4&E5&[E6 E7]&Hinv) E8 Hlq Hnow Hlt. unfold outcome_ceiling, sat_sub in Hlt.
  split; rewrite ?hset_eq ?E1 ?E2 ?E3 ?E4 ?E5 ?E6 ?E7 ?E8; simpl; auto.
  - split; [|lia]. rewrite (proj1 di_outcomes0). lia.
  - intros Hrev t Ht. specialize (Hlq t Ht). specialize (di_behind0 Hrev t Ht). lia.
  - intros Hrev t Ht. specialize (Hlq t Ht). assert (now ≤ t) as Hnt by lia.
    pose proof (lq_later (cm_policy g) now t Hnt).
    pose proof (multiplicity_le_size (cm_revision g) (u_reserved r)). lia.
Qed.

Lemma msafe_on {X A} (f : Shared → X * Shared) (j : X → prog heap A) k g r Φ :
  (∀ k' h fr, k_grows k k' → dial_inv k' h g (r ⊙ fr) →
   ∃ g' r', dial_inv k' (hset h c (f (h c)).2) g' (r' ⊙ fr) ∧ msafe k' g' r' (j (f (h c)).1) Φ) →
  msafe k g r (pbind (on c f) j) Φ.
Proof.
  intros Hf. simpl. intros k' h fr Hk Hi. destruct (Hf k' h fr Hk Hi) as (g' & r' & Hi' & Hs).
  exists k', g', r'. destruct (f (h c)) as [x s']. done.
Qed.
Lemma msafe_ret {A} k g r (a : A) (Φ : A → known → ConnectionManager → units → Prop) :
  Φ a k g r → msafe k g r (Ret a) Φ.
Proof. intros Ha. exists g, r. split; [apply shifts_refl|done]. Qed.

Lemma same_gate_policy m p : pol_frame (cm_policy m) p → (pol_inv (cm_policy m) → pol_inv p) →
  same_gate m (with_policy m p).
Proof. intros ??. by split_and!. Qed.

Lemma hand_over_safe k m tr peer a now r : cm_cell m = c → now ≤ k_time k →
  msafe k (with_trust m tr) r (ConnectionManager_hand_over m peer a now)
    (λ bm _ g' r', r' = r ∧ keeps_gate m bm.2 ∧
       ∃ tr', g' = with_trust bm.2 tr' ∧ (tr = cm_trust m → tr' = cm_trust m)).
Proof.
  intros Hc Hnow. unfold ConnectionManager_hand_over.
  pose proof (release_frame (cm_policy m) peer a now) as Hf.
  pose proof (book_release_inv (cm_policy m) peer a now) as Hpi.
  assert (∀ t, k_time k ≤ t → _) as Hlq by
    (intros t Ht; exact (lq_release (cm_policy m) peer a now t (N.le_trans _ _ _ Hnow Ht))).
  set (live := in_book (cp_book (cm_policy m)) peer a && _) in *.
  destruct (ConnectionPolicy_release_from_book (cm_policy m) peer a now) as [gone p'] eqn:Er.
  cbn [snd] in *. destruct live; cbn [negb].
  - rewrite {1}Hc. apply msafe_on. intros k' h f Hk Hi. cbn [get_counter].
    destruct (di_outcomes _ _ _ _ Hi) as [E Hle].
    destruct (N.leb_spec (outcome_ceiling (cm_policy m) now) (sh_outcomes (h c))) as [|Hlt]; cbn [fst snd].
    + exists (with_trust m tr), r. split; [eapply inv_heap; [apply hset_eq|done]|].
      apply msafe_ret. split_and!; [done|apply keeps_refl|by exists tr].
    + destruct gone; cbn [negb].
      * set (m1 := with_outcomes_to_return (with_policy m p') (cm_outcomes_to_return m + 1)).
        exists (with_trust m1 tr), r. split.
        { apply (inv_hand_over k' h (with_trust m tr) (with_trust m1 tr) _ now Hi); try done.
          - intros t Ht. apply Hlq. destruct Hk. lia.
          - destruct Hk. lia. }
        apply safe_bind; [apply _|]. change (with_outcomes_to_return _ _) with m1.
        eapply safe_wand; [apply _|by apply publish_safe; [apply lags_trust|]|].
        intros m2 k2 g2 r2 _ (-> & -> & ->) _. apply msafe_ret. cbn [snd].
        split_and!; [done|by split_and!|]. exists (cm_trust m). split; [by destruct m|done].
      * exists (with_trust (with_policy m p') tr),
          (MkUnits (u_pending r) (u_connections r) (u_admitted r) (u_returning r + 1) (u_reserved r)).
        split.
        { assert (dial_inv k' h (with_trust (with_policy m p') tr) (r ⊙ f)) as Hi2.
          { revert Hi. apply (shift_keep k'); [by apply (same_gate_policy (with_trust m tr) p')|done| |done].
            intros t Ht. cbn [with_policy with_trust cm_policy].
            assert (p' = cm_policy m) as ->; [|done].
            clear -Er. revert Er. rewrite release_from_book_alt. destruct (negb _); [done|].
            destruct (cp_addresses (cm_policy m) !! (peer, a)) as [s|]; [|done].
            destruct (ConnectionPolicy_make_room_for_address (cm_policy m) now) as [room q] eqn:Em.
            destruct (_ && negb room) eqn:Eq; [|done]. intros [= <-].
            apply andb_prop in Eq as [_ Hroom]. destruct room; [done|].
            apply make_room_cases in Em as [(? & _)|[(? & _)|(_ & -> & _)]]; done. }
          eapply eq_ind; [apply (inv_outcomes k' h _ _ (sh_outcomes (h c) + 1) (u_admitted (r ⊙ f))
            (u_returning (r ⊙ f) + 1) (u_reserved (r ⊙ f)) Hi2)|].
          - simpl in *. lia.
          - simpl in *. unfold outcome_ceiling, sat_sub in Hlt. destruct Hf as [Hf _]. rewrite Hf. lia.
          - apply (di_reserved _ _ _ _ Hi2).
          - apply (di_room _ _ _ _ Hi2).
          - unfold r_op. simpl. unfold units_op. simpl. f_equal. lia. }
        apply safe_of_client; [apply _|]. cbn [cm_cell with_policy]. rewrite {1}Hc. apply csafe_fetch_outcomes; [lia|].
        intros k2 _. apply csafe_ret. rewrite N.add_sub. split_and!; [by destruct r|by split_and!|by exists tr].
  - exists (with_trust (with_policy m p') tr), r. split.
    + apply shift_keep; [by apply (same_gate_policy (with_trust m tr) p')|done|]. intros t Ht. etrans; [by apply Hlq|].
      rewrite N.add_0_r. done.
    + split_and!; [done|by split_and!|by exists tr].
Qed.

(** ** The manager's operations *)

(** The manager between operations. *)
Definition idle (k : known) (m : ConnectionManager) : Prop :=
  cm_cell m = c ∧ cm_clock_ms m ≤ k_time k ∧ cm_outcomes_to_return m = 0.
(** An operation left [r] to its caller and the manager between operations. *)
Definition finished {A} (r : A → units) (x : A * ConnectionManager) (k : known)
    (g : ConnectionManager) (r' : units) : Prop := r' = r x.1 ∧ g = x.2 ∧ idle k x.2.

Lemma idle_later k k' m : k_grows k k' → idle k m → idle k' m.
Proof. intros [Ht _] (?&?&?). split_and!; try done. lia. Qed.
Lemma idle_keeps k m m' : keeps_gate m m' → idle k m → idle k m'.
Proof. intros (E1&_&E2&_&E3) (?&?&?). split_and!; [congruence|lia|auto]. Qed.
Lemma idle_observe k m now : now ≤ k_time k → idle k m → idle k (ConnectionManager_observe m now).
Proof. intros Ht (?&?&?). split_and!; try done. simpl. lia. Qed.
Lemma finished_later {A} (r : A → units) x k g r' k' :
  k_grows k k' → finished r x k g r' → finished r x k' g r'.
Proof. intros Hk (?&?&?). split_and!; try done. by eapply idle_later. Qed.

(** A change of what only the manager sees. *)
Lemma private k m m' r : same_gate m m' → cm_outcomes_to_return m' = cm_outcomes_to_return m →
  cm_policy m' = cm_policy m → grants k m r m' r.
Proof. intros Hg E Hp. apply shift_keep; [done|done|]. intros t _. by rewrite Hp. Qed.
Lemma same_gate_private m m' :
  cm_cell m' = cm_cell m → cm_max_pending_dials m' = cm_max_pending_dials m →
  cm_max_connections m' = cm_max_connections m → cm_revision m' = cm_revision m →
  cm_trust m' = cm_trust m → cm_policy m' = cm_policy m → same_gate m m'.
Proof. intros ????? E. split_and!; try done; by rewrite E. Qed.

Lemma publish_finished {A} k g m (x : A) r : lags k g m → cm_cell m = c → cm_clock_ms m ≤ k_time k →
  msafe k g (r x) (pbind (ConnectionManager_publish m) (λ m, Ret (x, m))) (finished r).
Proof.
  intros Hlag Hc Hclock. apply safe_bind; [apply _|].
  eapply safe_wand; [apply _|by apply publish_safe|]. intros m' k' g' r' Hk (-> & -> & ->) _.
  apply msafe_ret. split_and!; [done|done|]. split_and!; [done| |done]. simpl. destruct Hk. lia.
Qed.
Lemma lags_refl k m : lags k m m.
Proof. by split_and!. Qed.

(** Settling a dial of this manager: the pending unit goes back, the
    connection's unless it was kept, and the outcome's is held until the next
    publication. *)
Lemma settle_safe k m t n : tk_cell t = c → cm_cell m = c → tk_outcome_reserved t = true →
  let m' := with_outcomes_to_return m (cm_outcomes_to_return m + 1) in
  msafe k m' (MkUnits 1 (n + b2n (negb (tk_connection_kept t))) 0 0 ∅) (ConnectionManager_settle m t)
    (λ m1 _ g' r', m1 = m' ∧ g' = m' ∧ r' = MkUnits 0 n 0 0 ∅).
Proof.
  intros Hc Hm Hr m'. apply safe_of_client; [apply _|]. unfold ConnectionManager_settle. rewrite {1}Hc.
  apply csafe_fetch_pending; [done|intros k1 _]. rewrite Hr Hm.
  rewrite (bool_decide_eq_true_2 _ Hc). cbn [andb]. unfold DialTicket_drop.
  cbn [tk_outcome_reserved tk_settled tk_connection_kept tk_cell ticket_flags negb pbind].
  destruct (tk_connection_kept t); cbn [negb pbind b2n].
  - apply csafe_ret. rewrite N.add_0_r. done.
  - rewrite {1}Hc. apply csafe_fetch_connections; [lia|intros k2 _]. apply csafe_ret.
    rewrite N.add_sub. done.
Qed.

(** The manager's own ticket, as it is when an operation takes it. *)
Definition own_ticket (t : DialTicket) : Prop :=
  tk_cell t = c ∧ tk_outcome_reserved t = true ∧ tk_settled t = false ∧ tk_connection_kept t = false.

Lemma own_ticket_units t : own_ticket t → ticket_units c t = MkUnits 1 1 1 0 ∅.
Proof. intros (E1&E2&E3&E4). unfold ticket_units. by rewrite (bool_decide_eq_true_2 _ E1) E2 E3 E4. Qed.

Lemma settle_finished {A} k g m t (x : A) :
  own_ticket t → same_gate g m → cm_outcomes_to_return m = cm_outcomes_to_return g →
  (∀ t, k_time k ≤ t → lq (cm_policy m) t ≤ lq (cm_policy g) t + 1) → idle k m →
  msafe k g (ticket_units c t) (settle_and_publish m t x) (finished (λ _, no_units)).
Proof.
  intros Ht Hg E Hlq (Hc & Hclock & _). rewrite own_ticket_units //. destruct Ht as (T1&T2&T3&T4).
  set (m' := with_outcomes_to_return m (cm_outcomes_to_return m + 1)).
  eapply safe_shift; [apply (shift_settle k g m'); [exact Hg|simpl; by rewrite E|done|exact Hlq]|].
  unfold settle_and_publish. apply safe_bind; [apply _|].
  pose proof (settle_safe k m t 0 T1 Hc T2) as Hs. cbv zeta in Hs. rewrite T4 in Hs.
  eapply safe_wand; [apply _|exact Hs|]. intros m1 k1 g1 r1 Hk1 (-> & -> & ->) _.
  change (MkUnits 0 0 0 0 ∅) with ((λ _ : A, no_units) x).
  apply publish_finished; [apply lags_refl|done|]. simpl. destruct Hk1. lia.
Qed.

Lemma foreign_units t : tk_cell t ≠ c → ticket_units c t = no_units.
Proof. intros Hne. unfold ticket_units. by rewrite bool_decide_eq_false_2. Qed.
Lemma not_issued_finished {A} k m t (x : A) : tk_cell t ≠ c → idle k m →
  msafe k m (ticket_units c t) (not_issued m t x) (finished (λ _, no_units)).
Proof.
  intros Hne Hm. unfold not_issued. apply safe_bind; [apply _|]. apply safe_of_client; [apply _|].
  eapply safe_client_wand; [apply _|apply drop_safe|]. intros [] k' r' Hk -> _. apply msafe_ret.
  split_and!; [done..|by eapply idle_later].
Qed.
Lemma issued_here_iff m t : cm_cell m = c →
  ConnectionManager_issued_here m t = bool_decide (tk_cell t = c).
Proof. intros Hm. unfold ConnectionManager_issued_here. by rewrite Hm. Qed.

(** Observing the time, then the two ways a settlement starts. *)
Lemma settlement_safe {A} k m t now (q : prog heap (A * ConnectionManager)) (x : A) :
  idle k m → open_ticket k t → now ≤ k_time k →
  let m1 := ConnectionManager_observe m now in
  (idle k m1 → own_ticket t → msafe k m1 (ticket_units c t) q (finished (λ _, no_units))) →
  msafe k m (ticket_units c t)
    (if negb (ConnectionManager_issued_here m1 t) then not_issued m1 t x else q)
    (finished (λ _, no_units)).
Proof.
  intros Hm Ho Hnow m1 Hown. eapply safe_shift.
  { apply (private k m m1); [by apply same_gate_private|done|done]. }
  pose proof (idle_observe k m now Hnow Hm) as Hm'. rewrite issued_here_iff; [|by destruct Hm'].
  case_bool_decide as Hc; cbn [negb]; [|by apply not_issued_finished].
  destruct (Ho Hc) as (?&?&?&_). by apply Hown.
Qed.

Lemma learn_new_shift k m peer a now r : grants k m r (learn_new m peer a now) r.
Proof.
  apply shift_keep.
  - unfold learn_new. set (m1 := with_policy _ _).
    assert (same_gate m m1) as H1 by (apply same_gate_policy; [done|apply learn_inv]).
    eapply same_gate_trans; [exact H1|]. repeat case_match; by apply same_gate_private.
  - unfold learn_new. by repeat case_match.
  - intros t _. unfold learn_new. repeat case_match; simpl; apply lq_book_insert.
Qed.
Lemma idle_learn_new k m peer a now : idle k m → idle k (learn_new m peer a now).
Proof. intros (?&?&?). unfold learn_new. by repeat case_match. Qed.
Lemma with_trust_id m : with_trust m (cm_trust m) = m.
Proof. by destruct m. Qed.

Lemma hand_over_finished k m peer a now r : idle k m → now ≤ k_time k →
  msafe k m r (ConnectionManager_hand_over m peer a now) (finished (λ _, r)).
Proof.
  intros Hm Hnow. pose proof (hand_over_safe k m (cm_trust m) peer a now r (proj1 Hm) Hnow) as Hs.
  rewrite with_trust_id in Hs. eapply safe_wand; [apply _|exact Hs|].
  intros [b m'] k' g' r' Hk (-> & Hkeep & tr' & -> & Htr). rewrite (Htr eq_refl). cbn [snd] in *.
  split_and!; [done| |].
  - destruct Hkeep as (_ & <- & _). apply with_trust_id.
  - eapply idle_keeps; [done|]. by eapply idle_later.
Qed.
Lemma learn_safe k m peer a now r : idle k m → now ≤ k_time k →
  msafe k m r (ConnectionManager_learn_address m peer a now) (finished (λ _, r)).
Proof.
  intros Hm Hnow. unfold ConnectionManager_learn_address. eapply safe_shift.
  { apply (private k m (ConnectionManager_observe m now)); [by apply same_gate_private|done|done]. }
  pose proof (idle_observe k m now Hnow Hm) as Hm'. set (m1 := ConnectionManager_observe m now) in *.
  destruct (unclassified _ _); [by apply msafe_ret|]. destruct (in_book _ _ _); [by apply msafe_ret|].
  assert (∀ k m, idle k m → msafe k m r (Ret (true, learn_new m peer a now)) (finished (λ _, r))) as Hnew.
  { intros k2 m2 Hm2. eapply safe_shift; [apply learn_new_shift|]. apply msafe_ret.
    split_and!; [done..|by apply idle_learn_new]. }
  destruct (bool_decide _ && _); [|by apply Hnew].
  destruct (victim _ _ _ _) as [stale|]; [|by apply msafe_ret].
  apply safe_bind; [apply _|]. eapply safe_wand; [apply _|by apply hand_over_finished|].
  intros [gone m2] k2 g2 r2 _ (-> & -> & Hm2) _. destruct gone; cbn [negb]; [by apply Hnew|by apply msafe_ret].
Qed.

Lemma success_safe k m t now : idle k m → open_ticket k t → DialTicket_settled_at t now ≤ k_time k →
  msafe k m (ticket_units c t) (ConnectionManager_record_success m t now) (finished (slot_units c)).
Proof.
  intros Hm Ho Hnow. unfold ConnectionManager_record_success. eapply safe_shift.
  { apply (private k m (ConnectionManager_observe m (DialTicket_settled_at t now)));
      [by apply same_gate_private|done|done]. }
  pose proof (idle_observe k m _ Hnow Hm) as Hm'. rewrite issued_here_iff; [|by destruct Hm'].
  set (m1 := ConnectionManager_observe m _) in *. case_bool_decide as Hc; cbn [negb].
  - destruct (Ho Hc) as (T2&T3&T4&_). rewrite own_ticket_units; [|done].
    set (m2 := match tk_peer t with Some _ => _ | None => _ end).
    assert (same_gate m1 m2 ∧ cm_outcomes_to_return m2 = cm_outcomes_to_return m1 ∧
      (∀ u, lq (cm_policy m2) u ≤ lq (cm_policy m1) u) ∧ idle k m2) as (G1 & G2 & G3 & G4).
    { unfold m2. destruct (tk_peer t) as [peer|]; [|by split_and!].
      split_and!; [|done| |done].
      - eapply same_gate_trans; [apply same_gate_policy; [apply success_frame|apply success_inv]|].
        by apply same_gate_private.
      - intros u. apply lq_success. }
    set (m3 := with_outcomes_to_return m2 (cm_outcomes_to_return m2 + 1)).
    eapply safe_shift.
    { apply (shift_settle k m1 m3); [exact G1|simpl; by rewrite G2|done|]. intros u _. etrans; [apply G3|]. lia. }
    unfold ConnectionManager_keep_connection. apply safe_bind; [apply _|]. apply safe_bind; [apply _|].
    pose proof (settle_safe k m2 (ticket_flags t (tk_outcome_reserved t) (tk_settled t) true) 1 Hc
      (proj1 G4) T2) as Hs. cbv zeta in Hs. cbn [tk_connection_kept ticket_flags negb b2n] in Hs.
    eapply safe_wand; [apply _|exact Hs|]. intros m4 k4 g4 r4 Hk4 (-> & -> & ->) _. apply msafe_ret. intros _.
    assert (MkUnits 0 1 0 0 ∅ = slot_units c (MkConnectionSlot (tk_cell t) false)) as ->.
    { unfold slot_units. cbn [cs_cell cs_released]. by rewrite bool_decide_eq_true_2. }
    apply publish_finished; [apply lags_refl|apply (proj1 G4)|].
    destruct G4 as (_&?&_), Hk4. simpl. lia.
  - rewrite foreign_units //. unfold ConnectionManager_keep_connection, ConnectionManager_settle.
    apply safe_bind; [apply _|]. apply safe_bind; [apply _|]. apply safe_of_client; [apply _|].
    apply (csafe_other _ _ Ret); [done|]. intros [] k1 Hk1. apply csafe_ret. intros _.
    cbn [tk_outcome_reserved tk_connection_kept tk_cell ticket_flags].
    rewrite (bool_decide_eq_false_2 (tk_cell t = cm_cell m1)); [|by rewrite (proj1 Hm')].
    rewrite andb_false_r. apply safe_bind; [apply _|]. apply safe_of_client; [apply _|].
    pose proof (drop_safe k1 (ticket_flags (ticket_flags t (tk_outcome_reserved t) (tk_settled t) true)
      (tk_outcome_reserved t) true true)) as Hd. rewrite foreign_units // in Hd.
    eapply safe_client_wand; [apply _|exact Hd|]. intros [] k2 r2 Hk2 -> _.
    apply msafe_ret. intros _. apply msafe_ret. split_and!; [|done|].
    + unfold slot_units. cbn [cs_cell]. by rewrite bool_decide_eq_false_2.
    + eapply idle_later; [|exact Hm']. by etrans.
Qed.

Lemma with_policy_idle k m p : idle k m → idle k (with_policy m p).
Proof. done. Qed.
Lemma schedule_gate m peer now delay b :
  let m' := (ConnectionManager_schedule_retry m peer now delay b).2 in
  same_gate m m' ∧ cm_outcomes_to_return m' = cm_outcomes_to_return m ∧
  cm_policy m' = cm_policy m ∧ cm_clock_ms m' = cm_clock_ms m ∧ cm_cell m' = cm_cell m.
Proof. by split_and!. Qed.
Lemma note_gate m n :
  let m' := ConnectionManager_note m n in
  same_gate m m' ∧ cm_outcomes_to_return m' = cm_outcomes_to_return m ∧
  cm_policy m' = cm_policy m ∧ cm_clock_ms m' = cm_clock_ms m ∧ cm_cell m' = cm_cell m.
Proof.
  cbv zeta. unfold ConnectionManager_note. case_match; split_and!; try done; by apply same_gate_private.
Qed.

(** A settlement whose last private changes leave the policy alone. *)
Lemma settle_private {A} k g m t (x : A) : own_ticket t → idle k g →
  same_gate g m → cm_outcomes_to_return m = cm_outcomes_to_return g → cm_policy m = cm_policy g →
  cm_clock_ms m = cm_clock_ms g →
  msafe k g (ticket_units c t) (settle_and_publish m t x) (finished (λ _, no_units)).
Proof.
  intros Ht (Hc & Hclock & Hr) Hg E1 E2 E3. apply settle_finished; try done.
  - intros u _. rewrite E2. lia.
  - split_and!; [|congruence|congruence]. destruct Hg as (-> & _). done.
Qed.

Lemma failure_safe k m t now : idle k m → open_ticket k t → DialTicket_settled_at t now ≤ k_time k →
  msafe k m (ticket_units c t) (ConnectionManager_record_failure m t now) (finished (λ _, no_units)).
Proof.
  intros Hm Ho Hnow. unfold ConnectionManager_record_failure. apply settlement_safe; [done..|].
  set (m1 := ConnectionManager_observe m _). intros Hm1 Ht. assert (∀ x : option RetryScheduled, msafe k m1 (ticket_units c t)
    (settle_and_publish m1 t x) (finished (λ _, no_units))) as Hplain.
  { intros x. by apply settle_private. }
  case_bool_decide; [apply Hplain|]. case_bool_decide; [apply Hplain|].
  destruct (tk_peer t) as [peer|]; [|apply Hplain].
  pose proof (failure_frame (cm_policy m1) peer (tk_address t) (DialTicket_settled_at t now)
    (ConnectionManager_retry_delay_ms m1 peer)) as F1.
  pose proof (failure_inv (cm_policy m1) peer (tk_address t) (DialTicket_settled_at t now)
    (ConnectionManager_retry_delay_ms m1 peer)) as F2.
  pose proof (lq_failure (cm_policy m1) peer (tk_address t) (DialTicket_settled_at t now)
    (ConnectionManager_retry_delay_ms m1 peer)) as F3.
  destruct (ConnectionPolicy_record_address_failure _ _ _ _ _) as [backoff p]. cbn [snd] in *.
  eapply safe_shift.
  { apply (shift_keep k m1 (with_policy m1 p)); [by apply same_gate_policy|done|]. intros u _. apply F3. }
  apply safe_bind; [apply _|]. eapply safe_wand; [apply _|apply learn_safe; [exact Hm1|exact Hnow]|].
  intros [b m2] k2 g2 r2 Hk2 (-> & -> & Hm2) _. cbn [snd] in Hm2.
  pose proof (schedule_gate m2 peer (DialTicket_settled_at t now) (ConnectionManager_retry_delay_ms m1 peer)
    (held_by_another m2 t peer)) as (S1&S2&S3&S4&S5). cbv zeta in *.
  destruct (ConnectionManager_schedule_retry _ _ _ _ _) as [attempt m3]. cbn [snd] in *.
  set (note := NoteRetryScheduled _ _ _).
  pose proof (note_gate m3 note) as (N1&N2&N3&N4&N5). cbv zeta in *.
  apply settle_private; try done; [by eapply same_gate_trans|congruence..].
Qed.

Lemma rank_down_safe k m peer a now r : idle k m → now ≤ k_time k →
  msafe k m r (rank_down m peer a now) (λ m' k' g' r', r' = r ∧ g' = m' ∧ idle k' m').
Proof.
  intros Hm Hnow. unfold rank_down. case_bool_decide; [by apply msafe_ret|].
  eapply safe_shift.
  { apply (shift_keep k m (with_policy m (ConnectionPolicy_score_address_failure (cm_policy m) peer a now)));
      [apply same_gate_policy; [apply score_frame|apply score_inv]|done|]. intros u _. apply lq_score. }
  apply safe_bind; [apply _|]. eapply safe_wand; [apply _|apply learn_safe; [exact Hm|exact Hnow]|].
  intros [b m2] k2 g2 r2 Hk2 (-> & -> & Hm2) _. by apply msafe_ret.
Qed.
Lemma hop_safe k m t relay up now : idle k m → open_ticket k t → DialTicket_settled_at t now ≤ k_time k →
  msafe k m (ticket_units c t) (ConnectionManager_record_relay_hop_unreached m t relay up now)
    (finished (λ _, no_units)).
Proof.
  intros Hm Ho Hnow. unfold ConnectionManager_record_relay_hop_unreached. apply settlement_safe; [done..|].
  set (m1 := ConnectionManager_observe m _). intros Hm1 Ht. destruct (tk_peer t) as [peer|].
  2:{ by apply settle_private. }
  apply safe_bind; [apply _|]. eapply safe_wand; [apply _|by apply rank_down_safe|].
  intros m2 k2 g2 r2 Hk2 (-> & -> & Hm2) _.
  pose proof (schedule_gate m2 peer (DialTicket_settled_at t now) (ConnectionManager_retry_delay_ms m2 peer)
    (held_by_another m2 t peer)) as (S1&S2&S3&S4&S5). cbv zeta in *.
  destruct (ConnectionManager_schedule_retry _ _ _ _ _) as [attempt m3]. cbn [snd] in *.
  set (m4 := match cm_retries m3 !! peer with Some _ => _ | None => _ end).
  assert (same_gate m3 m4 ∧ cm_outcomes_to_return m4 = cm_outcomes_to_return m3 ∧
    cm_policy m4 = cm_policy m3 ∧ cm_clock_ms m4 = cm_clock_ms m3) as (G1&G2&G3&G4).
  { unfold m4. case_match; split_and!; try done; by apply same_gate_private. }
  set (note := NoteRetryScheduled _ _ _).
  pose proof (note_gate m4 note) as (N1&N2&N3&N4&N5). cbv zeta in *.
  apply settle_private; try done; [|congruence..].
  eapply same_gate_trans; [exact S1|]. by eapply same_gate_trans.
Qed.

Lemma mark_claim_gate b m peer :
  let m' := mark_claim b m peer in
  same_gate m m' ∧ cm_outcomes_to_return m' = cm_outcomes_to_return m ∧
  cm_policy m' = cm_policy m ∧ cm_clock_ms m' = cm_clock_ms m ∧ cm_cell m' = cm_cell m.
Proof. cbv zeta. unfold mark_claim. case_match; split_and!; try done; by apply same_gate_private. Qed.
Lemma own_claim_gate f m t :
  (∀ m peer, same_gate m (f m peer) ∧ cm_outcomes_to_return (f m peer) = cm_outcomes_to_return m ∧
     cm_policy (f m peer) = cm_policy m ∧ cm_clock_ms (f m peer) = cm_clock_ms m) →
  same_gate m (on_own_claim f m t) ∧
  cm_outcomes_to_return (on_own_claim f m t) = cm_outcomes_to_return m ∧
  cm_policy (on_own_claim f m t) = cm_policy m ∧ cm_clock_ms (on_own_claim f m t) = cm_clock_ms m.
Proof. intros Hf. unfold on_own_claim. repeat case_match; [apply Hf|by split_and!..]. Qed.
Lemma clear_gate m peer :
  same_gate m (ConnectionManager_clear_retry_claim m peer) ∧
  cm_outcomes_to_return (ConnectionManager_clear_retry_claim m peer) = cm_outcomes_to_return m ∧
  cm_policy (ConnectionManager_clear_retry_claim m peer) = cm_policy m ∧
  cm_clock_ms (ConnectionManager_clear_retry_claim m peer) = cm_clock_ms m.
Proof. split_and!; try done. Qed.

Lemma permanent_safe k m t now : idle k m → open_ticket k t → DialTicket_settled_at t now ≤ k_time k →
  msafe k m (ticket_units c t) (ConnectionManager_record_permanent_failure m t now)
    (finished (λ _, no_units)).
Proof.
  intros Hm Ho Hnow. unfold ConnectionManager_record_permanent_failure. apply settlement_safe; [done..|].
  set (m1 := ConnectionManager_observe m _). intros Hm1 Ht.
  destruct (tk_peer t) as [peer|]; [|by apply settle_private].
  apply safe_bind; [apply _|]. eapply safe_wand; [apply _|by apply hand_over_finished|].
  intros [b m2] k2 g2 r2 Hk2 (-> & -> & Hm2) _. cbn [snd] in Hm2.
  destruct (DialTicket_owns_scheduler_claim t); [|by apply settle_private].
  destruct (mark_claim_gate false m2 peer) as (?&?&?&?&?). by apply settle_private.
Qed.
Lemma clearing_safe k m t now : idle k m → open_ticket k t → now ≤ k_time k →
  msafe k m (ticket_units c t)
    (let m := ConnectionManager_observe m now in
     if negb (ConnectionManager_issued_here m t) then not_issued m t ()
     else settle_and_publish (on_own_claim ConnectionManager_clear_retry_claim m t) t ())
    (finished (λ _, no_units)).
Proof.
  intros Hm Ho Hnow. apply settlement_safe; [done..|].
  set (m1 := ConnectionManager_observe m _). intros Hm1 Ht.
  destruct (own_claim_gate ConnectionManager_clear_retry_claim m1 t clear_gate) as (?&?&?&?).
  by apply settle_private.
Qed.
Lemma mismatch_safe k m t now : idle k m → open_ticket k t → DialTicket_settled_at t now ≤ k_time k →
  msafe k m (ticket_units c t) (ConnectionManager_record_identity_mismatch m t now)
    (finished (λ _, no_units)).
Proof.
  intros Hm Ho Hnow. unfold ConnectionManager_record_identity_mismatch. apply settlement_safe; [done..|].
  set (m1 := ConnectionManager_observe m _). intros Hm1 Ht.
  destruct (match tk_peer t with Some _ => _ | None => _ end) as [b m2] eqn:E.
  assert (same_gate m1 m2 ∧ cm_outcomes_to_return m2 = cm_outcomes_to_return m1 ∧
    (∀ u, lq (cm_policy m2) u ≤ lq (cm_policy m1) u + 1) ∧ cm_clock_ms m2 = cm_clock_ms m1) as (G1&G2&G3&G4).
  { destruct (tk_peer t) as [peer|]; [|injection E as <- <-; split_and!; try done; intros; lia].
    pose proof (mismatch_frame (cm_policy m1) peer (tk_address t) (DialTicket_settled_at t now)) as F1.
    pose proof (mismatch_inv (cm_policy m1) peer (tk_address t) (DialTicket_settled_at t now)) as F2.
    pose proof (lq_mismatch (cm_policy m1) peer (tk_address t) (DialTicket_settled_at t now)) as F3.
    destruct (ConnectionPolicy_record_identity_mismatch _ _ _ _) as [b' p]. cbn [snd] in *.
    injection E as <- <-.
    assert (same_gate m1 (with_policy m1 p)) as H1 by by apply same_gate_policy.
    destruct b'; [|by split_and!].
    destruct (note_gate (with_policy m1 p) (NoteAddressQuarantined peer IDENTITY_MISMATCH_QUARANTINE_MS))
      as (N1&N2&N3&N4&N5). split_and!; [by eapply same_gate_trans|done| |done].
    intros u. rewrite N3. apply F3. }
  destruct (own_claim_gate ConnectionManager_release_retry_claim m2 t) as (C1&C2&C3&C4).
  { intros m' peer. by destruct (mark_claim_gate false m' peer) as (?&?&?&?&?). }
  apply settle_finished; [done|by eapply same_gate_trans|congruence| |].
  - intros u _. rewrite C3. apply G3.
  - destruct Hm1 as (?&?&?). destruct G1 as (G1&_), C1 as (C1&_). split_and!; congruence.
Qed.

(** ** Operations that take no ticket *)

Definition oslot_units (o : option ConnectionSlot) : units :=
  match o with Some s => slot_units c s | None => no_units end.

Lemma private_finished {A} k m m' (x : A) : idle k m → same_gate m m' →
  cm_outcomes_to_return m' = cm_outcomes_to_return m → cm_policy m' = cm_policy m →
  cm_clock_ms m' ≤ k_time k → msafe k m no_units (Ret (x, m')) (finished (λ _, no_units)).
Proof.
  intros (?&?&?) Hg E1 E2 E3. eapply safe_shift; [by apply (private k m m')|]. apply msafe_ret.
  split_and!; [done..|]. cbn [snd]. destruct Hg as (Hg&_). split_and!; [congruence|done|congruence].
Qed.
Lemma inbound_safe k m : idle k m →
  msafe k m no_units (ConnectionManager_admit_inbound m) (finished oslot_units).
Proof.
  intros Hm. unfold ConnectionManager_admit_inbound. rewrite (proj1 Hm).
  apply msafe_on. intros k1 h1 f1 Hk1 Hi1. exists m, no_units. split; [by eapply inv_heap; [apply hset_eq|]|].
  cbn [fst]. destruct (sh_shutting_down (h1 c)).
  { apply msafe_ret. split_and!; [done..|by eapply idle_later]. }
  apply msafe_on. intros k2 h2 f2 Hk2 Hi2. cbn [get_counter].
  destruct (di_connections _ _ _ _ Hi2) as [E Hle].
  destruct (N.leb_spec (cm_max_connections m) (sh_connections (h2 c))); cbn [fst snd].
  - exists m, no_units. split; [by eapply inv_heap; [apply hset_eq|]|].
    apply msafe_ret. split_and!; [done..|]. eapply idle_later; [|exact Hm]. by etrans.
  - exists m, (MkUnits 0 1 0 0 ∅). split.
    { assert (sh_connections (h2 c) + 1 = 1 + u_connections f2) as -> by (simpl in E; lia).
      apply (inv_connections k2 h2 m _ (1 + u_connections f2) Hi2). simpl in *. lia. }
    apply safe_bind; [apply _|].
    eapply safe_wand; [apply _|apply publish_safe; [apply lags_refl|apply (proj1 Hm)]|].
    intros m' k3 g' r' Hk3 (-> & -> & ->) _. apply msafe_ret. split_and!; [|done|].
    + simpl. unfold slot_units. cbn [cs_cell cs_released]. rewrite bool_decide_eq_true_2; [done|]. apply Hm.
    + split_and!; [apply Hm| |done]. destruct Hm as (_&?&_). simpl. destruct Hk1, Hk2, Hk3. lia.
Qed.
Lemma closed_safe k m slot : idle k m →
  msafe k m (slot_units c slot)
    (pbind (ConnectionManager_record_connection_closed m slot) (λ m, Ret ((), m)))
    (finished (λ _, no_units)).
Proof.
  intros Hm. unfold ConnectionManager_record_connection_closed.
  apply safe_bind; [apply _|]. apply safe_bind; [apply _|]. apply safe_of_client; [apply _|].
  eapply safe_client_wand; [apply _|apply slot_drop_safe|]. intros [] k1 r1 Hk1 -> _.
  eapply safe_wand; [apply _|apply publish_safe; [apply lags_refl|apply (proj1 Hm)]|].
  intros m' k3 g' r' Hk3 (-> & -> & ->) _. apply msafe_ret. split_and!; [done..|].
  split_and!; [apply Hm| |done]. destruct Hm as (_&?&_). simpl. destruct Hk1, Hk3. lia.
Qed.
(** A private change, then a publication. *)
Lemma publish_private {A} k g m (x : A) : idle k g → lags k g m → cm_clock_ms m ≤ k_time k →
  msafe k g no_units (pbind (ConnectionManager_publish m) (λ m, Ret (x, m))) (finished (λ _, no_units)).
Proof.
  intros (Hc&_&_) Hlag Hclock. apply (publish_finished k g m x (λ _, no_units)); [done| |done].
  by destruct Hlag as (-> & _).
Qed.
Lemma lags_gate k g m : same_gate g m → cm_outcomes_to_return m = cm_outcomes_to_return g →
  (∀ t, k_time k ≤ t → lq (cm_policy m) t ≤ lq (cm_policy g) t) → lags k g m.
Proof. intros (?&?&?&?&?&[? ?]&?) ? ?. by split_and!. Qed.
Lemma inbound_retained_safe k m peer now : idle k m → now ≤ k_time k →
  msafe k m no_units (ConnectionManager_record_inbound_retained m peer now) (finished (λ _, no_units)).
Proof.
  intros Hm Hnow. unfold ConnectionManager_record_inbound_retained, ConnectionPolicy_clear_peer_backoff.
  destruct (idle_observe k m now Hnow Hm) as (O1&O2&O3).
  set (m1 := ConnectionManager_observe m now) in *. set (m2 := with_retries _ _).
  assert (same_gate m m2) as Hg.
  { split_and!; try done. apply (pol_step_inv (cm_policy m) (PClear peer now)). }
  destruct (_ || _).
  - apply publish_private; [done| |done]. by apply lags_gate.
  - eapply safe_shift; [by apply (shift_keep k m m2)|]. by apply msafe_ret.
Qed.

Lemma address_failure_safe k m peer a now : idle k m → now ≤ k_time k →
  msafe k m no_units
    (pbind (ConnectionManager_record_address_failure_unadmitted m peer a now) (λ m, Ret ((), m)))
    (finished (λ _, no_units)).
Proof.
  intros Hm Hnow. unfold ConnectionManager_record_address_failure_unadmitted.
  case_bool_decide; [by apply msafe_ret|].
  set (d := ConnectionManager_retry_delay_ms m peer).
  pose proof (failure_frame (cm_policy m) peer a now d) as F1.
  pose proof (failure_inv (cm_policy m) peer a now d) as F2.
  pose proof (lq_failure (cm_policy m) peer a now d) as F3.
  destruct (ConnectionPolicy_record_address_failure _ _ _ _ _) as [backoff p]. cbn [snd] in *.
  eapply safe_shift.
  { apply (shift_keep k m (with_policy m p)); [by apply same_gate_policy|done|]. intros u _. apply F3. }
  apply safe_bind; [apply _|]. apply safe_bind; [apply _|].
  eapply safe_wand; [apply _|apply learn_safe; [exact Hm|exact Hnow]|].
  intros [b m2] k2 g2 r2 Hk2 (-> & -> & Hm2) _. cbn [snd] in *.
  eapply safe_wand; [apply _|apply publish_safe; [apply lags_refl|apply (proj1 Hm2)]|].
  intros m' k3 g' r' Hk3 (-> & -> & ->) _. apply msafe_ret. split_and!; [done..|].
  split_and!; [apply Hm2| |done]. destruct Hm2 as (_&?&_). simpl. destruct Hk3. lia.
Qed.
Lemma permanent_address_safe k m peer a : idle k m →
  msafe k m no_units
    (pbind (ConnectionManager_record_permanent_address_failure_unadmitted m peer a) (λ m, Ret ((), m)))
    (finished (λ _, no_units)).
Proof.
  intros Hm. unfold ConnectionManager_record_permanent_address_failure_unadmitted.
  case_bool_decide; [by apply msafe_ret|].
  apply safe_bind; [apply _|]. apply safe_bind; [apply _|].
  eapply safe_wand; [apply _|apply hand_over_finished; [done|by destruct Hm as (_&?&_)]|].
  intros [b m2] k2 g2 r2 Hk2 (-> & -> & Hm2) _. cbn [snd] in *.
  eapply safe_wand; [apply _|apply publish_safe; [apply lags_refl|apply (proj1 Hm2)]|].
  intros m' k3 g' r' Hk3 (-> & -> & ->) _. apply msafe_ret. split_and!; [done..|].
  split_and!; [apply Hm2| |done]. destruct Hm2 as (_&?&_). simpl. destruct Hk3. lia.
Qed.

Lemma lift_gate now m n peer :
  let m' := (lift_peer now (m, n) peer).1 in
  same_gate m m' ∧ cm_outcomes_to_return m' = cm_outcomes_to_return m ∧
  (∀ t, lq (cm_policy m') t = lq (cm_policy m) t) ∧ cm_clock_ms m' = cm_clock_ms m.
Proof.
  cbv zeta. unfold lift_peer.
  pose proof (lift_frame (cm_policy m) peer now) as F1. pose proof (lq_lift (cm_policy m) peer now) as F2.
  pose proof (pol_step_inv (cm_policy m) (PLift peer now)) as F3. cbn [pol_step] in F3.
  destruct (ConnectionPolicy_lift_peer_backoff (cm_policy m) peer now) as [backoff p]. cbn [snd] in *.
  assert (same_gate m (with_policy m p)) as H1 by by apply same_gate_policy.
  destruct (match cm_retries (with_policy m p) !! peer with Some _ => _ | None => _ end) as [retry m2] eqn:E.
  assert (same_gate m m2 ∧ cm_outcomes_to_return m2 = cm_outcomes_to_return m ∧
    cm_policy m2 = p ∧ cm_clock_ms m2 = cm_clock_ms m) as (G1&G2&G3&G4).
  { destruct (cm_retries (with_policy m p) !! peer) as [r|]; [destruct (_ && _ && _)|]; simplify_eq;
      split_and!; try done; eapply same_gate_trans; try exact H1; by apply same_gate_private. }
  destruct (backoff || retry); cbn [fst]; split_and!; try done.
  all: intros t; simpl; rewrite G3; apply F2.
Qed.
Lemma lift_all_gate now l m n :
  let m' := (foldl (lift_peer now) (m, n) l).1 in
  same_gate m m' ∧ cm_outcomes_to_return m' = cm_outcomes_to_return m ∧
  (∀ t, lq (cm_policy m') t = lq (cm_policy m) t) ∧ cm_clock_ms m' = cm_clock_ms m.
Proof.
  cbv zeta. revert m n. induction l as [|peer l IH]; intros m n; [by split_and!|].
  cbn [foldl]. pose proof (lift_gate now m n peer) as (G1&G2&G3&G4). cbv zeta in *.
  destruct (lift_peer now (m, n) peer) as [m1 n1]. cbn [fst] in *.
  destruct (IH m1 n1) as (I1&I2&I3&I4). split_and!; [by eapply same_gate_trans|congruence| |congruence].
  intros t. by rewrite I3.
Qed.
Lemma network_added_safe k m now : idle k m → now ≤ k_time k →
  msafe k m no_units (ConnectionManager_network_added m now) (finished (λ _, no_units)).
Proof.
  intros Hm Hnow. unfold ConnectionManager_network_added.
  destruct (idle_observe k m now Hnow Hm) as (O1&O2&O3).
  set (m1 := prune_lifts _ _) in *.
  pose proof (lift_all_gate now (liftable m1) m1 0) as (G1&G2&G3&G4). cbv zeta in *.
  destruct (foldl _ _ _) as [m2 lifted]. cbn [fst] in *.
  assert (same_gate m m2) as Hg.
  { eapply same_gate_trans; [|exact G1]. by apply same_gate_private. }
  assert (∀ t, k_time k ≤ t → lq (cm_policy m2) t ≤ lq (cm_policy m) t) as Hlq.
  { intros t _. rewrite G3. done. }
  assert (cm_clock_ms m2 ≤ k_time k) as Hclock by (rewrite G4; exact O2).
  destruct (0 <? lifted).
  - apply publish_private; [done| |done]. by apply lags_gate.
  - eapply safe_shift; [by apply (shift_keep k m m2)|]. apply msafe_ret. split_and!; [done..|].
    cbn [snd]. destruct Hg as (Hg&_), Hm as (Hm&_&Hret). split_and!; [congruence|done|].
    rewrite G2. exact Hret.
Qed.

(** The manager has private trust [cm_trust m]; the snapshot still shows [tr]. *)
Definition moved (m m' : ConnectionManager) (k : known) (g : ConnectionManager) (r r' : units) : Prop :=
  r' = r ∧ keeps_gate m m' ∧ ∃ tr', g = with_trust m' tr'.
Lemma hand_over_all_safe k m tr peer l r : cm_cell m = c → cm_clock_ms m ≤ k_time k →
  msafe k (with_trust m tr) r (hand_over_all m peer l) (λ m' k' g' r', moved m m' k' g' r r').
Proof.
  revert k m tr. induction l as [|a l IH]; intros k m tr Hc Hclock.
  { apply msafe_ret. split_and!; [done|apply keeps_refl|by exists tr]. }
  cbn [hand_over_all]. apply safe_bind; [apply _|]. eapply safe_wand; [apply _|by apply hand_over_safe|].
  intros [b m1] k1 g1 r1 Hk1 (-> & Hkeep & tr1 & -> & _) _. cbn [snd] in *.
  pose proof Hkeep as (E1&_&E2&_). eapply safe_wand; [apply _|apply IH; [congruence|rewrite E2; destruct Hk1; lia]|].
  intros m2 k2 g2 r2 _ (-> & Hkeep2 & tr2 & ->). split_and!; [done|by eapply keeps_trans|by exists tr2].
Qed.
Lemma retire_loop_safe k m tr stuck l r : cm_cell m = c → cm_clock_ms m ≤ k_time k →
  msafe k (with_trust m tr) r (retire_loop m stuck l) (λ x k' g' r', moved m x.1.1 k' g' r r').
Proof.
  revert k m tr stuck. induction l as [|peer l IH]; intros k m tr stuck Hc Hclock; cbn [retire_loop].
  { apply msafe_ret. split_and!; [done|apply keeps_refl|by exists tr]. }
  destruct (_ <? _).
  2:{ apply msafe_ret. split_and!; [done|apply keeps_refl|by exists tr]. }
  apply safe_bind; [apply _|]. eapply safe_wand; [apply _|by apply hand_over_all_safe|].
  intros m1 k1 g1 r1 Hk1 (-> & Hkeep & tr1 & ->) _. pose proof Hkeep as (E1&_&E2&_).
  eapply safe_wand; [apply _|apply IH; [congruence|rewrite E2; destruct Hk1; lia]|].
  intros x k2 g2 r2 _ (-> & Hkeep2 & tr2 & ->). split_and!; [done|by eapply keeps_trans|by exists tr2].
Qed.
Lemma set_trust_safe k m trust live : idle k m →
  msafe k m no_units (ConnectionManager_set_trust m trust live) (finished (λ _, no_units)).
Proof.
  intros (Hc&Hclock&Hret). unfold ConnectionManager_set_trust, retire_unclassified_book_peers.
  set (m1 := with_trust m _). rewrite -(with_trust_id m). change (with_trust m (cm_trust m)) with (with_trust m1 (cm_trust m)).
  apply safe_bind; [apply _|]. apply safe_bind; [apply _|].
  eapply safe_wand; [apply _|by apply retire_loop_safe|].
  intros [[m2 stuck] retired] k2 g2 r2 Hk2 (-> & Hkeep & tr2 & ->) _. cbn [fst] in *.
  eapply safe_shift.
  { apply (private k2 (with_trust m2 tr2) (with_trust (with_retired m2 (stuck ++ retired)) tr2)); [by apply same_gate_private|done|done]. }
  apply msafe_ret. intros _. destruct Hkeep as (E1&_&E2&_&E3).
  apply safe_bind; [apply _|].
  eapply safe_wand; [apply _|apply publish_safe; [apply lags_trust|by rewrite /= E1]|].
  intros m' k3 g' r' Hk3 (-> & -> & ->) _. apply msafe_ret. split_and!; [done..|].
  split_and!; [by rewrite /= E1| |done]. simpl. rewrite E2. destruct Hk2, Hk3. simpl. lia.
Qed.
Lemma bind_local_safe k m local : idle k m →
  msafe k m no_units (pbind (ConnectionManager_bind_local_peer m local) (λ m, Ret ((), m)))
    (finished (λ _, no_units)).
Proof.
  intros Hm. unfold ConnectionManager_bind_local_peer. apply publish_private; [done|by split_and!|].
  by destruct Hm as (_&?&_).
Qed.
Lemma shutdown_safe k m : idle k m →
  msafe k m no_units (pbind (ConnectionManager_begin_shutdown m) (λ m, Ret ((), m)))
    (finished (λ _, no_units)).
Proof.
  intros Hm. unfold ConnectionManager_begin_shutdown. apply safe_bind; [apply _|].
  rewrite (proj1 Hm). apply msafe_on. intros k1 h f Hk1 Hi. exists m, no_units. split.
  { cbn [snd]. destruct Hi. split; rewrite ?hset_eq; done. }
  eapply safe_wand; [apply _|apply publish_safe; [|apply (proj1 Hm)]|].
  - split_and!; try done. by intros [].
  - intros m' k3 g' r' Hk3 (-> & -> & ->) _. apply msafe_ret. split_and!; [done..|].
    split_and!; [apply Hm| |done]. destruct Hm as (_&?&_). simpl. destruct Hk1, Hk3. lia.
Qed.
End dial.
