(* ===== verification/DialWorld.v ===== *)
(** * Every interleaving of the dial gate

    The manager runs one operation at a time; any number of tasks admit dials
    against snapshots they loaded or through the handle; tickets and slots are
    dropped at any moment; tickets of other managers are handed to this one.
    [world_step] performs one access of one of them. The theorems hold in every
    world reachable from a new manager. *)
From stdpp Require Import gmultiset.
From S2P Require Import Prelude Atomics Ids Trust ConnectionPolicy ConnectionManager DialRoom.
From S2P Require Import DialConcurrency.
Local Open Scope N_scope.

(** ** The manager's operations *)

Inductive mop :=
| MSuccess (t : DialTicket) (now : N)
| MFailure (t : DialTicket) (now : N)
| MHopUnreached (t : DialTicket) (relay : TransportIdentity) (came_up : bool) (now : N)
| MPermanent (t : DialTicket) (now : N)
| MWithdrawn (t : DialTicket) (now : N)
| MRefused (t : DialTicket) (now : N)
| MMismatch (t : DialTicket) (now : N)
| MInbound
| MClosed (slot : ConnectionSlot)
| MInboundRetained (peer : TransportIdentity) (now : N)
| MLearn (peer : TransportIdentity) (address : bytes) (now : N)
| MAddressFailure (peer : TransportIdentity) (address : bytes) (now : N)
| MPermanentAddress (peer : TransportIdentity) (address : bytes)
| MRelayReached (relay : TransportIdentity) (now : N)
| MNetworkAdded (now : N)
| MSetTrust (trust : TrustSources) (live : list TransportIdentity)
| MBindLocal (local : TransportIdentity)
| MShutdown
| MTakeDue (now limit : N)
| MClearClaim (peer : TransportIdentity)
| MReclaim (peer : TransportIdentity)
| MReleaseClaim (peer : TransportIdentity)
| MDrainNotes
| MSetMaxAddresses (limit : N).

Definition quietly {A} (p : prog heap (A * ConnectionManager)) :
    prog heap (option ConnectionSlot * ConnectionManager) := pmap (λ x, (None, x.2)) p.
Definition quiet1 (p : prog heap ConnectionManager) :
    prog heap (option ConnectionSlot * ConnectionManager) := quietly (pbind p (λ m, Ret ((), m))).

Definition mop_prog (m : ConnectionManager) (op : mop) :
    prog heap (option ConnectionSlot * ConnectionManager) :=
  match op with
  | MSuccess t now => pmap (λ x, (Some x.1, x.2)) (ConnectionManager_record_success m t now)
  | MFailure t now => quietly (ConnectionManager_record_failure m t now)
  | MHopUnreached t relay up now =>
      quietly (ConnectionManager_record_relay_hop_unreached m t relay up now)
  | MPermanent t now => quietly (ConnectionManager_record_permanent_failure m t now)
  | MWithdrawn t now => quietly (ConnectionManager_record_authorization_withdrawn m t now)
  | MRefused t now => quietly (ConnectionManager_record_locally_refused m t now)
  | MMismatch t now => quietly (ConnectionManager_record_identity_mismatch m t now)
  | MInbound => ConnectionManager_admit_inbound m
  | MClosed slot => quiet1 (ConnectionManager_record_connection_closed m slot)
  | MInboundRetained peer now => quietly (ConnectionManager_record_inbound_retained m peer now)
  | MLearn peer a now => quietly (ConnectionManager_learn_address m peer a now)
  | MAddressFailure peer a now =>
      quiet1 (ConnectionManager_record_address_failure_unadmitted m peer a now)
  | MPermanentAddress peer a =>
      quiet1 (ConnectionManager_record_permanent_address_failure_unadmitted m peer a)
  | MRelayReached relay now => Ret (None, ConnectionManager_relay_reached m relay now)
  | MNetworkAdded now => quietly (ConnectionManager_network_added m now)
  | MSetTrust trust live => quietly (ConnectionManager_set_trust m trust live)
  | MBindLocal local => quiet1 (ConnectionManager_bind_local_peer m local)
  | MShutdown => quiet1 (ConnectionManager_begin_shutdown m)
  | MTakeDue now limit => Ret (None, (ConnectionManager_take_due_retries m now limit).2)
  | MClearClaim peer => Ret (None, ConnectionManager_clear_retry_claim m peer)
  | MReclaim peer => Ret (None, ConnectionManager_reclaim_retry m peer)
  | MReleaseClaim peer => Ret (None, ConnectionManager_release_retry_claim m peer)
  | MDrainNotes => Ret (None, (ConnectionManager_drain_notes m).2)
  | MSetMaxAddresses limit => Ret (None, ConnectionManager_set_max_addresses_per_peer m limit)
  end.
Definition mop_ticket (op : mop) : option DialTicket :=
  match op with
  | MSuccess t _ | MFailure t _ | MHopUnreached t _ _ _ | MPermanent t _ | MWithdrawn t _
  | MRefused t _ | MMismatch t _ => Some t
  | _ => None
  end.
Definition mop_slot (op : mop) : option ConnectionSlot :=
  match op with MClosed slot => Some slot | _ => None end.
(** The time the operation is judged at. *)
Definition mop_time (op : mop) : N :=
  match op with
  | MSuccess t now | MFailure t now | MHopUnreached t _ _ now | MPermanent t now | MWithdrawn t now
  | MRefused t now | MMismatch t now => DialTicket_settled_at t now
  | MInboundRetained _ now | MLearn _ _ now | MAddressFailure _ _ now | MRelayReached _ now
  | MNetworkAdded now | MTakeDue now _ => now
  | _ => 0
  end.

(** ** Worlds *)

Inductive manager_state :=
| MIdle (m : ConnectionManager)
| MBusy (p : prog heap (option ConnectionSlot * ConnectionManager))
| MGone.
Inductive client_result := CAdmit (r : result DialTicket DialDenial) | CDropped.

Record world := MkWorld {
  w_heap : heap;
  w_manager : manager_state;
  w_clients : list (prog heap client_result);
  w_tickets : list DialTicket;
  w_slots : list ConnectionSlot;
  w_snapshots : list PolicySnapshot;
  w_time : N
}.

Definition olist {A} (o : option A) : list A := match o with Some x => [x] | None => [] end.

Inductive world_step (c : Cell) : world → world → Prop :=
| ws_load h mg cl tk sl sn t :
    world_step c (MkWorld h mg cl tk sl sn t) (MkWorld h mg cl tk sl (sh_published (h c) :: sn) t)
| ws_admit h mg cl tk sl sn t s request now :
    s ∈ sn →
    world_step c (MkWorld h mg cl tk sl sn t)
      (MkWorld h mg (cl ++ [pmap CAdmit (PolicySnapshot_admit s request now)]) tk sl sn (N.max t now))
| ws_handle_admit h mg cl tk sl sn t request now :
    world_step c (MkWorld h mg cl tk sl sn t)
      (MkWorld h mg (cl ++ [pmap CAdmit (SnapshotHandle_admit (MkSnapshotHandle c) request now)])
         tk sl sn (N.max t now))
| ws_client h mg cl tk sl sn t i X (f : heap → X * heap) j :
    cl !! i = Some (Act f j) →
    world_step c (MkWorld h mg cl tk sl sn t)
      (MkWorld (f h).2 mg (<[i := j (f h).1]> cl) tk sl sn t)
| ws_admitted h mg cl tk sl sn t i ticket :
    cl !! i = Some (Ret (CAdmit (Ok ticket))) →
    world_step c (MkWorld h mg cl tk sl sn t) (MkWorld h mg (delete i cl) (ticket :: tk) sl sn t)
| ws_refused h mg cl tk sl sn t i e :
    cl !! i = Some (Ret (CAdmit (Err e))) →
    world_step c (MkWorld h mg cl tk sl sn t) (MkWorld h mg (delete i cl) tk sl sn t)
| ws_dropped h mg cl tk sl sn t i :
    cl !! i = Some (Ret CDropped) →
    world_step c (MkWorld h mg cl tk sl sn t) (MkWorld h mg (delete i cl) tk sl sn t)
| ws_drop_ticket h mg cl tk tk' sl sn t ticket :
    tk ≡ₚ ticket :: tk' →
    world_step c (MkWorld h mg cl tk sl sn t)
      (MkWorld h mg (cl ++ [pmap (λ _, CDropped) (DialTicket_drop ticket)]) tk' sl sn t)
| ws_drop_slot h mg cl tk sl sl' sn t slot :
    sl ≡ₚ slot :: sl' →
    world_step c (MkWorld h mg cl tk sl sn t)
      (MkWorld h mg (cl ++ [pmap (λ _, CDropped) (ConnectionSlot_drop slot)]) tk sl' sn t)
| ws_rebind h mg cl tk tk' sl sn t ticket address :
    tk ≡ₚ ticket :: tk' →
    world_step c (MkWorld h mg cl tk sl sn t)
      (MkWorld h mg cl ((DialTicket_rebind_address ticket address).2 :: tk') sl sn t)
| ws_foreign_ticket h mg cl tk sl sn t ticket :
    tk_cell ticket ≠ c →
    world_step c (MkWorld h mg cl tk sl sn t) (MkWorld h mg cl (ticket :: tk) sl sn t)
| ws_foreign_access h h' mg cl tk sl sn t :
    h' c = h c →
    world_step c (MkWorld h mg cl tk sl sn t) (MkWorld h' mg cl tk sl sn t)
| ws_start h m cl tk tk' sl sl' sn t op :
    tk ≡ₚ olist (mop_ticket op) ++ tk' → sl ≡ₚ olist (mop_slot op) ++ sl' →
    world_step c (MkWorld h (MIdle m) cl tk sl sn t)
      (MkWorld h (MBusy (mop_prog m op)) cl tk' sl' sn (N.max t (mop_time op)))
| ws_manager h X (f : heap → X * heap) j cl tk sl sn t :
    world_step c (MkWorld h (MBusy (Act f j)) cl tk sl sn t)
      (MkWorld (f h).2 (MBusy (j (f h).1)) cl tk sl sn t)
| ws_done h o m cl tk sl sn t :
    world_step c (MkWorld h (MBusy (Ret (o, m))) cl tk sl sn t)
      (MkWorld h (MIdle m) cl tk (olist o ++ sl) sn t)
| ws_drop_manager h m cl tk sl sn t :
    world_step c (MkWorld h (MIdle m) cl tk sl sn t)
      (MkWorld (run (ConnectionManager_drop m) h).2 MGone cl tk sl sn t).

(** A new manager, its first snapshot taken, and nothing under way. *)
Definition world_new (c : Cell) (h : heap) (policy : ConnectionPolicy) (max_pending_dials : N) : world :=
  let '(s, m) := ConnectionManager_new c policy max_pending_dials in
  MkWorld (hset h c s) (MIdle m) [] [] [] [snapshot_of m] 0.
Definition reachable (c : Cell) (h : heap) (policy : ConnectionPolicy) (max_pending_dials : N) (w : world) :
    Prop := rtc (world_step c) (world_new c h policy max_pending_dials) w.

(** ** The invariant of a world *)

Section world.
Context (c : Cell).

Ltac units_ac :=
  unfold r_op; simpl; unfold units_op; simpl; f_equal; [lia|lia|lia|lia|multiset_solver].

Definition client_post (a : client_result) (k : known) (r : units) : Prop :=
  match a with CAdmit a => admitted_post c a k r | CDropped => r = no_units end.
Lemma client_post_mono a k r k' : k_grows k k' → client_post a k r → client_post a k' r.
Proof. intros Hk. destruct a; [by apply admitted_post_mono|done]. Qed.

Abbreviation client_safe k r p := (safe_client k_grows (dial_inv c) k r p client_post).

(** The dial a snapshot grants. *)
Definition grants_dial (s : PolicySnapshot) (t : DialTicket) : Prop :=
  ConnectionPolicy_admit (ps_policy s) (MkDialRequest (tk_peer t) (tk_address t) (tk_origin t))
    (request_class s (MkDialRequest (tk_peer t) (tk_address t) (tk_origin t))) (tk_admitted_at_ms t) = Ok ().

(** What an access has just returned: a ticket only if the snapshot published
    at that moment grants it. *)
Definition granted {A} (ticket : A → option DialTicket) (h : heap) (p : prog heap A) : Prop :=
  match p with
  | Ret a =>
      match ticket a with
      | Some t => ps_revision (sh_published (h c)) < u64_max → grants_dial (sh_published (h c)) t
      | None => True
      end
  | Act _ _ => True
  end.
(** Every access of [p] grants only so. *)
Fixpoint commits {A} (ticket : A → option DialTicket) (k : known) (p : prog heap A) : Prop :=
  match p with
  | Ret _ => True
  | Act f j =>
      ∀ k' h m r, k_grows k k' → dial_inv c k' h m r →
      granted ticket h (j (f h).1) ∧ commits ticket k' (j (f h).1)
  end.
Lemma commits_later {A} (ticket : A → option DialTicket) k k' p :
  k_grows k k' → commits ticket k p → commits ticket k' p.
Proof. intros Hk. destruct p; [done|]. intros Hp k2 h m r Hk2. apply Hp. by etrans. Qed.
Lemma commits_bind {A B} (ticket : B → option DialTicket) k (p : prog heap A) (j : A → prog heap B) :
  (∀ a h, granted ticket h (j a)) → (∀ a k', k_grows k k' → commits ticket k' (j a)) →
  commits ticket k (pbind p j).
Proof.
  intros Hg. revert k. induction p as [a|X f i IH]; intros k Hj; simpl; [by apply Hj|].
  intros k' h m r Hk Hi. split.
  - destruct (i (f h).1); [apply Hg|done].
  - apply IH. intros a k2 Hk2. apply Hj. by etrans.
Qed.
Lemma commits_on {X A} (ticket : A → option DialTicket) k (f : Shared → X * Shared) (j : X → prog heap A) :
  (∀ k' h m r, k_grows k k' → dial_inv c k' h m r →
   granted ticket h (j (f (h c)).1) ∧ commits ticket k' (j (f (h c)).1)) →
  commits ticket k (pbind (on c f) j).
Proof.
  intros Hj. simpl. intros k' h m r Hk Hi. specialize (Hj k' h m r Hk Hi). by destruct (f (h c)).
Qed.

Abbreviation ok_ticket := (λ a : result DialTicket DialDenial, match a with Ok t => Some t | Err _ => None end).
Lemma commits_refuse k t e :
  commits ok_ticket k (pbind (DialTicket_drop t) (λ _, Ret (Err e))).
Proof. by apply commits_bind. Qed.
Lemma granted_refuse h t e :
  granted ok_ticket h (pbind (DialTicket_drop t) (λ _, Ret (Err e))).
Proof.
  unfold DialTicket_drop. by destruct (tk_outcome_reserved t), (tk_connection_kept t), (tk_settled t).
Qed.

Lemma revalidate_commits k s t : ps_cell s = c → s ∈ k_published k → grants_dial s t →
  commits ok_ticket k (admit_revalidate s t).
Proof.
  intros Hc Hs Hg. unfold admit_revalidate, PolicySnapshot_is_current. rewrite Hc.
  apply commits_on. intros k1 h1 m1 r1 Hk1 _. cbn [fst].
  destruct (sh_shutting_down (h1 c)); [split; [apply granted_refuse|apply commits_refuse]|].
  split; [done|]. cbn [pbind on act]. intros k2 h2 m2 r2 Hk2 Hi2. cbn [fst].
  destruct (sh_alive (h2 c)); cbn [negb pbind on act load_published].
  2:{ split; [apply granted_refuse|apply commits_refuse]. }
  split; [done|]. intros k3 h3 m3 r3 Hk3 Hi3. cbn [fst].
  destruct (N.eqb_spec (ps_revision s) (ps_revision (sh_published (h3 c)))) as [Heq|Hne]; cbn [negb].
  - split; [|done]. cbn [granted]. intros Hlt.
    rewrite (di_revision _ _ _ _ _ Hi3) in Hlt, Heq.
    rewrite -(di_unique _ _ _ _ _ Hi3 Hlt s); [done| |done]. by apply Hk3, Hk2, Hk1.
  - split; [apply granted_refuse|apply commits_refuse].
Qed.
Lemma granted_revalidate h s t : granted ok_ticket h (admit_revalidate s t).
Proof. done. Qed.
Lemma reserve_commits k s request now : ps_cell s = c → s ∈ k_published k →
  ConnectionPolicy_admit (ps_policy s) request (request_class s request) now = Ok () →
  commits ok_ticket k (admit_reserve s request now).
Proof.
  intros Hc Hs Ha. unfold admit_reserve. rewrite Hc.
  assert (∀ b, grants_dial s (ticket_flags (MkDialTicket c false (dr_origin request) (dr_peer request)
    (dr_address request) false false now) b false false)) as Hg.
  { intros b. unfold grants_dial. by destruct request. }
  apply commits_bind.
  { intros [] h; [|done]. unfold reserve. by cbn [pbind on act granted]. }
  intros [[]|[]] k1 Hk1; [|done]. apply commits_bind.
  { intros [[]|[]] h; [|apply granted_refuse]. by destruct (dr_peer request). }
  intros [[]|[]] k2 Hk2; [|apply commits_refuse].
  destruct (dr_peer request) eqn:Hp.
  - apply commits_bind.
    { intros [[]|[]] h; [done|apply granted_refuse]. }
    intros [[]|[]] k3 Hk3; [|apply commits_refuse].
    apply revalidate_commits; [done|by apply Hk3, Hk2, Hk1|apply (Hg true)].
  - apply revalidate_commits; [done|by apply Hk2, Hk1|apply (Hg false)].
Qed.
Lemma admit_commits k s request now : ps_cell s = c → s ∈ k_published k →
  commits ok_ticket k (PolicySnapshot_admit s request now).
Proof.
  intros Hc Hs. unfold PolicySnapshot_admit. apply commits_bind.
  { intros [] h; [done|]. unfold PolicySnapshot_is_current. by cbn. }
  intros [] k1 Hk1; [done|]. apply commits_bind.
  { intros [] h; cbn [negb]; [|done]. by destruct (ConnectionPolicy_admit _ _ _ _). }
  intros [] k2 Hk2; cbn [negb]; [|done].
  destruct (ConnectionPolicy_admit _ _ _ _) as [[]|e] eqn:Ha; [|done].
  apply reserve_commits; [done|by apply Hk2, Hk1|done].
Qed.
(** A continuation that hands a ticket on at once, or none. *)
Lemma commits_through {A B} (ticket : A → option DialTicket) (ticket' : B → option DialTicket) k
    (p : prog heap A) (j : A → prog heap B) :
  (∀ a h, granted ticket h (Ret a) → granted ticket' h (j a)) →
  (∀ a k', k_grows k k' → commits ticket' k' (j a)) →
  commits ticket k p → commits ticket' k (pbind p j).
Proof.
  intros Hg. revert k. induction p as [a|X f i IH]; intros k Hj Hp; simpl; [by apply Hj|].
  intros k' h m r Hk Hi. destruct (Hp k' h m r Hk Hi) as [Hgi Hpi]. split.
  - destruct (i (f h).1); [by apply Hg|done].
  - apply IH; [|done]. intros a k2 Hk2. apply Hj. by etrans.
Qed.
Lemma granted_attempts h n request now :
  granted ok_ticket h (admit_attempts n (MkSnapshotHandle c) request now).
Proof. by destruct n. Qed.
Lemma granted_admit h s request now : granted ok_ticket h (PolicySnapshot_admit s request now).
Proof. done. Qed.
Lemma attempts_commit k n request now :
  commits ok_ticket k (admit_attempts n (MkSnapshotHandle c) request now).
Proof.
  revert k. induction n as [|n IH]; intros k; [done|]. cbn [admit_attempts]. unfold SnapshotHandle_load.
  cbn [hd_cell]. apply commits_on. intros k1 h1 m1 r1 Hk1 Hi1. cbn [fst]. split; [done|].
  apply (commits_through ok_ticket).
  - intros [t|[]] h Hg; try done. apply granted_attempts.
  - by intros [t|[]] k2 Hk2.
  - pose proof (di_current _ _ _ _ _ Hi1) as Hin. apply admit_commits; [|done].
    by apply (di_snapshots _ _ _ _ _ Hi1).
Qed.

Abbreviation client_ticket := (λ a : client_result, match a with CAdmit (Ok t) => Some t | _ => None end).
Lemma commits_admit k p : commits ok_ticket k p → commits client_ticket k (pmap CAdmit p).
Proof. intros Hp. eapply commits_through; [|done|exact Hp]. by intros [t|e] h. Qed.
Lemma commits_drop {A} k (p : prog heap A) : commits client_ticket k (pmap (λ _, CDropped) p).
Proof. by apply commits_bind. Qed.
Abbreviation client_ok k r p := (client_safe k r p ∧ commits client_ticket k p).
Lemma client_later k k' r p : k_grows k k' → client_ok k r p → client_ok k' r p.
Proof.
  intros Hk [Hp Hcm]. split; [|by eapply commits_later].
  eapply safe_client_mono; [apply _|apply client_post_mono|exact Hk|exact Hp].
Qed.
Inductive clients_safe (k : known) : list (prog heap client_result) → units → Prop :=
| clients_nil : clients_safe k [] no_units
| clients_cons p l r1 r2 : client_ok k r1 p → clients_safe k l r2 → clients_safe k (p :: l) (r1 ⊙ r2).

Lemma clients_later k k' l r : k_grows k k' → clients_safe k l r → clients_safe k' l r.
Proof.
  intros Hk. induction 1 as [|p l r1 r2 Hp _ IH]; constructor; [|done]. by eapply client_later.
Qed.
Lemma clients_snoc k l r p r1 : clients_safe k l r → client_ok k r1 p → clients_safe k (l ++ [p]) (r ⊙ r1).
Proof.
  intros Hl Hp. induction Hl as [|q l r2 r3 Hq _ IH]; cbn [app].
  - rewrite units_left -(units_right r1). constructor; [done|constructor].
  - rewrite -assoc. by constructor.
Qed.
Lemma clients_lookup k l r i p : clients_safe k l r → l !! i = Some p →
  ∃ r1 r2, r = r1 ⊙ r2 ∧ client_ok k r1 p ∧ clients_safe k (delete i l) r2 ∧
    ∀ k' p' r1', k_grows k k' → client_ok k' r1' p' → clients_safe k' (<[i := p']> l) (r1' ⊙ r2).
Proof.
  intros Hl. revert i. induction Hl as [|q l r1 r2 Hq Hl IH]; intros i Hi; [done|].
  destruct i as [|i].
  - injection Hi as ->. exists r1, r2. split_and!; [done|apply Hq|apply Hq|done|].
    intros k' p' r1' Hk Hp'. constructor; [done|]. by eapply clients_later.
  - destruct (IH i Hi) as (s1 & s2 & -> & Hs & Hdel & Hins). exists s1, (r1 ⊙ s2).
    split_and!; [units_ac|apply Hs|apply Hs|by constructor|].
    intros k' p' r1' Hk Hp'. replace (r1' ⊙ (r1 ⊙ s2)) with (r1 ⊙ (r1' ⊙ s2)) by units_ac.
    constructor; [by eapply client_later|by apply Hins].
Qed.

Definition sum_units {A} (f : A → units) (l : list A) : units := foldr (λ x r, f x ⊙ r) no_units l.
Lemma sum_units_perm {A} (f : A → units) l l' : l ≡ₚ l' → sum_units f l = sum_units f l'.
Proof.
  unfold sum_units. induction 1 as [|x l l' _ IH|x y l|l1 l2 l3 _ IH1 _ IH2]; cbn [foldr];
    [done|by rewrite IH| |congruence].
  units_ac.
Qed.
Lemma sum_units_app {A} (f : A → units) l l' : sum_units f (l ++ l') = sum_units f l ⊙ sum_units f l'.
Proof.
  unfold sum_units. induction l as [|x l IH]; cbn [foldr app]; [by rewrite units_left|]. rewrite IH. units_ac.
Qed.

Definition manager_safe (k : known) (g : ConnectionManager) (r : units) (mg : manager_state) : Prop :=
  match mg with
  | MIdle m => g = m ∧ idle c k m ∧ r = no_units
  | MBusy p => safe k_grows k_learns (dial_inv c) k g r p (finished c (oslot_units c))
  | MGone => r = no_units
  end.
Lemma manager_later k k' g r mg : k_grows k k' → manager_safe k g r mg → manager_safe k' g r mg.
Proof.
  intros Hk. destruct mg as [m|p|]; simpl; [|  |done].
  - intros (-> & Hm & ->). split_and!; try done. by eapply idle_later.
  - eapply safe_mono; [apply _| |exact Hk]. intros x k1 g1 r1 k2 Hk12. by apply finished_later.
Qed.

Record world_inv (w : world) : Prop := {
  wi_ex : ∃ k g rm rc,
    dial_inv c k (w_heap w) g
      (rm ⊙ (rc ⊙ (sum_units (ticket_units c) (w_tickets w) ⊙ sum_units (slot_units c) (w_slots w)))) ∧
    k_time k = w_time w ∧ w_snapshots w ⊆ k_published k ∧
    Forall (open_ticket c k) (w_tickets w) ∧
    clients_safe k (w_clients w) rc ∧ manager_safe k g rm (w_manager w)
}.

Lemma open_later k k' t : k_time k ≤ k_time k' → open_ticket c k t → open_ticket c k' t.
Proof. intros Ht Ho Hc. destruct (Ho Hc) as (?&?&?&?&?). split_and!; try done. lia. Qed.
Lemma tickets_later k k' l : k_time k ≤ k_time k' → Forall (open_ticket c k) l → Forall (open_ticket c k') l.
Proof. intros Ht Hl. eapply Forall_impl; [exact Hl|]. intros t. by apply open_later. Qed.

Lemma csafe_pmap {A} k r (p : prog heap A) (f : A → client_result) (Φ : A → known → units → Prop) :
  safe_client k_grows (dial_inv c) k r p Φ → (∀ a k r, Φ a k r → client_post (f a) k r) →
  client_safe k r (pmap f p).
Proof.
  intros Hp Hf. unfold pmap. apply safe_client_bind; [apply _|].
  eapply safe_client_wand; [apply _|exact Hp|]. intros a k' r' _ Ha _. apply csafe_ret. by apply Hf.
Qed.

(** The time a call is given becomes known. *)
Lemma inv_at k h g r now : dial_inv c k h g r → dial_inv c (k_at k now) h g r.
Proof. apply inv_later; [simpl; lia|done]. Qed.

Lemma msafe_pmap {A} k g r (p : prog heap (A * ConnectionManager)) (ra : A → units)
    (f : A → option ConnectionSlot) :
  safe k_grows k_learns (dial_inv c) k g r p (finished c ra) → (∀ a, ra a = oslot_units c (f a)) →
  safe k_grows k_learns (dial_inv c) k g r (pmap (λ x, (f x.1, x.2)) p) (finished c (oslot_units c)).
Proof.
  intros Hp Hf. unfold pmap. apply safe_bind; [apply _|].
  eapply safe_wand; [apply _|exact Hp|]. intros x k' g' r' _ (-> & -> & Hi) _. apply msafe_ret.
  split_and!; [by rewrite Hf|done|done].
Qed.
Lemma msafe_quiet {A} k g r (p : prog heap (A * ConnectionManager)) :
  safe k_grows k_learns (dial_inv c) k g r p (finished c (λ _, no_units)) →
  safe k_grows k_learns (dial_inv c) k g r (quietly p) (finished c (oslot_units c)).
Proof. intros Hp. by apply (msafe_pmap _ _ _ p (λ _, no_units) (λ _, None)). Qed.

(** Every operation is safe with what it takes. *)
Lemma foldl_mark_gate b l m :
  let m' := foldl (mark_claim b) m l in
  same_gate m m' ∧ cm_outcomes_to_return m' = cm_outcomes_to_return m ∧
  cm_policy m' = cm_policy m ∧ cm_clock_ms m' = cm_clock_ms m ∧ cm_cell m' = cm_cell m.
Proof.
  cbv zeta. revert m. induction l as [|p l IH]; intros m; [by split_and!|]. cbn [foldl].
  destruct (mark_claim_gate b m p) as (?&?&?&?&?), (IH (mark_claim b m p)) as (?&?&?&?&?).
  split_and!; [by eapply same_gate_trans|congruence..].
Qed.
Lemma mop_safe k m op : idle c k m → mop_time op ≤ k_time k →
  (∀ t, mop_ticket op = Some t → open_ticket c k t) →
  safe k_grows k_learns (dial_inv c) k m
    (sum_units (ticket_units c) (olist (mop_ticket op)) ⊙ sum_units (slot_units c) (olist (mop_slot op)))
    (mop_prog m op) (finished c (oslot_units c)).
Proof.
  intros Hm Ht Ho.
  assert (∀ r, r ⊙ no_units ⊙ no_units = r) as Hid by (intros r; by rewrite !units_right).
  assert (∀ now : N, ∀ t, DialTicket_settled_at t now ≤ k_time k → now ≤ k_time k) as Hset.
  { intros now t. unfold DialTicket_settled_at. destruct (N.ltb_spec (tk_admitted_at_ms t) now); lia. }
  destruct op; cbn [mop_prog mop_ticket mop_slot mop_time olist sum_units foldr] in *;
    rewrite ?Hid ?units_left ?units_right;
    try (specialize (Ho _ eq_refl)); try (apply msafe_quiet).
  - apply (msafe_pmap _ _ _ _ (slot_units c) Some); [by apply success_safe|done].
  - by apply failure_safe.
  - by apply hop_safe.
  - by apply permanent_safe.
  - apply clearing_safe; [done..|by eapply Hset].
  - apply clearing_safe; [done..|by eapply Hset].
  - by apply mismatch_safe.
  - by apply inbound_safe.
  - by apply closed_safe.
  - by apply inbound_retained_safe.
  - by apply (learn_safe c k m peer address now no_units).
  - by apply address_failure_safe.
  - by apply permanent_address_safe.
  - unfold ConnectionManager_relay_reached.
    apply (private_finished c k m _ (None : option ConnectionSlot)); try done.
    simpl. destruct Hm as (_&?&_). lia.
  - by apply network_added_safe.
  - by apply set_trust_safe.
  - by apply bind_local_safe.
  - by apply shutdown_safe.
  - unfold ConnectionManager_take_due_retries. cbn [snd].
    set (m1 := ConnectionManager_observe m now). set (l := (ntake _ _).*1).
    destruct (foldl_mark_gate true l m1) as (G1&G2&G3&G4&G5). cbv zeta in *.
    apply (private_finished c k m _ (None : option ConnectionSlot)); try done.
    rewrite G4. simpl. destruct Hm as (_&?&_). lia.
  - apply (private_finished c k m _ (None : option ConnectionSlot)); try done; by destruct Hm as (_&?&_).
  - destruct (mark_claim_gate true m peer) as (?&?&?&?&?).
    apply (private_finished c k m _ (None : option ConnectionSlot)); try done.
    unfold ConnectionManager_reclaim_retry. destruct Hm as (_&Hcl&_). match goal with E : cm_clock_ms _ = _ |- _ => by rewrite E end.
  - destruct (mark_claim_gate false m peer) as (?&?&?&?&?).
    apply (private_finished c k m _ (None : option ConnectionSlot)); try done.
    unfold ConnectionManager_release_retry_claim. destruct Hm as (_&Hcl&_). match goal with E : cm_clock_ms _ = _ |- _ => by rewrite E end.
  - apply (private_finished c k m _ (None : option ConnectionSlot)); try done; by destruct Hm as (_&?&_).
  - apply (private_finished c k m _ (None : option ConnectionSlot)); try done; by destruct Hm as (_&?&_).
Qed.

Lemma world_step_inv w w' : world_step c w w' → world_inv w → world_inv w'.
Proof.
  intros Hstep [(k & g & rm & rc & Hi & Ht & Hsn & Htk & Hcl & Hmg)].
  destruct Hstep as
    [h mg cl tk sl sn t
    |h mg cl tk sl sn t s request now Hs
    |h mg cl tk sl sn t request now
    |h mg cl tk sl sn t i X f j Hl
    |h mg cl tk sl sn t i ticket Hl
    |h mg cl tk sl sn t i e Hl
    |h mg cl tk sl sn t i Hl
    |h mg cl tk tk' sl sn t ticket Hp
    |h mg cl tk sl sl' sn t slot Hp
    |h mg cl tk tk' sl sn t ticket address Hp
    |h mg cl tk sl sn t ticket Hne
    |h h' mg cl tk sl sn t Hh
    |h m cl tk tk' sl sl' sn t op Hp Hps
    |h X f j cl tk sl sn t
    |h o m cl tk sl sn t
    |h m cl tk sl sn t];
    cbn [w_heap w_manager w_clients w_tickets w_slots w_snapshots w_time] in *.
  - split. exists k, g, rm, rc. split_and!; try done.
    intros s [-> | Hs]%elem_of_cons; [|by apply Hsn]. apply (di_current _ _ _ _ _ Hi).
  - split. exists (k_at k now), g, rm, (rc ⊙ no_units). rewrite units_right.
    pose proof (k_at_grows k now) as Hk. split_and!; try done.
    + by apply inv_at.
    + simpl. by rewrite Ht.
    + eapply tickets_later; [|exact Htk]. simpl. lia.
    + rewrite -(units_right rc). apply clients_snoc; [by eapply clients_later|].
      assert (ps_cell s = c) as Hsc by (apply (di_snapshots _ _ _ _ _ Hi); by apply Hsn). split.
      * eapply csafe_pmap; [|intros a k1 r1 Ha; exact Ha].
        apply snapshot_admit_safe; [by apply Hsn|done|simpl; lia].
      * apply commits_admit, admit_commits; [done|by apply Hsn].
    + by eapply manager_later.
  - split. exists (k_at k now), g, rm, (rc ⊙ no_units). rewrite units_right.
    pose proof (k_at_grows k now) as Hk. split_and!; try done.
    + by apply inv_at.
    + simpl. by rewrite Ht.
    + eapply tickets_later; [|exact Htk]. simpl. lia.
    + rewrite -(units_right rc). apply clients_snoc; [by eapply clients_later|].
      split; [|apply commits_admit, attempts_commit].
      eapply csafe_pmap; [|intros a k1 r1 Ha; exact Ha]. apply attempts_safe. simpl. lia.
    + by eapply manager_later.
  - destruct (clients_lookup _ _ _ _ _ Hcl Hl) as (r1 & r2 & -> & [Hsafe Hcm] & _ & Hins).
    set (rest := sum_units (ticket_units c) tk ⊙ sum_units (slot_units c) sl) in *.
    destruct (Hsafe k h g (rm ⊙ (r2 ⊙ rest)) (reflexivity k)) as (r1' & Hi' & Hsafe').
    { replace (r1 ⊙ (rm ⊙ (r2 ⊙ rest))) with (rm ⊙ (r1 ⊙ r2 ⊙ rest)) by units_ac. exact Hi. }
    split. exists k, g, rm, (r1' ⊙ r2). cbn [w_heap w_manager w_clients w_tickets w_slots w_snapshots w_time].
    split_and!; try done; [|apply Hins; [done|split; [done|apply (Hcm k h g _ (reflexivity k) Hi)]]]. fold rest.
    replace (rm ⊙ (r1' ⊙ r2 ⊙ rest)) with (r1' ⊙ (rm ⊙ (r2 ⊙ rest))) by units_ac. exact Hi'.
  - destruct (clients_lookup _ _ _ _ _ Hcl Hl) as (r1 & r2 & -> & [Hsafe _] & Hdel & _).
    destruct Hsafe as (r1' & Hsh & Hc' & -> & Ho).
    set (rest := sum_units (ticket_units c) tk ⊙ sum_units (slot_units c) sl) in *.
    split. exists k, g, rm, r2. cbn [w_heap w_manager w_clients w_tickets w_slots w_snapshots w_time].
    split_and!; try done; [|by constructor].
    replace (rm ⊙ (r2 ⊙ _)) with (ticket_units c ticket ⊙ (rm ⊙ (r2 ⊙ rest))).
    2:{ unfold rest, sum_units. cbn [foldr]. units_ac. }
    eapply (Hsh g k h); [done|]. replace (r1 ⊙ (rm ⊙ (r2 ⊙ rest))) with (rm ⊙ (r1 ⊙ r2 ⊙ rest)) by units_ac.
    exact Hi.
  - destruct (clients_lookup _ _ _ _ _ Hcl Hl) as (r1 & r2 & -> & [Hsafe _] & Hdel & _).
    destruct Hsafe as (r1' & Hsh & Hr). simpl in Hr. subst r1'.
    set (rest := sum_units (ticket_units c) tk ⊙ sum_units (slot_units c) sl) in *.
    split. exists k, g, rm, r2. cbn [w_heap w_manager w_clients w_tickets w_slots w_snapshots w_time].
    split_and!; try done. rewrite -(units_left (rm ⊙ _)). eapply (Hsh g k h); [done|].
    fold rest. replace (r1 ⊙ (rm ⊙ (r2 ⊙ rest))) with (rm ⊙ (r1 ⊙ r2 ⊙ rest)) by units_ac. exact Hi.
  - destruct (clients_lookup _ _ _ _ _ Hcl Hl) as (r1 & r2 & -> & [Hsafe _] & Hdel & _).
    destruct Hsafe as (r1' & Hsh & Hr). simpl in Hr. subst r1'.
    set (rest := sum_units (ticket_units c) tk ⊙ sum_units (slot_units c) sl) in *.
    split. exists k, g, rm, r2. cbn [w_heap w_manager w_clients w_tickets w_slots w_snapshots w_time].
    split_and!; try done. rewrite -(units_left (rm ⊙ _)). eapply (Hsh g k h); [done|].
    fold rest. replace (r1 ⊙ (rm ⊙ (r2 ⊙ rest))) with (rm ⊙ (r1 ⊙ r2 ⊙ rest)) by units_ac. exact Hi.
  - rewrite (sum_units_perm _ _ _ Hp) in Hi. rewrite Hp in Htk. apply Forall_cons in Htk as [_ Htk].
    split. exists k, g, rm, (rc ⊙ ticket_units c ticket).
    cbn [w_heap w_manager w_clients w_tickets w_slots w_snapshots w_time]. split_and!; try done.
    + eapply eq_ind; [exact Hi|]. unfold sum_units. cbn [foldr]. units_ac.
    + apply clients_snoc; [done|]. split; [|apply commits_drop]. eapply csafe_pmap; [apply drop_safe|]. done.
  - rewrite (sum_units_perm _ _ _ Hp) in Hi.
    split. exists k, g, rm, (rc ⊙ slot_units c slot).
    cbn [w_heap w_manager w_clients w_tickets w_slots w_snapshots w_time]. split_and!; try done.
    + eapply eq_ind; [exact Hi|]. unfold sum_units. cbn [foldr]. units_ac.
    + apply clients_snoc; [done|]. split; [|apply commits_drop]. eapply csafe_pmap; [apply slot_drop_safe|]. done.
  - rewrite (sum_units_perm _ _ _ Hp) in Hi. rewrite Hp in Htk. apply Forall_cons in Htk as [Ho Htk].
    assert (ticket_units c (DialTicket_rebind_address ticket address).2 = ticket_units c ticket ∧
      open_ticket c k (DialTicket_rebind_address ticket address).2) as [E Ho'].
    { unfold DialTicket_rebind_address. case_match; [done|]. split; [done|exact Ho]. }
    split. exists k, g, rm, rc. cbn [w_heap w_manager w_clients w_tickets w_slots w_snapshots w_time].
    split_and!; try done; [|by constructor]. eapply eq_ind; [exact Hi|].
    unfold sum_units. cbn [foldr]. by rewrite E.
  - split. exists k, g, rm, rc. cbn [w_heap w_manager w_clients w_tickets w_slots w_snapshots w_time].
    split_and!; try done.
    + eapply eq_ind; [exact Hi|]. unfold sum_units. cbn [foldr]. rewrite foreign_units //. by rewrite units_left.
    + constructor; [|done]. intros Hc. congruence.
  - split. exists k, g, rm, rc. split_and!; try done. by eapply inv_heap.
  - destruct Hmg as (-> & Hm & ->). rewrite (sum_units_perm _ _ _ Hp) (sum_units_perm _ _ _ Hps) in Hi.
    rewrite Hp in Htk. apply Forall_app in Htk as [Hop Htk].
    pose proof (k_at_grows k (mop_time op)) as Hk.
    split. eexists (k_at k (mop_time op)), m, _, rc.
    cbn [w_heap w_manager w_clients w_tickets w_slots w_snapshots w_time]. split_and!; try done.
    2:{ simpl. by rewrite Ht. }
    2:{ eapply tickets_later; [|exact Htk]. simpl. lia. }
    2:{ by eapply clients_later. }
    2:{ apply mop_safe; [by eapply idle_later|simpl; lia|]. intros t0 Eq. rewrite Eq in Hop.
        apply Forall_cons in Hop as [Ho _]. eapply open_later; [|exact Ho]. simpl. lia. }
    apply inv_at. eapply eq_ind; [exact Hi|]. rewrite !sum_units_app units_left.
    generalize (sum_units (ticket_units c) (olist (mop_ticket op))) (sum_units (slot_units c) (olist (mop_slot op)))
      (sum_units (ticket_units c) tk') (sum_units (slot_units c) sl'). intros. units_ac.
  - destruct (Hmg k h _ (reflexivity k) Hi) as (k' & g' & r' & Hk & Hi' & Hsafe).
    split. exists k', g', r', rc. cbn [w_heap w_manager w_clients w_tickets w_slots w_snapshots w_time].
    destruct Hk as [Htime Hpub]. assert (k_grows k k') as Hk by (split; [lia|done]).
    split_and!; try done.
    + by rewrite Htime.
    + by etrans.
    + eapply tickets_later; [|exact Htk]. lia.
    + by eapply clients_later.
  - destruct Hmg as (g' & r' & Hsh & -> & -> & Hm). cbn [fst snd] in *.
    split. exists k, m, no_units, rc. cbn [w_heap w_manager w_clients w_tickets w_slots w_snapshots w_time].
    split_and!; try done. pose proof (Hsh k h _ (reflexivity k) Hi) as Hi'.
    eapply eq_ind; [exact Hi'|]. rewrite sum_units_app units_left.
    assert (sum_units (slot_units c) (olist o) = oslot_units c o) as ->.
    { destruct o; [|done]. unfold sum_units. cbn [olist foldr oslot_units]. by rewrite units_right. }
    generalize (oslot_units c o) (sum_units (ticket_units c) tk) (sum_units (slot_units c) sl). intros. units_ac.
  - destruct Hmg as (-> & Hm & ->).
    split. exists k, m, no_units, rc. cbn [w_heap w_manager w_clients w_tickets w_slots w_snapshots w_time].
    split_and!; try done. unfold ConnectionManager_drop. simpl. rewrite (proj1 Hm).
    destruct Hi. split; rewrite ?hset_eq; done.
Qed.

(** A policy a manager can be built around. *)
Record fits (policy : ConnectionPolicy) (max_pending_dials : N) : Prop := {
  ft_policy : pol_inv policy;
  ft_addresses : cp_max_addresses policy ≤ usize_max;
  ft_connections : cp_max_connections policy ≤ usize_max;
  ft_pending : max_pending_dials ≤ usize_max
}.
Lemma lq_le_outside p t : lq p t ≤ outside_count p.
Proof.
  rewrite lq_alt outside_count_alt. apply msum_mono. intros k s _. unfold takes_room, outside_book.
  destruct (in_book (cp_book p) k.1 k.2); simpl; [lia|]. case_match; lia.
Qed.
Lemma world_new_inv h policy max_pending_dials :
  fits policy max_pending_dials → world_inv (world_new c h policy max_pending_dials).
Proof.
  intros [Hp Ha Hcn Hpd]. unfold world_new, ConnectionManager_new. split.
  set (m := MkConnectionManager _ _ _ _ _ _ _ _ _ _ _ _ _ _ _ _).
  exists (MkKnown 0 [snapshot_of m]), m, no_units, no_units.
  cbn [w_heap w_manager w_clients w_tickets w_slots w_snapshots w_time]. split_and!; try done.
  - rewrite !units_left. split; rewrite ?hset_eq; try done; simpl.
    + split; [done|]. lia.
    + split; [done|]. lia.
    + split; [done|]. lia.
    + by left.
    + intros s ->%list_elem_of_singleton. by split_and!.
    + intros n Hn. multiset_solver.
    + intros _ s ->%list_elem_of_singleton. done.
    + intros _ t _. lia.
    + intros _ t _. rewrite multiplicity_empty. pose proof (lq_le_outside policy t). destruct Hp. lia.
  - constructor.
Qed.
Lemma reachable_inv h policy max_pending_dials w :
  fits policy max_pending_dials → reachable c h policy max_pending_dials w → world_inv w.
Proof.
  intros Hf Hr. pose proof (world_new_inv h policy max_pending_dials Hf) as Hw. unfold reachable in Hr.
  revert Hw. induction Hr as [w|w1 w2 w3 Hs _ IH]; [done|]. intros Hw. by apply IH, (world_step_inv w1).
Qed.

(** ** Reading the invariant *)

(** The tickets this manager issued, and the slots of its connections that
    are still held. *)
Definition own_tickets (w : world) : list DialTicket := filter (λ t, tk_cell t = c) (w_tickets w).
Definition held_slots (w : world) : list ConnectionSlot :=
  filter (λ s, cs_cell s = c ∧ cs_released s = false) (w_slots w).

Lemma sum_tickets k l : Forall (open_ticket c k) l →
  let n := len (filter (λ t, tk_cell t = c) l) in
  sum_units (ticket_units c) l = MkUnits n n n 0 ∅.
Proof.
  unfold sum_units, len. induction 1 as [|t l Ho _ IH]; cbn [foldr]; [done|]. cbv zeta in *. rewrite IH.
  unfold ticket_units. rewrite filter_cons. case_bool_decide as Hc; case_decide; try done.
  destruct (Ho Hc) as (-> & -> & -> & _). unfold r_op. simpl. unfold units_op. simpl.
  f_equal; [lia..|]. multiset_solver.
Qed.
Lemma sum_slots l :
  sum_units (slot_units c) l =
  MkUnits 0 (len (filter (λ s, cs_cell s = c ∧ cs_released s = false) l)) 0 0 ∅.
Proof.
  unfold sum_units, len. induction l as [|s l IH]; cbn [foldr]; [done|]. rewrite IH.
  unfold slot_units. rewrite filter_cons. case_bool_decide as Hc; case_decide as Hd.
  - destruct Hd as [_ ->]. unfold r_op. simpl. unfold units_op. simpl. f_equal; [lia..|]. multiset_solver.
  - destruct (cs_released s) eqn:Hr; [|naive_solver]. apply units_left.
  - by destruct Hd.
  - by rewrite units_left.
Qed.

Lemma snapshots_kept w w' : rtc (world_step c) w w' → w_snapshots w ⊆ w_snapshots w'.
Proof.
  induction 1 as [w|w1 w2 w3 Hs _ IH]; [done|]. etrans; [|exact IH].
  destruct Hs; cbn [w_snapshots]; try done. intros s Hin. by right.
Qed.
(** The first snapshot names the ceilings. *)
Lemma initial_kept h policy n w : reachable c h policy n w →
  ∃ s, s ∈ w_snapshots w ∧ ps_max_pending_dials s = n ∧
    ps_max_connections s = cp_max_connections policy ∧ cp_max_addresses (ps_policy s) = cp_max_addresses policy.
Proof.
  intros Hr%snapshots_kept. eexists. split; [apply Hr; by left|]. by split_and!.
Qed.
Lemma idle_known k g r m : manager_safe k g r (MIdle m) → g = m ∧ cm_outcomes_to_return m = 0 ∧ r = no_units.
Proof. by intros (-> & (_&_&?) & ->). Qed.
End world.

(** C3: the dial gate's counters are exact under every interleaving. Whatever
    tasks admit, however their accesses interleave with the manager's and with
    tickets and slots dropped anywhere, the three counters never pass their
    ceilings; and whenever no call is under way, each counts exactly what is
    held: every ticket the manager issued holds one pending dial, one
    connection and one outcome, every unreleased slot one connection, and
    nothing is lost or counted twice. *)
Theorem dial_resources_exact (c : Cell) (h : heap) (policy : ConnectionPolicy)
    (max_pending_dials : N) (w : world) :
  fits policy max_pending_dials → reachable c h policy max_pending_dials w →
  let s := w_heap w c in
  (sh_pending s ≤ max_pending_dials ∧ sh_connections s ≤ cp_max_connections policy ∧
   sh_outcomes s ≤ cp_max_addresses policy) ∧
  (∀ m, w_manager w = MIdle m → w_clients w = [] →
   sh_pending s = len (own_tickets c w) ∧
   sh_connections s = len (own_tickets c w) + len (held_slots c w) ∧
   sh_outcomes s = len (own_tickets c w)).
Proof.
  intros Hf Hr s. pose proof (reachable_inv c h _ _ w Hf Hr) as [(k & g & rm & rc & Hi & _ & Hsn & Htk & Hcl & Hmg)].
  destruct (initial_kept c h _ _ w Hr) as (s0 & Hs0 & <- & <- & <-).
  destruct (di_snapshots _ _ _ _ _ Hi s0) as (_ & _ & -> & -> & ->); [by apply Hsn|].
  destruct (di_pending _ _ _ _ _ Hi) as [Ep ?], (di_connections _ _ _ _ _ Hi) as [Ec ?],
    (di_outcomes _ _ _ _ _ Hi) as [Eo ?].
  split; [by subst s; split_and!; lia|]. intros m Hm Hno. rewrite Hno in Hcl. rewrite Hm in Hmg.
  inversion Hcl; subst rc. destruct (idle_known _ _ _ _ _ Hmg) as (-> & Ez & ->).
  rewrite !units_left (sum_tickets c k _ Htk) (sum_slots c) in Ep, Ec, Eo. subst s. unfold own_tickets, held_slots.
  rewrite Ep Ec Eo Ez.
  cbn [r_op units_resources units_op u_pending u_connections u_admitted u_returning u_reserved].
  rewrite gmultiset_disj_union_left_id gmultiset_size_empty. split_and!; lia.
Qed.

(** ** The mismatch of an admitted dial *)

Lemma settle_keeps_policy m t : always (λ m', cm_policy m' = cm_policy m) (ConnectionManager_settle m t).
Proof.
  unfold ConnectionManager_settle. intros s. cbn [pbind fst].
  destruct (tk_outcome_reserved t && _); apply always_bind, always_true; by intros.
Qed.
Lemma publish_keeps_policy m : always (λ m', cm_policy m' = cm_policy m) (ConnectionManager_publish m).
Proof.
  unfold ConnectionManager_publish. intros s. cbn [pbind fst]. case_match; [|done]. by intros s'.
Qed.
Lemma settle_and_publish_answers {A} m t (a : A) :
  always (λ x, x.1 = a ∧ cm_policy x.2 = cm_policy m) (settle_and_publish m t a).
Proof.
  apply always_bind. eapply always_mono; [|apply settle_keeps_policy]. intros m1 E1.
  apply always_bind. eapply always_mono; [|apply publish_keeps_policy]. intros m2 E2. by rewrite /= E2.
Qed.

(** A dial the manager issued holds room for its outcome. *)
Lemma own_ticket_room c k h m t l fr now : Forall (open_ticket c k) l → t ∈ l → tk_cell t = c →
  dial_inv c k h m (fr ⊙ sum_units (ticket_units c) l) → k_time k ≤ now → cm_revision m < u64_max →
  lq (cm_policy m) now < cp_max_addresses (cm_policy m).
Proof.
  intros Hl Hin Hc Hi Hnow Hrev. pose proof (di_room _ _ _ _ _ Hi Hrev now Hnow) as Hle.
  rewrite (sum_tickets c k _ Hl) in Hle. cbn [r_op units_resources units_op u_admitted] in Hle.
  assert (0 < len (filter (λ t, tk_cell t = c) l)); [|lia].
  assert (t ∈ filter (λ t, tk_cell t = c) l) as Hf by by apply list_elem_of_filter.
  unfold len. destruct (filter _ _); [by apply elem_of_nil in Hf|]. simpl. lia.
Qed.

(** C1: an identity mismatch of an admitted dial is never lost. In every
    reachable world, whichever dial of its own the manager settles as a
    mismatch at a time not before any call so far, the mismatch is recorded
    and its address quarantined for thirty minutes, however many dials were
    admitted against stale snapshots, however full the table and whatever the
    other tasks do meanwhile. *)
Theorem admitted_mismatch_recorded (c : Cell) (h : heap) (policy : ConnectionPolicy)
    (max_pending_dials : N) (w : world) (m : ConnectionManager) (t : DialTicket) (now : N) :
  fits policy max_pending_dials → reachable c h policy max_pending_dials w →
  w_manager w = MIdle m → t ∈ own_tickets c w → w_time w ≤ now → cm_revision m < u64_max →
  always (λ x, x.1 = true ∧ ∃ peer, tk_peer t = Some peer ∧
    held_until (peer, tk_address t) (sat_add u64_max now IDENTITY_MISMATCH_QUARANTINE_MS) (cm_policy x.2))
    (ConnectionManager_record_identity_mismatch m t now).
Proof.
  intros Hf Hr Hm Ht Hnow Hrev.
  pose proof (reachable_inv c h _ _ w Hf Hr) as [(k & g & rm & rc & Hi & Hk & _ & Htk & _ & Hmg)].
  rewrite Hm in Hmg. destruct (idle_known _ _ _ _ _ Hmg) as (-> & _ & ->).
  apply list_elem_of_filter in Ht as [Hc Hin].
  pose proof (proj1 (Forall_forall _ _) Htk t Hin Hc) as (_ & _ & _ & [peer Hp] & Hat).
  assert (lq (cm_policy m) now < cp_max_addresses (cm_policy m)) as Hroom.
  { apply (own_ticket_room c k (w_heap w) m t (w_tickets w) (rc ⊙ sum_units (slot_units c) (w_slots w)));
      [done..| |lia|done].
    eapply eq_ind; [exact Hi|]. rewrite units_left -!assoc. f_equal. apply (comm r_op). }
  unfold ConnectionManager_record_identity_mismatch.
  assert (DialTicket_settled_at t now = now) as ->.
  { unfold DialTicket_settled_at. destruct (N.ltb_spec (tk_admitted_at_ms t) now); lia. }
  unfold ConnectionManager_issued_here. rewrite bool_decide_eq_true_2; [|by rewrite Hc -(di_cell _ _ _ _ _ Hi)].
  cbn [negb]. rewrite Hp. cbn [ConnectionManager_observe with_clock_ms cm_policy].
  pose proof (mismatch_has_room (cm_policy m) peer (tk_address t) now (di_policy _ _ _ _ _ Hi) Hroom) as Hrec.
  destruct (ConnectionPolicy_record_identity_mismatch _ _ _ _) as [b p] eqn:E. cbn [fst] in Hrec. subst b.
  eapply always_mono; [|apply settle_and_publish_answers]. intros [b m'] [-> Hpol]. cbn [fst snd] in *.
  split; [done|]. exists peer. split; [done|]. rewrite Hpol.
  destruct (own_claim_gate ConnectionManager_release_retry_claim
    (ConnectionManager_note (with_policy (ConnectionManager_observe m now) p)
       (NoteAddressQuarantined peer IDENTITY_MISMATCH_QUARANTINE_MS)) t) as (_ & _ & -> & _).
  { intros m1 q. by destruct (mark_claim_gate false m1 q) as (?&?&?&?&?). }
  destruct (note_gate (with_policy (ConnectionManager_observe m now) p)
    (NoteAddressQuarantined peer IDENTITY_MISMATCH_QUARANTINE_MS)) as (_ & _ & -> & _).
  by eapply mismatch_held.
Qed.

(** ** What an admission was decided on *)

Lemma grants_class s t : grants_dial s t →
  cp_shutting_down (ps_policy s) = false ∧
  ∃ peer, tk_peer t = Some peer ∧ TrustSources_classify (ps_trust s) peer ≠ Unauthorized ∧
    (TrustSources_classify (ps_trust s) peer = ConnectivityInfrastructureOnly →
     names_application_destination (tk_origin t) = false).
Proof.
  unfold grants_dial, ConnectionPolicy_admit, request_class. cbn [dr_peer dr_origin dr_address].
  destruct (cp_shutting_down (ps_policy s)); [done|]. cbn [negb].
  destruct (tk_peer t) as [peer|]; [|done]. intros H. split; [done|]. exists peer. split; [done|].
  by destruct (TrustSources_classify (ps_trust s) peer), (names_application_destination (tk_origin t)).
Qed.

(** C2: no dial is admitted on a withdrawn authorization. The access at which
    an admission commits happens while the snapshot then published grants the
    dial in full: the task may have started from any older snapshot, been
    overtaken by any number of publications, revocations and a shutdown, and
    it is still judged by what is in force at that access. Between operations
    that is the manager's own trust: it is not draining, it classifies the
    peer as authorized, and a connectivity-only peer is dialed only for
    connectivity. *)
Theorem admission_commits_current (c : Cell) (h : heap) (policy : ConnectionPolicy)
    (max_pending_dials : N) (w : world) (i : nat) (X : Type) (f : heap → X * heap)
    (j : X → prog heap client_result) (t : DialTicket) :
  fits policy max_pending_dials → reachable c h policy max_pending_dials w →
  w_clients w !! i = Some (Act f j) → j (f (w_heap w)).1 = Ret (CAdmit (Ok t)) →
  let s := sh_published (w_heap w c) in
  ps_revision s < u64_max →
  grants_dial s t ∧
  ∀ m, w_manager w = MIdle m →
    cp_shutting_down (cm_policy m) = false ∧
    ∃ peer, tk_peer t = Some peer ∧ ConnectionManager_classify m peer ≠ Unauthorized ∧
      (ConnectionManager_classify m peer = ConnectivityInfrastructureOnly →
       names_application_destination (tk_origin t) = false).
Proof.
  intros Hf Hr Hcli Hj s Hlt.
  pose proof (reachable_inv c h _ _ w Hf Hr) as [(k & g & rm & rc & Hi & _ & _ & _ & Hcl & Hmg)].
  destruct (clients_lookup _ _ _ _ _ _ Hcl Hcli) as (r1 & r2 & _ & [_ Hcm] & _).
  destruct (Hcm k _ _ _ (reflexivity k) Hi) as [Hg _]. rewrite Hj in Hg. specialize (Hg Hlt).
  split; [exact Hg|]. intros m Hm. rewrite Hm in Hmg. destruct (idle_known _ _ _ _ _ Hmg) as (-> & _ & _).
  unfold ConnectionManager_classify. rewrite -(di_trust _ _ _ _ _ Hi) -(di_shutting _ _ _ _ _ Hi).
  by apply grants_class.
Qed.

(** ** Tickets of another manager *)

(** No access of [p] changes cell [c]. *)
Fixpoint avoids {A} (c : Cell) (p : prog heap A) : Prop :=
  match p with
  | Ret _ => True
  | Act f j => ∀ h, (f h).2 c = h c ∧ avoids c (j (f h).1)
  end.
Lemma avoids_bind {A B} c (p : prog heap A) (j : A → prog heap B) :
  avoids c p → (∀ a, avoids c (j a)) → avoids c (pbind p j).
Proof. intros Hp Hj. induction p as [a|X f i IH]; [apply Hj|]. intros h. split; [apply Hp|apply IH, Hp]. Qed.
Lemma avoids_sub c d k n : d ≠ c → avoids c (fetch_sub d k n).
Proof. intros Hne h. cbn [fst snd]. unfold hset. by rewrite decide_False. Qed.
Lemma avoids_ticket_drop c t : tk_cell t ≠ c → avoids c (DialTicket_drop t).
Proof.
  intros Hne. unfold DialTicket_drop.
  apply avoids_bind; [by destruct (tk_outcome_reserved t); [apply avoids_sub|]|intros _].
  apply avoids_bind; [by destruct (negb _); [apply avoids_sub|]|intros _].
  by apply avoids_bind; [by destruct (negb _); [apply avoids_sub|]|intros _].
Qed.
(** The program leaves cell [c] alone and returns [a]. *)
Abbreviation inert c p P := (avoids c p ∧ always P p).
Lemma settle_inert m t : tk_cell t ≠ cm_cell m → inert (cm_cell m) (ConnectionManager_settle m t) (λ m', m' = m).
Proof.
  intros Hne. unfold ConnectionManager_settle. rewrite (bool_decide_eq_false_2 (tk_cell t = cm_cell m)) //.
  rewrite andb_false_r. split.
  - apply avoids_bind; [by apply avoids_sub|]. intros _. apply avoids_bind; [by apply avoids_ticket_drop|done].
  - intros s. cbn [pbind]. apply always_bind, always_true. done.
Qed.
Lemma not_issued_inert {A} m t (a : A) : tk_cell t ≠ cm_cell m →
  inert (cm_cell m) (not_issued m t a) (λ x, x.2 = m).
Proof.
  intros Hne. split.
  - apply avoids_bind; [by apply avoids_ticket_drop|done].
  - apply always_bind, always_true. done.
Qed.
Lemma inert_pmap {A B} c (p : prog heap A) (f : A → B) (P : B → Prop) :
  inert c p (λ a, P (f a)) → inert c (pmap f p) P.
Proof.
  intros [Ha Hp]. split; [by apply avoids_bind|]. apply always_bind. by eapply always_mono; [|exact Hp].
Qed.

(** a ticket settles only at the manager that issued it. Handed to
    another manager, whatever outcome it is settled with, it changes nothing
    there: no access touches that manager's counters, its flag or its
    published snapshot, and the manager keeps_gate its policy, trust, book,
    retries, claims and notes; only its clock may have advanced. *)
Theorem foreign_settlement_inert (m : ConnectionManager) (op : mop) (t : DialTicket) :
  mop_ticket op = Some t → tk_cell t ≠ cm_cell m →
  avoids (cm_cell m) (mop_prog m op) ∧
  always (λ x, ∃ now, x.2 = ConnectionManager_observe m now) (mop_prog m op).
Proof.
  intros Hop Hne.
  assert (∀ now, negb (ConnectionManager_issued_here (ConnectionManager_observe m now) t) = true) as Hn.
  { intros now. unfold ConnectionManager_issued_here. by rewrite bool_decide_eq_false_2. }
  assert (∀ A (a : A) now,
    inert (cm_cell m) (quietly (not_issued (ConnectionManager_observe m now) t a))
      (λ x, ∃ now, x.2 = ConnectionManager_observe m now)) as Hdrop.
  { intros A a now. apply inert_pmap. destruct (not_issued_inert (ConnectionManager_observe m now) t a Hne) as [H1 H2].
    split; [done|]. eapply always_mono; [|exact H2]. intros x ->. by exists now. }
  destruct op; try discriminate Hop; injection Hop as ->; cbn [mop_prog].
  2-7: unfold ConnectionManager_record_failure, ConnectionManager_record_relay_hop_unreached,
    ConnectionManager_record_permanent_failure, ConnectionManager_record_authorization_withdrawn,
    ConnectionManager_record_locally_refused, ConnectionManager_record_identity_mismatch;
    rewrite Hn; apply Hdrop.
  apply inert_pmap. unfold ConnectionManager_record_success. rewrite Hn. unfold ConnectionManager_keep_connection.
  match goal with |- context [ConnectionManager_settle ?m' ?t'] =>
    destruct (settle_inert m' t' Hne) as [H1 H2] end.
  split; [by apply avoids_bind|]. apply always_bind. eapply always_mono; [|exact H2].
  intros m' ->. by eexists.
Qed.

(** ** Calls one after the other *)

Section runs.
Context (c : Cell).
(** One access of each of the next [n]. *)
Fixpoint advance {S A} (n : nat) (p : prog S A) (s : S) : prog S A * S :=
  match n, p with
  | S n, Act f j => let '(x, s) := f s in advance n (j x) s
  | _, _ => (p, s)
  end.
Definition do_op (op : mop) (w : world) : world :=
  match w_manager w, mop_ticket op, mop_slot op with
  | MIdle m, None, None =>
      let '(o, m, h) := run (mop_prog m op) (w_heap w) in
      MkWorld h (MIdle m) (w_clients w) (w_tickets w) (olist o ++ w_slots w) (w_snapshots w)
        (N.max (w_time w) (mop_time op))
  | _, _, _ => w
  end.
(** A task enters the gate and performs [n] accesses. *)
Definition do_enter (request : DialRequest) (now : N) (n : nat) (w : world) : world :=
  let '(p, h) := advance n (pmap CAdmit (SnapshotHandle_admit (MkSnapshotHandle c) request now)) (w_heap w) in
  MkWorld h (w_manager w) (w_clients w ++ [p]) (w_tickets w) (w_slots w) (w_snapshots w)
    (N.max (w_time w) now).
Definition do_admit (request : DialRequest) (now : N) (w : world) : world :=
  let '(r, h) := run (SnapshotHandle_admit (MkSnapshotHandle c) request now) (w_heap w) in
  match r with
  | Ok t => MkWorld h (w_manager w) (w_clients w) (t :: w_tickets w) (w_slots w) (w_snapshots w)
              (N.max (w_time w) now)
  | Err _ => w
  end.

Lemma manager_runs h (p : prog heap (option ConnectionSlot * ConnectionManager)) cl tk sl sn t :
  rtc (world_step c) (MkWorld h (MBusy p) cl tk sl sn t)
    (MkWorld (run p h).2 (MBusy (Ret (run p h).1)) cl tk sl sn t).
Proof.
  revert h. induction p as [a|X f j IH]; intros h; [done|].
  eapply rtc_l; [by apply ws_manager|]. simpl. specialize (IH (f h).1 (f h).2). by destruct (f h).
Qed.
Lemma client_advances n h mg cl tk sl sn t (p : prog heap client_result) :
  rtc (world_step c) (MkWorld h mg (cl ++ [p]) tk sl sn t)
    (MkWorld (advance n p h).2 mg (cl ++ [(advance n p h).1]) tk sl sn t).
Proof.
  revert h p. induction n as [|n IH]; intros h p; [done|]. destruct p as [a|X f j]; [done|].
  eapply rtc_l; [apply (ws_client c h mg _ _ _ _ _ (length cl)); by rewrite list_lookup_middle|].
  rewrite insert_app_r_alt // Nat.sub_diag. simpl. specialize (IH (f h).2 (j (f h).1)). by destruct (f h).
Qed.
Lemma client_runs h mg cl tk sl sn t (p : prog heap client_result) :
  rtc (world_step c) (MkWorld h mg (cl ++ [p]) tk sl sn t)
    (MkWorld (run p h).2 mg (cl ++ [Ret (run p h).1]) tk sl sn t).
Proof.
  revert h. induction p as [a|X f j IH]; intros h; [done|].
  eapply rtc_l; [apply (ws_client c h mg _ _ _ _ _ (length cl)); by rewrite list_lookup_middle|].
  rewrite insert_app_r_alt // Nat.sub_diag. simpl. specialize (IH (f h).1 (f h).2). by destruct (f h).
Qed.
Lemma do_op_reached op w w0 : rtc (world_step c) w0 w → rtc (world_step c) w0 (do_op op w).
Proof.
  intros Hw. etrans; [exact Hw|]. unfold do_op. destruct w as [h mg cl tk sl sn t]. cbn [w_manager].
  destruct mg as [m|p|]; [|done..]. destruct (mop_ticket op) eqn:Et; [done|].
  destruct (mop_slot op) eqn:Es; [done|]. eapply rtc_l.
  { apply (ws_start c h m cl tk tk sl sl sn t op); [by rewrite Et|by rewrite Es]. }
  etrans; [apply manager_runs|]. cbn [w_heap w_clients w_tickets w_slots w_snapshots w_time].
  destruct (run (mop_prog m op) h) as [[o m'] h']. apply rtc_once, ws_done.
Qed.
Lemma do_enter_reached request now n w w0 :
  rtc (world_step c) w0 w → rtc (world_step c) w0 (do_enter request now n w).
Proof.
  intros Hw. etrans; [exact Hw|]. unfold do_enter. destruct w as [h mg cl tk sl sn t].
  eapply rtc_l; [by apply (ws_handle_admit c h mg cl tk sl sn t request now)|].
  etrans; [apply (client_advances n)|]. cbn [w_heap w_manager w_clients w_tickets w_slots w_snapshots w_time].
  by destruct (advance n _ h) as [p h'].
Qed.
Lemma do_admit_reached request now w w0 :
  rtc (world_step c) w0 w → rtc (world_step c) w0 (do_admit request now w).
Proof.
  intros Hw. etrans; [exact Hw|]. unfold do_admit. destruct w as [h mg cl tk sl sn t].
  cbn [w_heap w_manager w_clients w_tickets w_slots w_snapshots w_time].
  destruct (run _ h) as [[ticket|e] h'] eqn:E; [|done].
  eapply rtc_l; [by apply (ws_handle_admit c h mg cl tk sl sn t request now)|].
  etrans; [apply client_runs|]. rewrite run_map E. cbn [fst snd].
  eapply rtc_l; [apply (ws_admitted c h' mg _ tk sl sn _ (length cl)); by rewrite list_lookup_middle|].
  by rewrite delete_middle app_nil_r.
Qed.
End runs.

(** One authorized peer, two dials at most, two tickets out. *)
Definition dial_demo_policy : ConnectionPolicy := ConnectionPolicy_new 4 4.
Definition demo_heap : heap := λ _, (ConnectionManager_new 1 dial_demo_policy 2).1.
Definition dial_demo_trust : TrustSources :=
  TrustSources_new (MkPeerTrustPolicy {[ policy_peer 1 ]} None) (MkInfrastructureSet ∅).
Definition demo_request (n : N) : DialRequest :=
  MkDialRequest (Some (policy_peer 1)) [byte_of n] OriginConnectionManager.
Definition demo_trusted : world := do_op (MSetTrust dial_demo_trust []) (world_new 0 demo_heap dial_demo_policy 2).
Definition demo_world : world :=
  do_admit 0 (demo_request 2) 20 (do_admit 0 (demo_request 1) 10 demo_trusted).

Lemma demo_fits : fits dial_demo_policy 2.
Proof. split; [apply pol_new_inv|by vm_compute..]. Qed.
Lemma demo_trusted_reachable : reachable 0 demo_heap dial_demo_policy 2 demo_trusted.
Proof. apply do_op_reached. constructor. Qed.
Lemma demo_reachable : reachable 0 demo_heap dial_demo_policy 2 demo_world.
Proof. do 2 apply do_admit_reached. exact demo_trusted_reachable. Qed.
(** The manager between operations. *)
Definition world_manager (w : world) : ConnectionManager :=
  match w_manager w with MIdle m => m | _ => (ConnectionManager_new 0 dial_demo_policy 2).2 end.

Lemma dial_resources_exact_witness :
  fits dial_demo_policy 2 ∧ len (own_tickets 0 demo_world) = 2 ∧
  sh_pending (w_heap demo_world 0) = len (own_tickets 0 demo_world) ∧
  sh_connections (w_heap demo_world 0) = len (own_tickets 0 demo_world) + len (held_slots 0 demo_world).
Proof.
  split; [exact demo_fits|]. split; [by vm_compute|].
  destruct (dial_resources_exact 0 demo_heap dial_demo_policy 2 demo_world demo_fits demo_reachable) as [_ H].
  destruct (H (world_manager demo_world)) as (H1 & H2 & _); [by vm_compute|by vm_compute|]. by split.
Defined.
Definition demo_ticket (w : world) : DialTicket :=
  match w_tickets w with t :: _ => t | [] => MkDialTicket 0 false Manual None [] false false 0 end.
Lemma admitted_mismatch_recorded_witness :
  always (λ x, x.1 = true ∧ ∃ peer, tk_peer (demo_ticket demo_world) = Some peer ∧
    held_until (peer, tk_address (demo_ticket demo_world)) 1800030 (cm_policy x.2))
    (ConnectionManager_record_identity_mismatch (world_manager demo_world) (demo_ticket demo_world) 30).
Proof.
  refine (admitted_mismatch_recorded 0 demo_heap dial_demo_policy 2 demo_world (world_manager demo_world)
    (demo_ticket demo_world) 30 demo_fits demo_reachable _ _ _ _).
  - by vm_compute.
  - apply list_elem_of_filter. split; [by vm_compute|]. 
    unfold demo_ticket. destruct (w_tickets demo_world) eqn:E; [by vm_compute in E|]. by left.
  - by vm_compute.
  - by vm_compute.
Defined.
(** A task one access from its commit, after the manager published again. *)
Definition demo_committing : world :=
  do_enter 0 (demo_request 1) 10 9 (do_op (MSetTrust dial_demo_trust [policy_peer 1]) demo_trusted).
Definition demo_committed : DialTicket :=
  MkDialTicket 0 true OriginConnectionManager (Some (policy_peer 1)) [byte_of 1] false false 10.
Lemma demo_committing_reachable : reachable 0 demo_heap dial_demo_policy 2 demo_committing.
Proof. apply do_enter_reached, do_op_reached. exact demo_trusted_reachable. Qed.
(** What the next access of a task in a world returns. *)
Definition next_result (h : heap) (o : option (prog heap client_result)) : option client_result :=
  match o with
  | Some (Act f j) => match j (f h).1 with Ret a => Some a | Act _ _ => None end
  | _ => None
  end.
Lemma admission_commits_current_witness :
  grants_dial (sh_published (w_heap demo_committing 0)) demo_committed.
Proof.
  assert (next_result (w_heap demo_committing) (w_clients demo_committing !! 0%nat)
          = Some (CAdmit (Ok demo_committed))) as Hs by by vm_compute.
  destruct (w_clients demo_committing !! 0%nat) as [[r|X f j]|] eqn:E; [discriminate Hs| |discriminate Hs].
  refine (proj1 (admission_commits_current 0 demo_heap dial_demo_policy 2 demo_committing 0 X f j demo_committed
    demo_fits demo_committing_reachable E _ _)).
  - unfold next_result in Hs. destruct (j _); [by injection Hs as ->|discriminate Hs].
  - by vm_compute.
Defined.
Lemma foreign_settlement_inert_witness :
  avoids 1 (mop_prog (ConnectionManager_new 1 dial_demo_policy 2).2 (MSuccess (demo_ticket demo_world) 40)).
Proof.
  refine (proj1 (foreign_settlement_inert (ConnectionManager_new 1 dial_demo_policy 2).2
    (MSuccess (demo_ticket demo_world) 40) (demo_ticket demo_world) eq_refl _)).
  by vm_compute.
Defined.
