(* ===== verification/DiscoveryApi.v ===== *)
(** * The discovery provider contract

    [crates/api/discovery-api/src/lib.rs]: what a provider reports, the bounds
    each report is checked against, and the bounded readers of its sets. *)
From S2P Require Import Prelude Ids.
Local Open Scope N_scope.

Definition MAX_ADDRESSES : N := 64.
Definition MAX_PROTOCOL_OBSERVATIONS : N := 16.
Definition MAX_ADDRESS_BYTES : N := 256.
Definition MAX_PROTOCOL_ID_BYTES : N := 256.
Definition MAX_PROVIDER_NAME_BYTES : N := 64.

Inductive DiscoveryError :=
| TooManyItems (field : string) (got max : N)
| DiscInvalidLength (field : string) (got max : N)
| ExpiryBeforeObservation (observed_at expires_at : N)
| NonPrintableProtocolId (at_ : N).

(** ** Protocol identifiers *)

Record ProtocolId := MkProtocolId { ProtocolId_as_str : bytes }.
#[global] Instance ProtocolId_eq_dec : EqDecision ProtocolId.
Proof. solve_decision. Defined.
#[global] Instance ProtocolId_as_str_inj : Inj (=) (=) ProtocolId_as_str.
Proof. by intros [] [] [=->]. Qed.
#[global] Instance ProtocolId_ord : OrdKey ProtocolId := newtype_ord_key ProtocolId_as_str.
#[global] Instance ProtocolId_countable : Countable ProtocolId.
Proof. by refine (inj_countable' ProtocolId_as_str MkProtocolId _); intros []. Defined.

(** [bytes().position(..)] *)
Fixpoint position {A} (f : A → bool) (l : list A) : option N :=
  match l with
  | [] => None
  | x :: l => if f x then Some 0 else option_map N.succ (position f l)
  end.
Definition printable (b : byte) : bool := (32 <=? byte_val b) && (byte_val b <=? 126).

Definition ProtocolId_parse (value : bytes) : result ProtocolId DiscoveryError :=
  if (len value =? 0) || (MAX_PROTOCOL_ID_BYTES <? len value)
  then Err (DiscInvalidLength "protocol_observations[].protocol_id" (len value) MAX_PROTOCOL_ID_BYTES)
  else match position (λ b, negb (printable b)) value with
       | Some at_ => Err (NonPrintableProtocolId at_)
       | None => Ok (MkProtocolId value)
       end.

(** ** Candidates *)

Record ProtocolObservation := MkProtocolObservation {
  po_protocol_id : ProtocolId;
  po_supported : bool;
  po_observed_at : N
}.
#[global] Instance ProtocolObservation_eq_dec : EqDecision ProtocolObservation.
Proof. solve_decision. Defined.
(** The derived order compares the fields in turn. *)
Definition observation_key (o : ProtocolObservation) : ProtocolId * bool * N :=
  (po_protocol_id o, po_supported o, po_observed_at o).
#[global] Instance observation_key_inj : Inj (=) (=) observation_key.
Proof. by intros [] [] [=->->->]. Qed.
#[global] Instance ProtocolObservation_ord : OrdKey ProtocolObservation := newtype_ord_key observation_key.
#[global] Instance ProtocolObservation_countable : Countable ProtocolObservation.
Proof.
  by refine (inj_countable' observation_key (λ k, MkProtocolObservation k.1.1 k.1.2 k.2) _); intros [].
Defined.

Record CandidatePeer := MkCandidatePeer {
  cand_peer_id : TransportIdentity;
  cand_addresses : gset bytes;
  cand_source : bytes;
  cand_observed_at : N;
  cand_expires_at : option N;
  cand_protocol_observations : gset ProtocolObservation
}.

(** The sequence of a wire array, read by the bounded visitors: the ceiling is
    on what was sent, and a duplicate is refused. *)
Inductive WireError := WireTooLong (got max : N) | WireTooMany (max : N) | WireDuplicate.
Definition visit_bounded (max : N) (value : bytes) : result bytes WireError :=
  if max <? len value then Err (WireTooLong (len value) max) else Ok value.
Fixpoint wire_set {A} `{Countable A} (read : bytes → result A WireError) (max count : N) (out : gset A)
    (seq : list bytes) : result (gset A) WireError :=
  match seq with
  | [] => if N.of_nat (size out) =? count then Ok out else Err WireDuplicate
  | raw :: seq =>
      x <-? read raw;
      let count := sat_add usize_max count 1 in
      if max <? count then Err (WireTooMany max)
      else wire_set read max count ({[x]} ∪ out) seq
  end.
Definition wire_address_set (seq : list bytes) : result (gset bytes) WireError :=
  wire_set (visit_bounded MAX_ADDRESS_BYTES) MAX_ADDRESSES 0 ∅ seq.

Fixpoint check_addresses (l : list bytes) : result () DiscoveryError :=
  match l with
  | [] => Ok ()
  | a :: l =>
      if (len a =? 0) || (MAX_ADDRESS_BYTES <? len a)
      then Err (DiscInvalidLength "addresses[]" (len a) MAX_ADDRESS_BYTES)
      else check_addresses l
  end.
Definition CandidatePeer_validate (c : CandidatePeer) : result () DiscoveryError :=
  let n := N.of_nat (size (cand_addresses c)) in
  if MAX_ADDRESSES <? n then Err (TooManyItems "addresses" n MAX_ADDRESSES)
  else
    _ <-? check_addresses (bset_to_list (cand_addresses c));
    let k := N.of_nat (size (cand_protocol_observations c)) in
    if MAX_PROTOCOL_OBSERVATIONS <? k
    then Err (TooManyItems "protocol_observations" k MAX_PROTOCOL_OBSERVATIONS)
    else if (len (cand_source c) =? 0) || (MAX_PROVIDER_NAME_BYTES <? len (cand_source c))
    then Err (DiscInvalidLength "source" (len (cand_source c)) MAX_PROVIDER_NAME_BYTES)
    else match cand_expires_at c with
         | Some e => if e <? cand_observed_at c
                     then Err (ExpiryBeforeObservation (cand_observed_at c) e) else Ok ()
         | None => Ok ()
         end.
Definition CandidatePeer_is_fresh_at (c : CandidatePeer) (now_ms : N) : bool :=
  match cand_expires_at c with Some e => now_ms <? e | None => true end.

(** ** Providers *)

Inductive ProviderScope := ScopeLocal | ScopeConfigured | ScopeNetwork.
#[global] Instance ProviderScope_eq_dec : EqDecision ProviderScope.
Proof. solve_decision. Defined.
Inductive ProviderMode := Passive | Active | Mixed.
Inductive ProviderHealth := Healthy | Degraded | Unavailable.
#[global] Instance ProviderHealth_eq_dec : EqDecision ProviderHealth.
Proof. solve_decision. Defined.

Record ProviderDescriptor := MkProviderDescriptor {
  pd_name : bytes;
  pd_interface_version : bytes;
  pd_config_version : option bytes;
  pd_scope : ProviderScope;
  pd_mode : ProviderMode;
  pd_supports_expiry : bool;
  pd_supports_hints : bool
}.

(** [value.split('.')] *)
Fixpoint split_parts (sep : byte) (l : bytes) : list bytes :=
  match l with
  | [] => [[]]
  | b :: l =>
      if bool_decide (b = sep) then [] :: split_parts sep l
      else match split_parts sep l with
           | part :: rest => (b :: part) :: rest
           | [] => [[b]]
           end
  end.
Definition is_digit (b : byte) : bool := (48 <=? byte_val b) && (byte_val b <=? 57).
Definition numeric (s : bytes) : bool := negb (len s =? 0) && forallb is_digit s.
Definition is_major_minor (value : bytes) : bool :=
  match split_parts (byte_of 46) value with
  | [major; minor] => numeric major && numeric minor
  | _ => false
  end.
Definition check_version (field : string) (value : option bytes) : result () DiscoveryError :=
  match value with
  | Some v => if is_major_minor v then Ok () else Err (DiscInvalidLength field (len v) 0)
  | None => Ok ()
  end.
Definition ProviderDescriptor_validate (d : ProviderDescriptor) : result () DiscoveryError :=
  if (len (pd_name d) =? 0) || (MAX_PROVIDER_NAME_BYTES <? len (pd_name d))
  then Err (DiscInvalidLength "name" (len (pd_name d)) MAX_PROVIDER_NAME_BYTES)
  else
    _ <-? check_version "interface_version" (Some (pd_interface_version d));
    check_version "config_version" (pd_config_version d).

Inductive DiscoveryEvent :=
| CandidateObserved (candidate : CandidatePeer)
| CandidateExpired (peer_id : TransportIdentity) (source : bytes) (addresses : gset bytes)
| HealthChanged (source : bytes) (health : ProviderHealth).
