(* ===== verification/Discovery.v ===== *)
(** * Candidate aggregation across discovery providers

    [crates/transport/runtime/src/discovery.rs]: the merged candidate set. Each
    address of a peer carries one provenance record per source, each with its
    own lifetime; thresholds per source keep evidence from travelling back in
    time, and outlive the peer they were learned for; every table is bounded,
    and what a provider that will not repeat itself said is protected from the
    pressure of those that will. *)
From S2P Require Import Prelude Ids Trust DiscoveryApi.
Local Open Scope N_scope.

Definition MAX_CANDIDATES : N := 4096.
Definition MAX_ADDRESSES_PER_PEER : N := 16.
Definition MAX_PROVENANCE_PER_ADDRESS : N := 8.
Definition MAX_OBSERVATIONS_PER_PEER : N := 16.
Definition MAX_PROVIDERS : N := 16.
Definition MAX_HIGH_WATER : N := MAX_CANDIDATES.
Definition MAX_CONFIGURED_RETAINED : N := 64.
Definition DEFAULT_OBSERVATION_TTL_MS : N := 600000.
Definition i32_max : Z := 2147483647.

Abbreviation Source := bytes (only parsing).

Inductive RejectedEvent :=
| SourceMismatch (expected got : Source) | InvalidCandidate | UnknownProvider.

Record Provenance := MkProvenance {
  pv_source : Source;
  pv_observed_at : N;
  pv_expires_at : N;
  pv_pinned : bool
}.
Abbreviation FactKey := (ProtocolId * Source)%type (only parsing).
(** Supported, observed at, expires at. *)
Abbreviation Fact := (bool * N * N)%type (only parsing).
Record Entry := MkEntry {
  en_addresses : gmap bytes (list Provenance);
  en_observations : gmap FactKey Fact;
  en_applied : gmap Source N;
  en_fact_applied : gmap FactKey N
}.
Definition Entry_default : Entry := MkEntry ∅ ∅ ∅ ∅.
Definition with_addresses (e : Entry) (v : gmap bytes (list Provenance)) : Entry :=
  MkEntry v (en_observations e) (en_applied e) (en_fact_applied e).
Definition with_observations (e : Entry) (v : gmap FactKey Fact) : Entry :=
  MkEntry (en_addresses e) v (en_applied e) (en_fact_applied e).
Definition with_applied (e : Entry) (v : gmap Source N) : Entry :=
  MkEntry (en_addresses e) (en_observations e) v (en_fact_applied e).
Definition with_fact_applied (e : Entry) (v : gmap FactKey N) : Entry :=
  MkEntry (en_addresses e) (en_observations e) (en_applied e) v.

(** [map.len()] *)
Definition msize {K V} `{Countable K} (m : gmap K V) : N := N.of_nat (size m).
(** [iter().max().unwrap_or(0)] *)
Definition max_or_zero (l : list N) : N := foldr N.max 0 l.
(** [addresses.values().flat_map(|records| records.iter())] *)
Definition all_records (e : Entry) : list Provenance := (btree_to_list (en_addresses e)).*2 ≫= id.

Definition live_at (now_ms : N) (r : Provenance) : bool := now_ms <? pv_expires_at r.
Definition Entry_recency (e : Entry) (now_ms : N) : N :=
  max_or_zero (pv_observed_at <$> filter (λ r, live_at now_ms r = true) (all_records e)).
(** The sources still supporting an address. *)
Definition live_sources (e : Entry) : gset Source := list_to_set (pv_source <$> all_records e).
Definition Entry_drop_orphaned_facts (e : Entry) : Entry :=
  with_observations e (filter (λ kv, kv.1.2 ∈ live_sources e) (en_observations e)).
Definition Entry_is_pinned (e : Entry) : bool := existsb (existsb pv_pinned) (btree_to_list (en_addresses e)).*2.

(** The source's counters are [u64] and count events; they are unbounded here. *)
Record OverflowStats := MkOverflowStats {
  ov_evicted : N;
  ov_refused : N;
  ov_displaced : N;
  ov_configured_refused : N
}.
Record CandidateSet := MkCandidateSet {
  cs_peers : gmap TransportIdentity Entry;
  cs_overflow : OverflowStats;
  cs_high_water : gmap (TransportIdentity * Source) N;
  cs_fact_high_water : gmap (TransportIdentity * (ProtocolId * Source)) N
}.
Definition CandidateSet_new : CandidateSet := MkCandidateSet ∅ (MkOverflowStats 0 0 0 0) ∅ ∅.
Definition CandidateSet_len (cs : CandidateSet) : N := msize (cs_peers cs).
Definition with_peers (cs : CandidateSet) (v : gmap TransportIdentity Entry) : CandidateSet :=
  MkCandidateSet v (cs_overflow cs) (cs_high_water cs) (cs_fact_high_water cs).
Definition with_overflow (cs : CandidateSet) (v : OverflowStats) : CandidateSet :=
  MkCandidateSet (cs_peers cs) v (cs_high_water cs) (cs_fact_high_water cs).
Definition with_high_water (cs : CandidateSet) (v : gmap (TransportIdentity * Source) N) : CandidateSet :=
  MkCandidateSet (cs_peers cs) (cs_overflow cs) v (cs_fact_high_water cs).
Definition with_fact_high_water (cs : CandidateSet)
    (v : gmap (TransportIdentity * (ProtocolId * Source)) N) : CandidateSet :=
  MkCandidateSet (cs_peers cs) (cs_overflow cs) (cs_high_water cs) v.

(** ** Marks *)

(** The slot of [key], or zero, raised to [at_]. *)
Definition raise_mark {K} `{Countable K} (m : gmap K N) (key : K) (at_ : N) : gmap K N :=
  <[key := N.max (default 0 (m !! key)) at_]> m.
(** The mark to give up at the cap: a redundant one first, else the lowest. *)
Definition mark_victim {K} `{OrdKey K, Countable K} (redundant : K → N → bool) (m : gmap K N) : option K :=
  match List.find (λ kv, redundant kv.1 kv.2) (btree_to_list m) with
  | Some (k, _) => Some k
  | None => fst <$> min_key snd (btree_to_list m)
  end.
Definition remember {K} `{OrdKey K, Countable K} (max : N) (redundant : K → N → bool) (m : gmap K N)
    (key : K) (at_ : N) : gmap K N :=
  let m :=
    if (max <=? msize m) && bool_decide (m !! key = None)
    then match mark_victim redundant m with Some v => delete v m | None => m end
    else m in
  raise_mark m key at_.

Definition mark_covered (cs : CandidateSet) (key : TransportIdentity * Source) (mark : N) : bool :=
  match cs_peers cs !! key.1 ≫= (λ e, en_applied e !! key.2) with
  | Some a => mark <=? a
  | None => false
  end.
Definition CandidateSet_remember_watermark (cs : CandidateSet) (peer : TransportIdentity)
    (source : Source) (at_ : N) : CandidateSet :=
  with_high_water cs (remember MAX_HIGH_WATER (mark_covered cs) (cs_high_water cs) (peer, source) at_).
Definition fact_mark_covered (cs : CandidateSet) (key : TransportIdentity * (ProtocolId * Source)) (mark : N) :
    bool :=
  match cs_peers cs !! key.1 ≫= (λ e, en_fact_applied e !! key.2) with
  | Some a => mark <=? a
  | None => false
  end.
Definition CandidateSet_remember_fact_watermark (cs : CandidateSet) (peer : TransportIdentity)
    (fact : FactKey) (at_ : N) : CandidateSet :=
  with_fact_high_water cs
    (remember MAX_HIGH_WATER (fact_mark_covered cs) (cs_fact_high_water cs) (peer, fact) at_).
Definition CandidateSet_remove_entry (cs : CandidateSet) (peer : TransportIdentity) : CandidateSet :=
  match cs_peers cs !! peer with
  | None => cs
  | Some entry =>
      let cs := with_peers cs (delete peer (cs_peers cs)) in
      let cs := foldl (λ cs sa, CandidateSet_remember_watermark cs peer sa.1 sa.2) cs
                  (btree_to_list (en_applied entry)) in
      foldl (λ cs fa, CandidateSet_remember_fact_watermark cs peer fa.1 fa.2) cs
        (btree_to_list (en_fact_applied entry))
  end.

(** ** Expiry *)

(** [entry.addresses.retain(|_, records| { records.retain(..); !records.is_empty() })] *)
Definition retain_records (keep : bytes → Provenance → bool) (m : gmap bytes (list Provenance)) :
    gmap bytes (list Provenance) :=
  filter (λ kv, kv.2 ≠ []) (map_imap (λ a rs, Some (filter (λ r, keep a r = true) rs)) m).
Definition prune_addresses (now_ms : N) (e : Entry) : Entry :=
  with_addresses e (retain_records (λ _, live_at now_ms) (en_addresses e)).
Definition fact_live (now_ms : N) (f : Fact) : bool := now_ms <? f.2.
Definition prune_observations (now_ms : N) (e : Entry) : Entry :=
  with_observations e (filter (λ kv, fact_live now_ms kv.2 = true) (en_observations e)).
Definition sweep_entry (now_ms : N) (e : Entry) : Entry :=
  Entry_drop_orphaned_facts (prune_observations now_ms (prune_addresses now_ms e)).
Definition CandidateSet_sweep (cs : CandidateSet) (now_ms : N) : CandidateSet :=
  let cs := with_peers cs (sweep_entry now_ms <$> cs_peers cs) in
  let empty := filter (λ pe, en_addresses pe.2 = ∅) (btree_to_list (cs_peers cs)) in
  foldl CandidateSet_remove_entry cs empty.*1.

Definition CandidateSet_retract (cs : CandidateSet) (peer : TransportIdentity) (source : Source)
    (addresses : gset bytes) : CandidateSet :=
  match cs_peers cs !! peer with
  | None => cs
  | Some entry =>
      let keep a r := negb ((bool_decide (addresses = ∅) || bool_decide (a ∈ addresses)) &&
                            bool_decide (pv_source r = source)) in
      let entry := Entry_drop_orphaned_facts
                     (with_addresses entry (retain_records keep (en_addresses entry))) in
      let cs := with_peers cs (<[peer := entry]> (cs_peers cs)) in
      if bool_decide (en_addresses entry = ∅) then CandidateSet_remove_entry cs peer else cs
  end.

(** ** Overflow *)

Definition entry_expired (now_ms : N) (e : Entry) : bool :=
  forallb (forallb (λ r, negb (live_at now_ms r))) (btree_to_list (en_addresses e)).*2.
(** The pinned peers, and those of them protected from eviction. *)
Definition configured_peers (cs : CandidateSet) : list TransportIdentity :=
  (filter (λ pe, Entry_is_pinned pe.2 = true) (btree_to_list (cs_peers cs))).*1.
Definition peer_recency (cs : CandidateSet) (now_ms : N) (peer : TransportIdentity) : N :=
  match cs_peers cs !! peer with Some e => Entry_recency e now_ms | None => 0 end.
Definition protected_peers (cs : CandidateSet) (now_ms : N) : list TransportIdentity :=
  let configured := configured_peers cs in
  if len configured <=? MAX_CONFIGURED_RETAINED then configured
  else ntake MAX_CONFIGURED_RETAINED
         (sort_by (λ p q, peer_recency cs now_ms q <=? peer_recency cs now_ms p) configured).
Definition trusted (trust : PeerTrustPolicy) (peer : TransportIdentity) : bool :=
  TrustDecision_is_allowed (PeerTrustPolicy_decide trust peer).
Definition evictable_peers (cs : CandidateSet) (now_ms : N) (trust : PeerTrustPolicy) :
    list (TransportIdentity * Entry) :=
  filter (λ pe, negb (trusted trust pe.1) && bool_decide (pe.1 ∉ protected_peers cs now_ms) = true)
    (btree_to_list (cs_peers cs)).
Definition CandidateSet_evict_one (cs : CandidateSet) (now_ms : N) (trust : PeerTrustPolicy)
    (incoming : N) (incoming_pinned : bool) : bool * CandidateSet :=
  match List.find (λ pe, entry_expired now_ms pe.2) (btree_to_list (cs_peers cs)) with
  | Some (peer, _) => (true, CandidateSet_remove_entry cs peer)
  | None =>
      match min_key (λ pe, Entry_recency pe.2 now_ms) (evictable_peers cs now_ms trust) with
      | Some (peer, e) =>
          if incoming_pinned && (len (configured_peers cs) <? MAX_CONFIGURED_RETAINED)
          then (true, CandidateSet_remove_entry cs peer)
          else if incoming <? Entry_recency e now_ms then (false, cs)
          else (true, CandidateSet_remove_entry cs peer)
      | None => (false, cs)
      end
  end.

(** ** Observations *)

(** The lifetime of what a candidate reports. *)
Definition observation_expiry (c : CandidatePeer) (provider_expires : bool) : N :=
  match cand_expires_at c with
  | Some stated => if provider_expires then stated else u64_max
  | None => if provider_expires then sat_add u64_max (cand_observed_at c) DEFAULT_OBSERVATION_TTL_MS
            else u64_max
  end.
Definition applied_of (cs : CandidateSet) (peer : TransportIdentity) (source : Source) : N :=
  default 0 (cs_peers cs !! peer ≫= (λ e, en_applied e !! source)).
Definition evidence_threshold (cs : CandidateSet) (peer : TransportIdentity) (source : Source) : N :=
  N.max (default 0 (cs_high_water cs !! (peer, source))) (applied_of cs peer source).

(** The slot a new peer needs. *)
Definition make_slot (cs : CandidateSet) (c : CandidatePeer) (now_ms : N) (trust : PeerTrustPolicy)
    (pinned : bool) : bool * CandidateSet :=
  if bool_decide (cs_peers cs !! cand_peer_id c = None) && (MAX_CANDIDATES <=? msize (cs_peers cs)) then
    let '(evicted, cs) := CandidateSet_evict_one cs now_ms trust (cand_observed_at c) pinned in
    let ov := cs_overflow cs in
    let cs := if evicted
              then with_overflow cs (MkOverflowStats (ov_evicted ov + 1) (ov_refused ov) (ov_displaced ov)
                                       (ov_configured_refused ov))
              else cs in
    if MAX_CANDIDATES <=? msize (cs_peers cs) then
      let ov := cs_overflow cs in
      (false, with_overflow cs (MkOverflowStats (ov_evicted ov) (ov_refused ov + 1) (ov_displaced ov)
                                  (ov_configured_refused ov)))
    else (true, cs)
  else (true, cs).

Definition raise_applied (source : Source) (observed_at : N) (e : Entry) : Entry :=
  let applied :=
    if bool_decide (en_applied e !! source = None) && (MAX_PROVIDERS <=? msize (en_applied e)) then
      match min_key snd (btree_to_list (en_applied e)) with
      | Some (v, _) => delete v (en_applied e)
      | None => en_applied e
      end
    else en_applied e in
  with_applied e (raise_mark applied source observed_at).

(** Displaced and configured-refused, counted beside the entry. *)
Abbreviation Progress := (Entry * N * N)%type (only parsing).
Definition any_pinned (rs : list Provenance) : bool := existsb pv_pinned rs.

(** Evidence moves forward only. *)
Definition refresh_record (new : Provenance) (r : Provenance) : Provenance :=
  if pv_observed_at r <=? pv_observed_at new
  then MkProvenance (pv_source r) (pv_observed_at new) (pv_expires_at new) (pv_pinned r) else r.
(** The first record of the source is refreshed. *)
Fixpoint refresh_first (new : Provenance) (rs : list Provenance) : list Provenance :=
  match rs with
  | [] => []
  | r :: rs => if bool_decide (pv_source r = pv_source new) then refresh_record new r :: rs
               else r :: refresh_first new rs
  end.
Definition record_victim (rs : list Provenance) : option nat :=
  fst <$> min_key (λ ir, pv_observed_at ir.2)
            (filter (λ ir, negb (pv_pinned ir.2) = true) (imap (λ i r, (i, r)) rs)).
Definition place_record (new : Provenance) (rs : list Provenance) : list Provenance * N * N :=
  if existsb (λ r, bool_decide (pv_source r = pv_source new)) rs then (refresh_first new rs, 0, 0)
  else if MAX_PROVENANCE_PER_ADDRESS <=? len rs then
    if negb (pv_pinned new) then (rs, 0, 0)
    else match record_victim rs with
         | Some i => (delete i rs ++ [new], 1, 0)
         | None => (rs, 0, 1)
         end
  else (rs ++ [new], 0, 0).

(** The address a pinned one displaces. *)
Definition address_victim (e : Entry) : option bytes :=
  fst <$> min_key (λ ar, (max_or_zero (pv_observed_at <$> ar.2), ar.1))
            (filter (λ ar, negb (any_pinned ar.2) = true) (btree_to_list (en_addresses e))).
Definition put_record (new : Provenance) (address : bytes) (st : Progress) : Progress :=
  let '(e, displaced, refused) := st in
  let '(rs, d, r) := place_record new (default [] (en_addresses e !! address)) in
  (with_addresses e (<[address := rs]> (en_addresses e)), displaced + d, refused + r).
Definition observe_address (new : Provenance) (st : Progress) (address : bytes) : Progress :=
  let '(e, displaced, refused) := st in
  if bool_decide (en_addresses e !! address = None) && (MAX_ADDRESSES_PER_PEER <=? msize (en_addresses e)) then
    if negb (pv_pinned new) then st
    else match address_victim e with
         | Some v => put_record new address
                       (with_addresses e (delete v (en_addresses e)), displaced + 1, refused)
         | None => (e, displaced, refused + 1)
         end
  else put_record new address st.

(** ** Protocol facts *)

Definition withdraw_omitted (c : CandidatePeer) (e : Entry) : Entry :=
  with_observations e
    (filter (λ kv, kv.1.2 ≠ cand_source c ∨
                   kv.1.1 ∈ (set_map po_protocol_id (cand_protocol_observations c) : gset ProtocolId))
       (en_observations e)).
(** Whether a source has a live pinned record. *)
Definition source_pinned (e : Entry) (source : Source) : bool :=
  existsb (λ r, bool_decide (pv_source r = source) && pv_pinned r) (all_records e).
Definition fact_floor (e : Entry) (spilled : gmap ProtocolId N) (key : FactKey) : N :=
  N.max (N.max (default 0 (en_fact_applied e !! key)) (default 0 (spilled !! key.1)))
    (match en_observations e !! key with Some f => f.1.2 | None => 0 end).
Definition fact_victim (e : Entry) : option FactKey :=
  fst <$> min_key (λ kf, kf.2.1.2)
            (filter (λ kf, negb (source_pinned e kf.1.2) = true) (btree_to_list (en_observations e))).
Definition floor_covered (e : Entry) (k : FactKey) (at_ : N) : bool :=
  match en_observations e !! k with Some f => at_ <=? f.1.2 | None => false end.
Definition put_fact (o : ProtocolObservation) (key : FactKey) (expires_at : N) (e : Entry) : Entry :=
  let e := with_fact_applied e
             (remember (2 * MAX_OBSERVATIONS_PER_PEER) (floor_covered e) (en_fact_applied e) key
                (po_observed_at o)) in
  with_observations e (<[key := (po_supported o, po_observed_at o, expires_at)]> (en_observations e)).
Definition observe_fact (source : Source) (pinned : bool) (expires_at : N) (spilled : gmap ProtocolId N)
    (st : Progress) (o : ProtocolObservation) : Progress :=
  let '(e, displaced, refused) := st in
  let key := (po_protocol_id o, source) in
  if po_observed_at o <? fact_floor e spilled key then st
  else if bool_decide (en_observations e !! key = None) &&
          (MAX_OBSERVATIONS_PER_PEER <=? msize (en_observations e)) then
    if negb (pinned && source_pinned e source) then st
    else match fact_victim e with
         | Some k => (put_fact o key expires_at (with_observations e (delete k (en_observations e))),
                      displaced + 1, refused)
         | None => (e, displaced, refused + 1)
         end
  else (put_fact o key expires_at e, displaced, refused).

(** The floors spilled when the peer was last removed. *)
Definition spilled_fact_floors (cs : CandidateSet) (c : CandidatePeer) : gmap ProtocolId N :=
  list_to_map (omap (λ o, match cs_fact_high_water cs !! (cand_peer_id c, (po_protocol_id o, cand_source c)) with
                          | Some a => Some (po_protocol_id o, a)
                          | None => None
                          end) (bset_to_list (cand_protocol_observations c))).

(** One report applied to the peer's entry. *)
Definition merge_entry (c : CandidatePeer) (now_ms expires_at : N) (stale pinned : bool)
    (spilled : gmap ProtocolId N) (e : Entry) : Progress :=
  let e := if stale then e else raise_applied (cand_source c) (cand_observed_at c) e in
  let e := prune_addresses now_ms e in
  let new := MkProvenance (cand_source c) (cand_observed_at c) expires_at pinned in
  let '(e, displaced, refused) :=
    if stale then (e, 0, 0) else foldl (observe_address new) (e, 0, 0) (bset_to_list (cand_addresses c)) in
  let e := prune_observations now_ms (Entry_drop_orphaned_facts e) in
  let e := if stale then e else withdraw_omitted c e in
  foldl (observe_fact (cand_source c) pinned expires_at spilled) (e, displaced, refused)
    (bset_to_list (cand_protocol_observations c)).

Definition CandidateSet_observe (cs : CandidateSet) (c : CandidatePeer) (now_ms : N)
    (trust : PeerTrustPolicy) (provider_expires provider_pinned : bool) : CandidateSet :=
  let peer := cand_peer_id c in
  let expires_at := observation_expiry c provider_expires in
  let stale := cand_observed_at c <? evidence_threshold cs peer (cand_source c) in
  let contributes_nothing := bool_decide (cand_addresses c = ∅) || (expires_at <=? now_ms) || stale in
  if contributes_nothing && bool_decide (cs_peers cs !! peer = None) then cs
  else
    let '(room, cs) := make_slot cs c now_ms trust provider_pinned in
    if negb room then cs
    else
      let e := default Entry_default (cs_peers cs !! peer) in
      let '(e, displaced, refused) :=
        merge_entry c now_ms expires_at stale provider_pinned (spilled_fact_floors cs c) e in
      let ov := cs_overflow cs in
      let cs := MkCandidateSet (<[peer := e]> (cs_peers cs))
                  (MkOverflowStats (ov_evicted ov) (ov_refused ov) (ov_displaced ov + displaced)
                     (ov_configured_refused ov + refused))
                  (cs_high_water cs) (cs_fact_high_water cs) in
      if bool_decide (en_addresses e = ∅) then CandidateSet_remove_entry cs peer else cs.

(** ** What a consumer reads *)

Record AddressProvenance := MkAddressProvenance {
  ap_address : bytes;
  ap_sources : list Source;
  ap_best_priority : Z;
  ap_observed_at_ms : N
}.
Record MergedObservation := MkMergedObservation {
  mo_protocol : ProtocolId;
  mo_supported : bool;
  mo_sources : list Source;
  mo_observed_at_ms : N
}.
Record AggregatedCandidate := MkAggregatedCandidate {
  ag_peer_id : TransportIdentity;
  ag_addresses : list AddressProvenance;
  ag_sources : gset Source;
  ag_last_observed_ms : N;
  ag_protocol_observations : list MergedObservation
}.
Definition AggregatedCandidate_address_list (c : AggregatedCandidate) : list bytes :=
  ap_address <$> ag_addresses c.

Definition address_provenance (now_ms : N) (priority_of : Source → option Z)
    (ar : bytes * list Provenance) : option AddressProvenance :=
  let live := filter (λ r, live_at now_ms r = true) ar.2 in
  if bool_decide (live = []) then None
  else
    let per_address :=
      sort_by (λ x y, key_leb (x.1, pv_source x.2) (y.1, pv_source y.2))
        ((λ r, (default i32_max (priority_of (pv_source r)), r)) <$> live) in
    Some (MkAddressProvenance ar.1 ((λ pr, pv_source pr.2) <$> per_address)
            (match per_address with (p, _) :: _ => p | [] => i32_max end)
            (max_or_zero ((λ pr, pv_observed_at pr.2) <$> per_address))).
(** One claim merged into the map of claims. *)
Definition merge_observation (now_ms : N) (sources : gset Source)
    (merged : gmap (ProtocolId * bool) MergedObservation) (kf : FactKey * Fact) :
    gmap (ProtocolId * bool) MergedObservation :=
  let '((protocol, source), (supported, at_, exp)) := kf in
  if (exp <=? now_ms) || negb (bool_decide (source ∈ sources)) then merged
  else
    let slot := default (MkMergedObservation protocol supported [] 0) (merged !! (protocol, supported)) in
    <[(protocol, supported) :=
        MkMergedObservation (mo_protocol slot) (mo_supported slot) (mo_sources slot ++ [source])
          (N.max (mo_observed_at_ms slot) at_)]> merged.
Definition aggregate (now_ms : N) (priority_of : Source → option Z) (pe : TransportIdentity * Entry) :
    option AggregatedCandidate :=
  let addresses := omap (address_provenance now_ms priority_of) (btree_to_list (en_addresses pe.2)) in
  let sources : gset Source := list_to_set (addresses ≫= ap_sources) in
  if bool_decide (length addresses = 0%nat) then None
  else
    let merged := foldl (merge_observation now_ms sources) ∅ (btree_to_list (en_observations pe.2)) in
    Some (MkAggregatedCandidate pe.1
            (sort_by (λ a b, key_leb (ap_best_priority a, ap_address a) (ap_best_priority b, ap_address b))
               addresses)
            sources (Entry_recency pe.2 now_ms) (btree_to_list merged).*2).
Definition CandidateSet_candidates (cs : CandidateSet) (now_ms : N) (priority_of : Source → option Z) :
    list AggregatedCandidate := omap (aggregate now_ms priority_of) (btree_to_list (cs_peers cs)).

(** ** The manager *)

Record Registered := MkRegistered {
  rg_descriptor : ProviderDescriptor;
  rg_priority : Z;
  rg_health : ProviderHealth
}.
Record DiscoveryManager := MkDiscoveryManager {
  dm_providers : gmap Source Registered;
  dm_candidates : CandidateSet
}.
Definition DiscoveryManager_new : DiscoveryManager := MkDiscoveryManager ∅ CandidateSet_new.
Definition DiscoveryManager_register (m : DiscoveryManager) (d : ProviderDescriptor) (priority : Z) :
    result () DiscoveryError * DiscoveryManager :=
  match ProviderDescriptor_validate d with
  | Err e => (Err e, m)
  | Ok _ =>
      let n := msize (dm_providers m) in
      if bool_decide (dm_providers m !! pd_name d = None) && (MAX_PROVIDERS <=? n)
      then (Err (TooManyItems "providers" (n + 1) MAX_PROVIDERS), m)
      else (Ok (), MkDiscoveryManager
                     (<[pd_name d := MkRegistered d priority Unavailable]> (dm_providers m)) (dm_candidates m))
  end.
Definition DiscoveryManager_provider_health (m : DiscoveryManager) (name : Source) : option ProviderHealth :=
  rg_health <$> dm_providers m !! name.
Definition DiscoveryManager_provider_priority (m : DiscoveryManager) (name : Source) : option Z :=
  rg_priority <$> dm_providers m !! name.
Definition any_health (m : DiscoveryManager) (h : ProviderHealth) : bool :=
  existsb (λ p, bool_decide (rg_health p = h)) (btree_to_list (dm_providers m)).*2.
Definition DiscoveryManager_aggregate_health (m : DiscoveryManager) : ProviderHealth :=
  if bool_decide (dm_providers m = ∅) then Unavailable
  else if any_health m Healthy then Healthy
  else if any_health m Degraded then Degraded
  else Unavailable.

Definition supports_expiry (m : DiscoveryManager) (source : Source) : bool :=
  match dm_providers m !! source with Some p => pd_supports_expiry (rg_descriptor p) | None => false end.
Definition provider_pinned (m : DiscoveryManager) (source : Source) : bool :=
  match dm_providers m !! source with
  | Some p => bool_decide (pd_scope (rg_descriptor p) = ScopeConfigured) &&
              negb (pd_supports_expiry (rg_descriptor p))
  | None => false
  end.
Definition with_candidates (m : DiscoveryManager) (cs : CandidateSet) : DiscoveryManager :=
  MkDiscoveryManager (dm_providers m) cs.
Definition set_health (m : DiscoveryManager) (source : Source) (health : ProviderHealth) : DiscoveryManager :=
  match dm_providers m !! source with
  | Some p => MkDiscoveryManager
                (<[source := MkRegistered (rg_descriptor p) (rg_priority p) health]> (dm_providers m))
                (dm_candidates m)
  | None => m
  end.
Definition DiscoveryManager_on_event (m : DiscoveryManager) (source : Source) (event : DiscoveryEvent)
    (now_ms : N) (trust : PeerTrustPolicy) : result () RejectedEvent * DiscoveryManager :=
  if bool_decide (dm_providers m !! source = None) then (Err UnknownProvider, m)
  else
    match event with
    | CandidateObserved c =>
        if negb (bool_decide (cand_source c = source)) then (Err (SourceMismatch source (cand_source c)), m)
        else if negb (is_ok (CandidatePeer_validate c)) then (Err InvalidCandidate, m)
        else (Ok (), with_candidates m
                       (CandidateSet_observe (dm_candidates m) c now_ms trust (supports_expiry m source)
                          (provider_pinned m source)))
    | CandidateExpired peer event_source addresses =>
        if negb (bool_decide (event_source = source)) then (Err (SourceMismatch source event_source), m)
        else (Ok (), with_candidates m (CandidateSet_retract (dm_candidates m) peer source addresses))
    | HealthChanged event_source health =>
        if negb (bool_decide (event_source = source)) then (Err (SourceMismatch source event_source), m)
        else (Ok (), set_health m source health)
    end.
Definition DiscoveryManager_sweep (m : DiscoveryManager) (now_ms : N) : DiscoveryManager :=
  with_candidates m (CandidateSet_sweep (dm_candidates m) now_ms).
Definition DiscoveryManager_candidates (m : DiscoveryManager) (now_ms : N) : list AggregatedCandidate :=
  CandidateSet_candidates (dm_candidates m) now_ms (DiscoveryManager_provider_priority m).
Definition DiscoveryManager_candidate_count (m : DiscoveryManager) : N := CandidateSet_len (dm_candidates m).
