(* ===== verification/DiscoveryFacts.v ===== *)
(** * The candidate set: bounds, provenance, order of evidence, protection

    What holds of [Discovery] over every history of registrations, provider
    events and sweeps. *)
From S2P Require Import Prelude Ids Trust DiscoveryApi Discovery.
Local Open Scope N_scope.

(** ** Sizes *)

Section sizes.
Context {K : Type} `{Countable K}.
Implicit Types V : Type.

Lemma msize_subset {V} (m m' : gmap K V) : dom m ⊆ dom m' → msize m ≤ msize m'.
Proof. intros Hs%subseteq_size. unfold msize. rewrite -!size_dom. lia. Qed.
Lemma msize_filter {V} (P : K * V → Prop) `{!∀ x, Decision (P x)} (m : gmap K V) :
  msize (filter P m) ≤ msize m.
Proof. apply msize_subset, dom_filter_subseteq. Qed.
Lemma msize_insert_le {V} (m : gmap K V) k v : msize (<[k := v]> m) ≤ msize m + 1.
Proof.
  unfold msize. destruct (m !! k) eqn:E; [rewrite map_size_insert_Some|rewrite map_size_insert_None]; try lia.
  all: by rewrite E.
Qed.
Lemma msize_insert_present {V} (m : gmap K V) k v : is_Some (m !! k) → msize (<[k := v]> m) = msize m.
Proof. intros Hk. unfold msize. by rewrite map_size_insert_Some. Qed.
Lemma msize_delete {V} (m : gmap K V) k : is_Some (m !! k) → msize (delete k m) + 1 = msize m.
Proof.
  intros Hk. unfold msize. rewrite map_size_delete_Some //. destruct Hk as [v Hk].
  pose proof (map_size_non_empty_iff m) as [_ Hne]. destruct (size m) eqn:E; [|simpl; lia].
  apply map_size_empty_inv in E. by rewrite E lookup_empty in Hk.
Qed.
Lemma msize_delete_le {V} (m : gmap K V) k : msize (delete k m) ≤ msize m.
Proof. apply msize_subset. rewrite dom_delete. set_solver. Qed.
Lemma msize_fmap {V W} (f : V → W) (m : gmap K V) : msize (f <$> m) = msize m.
Proof. unfold msize. by rewrite map_size_fmap. Qed.
Lemma msize_zero {V} (m : gmap K V) : msize m = 0 → m = ∅.
Proof. unfold msize. intros Hm. apply map_size_empty_inv. lia. Qed.

(** ** Marks *)

Lemma raise_mark_other (m : gmap K N) k at_ k' : k' ≠ k → raise_mark m k at_ !! k' = m !! k'.
Proof. intros Hne. unfold raise_mark. by rewrite lookup_insert_ne. Qed.
Lemma raise_mark_ge (m : gmap K N) k at_ k' :
  default 0 (m !! k') ≤ default 0 (raise_mark m k at_ !! k').
Proof.
  unfold raise_mark. destruct (decide (k' = k)) as [->|Hne]; [|by rewrite lookup_insert_ne].
  rewrite lookup_insert_eq. simpl. lia.
Qed.
Lemma raise_mark_at (m : gmap K N) k at_ : at_ ≤ default 0 (raise_mark m k at_ !! k).
Proof. unfold raise_mark. rewrite lookup_insert_eq. simpl. lia. Qed.

Context `{OrdKey K}.
Lemma mark_victim_in (redundant : K → N → bool) (m : gmap K N) v :
  mark_victim redundant m = Some v → is_Some (m !! v).
Proof.
  unfold mark_victim. destruct (List.find _ _) as [[k n]|] eqn:E.
  - intros [= <-]. apply List.find_some in E as [Hin%list_elem_of_In _].
    apply elem_of_btree_to_list in Hin. by exists n.
  - destruct (min_key snd _) as [[k n]|] eqn:Em; [|done]. intros [= <-].
    apply min_key_elem, elem_of_btree_to_list in Em. by exists n.
Qed.
Lemma mark_victim_None (redundant : K → N → bool) (m : gmap K N) : mark_victim redundant m = None → m = ∅.
Proof.
  unfold mark_victim. destruct (List.find _ _) as [[k n]|]; [done|].
  destruct (min_key snd _) eqn:Em; [done|]. intros _. apply min_key_None in Em.
  apply msize_zero. unfold msize. rewrite -length_btree_to_list. by rewrite Em.
Qed.
(** At the cap a mark is given up, never more. *)
Lemma remember_size max redundant (m : gmap K N) key at_ : 0 < max → msize m ≤ max →
  msize m ≤ msize (remember max redundant m key at_) ≤ max.
Proof.
  intros Hmax Hm. unfold remember, raise_mark.
  destruct (N.leb_spec max (msize m)) as [Hfull|Hroom]; cbn [andb].
  - case_bool_decide as Hk.
    + destruct (mark_victim redundant m) as [v|] eqn:Ev.
      * pose proof (mark_victim_in _ _ _ Ev) as Hv. pose proof (msize_delete m v Hv).
        pose proof (msize_insert_le (delete v m) key (N.max (default 0 (delete v m !! key)) at_)).
        assert (delete v m !! key = None) as Hn.
        { destruct (decide (v = key)) as [->|]; [apply lookup_delete_eq|by rewrite lookup_delete_ne]. }
        assert (msize (<[key := N.max (default 0 (delete v m !! key)) at_]> (delete v m))
                = msize (delete v m) + 1) as -> by (unfold msize; rewrite map_size_insert_None //; lia). lia.
      * apply mark_victim_None in Ev as ->. unfold msize in *. rewrite map_size_empty in Hfull, Hm. lia.
    + rewrite msize_insert_present; [lia|]. by apply not_eq_None_Some.
  - pose proof (msize_insert_le m key (N.max (default 0 (m !! key)) at_)). split; [|lia].
    apply msize_subset. rewrite dom_insert. set_solver.
Qed.
(** Below the cap nothing is given up. *)
Lemma remember_room max redundant (m : gmap K N) key at_ :
  msize m < max ∨ is_Some (m !! key) → remember max redundant m key at_ = raise_mark m key at_.
Proof.
  intros Hr. unfold remember. destruct (N.leb_spec max (msize m)) as [Hfull|]; [|done]. cbn [andb].
  rewrite bool_decide_eq_false_2 //. apply not_eq_None_Some. destruct Hr; [lia|done].
Qed.
End sizes.

(** ** Records *)

Definition has_record (e : Entry) (a : bytes) (r : Provenance) : Prop :=
  ∃ rs, en_addresses e !! a = Some rs ∧ r ∈ rs.
Lemma elem_of_all_records e r : r ∈ all_records e ↔ ∃ a, has_record e a r.
Proof.
  unfold all_records. rewrite list_elem_of_bind. split.
  - intros (rs & Hr & Hin). unfold id in Hr. apply list_elem_of_fmap in Hin as ([a rs'] & -> & Hin).
    apply elem_of_btree_to_list in Hin. by exists a, rs'.
  - intros (a & rs & Hrs & Hr). exists rs. split; [done|]. apply list_elem_of_fmap.
    exists (a, rs). split; [done|]. by apply elem_of_btree_to_list.
Qed.
Lemma retain_lookup keep m a rs :
  retain_records keep m !! a = Some rs ↔
  ∃ rs0, m !! a = Some rs0 ∧ rs = filter (λ r, keep a r = true) rs0 ∧ rs ≠ [].
Proof.
  unfold retain_records. rewrite map_lookup_filter_Some map_lookup_imap. simpl.
  destruct (m !! a) as [rs0|]; simpl; naive_solver.
Qed.
Lemma retain_dom keep m : dom (retain_records keep m) ⊆ dom m.
Proof.
  intros a. rewrite !elem_of_dom. intros [rs (rs0 & Hm & _)%retain_lookup]. by exists rs0.
Qed.

Definition same_word (new x : Provenance) : Prop :=
  pv_source x = pv_source new ∧ pv_observed_at x = pv_observed_at new ∧ pv_expires_at x = pv_expires_at new.
Lemma refresh_first_sources new rs : pv_source <$> refresh_first new rs = pv_source <$> rs.
Proof.
  induction rs as [|r rs IH]; [done|]. cbn [refresh_first]. case_bool_decide; rewrite !fmap_cons; [|by rewrite IH].
  f_equal. unfold refresh_record. by case_match.
Qed.
Lemma refresh_first_elem new rs x : x ∈ refresh_first new rs → x ∈ rs ∨ same_word new x.
Proof.
  induction rs as [|r rs IH]; [by left|]. cbn [refresh_first]. case_bool_decide as Hs; intros [->|Hx]%elem_of_cons.
  - unfold refresh_record. destruct (_ <=? _); [right; by split_and!|left; by left].
  - left. by right.
  - left. by left.
  - destruct (IH Hx); [left; by right|by right].
Qed.
Lemma record_victim_lookup rs i : record_victim rs = Some i → (i < length rs)%nat.
Proof.
  unfold record_victim. destruct (min_key _ _) as [[j r]|] eqn:E; [|done]. intros [= <-].
  apply min_key_elem, list_elem_of_filter in E as [_ Hin]. apply list_elem_of_lookup in Hin as [k Hk].
  rewrite list_lookup_imap in Hk. destruct (rs !! k) eqn:Ek; [|done]. injection Hk as <- <-.
  by eapply lookup_lt_Some.
Qed.

(** The records of an address: bounded, one per source, not empty. *)
Definition records_wf (rs : list Provenance) : Prop :=
  rs ≠ [] ∧ len rs ≤ MAX_PROVENANCE_PER_ADDRESS ∧ NoDup (pv_source <$> rs).
Lemma records_filter keep rs : filter (λ r : Provenance, keep r = true) rs ≠ [] → records_wf rs →
  records_wf (filter (λ r, keep r = true) rs).
Proof.
  intros Hne (_ & Hl & Hn). split_and!; [done| |].
  - pose proof (length_filter (λ r : Provenance, keep r = true) rs). unfold len in *. lia.
  - eapply sublist_NoDup; [exact Hn|]. apply fmap_sublist, sublist_filter.
Qed.
Lemma place_record_wf new rs : (rs = [] ∨ records_wf rs) →
  records_wf (place_record new rs).1.1.
Proof.
  intros Hrs. assert (len rs ≤ MAX_PROVENANCE_PER_ADDRESS ∧ NoDup (pv_source <$> rs)) as [Hl Hn].
  { destruct Hrs as [->|(_&?&?)]; [|done]. split; [by vm_compute|constructor]. }
  unfold place_record. destruct (existsb _ rs) eqn:Ex; cbn [fst].
  - split_and!.
    + intros Hf. apply (f_equal (fmap pv_source)) in Hf. rewrite refresh_first_sources in Hf.
      destruct rs; [discriminate Ex|discriminate Hf].
    + pose proof (f_equal length (refresh_first_sources new rs)) as Hlen. rewrite !length_fmap in Hlen.
      unfold len in *. by rewrite Hlen.
    + by rewrite refresh_first_sources.
  - assert (pv_source new ∉ pv_source <$> rs) as Hfresh.
    { intros (r & Hs & Hr)%list_elem_of_fmap. apply not_true_iff_false in Ex. apply Ex.
      apply existsb_exists. exists r. split; [by apply list_elem_of_In|]. by apply bool_decide_eq_true_2. }
    destruct (N.leb_spec MAX_PROVENANCE_PER_ADDRESS (len rs)).
    + assert (records_wf rs) as Hwf.
      { destruct Hrs as [->|]; [|done]. exfalso. revert H. by vm_compute. }
      destruct (negb (pv_pinned new)); [done|]. destruct (record_victim rs) as [i|] eqn:Ev; [|done]. cbn [fst].
      pose proof (record_victim_lookup _ _ Ev). split_and!.
      * by intros []%app_nil.
      * unfold len in *. rewrite length_app /= length_delete; [lia|]. by apply lookup_lt_is_Some.
      * rewrite fmap_app. apply NoDup_app. split_and!; [|intros s Hs ->%list_elem_of_singleton|apply NoDup_singleton].
        -- eapply sublist_NoDup; [exact Hn|]. apply fmap_sublist, sublist_delete.
        -- apply Hfresh. eapply sublist_elem_of; [exact Hs|]. apply fmap_sublist, sublist_delete.
    + cbn [fst]. split_and!.
      * by intros []%app_nil.
      * rewrite len_app. unfold len at 2. simpl. lia.
      * rewrite fmap_app. apply NoDup_app. split_and!; [done|intros s Hs ->%list_elem_of_singleton|apply NoDup_singleton].
        done.
Qed.
Lemma place_record_elem new rs x : x ∈ (place_record new rs).1.1 → x ∈ rs ∨ same_word new x.
Proof.
  assert (same_word new new) as Hnew by by split_and!.
  unfold place_record. destruct (existsb _ rs); [apply refresh_first_elem|].
  destruct (_ <=? _); [|intros [| ->%list_elem_of_singleton]%elem_of_app; auto].
  destruct (negb _); [auto|]. destruct (record_victim rs) as [i|]; [|auto].
  intros [Hx| ->%list_elem_of_singleton]%elem_of_app; [left|auto].
  eapply sublist_elem_of; [exact Hx|apply sublist_delete].
Qed.

(** ** One report on one entry *)

Record entry_wf (e : Entry) : Prop := {
  ew_addresses : msize (en_addresses e) ≤ MAX_ADDRESSES_PER_PEER;
  ew_records : ∀ a rs, en_addresses e !! a = Some rs → records_wf rs;
  ew_observations : msize (en_observations e) ≤ MAX_OBSERVATIONS_PER_PEER;
  ew_applied : msize (en_applied e) ≤ MAX_PROVIDERS;
  ew_fact_applied : msize (en_fact_applied e) ≤ 2 * MAX_OBSERVATIONS_PER_PEER
}.
Lemma default_wf : entry_wf Entry_default.
Proof. split; by vm_compute. Qed.

(** An update of the addresses alone, or of the facts alone. *)
Lemma with_addresses_wf e m : entry_wf e → msize m ≤ MAX_ADDRESSES_PER_PEER →
  (∀ a rs, m !! a = Some rs → records_wf rs) → entry_wf (with_addresses e m).
Proof. intros [] ??. by split. Qed.
Lemma with_observations_wf e m : entry_wf e → msize m ≤ MAX_OBSERVATIONS_PER_PEER →
  entry_wf (with_observations e m).
Proof. intros [] ?. by split. Qed.
Lemma filter_observations_wf e (P : (ProtocolId * bytes) * (bool * N * N) → Prop) `{!∀ x, Decision (P x)} :
  entry_wf e → entry_wf (with_observations e (filter P (en_observations e))).
Proof. intros He. apply with_observations_wf; [done|]. etrans; [apply msize_filter|apply He]. Qed.
Lemma retain_wf e keep : entry_wf e → entry_wf (with_addresses e (retain_records keep (en_addresses e))).
Proof.
  intros He. apply with_addresses_wf; [done| |].
  - etrans; [apply msize_subset, retain_dom|apply He].
  - intros a rs (rs0 & Hm & -> & Hne)%retain_lookup. apply records_filter; [done|]. by eapply He.
Qed.

Lemma put_record_wf new a e d r : entry_wf e →
  (is_Some (en_addresses e !! a) ∨ msize (en_addresses e) < MAX_ADDRESSES_PER_PEER) →
  entry_wf (put_record new a (e, d, r)).1.1.
Proof.
  intros He Hroom. unfold put_record.
  assert (records_wf (place_record new (default [] (en_addresses e !! a))).1.1) as Hp.
  { apply place_record_wf. destruct (en_addresses e !! a) eqn:E; [right; by eapply He|by left]. }
  destruct (place_record _ _) as [[rs d'] r']. cbn [fst] in *. apply with_addresses_wf; [done| |].
  - destruct Hroom as [Hs|Hlt]; [rewrite msize_insert_present //; apply He|].
    pose proof (msize_insert_le (en_addresses e) a rs). lia.
  - intros b rs'. destruct (decide (a = b)) as [<-|Hne].
    + rewrite lookup_insert_eq. by intros [= <-].
    + rewrite lookup_insert_ne //. apply He.
Qed.
Lemma address_victim_in e v : address_victim e = Some v → is_Some (en_addresses e !! v).
Proof.
  unfold address_victim. destruct (min_key _ _) as [[a rs]|] eqn:E; [|done]. intros [= <-].
  apply min_key_elem, list_elem_of_filter in E as [_ Hin%elem_of_btree_to_list]. by exists rs.
Qed.
Lemma observe_address_wf new st a : entry_wf st.1.1 → entry_wf (observe_address new st a).1.1.
Proof.
  destruct st as [[e d] r]. cbn [fst]. intros He. unfold observe_address.
  destruct (bool_decide _ && _) eqn:Ec.
  - destruct (negb (pv_pinned new)); [done|]. destruct (address_victim e) as [v|] eqn:Ev; [|done].
    pose proof (msize_delete (en_addresses e) v (address_victim_in _ _ Ev)) as Hsz.
    pose proof (ew_addresses _ He). apply put_record_wf.
    + apply with_addresses_wf; [done|lia|]. intros b rs [_ Hb]%lookup_delete_Some. by eapply He.
    + right. cbn [en_addresses with_addresses]. lia.
  - apply put_record_wf; [done|]. apply andb_false_iff in Ec as [Ec|Ec].
    + left. apply bool_decide_eq_false in Ec. by apply not_eq_None_Some.
    + right. by apply N.leb_gt.
Qed.

Lemma fact_victim_in e k : fact_victim e = Some k → is_Some (en_observations e !! k).
Proof.
  unfold fact_victim. destruct (min_key _ _) as [[k' f]|] eqn:E; [|done]. intros [= <-].
  apply min_key_elem, list_elem_of_filter in E as [_ Hin%elem_of_btree_to_list]. by exists f.
Qed.
Lemma put_fact_wf o key exp e : entry_wf e →
  (is_Some (en_observations e !! key) ∨ msize (en_observations e) < MAX_OBSERVATIONS_PER_PEER) →
  entry_wf (put_fact o key exp e).
Proof.
  intros [] Hroom. unfold put_fact. split; try done.
  - cbn [en_observations with_observations with_fact_applied].
    destruct Hroom as [Hs|Hlt]; [rewrite msize_insert_present //|].
    match goal with |- msize (<[key := ?v]> ?m) ≤ _ => pose proof (msize_insert_le m key v) end. lia.
  - cbn [en_fact_applied with_observations with_fact_applied]. by apply remember_size; [by vm_compute|].
Qed.
Lemma observe_fact_wf source pinned exp spilled st o :
  entry_wf st.1.1 → entry_wf (observe_fact source pinned exp spilled st o).1.1.
Proof.
  destruct st as [[e d] r]. cbn [fst]. intros He. unfold observe_fact.
  destruct (_ <? _); [done|]. destruct (bool_decide _ && _) eqn:Ec.
  - destruct (negb _); [done|]. destruct (fact_victim e) as [v|] eqn:Ev; [|done]. cbn [fst].
    pose proof (msize_delete (en_observations e) v (fact_victim_in _ _ Ev)) as Hsz.
    pose proof (ew_observations _ He). apply put_fact_wf.
    + apply with_observations_wf; [done|lia].
    + right. cbn [en_observations with_observations]. lia.
  - apply put_fact_wf; [done|]. apply andb_false_iff in Ec as [Ec|Ec].
    + left. apply bool_decide_eq_false in Ec. by apply not_eq_None_Some.
    + right. by apply N.leb_gt.
Qed.
Lemma raise_applied_wf s at_ e : entry_wf e → entry_wf (raise_applied s at_ e).
Proof.
  intros []. unfold raise_applied. split; try done. cbn [en_applied with_applied].
  assert (∀ m : gmap bytes N, is_Some (m !! s) ∧ msize m ≤ MAX_PROVIDERS ∨ msize m < MAX_PROVIDERS →
    msize (raise_mark m s at_) ≤ MAX_PROVIDERS) as Hr.
  { intros m [[Hs Hm]|Hm]; unfold raise_mark; [by rewrite msize_insert_present|].
    pose proof (msize_insert_le m s (N.max (default 0 (m !! s)) at_)). lia. }
  apply Hr. destruct (bool_decide _ && _) eqn:Ec.
  - right. apply andb_prop in Ec as [_ Hfull%N.leb_le]. destruct (min_key _ _) as [[v n]|] eqn:Em.
    + apply min_key_elem, elem_of_btree_to_list in Em. pose proof (msize_delete (en_applied e) v (ex_intro _ n Em)). lia.
    + apply min_key_None in Em. pose proof (length_btree_to_list (en_applied e)) as Hl. rewrite Em in Hl.
      unfold msize in *. rewrite -Hl in Hfull. revert Hfull. by vm_compute.
  - apply andb_false_iff in Ec as [Ec|Ec].
    + left. apply bool_decide_eq_false in Ec. split; [by apply not_eq_None_Some|done].
    + right. by apply N.leb_gt.
Qed.
Lemma foldl_inv {A B} (P : A → Prop) (f : A → B → A) l a :
  P a → (∀ a b, P a → P (f a b)) → P (foldl f a l).
Proof. intros Ha Hf. revert a Ha. induction l as [|b l IH]; intros a Ha; [done|]. by apply IH, Hf. Qed.
Lemma merge_wf c now exp stale pinned spilled e :
  entry_wf e → entry_wf (merge_entry c now exp stale pinned spilled e).1.1.
Proof.
  intros He. unfold merge_entry.
  set (e1 := prune_addresses now _).
  assert (entry_wf e1) as H1 by (apply retain_wf; destruct stale; [done|by apply raise_applied_wf]).
  destruct (if stale then (e1, 0, 0) else _) as [[e2 d] r] eqn:E.
  assert (entry_wf e2) as H2.
  { destruct stale; [by injection E as <- _ _|].
    assert (entry_wf (e2, d, r).1.1); [|done]. rewrite -E. apply foldl_inv; [done|]. intros. by apply observe_address_wf. }
  apply foldl_inv; [|intros; by apply observe_fact_wf]. cbn [fst].
  assert (entry_wf (prune_observations now (Entry_drop_orphaned_facts e2))) as H3.
  { by apply filter_observations_wf, filter_observations_wf. }
  destruct stale; [done|]. by apply filter_observations_wf.
Qed.

(** What a report adds to an entry. *)
Lemma put_record_has new a st b r : has_record (put_record new a st).1.1 b r →
  has_record st.1.1 b r ∨ (b = a ∧ same_word new r).
Proof.
  destruct st as [[e d] n]. unfold put_record.
  pose proof (place_record_elem new (default [] (en_addresses e !! a)) r) as Hp.
  destruct (place_record _ _) as [[rs d'] n']. cbn [fst] in *. intros (rs' & Hb & Hr).
  cbn [en_addresses with_addresses] in Hb. destruct (decide (a = b)) as [<-|Hne].
  - rewrite lookup_insert_eq in Hb. injection Hb as <-. destruct (Hp Hr) as [Hin|Hw]; [left|by right].
    destruct (en_addresses e !! a) as [rs0|] eqn:E; [by exists rs0|]. by apply elem_of_nil in Hin.
  - rewrite lookup_insert_ne // in Hb. left. by exists rs'.
Qed.
Lemma observe_address_has new st a b r : has_record (observe_address new st a).1.1 b r →
  has_record st.1.1 b r ∨ (b = a ∧ same_word new r).
Proof.
  destruct st as [[e d] n]. unfold observe_address. destruct (bool_decide _ && _); [|apply put_record_has].
  destruct (negb _); [by left|]. destruct (address_victim e) as [v|]; [|by left].
  intros [(rs & Hv & Hr)|Hw]%put_record_has; [left|by right]. cbn in Hv.
  apply lookup_delete_Some in Hv as [_ Hv]. by exists rs.
Qed.
Lemma observe_addresses_has new l st b r : has_record (foldl (observe_address new) st l).1.1 b r →
  has_record st.1.1 b r ∨ (b ∈ l ∧ same_word new r).
Proof.
  revert st. induction l as [|a l IH]; intros st; [by left|]. cbn [foldl].
  intros [[Hh|[-> Hw]]%observe_address_has|[Hin Hw]]%IH; [by left| |]; right; split; try done; [by left|by right].
Qed.
Lemma retain_has e keep a r : has_record (with_addresses e (retain_records keep (en_addresses e))) a r ↔
  has_record e a r ∧ keep a r = true.
Proof.
  split.
  - intros (rs & (rs0 & Hm & -> & _)%retain_lookup & [Hk Hin]%list_elem_of_filter). split; [by exists rs0|done].
  - intros [(rs & Hm & Hin) Hk]. exists (filter (λ r, keep a r = true) rs).
    assert (r ∈ filter (λ r, keep a r = true) rs) as Hf by by apply list_elem_of_filter.
    split; [|done]. apply retain_lookup. exists rs. split_and!; try done. intros E. rewrite E in Hf.
    by apply elem_of_nil in Hf.
Qed.

(** Facts leave the addresses and the thresholds alone. *)
Definition same_reach (e e' : Entry) : Prop :=
  en_addresses e' = en_addresses e ∧ en_applied e' = en_applied e.
Lemma same_reach_has e e' a r : same_reach e e' → has_record e' a r ↔ has_record e a r.
Proof. intros [Ea _]. unfold has_record. by rewrite Ea. Qed.
Lemma observe_fact_reach source pinned exp spilled st o :
  same_reach st.1.1 (observe_fact source pinned exp spilled st o).1.1.
Proof.
  destruct st as [[e d] n]. unfold observe_fact. destruct (_ <? _); [done|].
  destruct (bool_decide _ && _); [|done]. destruct (negb _); [done|]. by destruct (fact_victim e).
Qed.
Lemma observe_facts_reach source pinned exp spilled l st :
  same_reach st.1.1 (foldl (observe_fact source pinned exp spilled) st l).1.1.
Proof.
  revert st. induction l as [|o l IH]; intros st; [done|]. cbn [foldl].
  destruct (observe_fact_reach source pinned exp spilled st o) as [E1 E2], (IH (observe_fact source pinned exp spilled st o)) as [E3 E4].
  split; congruence.
Qed.
Lemma observe_address_applied new st a : en_applied (observe_address new st a).1.1 = en_applied st.1.1.
Proof.
  destruct st as [[e d] n]. unfold observe_address, put_record. destruct (bool_decide _ && _).
  - destruct (negb _); [done|]. destruct (address_victim e); [|done]. by destruct (place_record _ _) as [[??]?].
  - by destruct (place_record _ _) as [[??]?].
Qed.
Lemma observe_addresses_applied new l st : en_applied (foldl (observe_address new) st l).1.1 = en_applied st.1.1.
Proof.
  revert st. induction l as [|a l IH]; intros st; [done|]. cbn [foldl]. by rewrite IH observe_address_applied.
Qed.

Abbreviation word_of c exp pinned := (MkProvenance (cand_source c) (cand_observed_at c) exp pinned).
(** Before the facts are merged. *)
Lemma merge_reach c now exp (stale pinned : bool) spilled e :
  let e' := (merge_entry c now exp stale pinned spilled e).1.1 in
  let e1 := if stale then e else raise_applied (cand_source c) (cand_observed_at c) e in
  same_reach (if stale then prune_addresses now e1
              else (foldl (observe_address (word_of c exp pinned)) (prune_addresses now e1, 0, 0)
                      (bset_to_list (cand_addresses c))).1.1) e'.
Proof.
  cbv zeta. unfold merge_entry. destruct stale.
  - match goal with |- same_reach _ (foldl _ ?st ?l).1.1 =>
      destruct (observe_facts_reach (cand_source c) pinned exp spilled l st) as [E1 E2] end. by split.
  - destruct (foldl (observe_address _) _ _) as [[e2 d] n].
    match goal with |- same_reach _ (foldl _ ?st ?l).1.1 =>
      destruct (observe_facts_reach (cand_source c) pinned exp spilled l st) as [E1 E2] end. by split.
Qed.
Lemma merge_has c now exp stale pinned spilled e a r :
  has_record (merge_entry c now exp stale pinned spilled e).1.1 a r →
  (has_record e a r ∧ live_at now r = true) ∨
  (stale = false ∧ a ∈ cand_addresses c ∧ same_word (word_of c exp pinned) r).
Proof.
  rewrite (same_reach_has _ _ _ _ (merge_reach c now exp stale pinned spilled e)). destruct stale.
  - intros Hh%retain_has. by left.
  - intros [Hh%retain_has|[Hin Hw]]%observe_addresses_has; [by left|right].
    split_and!; [done|by apply elem_of_bset|apply Hw..].
Qed.
Lemma merge_applied c now exp (stale pinned : bool) spilled e :
  en_applied (merge_entry c now exp stale pinned spilled e).1.1 =
  if stale then en_applied e else en_applied (raise_applied (cand_source c) (cand_observed_at c) e).
Proof.
  destruct (merge_reach c now exp stale pinned spilled e) as [_ ->]. destruct stale; [done|].
  by rewrite observe_addresses_applied.
Qed.

(** ** The set *)

Record set_wf (cs : CandidateSet) : Prop := {
  sw_peers : msize (cs_peers cs) ≤ MAX_CANDIDATES;
  sw_entries : ∀ p e, cs_peers cs !! p = Some e → entry_wf e ∧ en_addresses e ≠ ∅;
  sw_high_water : msize (cs_high_water cs) ≤ MAX_HIGH_WATER;
  sw_fact_high_water : msize (cs_fact_high_water cs) ≤ MAX_HIGH_WATER
}.
(** Below the cap on marks, no threshold goes back. *)
Definition forward (cs cs' : CandidateSet) : Prop :=
  msize (cs_high_water cs) ≤ msize (cs_high_water cs') ∧
  (msize (cs_high_water cs') < MAX_HIGH_WATER → ∀ p s, evidence_threshold cs p s ≤ evidence_threshold cs' p s).
#[global] Instance forward_preorder : PreOrder forward.
Proof.
  split; [by intros cs; split|]. intros c1 c2 c3 [S1 F1] [S2 F2]. split; [lia|]. intros Hlt p s.
  etrans; [apply F1; lia|by apply F2].
Qed.

(** Marks spilled into a bounded map. *)
Section spill.
Context {K S : Type} `{OrdKey K, Countable K} (redundant : K → N → bool) (f : S → K).
Definition spill (m : gmap K N) (l : list (S * N)) : gmap K N :=
  foldl (λ m sa, remember MAX_HIGH_WATER redundant m (f sa.1) sa.2) m l.
Lemma spill_size m l : msize m ≤ MAX_HIGH_WATER → msize m ≤ msize (spill m l) ≤ MAX_HIGH_WATER.
Proof.
  unfold spill. revert m. induction l as [|[s a] l IH]; intros m Hm; [simpl; lia|]. cbn [foldl fst snd].
  pose proof (remember_size MAX_HIGH_WATER redundant m (f s) a ltac:(by vm_compute) Hm) as Hr.
  destruct (IH (remember MAX_HIGH_WATER redundant m (f s) a)); lia.
Qed.
Lemma spill_forward m l : msize m ≤ MAX_HIGH_WATER → msize (spill m l) < MAX_HIGH_WATER →
  (∀ k, default 0 (m !! k) ≤ default 0 (spill m l !! k)) ∧
  (∀ s a, (s, a) ∈ l → a ≤ default 0 (spill m l !! f s)).
Proof.
  revert m. induction l as [|[s a] l IH]; intros m Hm Hlt.
  - split; [done|]. intros s a []%elem_of_nil.
  - unfold spill in *. cbn [foldl fst snd] in *. set (m1 := remember MAX_HIGH_WATER redundant m (f s) a) in *.
    pose proof (remember_size MAX_HIGH_WATER redundant m (f s) a ltac:(by vm_compute) Hm) as Hr. fold m1 in Hr.
    pose proof (spill_size m1 l ltac:(lia)) as Hs. unfold spill in Hs.
    destruct (IH m1 ltac:(lia) Hlt) as [H1 H2].
    assert (m1 = raise_mark m (f s) a) as Em by (apply remember_room; left; lia). split.
    + intros k. etrans; [|apply H1]. rewrite Em. apply raise_mark_ge.
    + intros s' a' [[= -> ->]|Hin]%elem_of_cons; [|by apply H2]. etrans; [|apply H1]. rewrite Em. apply raise_mark_at.
Qed.
End spill.
Lemma spill_watermarks cs p l :
  foldl (λ cs sa, CandidateSet_remember_watermark cs p sa.1 sa.2) cs l =
  with_high_water cs (spill (mark_covered cs) (λ s, (p, s)) (cs_high_water cs) l).
Proof.
  unfold spill. revert cs. induction l as [|sa l IH]; intros cs; [by destruct cs|]. cbn [foldl]. by rewrite IH.
Qed.
Lemma spill_fact_watermarks cs p l :
  foldl (λ cs fa, CandidateSet_remember_fact_watermark cs p fa.1 fa.2) cs l =
  with_fact_high_water cs (spill (fact_mark_covered cs) (λ f, (p, f)) (cs_fact_high_water cs) l).
Proof.
  unfold spill. revert cs. induction l as [|sa l IH]; intros cs; [by destruct cs|]. cbn [foldl]. by rewrite IH.
Qed.

Lemma remove_entry_eq cs p e : cs_peers cs !! p = Some e →
  CandidateSet_remove_entry cs p =
  let cs1 := with_peers cs (delete p (cs_peers cs)) in
  MkCandidateSet (delete p (cs_peers cs)) (cs_overflow cs)
    (spill (mark_covered cs1) (λ s, (p, s)) (cs_high_water cs) (btree_to_list (en_applied e)))
    (spill (fact_mark_covered cs1) (λ f, (p, f)) (cs_fact_high_water cs) (btree_to_list (en_fact_applied e))).
Proof.
  intros Hp. unfold CandidateSet_remove_entry. rewrite Hp spill_watermarks spill_fact_watermarks. done.
Qed.
Lemma remove_entry_peers cs p : cs_peers (CandidateSet_remove_entry cs p) = delete p (cs_peers cs).
Proof.
  destruct (cs_peers cs !! p) as [e|] eqn:Hp; [by rewrite (remove_entry_eq _ _ _ Hp)|].
  unfold CandidateSet_remove_entry. rewrite Hp. by rewrite delete_id.
Qed.

(** A set whose entries may have lost their last address. *)
Record set_wf_weak (cs : CandidateSet) : Prop := {
  sk_peers : msize (cs_peers cs) ≤ MAX_CANDIDATES;
  sk_entries : ∀ p e, cs_peers cs !! p = Some e → entry_wf e;
  sk_high_water : msize (cs_high_water cs) ≤ MAX_HIGH_WATER;
  sk_fact_high_water : msize (cs_fact_high_water cs) ≤ MAX_HIGH_WATER
}.
Lemma set_wf_alt cs : set_wf cs ↔ set_wf_weak cs ∧ ∀ p e, cs_peers cs !! p = Some e → en_addresses e ≠ ∅.
Proof.
  split.
  - intros []. split; [split; naive_solver|naive_solver].
  - intros [[] Hne]. split; naive_solver.
Qed.
Lemma remove_entry_weak cs p : set_wf_weak cs → set_wf_weak (CandidateSet_remove_entry cs p).
Proof.
  intros Hcs. destruct (cs_peers cs !! p) as [e|] eqn:Hp.
  - rewrite (remove_entry_eq _ _ _ Hp). destruct Hcs as [H1 H2 H3 H4].
    split; cbn [cs_peers cs_high_water cs_fact_high_water].
    + etrans; [apply msize_delete_le|done].
    + intros q e' [_ Hq]%lookup_delete_Some. by eapply H2.
    + by apply spill_size.
    + by apply spill_size.
  - unfold CandidateSet_remove_entry. by rewrite Hp.
Qed.
Lemma remove_entry_forward cs p : set_wf_weak cs → forward cs (CandidateSet_remove_entry cs p).
Proof.
  intros Hcs. destruct (cs_peers cs !! p) as [e|] eqn:Hp; [|unfold CandidateSet_remove_entry; by rewrite Hp].
  rewrite (remove_entry_eq _ _ _ Hp). cbv zeta. set (cs1 := with_peers cs _).
  pose proof (spill_size (mark_covered cs1) (λ s, (p, s)) (cs_high_water cs) (btree_to_list (en_applied e))
    (sk_high_water _ Hcs)) as Hsz.
  split; cbn [cs_high_water]; [lia|]. intros Hlt.
  destruct (spill_forward (mark_covered cs1) (λ s, (p, s)) (cs_high_water cs) (btree_to_list (en_applied e))
    (sk_high_water _ Hcs) Hlt) as [F1 F2].
  intros q s. unfold evidence_threshold, applied_of. cbn [cs_high_water cs_peers].
  destruct (decide (p = q)) as [<-|Hne].
  - rewrite lookup_delete_eq Hp. cbn [mbind option_bind default from_option id]. specialize (F1 (p, s)).
    destruct (en_applied e !! s) as [a|] eqn:Ha; simpl; [|lia].
    specialize (F2 s a (proj2 (elem_of_btree_to_list _ _ _) Ha)). simpl in F2. lia.
  - rewrite lookup_delete_ne //. specialize (F1 (q, s)). lia.
Qed.

(** Every entry has a property. *)
Definition entries (P : Entry → Prop) (cs : CandidateSet) : Prop :=
  ∀ p e, cs_peers cs !! p = Some e → P e.
(** A source's address of a peer. *)
Definition holds (cs : CandidateSet) (p : TransportIdentity) (a : bytes) (r : Provenance) : Prop :=
  ∃ e, cs_peers cs !! p = Some e ∧ has_record e a r.

Lemma remove_entry_entries P cs p : entries P cs → entries P (CandidateSet_remove_entry cs p).
Proof. intros He q e. rewrite remove_entry_peers. intros [_ Hq]%lookup_delete_Some. by eapply He. Qed.
Lemma removes_lookup l cs p :
  cs_peers (foldl CandidateSet_remove_entry cs l) !! p = if decide (p ∈ l) then None else cs_peers cs !! p.
Proof.
  revert cs. induction l as [|q l IH]; intros cs; cbn [foldl]; [done|]. rewrite IH remove_entry_peers.
  destruct (decide (p = q)) as [->|Hne].
  - rewrite lookup_delete_eq (decide_True (P := q ∈ q :: l)); [|by left]. by case_decide.
  - rewrite lookup_delete_ne; [|done]. apply decide_ext. rewrite elem_of_cons. naive_solver.
Qed.
Lemma removes_ok l cs : set_wf_weak cs →
  set_wf_weak (foldl CandidateSet_remove_entry cs l) ∧ forward cs (foldl CandidateSet_remove_entry cs l).
Proof.
  revert cs. induction l as [|q l IH]; intros cs Hcs; cbn [foldl]; [done|].
  destruct (IH _ (remove_entry_weak cs q Hcs)) as [H1 H2]. split; [done|].
  etrans; [by apply remove_entry_forward|done].
Qed.

(** Changing entries without touching their thresholds. *)
Lemma same_threshold cs cs' : cs_high_water cs' = cs_high_water cs →
  (∀ p, en_applied <$> cs_peers cs' !! p = en_applied <$> cs_peers cs !! p) → forward cs cs'.
Proof.
  intros Eh Ea. split; [by rewrite Eh|]. intros _ p s. unfold evidence_threshold, applied_of. rewrite Eh.
  specialize (Ea p). destruct (cs_peers cs' !! p), (cs_peers cs !! p); simpl in *; try done.
  injection Ea as ->. lia.
Qed.

Lemma sweep_entry_wf now e : entry_wf e → entry_wf (sweep_entry now e).
Proof. intros He. by apply filter_observations_wf, filter_observations_wf, retain_wf. Qed.
Lemma sweep_entry_has now e a r : has_record (sweep_entry now e) a r ↔ has_record e a r ∧ live_at now r = true.
Proof. apply (retain_has e (λ _, live_at now)). Qed.
Lemma sweep_ok cs now : set_wf cs → set_wf (CandidateSet_sweep cs now) ∧ forward cs (CandidateSet_sweep cs now).
Proof.
  intros [Hw _]%set_wf_alt. unfold CandidateSet_sweep. cbv zeta. set (cs1 := with_peers cs _).
  assert (set_wf_weak cs1) as H1.
  { destruct Hw as [W1 W2 W3 W4]. split; try done; cbn [cs1 cs_peers with_peers].
    - by rewrite msize_fmap.
    - intros p e (e0 & <- & Hp)%lookup_fmap_Some. by apply sweep_entry_wf, (W2 p). }
  set (l := (filter _ _).*1). destruct (removes_ok l cs1 H1) as [H2 H3]. split.
  - apply set_wf_alt. split; [done|]. intros p e. rewrite removes_lookup. case_decide as Hl; [done|].
    intros Hp He. apply Hl, list_elem_of_fmap. exists (p, e). split; [done|].
    apply list_elem_of_filter. split; [done|]. by apply elem_of_btree_to_list.
  - etrans; [|exact H3]. apply same_threshold; [done|]. intros p. cbn [cs1 cs_peers with_peers].
    rewrite lookup_fmap. by destruct (cs_peers cs !! p).
Qed.
Lemma sweep_entries P cs now : (∀ e, P e → P (sweep_entry now e)) → entries P cs → entries P (CandidateSet_sweep cs now).
Proof.
  intros HP He p e. unfold CandidateSet_sweep. rewrite removes_lookup. case_decide; [done|].
  cbn [cs_peers with_peers]. intros (e0 & <- & Hp)%lookup_fmap_Some. by eapply HP, He.
Qed.
Lemma sweep_lookup cs now p e : cs_peers (CandidateSet_sweep cs now) !! p = Some e →
  ∃ e0, cs_peers cs !! p = Some e0 ∧ e = sweep_entry now e0.
Proof.
  unfold CandidateSet_sweep. rewrite removes_lookup. case_decide; [done|]. cbn [cs_peers with_peers].
  intros (e0 & <- & Hp)%lookup_fmap_Some. by exists e0.
Qed.

(** The entry a retraction leaves. *)
Definition retract_keep (source : bytes) (addresses : gset bytes) (a : bytes) (r : Provenance) : bool :=
  negb ((bool_decide (addresses = ∅) || bool_decide (a ∈ addresses)) && bool_decide (pv_source r = source)).
Definition retract_entry (source : bytes) (addresses : gset bytes) (e : Entry) : Entry :=
  Entry_drop_orphaned_facts
    (with_addresses e (retain_records (retract_keep source addresses) (en_addresses e))).
Lemma retract_entry_has source addresses e a r :
  has_record (retract_entry source addresses e) a r ↔ has_record e a r ∧ retract_keep source addresses a r = true.
Proof. apply (retain_has e (retract_keep source addresses)). Qed.
Lemma retract_eq cs p source addresses : CandidateSet_retract cs p source addresses =
  match cs_peers cs !! p with
  | None => cs
  | Some e =>
      let e := retract_entry source addresses e in
      let cs := with_peers cs (<[p := e]> (cs_peers cs)) in
      if bool_decide (en_addresses e = ∅) then CandidateSet_remove_entry cs p else cs
  end.
Proof. done. Qed.

(** An entry replaced, and removed when it has no address left. *)
Definition settle_entry (cs : CandidateSet) (p : TransportIdentity) (e : Entry) : CandidateSet :=
  let cs := with_peers cs (<[p := e]> (cs_peers cs)) in
  if bool_decide (en_addresses e = ∅) then CandidateSet_remove_entry cs p else cs.
Lemma settle_entry_lookup cs p e q :
  cs_peers (settle_entry cs p e) !! q =
  if decide (q = p) then (if decide (en_addresses e = ∅) then None else Some e) else cs_peers cs !! q.
Proof.
  unfold settle_entry. case_bool_decide as He.
  - rewrite remove_entry_peers. cbn [cs_peers with_peers]. destruct (decide (q = p)) as [->|Hne].
    + by rewrite lookup_delete_eq decide_True.
    + by rewrite lookup_delete_ne // lookup_insert_ne.
  - cbn [cs_peers with_peers]. destruct (decide (q = p)) as [->|Hne].
    + by rewrite lookup_insert_eq decide_False.
    + by rewrite lookup_insert_ne.
Qed.
Lemma settle_entry_ok cs p e : set_wf cs → entry_wf e →
  (is_Some (cs_peers cs !! p) ∨ msize (cs_peers cs) < MAX_CANDIDATES) →
  (∀ s, default 0 (cs_peers cs !! p ≫= (λ e, en_applied e !! s)) ≤ default 0 (en_applied e !! s)) →
  set_wf (settle_entry cs p e) ∧ forward cs (settle_entry cs p e).
Proof.
  intros [[W1 W2 W3 W4] Wne]%set_wf_alt He Hroom Hap. set (cs1 := with_peers cs (<[p := e]> (cs_peers cs))).
  assert (set_wf_weak cs1) as H1.
  { split; try done; cbn [cs1 cs_peers with_peers].
    - destruct Hroom as [Hs|Hlt]; [by rewrite msize_insert_present|].
      pose proof (msize_insert_le (cs_peers cs) p e). lia.
    - intros q e'. destruct (decide (p = q)) as [<-|Hne]; [rewrite lookup_insert_eq; by intros [= <-]|].
      rewrite lookup_insert_ne //. apply W2. }
  assert (forward cs cs1) as F1.
  { split; [done|]. intros _ q s. unfold evidence_threshold, applied_of. cbn [cs1 cs_peers with_peers cs_high_water].
    destruct (decide (p = q)) as [<-|Hne]; [|by rewrite lookup_insert_ne]. rewrite lookup_insert_eq.
    specialize (Hap s). cbn [mbind option_bind]. lia. }
  assert (set_wf_weak (settle_entry cs p e) ∧ forward cs (settle_entry cs p e)) as [H2 F2].
  { unfold settle_entry. fold cs1. case_bool_decide; [|done]. split; [by apply remove_entry_weak|].
    etrans; [exact F1|by apply remove_entry_forward]. }
  split; [|done]. apply set_wf_alt. split; [done|]. intros q e'. rewrite settle_entry_lookup.
  case_decide; [case_decide; [done|by intros [= <-]]|apply Wne].
Qed.

(** ** Making room *)

(** The peer overflow may cost: an expired one; else an untrusted one that is
    not protected, least recently observed among those, and then only for a
    newcomer at least as recent or for a configured one within its cap. *)
Definition fair_victim (cs : CandidateSet) (now : N) (trust : PeerTrustPolicy) (incoming : N) (pinned : bool)
    (p : TransportIdentity) (e : Entry) : Prop :=
  entry_expired now e = true ∨
  (trusted trust p = false ∧ p ∉ protected_peers cs now ∧
   (∀ q f, (q, f) ∈ evictable_peers cs now trust → Entry_recency e now ≤ Entry_recency f now) ∧
   (pinned = true ∧ len (configured_peers cs) < MAX_CONFIGURED_RETAINED ∨ Entry_recency e now ≤ incoming)).
Lemma evict_one_spec cs now trust incoming pinned :
  let r := CandidateSet_evict_one cs now trust incoming pinned in
  r = (false, cs) ∨
  ∃ p e, cs_peers cs !! p = Some e ∧ r = (true, CandidateSet_remove_entry cs p) ∧
    fair_victim cs now trust incoming pinned p e.
Proof.
  cbv zeta. unfold CandidateSet_evict_one. destruct (List.find _ _) as [[p e]|] eqn:Ef.
  - right. apply List.find_some in Ef as [Hin%list_elem_of_In He]. apply elem_of_btree_to_list in Hin.
    exists p, e. split_and!; [done..|]. by left.
  - destruct (min_key _ _) as [[p e]|] eqn:Em; [|by left].
    pose proof (λ y, min_key_least _ _ _ y Em) as Hmin. apply min_key_elem in Em.
    apply list_elem_of_filter in Em as [[Ht Hp]%andb_prop Hin%elem_of_btree_to_list]. cbn [fst snd] in *.
    apply negb_true_iff in Ht. apply bool_decide_eq_true in Hp.
    assert (∀ q f, (q, f) ∈ evictable_peers cs now trust → Entry_recency e now ≤ Entry_recency f now) as Hle.
    { intros q f Hq. specialize (Hmin (q, f) Hq). cbn [fst snd] in Hmin. by apply N.leb_le. }
    destruct (pinned && _) eqn:Epin.
    + right. exists p, e. split_and!; [done..|]. right. split_and!; try done. left.
      apply andb_prop in Epin as [-> Hlt%N.ltb_lt]. done.
    + destruct (N.ltb_spec incoming (Entry_recency e now)) as [|Hge]; [by left|]. right. exists p, e.
      split_and!; [done..|]. right. split_and!; try done. by right.
Qed.

Lemma with_overflow_ok cs v : set_wf cs → set_wf (with_overflow cs v) ∧ forward cs (with_overflow cs v).
Proof. intros []. split; [by split|]. by apply same_threshold. Qed.
(** The set a new peer is entered into. *)
Definition made_room (cs : CandidateSet) (now : N) (trust : PeerTrustPolicy) (c : CandidatePeer) (pinned : bool)
    (cs' : CandidateSet) : Prop :=
  ∃ ov, cs' = with_overflow cs ov ∨
  ∃ p e, cs_peers cs !! p = Some e ∧ cs_peers cs !! cand_peer_id c = None ∧
    msize (cs_peers cs) = MAX_CANDIDATES ∧
    cs' = with_overflow (CandidateSet_remove_entry cs p) ov ∧
    fair_victim cs now trust (cand_observed_at c) pinned p e.
Lemma make_slot_spec cs c now trust pinned room cs' : set_wf cs →
  make_slot cs c now trust pinned = (room, cs') →
  made_room cs now trust c pinned cs' ∧
  (room = true → is_Some (cs_peers cs' !! cand_peer_id c) ∨ msize (cs_peers cs') < MAX_CANDIDATES).
Proof.
  intros Hcs. unfold make_slot.
  assert (with_overflow cs (cs_overflow cs) = cs) as Hid by by destruct cs.
  destruct (bool_decide _ && _) eqn:Ec.
  2:{ intros [= <- <-]. split; [exists (cs_overflow cs); by left|]. intros _.
      apply andb_false_iff in Ec as [Ec|Ec].
      - left. apply bool_decide_eq_false in Ec. by apply not_eq_None_Some.
      - right. by apply N.leb_gt. }
  apply andb_prop in Ec as [Hn%bool_decide_eq_true Hfull%N.leb_le].
  pose proof (sw_peers _ Hcs) as Hle.
  destruct (evict_one_spec cs now trust (cand_observed_at c) pinned) as [E|(p & e & Hp & E & Hv)]; rewrite E.
  - destruct (N.leb_spec MAX_CANDIDATES (msize (cs_peers cs))); [|lia]. intros [= <- <-].
    split; [|done]. eexists. by left.
  - cbn [cs_peers with_overflow]. rewrite remove_entry_peers.
    pose proof (msize_delete (cs_peers cs) p (ex_intro _ e Hp)).
    destruct (N.leb_spec MAX_CANDIDATES (msize (delete p (cs_peers cs)))); [lia|]. intros [= <- <-]. split.
    + eexists. right. exists p, e. split_and!; try done. lia.
    + intros _. right. cbn [cs_peers with_overflow]. rewrite remove_entry_peers. lia.
Qed.
Lemma remove_entry_ok cs p : set_wf cs →
  set_wf (CandidateSet_remove_entry cs p) ∧ forward cs (CandidateSet_remove_entry cs p).
Proof.
  intros [Hw Hne]%set_wf_alt. split; [|by apply remove_entry_forward]. apply set_wf_alt.
  split; [by apply remove_entry_weak|]. by apply remove_entry_entries.
Qed.
Lemma made_room_ok cs now trust c pinned cs' : set_wf cs → made_room cs now trust c pinned cs' →
  set_wf cs' ∧ forward cs cs'.
Proof.
  intros Hcs (ov & [->|(p & e & _ & _ & _ & -> & _)]); [by apply with_overflow_ok|].
  destruct (remove_entry_ok cs p Hcs) as [H1 F1], (with_overflow_ok (CandidateSet_remove_entry cs p) ov) as [H2 F2];
    [done|]. split; [done|]. by etrans.
Qed.
(** Making room only ever takes a peer away. *)
Lemma made_room_lookup cs now trust c pinned cs' q e : made_room cs now trust c pinned cs' →
  cs_peers cs' !! q = Some e → cs_peers cs !! q = Some e.
Proof.
  intros (ov & [->|(p & e' & _ & _ & _ & -> & _)]); cbn [cs_peers with_overflow]; [done|].
  rewrite remove_entry_peers. by intros [_ Hq]%lookup_delete_Some.
Qed.
Lemma made_room_peer cs now trust c pinned cs' : made_room cs now trust c pinned cs' →
  cs_peers cs' !! cand_peer_id c = cs_peers cs !! cand_peer_id c.
Proof.
  intros (ov & [->|(p & e' & Hp & Hn & _ & -> & _)]); cbn [cs_peers with_overflow]; [done|].
  rewrite remove_entry_peers lookup_delete_ne //. congruence.
Qed.

(** ** A report on the set *)

(** The threshold is raised, and nothing given up while the sources fit. *)
Lemma raise_applied_ge (S : gset bytes) s at_ e : N.of_nat (size S) ≤ MAX_PROVIDERS → s ∈ S →
  dom (en_applied e) ⊆ S →
  en_applied (raise_applied s at_ e) = raise_mark (en_applied e) s at_.
Proof.
  intros HS Hs Hd. unfold raise_applied. cbn [en_applied with_applied].
  case_bool_decide as Hn; [|done]. cbn [andb].
  assert (msize (en_applied e) < MAX_PROVIDERS) as Hlt.
  { assert (dom (en_applied e) ⊆ S ∖ {[s]}) as Hd2.
    { intros x Hx. apply elem_of_difference. split; [by apply Hd|]. intros ->%elem_of_singleton.
      by apply elem_of_dom in Hx as [? Hx]; rewrite Hn in Hx. }
    apply subseteq_size in Hd2. rewrite size_difference in Hd2; [|set_solver].
    rewrite size_singleton in Hd2.
    assert (size S ≠ 0%nat) by (intros Hz; apply size_empty_inv in Hz; set_solver).
    unfold msize. rewrite -size_dom. lia. }
  destruct (N.leb_spec MAX_PROVIDERS (msize (en_applied e))); [lia|done].
Qed.

(** What an entry keeps: bounds, thresholds of known sources only, and no
    record newer than its source's evidence_threshold. *)
Record entry_inv (S : gset bytes) (e : Entry) : Prop := {
  ei_wf : entry_wf e;
  ei_sources : dom (en_applied e) ⊆ S;
  ei_records : ∀ a r, has_record e a r → pv_observed_at r ≤ default 0 (en_applied e !! pv_source r)
}.
Lemma merge_inv S c now exp stale pinned spilled e :
  N.of_nat (size S) ≤ MAX_PROVIDERS → cand_source c ∈ S → entry_inv S e →
  let e' := (merge_entry c now exp stale pinned spilled e).1.1 in
  entry_inv S e' ∧ (∀ s, default 0 (en_applied e !! s) ≤ default 0 (en_applied e' !! s)) ∧
  (stale = false → cand_observed_at c ≤ default 0 (en_applied e' !! cand_source c)).
Proof.
  intros HS Hs [W1 W2 W3]. cbv zeta.
  assert (∀ s, default 0 (en_applied e !! s) ≤
    default 0 (en_applied (merge_entry c now exp stale pinned spilled e).1.1 !! s)) as Hge.
  { intros s. rewrite merge_applied. destruct stale; [done|]. rewrite (raise_applied_ge S) //. apply raise_mark_ge. }
  assert (stale = false → cand_observed_at c ≤
    default 0 (en_applied (merge_entry c now exp stale pinned spilled e).1.1 !! cand_source c)) as Hat.
  { intros ->. rewrite merge_applied (raise_applied_ge S) //. apply raise_mark_at. }
  split_and!; [|done..]. split.
  - by apply merge_wf.
  - rewrite merge_applied. destruct stale; [done|]. rewrite (raise_applied_ge S) //. unfold raise_mark.
    rewrite dom_insert_L. set_solver.
  - intros a r [[Hr _]|(Hst & _ & -> & -> & _)]%merge_has; [|by apply Hat]. etrans; [by eapply W3|apply Hge].
Qed.

Definition is_stale (cs : CandidateSet) (c : CandidatePeer) : bool :=
  cand_observed_at c <? evidence_threshold cs (cand_peer_id c) (cand_source c).
(** A report does nothing, or makes room and does no more, or settles the
    merged entry. *)
Lemma observe_cases cs c now trust pe pp : set_wf cs →
  let cs' := CandidateSet_observe cs c now trust pe pp in
  cs' = cs ∨
  ∃ cs1, made_room cs now trust c pp cs1 ∧
    (cs' = cs1 ∨
     (is_Some (cs_peers cs1 !! cand_peer_id c) ∨ msize (cs_peers cs1) < MAX_CANDIDATES) ∧
     ∃ ov spilled,
       cs' = settle_entry (with_overflow cs1 ov) (cand_peer_id c)
               (merge_entry c now (observation_expiry c pe) (is_stale cs c) pp spilled
                  (default Entry_default (cs_peers cs1 !! cand_peer_id c))).1.1).
Proof.
  intros Hcs. cbv zeta. unfold CandidateSet_observe.
  destruct (_ && bool_decide (cs_peers cs !! cand_peer_id c = None)); [by left|]. right.
  destruct (make_slot cs c now trust pp) as [room cs1] eqn:Em.
  destruct (make_slot_spec _ _ _ _ _ _ _ Hcs Em) as [Hm Hroom]. exists cs1. split; [done|].
  destruct room; [|by left]. right. split; [by apply Hroom|]. unfold is_stale. cbn [negb].
  destruct (merge_entry _ _ _ _ _ _ _) as [[e d] r] eqn:E.
  eexists _, (spilled_fact_floors cs1 c). by rewrite E.
Qed.
Lemma made_room_entries P cs now trust c pp cs1 : made_room cs now trust c pp cs1 → entries P cs → entries P cs1.
Proof. intros Hm He q e Hq. eapply He, made_room_lookup; done. Qed.
Lemma default_inv S : entry_inv S Entry_default.
Proof. split; [apply default_wf|done|]. intros a r (rs & Hrs & _). done. Qed.

Lemma observe_inv S cs c now trust pe pp :
  N.of_nat (size S) ≤ MAX_PROVIDERS → cand_source c ∈ S → set_wf cs → entries (entry_inv S) cs →
  let cs' := CandidateSet_observe cs c now trust pe pp in
  set_wf cs' ∧ forward cs cs' ∧ entries (entry_inv S) cs'.
Proof.
  intros HS Hs Hcs He. cbv zeta.
  destruct (observe_cases cs c now trust pe pp Hcs) as [->|(cs1 & Hm & Hc)]; [done|].
  destruct (made_room_ok _ _ _ _ _ _ Hcs Hm) as [H1 F1]. pose proof (made_room_entries _ _ _ _ _ _ _ Hm He) as He1.
  destruct Hc as [->|(Hroom & ov & spilled & ->)]; [done|].
  set (e0 := default Entry_default (cs_peers cs1 !! cand_peer_id c)).
  assert (entry_inv S e0) as Hi0.
  { unfold e0. destruct (cs_peers cs1 !! cand_peer_id c) eqn:E; [by eapply He1|apply default_inv]. }
  destruct (merge_inv S c now (observation_expiry c pe) (is_stale cs c) pp spilled e0 HS Hs Hi0) as (Hi & Hge & _).
  destruct (with_overflow_ok cs1 ov H1) as [H2 F2].
  destruct (settle_entry_ok (with_overflow cs1 ov) (cand_peer_id c)
    (merge_entry c now (observation_expiry c pe) (is_stale cs c) pp spilled e0).1.1) as [H3 F3].
  - done.
  - apply Hi.
  - done.
  - intros s. etrans; [|apply Hge]. unfold e0. cbn [cs_peers with_overflow].
    by destruct (cs_peers cs1 !! cand_peer_id c).
  - split_and!; [done|etrans; [exact F1|by etrans]|]. intros q e. rewrite settle_entry_lookup.
    case_decide; [case_decide; [done|by intros [= <-]]|apply He1].
Qed.
(** Where a record after a report comes from. *)
Lemma observe_holds cs c now trust pe pp p a r : set_wf cs →
  holds (CandidateSet_observe cs c now trust pe pp) p a r →
  holds cs p a r ∨
  (p = cand_peer_id c ∧ is_stale cs c = false ∧ a ∈ cand_addresses c ∧
   same_word (word_of c (observation_expiry c pe) pp) r).
Proof.
  intros Hcs. destruct (observe_cases cs c now trust pe pp Hcs) as [->|(cs1 & Hm & Hc)]; [by left|].
  intros (e & Hp & Hr). destruct Hc as [E|(_ & ov & spilled & E)]; rewrite E in Hp.
  - left. exists e. split; [by eapply made_room_lookup|done].
  - rewrite settle_entry_lookup in Hp. destruct (decide (p = cand_peer_id c)) as [->|Hne].
    + case_decide; [done|]. injection Hp as <-. apply merge_has in Hr as [[Hr _]|Hr]; [left|by right].
      destruct (cs_peers cs1 !! cand_peer_id c) as [e0|] eqn:E0; [|by destruct Hr as (? & ? & _)].
      exists e0. split; [by eapply made_room_lookup|done].
    + left. exists e. split; [by eapply made_room_lookup|done].
Qed.
(** What a report about one peer may cost the others: nobody, or one fair victim. *)
Lemma observe_others cs c now trust pe pp : set_wf cs →
  let cs' := CandidateSet_observe cs c now trust pe pp in
  (∀ q, q ≠ cand_peer_id c → cs_peers cs' !! q = cs_peers cs !! q) ∨
  ∃ v e, v ≠ cand_peer_id c ∧ cs_peers cs !! v = Some e ∧ cs_peers cs' !! v = None ∧
    cs_peers cs !! cand_peer_id c = None ∧ msize (cs_peers cs) = MAX_CANDIDATES ∧
    fair_victim cs now trust (cand_observed_at c) pp v e ∧
    ∀ q, q ≠ cand_peer_id c → q ≠ v → cs_peers cs' !! q = cs_peers cs !! q.
Proof.
  intros Hcs. cbv zeta.
  destruct (observe_cases cs c now trust pe pp Hcs) as [->|(cs1 & Hm & Hc)]; [by left|].
  assert (∀ q, q ≠ cand_peer_id c → cs_peers (CandidateSet_observe cs c now trust pe pp) !! q = cs_peers cs1 !! q) as Hq.
  { intros q Hne. destruct Hc as [->|(_ & ov & spilled & ->)]; [done|]. rewrite settle_entry_lookup. by rewrite decide_False. }
  destruct Hm as (ov & [->|(v & e & Hv & Hn & Hsz & -> & Hf)]); [by left|]. right.
  assert (v ≠ cand_peer_id c) as Hne by congruence. exists v, e.
  cbn [cs_peers with_overflow] in Hq. rewrite remove_entry_peers in Hq. split_and!; try done.
  - by rewrite Hq // lookup_delete_eq.
  - intros q H1 H2. rewrite Hq // lookup_delete_ne //.
Qed.
