(* ===== verification/DiscoveryHistory.v ===== *)
(** * The discovery manager over its histories

    Registrations, provider events and sweeps in any order and with any clock:
    the bounds, where every candidate comes from, that late evidence restores
    nothing, what a retraction takes, whom overflow may cost, and that sweeping
    is invisible to readers. *)
From S2P Require Import Prelude Ids Trust DiscoveryApi Discovery DiscoveryFacts.
Local Open Scope N_scope.

Inductive disc_op :=
| DRegister (d : ProviderDescriptor) (priority : Z)
| DEvent (source : bytes) (event : DiscoveryEvent) (now : N) (trust : PeerTrustPolicy)
| DSweep (now : N).
Definition disc_step (m : DiscoveryManager) (op : disc_op) : DiscoveryManager :=
  match op with
  | DRegister d priority => (DiscoveryManager_register m d priority).2
  | DEvent source event now trust => (DiscoveryManager_on_event m source event now trust).2
  | DSweep now => DiscoveryManager_sweep m now
  end.
Definition disc_run (ops : list disc_op) : DiscoveryManager := foldl disc_step DiscoveryManager_new ops.
Lemma disc_run_snoc ops op : disc_run (ops ++ [op]) = disc_step (disc_run ops) op.
Proof. unfold disc_run. by rewrite foldl_app. Qed.

(** ** The invariant *)

Record disc_inv (m : DiscoveryManager) : Prop := {
  dv_set : set_wf (dm_candidates m);
  dv_providers : msize (dm_providers m) ≤ MAX_PROVIDERS;
  dv_entries : entries (entry_inv (dom (dm_providers m))) (dm_candidates m)
}.
Lemma entry_inv_mono S S' e : S ⊆ S' → entry_inv S e → entry_inv S' e.
Proof. intros HS [H1 H2 H3]. split; [done|set_solver|done]. Qed.
Lemma more_providers m ps : dom (dm_providers m) ⊆ dom ps → msize ps ≤ MAX_PROVIDERS → disc_inv m →
  disc_inv (MkDiscoveryManager ps (dm_candidates m)).
Proof.
  intros Hd Hs [H1 H2 H3]. split; try done. intros p e Hp. eapply entry_inv_mono; [exact Hd|by eapply H3].
Qed.
Lemma retract_entry_inv S source addresses e : entry_inv S e → entry_inv S (retract_entry source addresses e).
Proof.
  intros [H1 H2 H3]. split.
  - by apply filter_observations_wf, retain_wf.
  - done.
  - intros a r [Hr _]%retract_entry_has. by apply (H3 a).
Qed.
Lemma sweep_entry_inv S now e : entry_inv S e → entry_inv S (sweep_entry now e).
Proof.
  intros [H1 H2 H3]. split; [by apply sweep_entry_wf|done|]. intros a r [Hr _]%sweep_entry_has. by apply (H3 a).
Qed.
Lemma retract_ok S cs p source addresses : set_wf cs → entries (entry_inv S) cs →
  let cs' := CandidateSet_retract cs p source addresses in
  set_wf cs' ∧ forward cs cs' ∧ entries (entry_inv S) cs'.
Proof.
  intros Hcs He. cbv zeta. rewrite retract_eq. destruct (cs_peers cs !! p) as [e|] eqn:Hp; [|done].
  pose proof (retract_entry_inv S source addresses e (He _ _ Hp)) as Hi.
  change (set_wf (settle_entry cs p (retract_entry source addresses e)) ∧
    forward cs (settle_entry cs p (retract_entry source addresses e)) ∧
    entries (entry_inv S) (settle_entry cs p (retract_entry source addresses e))).
  destruct (settle_entry_ok cs p (retract_entry source addresses e)) as [H1 F1]; [done|apply Hi|by left| |].
  { intros s. by rewrite Hp. }
  split_and!; [done..|]. intros q e'. rewrite settle_entry_lookup.
  case_decide; [case_decide; [done|by intros [= <-]]|apply He].
Qed.

Lemma disc_step_inv m op : disc_inv m → disc_inv (disc_step m op) ∧
  forward (dm_candidates m) (dm_candidates (disc_step m op)).
Proof.
  intros Hm. destruct op as [d priority|source event now trust|now]; cbn [disc_step].
  - unfold DiscoveryManager_register. destruct (ProviderDescriptor_validate d); [|done].
    destruct (bool_decide _ && _) eqn:Ec; [done|]. split; [|done]. cbn [snd]. apply more_providers; [| |done].
    + rewrite dom_insert. set_solver.
    + apply andb_false_iff in Ec as [Ec|Ec].
      * apply bool_decide_eq_false, not_eq_None_Some in Ec. rewrite msize_insert_present //. apply Hm.
      * apply N.leb_gt in Ec. pose proof (msize_insert_le (dm_providers m) (pd_name d)
          (MkRegistered d priority Unavailable)). lia.
  - unfold DiscoveryManager_on_event. case_bool_decide as Hs; [done|]. apply not_eq_None_Some in Hs.
    destruct Hm as [H1 H2 H3]. destruct event as [c|p s addrs|s health].
    + case_bool_decide as Hc; [|done]. cbn [negb]. destruct (is_ok _); [|done]. cbn [negb snd].
      destruct (observe_inv (dom (dm_providers m)) (dm_candidates m) c now trust (supports_expiry m source)
        (provider_pinned m source)) as (W1 & W2 & W3).
      * unfold msize in H2. by rewrite size_dom.
      * rewrite Hc. by apply elem_of_dom.
      * done.
      * done.
      * split; [by split|done].
    + case_bool_decide as Hc; [|done]. cbn [negb snd].
      destruct (retract_ok (dom (dm_providers m)) (dm_candidates m) p source addrs H1 H3) as (W1 & W2 & W3).
      split; [by split|done].
    + case_bool_decide as Hc; [|done]. cbn [negb snd]. unfold set_health.
      destruct (dm_providers m !! source) as [r|] eqn:E; [|done]. split; [|done].
      apply more_providers; [rewrite dom_insert; set_solver| |by split]. by rewrite msize_insert_present.
  - destruct Hm as [H1 H2 H3]. destruct (sweep_ok (dm_candidates m) now H1) as [W1 W2]. split; [|done].
    split; [done|done|]. apply sweep_entries; [|done]. intros e. apply sweep_entry_inv.
Qed.
Lemma disc_new_inv : disc_inv DiscoveryManager_new.
Proof. split; [split; by vm_compute|by vm_compute|by intros p e]. Qed.
Lemma disc_run_from m ops : disc_inv m → disc_inv (foldl disc_step m ops) ∧
  forward (dm_candidates m) (dm_candidates (foldl disc_step m ops)).
Proof.
  revert m. induction ops as [|op ops IH]; intros m Hm; [done|]. cbn [foldl].
  destruct (disc_step_inv m op Hm) as [H1 F1], (IH _ (proj1 (disc_step_inv m op Hm))) as [H2 F2].
  split; [done|by etrans].
Qed.
Lemma disc_run_inv ops : disc_inv (disc_run ops).
Proof. apply disc_run_from, disc_new_inv. Qed.

(** C29: whatever providers report, and however often they register, report,
    retract, fail and are swept, memory stays bounded in every dimension: at
    most 16 providers and 4096 peers; a peer held has between 1 and 16
    addresses, each attested by between 1 and 8 records, one per source, and
    at most 16 protocol facts; and the thresholds that outlive them are
    bounded too. *)
Theorem discovery_bounded (ops : list disc_op) :
  let m := disc_run ops in
  let cs := dm_candidates m in
  msize (dm_providers m) ≤ 16 ∧ DiscoveryManager_candidate_count m ≤ 4096 ∧
  msize (cs_high_water cs) ≤ 4096 ∧ msize (cs_fact_high_water cs) ≤ 4096 ∧
  ∀ p e, cs_peers cs !! p = Some e →
    1 ≤ msize (en_addresses e) ≤ 16 ∧ msize (en_observations e) ≤ 16 ∧
    msize (en_applied e) ≤ 16 ∧ msize (en_fact_applied e) ≤ 32 ∧
    ∀ a rs, en_addresses e !! a = Some rs → 1 ≤ len rs ≤ 8 ∧ NoDup (pv_source <$> rs).
Proof.
  destruct (disc_run_inv ops) as [[S1 S2 S3 S4] Hp _]. cbv zeta. split_and!; [done..|].
  intros p e He. destruct (S2 p e He) as [[E1 E2 E3 E4 E5] Hne]. split_and!; try done.
  - destruct (N.eq_dec (msize (en_addresses e)) 0) as [Hz|]; [by apply msize_zero in Hz|lia].
  - intros a rs (Hrs & Hl & Hn)%E2. split_and!; [|done..]. destruct rs; [done|]. unfold len. simpl. lia.
Qed.

(** ** Late evidence *)

Lemma on_event_observed m c now trust : is_Some (dm_providers m !! cand_source c) →
  is_ok (CandidatePeer_validate c) = true →
  DiscoveryManager_on_event m (cand_source c) (CandidateObserved c) now trust =
  (Ok (), with_candidates m (CandidateSet_observe (dm_candidates m) c now trust
                               (supports_expiry m (cand_source c)) (provider_pinned m (cand_source c)))).
Proof.
  intros Hs Hv. unfold DiscoveryManager_on_event.
  rewrite bool_decide_eq_false_2; [|by apply not_eq_None_Some]. rewrite bool_decide_eq_true_2 //. by rewrite Hv.
Qed.
Lemma holds_threshold m p a r : disc_inv m → holds (dm_candidates m) p a r →
  pv_observed_at r ≤ evidence_threshold (dm_candidates m) p (pv_source r).
Proof.
  intros Hm (e & Hp & Hr). pose proof (ei_records _ _ (dv_entries _ Hm _ _ Hp) a r Hr).
  unfold evidence_threshold, applied_of. rewrite Hp. cbn [mbind option_bind]. lia.
Qed.

(** C27: evidence does not travel back in time. Once a source's word about a
    peer has been recorded, then after any further history, even one that
    retracted it, let it expire, or evicted the peer, a report of that source
    about that peer observed earlier restores nothing: every record of the
    peer after it was there before it. (While the table of marks of removed
    peers is below its 4096.) *)
Theorem late_evidence_inert (ops1 ops2 : list disc_op) (p : TransportIdentity) (a : bytes) (r : Provenance)
    (c : CandidatePeer) (now : N) (trust : PeerTrustPolicy) (b : bytes) (x : Provenance) :
  let m := disc_run (ops1 ++ ops2) in
  holds (dm_candidates (disc_run ops1)) p a r →
  msize (cs_high_water (dm_candidates m)) < MAX_HIGH_WATER →
  cand_peer_id c = p → cand_source c = pv_source r → cand_observed_at c < pv_observed_at r →
  holds (dm_candidates (DiscoveryManager_on_event m (pv_source r) (CandidateObserved c) now trust).2) p b x →
  holds (dm_candidates m) p b x.
Proof.
  intros m Hr Hroom <- Hs Hold. pose proof (disc_run_inv (ops1 ++ ops2)) as Hm. fold m in Hm.
  assert (evidence_threshold (dm_candidates (disc_run ops1)) (cand_peer_id c) (pv_source r) ≤
    evidence_threshold (dm_candidates m) (cand_peer_id c) (pv_source r)) as Hge.
  { destruct (disc_run_from (disc_run ops1) ops2 (disc_run_inv ops1)) as [_ [_ Hf]].
    unfold m, disc_run in *. rewrite foldl_app in Hroom |- *. by apply Hf. }
  pose proof (holds_threshold _ _ _ _ (disc_run_inv ops1) Hr) as Hth.
  unfold DiscoveryManager_on_event. destruct (bool_decide (_ !! _ = None)); [done|].
  rewrite bool_decide_eq_true_2 //. cbn [negb]. destruct (is_ok _); [|done]. cbn [negb snd dm_candidates with_candidates].
  intros [Hh|(_ & Hst & _)]%observe_holds; [done| |apply Hm]. unfold is_stale in Hst.
  apply N.ltb_ge in Hst. rewrite Hs in Hst. lia.
Qed.

(** ** Retraction *)

Lemma retract_holds m p s addrs now trust q a r : is_Some (dm_providers m !! s) →
  holds (dm_candidates (DiscoveryManager_on_event m s (CandidateExpired p s addrs) now trust).2) q a r ↔
  holds (dm_candidates m) q a r ∧ ¬ (q = p ∧ pv_source r = s ∧ (addrs = ∅ ∨ a ∈ addrs)).
Proof.
  intros Hs. unfold DiscoveryManager_on_event.
  rewrite bool_decide_eq_false_2; [|by apply not_eq_None_Some]. rewrite bool_decide_eq_true_2 //.
  cbn [negb snd dm_candidates with_candidates]. rewrite retract_eq. unfold holds.
  destruct (cs_peers (dm_candidates m) !! p) as [e|] eqn:Hp; [|naive_solver]. cbv zeta.
  change (if bool_decide _ then _ else _) with (settle_entry (dm_candidates m) p (retract_entry s addrs e)).
  setoid_rewrite settle_entry_lookup. destruct (decide (q = p)) as [->|Hne]; [|naive_solver].
  assert (has_record (retract_entry s addrs e) a r ↔ has_record e a r ∧ ¬ (pv_source r = s ∧ (addrs = ∅ ∨ a ∈ addrs))) as Hr.
  { rewrite retract_entry_has. unfold retract_keep. rewrite negb_true_iff andb_false_iff orb_false_iff.
    rewrite !bool_decide_eq_false. apply and_iff_compat_l. destruct (decide (pv_source r = s)), (decide (addrs = ∅)), (decide (a ∈ addrs)); naive_solver. }
  case_decide as He.
  - split; [naive_solver|]. intros [(e' & He' & Hh) Hn]. exfalso. rewrite Hp in He'. injection He' as <-.
    assert (has_record (retract_entry s addrs e) a r) as (rs & Hrs & _); [|by rewrite He in Hrs].
    apply Hr. split; [done|]. intros [??]. by apply Hn.
  - naive_solver.
Qed.

(** a retraction takes exactly what its source said. After a registered
    provider retracts a peer, or some of its addresses, the records held are
    those held before except that source's for that peer at the named
    addresses (or at all of them, when none is named): no other source, peer
    or address loses anything, and an address goes only when its last
    supporter does. *)
Theorem retraction_exact (ops : list disc_op) (p : TransportIdentity) (s : bytes) (addrs : gset bytes)
    (now : N) (trust : PeerTrustPolicy) (q : TransportIdentity) (a : bytes) (r : Provenance) :
  let m := disc_run ops in
  is_Some (dm_providers m !! s) →
  holds (dm_candidates (DiscoveryManager_on_event m s (CandidateExpired p s addrs) now trust).2) q a r ↔
  holds (dm_candidates m) q a r ∧ ¬ (q = p ∧ pv_source r = s ∧ (addrs = ∅ ∨ a ∈ addrs)).
Proof. apply retract_holds. Qed.

(** ** Overflow *)

Lemma entry_expired_alt now e : entry_expired now e = true ↔ ∀ a r, has_record e a r → live_at now r = false.
Proof.
  unfold entry_expired. rewrite forallb_forall. split.
  - intros Hf a r (rs & Hrs & Hr). specialize (Hf rs). rewrite forallb_forall in Hf.
    apply negb_true_iff, Hf; [|by apply list_elem_of_In]. apply list_elem_of_In, list_elem_of_fmap.
    exists (a, rs). split; [done|]. by apply elem_of_btree_to_list.
  - intros Hf rs Hin. apply list_elem_of_In, list_elem_of_fmap in Hin as ([a rs'] & -> & Hin%elem_of_btree_to_list).
    apply forallb_forall. intros r Hr%list_elem_of_In. apply negb_true_iff, (Hf a). by exists rs'.
Qed.
Lemma protected_pinned cs now p e : len (configured_peers cs) ≤ MAX_CONFIGURED_RETAINED →
  cs_peers cs !! p = Some e → p ∉ protected_peers cs now → Entry_is_pinned e = false.
Proof.
  intros Hle Hp Hn. apply not_true_is_false. intros Hpin. apply Hn. unfold protected_peers.
  rewrite (proj2 (N.leb_le _ _) Hle). apply list_elem_of_fmap. exists (p, e). split; [done|].
  apply list_elem_of_filter. split; [done|]. by apply elem_of_btree_to_list.
Qed.

(** C28: overflow is not a way to clear the set. A report about one peer leaves the
    entry of every other peer as it was, or it costs exactly one of them and no
    more: then the set was full and the reported peer new to it, and the one that
    went had no live address at all, or else was untrusted, was not configured
    (while the configured fit their cap of 64), and was no more recently observed
    than the newcomer, unless the newcomer is itself configured. A trusted peer
    with a live address is never the price. *)
Theorem overflow_spares (ops : list disc_op) (c : CandidatePeer) (now : N) (trust : PeerTrustPolicy) :
  let m := disc_run ops in
  let cs := dm_candidates m in
  let cs' := dm_candidates (DiscoveryManager_on_event m (cand_source c) (CandidateObserved c) now trust).2 in
  (∀ q, q ≠ cand_peer_id c → cs_peers cs' !! q = cs_peers cs !! q) ∨
  ∃ v e, cs_peers cs !! v = Some e ∧ cs_peers cs' !! v = None ∧
    (∀ q, q ≠ cand_peer_id c → q ≠ v → cs_peers cs' !! q = cs_peers cs !! q) ∧
    msize (cs_peers cs) = 4096 ∧ cs_peers cs !! cand_peer_id c = None ∧
    ((∀ a r, has_record e a r → live_at now r = false) ∨
     (trusted trust v = false ∧
      (len (configured_peers cs) ≤ 64 → Entry_is_pinned e = false) ∧
      (Entry_recency e now ≤ cand_observed_at c ∨ provider_pinned m (cand_source c) = true))).
Proof.
  intros m cs cs'. pose proof (disc_run_inv ops) as Hm. fold m in Hm. revert cs'.
  unfold DiscoveryManager_on_event. destruct (bool_decide (_ !! _ = None)); [by left|].
  rewrite bool_decide_eq_true_2 //. cbn [negb]. destruct (is_ok _); [|by left]. cbn [negb snd dm_candidates with_candidates].
  destruct (observe_others cs c now trust (supports_expiry m (cand_source c)) (provider_pinned m (cand_source c)))
    as [Hk|(v & e & _ & Hv & Hgone & Hnew & Hfull & Hf & Hk)]; [apply Hm|by left|].
  right. exists v, e. split_and!; [done..|]. destruct Hf as [He|(Ht & Hp & _ & Hr)]; [left; by apply entry_expired_alt|right].
  split_and!; [done| |].
  - intros Hle. by eapply protected_pinned.
  - destruct Hr as [[Hpin _]|Hr]; [by right|by left].
Qed.

(** ** What a reader sees *)

Lemma address_provenance_Some now f a rs ap : address_provenance now f (a, rs) = Some ap →
  ap_address ap = a ∧ ∀ s, s ∈ ap_sources ap ↔ ∃ r, r ∈ rs ∧ live_at now r = true ∧ pv_source r = s.
Proof.
  unfold address_provenance. case_bool_decide; [done|]. intros [= <-]. split; [done|]. intros s.
  cbn [ap_sources]. rewrite sort_by_perm list_elem_of_fmap. cbn [fst snd]. split.
  - intros ([z r] & -> & (r' & [= -> ->] & [Hl Hr]%list_elem_of_filter)%list_elem_of_fmap). by exists r'.
  - intros (r & Hr & Hl & <-). eexists (_, r). split; [done|]. apply list_elem_of_fmap. exists r.
    split; [done|]. by apply list_elem_of_filter.
Qed.
Lemma aggregate_Some now f p e c : aggregate now f (p, e) = Some c →
  ag_peer_id c = p ∧ ag_addresses c ≠ [] ∧
  (∀ ap, ap ∈ ag_addresses c ↔ ∃ a rs, en_addresses e !! a = Some rs ∧ address_provenance now f (a, rs) = Some ap) ∧
  (∀ s, s ∈ ag_sources c ↔ ∃ ap, ap ∈ ag_addresses c ∧ s ∈ ap_sources ap) ∧
  StronglySorted (λ x y, key_leb (ap_best_priority x, ap_address x) (ap_best_priority y, ap_address y) = true)
    (ag_addresses c) ∧
  ag_protocol_observations c =
    (btree_to_list (foldl (merge_observation now (ag_sources c)) ∅ (btree_to_list (en_observations e)))).*2.
Proof.
  unfold aggregate. case_bool_decide as Hl; [done|]. intros [= <-].
  cbn [ag_peer_id ag_addresses ag_sources ag_protocol_observations snd fst] in *. split_and!; try done.
  - intros Hn. apply Hl. erewrite <- (Permutation_length (sort_by_perm _ _)), Hn. done.
  - intros ap. rewrite sort_by_perm list_elem_of_omap. split.
    + intros ([a rs] & Hin%elem_of_btree_to_list & E). by exists a, rs.
    + intros (a & rs & Hin & E). exists (a, rs). split; [by apply elem_of_btree_to_list|done].
  - intros s. rewrite elem_of_list_to_set list_elem_of_bind. setoid_rewrite sort_by_perm. naive_solver.
  - apply sort_by_sorted.
    + intros x y. exact (key_leb_total (ap_best_priority x, ap_address x) (ap_best_priority y, ap_address y)).
    + intros x y z. exact (key_leb_trans (ap_best_priority x, ap_address x) (ap_best_priority y, ap_address y)
        (ap_best_priority z, ap_address z)).
Qed.
Lemma elem_of_candidates m now c : c ∈ DiscoveryManager_candidates m now ↔
  ∃ p e, cs_peers (dm_candidates m) !! p = Some e ∧
    aggregate now (DiscoveryManager_provider_priority m) (p, e) = Some c.
Proof.
  unfold DiscoveryManager_candidates, CandidateSet_candidates. rewrite list_elem_of_omap. split.
  - intros ([p e] & Hin%elem_of_btree_to_list & E). by exists p, e.
  - intros (p & e & Hin & E). exists (p, e). split; [by apply elem_of_btree_to_list|done].
Qed.
(** The claims merged name only sources that support an address. *)
Lemma merged_sources now sources l mg :
  (∀ k mo, mg !! k = Some mo → ∀ s, s ∈ mo_sources mo → s ∈ sources) →
  ∀ k mo, foldl (merge_observation now sources) mg l !! k = Some mo → ∀ s, s ∈ mo_sources mo → s ∈ sources.
Proof.
  revert mg. induction l as [|[[pr src] [[sup a] x]] l IH]; intros mg Hm; [done|]. cbn [foldl]. apply IH.
  intros k mo. unfold merge_observation. destruct (_ || _) eqn:Ec; [by apply Hm|].
  apply orb_false_iff in Ec as [_ Hs%negb_false_iff%bool_decide_eq_true].
  destruct (decide ((pr, sup) = k)) as [<-|Hne]; [|rewrite lookup_insert_ne //; by apply Hm].
  rewrite lookup_insert_eq. intros [= <-] s. cbn [mo_sources].
  intros [Hin| ->%list_elem_of_singleton]%elem_of_app; [|done].
  destruct (mg !! (pr, sup)) as [mo0|] eqn:E; [by eapply Hm|by apply elem_of_nil in Hin].
Qed.

(** ** Provenance *)

(** The report a record came from. *)
Definition attested (ops : list disc_op) (p : TransportIdentity) (a : bytes) (r : Provenance) : Prop :=
  ∃ ops1 ops2 c now trust,
    ops = ops1 ++ DEvent (pv_source r) (CandidateObserved c) now trust :: ops2 ∧
    (DiscoveryManager_on_event (disc_run ops1) (pv_source r) (CandidateObserved c) now trust).1 = Ok () ∧
    cand_peer_id c = p ∧ cand_source c = pv_source r ∧ a ∈ cand_addresses c ∧
    pv_observed_at r = cand_observed_at c ∧
    pv_expires_at r = observation_expiry c (supports_expiry (disc_run ops1) (pv_source r)).
Lemma attested_snoc ops op p a r : attested ops p a r → attested (ops ++ [op]) p a r.
Proof.
  intros (ops1 & ops2 & c & now & trust & -> & H). exists ops1, (ops2 ++ [op]), c, now, trust.
  split; [|done]. by rewrite -app_assoc.
Qed.
Lemma holds_attested ops p a r : holds (dm_candidates (disc_run ops)) p a r → attested ops p a r.
Proof.
  revert p a r. induction ops as [|op ops IH] using rev_ind; intros p a r; [by intros (e & He & _)|].
  assert (holds (dm_candidates (disc_run ops)) p a r → attested (ops ++ [op]) p a r) as Hold.
  { intros Hh. by apply attested_snoc, IH. }
  rewrite disc_run_snoc. pose proof (disc_run_inv ops) as Hm.
  destruct op as [d priority|source event now trust|now]; cbn [disc_step].
  - unfold DiscoveryManager_register. destruct (ProviderDescriptor_validate d); [|done]. by destruct (_ && _).
  - destruct (DiscoveryManager_on_event (disc_run ops) source event now trust) as [res m'] eqn:E. cbn [snd].
    pose proof E as Eok. unfold DiscoveryManager_on_event in E.
    destruct (bool_decide _) eqn:Hs; [by injection E as <- <-|]. destruct event as [c|q s addrs|s health].
    + case_bool_decide as Hc; cbn [negb] in E; [|by injection E as <- <-].
      destruct (is_ok _); cbn [negb] in E; [|by injection E as <- <-]. injection E as <- <-.
      intros [Hh|(-> & _ & Ha & Hw)]%observe_holds; [by apply Hold| |apply Hm].
      destruct Hw as (W1 & W2 & W3). cbn in W1, W2, W3. exists ops, [], c, now, trust.
      rewrite W1 Hc. rewrite Eok. done.
    + case_bool_decide as Hc; cbn [negb] in E; [|by injection E as <- <-]. injection E as <- <-. subst s.
      intros Hh. apply Hold, (retract_holds (disc_run ops) q source addrs now trust p a r).
      * apply not_eq_None_Some. by apply bool_decide_eq_false in Hs.
      * by rewrite Eok.
    + case_bool_decide as Hc; cbn [negb] in E; injection E as <- <-; [|done].
      unfold set_health. by destruct (dm_providers _ !! source).
  - intros (e & (e0 & Hp & ->)%sweep_lookup & [Hr _]%sweep_entry_has). apply Hold. by exists e0.
Qed.

(** C26: nothing a consumer reads is without an author. Every candidate read at
    any time after any history has an address, and its addresses come best
    priority first; each source listed beside an address is a registered
    provider that, in a validated report accepted under its own name, said
    that very peer was at that very address, and whose word has not lapsed;
    and protocol facts are listed only for sources that support an address. *)
Theorem candidates_attested (ops : list disc_op) (now : N) (c : AggregatedCandidate) :
  c ∈ DiscoveryManager_candidates (disc_run ops) now →
  ag_addresses c ≠ [] ∧
  StronglySorted (λ x y, key_leb (ap_best_priority x, ap_address x) (ap_best_priority y, ap_address y) = true)
    (ag_addresses c) ∧
  (∀ ap s, ap ∈ ag_addresses c → s ∈ ap_sources ap →
     ∃ r, pv_source r = s ∧ now < pv_expires_at r ∧ attested ops (ag_peer_id c) (ap_address ap) r) ∧
  (∀ mo s, mo ∈ ag_protocol_observations c → s ∈ mo_sources mo →
     ∃ ap, ap ∈ ag_addresses c ∧ s ∈ ap_sources ap).
Proof.
  intros (p & e & Hp & Hag)%elem_of_candidates.
  apply aggregate_Some in Hag as (-> & Hne & Hap & Hsrc & Hsort & Hobs). split_and!; [done..| |].
  - intros ap s (a & rs & Hrs & E)%Hap Hs. apply address_provenance_Some in E as [<- Hin].
    apply Hin in Hs as (r & Hr & Hl & <-). exists r. split_and!; [done|by apply N.ltb_lt|].
    apply holds_attested. exists e. split; [done|]. by exists rs.
  - intros mo s Hmo Hs. rewrite Hobs in Hmo. apply list_elem_of_fmap in Hmo as ([k mo'] & -> & Hin%elem_of_btree_to_list).
    apply Hsrc. eapply merged_sources; [|exact Hin|exact Hs]. intros k' mo0. by rewrite lookup_empty.
Qed.

(** ** Sweeping *)

Lemma live_later t now r : t ≤ now → live_at now r = true → live_at t r = true.
Proof. unfold live_at. rewrite !N.ltb_lt. lia. Qed.
Lemma live_live t now (rs : list Provenance) : t ≤ now →
  filter (λ r, live_at now r = true) (filter (λ r, live_at t r = true) rs) = filter (λ r, live_at now r = true) rs.
Proof. intros Ht. apply list_filter_filter_l. intros r. by apply live_later. Qed.
(** What is left of an address after a sweep. *)
Definition swept (t : N) (a : bytes) (rs : list Provenance) : option (list Provenance) :=
  let rs := filter (λ r, live_at t r = true) rs in if bool_decide (rs = []) then None else Some rs.
Lemma swept_addresses t m : retain_records (λ _, live_at t) m = map_imap (swept t) m.
Proof.
  apply map_eq. intros a. rewrite map_lookup_imap. unfold swept. apply option_eq. intros rs. rewrite retain_lookup.
  destruct (m !! a) as [rs0|]; simpl; [|naive_solver]. case_bool_decide; naive_solver.
Qed.
Lemma omap_swept t now f (l : list (bytes * list Provenance)) : t ≤ now →
  omap (address_provenance now f) (omap (λ kv, pair kv.1 <$> swept t kv.1 kv.2) l) = omap (address_provenance now f) l.
Proof.
  intros Ht. rewrite omap_compose. apply omap_pointwise. intros [a rs]. unfold swept, address_provenance.
  cbn [fst snd]. case_bool_decide as He; cbn [fmap option_fmap option_map mbind option_bind fst snd].
  - rewrite -(live_live t now rs Ht) He. by rewrite bool_decide_eq_true_2.
  - by rewrite (live_live t now rs Ht).
Qed.
Lemma records_swept t (l : list (bytes * list Provenance)) : (omap (λ kv, pair kv.1 <$> swept t kv.1 kv.2) l).*2 ≫= id =
  filter (λ r, live_at t r = true) (l.*2 ≫= id).
Proof.
  induction l as [|[a rs] l IH]; [done|]. cbn [omap list_omap fst snd]. unfold swept at 1.
  rewrite fmap_cons bind_cons filter_app -IH. cbn [snd id]. case_bool_decide as He; [by rewrite He|done].
Qed.
Lemma all_records_swept t e : all_records (sweep_entry t e) = filter (λ r, live_at t r = true) (all_records e).
Proof.
  unfold all_records. cbn [sweep_entry Entry_drop_orphaned_facts prune_observations prune_addresses
    with_observations with_addresses en_addresses]. by rewrite swept_addresses btree_to_list_imap records_swept.
Qed.
Lemma recency_swept t now e : t ≤ now → Entry_recency (sweep_entry t e) now = Entry_recency e now.
Proof. intros Ht. unfold Entry_recency. by rewrite all_records_swept live_live. Qed.

(** Facts skipped anyway may be dropped first. *)
Lemma merge_filter now sources (P : (ProtocolId * bytes) * (bool * N * N) → Prop) `{!∀ x, Decision (P x)} l mg :
  (∀ k f, ¬ P (k, f) → f.2 ≤ now ∨ k.2 ∉ sources) →
  foldl (merge_observation now sources) mg (filter P l) = foldl (merge_observation now sources) mg l.
Proof.
  intros HP. revert mg. induction l as [|[k f] l IH]; intros mg; [done|]. rewrite filter_cons.
  case_decide as Hk; [apply IH|]. cbn [foldl]. rewrite IH. f_equal.
  destruct k as [pr src], f as [[sup a] x]. unfold merge_observation. destruct (HP _ _ Hk) as [Hx|Hs]; cbn in *.
  - by rewrite (proj2 (N.leb_le _ _) Hx).
  - by rewrite (bool_decide_eq_false_2 (src ∈ sources)) // orb_true_r.
Qed.
Lemma aggregate_swept t now f p e : t ≤ now → aggregate now f (p, sweep_entry t e) = aggregate now f (p, e).
Proof.
  intros Ht. unfold aggregate. cbn [fst snd]. rewrite recency_swept //.
  assert (omap (address_provenance now f) (btree_to_list (en_addresses (sweep_entry t e))) =
    omap (address_provenance now f) (btree_to_list (en_addresses e))) as ->.
  { change (en_addresses (sweep_entry t e)) with (retain_records (λ _, live_at t) (en_addresses e)).
    by rewrite swept_addresses btree_to_list_imap omap_swept. }
  case_bool_decide; [done|]. do 4 f_equal.
  set (sources := list_to_set (_ ≫= ap_sources) : gset bytes).
  assert (∀ s, s ∈ sources → s ∈ live_sources (prune_observations t (prune_addresses t e))) as Hsub.
  { intros s. unfold sources. rewrite elem_of_list_to_set list_elem_of_bind.
    intros (ap & Hs & ([a rs] & Hin%elem_of_btree_to_list & E)%list_elem_of_omap).
    apply address_provenance_Some in E as [_ E]. apply E in Hs as (r & Hr & Hl & <-).
    unfold live_sources. apply elem_of_list_to_set, list_elem_of_fmap. exists r. split; [done|].
    apply elem_of_all_records. exists a. apply (retain_has e (λ _, live_at t)). split; [by exists rs|].
    by eapply live_later. }
  unfold sweep_entry at 1. cbn [Entry_drop_orphaned_facts with_observations en_observations prune_observations].
  rewrite !btree_to_list_filter. rewrite merge_filter; [apply merge_filter|].
  - intros k x Hx. left. unfold fact_live in Hx. apply not_true_is_false, N.ltb_ge in Hx. cbn in Hx. lia.
  - intros k x Hx. right. intros Hk. by apply Hx, Hsub.
Qed.
Lemma sweep_peers cs t : cs_peers (CandidateSet_sweep cs t) =
  map_imap (λ _ e, if bool_decide (en_addresses (sweep_entry t e) = ∅) then None else Some (sweep_entry t e))
    (cs_peers cs).
Proof.
  apply map_eq. intros p. rewrite map_lookup_imap. unfold CandidateSet_sweep. rewrite removes_lookup.
  cbn [cs_peers with_peers]. rewrite lookup_fmap.
  destruct (cs_peers cs !! p) as [e|] eqn:Hp; simpl; [|by case_decide].
  case_decide as Hl; case_bool_decide as He; try done.
  - exfalso. apply list_elem_of_fmap in Hl as ([q e'] & -> & [Hn Hin%elem_of_btree_to_list]%list_elem_of_filter).
    cbn in *. rewrite lookup_fmap Hp in Hin. injection Hin as <-. done.
  - exfalso. apply Hl, list_elem_of_fmap. exists (p, sweep_entry t e). split; [done|]. apply list_elem_of_filter.
    split; [done|]. apply elem_of_btree_to_list. by rewrite lookup_fmap Hp.
Qed.

(** sweeping is invisible to readers. What a consumer reads at a time does
    not depend on whether, when or how often expired records were swept
    before: the read judges expiry itself. *)
Theorem sweep_invisible (m : DiscoveryManager) (t now : N) : t ≤ now →
  DiscoveryManager_candidates (DiscoveryManager_sweep m t) now = DiscoveryManager_candidates m now.
Proof.
  intros Ht. unfold DiscoveryManager_candidates, CandidateSet_candidates.
  cbn [DiscoveryManager_sweep dm_candidates with_candidates]. rewrite sweep_peers btree_to_list_imap.
  change (DiscoveryManager_provider_priority (DiscoveryManager_sweep m t))
    with (DiscoveryManager_provider_priority m).
  generalize (DiscoveryManager_provider_priority m). intros f.
  rewrite omap_compose. apply omap_pointwise. intros [p e]. cbn [fst snd].
  rewrite -(aggregate_swept t now f p e Ht). case_bool_decide as He; [|done]. unfold aggregate. cbn [snd].
  by rewrite He.
Qed.

(** ** A short history *)

Definition lan : ProviderDescriptor :=
  MkProviderDescriptor (bs "mdns") (bs "1.0") None ScopeLocal Passive true false.
Definition disc_peer (n : N) : TransportIdentity := MkTransportIdentity [byte_of (65 + n)].
Definition report (n observed_at : N) : CandidatePeer :=
  MkCandidatePeer (disc_peer n) {[bs "/ip4/10.0.0.1"]} (bs "mdns") observed_at None ∅.
Definition seen : list disc_op :=
  [DRegister lan 10; DEvent (bs "mdns") (CandidateObserved (report 1 100)) 110 PeerTrustPolicy_default;
   DEvent (bs "mdns") (CandidateObserved (report 2 120)) 130 PeerTrustPolicy_default].
Definition gone : list disc_op :=
  [DEvent (bs "mdns") (CandidateExpired (disc_peer 1) (bs "mdns") ∅) 200 PeerTrustPolicy_default].
Definition seen_record : Provenance := MkProvenance (bs "mdns") 100 600100 false.
Definition entry_of (ops : list disc_op) (n : N) : Entry :=
  default Entry_default (cs_peers (dm_candidates (disc_run ops)) !! disc_peer n).
Lemma seen_holds : holds (dm_candidates (disc_run seen)) (disc_peer 1) (bs "/ip4/10.0.0.1") seen_record.
Proof.
  exists (entry_of seen 1). split; [by vm_compute|]. exists [seen_record]. split; [by vm_compute|]. by left.
Qed.

Definition late_record : Provenance := MkProvenance (bs "mdns") 90 600090 false.
Lemma late_evidence_inert_witness :
  ¬ holds (dm_candidates (DiscoveryManager_on_event (disc_run (seen ++ gone)) (bs "mdns")
             (CandidateObserved (report 1 90)) 210 PeerTrustPolicy_default).2)
      (disc_peer 1) (bs "/ip4/10.0.0.1") late_record.
Proof.
  intros Hh. assert (holds (dm_candidates (disc_run (seen ++ gone))) (disc_peer 1) (bs "/ip4/10.0.0.1") late_record)
    as (e & He & _).
  { refine (late_evidence_inert seen gone (disc_peer 1) (bs "/ip4/10.0.0.1") seen_record (report 1 90) 210
      PeerTrustPolicy_default (bs "/ip4/10.0.0.1") late_record seen_holds _ eq_refl eq_refl _ Hh); by vm_compute. }
  revert He. by vm_compute.
Defined.
Lemma retraction_exact_witness :
  ¬ holds (dm_candidates (DiscoveryManager_on_event (disc_run seen) (bs "mdns")
      (CandidateExpired (disc_peer 1) (bs "mdns") ∅) 200 PeerTrustPolicy_default).2)
      (disc_peer 1) (bs "/ip4/10.0.0.1") seen_record.
Proof.
  rewrite (retraction_exact seen (disc_peer 1) (bs "mdns") ∅ 200 PeerTrustPolicy_default (disc_peer 1)
    (bs "/ip4/10.0.0.1") seen_record).
  - intros [_ Hn]. apply Hn. split_and!; [done|done|by left].
  - apply (bool_decide_eq_true_1 (is_Some _)). by vm_compute.
Defined.
Definition first_candidate (ops : list disc_op) (now : N) : option AggregatedCandidate :=
  head (DiscoveryManager_candidates (disc_run ops) now).
Lemma candidates_attested_witness : ∃ c, first_candidate seen 150 = Some c ∧ ag_addresses c ≠ [].
Proof.
  destruct (DiscoveryManager_candidates (disc_run seen) 150) as [|c l] eqn:E; [by vm_compute in E|].
  exists c. split; [unfold first_candidate; by rewrite E|].
  refine (proj1 (candidates_attested seen 150 c _)). rewrite E. by left.
Defined.
Lemma sweep_invisible_witness :
  DiscoveryManager_candidates (DiscoveryManager_sweep (disc_run seen) 600110) 600110 =
  DiscoveryManager_candidates (disc_run seen) 600110.
Proof. apply (sweep_invisible (disc_run seen) 600110 600110). by vm_compute. Defined.
