(* ===== verification/NetAddr.v ===== *)
(** * Textual IP addresses

    What the runtime uses of [std::net]: the recursive-descent parser behind
    [parse::<IpAddr>()], [parse::<SocketAddr>()], [parse::<Ipv4Addr>()] and
    [parse::<Ipv6Addr>()] (backtracking on failure, the whole input consumed),
    the [Display] of both families (the longest run of zero groups
    compressed, an IPv4-mapped address in dotted form), [u16::from_str], and
    the address classes.  An address is its octets: four, or sixteen. *)
From S2P Require Import Prelude Ids.
Local Open Scope N_scope.

Inductive IpAddr := V4 (octets : bytes) | V6 (octets : bytes).
#[global] Instance IpAddr_eq_dec : EqDecision IpAddr.
Proof. solve_decision. Defined.

Definition ip_wf (ip : IpAddr) : Prop :=
  match ip with V4 o => length o = 4%nat | V6 o => length o = 16%nat end.

(** ** Reading *)

(** [char::to_digit] on the ASCII range; other bytes are no digit. *)
Definition to_digit (radix : N) (b : byte) : option N :=
  let v := byte_val b in
  let d := if (48 <=? v) && (v <=? 57) then v - 48
           else if (97 <=? v) && (v <=? 122) then v - 87
           else if (65 <=? v) && (v <=? 90) then v - 55 else 36 in
  if d <? radix then Some d else None.

(** The longest prefix of digits. *)
Fixpoint take_digits (radix : N) (s : bytes) : list N * bytes :=
  match s with
  | [] => ([], [])
  | b :: s' =>
      match to_digit radix b with
      | Some d => let '(ds, rest) := take_digits radix s' in (d :: ds, rest)
      | None => ([], s)
      end
  end.
Definition digits_value (radix : N) (ds : list N) : N := foldl (λ acc d, acc * radix + d) 0 ds.

(** [Parser::read_number]: too many digits, no digit, a zero prefix where it
    is not allowed, or a value over the width is a failure. *)
Definition read_number (radix : N) (max_digits : option nat) (allow_zero_prefix : bool) (max : N)
    (s : bytes) : option (N * bytes) :=
  let '(ds, rest) := take_digits radix s in
  if match max_digits with Some m => (m <? length ds)%nat | None => false end then None
  else match ds with
       | [] => None
       | d :: ds' =>
           if negb allow_zero_prefix && (d =? 0) && negb (bool_decide (ds' = [])) then None
           else let v := digits_value radix ds in if v <=? max then Some (v, rest) else None
       end.

Definition read_given_char (c : byte) (s : bytes) : option bytes :=
  match s with b :: s' => if bool_decide (b = c) then Some s' else None | [] => None end.

(** [Parser::read_separator] with [index > 0] as [sep]. *)
Definition read_separator {A} (c : byte) (sep : bool) (inner : bytes → option (A * bytes))
    (s : bytes) : option (A * bytes) :=
  if sep then read_given_char c s ≫= inner else inner s.

Fixpoint read_octets (n : nat) (sep : bool) (s : bytes) : option (bytes * bytes) :=
  match n with
  | O => Some ([], s)
  | S n =>
      '(v, s) ← read_separator x2e sep (read_number 10 (Some 3%nat) false u8_max) s;
      '(os, s) ← read_octets n true s;
      Some (byte_of v :: os, s)
  end.
Definition read_ipv4 : bytes → option (bytes * bytes) := read_octets 4 false.

(** [read_groups]: colon-separated 16-bit groups, an embedded IPv4 address
    where two groups are left.  Groups are kept as their two octets. *)
Fixpoint read_groups (limit : nat) (sep : bool) (s : bytes) : list bytes * bool * bytes :=
  match limit with
  | O => ([], false, s)
  | S limit =>
      match (if (1 <=? limit)%nat then read_separator x3a sep read_ipv4 s else None) with
      | Some (o, s') => ([take 2 o; drop 2 o], true, s')
      | None =>
          match read_separator x3a sep (read_number 16 (Some 4%nat) true u16_max) s with
          | Some (g, s') =>
              let '(gs, v4, s'') := read_groups limit true s' in (to_be 2 g :: gs, v4, s'')
          | None => ([], false, s)
          end
      end
  end.

Definition read_ipv6 (s : bytes) : option (bytes * bytes) :=
  let '(head, head_v4, s) := read_groups 8 false s in
  if (length head =? 8)%nat then Some (concat head, s)
  else if head_v4 then None
  else
    s ← read_given_char x3a s;
    s ← read_given_char x3a s;
    let '(tail, _, s) := read_groups (8 - (length head + 1)) false s in
    Some (concat head ++ replicate (2 * (8 - length head - length tail)) x00 ++ concat tail, s).

Definition read_ip (s : bytes) : option (IpAddr * bytes) :=
  match read_ipv4 s with
  | Some (o, s) => Some (V4 o, s)
  | None => match read_ipv6 s with Some (o, s) => Some (V6 o, s) | None => None end
  end.

Definition read_port (s : bytes) : option (N * bytes) :=
  read_given_char x3a s ≫= read_number 10 None true u16_max.
Definition read_scope_id (s : bytes) : option (N * bytes) :=
  read_given_char x25 s ≫= read_number 10 None true u32_max.

Definition read_socket_v4 (s : bytes) : option (IpAddr * bytes) :=
  '(o, s) ← read_ipv4 s; '(_, s) ← read_port s; Some (V4 o, s).
Definition read_socket_v6 (s : bytes) : option (IpAddr * bytes) :=
  s ← read_given_char x5b s;
  '(o, s) ← read_ipv6 s;
  let s := match read_scope_id s with Some (_, s) => s | None => s end in
  s ← read_given_char x5d s;
  '(_, s) ← read_port s;
  Some (V6 o, s).
(** The address of a socket address; the port is read and dropped. *)
Definition read_socket (s : bytes) : option (IpAddr * bytes) :=
  match read_socket_v4 s with Some r => Some r | None => read_socket_v6 s end.

(** [Parser::parse_with]: nothing may be left. *)
Definition parse_with {A} (inner : bytes → option (A * bytes)) (s : bytes) : option A :=
  match inner s with Some (a, []) => Some a | _ => None end.

Definition parse_ip : bytes → option IpAddr := parse_with read_ip.
Definition parse_socket_ip : bytes → option IpAddr := parse_with read_socket.
(** No text longer than [255.255.255.255] is tried. *)
Definition parse_ipv4 (s : bytes) : option bytes :=
  if 15 <? len s then None else parse_with read_ipv4 s.
Definition parse_ipv6 : bytes → option bytes := parse_with read_ipv6.

(** [u16::from_str]: an optional [+], at least one digit, no overflow. *)
Definition parse_u16 (s : bytes) : option N :=
  let ds := match s with
            | b :: ((_ :: _) as rest) => if bool_decide (b = x2b) then rest else s
            | _ => s
            end in
  parse_with (read_number 10 None true u16_max) ds.

(** ** Printing *)

Definition digit_char (d : N) : byte := byte_of (if d <? 10 then 48 + d else 87 + d).
(** [{}] of a [u8] and [{:x}] of a [u16]: no leading zero. *)
Definition u8_digits (v : N) : list N :=
  if v <? 10 then [v] else if v <? 100 then [v / 10; v mod 10]
  else [v / 100; v / 10 mod 10; v mod 10].
Definition hex_digits (v : N) : list N :=
  if v <? 16 then [v] else if v <? 256 then [v / 16; v mod 16]
  else if v <? 4096 then [v / 256; v / 16 mod 16; v mod 16]
  else [v / 4096; v / 256 mod 16; v / 16 mod 16; v mod 16].
Definition show_u8 (v : N) : bytes := digit_char <$> u8_digits v.
Definition show_hex (v : N) : bytes := digit_char <$> hex_digits v.

Fixpoint intersperse (c : byte) (l : list bytes) : bytes :=
  match l with
  | [] => []
  | [x] => x
  | x :: l => x ++ c :: intersperse c l
  end.

Definition display_v4 (o : bytes) : bytes := intersperse x2e ((λ b, show_u8 (byte_val b)) <$> o).

(** [Ipv6Addr::segments] and [Ipv6Addr::to_ipv4_mapped]: exactly
    [::ffff:a.b.c.d]. *)
Fixpoint segments (o : bytes) : list N :=
  match o with a :: b :: o => (256 * byte_val a + byte_val b) :: segments o | _ => [] end.
Definition to_ipv4_mapped (o : bytes) : option bytes :=
  if bool_decide (take 12 o = replicate 10 x00 ++ [xff; xff]) then Some (drop 12 o) else None.

(** The scan for the first longest run of zero segments, as (start, length). *)
Fixpoint zero_span (i : nat) (current longest : nat * nat) (segs : list N) : nat * nat :=
  match segs with
  | [] => longest
  | s :: segs =>
      if s =? 0 then
        let current := (if (current.2 =? 0)%nat then i else current.1, S current.2) in
        zero_span (S i) current (if (longest.2 <? current.2)%nat then current else longest) segs
      else zero_span (S i) (0%nat, 0%nat) longest segs
  end.

Definition display_v6 (o : bytes) : bytes :=
  match to_ipv4_mapped o with
  | Some v4 => bs "::ffff:" ++ display_v4 v4
  | None =>
      let segs := segments o in
      let '(start, n) := zero_span 0 (0%nat, 0%nat) (0%nat, 0%nat) segs in
      if (1 <? n)%nat
      then intersperse x3a (show_hex <$> take start segs) ++ bs "::"
           ++ intersperse x3a (show_hex <$> drop (start + n) segs)
      else intersperse x3a (show_hex <$> segs)
  end.

Example parse_examples :
  parse_ip (bs "198.51.100.7") = Some (V4 [byte_of 198; byte_of 51; byte_of 100; byte_of 7]) ∧
  parse_ip (bs "198.051.100.7") = None ∧
  parse_socket_ip (bs "[2001:db8::1%5]:4001") =
    Some (V6 ([x20; x01; x0d; xb8] ++ replicate 11 x00 ++ [x01])) ∧
  parse_ip (bs "::ffff:1.2.3.4") = Some (V6 (replicate 10 x00 ++ [xff; xff; x01; x02; x03; x04])) ∧
  parse_ip (bs "1:2:3:4:5:6:7::") = Some (V6 ([x00;x01;x00;x02;x00;x03;x00;x04;x00;x05;x00;x06;x00;x07;x00;x00])) ∧
  parse_ip (bs "1::2::3") = None ∧ parse_u16 (bs "+80") = Some 80 ∧ parse_u16 (bs "65536") = None ∧
  parse_u16 (bs "+") = None ∧
  display_v6 (replicate 16 x00) = bs "::" ∧
  display_v6 ([x20; x01; x0d; xb8] ++ replicate 11 x00 ++ [x01]) = bs "2001:db8::1" ∧
  display_v6 (replicate 10 x00 ++ [xff; xff; x01; x02; x03; x04]) = bs "::ffff:1.2.3.4".
Proof. by vm_compute. Qed.

(** ** What is parsed is well formed *)

Lemma read_octets_length n sep s o r : read_octets n sep s = Some (o, r) → length o = n.
Proof.
  revert sep s o r. induction n as [|n IH]; intros sep s o r; simpl; [by intros Heq; simplify_eq|].
  destruct (read_separator _ _ _ _) as [[v s']|]; simpl; [|done].
  destruct (read_octets n true s') as [[os s'']|] eqn:E; simpl; [|done].
  intros Heq; simplify_eq. simpl. f_equal. by eapply IH.
Qed.
Lemma read_groups_ok limit sep s gs v4 r :
  read_groups limit sep s = (gs, v4, r) → (length gs ≤ limit)%nat ∧ length (concat gs) = (2 * length gs)%nat.
Proof.
  revert sep s gs v4 r. induction limit as [|limit IH]; intros sep s gs v4 r; cbn [read_groups].
  { intros Heq; simplify_eq. done. }
  destruct (if (1 <=? limit)%nat then _ else None) as [[o s']|] eqn:E4.
  - intros Heq; simplify_eq. destruct (Nat.leb_spec 1 limit); [|done].
    assert (length o = 4%nat) as Ho.
    { unfold read_separator in E4. destruct sep; [|by eapply read_octets_length].
      destruct (read_given_char _ _); simpl in E4; [|done]. by eapply read_octets_length. }
    cbn [concat length]. rw !length_app length_take length_drop Ho. simpl. lia.
  - clear E4. destruct (read_separator _ _ _ _) as [[g s']|].
    + destruct (read_groups limit true s') as [[gs' v4'] s''] eqn:E. intros Heq; simplify_eq.
      apply IH in E as [H1 H2]. cbn [concat length]. rw length_app H2 length_to_be. lia.
    + intros Heq; simplify_eq. simpl. lia.
Qed.
Lemma read_ipv6_length s o r : read_ipv6 s = Some (o, r) → length o = 16%nat.
Proof.
  unfold read_ipv6. destruct (read_groups 8 false s) as [[head v4] s1] eqn:E1.
  apply read_groups_ok in E1 as [H1 H2]. destruct (Nat.eqb_spec (length head) 8) as [H8|H8].
  { intros Heq; simplify_eq. lia. }
  destruct v4; [done|]. destruct (read_given_char _ s1) as [s2|]; simpl; [|done].
  destruct (read_given_char _ s2) as [s3|]; simpl; [|done].
  destruct (read_groups (8 - (length head + 1)) false s3) as [[tl v4] s4] eqn:E2.
  apply read_groups_ok in E2 as [H3 H4]. intros Heq; simplify_eq.
  rw !length_app H2 H4 length_replicate. lia.
Qed.
Lemma read_ip_wf s ip r : read_ip s = Some (ip, r) → ip_wf ip.
Proof.
  unfold read_ip. destruct (read_ipv4 s) as [[o s']|] eqn:E4.
  - intros Heq; simplify_eq. by apply read_octets_length in E4.
  - destruct (read_ipv6 s) as [[o s']|] eqn:E6; [|done]. intros Heq; simplify_eq. by apply read_ipv6_length in E6.
Qed.
Lemma read_socket_wf s ip r : read_socket s = Some (ip, r) → ip_wf ip.
Proof.
  unfold read_socket, read_socket_v4, read_socket_v6.
  destruct (read_ipv4 s) as [[o s1]|] eqn:E4; simpl.
  - apply read_octets_length in E4. destruct (read_port s1) as [[p s2]|]; simpl; [by intros Heq; simplify_eq|].
    destruct (read_given_char x5b s) as [s3|]; simpl; [|done].
    destruct (read_ipv6 s3) as [[o6 s4]|] eqn:E6; simpl; [|done]. apply read_ipv6_length in E6.
    destruct (read_given_char x5d _) as [s5|]; simpl; [|done].
    destruct (read_port s5) as [[p s6]|]; simpl; [by intros Heq; simplify_eq|done].
  - destruct (read_given_char x5b s) as [s3|]; simpl; [|done].
    destruct (read_ipv6 s3) as [[o6 s4]|] eqn:E6; simpl; [|done]. apply read_ipv6_length in E6.
    destruct (read_given_char x5d _) as [s5|]; simpl; [|done].
    destruct (read_port s5) as [[p s6]|]; simpl; [by intros Heq; simplify_eq|done].
Qed.
Lemma parse_with_Some {A} (f : bytes → option (A * bytes)) s a :
  parse_with f s = Some a ↔ f s = Some (a, []).
Proof. unfold parse_with. destruct (f s) as [[a' [|b r]]|]; naive_solver. Qed.
Lemma parsed_wf s ip : parse_socket_ip s = Some ip ∨ parse_ip s = Some ip → ip_wf ip.
Proof.
  unfold parse_socket_ip, parse_ip. rw !parse_with_Some.
  intros [H|H]; [by eapply read_socket_wf|by eapply read_ip_wf].
Qed.

(** ** Numbers read back *)

(** [rest] does not continue a number. *)
Definition stops (radix : N) (rest : bytes) : Prop :=
  match rest with [] => True | b :: _ => to_digit radix b = None end.

Lemma all_below (n : nat) (p : N → bool) :
  forallb (λ k, p (N.of_nat k)) (seq 0 n) = true → ∀ v, v < N.of_nat n → p v = true.
Proof.
  intros Hall v Hv. rewrite <- (N2Nat.id v). rewrite forallb_forall in Hall. apply Hall.
  apply in_seq. lia.
Qed.
Lemma to_digit_char radix d :
  (radix = 10 ∨ radix = 16) → d < radix → to_digit radix (digit_char d) = Some d.
Proof.
  intros Hr Hd. pose (p r d := match to_digit r (digit_char d) with Some d' => d' =? d | None => false end).
  assert (p radix d = true) as Hp.
  { destruct Hr as [-> | ->]; [by apply (all_below 10 (p 10))|by apply (all_below 16 (p 16))]. }
  unfold p in Hp. destruct (to_digit radix (digit_char d)); [|done]. by apply N.eqb_eq in Hp as ->.
Qed.
Lemma take_digits_show radix ds rest :
  (radix = 10 ∨ radix = 16) → Forall (λ d, d < radix) ds → stops radix rest →
  take_digits radix ((digit_char <$> ds) ++ rest) = (ds, rest).
Proof.
  intros Hr Hds Hrest. induction Hds as [|d ds Hd _ IH]; simpl.
  - destruct rest as [|b rest]; [done|]. simpl in *. by rw Hrest.
  - rw to_digit_char // IH //.
Qed.

(** The digits printed for [v] are at most [m], have no zero prefix and denote
    [v]: checked on every value of the width. *)
Definition digits_good (radix : N) (m : nat) (v : N) (ds : list N) : bool :=
  forallb (λ d, d <? radix) ds && (length ds <=? m)%nat && (digits_value radix ds =? v) &&
  match ds with [] => false | d :: ds => negb (d =? 0) || bool_decide (ds = []) end.

Lemma u8_digits_good v : v < 256 → digits_good 10 3 v (u8_digits v) = true.
Proof. apply (all_below 256 (λ v, digits_good 10 3 v (u8_digits v))). by vm_compute. Qed.
Lemma hex_digits_good v : v < 65536 → digits_good 16 4 v (hex_digits v) = true.
Proof.
  intros Hv. pose (p v := digits_good 16 4 v (hex_digits v)). change (p v = true).
  pose (q b := forallb (λ k, p (256 * b + N.of_nat k)) (seq 0 256)).
  assert (q (v / 256) = true) as Hq.
  { apply (all_below 256 q); [by vm_compute|]. apply N.Div0.div_lt_upper_bound. lia. }
  rewrite (N.div_mod v 256); [|done]. exact (all_below 256 (λ w, p (256 * (v / 256) + w)) Hq (v mod 256) (N.mod_lt v 256 ltac:(done))).
Qed.

Lemma read_number_show radix m zero max v ds rest :
  (radix = 10 ∨ radix = 16) → digits_good radix m v ds = true → v ≤ max → stops radix rest →
  read_number radix (Some m) zero max ((digit_char <$> ds) ++ rest) = Some (v, rest).
Proof.
  intros Hr Hg Hmax Hrest. unfold digits_good in Hg.
  apply andb_prop in Hg as [[[Hf Hl]%andb_prop Hv]%andb_prop Hz].
  apply N.eqb_eq in Hv. apply Nat.leb_le in Hl. unfold read_number.
  rw take_digits_show //.
  2:{ apply Forall_forall. intros d Hd. rewrite forallb_forall in Hf.
      apply N.ltb_lt, Hf. by apply list_elem_of_In. }
  rewrite -> (proj2 (Nat.ltb_ge m (length ds))) by lia. destruct ds as [|d ds]; [done|].
  assert (negb zero && (d =? 0) && negb (bool_decide (ds = [])) = false) as ->.
  { destruct zero, (d =? 0), (bool_decide (ds = [])); done. }
  rw Hv. by rewrite -> (proj2 (N.leb_le _ _) Hmax).
Qed.
Lemma read_u8_show v rest :
  v < 256 → stops 10 rest →
  read_number 10 (Some 3%nat) false u8_max (show_u8 v ++ rest) = Some (v, rest).
Proof.
  intros Hv Hr. apply read_number_show; [by left|by apply u8_digits_good| |done].
  unfold u8_max. lia.
Qed.
Lemma read_hex_show v rest :
  v < 65536 → stops 16 rest →
  read_number 16 (Some 4%nat) true u16_max (show_hex v ++ rest) = Some (v, rest).
Proof.
  intros Hv Hr. apply read_number_show; [by right|by apply hex_digits_good| |done].
  unfold u16_max. lia.
Qed.

(** ** IPv4 text reads back *)

Lemma read_ipv4_show o rest :
  length o = 4%nat → stops 10 rest → read_ipv4 (display_v4 o ++ rest) = Some (o, rest).
Proof.
  destruct o as [|a [|b [|c [|d [|]]]]]; try done. intros _ Hr.
  unfold read_ipv4, display_v4. cbn [fmap list_fmap intersperse].
  assert (∀ s, stops 10 (x2e :: s)) as Hdot by done.
  pose proof byte_val_lt as Hlt.
  cbn [read_octets read_separator]. rw -!app_assoc.
  rw read_u8_show //. cbn [mbind option_bind]. rw -!app_comm_cons -!app_assoc.
  do 2 (cbn [read_given_char mbind option_bind]; rewrite -> bool_decide_eq_true_2 by done; cbn [mbind option_bind];
        rw ?read_u8_show //; cbn [mbind option_bind]; rw -?app_comm_cons -?app_assoc).
  cbn [read_given_char mbind option_bind]. rewrite -> bool_decide_eq_true_2 by done.
  cbn [mbind option_bind]. rw read_u8_show //. cbn [mbind option_bind]. by rw !byte_of_val.
Qed.

(** ** IPv6 text reads back *)

Lemma take_digits_suffix radix s b : b ∈ (take_digits radix s).2 → b ∈ s.
Proof.
  induction s as [|c s IH]; simpl; [done|]. destruct (to_digit radix c); [|done].
  destruct (take_digits radix s) as [ds r]. simpl in *. intros Hb. right. by apply IH.
Qed.
Lemma read_number_suffix radix m z max s v r b :
  read_number radix m z max s = Some (v, r) → b ∈ r → b ∈ s.
Proof.
  unfold read_number. pose proof (take_digits_suffix radix s b) as Hs.
  destruct (take_digits radix s) as [ds r0]. destruct (match m with Some _ => _ | None => _ end); [done|].
  destruct ds as [|d ds]; [done|]. destruct (negb z && _ && _); [done|].
  destruct (_ <=? _); [|done]. intros [= _ <-]. exact Hs.
Qed.
(** No dotted quad without a dot. *)
Lemma read_ipv4_no_dot s : x2e ∉ s → read_ipv4 s = None.
Proof.
  intros Hs. unfold read_ipv4. cbn [read_octets read_separator].
  destruct (read_number _ _ _ _ s) as [[v r]|] eqn:E; [|done]. cbn [mbind option_bind].
  destruct r as [|b r]; [done|]. cbn [read_given_char].
  rw bool_decide_eq_false_2; [done|]. intros ->. apply Hs.
  eapply read_number_suffix; [exact E|by left].
Qed.

(** [rest] does not continue a sequence of groups. *)
Definition groups_end (rest : bytes) : Prop :=
  stops 16 rest ∧ match rest with b :: r => b = x3a → stops 16 r | [] => True end.

Lemma read_number_stops radix m z max s : stops radix s → read_number radix m z max s = None.
Proof.
  unfold read_number. destruct s as [|b s]; simpl.
  - intros _. by destruct m.
  - intros ->. simpl. by destruct m.
Qed.
Lemma given_other c b s : b ≠ c → read_given_char c (b :: s) = None.
Proof. intros Hb. simpl. by rw bool_decide_eq_false_2. Qed.
Lemma given_same c s : read_given_char c (c :: s) = Some s.
Proof. simpl. by rw bool_decide_eq_true_2. Qed.

Lemma read_groups_end limit sep rest :
  groups_end rest → x2e ∉ rest → read_groups limit sep rest = ([], false, rest).
Proof.
  intros [H1 H2] Hdot. destruct limit as [|limit]; [done|]. cbn [read_groups].
  assert (read_separator x3a sep read_ipv4 rest = None) as ->.
  { unfold read_separator. destruct sep; [|by apply read_ipv4_no_dot].
    destruct rest as [|b r]; [done|]. destruct (decide (b = x3a)) as [->|Hb].
    - rw given_same. cbn. apply read_ipv4_no_dot. intros Hin. apply Hdot. by right.
    - by rw given_other. }
  assert (read_separator x3a sep (read_number 16 (Some 4%nat) true u16_max) rest = None) as ->.
  { unfold read_separator. destruct sep; [|by apply read_number_stops].
    destruct rest as [|b r]; [done|]. destruct (decide (b = x3a)) as [->|Hb].
    - rw given_same. cbn [mbind option_bind]. by apply read_number_stops, H2.
    - by rw given_other. }
  by destruct (1 <=? limit)%nat.
Qed.

(** The groups [gs] written with a colon before each. *)
Definition colon_groups (gs : list N) : bytes := concat ((λ g, x3a :: show_hex g) <$> gs).

Lemma intersperse_groups g gs :
  intersperse x3a (show_hex <$> (g :: gs)) = show_hex g ++ colon_groups gs.
Proof.
  revert g. induction gs as [|g' gs IH]; intros g; [by rw /= app_nil_r|].
  change (show_hex <$> g :: g' :: gs) with (show_hex g :: (show_hex <$> g' :: gs)).
  assert (∀ x l, l ≠ [] → intersperse x3a (x :: l) = x ++ x3a :: intersperse x3a l) as Hcons
    by (by intros x [|y l]).
  rw Hcons // IH. unfold colon_groups. by rw fmap_cons.
Qed.

Lemma hex_digits_no_char v c :
  v < 65536 → to_digit 16 c = None → c ∉ show_hex v.
Proof.
  intros Hv Hc Hin. pose proof (hex_digits_good v Hv) as Hg. unfold digits_good in Hg.
  apply andb_prop in Hg as [[[Hf _]%andb_prop _]%andb_prop _].
  apply list_elem_of_fmap in Hin as (d & -> & Hd). rewrite forallb_forall in Hf.
  rw to_digit_char in Hc; [done|by right|]. apply N.ltb_lt, Hf. by apply list_elem_of_In.
Qed.
Lemma colon_groups_no_dot gs : Forall (λ g, g < 65536) gs → x2e ∉ colon_groups gs.
Proof.
  induction 1 as [|g gs Hg _ IH]; [by apply not_elem_of_nil|]. unfold colon_groups in *.
  cbn [fmap list_fmap concat]. rw not_elem_of_app. split; [|done].
  apply not_elem_of_cons. split; [done|]. by apply hex_digits_no_char.
Qed.
Lemma colon_groups_stops gs rest : stops 16 rest → stops 16 (colon_groups gs ++ rest).
Proof. by destruct gs. Qed.

Lemma read_colon_groups limit gs rest :
  Forall (λ g, g < 65536) gs → (length gs ≤ limit)%nat → groups_end rest → x2e ∉ rest →
  read_groups limit true (colon_groups gs ++ rest) = (to_be 2 <$> gs, false, rest).
Proof.
  intros Hgs. revert limit. induction Hgs as [|g gs Hg Hgs IH]; intros limit Hlen Hend Hdot.
  { by apply read_groups_end. }
  destruct limit as [|limit]; simpl in Hlen; [lia|]. cbn [read_groups].
  assert (x2e ∉ show_hex g ++ colon_groups gs ++ rest) as Hnd.
  { rw !not_elem_of_app. split_and!; [by apply hex_digits_no_char|by apply colon_groups_no_dot|done]. }
  change (colon_groups (g :: gs)) with (x3a :: (show_hex g ++ colon_groups gs)).
  cbn [read_separator app]. rw given_same -app_assoc. cbn [mbind option_bind].
  rw read_ipv4_no_dot // read_hex_show //; [|apply colon_groups_stops, Hend].
  rw IH //; [|lia]. by destruct (1 <=? limit)%nat.
Qed.
Lemma read_plain_groups limit gs rest :
  Forall (λ g, g < 65536) gs → (length gs ≤ limit)%nat → groups_end rest → x2e ∉ rest →
  read_groups limit false (intersperse x3a (show_hex <$> gs) ++ rest) = (to_be 2 <$> gs, false, rest).
Proof.
  intros Hgs Hlen Hend Hdot. destruct gs as [|g gs]; [by apply read_groups_end|].
  apply Forall_cons in Hgs as [Hg Hgs]. destruct limit as [|limit]; simpl in Hlen; [lia|].
  rw intersperse_groups -app_assoc. cbn [read_groups read_separator].
  rw read_ipv4_no_dot.
  2:{ rw !not_elem_of_app. split_and!; [by apply hex_digits_no_char|by apply colon_groups_no_dot|done]. }
  rw read_hex_show //; [|apply colon_groups_stops, Hend].
  rw read_colon_groups //; [|lia]. by destruct (1 <=? limit)%nat.
Qed.

(** The span found is a run of zero segments. *)
Definition zeros_at (l : list N) (span : nat * nat) : Prop :=
  ∀ j, (span.1 ≤ j < span.1 + span.2)%nat → l !! j = Some 0.

Lemma zero_span_zeros pre segs cur longest :
  zeros_at (pre ++ segs) cur → (cur.2 ≠ 0%nat → (cur.1 + cur.2 = length pre)%nat) →
  zeros_at (pre ++ segs) longest →
  zeros_at (pre ++ segs) (zero_span (length pre) cur longest segs).
Proof.
  revert pre cur longest. induction segs as [|s segs IH]; intros pre cur longest Hc Hend Hl; [done|].
  cbn [zero_span]. assert (pre ++ s :: segs = (pre ++ [s]) ++ segs) as Hpre by (by rw -app_assoc).
  assert (S (length pre) = length (pre ++ [s])) as Hlen by (rw length_app /=; lia).
  rw Hpre Hlen. destruct (N.eqb_spec s 0) as [->|Hs].
  - set (cur' := (if (cur.2 =? 0)%nat then length pre else cur.1, S cur.2)).
    assert (zeros_at ((pre ++ [0]) ++ segs) cur') as Hc'.
    { intros j Hj. unfold cur' in Hj. simpl in Hj. rw -Hpre.
      destruct (decide (j = length pre)) as [->|Hne]; [by rw list_lookup_middle|].
      destruct (Nat.eqb_spec cur.2 0) as [E|E]; [lia|]. apply Hc. specialize (Hend E). lia. }
    apply IH; [done| |].
    + intros _. unfold cur'. simpl. destruct (Nat.eqb_spec cur.2 0) as [E|E]; [lia|].
      specialize (Hend E). lia.
    + rw -Hpre in Hc'. rw -Hpre. by destruct (longest.2 <? cur'.2)%nat.
  - apply IH; [|done|by rw -Hpre]. intros j Hj. simpl in Hj. lia.
Qed.

Lemma zeros_split (l : list N) start n :
  zeros_at l (start, n) → (0 < n)%nat →
  l = take start l ++ replicate n 0 ++ drop (start + n) l ∧ (start + n ≤ length l)%nat.
Proof.
  intros Hz Hn. assert (start + n ≤ length l)%nat as Hle.
  { assert (is_Some (l !! (start + n - 1)%nat)) as Hs%lookup_lt_is_Some.
    { rw (Hz (start + n - 1)%nat); [done|simpl; lia]. }
    lia. }
  split; [|done]. apply list_eq. intros i.
  destruct (decide (i < start)%nat) as [H1|H1].
  - rw lookup_app_l; [|rw length_take; lia]. by rw lookup_take_lt.
  - rw lookup_app_r; [|rw length_take; lia]. rw length_take_le; [|lia].
    destruct (decide (i < start + n)%nat) as [H2|H2].
    + rw lookup_app_l; [|rw length_replicate; lia]. rw lookup_replicate_2; [|lia]. apply Hz. simpl. lia.
    + rw lookup_app_r; [|rw length_replicate; lia]. rw length_replicate lookup_drop. f_equal. lia.
Qed.

Lemma segments_bound o : Forall (λ g, g < 65536) (segments o).
Proof.
  revert o. fix IH 1. intros [|a [|b o]]; [constructor..|]. cbn [segments]. constructor; [|apply IH].
  pose proof (byte_val_lt a). pose proof (byte_val_lt b). lia.
Qed.
Lemma segment_octets a b : to_be 2 (256 * byte_val a + byte_val b) = [a; b].
Proof. exact (to_be_from_be [a; b]). Qed.
Lemma segments_octets n o :
  length o = (2 * n)%nat → concat (to_be 2 <$> segments o) = o ∧ length (segments o) = n.
Proof.
  revert o. induction n as [|n IH]; intros o Ho; [by destruct o|].
  destruct o as [|a [|b o]]; simpl in Ho; [lia..|]. destruct (IH o) as [H1 H2]; [lia|].
  cbn [segments fmap list_fmap concat length]. rw H1 H2 segment_octets //.
Qed.
Lemma zero_groups n : concat (to_be 2 <$> replicate n 0) = replicate (2 * n) x00.
Proof.
  induction n as [|n IH]; [done|]. cbn [replicate fmap list_fmap concat]. rw IH.
  by replace (2 * S n)%nat with (S (S (2 * n)))%nat by lia.
Qed.

Lemma read_mapped_show v4 rest :
  length v4 = 4%nat → stops 10 rest →
  read_ipv6 (bs "::ffff:" ++ display_v4 v4 ++ rest) =
  Some (replicate 10 x00 ++ [xff; xff] ++ v4, rest).
Proof.
  intros Hv Hr. unfold read_ipv6.
  change (read_groups 8 false (bs "::ffff:" ++ display_v4 v4 ++ rest))
    with (@nil bytes, false, bs "::ffff:" ++ display_v4 v4 ++ rest).
  cbn [length Nat.eqb]. change (bs "::ffff:" ++ display_v4 v4 ++ rest)
    with (x3a :: x3a :: bs "ffff:" ++ display_v4 v4 ++ rest).
  rw given_same. cbn [mbind option_bind]. rw given_same. cbn [mbind option_bind].
  change (8 - (0 + 1))%nat with 7%nat.
  assert (read_groups 7 false (bs "ffff:" ++ display_v4 v4 ++ rest) =
    ([[xff; xff]; take 2 v4; drop 2 v4], true, rest)) as ->.
  { change (read_groups 7 false (bs "ffff:" ++ display_v4 v4 ++ rest))
      with (let '(gs, b, s) := read_groups 6 true (x3a :: display_v4 v4 ++ rest) in
            (to_be 2 65535 :: gs, b, s)).
    cbn [read_groups Nat.leb read_separator]. rw given_same. cbn [mbind option_bind].
    rw read_ipv4_show //. }
  cbn [length Nat.sub Nat.mul Nat.add concat app]. rw app_nil_r take_drop. done.
Qed.

(** What is printed for an address reads back as that address, whatever
    follows that cannot continue it. *)
Lemma read_ipv6_show o rest :
  length o = 16%nat → groups_end rest → x2e ∉ rest → stops 10 rest →
  read_ipv6 (display_v6 o ++ rest) = Some (o, rest).
Proof.
  intros Ho Hend Hdot Hr. unfold display_v6. destruct (to_ipv4_mapped o) as [v4|] eqn:Em.
  - unfold to_ipv4_mapped in Em. case_bool_decide as Hp; [|done]. injection Em as <-.
    rw -app_assoc read_mapped_show //; [|rw length_drop Ho //].
    rw app_assoc -Hp take_drop //.
  - destruct (segments_octets 8 o Ho) as [Hoct Hlen]. pose proof (segments_bound o) as Hb.
    set (segs := segments o) in *.
    pose proof (zero_span_zeros [] segs (0, 0)%nat (0, 0)%nat) as Hz. simpl in Hz.
    destruct (zero_span 0 (0, 0)%nat (0, 0)%nat segs) as [start n].
    destruct (Nat.ltb_spec 1 n) as [Hn|Hn].
    + destruct (zeros_split segs start n) as [Hsplit Hle].
      { apply Hz; [|done|]; intros j Hj; simpl in Hj; lia. }
      { lia. }
      set (A := take start segs) in *. set (B := drop (start + n) segs) in *.
      assert (length A = start) as HA by (unfold A; rw length_take; lia).
      assert (length B = 8 - start - n)%nat as HB by (unfold B; rw length_drop; lia).
      assert (Forall (λ g, g < 65536) A) as FA by (by apply Forall_take).
      assert (Forall (λ g, g < 65536) B) as FB by (by apply Forall_drop).
      unfold read_ipv6. rw -!app_assoc.
      assert (x2e ∉ intersperse x3a (show_hex <$> B)) as HdB.
      { destruct B as [|g B']; [apply not_elem_of_nil|]. rw intersperse_groups not_elem_of_app.
        apply Forall_cons in FB as [Hg FB]. split; [by apply hex_digits_no_char|by apply colon_groups_no_dot]. }
      rewrite -> (read_plain_groups 8 A); [|done|lia|done|].
      2:{ rw !not_elem_of_app. split_and!; [|done|done]. change (bs "::") with [x3a; x3a]. set_solver. }
      rw length_fmap HA. rewrite -> (proj2 (Nat.eqb_neq start 8)) by lia.
      change (bs "::" ++ ?s) with (x3a :: x3a :: s).
      rw given_same. cbn [mbind option_bind]. rw given_same. cbn [mbind option_bind].
      rw read_plain_groups //; [|lia]. rw length_fmap HB.
      do 2 f_equal. transitivity (concat (to_be 2 <$> A ++ replicate n 0 ++ B)).
      * rw !fmap_app !concat_app zero_groups. do 4 f_equal. lia.
      * by rw -Hsplit.
    + unfold read_ipv6. rw read_plain_groups //; [|lia]. rw length_fmap Hlen Nat.eqb_refl Hoct //.
Qed.

Lemma intersperse_no_char c d l :
  c ≠ d → Forall (λ x, c ∉ x) l → c ∉ intersperse d l.
Proof.
  intros Hcd. induction 1 as [|x l Hx Hl IH]; [apply not_elem_of_nil|].
  destruct l as [|y l]; [done|]. cbn [intersperse]. rw not_elem_of_app not_elem_of_cons. done.
Qed.
Lemma u8_digits_no_char v c : v < 256 → to_digit 10 c = None → c ∉ show_u8 v.
Proof.
  intros Hv Hc Hin. pose proof (u8_digits_good v Hv) as Hg. unfold digits_good in Hg.
  apply andb_prop in Hg as [[[Hf _]%andb_prop _]%andb_prop _].
  apply list_elem_of_fmap in Hin as (d & -> & Hd). rewrite forallb_forall in Hf.
  rw to_digit_char in Hc; [done|by left|]. apply N.ltb_lt, Hf. by apply list_elem_of_In.
Qed.
Lemma display_v4_no_char c o : c ≠ x2e → to_digit 10 c = None → c ∉ display_v4 o.
Proof.
  intros Hd Hc. apply intersperse_no_char; [done|]. apply Forall_fmap, Forall_forall.
  intros b _. apply u8_digits_no_char; [apply byte_val_lt|done].
Qed.
Lemma show_groups_no_char c gs :
  c ≠ x3a → to_digit 16 c = None → Forall (λ g, g < 65536) gs →
  c ∉ intersperse x3a (show_hex <$> gs).
Proof.
  intros Hd Hc Hgs. apply intersperse_no_char; [done|]. apply Forall_fmap.
  eapply Forall_impl; [exact Hgs|]. intros g Hg. by apply hex_digits_no_char.
Qed.
Lemma display_v6_no_char c o :
  c ≠ x3a → (to_ipv4_mapped o = None ∨ c ≠ x2e ∧ to_digit 10 c = None) → to_digit 16 c = None →
  c ∉ display_v6 o.
Proof.
  intros Hd Hv4 Hc. unfold display_v6. destruct (to_ipv4_mapped o) as [v4|].
  - destruct Hv4 as [|[H1 H2]]; [done|]. apply not_elem_of_app. split; [|by apply display_v4_no_char].
    change (bs "::ffff:") with [x3a; x3a; x66; x66; x66; x66; x3a].
    assert (c ≠ x66) by (intros ->; done). set_solver.
  - pose proof (segments_bound o) as Hb. destruct (zero_span _ _ _ _) as [start n].
    destruct (1 <? n)%nat; [|by apply show_groups_no_char]. rw !not_elem_of_app.
    change (bs "::") with [x3a; x3a]. split_and!; [|set_solver|].
    + apply show_groups_no_char; [done..|by apply Forall_take].
    + apply show_groups_no_char; [done..|by apply Forall_drop].
Qed.
Lemma given_absent c s : c ∉ s → read_given_char c s = None.
Proof. destruct s as [|b s]; [done|]. intros Hc. apply given_other. intros ->. apply Hc. by left. Qed.

Lemma read_ipv4_of_v6 o rest : x2e ∉ rest → read_ipv4 (display_v6 o ++ rest) = None.
Proof.
  intros Hr. destruct (to_ipv4_mapped o) as [v4|] eqn:E.
  - unfold display_v6. rw E. done.
  - apply read_ipv4_no_dot, not_elem_of_app. split; [|done]. apply display_v6_no_char; [done|by left|done].
Qed.

(** ** The laws of the text form *)

Lemma v4_reads_back o :
  length o = 4%nat → parse_socket_ip (display_v4 o) = None ∧ parse_ip (display_v4 o) = Some (V4 o).
Proof.
  intros Ho. pose proof (read_ipv4_show o [] Ho I) as Hr. rw app_nil_r in Hr.
  unfold parse_socket_ip, parse_ip, parse_with, read_ip, read_socket, read_socket_v4, read_socket_v6.
  rw Hr. cbn [mbind option_bind]. split; [|done]. cbn. rw given_absent //. by apply display_v4_no_char.
Qed.
Lemma v6_reads_back o : length o = 16%nat → parse_ip (display_v6 o) = Some (V6 o).
Proof.
  intros Ho. pose proof (read_ipv6_show o [] Ho) as Hr. pose proof (read_ipv4_of_v6 o []) as H4.
  rw app_nil_r in Hr. rw app_nil_r in H4. unfold parse_ip, parse_with, read_ip.
  rw H4; [|apply not_elem_of_nil]. rw Hr //. apply not_elem_of_nil.
Qed.
(** A prefix with its length is no address. *)
Lemma prefix_no_address o :
  length o = 16%nat →
  parse_socket_ip (display_v6 o ++ bs "/64") = None ∧ parse_ip (display_v6 o ++ bs "/64") = None.
Proof.
  intros Ho. change (bs "/64") with [x2f; x36; x34].
  unfold parse_socket_ip, parse_ip, parse_with, read_ip, read_socket, read_socket_v4, read_socket_v6.
  rw read_ipv4_of_v6; [|set_solver]. cbn [mbind option_bind]. split.
  - rw given_absent //. apply not_elem_of_app. split; [|set_solver]. apply display_v6_no_char; [done|by right|done].
  - rewrite -> read_ipv6_show; [done|done|done|set_solver|done].
Qed.
