(* ===== verification/Preauth.v ===== *)
(** * The pre-authentication gate

    [crates/transport/runtime/src/preauth.rs]: the bounds on handshakes an
    anonymous party can make this node compute.  The textual forms of
    network addresses are those of [NetAddr]. *)
From S2P Require Import Prelude Ids NetAddr.
Local Open Scope N_scope.

Definition MAX_SOURCE_BYTES : N := 128.
Definition DEFAULT_MAX_PENDING_TOTAL : N := 64.
Definition DEFAULT_MAX_PENDING_PER_SOURCE : N := 8.
Definition DEFAULT_HANDSHAKE_TIMEOUT_MS : N := 10000.
Definition DEFAULT_MAX_SOURCES : N := 256.
Definition DEFAULT_RATE_WINDOW_MS : N := 60000.
Definition DEFAULT_MAX_ATTEMPTS_PER_WINDOW : N := 30.
Definition DEFAULT_MAX_GLOBAL_ATTEMPTS_PER_WINDOW : N := 600.
Definition MAX_CONFIGURED_LIMIT : N := 65536.
Definition MAX_CONFIGURED_ATTEMPTS : N := 60000.
Definition MAX_CONFIGURED_DURATION_MS : N := 3600000.

(** ** Sources *)

(** The address a source is accounted under: an IPv4-mapped address is the
    IPv4 address, an IPv6 address its /64 prefix. *)
Definition bucket_ip (ip : IpAddr) : IpAddr :=
  let ip :=
    match ip with
    | V6 v6 => match to_ipv4_mapped v6 with Some v4 => V4 v4 | None => V6 v6 end
    | V4 v4 => V4 v4
    end in
  match ip with
  | V4 v4 => V4 v4
  | V6 o => V6 (take 8 o ++ replicate 8 x00)
  end.

Definition source_bucket (source : bytes) : bytes :=
  let ip := match parse_socket_ip source with Some ip => Some ip | None => parse_ip source end in
  match ip with
  | None => source
  | Some ip =>
      match bucket_ip ip with
      | V4 v4 => display_v4 v4
      | V6 prefix => display_v6 prefix ++ bs "/64"
      end
  end.

(** ** Limits *)

Record PreAuthLimits := MkPreAuthLimits {
  pl_max_pending_total : N;
  pl_max_pending_per_source : N;
  pl_handshake_timeout_ms : N;
  pl_max_sources : N;
  pl_rate_window_ms : N;
  pl_max_attempts_per_window : N;
  pl_max_global_attempts_per_window : N
}.
Definition PreAuthLimits_default : PreAuthLimits :=
  MkPreAuthLimits DEFAULT_MAX_PENDING_TOTAL DEFAULT_MAX_PENDING_PER_SOURCE
    DEFAULT_HANDSHAKE_TIMEOUT_MS DEFAULT_MAX_SOURCES DEFAULT_RATE_WINDOW_MS
    DEFAULT_MAX_ATTEMPTS_PER_WINDOW DEFAULT_MAX_GLOBAL_ATTEMPTS_PER_WINDOW.

Record PreAuthLimitsBuilder := MkPreAuthLimitsBuilder {
  pb_max_pending_total : N;
  pb_max_pending_per_source : N;
  pb_handshake_timeout_ms : N;
  pb_max_sources : N;
  pb_rate_window_ms : N;
  pb_max_attempts_per_window : N;
  pb_max_global_attempts_per_window : N
}.

Inductive InvalidPreAuthLimits :=
| PendingTotalOutOfRange | PendingPerSourceOutOfRange | SourcesOutOfRange
| HandshakeTimeoutOutOfRange | RateWindowOutOfRange | AttemptsPerWindowOutOfRange
| GlobalAttemptsPerWindowOutOfRange | PerSourcePendingExceedsTotal
| PerSourceAttemptsExceedGlobal.

Definition out_of_range (n max : N) : bool := (n =? 0) || (max <? n).

Definition PreAuthLimitsBuilder_build (b : PreAuthLimitsBuilder) :
    result PreAuthLimits InvalidPreAuthLimits :=
  if out_of_range (pb_max_pending_total b) MAX_CONFIGURED_LIMIT then Err PendingTotalOutOfRange
  else if out_of_range (pb_max_pending_per_source b) MAX_CONFIGURED_LIMIT
  then Err PendingPerSourceOutOfRange
  else if out_of_range (pb_max_sources b) MAX_CONFIGURED_LIMIT then Err SourcesOutOfRange
  else if out_of_range (pb_handshake_timeout_ms b) MAX_CONFIGURED_DURATION_MS
  then Err HandshakeTimeoutOutOfRange
  else if out_of_range (pb_rate_window_ms b) MAX_CONFIGURED_DURATION_MS
  then Err RateWindowOutOfRange
  else if out_of_range (pb_max_attempts_per_window b) MAX_CONFIGURED_ATTEMPTS
  then Err AttemptsPerWindowOutOfRange
  else if out_of_range (pb_max_global_attempts_per_window b) MAX_CONFIGURED_ATTEMPTS
  then Err GlobalAttemptsPerWindowOutOfRange
  else if pb_max_pending_total b <? pb_max_pending_per_source b
  then Err PerSourcePendingExceedsTotal
  else if pb_max_global_attempts_per_window b <? pb_max_attempts_per_window b
  then Err PerSourceAttemptsExceedGlobal
  else
    Ok (MkPreAuthLimits (pb_max_pending_total b) (pb_max_pending_per_source b)
          (pb_handshake_timeout_ms b) (pb_max_sources b) (pb_rate_window_ms b)
          (pb_max_attempts_per_window b) (pb_max_global_attempts_per_window b)).

(** ** The gate *)

Inductive PreAuthDenial :=
| TooManyPending | TooManyFromSource | PreRateLimited | GloballyRateLimited
| SourceNotAccountable | NoAccountingCapacity | PreShuttingDown.

Record HandshakeSlot := MkHandshakeSlot {
  hs_source : bytes;
  hs_id : N;
  hs_started_at_ms : N
}.

Record SourceState := MkSourceState {
  ss_pending : gmap N N;
  ss_window_start_ms : N;
  ss_attempts_in_window : N;
  ss_last_touched_ms : N
}.
Definition SourceState_default : SourceState := MkSourceState ∅ 0 0 0.

Definition SourceState_is_live_at (s : SourceState) (now_ms window_ms : N) : bool :=
  negb (bool_decide (ss_pending s = ∅)) ||
  (now_ms <? sat_add u64_max (ss_window_start_ms s) window_ms).

Record PreAuthGate := MkPreAuthGate {
  pg_limits : PreAuthLimits;
  pg_sources : gmap bytes SourceState;
  pg_pending_total : N;
  pg_next_id : N;
  pg_global_window_start_ms : N;
  pg_global_attempts_in_window : N;
  pg_shutting_down : bool
}.

Definition PreAuthGate_new (limits : PreAuthLimits) : PreAuthGate :=
  MkPreAuthGate limits ∅ 0 0 0 0 false.
Definition PreAuthGate_pending (g : PreAuthGate) : N := pg_pending_total g.
Definition PreAuthGate_tracked_sources (g : PreAuthGate) : N := N.of_nat (size (pg_sources g)).

Definition PreAuthGate_make_room_for_source (g : PreAuthGate) (now_ms : N) : bool * PreAuthGate :=
  if PreAuthGate_tracked_sources g <? pl_max_sources (pg_limits g) then (true, g)
  else
    match min_by (λ ks, ss_last_touched_ms ks.2)
            (filter (λ ks, negb (SourceState_is_live_at ks.2 now_ms
                                   (pl_rate_window_ms (pg_limits g))) = true)
               (btree_to_list (pg_sources g))) with
    | Some (key, _) =>
        (true, MkPreAuthGate (pg_limits g) (delete key (pg_sources g)) (pg_pending_total g)
                 (pg_next_id g) (pg_global_window_start_ms g) (pg_global_attempts_in_window g)
                 (pg_shutting_down g))
    | None => (false, g)
    end.

(** The global window, restarted when it has elapsed. *)
Definition roll_global (g : PreAuthGate) (now_ms : N) : PreAuthGate :=
  if sat_add u64_max (pg_global_window_start_ms g) (pl_rate_window_ms (pg_limits g)) <=? now_ms
  then MkPreAuthGate (pg_limits g) (pg_sources g) (pg_pending_total g) (pg_next_id g) now_ms 0
         (pg_shutting_down g)
  else g.

(** A source's own window, restarted when it has elapsed. *)
Definition roll_source (s : SourceState) (now_ms window_ms : N) : SourceState :=
  if sat_add u64_max (ss_window_start_ms s) window_ms <=? now_ms
  then MkSourceState (ss_pending s) now_ms 0 (ss_last_touched_ms s)
  else s.

Definition set_source (g : PreAuthGate) (source : bytes) (s : SourceState) : PreAuthGate :=
  MkPreAuthGate (pg_limits g) (<[source := s]> (pg_sources g)) (pg_pending_total g) (pg_next_id g)
    (pg_global_window_start_ms g) (pg_global_attempts_in_window g) (pg_shutting_down g).


Definition PreAuthGate_admit (g : PreAuthGate) (source : bytes) (now_ms : N) :
    result HandshakeSlot PreAuthDenial * PreAuthGate :=
  if pg_shutting_down g then (Err PreShuttingDown, g)
  else
    let source := source_bucket source in
    if bool_decide (source = []) || (MAX_SOURCE_BYTES <? len source)
    then (Err SourceNotAccountable, g)
    else if pl_max_pending_total (pg_limits g) <=? pg_pending_total g
    then (Err TooManyPending, g)
    else
      let window_ms := pl_rate_window_ms (pg_limits g) in
      let g := roll_global g now_ms in
      if pl_max_global_attempts_per_window (pg_limits g) <=? pg_global_attempts_in_window g
      then (Err GloballyRateLimited, g)
      else
        let '(room, g) :=
          if bool_decide (is_Some (pg_sources g !! source)) then (true, g)
          else PreAuthGate_make_room_for_source g now_ms in
        if negb room then (Err NoAccountingCapacity, g)
        else
          let state := default SourceState_default (pg_sources g !! source) in
          if pl_max_pending_per_source (pg_limits g) <=? N.of_nat (size (ss_pending state))
          then (Err TooManyFromSource, set_source g source state)
          else
            let state := roll_source state now_ms window_ms in
            if pl_max_attempts_per_window (pg_limits g) <=? ss_attempts_in_window state
            then (Err PreRateLimited, set_source g source state)
            else
              let id := pg_next_id g in
              let state :=
                MkSourceState (<[id := now_ms]> (ss_pending state)) (ss_window_start_ms state)
                  (sat_add u32_max (ss_attempts_in_window state) 1) now_ms in
              (Ok (MkHandshakeSlot source id now_ms),
               MkPreAuthGate (pg_limits g) (<[source := state]> (pg_sources g))
                 (sat_add usize_max (pg_pending_total g) 1) (sat_add u64_max id 1)
                 (pg_global_window_start_ms g)
                 (sat_add u32_max (pg_global_attempts_in_window g) 1) (pg_shutting_down g)).

Definition PreAuthGate_completed (g : PreAuthGate) (slot : HandshakeSlot) : PreAuthGate :=
  match pg_sources g !! hs_source slot with
  | None => g
  | Some state =>
      match ss_pending state !! hs_id slot with
      | None => g
      | Some _ =>
          MkPreAuthGate (pg_limits g)
            (<[hs_source slot := MkSourceState (delete (hs_id slot) (ss_pending state))
                                   (ss_window_start_ms state) (ss_attempts_in_window state)
                                   (ss_last_touched_ms state)]> (pg_sources g))
            (sat_sub (pg_pending_total g) 1) (pg_next_id g) (pg_global_window_start_ms g)
            (pg_global_attempts_in_window g) (pg_shutting_down g)
      end
  end.

(** ** The accounting *)

Definition pending_of (s : SourceState) : N := N.of_nat (size (ss_pending s)).

(** The gate after at most [n] admissions: the total is what the sources
    hold, every bound is kept, and every identifier handed out is fresh. *)
Record gate_inv (n : N) (g : PreAuthGate) : Prop := {
  gi_total : pg_pending_total g = msum (λ _ s, pending_of s) (pg_sources g);
  gi_max : pg_pending_total g ≤ pl_max_pending_total (pg_limits g);
  gi_source : ∀ k s, pg_sources g !! k = Some s →
    pending_of s ≤ pl_max_pending_per_source (pg_limits g) ∧
    ∀ id t, ss_pending s !! id = Some t → id < pg_next_id g;
  gi_sources : PreAuthGate_tracked_sources g ≤ pl_max_sources (pg_limits g);
  gi_next : pg_next_id g ≤ n
}.

Lemma gate_new_inv l : gate_inv 0 (PreAuthGate_new l).
Proof.
  split; simpl; rw ?msum_empty; try done; try lia.
  unfold PreAuthGate_tracked_sources. simpl. rw ?map_size_empty. lia.
Qed.

Lemma gate_inv_le n m g : n ≤ m → gate_inv n g → gate_inv m g.
Proof. intros Hle [H1 H2 H3 H4 H5]. split; try done. lia. Qed.

Lemma roll_global_inv n g now : gate_inv n g → gate_inv n (roll_global g now).
Proof. unfold roll_global. case_match; [|done]. intros [H1 H2 H3 H4 H5]. by split. Qed.

Lemma roll_global_frame g now :
  pg_limits (roll_global g now) = pg_limits g ∧ pg_sources (roll_global g now) = pg_sources g ∧
  pg_pending_total (roll_global g now) = pg_pending_total g ∧
  pg_next_id (roll_global g now) = pg_next_id g.
Proof. unfold roll_global. by case_match. Qed.

(** Room made for a source removes only a source with nothing pending. *)
Lemma gate_room n g now source room g' :
  gate_inv n g →
  (if bool_decide (is_Some (pg_sources g !! source)) then (true, g)
   else PreAuthGate_make_room_for_source g now) = (room, g') →
  gate_inv n g' ∧ pg_limits g' = pg_limits g ∧ pg_pending_total g' = pg_pending_total g ∧
  pg_next_id g' = pg_next_id g ∧
  pg_global_window_start_ms g' = pg_global_window_start_ms g ∧
  pg_global_attempts_in_window g' = pg_global_attempts_in_window g ∧
  (room = true → is_Some (pg_sources g' !! source) ∨
     PreAuthGate_tracked_sources g' < pl_max_sources (pg_limits g')).
Proof.
  intros Hg. case_bool_decide as Hs.
  { intros [= <- <-]. split_and!; try done. by left. }
  pose proof Hg as [H1 H2 H3 H4 H5].
  unfold PreAuthGate_make_room_for_source.
  destruct (N.ltb_spec (PreAuthGate_tracked_sources g) (pl_max_sources (pg_limits g))).
  { intros [= <- <-]. split_and!; try done. by right. }
  destruct (min_by _ _) as [[k s]|] eqn:E; intros [= <- <-]; [|by split_and!].
  apply min_by_elem, list_elem_of_filter in E as [Hlive Hin%elem_of_btree_to_list]. simpl in Hlive.
  assert (pending_of s = 0) as Hz.
  { revert Hlive. unfold SourceState_is_live_at, pending_of. case_bool_decide as Hp; [|done].
    intros _. by rw Hp map_size_empty. }
  assert (size (delete k (pg_sources g)) = Nat.pred (size (pg_sources g))) as Hsize
    by (rw map_size_delete_Some //; by eexists).
  assert (size (pg_sources g) ≠ 0%nat).
  { intros Hz'%map_size_empty_inv. by rw Hz' lookup_empty in Hin. }
  unfold PreAuthGate_tracked_sources in *. split; [|simpl; split_and!; try done].
  - split; simpl; try done.
    + pose proof (msum_delete (λ _ s, pending_of s) _ _ _ Hin) as Hm. simpl in Hm. lia.
    + intros k' s' [_ Hk']%lookup_delete_Some. by eapply H3.
    + unfold PreAuthGate_tracked_sources. simpl. lia.
  - intros _. right. lia.
Qed.

(** Storing a state for a source that is tracked or has room. *)
Lemma set_source_inv n g source s0 s total next :
  gate_inv n g →
  is_Some (pg_sources g !! source) ∨
    PreAuthGate_tracked_sources g < pl_max_sources (pg_limits g) →
  s0 = default SourceState_default (pg_sources g !! source) →
  pending_of s ≤ pl_max_pending_per_source (pg_limits g) →
  total + pending_of s0 = pg_pending_total g + pending_of s →
  total ≤ pl_max_pending_total (pg_limits g) → pg_next_id g ≤ next → next ≤ n →
  (∀ id t, ss_pending s !! id = Some t → id < next) →
  ∀ start attempts down,
  gate_inv n (MkPreAuthGate (pg_limits g) (<[source := s]> (pg_sources g)) total next start
                attempts down).
Proof.
  intros [H1 H2 H3 H4 H5] Hroom -> Hps Htot Hmax Hn1 Hn2 Hids start attempts down.
  split; simpl; try done.
  - pose proof (msum_upsert (λ _ s, pending_of s) (pg_sources g) source s) as Hm.
    assert (pending_of SourceState_default = 0) as H0 by by vm_compute.
    revert Htot Hm. destruct (pg_sources g !! source); cbn [default from_option id];
      rw ?H0; lia.
  - intros k s'. rw lookup_insert. case_decide; [by intros [= <-]|]. intros Hk.
    destruct (H3 _ _ Hk) as [Ha Hb]. split; [done|]. intros id t Hid.
    eapply N.lt_le_trans; eauto.
  - unfold PreAuthGate_tracked_sources in *. simpl. destruct (pg_sources g !! source) eqn:E.
    + rw map_size_insert_Some //.
    + rw map_size_insert_None //. destruct Hroom as [[? [=]]|?]. lia.
Qed.


Inductive gate_op :=
| GAdmit (source : bytes) (wait : N)
| GCompleted (slot : HandshakeSlot) (wait : N).

(** One operation after [wait] milliseconds; whether it admitted. *)
Definition gate_step (now : N) (g : PreAuthGate) (op : gate_op) : bool * PreAuthGate * N :=
  match op with
  | GAdmit source wait =>
      let '(r, g) := PreAuthGate_admit g source (now + wait) in (is_ok r, g, now + wait)
  | GCompleted slot wait => (false, PreAuthGate_completed g slot, now + wait)
  end.
(** The number admitted, the gate and the time at the end. *)
Fixpoint gate_run (now : N) (g : PreAuthGate) (ops : list gate_op) : N * PreAuthGate * N :=
  match ops with
  | [] => (0, g, now)
  | op :: ops =>
      let '(ok, g, now) := gate_step now g op in
      let '(count, g, now) := gate_run now g ops in
      ((if ok then 1 else 0) + count, g, now)
  end.

Lemma roll_source_pending s now w : ss_pending (roll_source s now w) = ss_pending s.
Proof. unfold roll_source. by case_match. Qed.

Lemma gate_admit_inv n g source now r g' :
  n < u64_max → pl_max_pending_total (pg_limits g) < usize_max → gate_inv n g →
  PreAuthGate_admit g source now = (r, g') →
  gate_inv (n + 1) g' ∧ pg_limits g' = pg_limits g.
Proof.
  intros Hn Husize Hg. unfold PreAuthGate_admit.
  assert (gate_inv (n + 1) g) as Hg1 by (by eapply gate_inv_le; [|done]; lia).
  case_match; [by intros [= <- <-]|]. case_match; [by intros [= <- <-]|].
  destruct (N.leb_spec (pl_max_pending_total (pg_limits g)) (pg_pending_total g)) as [|Hlt];
    [by intros [= <- <-]|].
  destruct (roll_global_frame g now) as (El & Es & Et & En).
  pose proof (roll_global_inv _ _ now Hg) as Hgr.
  set (gr := roll_global g now) in *. clearbody gr. rw El.
  assert (gate_inv (n + 1) gr) as Hgr1 by (by eapply gate_inv_le; [|done]; lia).
  case_match; [by intros [= <- <-]|].
  destruct (if bool_decide _ then _ else _) as [room g1] eqn:Er.
  apply (gate_room (n + 1)) in Er as (Hg2 & El1 & Et1 & En1 & _ & _ & Hroom); [|done].
  destruct room; cbn [negb]; [|intros [= <- <-]; split; [done|congruence]].
  specialize (Hroom eq_refl). assert (pg_limits g1 = pg_limits g) as Elg by congruence. rw Elg.
  set (s := default _ _).
  assert (pending_of s ≤ pl_max_pending_per_source (pg_limits g1) ∧
    ∀ id t, ss_pending s !! id = Some t → id < pg_next_id g1) as [Hps Hids].
  { unfold s. destruct (pg_sources g1 !! source_bucket source) eqn:E; simpl.
    - by apply (gi_source _ _ Hg2 (source_bucket source)).
    - change (pending_of SourceState_default) with 0. split; [lia|]. intros id t.
      by rw lookup_empty. }
  destruct Hg2 as [G1 G2 G3 G4 G5] eqn:EG. clear EG. pose proof (gi_next _ _ Hg) as Hnext.
  destruct (N.leb_spec (pl_max_pending_per_source (pg_limits g)) (N.of_nat (size (ss_pending s))))
    as [|Hroom2].
  { intros [= <- <-]. split; [|simpl; congruence].
    by apply (set_source_inv (n + 1) g1 _ s). }
  case_match.
  { intros [= <- <-]. split; [|simpl; congruence].
    apply (set_source_inv (n + 1) g1 _ s); unfold pending_of; rw ?roll_source_pending; done. }
  intros [= <- <-]. split; [|simpl; congruence].
  assert (ss_pending s !! pg_next_id g1 = None) as Hfresh.
  { destruct (ss_pending s !! pg_next_id g1) eqn:E; [|done]. apply Hids in E. lia. }
  rewrite -> (sat_add_small u64_max (pg_next_id g1) 1 u64_max) by first [lia|done].
  rewrite -> (sat_add_small usize_max (pg_pending_total g1) 1 (pl_max_pending_total (pg_limits g))) by lia.
  rw -{1}Elg. apply (set_source_inv (n + 1) g1 _ s); try done; unfold pending_of in *; simpl;
    rw ?Elg ?roll_source_pending ?map_size_insert_None //; try lia.
  intros id t. rw lookup_insert. case_decide; [intros _; lia|]. intros Hid%Hids. lia.
Qed.

Lemma gate_completed_inv n g slot :
  gate_inv n g → gate_inv n (PreAuthGate_completed g slot) ∧
  pg_limits (PreAuthGate_completed g slot) = pg_limits g.
Proof.
  intros Hg. pose proof Hg as [G1 G2 G3 G4 G5]. unfold PreAuthGate_completed.
  destruct (pg_sources g !! hs_source slot) as [s|] eqn:Es; [|done].
  destruct (ss_pending s !! hs_id slot) as [t|] eqn:Ep; [|done]. split; [|done].
  assert (size (delete (hs_id slot) (ss_pending s)) = Nat.pred (size (ss_pending s))) as Hsz
    by (rw map_size_delete_Some //).
  assert (size (ss_pending s) ≠ 0%nat).
  { intros Hz%map_size_empty_inv. by rw Hz lookup_empty in Ep. }
  pose proof (msum_ge (λ _ s, pending_of s) _ _ _ Es) as Hge. simpl in Hge.
  destruct (G3 _ _ Es) as [Hb Hids]. unfold pending_of, sat_sub in *.
  eapply (set_source_inv n g _ s); try done; unfold pending_of; simpl;
    [left; by eexists|by rw Es|lia|lia|lia|].
  intros id t' [_ Hid]%lookup_delete_Some. by eapply Hids.
Qed.

Lemma gate_run_inv n now g ops count g' now' :
  n + len ops ≤ u64_max → pl_max_pending_total (pg_limits g) < usize_max → gate_inv n g →
  gate_run now g ops = (count, g', now') →
  gate_inv (n + len ops) g' ∧ pg_limits g' = pg_limits g.
Proof.
  revert n now g count. induction ops as [|op ops IH]; intros n now g count Hn Hm Hg; simpl.
  { intros [= <- <- <-]. split; [|done]. by rw N.add_0_r. }
  rw len_cons in Hn *. rw N.add_assoc in Hn *.
  destruct (gate_step now g op) as [[ok g1] now1] eqn:Estep.
  assert (gate_inv (n + 1) g1 ∧ pg_limits g1 = pg_limits g) as [Hg1 El].
  { destruct op as [source w|slot w]; simpl in Estep.
    - destruct (PreAuthGate_admit g source (now + w)) as [r g2] eqn:Ea. simplify_eq.
      eapply gate_admit_inv; [|done|done|done]. lia.
    - simplify_eq. destruct (gate_completed_inv n g slot Hg) as [Hc ->]. split; [|done].
      eapply gate_inv_le; [|done]. lia. }
  destruct (gate_run now1 g1 ops) as [[c2 g2] now2] eqn:Erun. intros [= _ <- <-].
  destruct (IH (n + 1) now1 g1 c2) as [? El2]; [done|by rw El|done|done|].
  split; [done|congruence].
Qed.

(** ** The start rate *)

Section Rate.
Context (G W : N).

(** After [w] restarts of the global window at most [w + 1] windows' worth
    of handshakes was admitted, and the restarts are a window apart. *)
Definition rate_inv (total now : N) (g : PreAuthGate) : Prop :=
  pl_max_global_attempts_per_window (pg_limits g) = G ∧ pl_rate_window_ms (pg_limits g) = W ∧
  ∃ w, w * W ≤ pg_global_window_start_ms g ∧ pg_global_window_start_ms g ≤ now ∧
       total ≤ w * G + pg_global_attempts_in_window g ∧ pg_global_attempts_in_window g ≤ G.

Lemma roll_global_rate total now now' g :
  now ≤ now' → now' < u64_max → rate_inv total now g → rate_inv total now' (roll_global g now').
Proof.
  intros Hle HM (El & Ew & w & H1 & H2 & H3 & H4). unfold roll_global. rw Ew.
  destruct (N.leb_spec (sat_add u64_max (pg_global_window_start_ms g) W) now') as [Hs|].
  - rewrite -> (sat_add_exact u64_max _ _ now' Hs HM) in Hs.
    split; [done|]. split; [done|]. exists (w + 1). simpl. lia.
  - split; [done|]. split; [done|]. exists w. lia.
Qed.

Lemma make_room_global g now room g' :
  PreAuthGate_make_room_for_source g now = (room, g') →
  pg_limits g' = pg_limits g ∧
  pg_global_window_start_ms g' = pg_global_window_start_ms g ∧
  pg_global_attempts_in_window g' = pg_global_attempts_in_window g.
Proof.
  unfold PreAuthGate_make_room_for_source. case_match; [by intros [= <- <-]|].
  destruct (min_by _ _) as [[k s]|]; by intros [= <- <-].
Qed.

(** Same limits and global window. *)
Lemma rate_inv_same total now g g' :
  pg_limits g' = pg_limits g → pg_global_window_start_ms g' = pg_global_window_start_ms g →
  pg_global_attempts_in_window g' = pg_global_attempts_in_window g →
  rate_inv total now g → rate_inv total now g'.
Proof. unfold rate_inv. by intros -> -> ->. Qed.

Hypothesis (HG : G ≤ u32_max).

Lemma gate_admit_rate total now now' g source r g' :
  now ≤ now' → now' < u64_max → rate_inv total now g →
  PreAuthGate_admit g source now' = (r, g') →
  rate_inv (total + if is_ok r then 1 else 0) now' g'.
Proof.
  intros Hle HM Hg. pose proof (roll_global_rate _ _ _ _ Hle HM Hg) as Hr.
  assert (rate_inv (total + 0) now' g) as Hg'.
  { destruct Hg as (El & Ew & w & H1 & H2 & H3 & H4). split; [done|]. split; [done|].
    exists w. lia. }
  unfold PreAuthGate_admit. case_match; [by intros [= <- <-]|].
  case_match; [by intros [= <- <-]|]. case_match; [by intros [= <- <-]|].
  set (gr := roll_global g now') in *. clearbody gr.
  rw -(N.add_0_r total) in Hr.
  destruct (N.leb_spec (pl_max_global_attempts_per_window (pg_limits gr))
    (pg_global_attempts_in_window gr)) as [|Hlt]; [by intros [= <- <-]|].
  destruct (if bool_decide _ then _ else _) as [room g1] eqn:Er.
  assert (pg_limits g1 = pg_limits gr ∧
    pg_global_window_start_ms g1 = pg_global_window_start_ms gr ∧
    pg_global_attempts_in_window g1 = pg_global_attempts_in_window gr) as (E1 & E2 & E3).
  { revert Er. destruct (bool_decide (is_Some (pg_sources gr !! _)));
      [by intros [= <- <-]|apply make_room_global]. }
  apply (rate_inv_same _ _ gr g1) in Hr as Hr1; [|done..].
  destruct room; cbn [negb]; [|by intros [= <- <-]].
  destruct (_ <=? N.of_nat _); [intros [= <- <-]; by eapply rate_inv_same|].
  destruct (_ <=? ss_attempts_in_window _); [intros [= <- <-]; by eapply rate_inv_same|].
  intros [= <- <-]. destruct Hr1 as (El & Ew & w & H1' & H2' & H3' & H4').
  split; [done|]. split; [done|]. rw E1 in El. exists w. cbn [pg_global_window_start_ms
    pg_global_attempts_in_window is_ok].
  rewrite -> (sat_add_small u32_max (pg_global_attempts_in_window g1) 1 G) by lia. lia.
Qed.

Lemma gate_run_now now g ops : now ≤ (gate_run now g ops).2.
Proof.
  revert now g. induction ops as [|op ops IH]; intros now g; [done|]. cbn [gate_run].
  destruct (gate_step now g op) as [[ok g1] now1] eqn:Es.
  assert (now ≤ now1).
  { destruct op; simpl in Es; [destruct (PreAuthGate_admit _ _ _)|]; simplify_eq; lia. }
  specialize (IH now1 g1). destruct (gate_run now1 g1 ops) as [[c g2] now2]. simpl in *. lia.
Qed.

Lemma gate_run_rate total now g ops count g' now' :
  rate_inv total now g → gate_run now g ops = (count, g', now') → now' < u64_max →
  rate_inv (total + count) now' g'.
Proof.
  revert total now g count. induction ops as [|op ops IH]; intros total now g count Hg; simpl.
  { intros [= <- <- <-] _. by rw N.add_0_r. }
  destruct (gate_step now g op) as [[ok g1] now1] eqn:Estep.
  pose proof (gate_run_now now1 g1 ops) as Hnow.
  destruct (gate_run now1 g1 ops) as [[c2 g2] now2] eqn:Erun. simpl in Hnow.
  intros [= <- <- <-] HM. rw N.add_assoc. apply (IH _ now1 g1); [|done|done].
  destruct op as [source w|slot w]; simpl in Estep.
  - destruct (PreAuthGate_admit g source (now + w)) as [r g3] eqn:Ea. simplify_eq.
    eapply (gate_admit_rate _ now); [|by eapply N.le_lt_trans|done|done]. lia.
  - simplify_eq. rw N.add_0_r. destruct Hg as (El & Ew & w' & H1 & H2 & H3 & H4).
    apply (rate_inv_same _ _ g).
    1-3: unfold PreAuthGate_completed; by repeat case_match.
    split; [done|]. split; [done|]. exists w'. lia.
Qed.
End Rate.

Lemma build_ok b l :
  PreAuthLimitsBuilder_build b = Ok l →
  1 ≤ pl_max_pending_total l ≤ 65536 ∧ 1 ≤ pl_rate_window_ms l ∧
  pl_max_global_attempts_per_window l ≤ 60000 ∧
  pl_max_pending_per_source l ≤ pl_max_pending_total l.
Proof.
  unfold PreAuthLimitsBuilder_build, out_of_range, MAX_CONFIGURED_LIMIT,
    MAX_CONFIGURED_DURATION_MS, MAX_CONFIGURED_ATTEMPTS.
  repeat case_match; intros [= <-]. simpl. repeat match goal with
    | H : (_ || _) = false |- _ => apply orb_false_elim in H as [?%N.eqb_neq ?%N.ltb_ge]
    | H : (_ <? _) = false |- _ => apply N.ltb_ge in H end. lia.
Qed.

(** with limits that validated, over every history of admissions and
    completions (of genuine or made-up slots), the number of handshakes in
    flight is exactly the number the sources hold, never more than
    [max_pending_total], no source holds more than [max_pending_per_source],
    and no more than [max_sources] sources are tracked. *)
Theorem preauth_gate_bounds (b : PreAuthLimitsBuilder) (l : PreAuthLimits)
    (now count now' : N) (ops : list gate_op) (g : PreAuthGate) :
  PreAuthLimitsBuilder_build b = Ok l →
  gate_run now (PreAuthGate_new l) ops = (count, g, now') → len ops ≤ u64_max →
  PreAuthGate_pending g = msum (λ _ s, pending_of s) (pg_sources g) ∧
  PreAuthGate_pending g ≤ pl_max_pending_total l ∧
  PreAuthGate_tracked_sources g ≤ pl_max_sources l ∧
  ∀ k s, pg_sources g !! k = Some s → pending_of s ≤ pl_max_pending_per_source l.
Proof.
  intros Hb Hrun Hlen. apply build_ok in Hb as ([_ Hmax] & _).
  destruct (gate_run_inv 0 now (PreAuthGate_new l) ops count g now') as [[H1 H2 H3 H4 _] El];
    [lia| |apply gate_new_inv|done|].
  { apply N.le_lt_trans with 65536; [done|by vm_compute]. }
  rw El in H2 H3 H4. split_and!; try done. intros k s Hk. by apply (H3 k s).
Qed.

Definition demo_limits : PreAuthLimitsBuilder := MkPreAuthLimitsBuilder 3 1 100 8 1000 2 2.
Definition demo_gate_ops : list gate_op :=
  [GAdmit (bs "a") 0; GAdmit (bs "a") 1; GAdmit (bs "b") 1; GAdmit (bs "c") 1;
   GCompleted (MkHandshakeSlot (bs "a") 0 0) 1; GCompleted (MkHandshakeSlot (bs "a") 0 0) 1;
   GAdmit (bs "c") 2000].
Definition demo_built : PreAuthLimits := MkPreAuthLimits 3 1 100 8 1000 2 2.
Definition demo_gate : N * PreAuthGate * N :=
  gate_run 10 (PreAuthGate_new demo_built) demo_gate_ops.
Example demo_gate_counts : demo_gate.1.1 = 3 ∧ PreAuthGate_pending demo_gate.1.2 = 2.
Proof. by vm_compute. Qed.

Lemma preauth_gate_bounds_witness :
  PreAuthGate_pending demo_gate.1.2 = msum (λ _ s, pending_of s) (pg_sources demo_gate.1.2).
Proof.
  refine (proj1 (preauth_gate_bounds demo_limits demo_built 10 demo_gate.1.1 demo_gate.2
    demo_gate_ops demo_gate.1.2 _ _ _)).
  - by vm_compute.
  - by vm_compute.
  - by vm_compute.
Defined.

(** however many sources an attacker controls and however fast its
    handshakes complete, with limits that validated at most
    [max_global_attempts_per_window] handshakes are started per window of
    elapsed time, plus one window's worth. *)
Theorem preauth_global_rate (b : PreAuthLimitsBuilder) (l : PreAuthLimits)
    (now count now' : N) (ops : list gate_op) (g : PreAuthGate) :
  PreAuthLimitsBuilder_build b = Ok l →
  gate_run now (PreAuthGate_new l) ops = (count, g, now') → now' < u64_max →
  count ≤ pl_max_global_attempts_per_window l * (now' / pl_rate_window_ms l + 1).
Proof.
  intros Hb Hrun HM. apply build_ok in Hb as (_ & HW & HG & _).
  destruct (gate_run_rate (pl_max_global_attempts_per_window l) (pl_rate_window_ms l)
    ltac:(etrans; [exact HG|by vm_compute]) 0 now (PreAuthGate_new l) ops count g now')
    as (_ & _ & w & H1 & H2 & H3 & H4); [|done|done|].
  { split; [done|]. split; [done|]. exists 0. simpl. lia. }
  set (G := pl_max_global_attempts_per_window l) in *. set (W := pl_rate_window_ms l) in *.
  assert (w ≤ now' / W) by (apply N.div_le_lower_bound; lia). nia.
Qed.

Lemma preauth_global_rate_witness : demo_gate.1.1 ≤ 2 * (demo_gate.2 / 1000 + 1).
Proof.
  refine (preauth_global_rate demo_limits demo_built 10 demo_gate.1.1 demo_gate.2
    demo_gate_ops demo_gate.1.2 _ _ _).
  - by vm_compute.
  - by vm_compute.
  - by vm_compute.
Defined.

(** ** Source buckets *)

(** The address a source names, when it names one. *)
Definition source_ip (source : bytes) : option IpAddr :=
  match parse_socket_ip source with Some ip => Some ip | None => parse_ip source end.

Lemma bucket_ip_wf ip : ip_wf ip → ip_wf (bucket_ip ip).
Proof.
  destruct ip as [o|o]; simpl; [done|]. intros Ho. unfold bucket_ip, to_ipv4_mapped.
  case_bool_decide; simpl.
  - by rw length_drop Ho.
  - by rw length_app length_take Ho.
Qed.

Lemma source_ip_wf s ip : source_ip s = Some ip → ip_wf ip.
Proof.
  unfold source_ip. destruct (parse_socket_ip s) eqn:E; intros Hip.
  - apply (parsed_wf s). left. congruence.
  - apply (parsed_wf s). by right.
Qed.

Definition print_bucket (ip : IpAddr) : bytes :=
  match ip with V4 o => display_v4 o | V6 o => display_v6 o ++ bs "/64" end.

Lemma source_bucket_alt s :
  source_bucket s = match source_ip s with Some ip => print_bucket (bucket_ip ip) | None => s end.
Proof. done. Qed.

Lemma print_bucket_inj a b : ip_wf a → ip_wf b → print_bucket a = print_bucket b → a = b.
Proof.
  destruct a as [a|a], b as [b|b]; simpl; intros Ha Hb E.
  - destruct (v4_reads_back a Ha) as [_ H1], (v4_reads_back b Hb) as [_ H2]. rw E in H1. congruence.
  - destruct (v4_reads_back a Ha) as [_ H1], (prefix_no_address b Hb) as [_ H2]. rw E in H1. congruence.
  - destruct (v4_reads_back b Hb) as [_ H1], (prefix_no_address a Ha) as [_ H2]. rw -E in H1. congruence.
  - apply app_inv_tail in E. pose proof (v6_reads_back a Ha) as H1.
    pose proof (v6_reads_back b Hb) as H2. rw E in H1. congruence.
Qed.

Lemma bucket_ip_v4 o : bucket_ip (V4 o) = V4 o.
Proof. done. Qed.

(** a source is accounted under its address and nothing finer.  Two
    sources that name addresses share a bucket exactly when they are the same
    IPv4 address or have the same /64 prefix: the port never matters, an
    IPv4-mapped IPv6 address is the IPv4 address it maps, so IPv4 clients on
    a dual-stack listener stay apart from each other, and bucketing what is
    already a bucket changes nothing. *)
Theorem source_buckets (s1 s2 : bytes) (ip1 ip2 : IpAddr) :
  source_ip s1 = Some ip1 → source_ip s2 = Some ip2 →
  (source_bucket s1 = source_bucket s2 ↔ bucket_ip ip1 = bucket_ip ip2) ∧
  (∀ a b, length a = 4%nat → length b = 4%nat →
     bucket_ip (V6 (replicate 10 x00 ++ [xff; xff] ++ a)) = bucket_ip (V4 a) ∧
     (bucket_ip (V4 a) = bucket_ip (V4 b) → a = b)) ∧
  source_bucket (source_bucket s1) = source_bucket s1.
Proof.
  intros H1 H2. pose proof (source_ip_wf _ _ H1) as W1. pose proof (source_ip_wf _ _ H2) as W2.
  apply bucket_ip_wf in W1, W2. split; [|split].
  - rw !source_bucket_alt H1 H2. split; [|by intros ->]. by apply print_bucket_inj.
  - intros a b Ha Hb. split; [|by intros [=]].
    unfold bucket_ip, to_ipv4_mapped. rw app_assoc take_app_length'; [|done].
    rw bool_decide_eq_true_2 //.
  - rw source_bucket_alt source_bucket_alt H1. destruct (bucket_ip ip1) as [o|o] eqn:E; simpl in *.
    + destruct (v4_reads_back o W1) as [Hs Hp]. unfold source_ip. by rw Hs Hp.
    + destruct (prefix_no_address o W1) as [Hs Hp]. unfold source_ip. by rw Hs Hp.
Qed.

Lemma source_buckets_witness :
  source_bucket (bs "[2001:db8:0:1::7]:49152") = source_bucket (bs "2001:db8:0:1::8").
Proof.
  apply (proj1 (source_buckets (bs "[2001:db8:0:1::7]:49152") (bs "2001:db8:0:1::8")
    (V6 [x20; x01; x0d; xb8; x00; x00; x00; x01; x00; x00; x00; x00; x00; x00; x00; x07])
    (V6 [x20; x01; x0d; xb8; x00; x00; x00; x01; x00; x00; x00; x00; x00; x00; x00; x08])
    ltac:(by vm_compute) ltac:(by vm_compute))).
  by vm_compute.
Defined.
