(* ===== verification/Relay.v ===== *)
(** * Relay reservations

    [crates/transport/runtime/src/relay.rs]: which relays are asked for a
    reservation, the state of each (idle, requested, active, backing off), the
    retry ladder, and the surplus given up when direct reachability is
    verified. *)
From S2P Require Import Prelude Ids.
Local Open Scope N_scope.

Definition MAX_STATIC_RELAYS : N := 16.
Definition MAX_LEARNED_RELAYS : N := 16.
Definition MAX_ADDRESSES_PER_RELAY : N := 8.
Definition RELAY_MAX_RESERVATIONS_CEILING : N := 8.
Definition DEFAULT_RETRY_MIN_MS : N := 5000.
Definition DEFAULT_RETRY_MAX_MS : N := 5 * 60000.

(** [status.rs] *)
Inductive DirectInboundState := DI_Unknown | VerifiedPublic | NotVerified.

Record ReservationConfig := MkReservationConfig {
  rc_target_private_or_unknown : N;
  rc_target_public : N;
  rc_max_reservations : N;
  rc_retry_min_ms : N;
  rc_retry_max_ms : N
}.
Definition ReservationConfig_default : ReservationConfig :=
  MkReservationConfig 2 1 4 DEFAULT_RETRY_MIN_MS DEFAULT_RETRY_MAX_MS.

Inductive RelayConfigError := CE_MaxReservations | CE_Targets | CE_Retry.
Inductive RelaySource := Static | Learned.

Inductive ReservationState :=
| Idle
| Requested (since_ms attempts : N)
| Active (since_ms : N) (addresses : list bytes)
| Backoff (until_ms attempts : N).

Record Candidate := MkCandidate {
  ca_addresses : list bytes;
  ca_source : RelaySource;
  ca_state : ReservationState;
  ca_lifted_at_ms : option N
}.

Inductive Action :=
| Reserve (relay : TransportIdentity) (addresses : list bytes)
| Release (relay : TransportIdentity) (addresses : list bytes).

Inductive RefusedRelayReport :=
| UnknownRelay | UnrequestedAcceptance | UnrequestedFailure | EmptyAddress | AddressesFull.

Inductive Standing := Satisfied | Partial | StandingNone.

#[global] Instance DirectInboundState_eq_dec : EqDecision DirectInboundState.
Proof. solve_decision. Defined.
#[global] Instance RelaySource_eq_dec : EqDecision RelaySource.
Proof. solve_decision. Defined.
#[global] Instance ReservationState_eq_dec : EqDecision ReservationState.
Proof. solve_decision. Defined.
#[global] Instance Candidate_eq_dec : EqDecision Candidate.
Proof. solve_decision. Defined.
#[global] Instance Action_eq_dec : EqDecision Action.
Proof. solve_decision. Defined.
#[global] Instance RefusedRelayReport_eq_dec : EqDecision RefusedRelayReport.
Proof. solve_decision. Defined.

Definition set_state (c : Candidate) (s : ReservationState) : Candidate :=
  MkCandidate (ca_addresses c) (ca_source c) s (ca_lifted_at_ms c).

Definition Candidate_add_address (c : Candidate) (address : bytes) : bool * Candidate :=
  if existsb (λ a, bool_decide (a = address)) (ca_addresses c) then (true, c)
  else if MAX_ADDRESSES_PER_RELAY <=? len (ca_addresses c) then (false, c)
  else (true, MkCandidate (ca_addresses c ++ [address]) (ca_source c) (ca_state c)
                (ca_lifted_at_ms c)).

Record ReservationManager := MkReservationManager {
  mg_config : ReservationConfig;
  mg_candidates : gmap TransportIdentity Candidate;
  mg_direct_inbound : DirectInboundState
}.
Definition set_candidates (m : ReservationManager) (c : gmap TransportIdentity Candidate) :
    ReservationManager :=
  MkReservationManager (mg_config m) c (mg_direct_inbound m).

Definition ReservationManager_new (config : ReservationConfig) :
    result ReservationManager RelayConfigError :=
  if (rc_max_reservations config =? 0) ||
     (RELAY_MAX_RESERVATIONS_CEILING <? rc_max_reservations config)
  then Err CE_MaxReservations
  else if (rc_max_reservations config <? rc_target_private_or_unknown config) ||
          (rc_max_reservations config <? rc_target_public config) ||
          (rc_target_private_or_unknown config <? rc_target_public config)
  then Err CE_Targets
  else if (rc_retry_min_ms config =? 0) || (rc_retry_max_ms config <? rc_retry_min_ms config)
  then Err CE_Retry
  else Ok (MkReservationManager config ∅ DI_Unknown).

(** [values().filter(..).count()] *)
Definition count_by (p : Candidate → bool) (m : gmap TransportIdentity Candidate) : N :=
  msum (λ _ c, if p c then 1 else 0) m.
Definition is_source (s : RelaySource) (c : Candidate) : bool := bool_decide (ca_source c = s).
Definition is_active (c : Candidate) : bool :=
  match ca_state c with Active _ _ => true | _ => false end.
Definition is_requested (c : Candidate) : bool :=
  match ca_state c with Requested _ _ => true | _ => false end.

Definition ReservationManager_count (m : ReservationManager) (source : RelaySource) : N :=
  count_by (is_source source) (mg_candidates m).

Definition ReservationManager_add_static (m : ReservationManager) (relay : TransportIdentity)
    (address : bytes) : bool * ReservationManager :=
  if bool_decide (address = []) then (false, m)
  else
    let static_full := MAX_STATIC_RELAYS <=? ReservationManager_count m Static in
    match mg_candidates m !! relay with
    | Some candidate =>
        match ca_source candidate with
        | Learned =>
            if static_full then (false, m)
            else (true,
                  set_candidates m
                    (<[relay := MkCandidate [address] Static (ca_state candidate)
                                  (ca_lifted_at_ms candidate)]> (mg_candidates m)))
        | Static =>
            let '(ok, candidate) := Candidate_add_address candidate address in
            (ok, set_candidates m (<[relay := candidate]> (mg_candidates m)))
        end
    | None =>
        if static_full then (false, m)
        else (true,
              set_candidates m
                (<[relay := MkCandidate [address] Static Idle None]> (mg_candidates m)))
    end.

Definition ReservationManager_learn (m : ReservationManager) (relay : TransportIdentity)
    (address : bytes) : bool * ReservationManager :=
  if bool_decide (address = []) then (false, m)
  else
    match mg_candidates m !! relay with
    | Some candidate =>
        match ca_source candidate with
        | Static => (true, m)
        | Learned =>
            let '(ok, candidate) := Candidate_add_address candidate address in
            (ok, set_candidates m (<[relay := candidate]> (mg_candidates m)))
        end
    | None =>
        if MAX_LEARNED_RELAYS <=? ReservationManager_count m Learned then (false, m)
        else (true,
              set_candidates m
                (<[relay := MkCandidate [address] Learned Idle None]> (mg_candidates m)))
    end.

Definition ReservationManager_forget (m : ReservationManager) (relay : TransportIdentity) :
    list bytes * ReservationManager :=
  (match ca_state <$> mg_candidates m !! relay with
   | Some (Active _ addresses) => addresses
   | _ => []
   end,
   set_candidates m (delete relay (mg_candidates m))).

Definition ReservationManager_target (m : ReservationManager) : N :=
  let wanted :=
    match mg_direct_inbound m with
    | VerifiedPublic => rc_target_public (mg_config m)
    | DI_Unknown | NotVerified => rc_target_private_or_unknown (mg_config m)
    end in
  let cap := N.min (rc_max_reservations (mg_config m)) wanted in
  N.min cap (N.of_nat (size (mg_candidates m))).

Definition ReservationManager_active (m : ReservationManager) : N :=
  count_by is_active (mg_candidates m).
Definition ReservationManager_requested (m : ReservationManager) : N :=
  count_by is_requested (mg_candidates m).

Definition ReservationManager_advertised (m : ReservationManager) : list bytes :=
  btree_to_list (mg_candidates m) ≫= λ kc,
    match ca_state kc.2 with Active _ addresses => addresses | _ => [] end.

Definition ReservationManager_standing (m : ReservationManager) : Standing :=
  let target := ReservationManager_target m in
  if target =? 0 then StandingNone
  else if target <=? ReservationManager_active m then Satisfied
  else Partial.

(** Can this candidate be asked at [now_ms]? *)
Definition can_ask (now_ms : N) (c : Candidate) : bool :=
  match ca_state c with
  | Idle => true
  | Backoff until_ms _ => until_ms <=? now_ms
  | Requested _ _ | Active _ _ => false
  end.
(** [Static < Learned], the derived order. *)
Definition source_rank (s : RelaySource) : N := match s with Static => 0 | Learned => 1 end.

Definition ask_leb (a b : TransportIdentity * Candidate) : bool :=
  let sa := source_rank (ca_source a.2) in
  let sb := source_rank (ca_source b.2) in
  (sa <? sb) || ((sa =? sb) && key_leb a.1 b.1).

Definition ReservationManager_askable (m : ReservationManager) (now_ms : N) :
    list TransportIdentity :=
  (sort_by ask_leb
     (filter (λ kc, can_ask now_ms kc.2 = true) (btree_to_list (mg_candidates m)))).*1.
Definition ReservationManager_askable_now (m : ReservationManager) (now_ms : N) : N :=
  len (ReservationManager_askable m now_ms).

(** The order surplus reservations are given up in: learned before static,
    then the youngest first. *)
Definition surplus_leb (a b : TransportIdentity * RelaySource * N) : bool :=
  let '(_, sa, ta) := a in
  let '(_, sb, tb) := b in
  (source_rank sb <? source_rank sa) || ((source_rank sa =? source_rank sb) && (tb <=? ta)).

Definition held_active (m : ReservationManager) : list (TransportIdentity * RelaySource * N) :=
  omap (λ kc, match ca_state kc.2 with
              | Active since _ => Some (kc.1, ca_source kc.2, since)
              | _ => None
              end) (btree_to_list (mg_candidates m)).

(** One relay given up. *)
Definition release_one (st : gmap TransportIdentity Candidate * list Action)
    (relay : TransportIdentity) : gmap TransportIdentity Candidate * list Action :=
  match st.1 !! relay with
  | Some candidate =>
      match ca_state candidate with
      | Active _ addresses =>
          (<[relay := set_state candidate Idle]> st.1, st.2 ++ [Release relay addresses])
      | _ => st
      end
  | None => st
  end.

Definition ReservationManager_release_surplus (m : ReservationManager) :
    list Action * ReservationManager :=
  let target := ReservationManager_target m in
  let active := ReservationManager_active m in
  if active <=? target then ([], m)
  else
    let held := sort_by surplus_leb (held_active m) in
    let victims := (λ h, h.1.1) <$> ntake (active - target) held in
    let '(candidates, actions) := foldl release_one (mg_candidates m, []) victims in
    (actions, set_candidates m candidates).

Definition ReservationManager_set_direct_inbound (m : ReservationManager)
    (state : DirectInboundState) : list Action * ReservationManager :=
  ReservationManager_release_surplus
    (MkReservationManager (mg_config m) (mg_candidates m) state).

(** One relay asked. *)
Definition ask_one (now_ms : N) (st : gmap TransportIdentity Candidate * list Action)
    (relay : TransportIdentity) : gmap TransportIdentity Candidate * list Action :=
  match st.1 !! relay with
  | Some candidate =>
      let attempts := match ca_state candidate with Backoff _ attempts => attempts | _ => 0 end in
      (<[relay := set_state candidate (Requested now_ms attempts)]> st.1,
       st.2 ++ [Reserve relay (ca_addresses candidate)])
  | None => st
  end.

Definition ReservationManager_tick (m : ReservationManager) (now_ms : N) :
    list Action * ReservationManager :=
  let target := ReservationManager_target m in
  let holding := ReservationManager_active m + ReservationManager_requested m in
  let to_ask := ntake (sat_sub target holding) (ReservationManager_askable m now_ms) in
  let '(candidates, actions) := foldl (ask_one now_ms) (mg_candidates m, []) to_ask in
  let '(released, m) := ReservationManager_release_surplus (set_candidates m candidates) in
  (actions ++ released, m).

Definition ReservationManager_record_accepted (m : ReservationManager) (relay : TransportIdentity)
    (address : bytes) (now_ms : N) : result bool RefusedRelayReport * ReservationManager :=
  if bool_decide (address = []) then (Err EmptyAddress, m)
  else
    match mg_candidates m !! relay with
    | None => (Err UnknownRelay, m)
    | Some candidate =>
        match ca_state candidate with
        | Requested _ _ =>
            (Ok true,
             set_candidates m
               (<[relay := set_state candidate (Active now_ms [address])]> (mg_candidates m)))
        | Active since addresses =>
            if existsb (λ a, bool_decide (a = address)) addresses then (Ok false, m)
            else if MAX_ADDRESSES_PER_RELAY <=? len addresses then (Err AddressesFull, m)
            else
              (Ok true,
               set_candidates m
                 (<[relay := set_state candidate (Active since (addresses ++ [address]))]>
                    (mg_candidates m)))
        | Idle | Backoff _ _ => (Err UnrequestedAcceptance, m)
        end
    end.

Definition ReservationConfig_retry_delay_ms (c : ReservationConfig) (attempts : N) : N :=
  let doubled := sat_mul u64_max (rc_retry_min_ms c) (N.shiftl 1 (N.min attempts 20)) in
  N.min doubled (rc_retry_max_ms c).

Definition ReservationManager_record_failed (m : ReservationManager) (relay : TransportIdentity)
    (now_ms jitter_ms : N) : result (list bytes) RefusedRelayReport * ReservationManager :=
  match mg_candidates m !! relay with
  | None => (Err UnknownRelay, m)
  | Some candidate =>
      let back withdrawn attempts :=
        let delay := ReservationConfig_retry_delay_ms (mg_config m) attempts in
        (Ok withdrawn,
         set_candidates m
           (<[relay := set_state candidate
                (Backoff (sat_add u64_max (sat_add u64_max now_ms delay) (N.min jitter_ms delay))
                   (sat_add u32_max attempts 1))]> (mg_candidates m))) in
      match ca_state candidate with
      | Active _ addresses => back addresses 0
      | Backoff _ attempts | Requested _ attempts => back [] attempts
      | Idle => (Err UnrequestedFailure, m)
      end
  end.

(** One candidate of the [network_added] loop: whether it was made due. *)
Definition lift_one (floor now_ms : N) (held : bool) (c : Candidate) : bool * Candidate :=
  if match ca_lifted_at_ms c with Some at_ms => sat_sub now_ms at_ms <? floor | None => false end
     || held
  then (false, c)
  else
    match ca_state c with
    | Backoff until_ms attempts =>
        if now_ms <? until_ms
        then (true, MkCandidate (ca_addresses c) (ca_source c) (Backoff now_ms attempts)
                      (Some now_ms))
        else (false, c)
    | _ => (false, c)
    end.

Definition ReservationManager_network_added (m : ReservationManager) (now_ms : N)
    (gate_holds : TransportIdentity → bool) : N * ReservationManager :=
  let floor := rc_retry_min_ms (mg_config m) in
  (msum (λ relay c, if (lift_one floor now_ms (gate_holds relay) c).1 then 1 else 0)
     (mg_candidates m),
   set_candidates m
     (map_imap (λ relay c, Some (lift_one floor now_ms (gate_holds relay) c).2)
        (mg_candidates m))).

(** ** Counting *)

Definition is_holding (c : Candidate) : bool := is_active c || is_requested c.
Definition holding (m : gmap TransportIdentity Candidate) : N := count_by is_holding m.

Lemma active_requested m : count_by is_active m + count_by is_requested m = holding m.
Proof.
  unfold holding, count_by. rw -msum_add. apply msum_ext. intros k c _.
  unfold is_holding, is_active, is_requested. by destruct (ca_state c).
Qed.

Lemma count_by_insert p m k c c0 :
  m !! k = Some c0 →
  count_by p (<[k := c]> m) + (if p c0 then 1 else 0) = count_by p m + (if p c then 1 else 0).
Proof. intros Hk. apply (msum_insert (λ _ c, if p c then 1 else 0) _ _ _ c Hk). Qed.
Lemma count_by_fresh p m k c :
  m !! k = None → count_by p (<[k := c]> m) = (if p c then 1 else 0) + count_by p m.
Proof. intros Hk. unfold count_by. by rw msum_insert_fresh. Qed.

(** ** The invariant *)

Definition config_ok (c : ReservationConfig) : Prop :=
  1 ≤ rc_max_reservations c ≤ 8 ∧ rc_target_private_or_unknown c ≤ rc_max_reservations c ∧
  rc_target_public c ≤ rc_target_private_or_unknown c ∧
  1 ≤ rc_retry_min_ms c ≤ rc_retry_max_ms c.

Definition candidate_ok (c : Candidate) : Prop :=
  1 ≤ len (ca_addresses c) ≤ 8 ∧
  match ca_state c with Active _ addresses => 1 ≤ len addresses ≤ 8 | _ => True end.

Record relay_inv (m : ReservationManager) : Prop := {
  rl_config : config_ok (mg_config m);
  rl_static : ReservationManager_count m Static ≤ 16;
  rl_learned : ReservationManager_count m Learned ≤ 16;
  rl_holding : holding (mg_candidates m) ≤ rc_max_reservations (mg_config m);
  rl_candidates : ∀ k c, mg_candidates m !! k = Some c → candidate_ok c
}.

Lemma relay_new_inv c m : ReservationManager_new c = Ok m → relay_inv m ∧ mg_config m = c.
Proof.
  unfold ReservationManager_new, RELAY_MAX_RESERVATIONS_CEILING.
  destruct (_ || _) eqn:E1; [done|]. destruct (_ || _ || _) eqn:E2; [done|].
  destruct ((rc_retry_min_ms c =? 0) || _) eqn:E3; [done|]. intros [= <-].
  apply orb_false_elim in E1 as [?%N.eqb_neq ?%N.ltb_ge].
  apply orb_false_elim in E2 as [[?%N.ltb_ge ?%N.ltb_ge]%orb_false_elim ?%N.ltb_ge].
  apply orb_false_elim in E3 as [?%N.eqb_neq ?%N.ltb_ge]. split; [|done]. split; simpl.
  - unfold config_ok. lia.
  - unfold ReservationManager_count, count_by. simpl. rw msum_empty. lia.
  - unfold ReservationManager_count, count_by. simpl. rw msum_empty. lia.
  - unfold holding, count_by. rw msum_empty. lia.
  - intros k c'. by rw lookup_empty.
Qed.

(** Replacing a candidate by one of the same source that does not start to
    hold, and that is well formed. *)
Lemma relay_inv_replace m k c0 c :
  relay_inv m → mg_candidates m !! k = Some c0 → ca_source c = ca_source c0 → candidate_ok c →
  (is_holding c = true → is_holding c0 = true) →
  relay_inv (set_candidates m (<[k := c]> (mg_candidates m))).
Proof.
  intros [H1 H2 H3 H4 H5] Hk Hs Hok Hh. unfold ReservationManager_count in *.
  assert (∀ s, is_source s c = is_source s c0) as Hsrc by (intros s; unfold is_source; by rw Hs).
  pose proof (λ p, count_by_insert p _ _ c _ Hk) as Hc. split; simpl; try done.
  - unfold ReservationManager_count. simpl. specialize (Hc (is_source Static)). rw Hsrc in Hc. lia.
  - unfold ReservationManager_count. simpl. specialize (Hc (is_source Learned)). rw Hsrc in Hc. lia.
  - specialize (Hc is_holding). unfold holding in *.
    destruct (is_holding c), (is_holding c0); try lia; by specialize (Hh eq_refl).
  - intros k' c'. rw lookup_insert. case_decide; [by intros [= <-]|apply H5].
Qed.

Lemma add_address_ok c a ok c' :
  candidate_ok c → Candidate_add_address c a = (ok, c') →
  candidate_ok c' ∧ ca_source c' = ca_source c ∧ ca_state c' = ca_state c.
Proof.
  intros [H1 H2]. unfold Candidate_add_address, MAX_ADDRESSES_PER_RELAY.
  destruct (existsb _ _); [by intros [= <- <-]|].
  destruct (N.leb_spec 8 (len (ca_addresses c))); intros [= <- <-]; [done|].
  split; [|done]. split; simpl; [|done]. len_simpl. lia.
Qed.

Lemma add_static_inv m k a : relay_inv m → relay_inv (ReservationManager_add_static m k a).2.
Proof.
  intros Hm. pose proof Hm as [H1 H2 H3 H4 H5]. unfold ReservationManager_add_static, MAX_STATIC_RELAYS.
  case_bool_decide as Ha; [done|]. destruct (mg_candidates m !! k) as [c|] eqn:Ek.
  - pose proof (H5 _ _ Ek) as Hok. destruct (ca_source c) eqn:Es.
    + destruct (Candidate_add_address c a) as [ok c'] eqn:Ea.
      destruct (add_address_ok _ _ _ _ Hok Ea) as (Hok' & Hs & Hst). simpl.
      apply (relay_inv_replace _ _ c); try done.
      unfold is_holding, is_active, is_requested. by rw Hst.
    + destruct (N.leb_spec 16 (ReservationManager_count m Static)) as [|Hlt]; [done|]. simpl.
      pose proof (λ p, count_by_insert p _ _ (MkCandidate [a] Static (ca_state c)
        (ca_lifted_at_ms c)) _ Ek) as Hc. unfold ReservationManager_count in *.
      split; simpl; try done.
      * unfold ReservationManager_count. simpl. specialize (Hc (is_source Static)).
        change (is_source Static (MkCandidate _ Static _ _)) with true in Hc.
        destruct (is_source Static c); lia.
      * unfold ReservationManager_count. simpl. specialize (Hc (is_source Learned)).
        change (is_source Learned (MkCandidate _ Static _ _)) with false in Hc.
        destruct (is_source Learned c); lia.
      * specialize (Hc is_holding). unfold holding, is_holding, is_active, is_requested in *.
        simpl in Hc. destruct (ca_state c); simpl in Hc; lia.
      * intros k' c'. rw lookup_insert. case_decide; [|apply H5]. intros [= <-].
        split; simpl; [len_simpl; lia|]. by destruct Hok.
  - destruct (N.leb_spec 16 (ReservationManager_count m Static)) as [|Hlt]; [done|]. simpl.
    pose proof (λ p, count_by_fresh p _ _ (MkCandidate [a] Static Idle None) Ek) as Hc.
    unfold ReservationManager_count in *. split; simpl; try done.
    + unfold ReservationManager_count. simpl. rw Hc. unfold is_source at 1. simpl. lia.
    + unfold ReservationManager_count. simpl. rw Hc. unfold is_source at 1. simpl. lia.
    + unfold holding. rw Hc. simpl. unfold holding in H4. lia.
    + intros k' c'. rw lookup_insert. case_decide; [|apply H5]. intros [= <-].
      split; simpl; [len_simpl; lia|done].
Qed.

Lemma learn_relay_inv m k a : relay_inv m → relay_inv (ReservationManager_learn m k a).2.
Proof.
  intros Hm. pose proof Hm as [H1 H2 H3 H4 H5]. unfold ReservationManager_learn, MAX_LEARNED_RELAYS.
  case_bool_decide as Ha; [done|]. destruct (mg_candidates m !! k) as [c|] eqn:Ek.
  - pose proof (H5 _ _ Ek) as Hok. destruct (ca_source c) eqn:Es; [done|].
    destruct (Candidate_add_address c a) as [ok c'] eqn:Ea.
    destruct (add_address_ok _ _ _ _ Hok Ea) as (Hok' & Hs & Hst). simpl.
    apply (relay_inv_replace _ _ c); try done.
    unfold is_holding, is_active, is_requested. by rw Hst.
  - destruct (N.leb_spec 16 (ReservationManager_count m Learned)) as [|Hlt]; [done|]. simpl.
    pose proof (λ p, count_by_fresh p _ _ (MkCandidate [a] Learned Idle None) Ek) as Hc.
    unfold ReservationManager_count in *. split; simpl; try done.
    + unfold ReservationManager_count. simpl. rw Hc. unfold is_source at 1. simpl. lia.
    + unfold ReservationManager_count. simpl. rw Hc. unfold is_source at 1. simpl. lia.
    + unfold holding. rw Hc. simpl. unfold holding in H4. lia.
    + intros k' c'. rw lookup_insert. case_decide; [|apply H5]. intros [= <-].
      split; simpl; [len_simpl; lia|done].
Qed.

(** ** Asking and giving up, over lists of relays *)

Lemma count_by_list p m :
  count_by p m = len (filter (λ kc, p kc.2 = true) (btree_to_list m)).
Proof.
  unfold count_by, len. rewrite -> btree_to_list_perm.
  induction m as [|k c m Hk IH] using map_ind.
  { by rw msum_empty map_to_list_empty. }
  rw msum_insert_fresh // IH. rewrite -> map_to_list_insert by done. destruct (p c) eqn:Ep.
  - rw filter_cons_True //. simpl. lia.
  - rw filter_cons_False; [done|simpl; congruence].
Qed.

(** The relays of a selection of candidates are distinct. *)
Lemma NoDup_selected (p : Candidate → bool) m :
  NoDup (filter (λ kc, p kc.2 = true) (btree_to_list m)).*1.
Proof.
  eapply sublist_NoDup; [apply (NoDup_btree_keys m)|]. apply fmap_sublist, sublist_filter.
Qed.
Lemma elem_of_selected (p : Candidate → bool) m k :
  k ∈ (filter (λ kc, p kc.2 = true) (btree_to_list m)).*1 → ∃ c, m !! k = Some c ∧ p c = true.
Proof.
  intros ([k' c] & -> & Hin)%list_elem_of_fmap. simpl.
  apply list_elem_of_filter in Hin as [Hp Hin%elem_of_btree_to_list]. by exists c.
Qed.

Lemma held_active_keys m :
  (λ h, h.1.1) <$> held_active m =
  (filter (λ kc, is_active kc.2 = true) (btree_to_list (mg_candidates m))).*1.
Proof.
  unfold held_active. induction (btree_to_list (mg_candidates m)) as [|[k c] l IH]; [done|].
  simpl. destruct (ca_state c) eqn:Es.
  3:{ rw filter_cons_True; [exact (f_equal (cons k) IH)|]. unfold is_active. by rw Es. }
  all: rw filter_cons_False; [done|]; unfold is_active; simpl; by rw Es.
Qed.

Lemma omap_agree {A B} (f g : A → option B) (l : list A) :
  (∀ x, x ∈ l → f x = g x) → omap f l = omap g l.
Proof.
  induction l as [|x l IH]; intros Hfg; [done|].
  assert (omap f l = omap g l) as Hl by (apply IH; intros y Hy; apply Hfg; by right).
  cbn [omap list_omap]. rw (Hfg x); [|by left]. destruct (g x); [f_equal|]; exact Hl.
Qed.

(** What giving [k] up asks the adapter. *)
Definition release_action (cands : gmap TransportIdentity Candidate) (k : TransportIdentity) :
    option Action :=
  match ca_state <$> cands !! k with
  | Some (Active _ addresses) => Some (Release k addresses)
  | _ => None
  end.

(** Giving up [ks] one after the other. *)
Lemma release_fold ks cands acts :
  NoDup ks → (∀ k, k ∈ ks → ∃ c, cands !! k = Some c ∧ is_active c = true) →
  let st := foldl release_one (cands, acts) ks in
  count_by is_active st.1 + len ks = count_by is_active cands ∧
  holding st.1 + len ks = holding cands ∧
  (∀ k, k ∉ ks → st.1 !! k = cands !! k) ∧
  (∀ k c, k ∈ ks → cands !! k = Some c → st.1 !! k = Some (set_state c Idle)) ∧
  size st.1 = size cands ∧
  st.2 = acts ++ omap (release_action cands) ks.
Proof.
  revert cands acts. induction ks as [|k ks IH]; intros cands acts Hnd Hact; simpl.
  { rw !N.add_0_r app_nil_r. split_and!; try done. intros k c Hk. by apply elem_of_nil in Hk. }
  apply NoDup_cons in Hnd as [Hk Hnd]. destruct (Hact k) as (c & Hc & Ha); [by left|].
  pose proof Ha as Ha'. unfold is_active in Ha.
  destruct (ca_state c) as [| |since addrs|] eqn:Es; try done.
  assert (release_one (cands, acts) k =
    (<[k := set_state c Idle]> cands, acts ++ [Release k addrs])) as ->
    by (unfold release_one; simpl; by rw Hc Es).
  destruct (IH (<[k := set_state c Idle]> cands) (acts ++ [Release k addrs]) Hnd)
    as (H1 & H2 & H3 & H4 & H5 & H6).
  { intros k' Hk'. rw lookup_insert_ne; [|by intros ->]. apply Hact. by right. }
  pose proof (count_by_insert is_active _ _ (set_state c Idle) _ Hc) as Ca.
  pose proof (count_by_insert is_holding _ _ (set_state c Idle) _ Hc) as Ch.
  assert (is_holding c = true) as Hh by (unfold is_holding; by rw Ha').
  rw Ha' in Ca. rw Hh in Ch. simpl in Ca, Ch. unfold holding in *.
  rw len_cons. split_and!.
  - lia.
  - lia.
  - intros k' [Hne Hk']%not_elem_of_cons. rw H3 // lookup_insert_ne //.
  - intros k' c' [->|Hk']%elem_of_cons Hc'.
    + rw H3 // lookup_insert_eq. congruence.
    + apply H4; [done|]. rw lookup_insert_ne //. by intros ->.
  - rw H5 map_size_insert_Some //.
  - assert (release_action cands k = Some (Release k addrs)) as ->
      by (unfold release_action; rw Hc /= Es //).
    rw H6 -app_assoc. simpl. do 2 f_equal. apply omap_agree. intros k' Hk'.
    unfold release_action. rw lookup_insert_ne //. by intros ->.
Qed.

(** Asking [ks] one after the other. *)
Lemma ask_fold now ks cands acts :
  NoDup ks → (∀ k, k ∈ ks → ∃ c, cands !! k = Some c ∧ can_ask now c = true) →
  let st := foldl (ask_one now) (cands, acts) ks in
  count_by is_active st.1 = count_by is_active cands ∧
  holding st.1 = holding cands + len ks ∧
  (∀ k, k ∉ ks → st.1 !! k = cands !! k) ∧
  (∀ k c, k ∈ ks → cands !! k = Some c →
     ∃ n, st.1 !! k = Some (set_state c (Requested now n))) ∧
  size st.1 = size cands ∧
  st.2 = acts ++ omap (λ k, Reserve k <$> (ca_addresses <$> cands !! k)) ks.
Proof.
  revert cands acts. induction ks as [|k ks IH]; intros cands acts Hnd Hask; simpl.
  { rw N.add_0_r app_nil_r. split_and!; try done. intros k c Hk. by apply elem_of_nil in Hk. }
  apply NoDup_cons in Hnd as [Hk Hnd]. destruct (Hask k) as (c & Hc & Ha); [by left|].
  assert (is_active c = false ∧ is_requested c = false) as [Hna Hnr].
  { unfold can_ask, is_active, is_requested in *. by destruct (ca_state c). }
  set (n := match ca_state c with Backoff _ n => n | _ => 0 end).
  assert (ask_one now (cands, acts) k =
    (<[k := set_state c (Requested now n)]> cands, acts ++ [Reserve k (ca_addresses c)])) as ->
    by (unfold ask_one; simpl; by rw Hc).
  destruct (IH (<[k := set_state c (Requested now n)]> cands)
    (acts ++ [Reserve k (ca_addresses c)]) Hnd) as (H1 & H2 & H3 & H4 & H5 & H6).
  { intros k' Hk'. rw lookup_insert_ne; [|by intros ->]. apply Hask. by right. }
  pose proof (count_by_insert is_active _ _ (set_state c (Requested now n)) _ Hc) as Ca.
  pose proof (count_by_insert is_holding _ _ (set_state c (Requested now n)) _ Hc) as Ch.
  assert (is_holding c = false) as Hnh by (unfold is_holding; by rw Hna Hnr).
  rw Hna in Ca. rw Hnh in Ch. simpl in Ca, Ch. rw len_cons. split_and!.
  - lia.
  - unfold holding in *. lia.
  - intros k' [Hne Hk']%not_elem_of_cons. rw H3 // lookup_insert_ne //.
  - intros k' c' [->|Hk']%elem_of_cons Hc'.
    + exists n. rw H3 // lookup_insert_eq. congruence.
    + apply H4; [done|]. rw lookup_insert_ne //. by intros ->.
  - rw H5 map_size_insert_Some //.
  - rw H6 Hc -app_assoc. simpl. do 2 f_equal. apply omap_agree. intros k' Hk'.
    rw lookup_insert_ne //. by intros ->.
Qed.

(** A map whose every entry is matched by one of [m] that [p] holds for when
    it does, counts no more than [m]. *)
Lemma count_by_le p (m' m : gmap TransportIdentity Candidate) :
  (∀ k c', m' !! k = Some c' → ∃ c, m !! k = Some c ∧ (p c' = true → p c = true)) →
  count_by p m' ≤ count_by p m.
Proof.
  revert m. induction m' as [|k c' m' Hk IH] using map_ind; intros m Hle.
  { unfold count_by at 1. rw msum_empty. lia. }
  rw count_by_fresh //. destruct (Hle k c') as (c & Hc & Hp); [apply lookup_insert_eq|].
  unfold count_by at 2. rw (msum_delete _ _ _ _ Hc). simpl.
  assert (count_by p m' ≤ count_by p (delete k m)) as Hrest.
  { apply IH. intros k' c'' Hk'. assert (k ≠ k') by (intros ->; congruence).
    destruct (Hle k' c'') as (c0 & ? & ?); [by rw lookup_insert_ne|]. exists c0.
    by rw lookup_delete_ne. }
  unfold count_by in Hrest at 2. destruct (p c'); [rw Hp //|]; destruct (p c); lia.
Qed.

(** [m'] is [m] with only reservation states changed: the same relays, each
    with its source, its addresses, and a well-formed state. *)
Definition states_only (m' m : gmap TransportIdentity Candidate) : Prop :=
  ∀ k c', m' !! k = Some c' →
    ∃ c, m !! k = Some c ∧ ca_source c' = ca_source c ∧ (candidate_ok c → candidate_ok c').

Lemma states_only_inv m cands :
  relay_inv m → states_only cands (mg_candidates m) →
  holding cands ≤ rc_max_reservations (mg_config m) → relay_inv (set_candidates m cands).
Proof.
  intros [H1 H2 H3 H4 H5] Hst Hh. assert (∀ s, count_by (is_source s) cands ≤
    count_by (is_source s) (mg_candidates m)) as Hcount.
  { intros s. apply count_by_le. intros k c' Hk. destruct (Hst _ _ Hk) as (c & ? & Hs & _).
    exists c. split; [done|]. unfold is_source. by rw Hs. }
  unfold ReservationManager_count in *. split; try done; unfold ReservationManager_count; simpl.
  - etrans; [apply Hcount|done].
  - etrans; [apply Hcount|done].
  - intros k c' Hk. destruct (Hst _ _ Hk) as (c & Hc & _ & Hok). eauto.
Qed.

(** ** Surplus and tick *)

Lemma take_fmap_keys {A B} (f : A → B) n (l : list A) : f <$> ntake n l = ntake n (f <$> l).
Proof. unfold ntake. by rw fmap_take. Qed.
Lemma ntake_elem {A} n (l : list A) x : x ∈ ntake n l → x ∈ l.
Proof. unfold ntake. intros (i & Hi & _)%elem_of_take. by eapply list_elem_of_lookup_2. Qed.

(** The relays given up by [release_surplus], in the order they are. *)
Definition surplus_order (m : ReservationManager) : list (TransportIdentity * RelaySource * N) :=
  sort_by surplus_leb (held_active m).
Definition surplus_victims (m : ReservationManager) : list TransportIdentity :=
  ntake (ReservationManager_active m - ReservationManager_target m)
    ((λ h, h.1.1) <$> surplus_order m).

Lemma surplus_keys_perm m :
  (λ h, h.1.1) <$> surplus_order m ≡ₚ
  (filter (λ kc, is_active kc.2 = true) (btree_to_list (mg_candidates m))).*1.
Proof. unfold surplus_order. rewrite -> sort_by_perm. by rw held_active_keys. Qed.

Lemma surplus_victims_ok m :
  NoDup (surplus_victims m) ∧
  (∀ k, k ∈ surplus_victims m → ∃ c, mg_candidates m !! k = Some c ∧ is_active c = true) ∧
  len (surplus_victims m) = ReservationManager_active m - ReservationManager_target m.
Proof.
  unfold surplus_victims. split_and!.
  - unfold ntake. eapply sublist_NoDup; [|apply sublist_take].
    rewrite -> surplus_keys_perm. apply NoDup_selected.
  - intros k Hk%ntake_elem. rewrite -> surplus_keys_perm in Hk. by apply elem_of_selected in Hk.
  - apply len_ntake. unfold len. rewrite -> surplus_keys_perm. rw length_fmap.
    change (N.of_nat (length ?l)) with (len l). rw -count_by_list. unfold ReservationManager_active.
    lia.
Qed.

Lemma release_surplus_eq m :
  ReservationManager_target m < ReservationManager_active m →
  ReservationManager_release_surplus m =
  let st := foldl release_one (mg_candidates m, []) (surplus_victims m) in
  (st.2, set_candidates m st.1).
Proof.
  intros Hlt. unfold ReservationManager_release_surplus, surplus_victims, surplus_order.
  rewrite -> (proj2 (N.leb_gt _ _) Hlt). rw take_fmap_keys. by destruct (foldl _ _ _).
Qed.

(** [release_surplus] in full: at or below the target nothing happens; above
    it, the first relays of the surplus order go idle, as many as the surplus,
    each with the addresses it advertised, and nothing else changes. *)
Lemma release_surplus_spec m acts m' :
  ReservationManager_release_surplus m = (acts, m') →
  let vs := surplus_victims m in
  m' = set_candidates m (mg_candidates m') ∧
  size (mg_candidates m') = size (mg_candidates m) ∧
  ReservationManager_active m' + len vs = ReservationManager_active m ∧
  holding (mg_candidates m') + len vs = holding (mg_candidates m) ∧
  (∀ k, k ∉ vs → mg_candidates m' !! k = mg_candidates m !! k) ∧
  (∀ k c, k ∈ vs → mg_candidates m !! k = Some c →
     mg_candidates m' !! k = Some (set_state c Idle)) ∧
  acts = omap (release_action (mg_candidates m)) vs.
Proof.
  intros Heq vs. destruct (surplus_victims_ok m) as (Hnd & Hact & Hlen). fold vs in Hnd, Hact, Hlen.
  destruct (N.lt_ge_cases (ReservationManager_target m) (ReservationManager_active m)) as [Hlt|Hge].
  - rewrite -> (release_surplus_eq _ Hlt) in Heq. injection Heq as <- <-.
    destruct (release_fold vs (mg_candidates m) [] Hnd Hact) as (H1 & H2 & H3 & H4 & H5 & H6).
    unfold ReservationManager_active. simpl. split_and!; try done.
  - assert (vs = []) as Hnil by (apply length_zero_iff_nil; unfold len in Hlen; lia).
    unfold ReservationManager_release_surplus in Heq. rewrite -> (proj2 (N.leb_le _ _) Hge) in Heq.
    simplify_eq. rw Hnil. change (len []) with 0. rw !N.add_0_r. split_and!; try done.
    + by destruct m'.
    + intros k c Hk. by apply elem_of_nil in Hk.
Qed.

Lemma set_state_ok c st :
  candidate_ok c → match st with Active _ addresses => 1 ≤ len addresses ≤ 8 | _ => True end →
  candidate_ok (set_state c st).
Proof. intros [H1 H2] H3. by split. Qed.

Lemma release_surplus_inv m : relay_inv m → relay_inv (ReservationManager_release_surplus m).2.
Proof.
  intros Hm. destruct (ReservationManager_release_surplus m) as [acts m'] eqn:E. simpl.
  destruct (release_surplus_spec _ _ _ E) as (-> & _ & _ & H4 & H5 & H6 & _).
  destruct (surplus_victims_ok m) as (_ & Hact & _). simpl in *. apply states_only_inv; [done| |].
  - intros k c' Hk. destruct (decide (k ∈ surplus_victims m)) as [Hin|Hout].
    + destruct (Hact _ Hin) as (c & Hc & _). exists c. rw (H6 _ _ Hin Hc) in Hk. simplify_eq.
      split_and!; try done. intros. by apply set_state_ok.
    + rw (H5 _ Hout) in Hk. by exists c'.
  - pose proof (rl_holding _ Hm). lia.
Qed.

Lemma release_surplus_at_target m :
  ReservationManager_active (ReservationManager_release_surplus m).2 =
  N.min (ReservationManager_active m) (ReservationManager_target m) ∧
  ReservationManager_target (ReservationManager_release_surplus m).2 = ReservationManager_target m.
Proof.
  destruct (ReservationManager_release_surplus m) as [acts m'] eqn:E. simpl.
  destruct (release_surplus_spec _ _ _ E) as (Hm & H2 & H3 & _).
  destruct (surplus_victims_ok m) as (_ & _ & Hlen). split; [lia|]. rw Hm.
  unfold ReservationManager_target. simpl. by rw H2.
Qed.

Lemma set_direct_inbound_inv m s :
  relay_inv m → relay_inv (ReservationManager_set_direct_inbound m s).2.
Proof. intros [H1 H2 H3 H4 H5]. apply release_surplus_inv. by split. Qed.

(** ** The tick *)

Definition tick_asked (m : ReservationManager) (now_ms : N) : list TransportIdentity :=
  ntake (sat_sub (ReservationManager_target m)
           (ReservationManager_active m + ReservationManager_requested m))
    (ReservationManager_askable m now_ms).

Lemma tick_asked_ok m now :
  NoDup (tick_asked m now) ∧
  (∀ k, k ∈ tick_asked m now → ∃ c, mg_candidates m !! k = Some c ∧ can_ask now c = true) ∧
  len (tick_asked m now) ≤ sat_sub (ReservationManager_target m) (holding (mg_candidates m)).
Proof.
  assert (ReservationManager_askable m now ≡ₚ
    (filter (λ kc, can_ask now kc.2 = true) (btree_to_list (mg_candidates m))).*1) as Hp
    by (unfold ReservationManager_askable; by rewrite -> sort_by_perm).
  unfold tick_asked. split_and!.
  - unfold ntake. eapply sublist_NoDup; [|apply sublist_take]. rewrite -> Hp. apply NoDup_selected.
  - intros k Hk%ntake_elem. rewrite -> Hp in Hk. by apply elem_of_selected in Hk.
  - unfold ReservationManager_active, ReservationManager_requested. rw active_requested.
    unfold len, ntake. rw length_take. lia.
Qed.

Definition reserve_action (cands : gmap TransportIdentity Candidate) (k : TransportIdentity) :
    option Action := Reserve k <$> (ca_addresses <$> cands !! k).

(** The state a tick reaches before it gives surplus up. *)
Lemma tick_ask_spec m now :
  let ks := tick_asked m now in
  ∃ cands,
    ReservationManager_tick m now =
    (let '(released, m') := ReservationManager_release_surplus (set_candidates m cands) in
     (omap (reserve_action (mg_candidates m)) ks ++ released, m')) ∧
    ReservationManager_active (set_candidates m cands) = ReservationManager_active m ∧
    holding cands = holding (mg_candidates m) + len ks ∧
    (∀ k, k ∉ ks → cands !! k = mg_candidates m !! k) ∧
    (∀ k c, k ∈ ks → mg_candidates m !! k = Some c →
       ∃ n, cands !! k = Some (set_state c (Requested now n))) ∧
    size cands = size (mg_candidates m).
Proof.
  intros ks. destruct (tick_asked_ok m now) as (Hnd & Hask & _).
  destruct (ask_fold now ks (mg_candidates m) [] Hnd Hask) as (H1 & H2 & H3 & H4 & H5 & H6).
  exists (foldl (ask_one now) (mg_candidates m, []) ks).1. split_and!; try done.
  unfold ReservationManager_tick. fold (tick_asked m now). fold ks.
  destruct (foldl (ask_one now) (mg_candidates m, []) ks) as [cands acts] eqn:E. simpl in *.
  by rw H6.
Qed.

Lemma target_set_candidates m cands :
  size cands = size (mg_candidates m) →
  ReservationManager_target (set_candidates m cands) = ReservationManager_target m.
Proof. intros Hs. unfold ReservationManager_target. simpl. by rw Hs. Qed.

Lemma target_le_max m : ReservationManager_target m ≤ rc_max_reservations (mg_config m).
Proof. unfold ReservationManager_target. lia. Qed.

Lemma tick_inv m now : relay_inv m → relay_inv (ReservationManager_tick m now).2.
Proof.
  intros Hm. destruct (tick_ask_spec m now) as (cands & -> & _ & H2 & H3 & H4 & H5).
  destruct (tick_asked_ok m now) as (_ & Hask & Hlen).
  assert (relay_inv (set_candidates m cands)) as Hm'.
  { apply states_only_inv; [done| |].
    - intros k c' Hk. destruct (decide (k ∈ tick_asked m now)) as [Hin|Hout].
      + destruct (Hask _ Hin) as (c & Hc & _). exists c. destruct (H4 _ _ Hin Hc) as [n Hn].
        rw Hn in Hk. simplify_eq. split_and!; try done. intros. by apply set_state_ok.
      + rw (H3 _ Hout) in Hk. by exists c'.
    - pose proof (target_le_max m). pose proof (rl_holding _ Hm).
      unfold sat_sub in Hlen. lia. }
  apply release_surplus_inv in Hm'. by destruct (ReservationManager_release_surplus _).
Qed.

Lemma record_accepted_inv m k a now :
  relay_inv m → relay_inv (ReservationManager_record_accepted m k a now).2.
Proof.
  intros Hm. unfold ReservationManager_record_accepted, MAX_ADDRESSES_PER_RELAY.
  destruct (bool_decide (a = [])); [done|]. destruct (mg_candidates m !! k) as [c|] eqn:Ek; [|done].
  pose proof (rl_candidates _ Hm _ _ Ek) as Hok. pose proof Hok as [_ Hst].
  destruct (ca_state c) as [|t n|t addrs|t n] eqn:Es; try done.
  - apply (relay_inv_replace _ _ c); try done; [apply set_state_ok; [done|]; len_simpl; lia|].
    unfold is_holding, is_active, is_requested. by rw Es.
  - destruct (existsb _ _); [done|]. destruct (N.leb_spec 8 (len addrs)); [done|].
    apply (relay_inv_replace _ _ c); try done; [apply set_state_ok; [done|]; len_simpl; lia|].
    unfold is_holding, is_active. by rw Es.
Qed.

Lemma record_failed_inv m k now j :
  relay_inv m → relay_inv (ReservationManager_record_failed m k now j).2.
Proof.
  intros Hm. unfold ReservationManager_record_failed.
  destruct (mg_candidates m !! k) as [c|] eqn:Ek; [|done].
  pose proof (rl_candidates _ Hm _ _ Ek) as Hok.
  destruct (ca_state c) as [|t n|t addrs|t n] eqn:Es; [done|..];
    (apply (relay_inv_replace _ _ c); try done; by apply set_state_ok).
Qed.

Lemma forget_inv m k : relay_inv m → relay_inv (ReservationManager_forget m k).2.
Proof.
  intros Hm. apply states_only_inv; [done| |].
  - intros k' c' [_ Hk]%lookup_delete_Some. by exists c'.
  - etrans; [|apply (rl_holding _ Hm)]. apply count_by_le. intros k' c' [_ Hk]%lookup_delete_Some.
    by exists c'.
Qed.

Lemma lift_one_keeps floor now h c :
  let c' := (lift_one floor now h c).2 in
  ca_source c' = ca_source c ∧ ca_addresses c' = ca_addresses c ∧
  is_holding c' = is_holding c ∧
  match ca_state c with
  | Backoff t n => ∃ t', ca_state c' = Backoff t' n ∧ t' ≤ t
  | s => ca_state c' = s
  end.
Proof.
  unfold lift_one. destruct (_ || h) eqn:Eh; simpl.
  { split_and!; try done. destruct (ca_state c); try done. by eexists. }
  unfold is_holding, is_active, is_requested. destruct (ca_state c) as [| | |t n] eqn:Es; simpl;
    rw ?Es; try done.
  destruct (N.ltb_spec now t); simpl; rw ?Es; split_and!; try done; eexists; (split; [done|lia]).
Qed.

Lemma network_added_inv m now g : relay_inv m → relay_inv (ReservationManager_network_added m now g).2.
Proof.
  intros Hm. apply states_only_inv; [done| |].
  - intros k c'. rw map_lookup_imap. intros (c & Hc & [= <-])%bind_Some. exists c.
    destruct (lift_one_keeps (rc_retry_min_ms (mg_config m)) now (g k) c) as (H1 & H2 & _ & H3).
    split_and!; try done. intros [Ha Hs]. split; [by rw H2|].
    destruct (ca_state c); [by rw H3..|destruct H3 as (? & -> & _); done].
  - etrans; [|apply (rl_holding _ Hm)]. apply count_by_le. intros k c'. rw map_lookup_imap.
    intros (c & Hc & [= <-])%bind_Some. exists c. split; [done|].
    by destruct (lift_one_keeps (rc_retry_min_ms (mg_config m)) now (g k) c) as (_ & _ & -> & _).
Qed.

(** ** Histories *)

Inductive relay_op :=
| RO_AddStatic (relay : TransportIdentity) (address : bytes)
| RO_Learn (relay : TransportIdentity) (address : bytes)
| RO_Forget (relay : TransportIdentity)
| RO_SetDirectInbound (state : DirectInboundState)
| RO_Tick (now_ms : N)
| RO_Accepted (relay : TransportIdentity) (address : bytes) (now_ms : N)
| RO_Failed (relay : TransportIdentity) (now_ms jitter_ms : N)
| RO_NetworkAdded (now_ms : N) (gate_holds : TransportIdentity → bool).

(** One call of the adapter: the actions it is told to take, and the addresses
    it is told to withdraw without one. *)
Definition relay_step (m : ReservationManager) (op : relay_op) :
    list Action * list bytes * ReservationManager :=
  match op with
  | RO_AddStatic k a => ([], [], (ReservationManager_add_static m k a).2)
  | RO_Learn k a => ([], [], (ReservationManager_learn m k a).2)
  | RO_Forget k => let '(w, m) := ReservationManager_forget m k in ([], w, m)
  | RO_SetDirectInbound s =>
      let '(acts, m) := ReservationManager_set_direct_inbound m s in (acts, [], m)
  | RO_Tick now => let '(acts, m) := ReservationManager_tick m now in (acts, [], m)
  | RO_Accepted k a now => ([], [], (ReservationManager_record_accepted m k a now).2)
  | RO_Failed k now j =>
      let '(r, m) := ReservationManager_record_failed m k now j in
      ([], match r with Ok w => w | Err _ => [] end, m)
  | RO_NetworkAdded now g => ([], [], (ReservationManager_network_added m now g).2)
  end.

Definition relay_after (m : ReservationManager) (ops : list relay_op) : ReservationManager :=
  foldl (λ m op, (relay_step m op).2) m ops.

Lemma relay_step_inv m op : relay_inv m → relay_inv (relay_step m op).2.
Proof.
  intros Hm. destruct op; simpl.
  - by apply add_static_inv.
  - by apply learn_relay_inv.
  - by apply forget_inv.
  - pose proof (set_direct_inbound_inv m state Hm).
    by destruct (ReservationManager_set_direct_inbound m state).
  - pose proof (tick_inv m now_ms Hm). by destruct (ReservationManager_tick m now_ms).
  - by apply record_accepted_inv.
  - pose proof (record_failed_inv m relay now_ms jitter_ms Hm).
    by destruct (ReservationManager_record_failed m relay now_ms jitter_ms).
  - by apply network_added_inv.
Qed.

Lemma relay_after_inv m ops : relay_inv m → relay_inv (relay_after m ops).
Proof.
  revert m. induction ops as [|op ops IH]; intros m Hm; [done|]. simpl. by apply IH, relay_step_inv.
Qed.
Lemma relay_step_config m op : mg_config (relay_step m op).2 = mg_config m.
Proof.
  destruct op; simpl; try done.
  - unfold ReservationManager_add_static. repeat case_match; done.
  - unfold ReservationManager_learn. repeat case_match; done.
  - unfold ReservationManager_set_direct_inbound.
    destruct (ReservationManager_release_surplus _) as [a m'] eqn:E.
    by apply release_surplus_spec in E as (-> & _).
  - destruct (tick_ask_spec m now_ms) as (cands & -> & _).
    destruct (ReservationManager_release_surplus _) as [a m'] eqn:E.
    by apply release_surplus_spec in E as (-> & _).
  - unfold ReservationManager_record_accepted. repeat case_match; done.
  - unfold ReservationManager_record_failed. repeat case_match; by simplify_eq.
Qed.
Lemma relay_after_config m ops : mg_config (relay_after m ops) = mg_config m.
Proof.
  revert m. induction ops as [|op ops IH]; intros m; [done|]. simpl. by rw IH relay_step_config.
Qed.

(** C32: Whatever the adapter and the relays do, a manager accepted by [new]
    never holds and requests more reservations than [max_reservations], which
    is at most eight; it knows at most sixteen static and sixteen learned
    relays, each with one to eight addresses; and an active reservation
    advertises one to eight addresses. *)
Theorem relay_bounds config m0 ops :
  ReservationManager_new config = Ok m0 →
  let m := relay_after m0 ops in
  ReservationManager_active m + ReservationManager_requested m ≤ rc_max_reservations config ∧
  rc_max_reservations config ≤ RELAY_MAX_RESERVATIONS_CEILING ∧
  ReservationManager_count m Static ≤ MAX_STATIC_RELAYS ∧
  ReservationManager_count m Learned ≤ MAX_LEARNED_RELAYS ∧
  ∀ k c, mg_candidates m !! k = Some c →
    1 ≤ len (ca_addresses c) ≤ MAX_ADDRESSES_PER_RELAY ∧
    ∀ t addrs, ca_state c = Active t addrs → 1 ≤ len addrs ≤ MAX_ADDRESSES_PER_RELAY.
Proof.
  intros Hnew m. destruct (relay_new_inv _ _ Hnew) as [Hm0 Hcfg].
  pose proof (relay_after_inv _ ops Hm0) as [H1 H2 H3 H4 H5].
  rw relay_after_config Hcfg in H1 H4. destruct H1 as [? _]. fold m in H2, H3, H4, H5.
  unfold ReservationManager_active, ReservationManager_requested. rw active_requested.
  unfold RELAY_MAX_RESERVATIONS_CEILING. split_and!; try done; [lia|].
  intros k c Hc. destruct (H5 _ _ Hc) as [Ha Hs]. split; [done|]. intros t addrs E. by rw E in Hs.
Qed.
Definition relay_named (s : string) : TransportIdentity := MkTransportIdentity (bs s).

Lemma relay_bounds_witness :
  ReservationManager_new ReservationConfig_default =
    Ok (MkReservationManager ReservationConfig_default ∅ DI_Unknown) ∧
  let m := relay_after (MkReservationManager ReservationConfig_default ∅ DI_Unknown)
             [RO_AddStatic (relay_named "a") (bs "/a/1"); RO_Tick 10] in
  ReservationManager_active m + ReservationManager_requested m ≤ 4.
Proof.
  split; [reflexivity|].
  exact (proj1 (relay_bounds ReservationConfig_default _
    [RO_AddStatic (relay_named "a") (bs "/a/1"); RO_Tick 10] eq_refl)).
Defined.

(** ** The order relays are asked and given up in *)

Lemma sort_take_or_le {A} (leb : A → A → bool) n l x y :
  (∀ a b, leb a b = true ∨ leb b a = true) →
  (∀ a b c, leb a b = true → leb b c = true → leb a c = true) →
  x ∈ ntake n (sort_by leb l) → y ∈ l → y ∈ ntake n (sort_by leb l) ∨ leb x y = true.
Proof.
  intros Htot Htr Hx Hy. pose proof (sort_by_sorted leb l Htot Htr) as Hs.
  rewrite <- (sort_by_perm leb l) in Hy. rewrite <- (ntake_ndrop n (sort_by leb l)) in Hs, Hy.
  apply elem_of_app in Hy as [Hy|Hy]; [by left|]. right.
  exact (StronglySorted_app_1_elem_of _ _ _ _ _ Hs Hx Hy).
Qed.

Lemma ask_leb_total a b : ask_leb a b = true ∨ ask_leb b a = true.
Proof.
  unfold ask_leb. destruct (key_leb_total a.1 b.1) as [-> | ->];
    destruct (ca_source a.2), (ca_source b.2); simpl; auto.
Qed.
Lemma ask_leb_trans a b c : ask_leb a b = true → ask_leb b c = true → ask_leb a c = true.
Proof.
  unfold ask_leb. pose proof (key_leb_trans a.1 b.1 c.1) as Htr.
  destruct (ca_source a.2), (ca_source b.2), (ca_source c.2); simpl in *; done.
Qed.
Lemma surplus_leb_total a b : surplus_leb a b = true ∨ surplus_leb b a = true.
Proof.
  destruct a as [[k1 s1] t1], b as [[k2 s2] t2]. simpl. destruct s1, s2; simpl; auto;
    destruct (N.leb_spec t2 t1); auto; right; apply N.leb_le; lia.
Qed.
Lemma surplus_leb_trans a b c :
  surplus_leb a b = true → surplus_leb b c = true → surplus_leb a c = true.
Proof.
  destruct a as [[k1 s1] t1], b as [[k2 s2] t2], c as [[k3 s3] t3].
  destruct s1, s2, s3; simpl; try done; rewrite !N.leb_le; lia.
Qed.

(** Static relays are asked before learned ones. *)
Lemma tick_asked_static_first m now k c k' c' :
  k ∈ tick_asked m now → mg_candidates m !! k = Some c → ca_source c = Learned →
  mg_candidates m !! k' = Some c' → ca_source c' = Static → can_ask now c' = true →
  k' ∈ tick_asked m now.
Proof.
  unfold tick_asked, ReservationManager_askable. rw -!take_fmap_keys. intros Hk Hc Hs Hc' Hs' Ha.
  apply list_elem_of_fmap in Hk as ([k0 c0] & -> & Hk). simpl in Hc.
  assert (mg_candidates m !! k0 = Some c0) as Hc0.
  { apply ntake_elem in Hk. rewrite -> sort_by_perm in Hk.
    by apply list_elem_of_filter in Hk as [_ Hk%elem_of_btree_to_list]. }
  destruct (sort_take_or_le ask_leb _ _ _ (k', c') ask_leb_total ask_leb_trans Hk) as [Hin|Hle].
  - apply list_elem_of_filter. split; [done|]. by apply elem_of_btree_to_list.
  - apply list_elem_of_fmap. by exists (k', c').
  - unfold ask_leb in Hle. simpl in Hle. simplify_eq. by rw Hs Hs' in Hle.
Qed.

(** A relay given up is learned where the relay kept is static, or else of the
    same source and not older. *)
Lemma victims_order m k c t addrs k' c' t' addrs' :
  k ∈ surplus_victims m → mg_candidates m !! k = Some c → ca_state c = Active t addrs →
  mg_candidates m !! k' = Some c' → ca_state c' = Active t' addrs' → k' ∉ surplus_victims m →
  (ca_source c = Learned ∧ ca_source c' = Static) ∨ (ca_source c = ca_source c' ∧ t' ≤ t).
Proof.
  unfold surplus_victims, surplus_order. rw -!take_fmap_keys. intros Hk Hc Hs Hc' Hs' Hout.
  assert (∀ h, h ∈ held_active m → ∃ c a, mg_candidates m !! h.1.1 = Some c ∧
    ca_state c = Active h.2 a ∧ ca_source c = h.1.2) as Hheld.
  { intros h ([j d] & Hj & Hd)%list_elem_of_omap. apply elem_of_btree_to_list in Hj.
    simpl in Hd. destruct (ca_state d) eqn:Ed; try done. simplify_eq. by eexists _, _. }
  apply list_elem_of_fmap in Hk as ([[k0 s0] t0] & -> & Hk).
  destruct (Hheld (k0, s0, t0)) as (d & a & Hd & Hda & Hds).
  { apply ntake_elem in Hk. by rewrite -> sort_by_perm in Hk. }
  destruct (sort_take_or_le surplus_leb _ _ _ (k', ca_source c', t')
    surplus_leb_total surplus_leb_trans Hk) as [Hin|Hle].
  - apply list_elem_of_omap. exists (k', c'). split; [by apply elem_of_btree_to_list|].
    simpl. by rw Hs'.
  - destruct Hout. apply list_elem_of_fmap. by exists (k', ca_source c', t').
  - assert (s0 = ca_source c ∧ t0 = t) as [-> ->] by (simpl in *; split; congruence).
    unfold surplus_leb in Hle. destruct (ca_source c), (ca_source c'); simpl in Hle; try done;
      [right|by left|right]; (split; [done|by apply N.leb_le]).
Qed.

Lemma release_actions_only m k addrs (ks : list TransportIdentity) :
  Reserve k addrs ∉ omap (release_action m) ks.
Proof.
  intros (k' & _ & Hk)%list_elem_of_omap. unfold release_action in Hk.
  destruct (ca_state <$> m !! k') as [[]|]; done.
Qed.
Lemma elem_of_reserves (m : gmap TransportIdentity Candidate) k addrs
    (ks : list TransportIdentity) :
  Reserve k addrs ∈ omap (reserve_action m) ks ↔
  k ∈ ks ∧ ∃ c, m !! k = Some c ∧ ca_addresses c = addrs.
Proof.
  rw list_elem_of_omap. unfold reserve_action. split.
  - intros (k' & Hin & Hk). destruct (m !! k') as [c|] eqn:E; simplify_eq/=. split; [done|]. by exists c.
  - intros (Hin & c & Hc & <-). exists k. split; [done|]. by rw Hc.
Qed.

(** A tick leaves the target alone, ends with no surplus, and asks exactly the
    relays of [tick_asked]. *)
Lemma tick_spec m now :
  let r := ReservationManager_tick m now in
  ReservationManager_target r.2 = ReservationManager_target m ∧
  ReservationManager_active r.2 =
    N.min (ReservationManager_active m) (ReservationManager_target m) ∧
  (holding (mg_candidates m) ≤ ReservationManager_target m →
   holding (mg_candidates r.2) = holding (mg_candidates m) + len (tick_asked m now)) ∧
  (∀ k addrs, Reserve k addrs ∈ r.1 ↔
     k ∈ tick_asked m now ∧ ∃ c, mg_candidates m !! k = Some c ∧ ca_addresses c = addrs) ∧
  (∀ k c, mg_candidates m !! k = Some c → can_ask now c = false → is_active c = false →
     mg_candidates r.2 !! k = Some c).
Proof.
  destruct (tick_ask_spec m now) as (cands & Heq & H1 & H2 & H3 & H4 & H5). rw Heq.
  set (m1 := set_candidates m cands). pose proof (target_set_candidates m cands H5) as Ht.
  destruct (release_surplus_at_target m1) as [Ha Ht'].
  destruct (ReservationManager_release_surplus m1) as [rel m'] eqn:E. cbn [fst snd] in *.
  destruct (release_surplus_spec _ _ _ E) as (_ & _ & _ & Hh & Hout & _ & ->).
  destruct (surplus_victims_ok m1) as (_ & Hvact & Hlen).
  destruct (tick_asked_ok m now) as (_ & Hask & _).
  fold m1 in Ht, H1. rw Ht in Ht' Ha Hlen. rw H1 in Ha Hlen. split_and!; try done.
  - intros Hle. pose proof (active_requested (mg_candidates m)) as Hact.
    unfold ReservationManager_active in Hlen. change (mg_candidates m1) with cands in Hh. lia.
  - intros k addrs. rw elem_of_app elem_of_reserves. split; [|by left].
    intros [?|Hin]; [done|]. by apply release_actions_only in Hin.
  - intros k c Hc Hna Hnact. assert (k ∉ tick_asked m now) as Hnin.
    { intros Hin. destruct (Hask _ Hin) as (c' & ? & ?). simplify_eq. congruence. }
    pose proof (H3 _ Hnin) as Hk. rw Hout; [by change (mg_candidates m1) with cands; rw Hk|].
    intros Hin. destruct (Hvact _ Hin) as (c' & Hc' & ?). change (mg_candidates m1) with cands in Hc'.
    rw Hk Hc in Hc'. simplify_eq. congruence.
Qed.

Lemma tick_asked_len m now :
  len (tick_asked m now) =
  N.min (ReservationManager_target m - holding (mg_candidates m))
    (ReservationManager_askable_now m now).
Proof.
  unfold tick_asked, ReservationManager_active, ReservationManager_requested,
    ReservationManager_askable_now, sat_sub. rw active_requested.
  unfold len, ntake. rw length_take. lia.
Qed.

(** A tick ends with no more active reservations than the target. It asks
    only relays that are idle or whose backoff is over, at their own addresses,
    and a learned relay only when every askable static relay is asked too. And
    it makes progress: where the target is not exceeded, active-plus-requested
    rises to the target, or by every askable relay where there are too few. *)
Theorem tick_contract m now :
  let r := ReservationManager_tick m now in
  ReservationManager_active r.2 ≤ ReservationManager_target r.2 ∧
  (holding (mg_candidates m) ≤ ReservationManager_target m →
   holding (mg_candidates r.2) =
   N.min (ReservationManager_target m)
     (holding (mg_candidates m) + ReservationManager_askable_now m now)) ∧
  (∀ k addrs, Reserve k addrs ∈ r.1 →
     ∃ c, mg_candidates m !! k = Some c ∧ can_ask now c = true ∧ ca_addresses c = addrs ∧
       (ca_source c = Learned → ∀ k' c', mg_candidates m !! k' = Some c' →
          ca_source c' = Static → can_ask now c' = true →
          Reserve k' (ca_addresses c') ∈ r.1)).
Proof.
  destruct (tick_spec m now) as (H1 & H2 & H3 & H4 & _). cbv zeta in *. split_and!.
  - lia.
  - intros Hle. rw H3 // tick_asked_len. lia.
  - intros k addrs (Hin & c & Hc & Ha)%H4. destruct (tick_asked_ok m now) as (_ & Hask & _).
    destruct (Hask _ Hin) as (c' & Hc' & Hcan). simplify_eq. exists c. split_and!; try done.
    intros Hs k' c'' Hk' Hs' Hcan'. apply H4. split; [|by exists c''].
    by apply (tick_asked_static_first m now k c k' c'').
Qed.

(** When the direct-inbound verdict changes, the reservations given up are
    exactly the surplus over the new target; each is idle afterwards and is
    reported with the addresses it advertised, and none is given up while a
    learned one is kept in place of a static one, or an older one of the same
    source in place of a newer: what is kept is static before learned, oldest
    first. *)
Theorem verdict_releases_surplus m state :
  let m0 := MkReservationManager (mg_config m) (mg_candidates m) state in
  let r := ReservationManager_set_direct_inbound m state in
  len r.1 = ReservationManager_active m - ReservationManager_target m0 ∧
  ReservationManager_active r.2 + len r.1 = ReservationManager_active m ∧
  (∀ k addrs, Release k addrs ∈ r.1 →
     ∃ c t, mg_candidates m !! k = Some c ∧ ca_state c = Active t addrs ∧
       mg_candidates r.2 !! k = Some (set_state c Idle) ∧
       ∀ k' c' t' addrs', mg_candidates m !! k' = Some c' → ca_state c' = Active t' addrs' →
         mg_candidates r.2 !! k' = Some c' →
         (ca_source c = Learned ∧ ca_source c' = Static) ∨ (ca_source c = ca_source c' ∧ t' ≤ t)).
Proof.
  intros m0 r. subst r. unfold ReservationManager_set_direct_inbound. fold m0.
  destruct (ReservationManager_release_surplus m0) as [acts m'] eqn:E. simpl.
  destruct (release_surplus_spec _ _ _ E) as (_ & _ & H3 & _ & H5 & H6 & ->).
  destruct (surplus_victims_ok m0) as (_ & Hact & Hlen).
  change (mg_candidates m) with (mg_candidates m0). set (vs := surplus_victims m0) in *.
  change (ReservationManager_active m) with (ReservationManager_active m0).
  assert (len (omap (release_action (mg_candidates m0)) vs) = len vs) as Hl.
  { clear -Hact. induction vs as [|k vs IH]; [done|]. cbn [omap list_omap].
    destruct (Hact k) as (c & Hc & Ha); [by left|]. unfold release_action at 1. rw Hc /=.
    unfold is_active in Ha. destruct (ca_state c); try done. rw !len_cons. f_equal. apply IH.
    intros k' Hk'. apply Hact. by right. }
  rw Hl. split_and!; [done|done|].
  intros k addrs (k1 & Hk & Hrel)%list_elem_of_omap. unfold release_action in Hrel.
  destruct (Hact _ Hk) as (c & Hc & Ha). rw Hc /= in Hrel. unfold is_active in Ha.
  destruct (ca_state c) as [| |t a|] eqn:Es; try done. simplify_eq. exists c, t.
  split_and!; try done; [by apply H6|]. intros k' c' t' addrs' Hc' Hs' Hkept.
  eapply (victims_order m0 k); try done. intros Hin. rw (H6 _ _ Hin Hc') in Hkept.
  injection Hkept as Hkept. rw -Hkept in Hs'. done.
Qed.

(** ** The retry ladder *)

(** Every action of a history. *)
Fixpoint relay_actions (m : ReservationManager) (ops : list relay_op) : list Action :=
  match ops with
  | [] => []
  | op :: ops => let r := relay_step m op in r.1.1 ++ relay_actions r.2 ops
  end.

(** Calls that leave relay [k]'s backoff until [t] alone: no report of another
    failure of it, no removal, no network addition, and ticks before [t]. *)
Definition quiet (k : TransportIdentity) (t : N) (op : relay_op) : Prop :=
  match op with
  | RO_NetworkAdded _ _ => False
  | RO_Forget k' => k' ≠ k
  | RO_Failed k' _ _ => k' ≠ k
  | RO_Tick now => now < t
  | RO_AddStatic _ _ | RO_Learn _ _ | RO_SetDirectInbound _ | RO_Accepted _ _ _ => True
  end.

(** The failures in a row a candidate has had. *)
Definition failures (c : Candidate) : N :=
  match ca_state c with
  | Backoff _ n | Requested _ n => n
  | Active _ _ | Idle => 0
  end.

Definition backing_off (m : ReservationManager) (k : TransportIdentity) (t n : N) : Prop :=
  ca_state <$> mg_candidates m !! k = Some (Backoff t n).

Lemma backing_off_insert m k k' c c' t n :
  backing_off m k t n → mg_candidates m !! k' = Some c → (k' = k → ca_state c' = ca_state c) →
  backing_off (set_candidates m (<[k' := c']> (mg_candidates m))) k t n.
Proof.
  unfold backing_off. simpl. intros Hb Hc Hs. rw lookup_insert. case_decide; [subst|done].
  rw Hc in Hb. simpl in *. by rw Hs.
Qed.
Lemma add_address_state c a : ca_state (Candidate_add_address c a).2 = ca_state c.
Proof. unfold Candidate_add_address. repeat case_match; done. Qed.

Lemma backing_off_add_static m k k' a t n :
  backing_off m k t n → backing_off (ReservationManager_add_static m k' a).2 k t n.
Proof.
  intros Hb. unfold ReservationManager_add_static. destruct (bool_decide (a = [])); [done|].
  destruct (mg_candidates m !! k') as [c|] eqn:E.
  - destruct (ca_source c).
    + pose proof (add_address_state c a) as Hs. destruct (Candidate_add_address c a) as [ok c'].
      by apply (backing_off_insert _ _ _ c).
    + destruct (_ <=? _); [done|]. by apply (backing_off_insert _ _ _ c).
  - destruct (_ <=? _); [done|]. unfold backing_off in *. simpl.
    rw lookup_insert_ne //. intros ->. by rw E in Hb.
Qed.
Lemma backing_off_learn m k k' a t n :
  backing_off m k t n → backing_off (ReservationManager_learn m k' a).2 k t n.
Proof.
  intros Hb. unfold ReservationManager_learn. destruct (bool_decide (a = [])); [done|].
  destruct (mg_candidates m !! k') as [c|] eqn:E.
  - destruct (ca_source c); [done|].
    pose proof (add_address_state c a) as Hs. destruct (Candidate_add_address c a) as [ok c'].
    by apply (backing_off_insert _ _ _ c).
  - destruct (_ <=? _); [done|]. unfold backing_off in *. simpl.
    rw lookup_insert_ne //. intros ->. by rw E in Hb.
Qed.
Lemma backing_off_accepted m k k' a now t n :
  backing_off m k t n → backing_off (ReservationManager_record_accepted m k' a now).2 k t n.
Proof.
  intros Hb. unfold ReservationManager_record_accepted. destruct (bool_decide (a = [])); [done|].
  destruct (mg_candidates m !! k') as [c|] eqn:E; [|done].
  assert (k' = k → ca_state c = Backoff t n) as Hk.
  { intros ->. unfold backing_off in Hb. rw E in Hb. by injection Hb. }
  destruct (ca_state c) eqn:Es; try done.
  - apply (backing_off_insert _ _ _ c); try done. intros Heq. by specialize (Hk Heq).
  - destruct (existsb _ _); [done|]. destruct (_ <=? _); [done|].
    apply (backing_off_insert _ _ _ c); try done. intros Heq. by specialize (Hk Heq).
Qed.
Lemma backing_off_surplus m k t n acts m' :
  ReservationManager_release_surplus m = (acts, m') → backing_off m k t n →
  backing_off m' k t n ∧ ∀ addrs, Reserve k addrs ∉ acts.
Proof.
  intros E Hb. destruct (release_surplus_spec _ _ _ E) as (_ & _ & _ & _ & Hout & _ & ->).
  split; [|intros; apply release_actions_only]. unfold backing_off. rw Hout //. intros Hin.
  destruct (surplus_victims_ok m) as (_ & Hact & _). destruct (Hact _ Hin) as (c & Hc & Ha).
  unfold backing_off in Hb. rw Hc in Hb. injection Hb as Hb. unfold is_active in Ha. by rw Hb in Ha.
Qed.
Lemma backing_off_tick m k now t n :
  backing_off m k t n → now < t →
  backing_off (ReservationManager_tick m now).2 k t n ∧
  ∀ addrs, Reserve k addrs ∉ (ReservationManager_tick m now).1.
Proof.
  intros Hb Hlt. destruct (tick_spec m now) as (_ & _ & _ & H4 & H5). cbv zeta in *.
  unfold backing_off in *. destruct (mg_candidates m !! k) as [c|] eqn:E; [|done].
  injection Hb as Hb. assert (can_ask now c = false) as Hna.
  { unfold can_ask. rw Hb. apply N.leb_gt. lia. }
  split.
  - rw (H5 k c); [by rw /= Hb|done|done|]. unfold is_active. by rw Hb.
  - intros addrs (Hin & _)%H4. destruct (tick_asked_ok m now) as (_ & Hask & _).
    destruct (Hask _ Hin) as (c' & Hc' & ?). simplify_eq. congruence.
Qed.

Lemma backing_off_step m k t n op :
  backing_off m k t n → quiet k t op →
  backing_off (relay_step m op).2 k t n ∧ ∀ addrs, Reserve k addrs ∉ (relay_step m op).1.1.
Proof.
  intros Hb Hq. assert (∀ addrs, Reserve k addrs ∉ []) as Hnil by (intros ? []%elem_of_nil).
  destruct op as [k' a|k' a|k'|s|now|k' a now|k' now j|now g]; simpl in *; try done.
  - split; [by apply backing_off_add_static|done].
  - split; [by apply backing_off_learn|done].
  - split; [|done]. unfold backing_off. simpl. rw lookup_delete_ne //.
  - unfold ReservationManager_set_direct_inbound.
    destruct (ReservationManager_release_surplus _) as [acts m'] eqn:E.
    by apply (backing_off_surplus _ _ _ _ _ _ E).
  - pose proof (backing_off_tick m k now t n Hb Hq) as Ht.
    by destruct (ReservationManager_tick m now).
  - split; [by apply backing_off_accepted|done].
  - unfold ReservationManager_record_failed.
    destruct (mg_candidates m !! k') as [c|] eqn:E; [|done].
    destruct (ca_state c); [done|..]; (split; [|done]; by apply (backing_off_insert _ _ _ c)).
Qed.

Lemma backing_off_history m k t n ops addrs :
  backing_off m k t n → Forall (quiet k t) ops → Reserve k addrs ∉ relay_actions m ops.
Proof.
  revert m. induction ops as [|op ops IH]; intros m Hb Hq; [apply not_elem_of_nil|].
  apply Forall_cons in Hq as [Hq Hqs]. destruct (backing_off_step _ _ _ _ _ Hb Hq) as [Hb' Hno].
  cbn [relay_actions]. rw not_elem_of_app. split; [done|by apply IH].
Qed.

Lemma retry_delay_exact c n :
  rc_retry_max_ms c ≤ u64_max →
  ReservationConfig_retry_delay_ms c n = N.min (rc_retry_min_ms c * 2 ^ N.min n 20) (rc_retry_max_ms c).
Proof.
  intros Hmax. unfold ReservationConfig_retry_delay_ms, sat_mul. rewrite -> N.shiftl_1_l.
  revert Hmax. generalize u64_max. intros. lia.
Qed.

Lemma retry_delay_range c n :
  config_ok c → rc_retry_max_ms c ≤ u64_max →
  rc_retry_min_ms c ≤ ReservationConfig_retry_delay_ms c n ≤ rc_retry_max_ms c.
Proof.
  intros (_ & _ & _ & Hr) Hmax. rewrite -> (retry_delay_exact _ _ Hmax).
  assert (1 ≤ 2 ^ N.min n 20) as Hpow by (pose proof (N.pow_nonzero 2 (N.min n 20)); lia).
  revert Hpow. generalize (2 ^ N.min n 20). intros p Hp.
  assert (rc_retry_min_ms c ≤ rc_retry_min_ms c * p) by nia. lia.
Qed.

(** C33: A relay whose failure is recorded after [n] failures in a row backs off
    for the configured minimum doubled [n] times (twenty at most), cut at the
    configured maximum, plus a jitter that never exceeds the delay itself; the
    ladder's count grows by one; and no call whatsoever asks it before that
    time, unless the network gains an address, the relay is dropped, or another
    failure of it is reported. An acceptance it sends meanwhile changes
    nothing. *)
Theorem relay_backoff_ladder m k now jitter w m1 ops :
  relay_inv m → now + 2 * rc_retry_max_ms (mg_config m) ≤ u64_max →
  ReservationManager_record_failed m k now jitter = (Ok w, m1) →
  ∃ c t, mg_candidates m !! k = Some c ∧
    let delay := N.min (rc_retry_min_ms (mg_config m) * 2 ^ N.min (failures c) 20)
                   (rc_retry_max_ms (mg_config m)) in
    rc_retry_min_ms (mg_config m) ≤ delay ∧
    t = now + delay + N.min jitter delay ∧
    mg_candidates m1 !! k = Some (set_state c (Backoff t (sat_add u32_max (failures c) 1))) ∧
    (Forall (quiet k t) ops → ∀ addrs, Reserve k addrs ∉ relay_actions m1 ops).
Proof.
  intros Hm Hnow. pose proof (rl_config _ Hm) as Hcfg.
  assert (rc_retry_max_ms (mg_config m) ≤ u64_max) as Hmax by lia.
  unfold ReservationManager_record_failed.
  destruct (mg_candidates m !! k) as [c|] eqn:Ek; [|done]. intros Heq.
  pose proof (retry_delay_range _ (failures c) Hcfg Hmax) as [Hmin Hd].
  set (d := ReservationConfig_retry_delay_ms (mg_config m) (failures c)) in *.
  assert (sat_add u64_max (sat_add u64_max now d) (N.min jitter d) = now + d + N.min jitter d) as Ht.
  { revert Hnow. generalize u64_max. unfold sat_add. lia. }
  assert (m1 = set_candidates m (<[k := set_state c (Backoff (now + d + N.min jitter d)
    (sat_add u32_max (failures c) 1))]> (mg_candidates m))) as ->.
  { rw -Ht. unfold d, failures. destruct (ca_state c); by simplify_eq. }
  exists c, (now + d + N.min jitter d). rewrite <- (retry_delay_exact _ _ Hmax). fold d. cbv zeta.
  split_and!; try done; [simpl; by rw lookup_insert_eq|].
  intros Hq addrs. eapply backing_off_history; [|exact Hq]. unfold backing_off. simpl.
  by rw lookup_insert_eq.
Qed.

Definition demo_relays : ReservationManager :=
  relay_after (MkReservationManager ReservationConfig_default ∅ DI_Unknown)
    [RO_AddStatic (relay_named "a") (bs "/a/1"); RO_Tick 10].
Definition demo_failed : ReservationManager :=
  (ReservationManager_record_failed demo_relays (relay_named "a") 20 700).2.

Example demo_failed_eq :
  ReservationManager_record_failed demo_relays (relay_named "a") 20 700 = (Ok [], demo_failed).
Proof. by vm_compute. Qed.

Lemma relay_backoff_ladder_witness :
  ∃ c t, mg_candidates demo_relays !! relay_named "a" = Some c ∧
    (Forall (quiet (relay_named "a") t) [RO_Tick 5719] →
     ∀ addrs, Reserve (relay_named "a") addrs ∉ relay_actions demo_failed [RO_Tick 5719]).
Proof.
  destruct (relay_backoff_ladder demo_relays (relay_named "a") 20 700 [] demo_failed [RO_Tick 5719])
    as (c & t & Hc & _ & _ & _ & H).
  - apply relay_after_inv. by apply (relay_new_inv ReservationConfig_default).
  - unfold demo_relays. rewrite -> relay_after_config. by vm_compute.
  - exact demo_failed_eq.
  - by exists c, t.
Defined.

(** ** What is advertised *)

Definition held_addresses (c : Candidate) : list bytes :=
  match ca_state c with Active _ addresses => addresses | _ => [] end.
Definition advertised_of (m : gmap TransportIdentity Candidate) : list bytes :=
  mjoin (map_to_list (held_addresses <$> m)).*2.
Definition released_addresses (acts : list Action) : list bytes :=
  acts ≫= λ a, match a with Release _ addrs => addrs | Reserve _ _ => [] end.

Lemma bind_perm {A B} (f : A → list B) (l k : list A) : l ≡ₚ k → (l ≫= f) ≡ₚ (k ≫= f).
Proof. intros H. by apply bind_Permutation. Qed.

Lemma advertised_perm m : ReservationManager_advertised m ≡ₚ advertised_of (mg_candidates m).
Proof.
  unfold ReservationManager_advertised, advertised_of.
  etrans; [apply bind_perm, btree_to_list_perm|]. rw map_to_list_fmap.
  induction (map_to_list (mg_candidates m)) as [|[k c] l IH]; [done|]. simpl. by f_equiv.
Qed.
Lemma advertised_ext m m' :
  (∀ k, held_addresses <$> m !! k = held_addresses <$> m' !! k) →
  advertised_of m = advertised_of m'.
Proof.
  intros Hext. unfold advertised_of. do 3 f_equal. apply map_eq. intros k. rw !lookup_fmap. apply Hext.
Qed.
Lemma advertised_fresh m k c :
  m !! k = None → advertised_of (<[k := c]> m) ≡ₚ held_addresses c ++ advertised_of m.
Proof.
  intros Hk. unfold advertised_of. rw fmap_insert.
  rewrite -> map_to_list_insert by (rw lookup_fmap Hk //). done.
Qed.
Lemma advertised_insert m k c c' :
  m !! k = Some c →
  advertised_of (<[k := c']> m) ++ held_addresses c ≡ₚ advertised_of m ++ held_addresses c'.
Proof.
  intros Hk. rewrite <- (insert_delete_id m k c Hk) at 2. rewrite <- insert_delete_eq.
  rewrite -> !advertised_fresh by apply lookup_delete_eq. solve_Permutation.
Qed.

Lemma released_app a b : released_addresses (a ++ b) = released_addresses a ++ released_addresses b.
Proof. apply bind_app. Qed.

Lemma release_fold_advertised ks st :
  advertised_of (foldl release_one st ks).1 ++ released_addresses (foldl release_one st ks).2 ≡ₚ
  advertised_of st.1 ++ released_addresses st.2.
Proof.
  revert st. induction ks as [|k ks IH]; intros [cands acts]; [done|]. cbn [foldl].
  rewrite -> IH. unfold release_one. cbn [fst snd].
  destruct (cands !! k) as [c|] eqn:Ek; [|done]. destruct (ca_state c) as [| |t a|] eqn:Es; try done.
  cbn [fst snd]. rw released_app. pose proof (advertised_insert _ _ _ (set_state c Idle) Ek) as Ha.
  assert (held_addresses c = a) as Hh by (unfold held_addresses; by rw Es).
  change (held_addresses (set_state c Idle)) with (@nil bytes) in Ha. rw Hh app_nil_r in Ha.
  change (released_addresses [Release k a]) with (a ++ []). rw app_nil_r.
  rewrite <- Ha. solve_Permutation.
Qed.
Lemma surplus_advertised m acts m' :
  ReservationManager_release_surplus m = (acts, m') →
  advertised_of (mg_candidates m') ++ released_addresses acts ≡ₚ advertised_of (mg_candidates m).
Proof.
  intros E. destruct (N.lt_ge_cases (ReservationManager_target m) (ReservationManager_active m))
    as [Hlt|Hge].
  - rewrite -> (release_surplus_eq _ Hlt) in E. injection E as <- <-. simpl.
    rewrite -> release_fold_advertised. by rw app_nil_r.
  - unfold ReservationManager_release_surplus in E. rewrite -> (proj2 (N.leb_le _ _) Hge) in E.
    injection E as <- <-. by rw app_nil_r.
Qed.
Lemma tick_advertised m now :
  let r := ReservationManager_tick m now in
  advertised_of (mg_candidates r.2) ++ released_addresses r.1 ≡ₚ advertised_of (mg_candidates m).
Proof.
  destruct (tick_ask_spec m now) as (cands & -> & _ & _ & H3 & H4 & _).
  destruct (tick_asked_ok m now) as (_ & Hask & _).
  destruct (ReservationManager_release_surplus _) as [rel m'] eqn:E. cbn [fst snd].
  apply surplus_advertised in E. simpl in E. rw released_app.
  assert (released_addresses (omap (reserve_action (mg_candidates m)) (tick_asked m now)) = []) as ->.
  { clear. induction (tick_asked m now) as [|k ks IH]; [done|]. cbn [omap list_omap].
    unfold reserve_action at 1. by destruct (mg_candidates m !! k). }
  rewrite -> E. erewrite advertised_ext; [done|]. intros k.
  destruct (decide (k ∈ tick_asked m now)) as [Hin|Hout]; [|by rw H3].
  destruct (Hask _ Hin) as (c & Hc & Hcan). destruct (H4 _ _ Hin Hc) as [n ->]. rw Hc /=.
  unfold held_addresses. unfold can_ask in Hcan. simpl. by destruct (ca_state c).
Qed.

(** The address an acceptance adds. *)
Definition accepted_address (m : ReservationManager) (op : relay_op) : list bytes :=
  match op with
  | RO_Accepted k a now =>
      match (ReservationManager_record_accepted m k a now).1 with Ok true => [a] | _ => [] end
  | _ => []
  end.

Lemma add_address_held c a : held_addresses (Candidate_add_address c a).2 = held_addresses c.
Proof. unfold held_addresses. by rw add_address_state. Qed.
Lemma advertised_same m k c c' :
  m !! k = Some c → held_addresses c' = held_addresses c →
  advertised_of (<[k := c']> m) = advertised_of m.
Proof.
  intros Hk Hh. apply advertised_ext. intros j. rw lookup_insert. case_decide; [subst|done].
  by rw Hk /= Hh.
Qed.
Lemma add_static_advertised m k a :
  advertised_of (mg_candidates (ReservationManager_add_static m k a).2) ≡ₚ
  advertised_of (mg_candidates m).
Proof.
  unfold ReservationManager_add_static. destruct (bool_decide (a = [])); [done|].
  destruct (mg_candidates m !! k) as [c|] eqn:E; [destruct (ca_source c)|].
  - pose proof (add_address_held c a) as Hh. destruct (Candidate_add_address c a). simpl.
    by rw (advertised_same _ _ c).
  - destruct (_ <=? _); [done|]. simpl. by rw (advertised_same _ _ c).
  - destruct (_ <=? _); [done|]. simpl. by rewrite -> advertised_fresh.
Qed.
Lemma learn_advertised m k a :
  advertised_of (mg_candidates (ReservationManager_learn m k a).2) ≡ₚ
  advertised_of (mg_candidates m).
Proof.
  unfold ReservationManager_learn. destruct (bool_decide (a = [])); [done|].
  destruct (mg_candidates m !! k) as [c|] eqn:E; [destruct (ca_source c); [done|]|].
  - pose proof (add_address_held c a) as Hh. destruct (Candidate_add_address c a). simpl.
    by rw (advertised_same _ _ c).
  - destruct (_ <=? _); [done|]. simpl. by rewrite -> advertised_fresh.
Qed.
Lemma accepted_advertised m k a now :
  advertised_of (mg_candidates (ReservationManager_record_accepted m k a now).2) ≡ₚ
  advertised_of (mg_candidates m) ++ accepted_address m (RO_Accepted k a now).
Proof.
  unfold accepted_address, ReservationManager_record_accepted.
  destruct (bool_decide (a = [])); [by rw app_nil_r|].
  destruct (mg_candidates m !! k) as [c|] eqn:E; [|by rw app_nil_r].
  assert (∀ t l, ca_state c = Active t l → held_addresses c = l) as Hh.
  { intros t l Hc. unfold held_addresses. by rw Hc. }
  destruct (ca_state c) as [|t n|t l|t n] eqn:Es; try by rw app_nil_r.
  - pose proof (advertised_insert _ _ _ (set_state c (Active now [a])) E) as Ha.
    assert (held_addresses c = []) as Hc by (unfold held_addresses; by rw Es).
    by rw Hc app_nil_r in Ha.
  - destruct (existsb _ _); [by rw app_nil_r|]. destruct (_ <=? _); [by rw app_nil_r|].
    pose proof (advertised_insert _ _ _ (set_state c (Active t (l ++ [a]))) E) as Ha.
    rw (Hh _ _ eq_refl) in Ha. change (held_addresses (set_state _ _)) with (l ++ [a]) in Ha.
    cbn [fst snd]. apply (Permutation_app_inv_r l). simpl. rewrite -> Ha. solve_Permutation.
Qed.
Lemma advertised_drop m k c st :
  m !! k = Some c → held_addresses (set_state c st) = [] →
  advertised_of (<[k := set_state c st]> m) ++ held_addresses c ≡ₚ advertised_of m.
Proof.
  intros Hk Hst. pose proof (advertised_insert _ _ _ (set_state c st) Hk) as Ha.
  by rw Hst app_nil_r in Ha.
Qed.
Lemma failed_advertised m k now j :
  let r := ReservationManager_record_failed m k now j in
  advertised_of (mg_candidates r.2) ++ match r.1 with Ok w => w | Err _ => [] end ≡ₚ
  advertised_of (mg_candidates m).
Proof.
  unfold ReservationManager_record_failed.
  destruct (mg_candidates m !! k) as [c|] eqn:E; [|by rw app_nil_r].
  destruct (ca_state c) as [|t n|t l|t n] eqn:Es; [by rw app_nil_r|..]; 
    match goal with |- context [Backoff ?t' ?n'] =>
      pose proof (advertised_drop _ _ _ (Backoff t' n') E eq_refl) as Ha end;
    unfold held_addresses in Ha; rw Es in Ha; exact Ha.
Qed.
Lemma forget_advertised m k :
  let r := ReservationManager_forget m k in
  advertised_of (mg_candidates r.2) ++ r.1 ≡ₚ advertised_of (mg_candidates m).
Proof.
  simpl. destruct (mg_candidates m !! k) as [c|] eqn:E; simpl.
  - rewrite <- (insert_delete_id (mg_candidates m) k c E) at 2.
    rewrite -> advertised_fresh by apply lookup_delete_eq.
    apply Permutation_app_comm.
  - rw app_nil_r. by rewrite -> delete_id.
Qed.

(** The advertised set is exactly accounted for, whatever is called: an
    address enters it only by a fresh acceptance of a relay that was asked, and
    every address that leaves it is handed to the adapter, in a [Release] or
    among the addresses to withdraw, in the same call. *)
Theorem advertised_accounted m op :
  let r := relay_step m op in
  ReservationManager_advertised r.2 ++ released_addresses r.1.1 ++ r.1.2 ≡ₚ
  ReservationManager_advertised m ++ accepted_address m op.
Proof.
  cbv zeta. rewrite -> !advertised_perm. destruct op as [k a|k a|k|s|now|k a now|k now j|now g];
    cbn [relay_step accepted_address].
  - simpl. rw !app_nil_r. apply add_static_advertised.
  - simpl. rw !app_nil_r. apply learn_advertised.
  - rw app_nil_r. apply (forget_advertised m k).
  - unfold ReservationManager_set_direct_inbound.
    destruct (ReservationManager_release_surplus _) as [acts m'] eqn:E. simpl. rw !app_nil_r.
    exact (surplus_advertised _ _ _ E).
  - pose proof (tick_advertised m now) as Ht. destruct (ReservationManager_tick m now) as [acts m'].
    simpl in *. by rw !app_nil_r.
  - cbn [fst snd]. change (released_addresses []) with (@nil bytes). rw !app_nil_r.
    apply (accepted_advertised m k a now).
  - pose proof (failed_advertised m k now j) as Hf.
    destruct (ReservationManager_record_failed m k now j) as [r m']. simpl in *. by rw app_nil_r.
  - simpl. rw !app_nil_r. erewrite advertised_ext; [done|]. intros k. rw map_lookup_imap.
    destruct (mg_candidates m !! k) as [c|]; [|done]. simpl. f_equal.
    destruct (lift_one_keeps (rc_retry_min_ms (mg_config m)) now (g k) c) as (_ & _ & _ & H).
    unfold held_addresses. destruct (ca_state c); [by rw H..|]. by destruct H as (? & -> & _).
Qed.
