(* ===== verification/Reachability.v ===== *)
(** * Direct-inbound reachability

    [crates/transport/runtime/src/reachability.rs]: the addresses a probe
    server or a peer may name (literal, public, single host), the evidence
    probe servers give about this node's own addresses, and the verdict
    derived from it with its hysteresis and its horizon. *)
From S2P Require Import Prelude Ids NetAddr Trust Relay.
Local Open Scope N_scope.

(** ** Address classes *)

(** [str::split] on one character. *)
Fixpoint split_on (c : byte) (s : bytes) : list bytes :=
  match s with
  | [] => [[]]
  | b :: s =>
      if bool_decide (b = c) then [] :: split_on c s
      else match split_on c s with
           | p :: ps => (b :: p) :: ps
           | [] => [[b]]
           end
  end.

(** One octet of an address. *)
Definition octet (i : nat) (o : bytes) : N := byte_val (nth i o x00).
Definition segment (i : nat) (o : bytes) : N := nth i (segments o) 0.

(** The predicates of [std::net::Ipv4Addr]. *)
Definition v4_is_private (o : bytes) : bool :=
  (octet 0 o =? 10) || ((octet 0 o =? 172) && (16 <=? octet 1 o) && (octet 1 o <=? 31)) ||
  ((octet 0 o =? 192) && (octet 1 o =? 168)).
Definition v4_is_loopback (o : bytes) : bool := octet 0 o =? 127.
Definition v4_is_unspecified (o : bytes) : bool := bool_decide (o = [x00; x00; x00; x00]).
Definition v4_is_link_local (o : bytes) : bool := (octet 0 o =? 169) && (octet 1 o =? 254).
Definition v4_is_multicast (o : bytes) : bool := (224 <=? octet 0 o) && (octet 0 o <=? 239).
Definition v4_is_broadcast (o : bytes) : bool := bool_decide (o = [xff; xff; xff; xff]).
Definition v4_is_documentation (o : bytes) : bool :=
  ((octet 0 o =? 192) && (octet 1 o =? 0) && (octet 2 o =? 2)) ||
  ((octet 0 o =? 198) && (octet 1 o =? 51) && (octet 2 o =? 100)) ||
  ((octet 0 o =? 203) && (octet 1 o =? 0) && (octet 2 o =? 113)).

Definition is_public_v4 (ip : bytes) : bool :=
  let a := octet 0 ip in
  let b := octet 1 ip in
  let c := octet 2 ip in
  let shared := (a =? 100) && (64 <=? b) && (b <=? 127) in
  let benchmarking := (a =? 198) && ((b =? 18) || (b =? 19)) in
  let reserved := 240 <=? a in
  let this_network := a =? 0 in
  let protocol_assignments := (a =? 192) && (b =? 0) && (c =? 0) in
  let six_to_four_relay := (a =? 192) && (b =? 88) && (c =? 99) in
  negb (v4_is_loopback ip || v4_is_unspecified ip || this_network || v4_is_private ip
        || v4_is_link_local ip || v4_is_multicast ip || v4_is_broadcast ip
        || v4_is_documentation ip || shared || benchmarking || protocol_assignments
        || six_to_four_relay || reserved).

Definition is_public_v6 (ip : bytes) : bool :=
  match to_ipv4_mapped ip with
  | Some v4 => is_public_v4 v4
  | None =>
      let s0 := segment 0 ip in
      let s1 := segment 1 ip in
      if negb (N.land s0 0xe000 =? 0x2000) then false
      else
        let documentation :=
          ((s0 =? 0x2001) && (s1 =? 0x0db8)) || ((s0 =? 0x3fff) && (N.land s1 0xf000 =? 0)) in
        let six_to_four := s0 =? 0x2002 in
        let protocol_assignments := (s0 =? 0x2001) && (s1 <? 0x0200) in
        negb (documentation || six_to_four || protocol_assignments)
  end.

(** The optional transport of [literal_host]: what follows it. *)
Definition literal_transport (rest : list bytes) : option (list bytes) :=
  match rest with
  | transport :: after =>
      if bool_decide (transport = bs "tcp") || bool_decide (transport = bs "udp") then
        match after with
        | [] => None
        | port :: after =>
            match parse_u16 port with
            | None => None
            | Some _ =>
                match after with
                | quic :: after' =>
                    if bool_decide (transport = bs "udp") &&
                       (bool_decide (quic = bs "quic") || bool_decide (quic = bs "quic-v1"))
                    then Some after' else Some after
                | [] => Some []
                end
            end
        end
      else Some rest
  | [] => Some []
  end.
(** The optional [p2p/<id>]. *)
Definition literal_peer (rest : list bytes) : option (list bytes) :=
  match rest with
  | p2p :: after =>
      if bool_decide (p2p = bs "p2p") then
        match after with
        | [] => None
        | id :: after => if bool_decide (id = []) then None else Some after
        end
      else Some rest
  | [] => Some []
  end.

Definition literal_host (address : bytes) : option IpAddr :=
  match split_on x2f address with
  | first :: family :: literal :: rest =>
      if negb (bool_decide (first = [])) then None
      else
        let ip :=
          if bool_decide (family = bs "ip4") then V4 <$> parse_ipv4 literal
          else if bool_decide (family = bs "ip6") then V6 <$> parse_ipv6 literal
          else None in
        match ip with
        | None => None
        | Some ip =>
            match literal_transport rest ≫= literal_peer with
            | Some [] => Some ip
            | _ => None
            end
        end
  | _ => None
  end.

(** [address.split('/').any(|c| c == "p2p-circuit")] *)
Definition is_relayed (address : bytes) : bool :=
  existsb (λ c, bool_decide (c = bs "p2p-circuit")) (split_on x2f address).

Definition is_probeable_address (address : bytes) : bool :=
  if is_relayed address then false
  else match literal_host address with
       | Some (V4 ip) => is_public_v4 ip
       | Some (V6 ip) => is_public_v6 ip
       | None => false
       end.

Inductive CandidateRefusal :=
| NotLiteral | Relayed | SpecialUse | PrivateWithoutPrivateListener | NotOwnCircuit.
Inductive Family := FV4 | FV6.
#[global] Instance CandidateRefusal_eq_dec : EqDecision CandidateRefusal.
Proof. solve_decision. Defined.
#[global] Instance Family_eq_dec : EqDecision Family.
Proof. solve_decision. Defined.

Definition private_literal (address : bytes) : option (Family * bool) :=
  match literal_host address with
  | None => None
  | Some (V4 ip) => Some (FV4, v4_is_private ip)
  | Some (V6 ip) =>
      match to_ipv4_mapped ip with
      | Some v4 => Some (FV4, v4_is_private v4)
      | None => Some (FV6, N.land (segment 0 ip) 0xfe00 =? 0xfc00)
      end
  end.

Definition is_punchable_address (address : bytes) (own_listeners : list bytes) :
    result unit CandidateRefusal :=
  if is_relayed address then Err Relayed
  else match private_literal address with
       | None => Err NotLiteral
       | Some (family, private) =>
           if is_probeable_address address then Ok ()
           else if negb private then Err SpecialUse
           else if existsb (λ fp, bool_decide (fp.1 = family) && fp.2)
                     (omap private_literal own_listeners)
           then Ok () else Err PrivateWithoutPrivateListener
       end.
Definition is_discovered_address := is_punchable_address.
Definition is_advertised_address := is_punchable_address.

Example address_examples :
  is_probeable_address (bs "/ip4/8.8.8.8/tcp/4001") = true ∧
  is_probeable_address (bs "/ip6/2606:4700::1111/udp/4001/quic-v1/p2p/x") = true ∧
  is_probeable_address (bs "/ip4/10.0.0.1/tcp/4001") = false ∧
  is_probeable_address (bs "/ip4/8.8.8.8/tcp/1/ip4/127.0.0.1/tcp/22") = false ∧
  is_probeable_address (bs "/dns4/example.org/tcp/1") = false ∧
  is_probeable_address (bs "/ip6/::ffff:192.168.0.1/tcp/1") = false ∧
  is_punchable_address (bs "/ip4/10.0.0.1/tcp/4001") [bs "/ip4/192.168.1.2/tcp/1"] = Ok () ∧
  is_punchable_address (bs "/ip4/10.0.0.1/tcp/4001") [bs "/ip6/fd00::1/tcp/1"] =
    Err PrivateWithoutPrivateListener.
Proof. by vm_compute. Qed.

(** ** What may be punched at *)

(** The host an address reaches: a mapped v6 host is the v4 host inside. *)
Definition effective_host (ip : IpAddr) : IpAddr :=
  match ip with
  | V4 _ => ip
  | V6 o => match to_ipv4_mapped o with Some v4 => V4 v4 | None => ip end
  end.
(** Loopback, unspecified, "this network", link-local, multicast, reserved. *)
Definition host_is_special (ip : IpAddr) : bool :=
  match ip with
  | V4 o => v4_is_loopback o || (octet 0 o =? 0) || v4_is_link_local o || (224 <=? octet 0 o)
  | V6 o => (segment 0 o =? 0) || (N.land (segment 0 o) 0xffc0 =? 0xfe80)
            || (N.land (segment 0 o) 0xff00 =? 0xff00)
  end.
Definition host_is_private (ip : IpAddr) : bool :=
  match ip with V4 o => v4_is_private o | V6 o => N.land (segment 0 o) 0xfe00 =? 0xfc00 end.
Definition host_family (ip : IpAddr) : Family := match ip with V4 _ => FV4 | V6 _ => FV6 end.

Lemma private_literal_alt address :
  private_literal address =
  (λ ip, (host_family (effective_host ip), host_is_private (effective_host ip))) <$> literal_host address.
Proof.
  unfold private_literal. destruct (literal_host address) as [[o|o]|]; cbn [fmap option_fmap option_map]; [done| |done].
  unfold effective_host. by destruct (to_ipv4_mapped o).
Qed.
Lemma land_mask s mask v sub : N.land s mask = v → N.land mask sub = sub → N.land s sub = N.land v sub.
Proof. intros <- Hs. by rewrite -N.land_assoc Hs. Qed.
Lemma public_v4_ordinary o : is_public_v4 o = true → host_is_special (V4 o) = false ∧ host_is_private (V4 o) = false.
Proof.
  unfold is_public_v4, host_is_special, host_is_private, v4_is_multicast. cbv zeta. intros H%negb_true_iff.
  repeat (apply orb_false_elim in H as [H ?]). unfold v4_is_loopback in *.
  split; [|done]. rewrite -> !orb_false_iff. split_and!; [done..|].
  repeat match goal with Hx : (_ && _) = false |- _ => apply andb_false_iff in Hx end.
  apply N.leb_gt. repeat match goal with Hx : (_ <=? _) = false |- _ => apply N.leb_gt in Hx end.
  destruct (N.leb_spec0 224 (octet 0 o)) as [Hge|]; [|lia]. exfalso. 
  match goal with Hm : _ ∨ (octet 0 o <=? 239) = false |- _ =>
    destruct Hm as [Hm|Hm%N.leb_gt]; [done|lia] end.
Qed.
Lemma public_v6_ordinary o : to_ipv4_mapped o = None → is_public_v6 o = true →
  host_is_special (V6 o) = false ∧ host_is_private (V6 o) = false.
Proof.
  intros Hn. unfold is_public_v6, host_is_special, host_is_private. rw Hn. cbv zeta.
  destruct (N.eqb_spec (N.land (segment 0 o) 0xe000) 0x2000) as [E|]; [|done]. intros _.
  rewrite -> !orb_false_iff. split_and!; apply N.eqb_neq; intros Hx.
  - by rw Hx in E.
  - by rw (land_mask _ _ _ 0xe000 Hx eq_refl) in E.
  - by rw (land_mask _ _ _ 0xe000 Hx eq_refl) in E.
  - by rw (land_mask _ _ _ 0xe000 Hx eq_refl) in E.
Qed.
Lemma private_ordinary ip : host_is_private ip = true → host_is_special ip = false.
Proof.
  destruct ip as [o|o]; unfold host_is_private, host_is_special.
  - unfold v4_is_private, v4_is_loopback, v4_is_link_local. intros H.
    assert (octet 0 o = 10 ∨ octet 0 o = 172 ∨ octet 0 o = 192) as Ho.
    { apply orb_prop in H as [[H|H]%orb_prop|H].
      - left. by apply N.eqb_eq.
      - right; left. by apply andb_prop in H as [[?%N.eqb_eq _]%andb_prop _].
      - right; right. by apply andb_prop in H as [?%N.eqb_eq _]. }
    by destruct Ho as [-> | [-> | ->]].
  - intros E%N.eqb_eq. rewrite -> !orb_false_iff. split_and!; apply N.eqb_neq; intros Hx.
    + by rw Hx in E.
    + by rw (land_mask _ _ _ 0xfe00 Hx eq_refl) in E.
    + by rw (land_mask _ _ _ 0xfe00 Hx eq_refl) in E.
Qed.

(** What a hole punch may be aimed at. A punchable address is not relayed
    and names one literal host; the host, a v4 host inside a mapped v6 one
    included, is never loopback, unspecified, link-local, multicast or
    reserved, and it is private only beside an own listener that is private in
    the same family. *)
Theorem punchable_destination address own :
  is_punchable_address address own = Ok () →
  is_relayed address = false ∧
  ∃ ip, literal_host address = Some ip ∧ host_is_special (effective_host ip) = false ∧
    (host_is_private (effective_host ip) = true →
     ∃ l lip, l ∈ own ∧ literal_host l = Some lip ∧ host_is_private (effective_host lip) = true ∧
       host_family (effective_host lip) = host_family (effective_host ip)).
Proof.
  unfold is_punchable_address, is_probeable_address. destruct (is_relayed address); [done|].
  rw private_literal_alt. destruct (literal_host address) as [ip|]; [|done]. cbn [fmap option_fmap option_map].
  intros H. split; [done|]. exists ip. split; [done|].
  match type of H with (if ?b then _ else _) = _ => destruct b eqn:Hpub end.
  - assert (host_is_special (effective_host ip) = false ∧ host_is_private (effective_host ip) = false) as [-> ->]; [|done].
    destruct ip as [o|o]; [by apply public_v4_ordinary|]. unfold effective_host.
    destruct (to_ipv4_mapped o) as [v4|] eqn:E; [|by apply public_v6_ordinary].
    apply public_v4_ordinary. unfold is_public_v6 in Hpub. by rw E in Hpub.
  - destruct (host_is_private (effective_host ip)) eqn:Hpr; [|done]. cbn [negb] in H.
    split; [by apply private_ordinary|]. intros _.
    destruct (existsb _ _) eqn:Hex in H; [|done]. apply existsb_exists in Hex as ([f b] & Hin & Hfb).
    cbn [fst snd] in Hfb. apply andb_prop in Hfb as [->%bool_decide_eq_true ->].
    apply list_elem_of_In, list_elem_of_omap in Hin as (l & Hl & Hp). rewrite private_literal_alt in Hp.
    destruct (literal_host l) as [lip|] eqn:El; [|done]. injection Hp as Hf Hb. by exists l, lip.
Qed.

(** ** The manager *)

Definition DEFAULT_REQUIRED_DISTINCT_SUCCESSES : N := 2.
Definition DEFAULT_SUCCESS_EVIDENCE_TTL_MS : N := 15 * 60 * 1000.
Definition MAX_TRACKED_CANDIDATES : N := 64.
Definition MAX_SERVERS : N :=
  PeerTrustPolicy_MAX_ALLOWED_PEERS + InfrastructureSet_MAX_ALLOWED_PEERS.

Record ReachabilityConfig := MkReachabilityConfig {
  rh_required_distinct_successes : N;
  rh_success_evidence_ttl_ms : N
}.
Definition ReachabilityConfig_default : ReachabilityConfig :=
  MkReachabilityConfig DEFAULT_REQUIRED_DISTINCT_SUCCESSES DEFAULT_SUCCESS_EVIDENCE_TTL_MS.
Inductive ReachabilityError := ZeroBound (field : string).
Inductive RefusedReport := UnknownServer | UntrackedAddress.
Inductive ReachabilityVerdict :=
| VUnknown
| VVerifiedPublic (verified_addresses : list bytes) (evidence_until_ms : N)
| VNotVerified (last_failure_at_ms : option N).
Inductive ProbeOutcome := Reachable | Unreachable.
Inductive ServerSource := SrcStatic | SrcIdentify.
Record ConnectivityChanged := MkConnectivityChanged {
  cc_from : ReachabilityVerdict;
  cc_to : ReachabilityVerdict
}.
Record Evidence := MkEvidence {
  ev_success_at_ms : option N;
  ev_failure_at_ms : option N
}.
Definition Evidence_default : Evidence := MkEvidence None None.

Definition ReachabilityVerdict_state (v : ReachabilityVerdict) : DirectInboundState :=
  match v with
  | VUnknown => DI_Unknown
  | VVerifiedPublic _ _ => VerifiedPublic
  | VNotVerified _ => NotVerified
  end.
Definition ReachabilityVerdict_verified_addresses (v : ReachabilityVerdict) : list bytes :=
  match v with VVerifiedPublic l _ => l | VUnknown | VNotVerified _ => [] end.

(** [at.saturating_add(ttl_ms)] *)
Definition expiry (ttl_ms at_ms : N) : N := sat_add u64_max at_ms ttl_ms.
Definition fresh (ttl_ms now_ms : N) (at_ms : option N) : option N :=
  match at_ms with
  | Some t => if now_ms <? expiry ttl_ms t then Some t else None
  | None => None
  end.
Definition Evidence_fresh_success (e : Evidence) (ttl_ms now_ms : N) : option N :=
  fresh ttl_ms now_ms (ev_success_at_ms e).
Definition Evidence_fresh_failure (e : Evidence) (ttl_ms now_ms : N) : option N :=
  fresh ttl_ms now_ms (ev_failure_at_ms e).

Record ReachabilityManager := MkReachabilityManager {
  rh_config : ReachabilityConfig;
  rh_candidates : list bytes;
  rh_rejected_candidates : N;
  rh_truncated_candidates : N;
  rh_servers : gmap TransportIdentity ServerSource;
  rh_evidence : gmap (bytes * TransportIdentity) Evidence;
  rh_state : ReachabilityVerdict
}.

Definition ReachabilityManager_new (config : ReachabilityConfig) :
    result ReachabilityManager ReachabilityError :=
  if rh_required_distinct_successes config =? 0
  then Err (ZeroBound "required_distinct_successes")
  else if rh_success_evidence_ttl_ms config =? 0
  then Err (ZeroBound "success_evidence_ttl_ms")
  else Ok (MkReachabilityManager config [] 0 0 ∅ ∅ VUnknown).

(** What the servers say about one address. *)
Record Tally := MkTally {
  ty_saying_reachable : gset TransportIdentity;
  ty_reversed : gset TransportIdentity;
  ty_saying_unreachable : gset TransportIdentity;
  ty_last_uncontradicted : N;
  ty_quorum_expiries : list N
}.
Definition Tally_empty : Tally := MkTally ∅ ∅ ∅ 0 [].

(** One round of the evidence loop, with the failure flags it shares. *)
Definition tally_one (ttl now_ms : N) (address : bytes) (st : Tally * bool * option N)
    (entry : bytes * TransportIdentity * Evidence) : Tally * bool * option N :=
  let '(ty, any_failure, last_failure) := st in
  let '(a, server, e) := entry in
  if negb (bool_decide (a = address)) then st
  else
    let success := Evidence_fresh_success e ttl now_ms in
    let expiries :=
      match success with
      | Some t => ty_quorum_expiries ty ++ [expiry ttl t]
      | None => ty_quorum_expiries ty
      end in
    match Evidence_fresh_failure e ttl now_ms with
    | Some t =>
        (MkTally (ty_saying_reachable ty)
           (match success with
            | Some _ => {[server]} ∪ ty_reversed ty
            | None => ty_reversed ty
            end)
           ({[server]} ∪ ty_saying_unreachable ty) (ty_last_uncontradicted ty) expiries,
         true,
         Some (match last_failure with Some f => N.max f t | None => t end))
    | None =>
        match success with
        | Some t =>
            (MkTally ({[server]} ∪ ty_saying_reachable ty) (ty_reversed ty)
               (ty_saying_unreachable ty) (N.max (ty_last_uncontradicted ty) (expiry ttl t))
               expiries, any_failure, last_failure)
        | None =>
            (MkTally (ty_saying_reachable ty) (ty_reversed ty) (ty_saying_unreachable ty)
               (ty_last_uncontradicted ty) expiries, any_failure, last_failure)
        end
    end.

Definition nsize (s : gset TransportIdentity) : N := N.of_nat (size s).

(** Whether the tally verifies an address that was verified before or not. *)
Definition tally_verifies (threshold : N) (was_verified : bool) (ty : Tally) : bool :=
  let meets_threshold := threshold <=? nsize (ty_saying_reachable ty) in
  let holds :=
    was_verified && negb (bool_decide (ty_saying_reachable ty = ∅)) &&
    (threshold <=? nsize (ty_saying_reachable ty) + nsize (ty_reversed ty)) in
  (meets_threshold || holds) && (nsize (ty_saying_unreachable ty) <? 2).

(** When a verified address leaves the set; the index is in range whenever
    the tally verifies. *)
Definition tally_horizon (threshold : N) (ty : Tally) : N :=
  let sorted := sort_by N.leb (ty_quorum_expiries ty) in
  let nth := N.min threshold (len sorted) in
  let count_runs_out := default 0 (sorted !! N.to_nat (len sorted - nth)) in
  N.min count_runs_out (ty_last_uncontradicted ty).

(** One candidate of the [derive] loop. *)
Definition derive_one (m : ReachabilityManager) (now_ms : N)
    (st : list bytes * N * bool * option N) (address : bytes) : list bytes * N * bool * option N :=
  let '(verified, evidence_until, any_failure, last_failure) := st in
  let threshold := rh_required_distinct_successes (rh_config m) in
  let previously_verified := ReachabilityVerdict_verified_addresses (rh_state m) in
  let '(ty, any_failure, last_failure) :=
    foldl (tally_one (rh_success_evidence_ttl_ms (rh_config m)) now_ms address)
      (Tally_empty, any_failure, last_failure) (btree_to_list (rh_evidence m)) in
  if tally_verifies threshold (existsb (λ v, bool_decide (v = address)) previously_verified) ty
  then (verified ++ [address], N.min evidence_until (tally_horizon threshold ty),
        any_failure, last_failure)
  else (verified, evidence_until, any_failure, last_failure).

Definition ReachabilityManager_derive (m : ReachabilityManager) (now_ms : N) :
    ReachabilityVerdict :=
  let '(verified, evidence_until, any_failure, last_failure) :=
    foldl (derive_one m now_ms) ([], u64_max, false, None) (rh_candidates m) in
  if negb (bool_decide (verified = [])) then VVerifiedPublic verified evidence_until
  else if any_failure then VNotVerified last_failure
  else VUnknown.

Definition ReachabilityManager_change (before after : ReachabilityVerdict) :
    option ConnectivityChanged :=
  let set v : gset bytes := list_to_set (ReachabilityVerdict_verified_addresses v) in
  if bool_decide (ReachabilityVerdict_state before = ReachabilityVerdict_state after) &&
     bool_decide (set before = set after)
  then None else Some (MkConnectivityChanged before after).

Definition set_evidence (m : ReachabilityManager) (e : gmap (bytes * TransportIdentity) Evidence) :
    ReachabilityManager :=
  MkReachabilityManager (rh_config m) (rh_candidates m) (rh_rejected_candidates m)
    (rh_truncated_candidates m) (rh_servers m) e (rh_state m).
Definition set_verdict (m : ReachabilityManager) (v : ReachabilityVerdict) : ReachabilityManager :=
  MkReachabilityManager (rh_config m) (rh_candidates m) (rh_rejected_candidates m)
    (rh_truncated_candidates m) (rh_servers m) (rh_evidence m) v.

(** Fresh in either way: what [rederive] keeps. *)
Definition evidence_live (ttl now_ms : N) (e : Evidence) : bool :=
  match Evidence_fresh_success e ttl now_ms, Evidence_fresh_failure e ttl now_ms with
  | None, None => false
  | _, _ => true
  end.

Definition ReachabilityManager_rederive (m : ReachabilityManager) (now_ms : N) :
    option ConnectivityChanged * ReachabilityManager :=
  let ttl := rh_success_evidence_ttl_ms (rh_config m) in
  let m := set_evidence m (filter (λ ke, evidence_live ttl now_ms ke.2 = true) (rh_evidence m)) in
  let before := rh_state m in
  let after := ReachabilityManager_derive m now_ms in
  (ReachabilityManager_change before after, set_verdict m after).

(** One address of the [set_candidates] loop. *)
Definition offer_candidate (st : list bytes * gset bytes * N * N) (address : bytes) :
    list bytes * gset bytes * N * N :=
  let '(accepted, seen, rejected, truncated) := st in
  if negb (is_probeable_address address) then (accepted, seen, rejected + 1, truncated)
  else if bool_decide (address ∈ seen) then st
  else if len accepted <? MAX_TRACKED_CANDIDATES
  then (accepted ++ [address], {[address]} ∪ seen, rejected, truncated)
  else (accepted, {[address]} ∪ seen, rejected, truncated + 1).

Definition ReachabilityManager_set_candidates (m : ReachabilityManager) (addresses : list bytes)
    (now_ms : N) : option ConnectivityChanged * ReachabilityManager :=
  let '(accepted, _, rejected, truncated) :=
    foldl offer_candidate ([], ∅, 0, 0) addresses in
  ReachabilityManager_rederive
    (MkReachabilityManager (rh_config m) accepted rejected truncated (rh_servers m)
       (filter (λ ke, ke.1.1 ∈ accepted) (rh_evidence m)) (rh_state m))
    now_ms.

Definition source_lt (a b : ServerSource) : bool :=
  match a, b with SrcStatic, SrcIdentify => true | _, _ => false end.

Definition ReachabilityManager_add_server (m : ReachabilityManager) (server : TransportIdentity)
    (source : ServerSource) : bool * ReachabilityManager :=
  if bool_decide (rh_servers m !! server = None) &&
     (MAX_SERVERS <=? N.of_nat (size (rh_servers m)))
  then (false, m)
  else
    let slot := default source (rh_servers m !! server) in
    let slot := if source_lt source slot then source else slot in
    (true,
     MkReachabilityManager (rh_config m) (rh_candidates m) (rh_rejected_candidates m)
       (rh_truncated_candidates m) (<[server := slot]> (rh_servers m)) (rh_evidence m) (rh_state m)).

Definition ReachabilityManager_remove_server (m : ReachabilityManager)
    (server : TransportIdentity) (now_ms : N) : option ConnectivityChanged * ReachabilityManager :=
  ReachabilityManager_rederive
    (MkReachabilityManager (rh_config m) (rh_candidates m) (rh_rejected_candidates m)
       (rh_truncated_candidates m) (delete server (rh_servers m))
       (filter (λ ke, ke.1.2 ≠ server) (rh_evidence m)) (rh_state m))
    now_ms.

Definition ReachabilityManager_is_server (m : ReachabilityManager) (peer : TransportIdentity) : bool :=
  bool_decide (is_Some (rh_servers m !! peer)).

Definition dial_leb (a b : ServerSource * TransportIdentity) : bool :=
  source_lt a.1 b.1 || (negb (source_lt b.1 a.1) && key_leb a.2 b.2).
Definition ReachabilityManager_dial_order (m : ReachabilityManager) : list TransportIdentity :=
  (sort_by dial_leb ((λ ks, (ks.2, ks.1)) <$> btree_to_list (rh_servers m))).*2.

(** The latest word of one server on one address. *)
Definition record_word (e : Evidence) (outcome : ProbeOutcome) (now_ms : N) : Evidence :=
  match outcome with
  | Reachable => MkEvidence (Some now_ms) None
  | Unreachable =>
      MkEvidence (ev_success_at_ms e)
        (Some (match ev_success_at_ms e with Some s => N.max s now_ms | None => now_ms end))
  end.

Definition ReachabilityManager_record_outcome (m : ReachabilityManager) (address : bytes)
    (server : TransportIdentity) (outcome : ProbeOutcome) (now_ms : N) :
    result (option ConnectivityChanged) RefusedReport * ReachabilityManager :=
  if bool_decide (rh_servers m !! server = None) then (Err UnknownServer, m)
  else if negb (existsb (λ c, bool_decide (c = address)) (rh_candidates m))
  then (Err UntrackedAddress, m)
  else
    let entry := default Evidence_default (rh_evidence m !! (address, server)) in
    let '(changed, m) :=
      ReachabilityManager_rederive
        (set_evidence m (<[(address, server) := record_word entry outcome now_ms]> (rh_evidence m)))
        now_ms in
    (Ok changed, m).

Definition ReachabilityManager_expire_evidence (m : ReachabilityManager) (now_ms : N) :
    option ConnectivityChanged * ReachabilityManager := ReachabilityManager_rederive m now_ms.

Definition ReachabilityManager_network_changed (m : ReachabilityManager) :
    option ConnectivityChanged * ReachabilityManager :=
  let m' := set_verdict (set_evidence m ∅) VUnknown in
  (ReachabilityManager_change (rh_state m) (rh_state m'), m').

(** ** What the tally counts *)

Definition tally_of (ttl now_ms : N) (address : bytes)
    (ev : gmap (bytes * TransportIdentity) Evidence) : Tally :=
  (foldl (tally_one ttl now_ms address) (Tally_empty, false, None) (btree_to_list ev)).1.1.

(** A server with a fresh success on the address, and when that lapses. *)
Definition succ_entry (ttl now_ms : N) (address : bytes)
    (entry : bytes * TransportIdentity * Evidence) : option (TransportIdentity * N) :=
  if bool_decide (entry.1.1 = address)
  then (λ t, (entry.1.2, expiry ttl t)) <$> Evidence_fresh_success entry.2 ttl now_ms
  else None.
Definition succ_list ttl now_ms address (l : list (bytes * TransportIdentity * Evidence)) :
    list (TransportIdentity * N) := omap (succ_entry ttl now_ms address) l.

Definition isSome {A} (o : option A) : bool := match o with Some _ => true | None => false end.
Lemma isSome_spec {A} (o : option A) : is_Some o ↔ isSome o = true.
Proof. destruct o; simpl; split; try done; by intros [? ?]. Qed.
Lemma isNone_spec {A} (o : option A) : o = None ↔ isSome o = false.
Proof. by destruct o. Qed.

(** The tally of a list of entries, by membership. *)
Record tally_counts (ttl now_ms : N) (address : bytes)
    (l : list (bytes * TransportIdentity * Evidence)) (ty : Tally) : Prop := {
  tc_reachable : ∀ s, s ∈ ty_saying_reachable ty ↔
    ∃ e, (address, s, e) ∈ l ∧
         negb (isSome (Evidence_fresh_failure e ttl now_ms)) &&
         isSome (Evidence_fresh_success e ttl now_ms) = true;
  tc_reversed : ∀ s, s ∈ ty_reversed ty ↔
    ∃ e, (address, s, e) ∈ l ∧
         isSome (Evidence_fresh_failure e ttl now_ms) &&
         isSome (Evidence_fresh_success e ttl now_ms) = true;
  tc_unreachable : ∀ s, s ∈ ty_saying_unreachable ty ↔
    ∃ e, (address, s, e) ∈ l ∧ isSome (Evidence_fresh_failure e ttl now_ms) = true;
  tc_expiries : ty_quorum_expiries ty = (succ_list ttl now_ms address l).*2;
  tc_last_ge : ∀ s e t, (address, s, e) ∈ l → Evidence_fresh_failure e ttl now_ms = None →
    Evidence_fresh_success e ttl now_ms = Some t → expiry ttl t ≤ ty_last_uncontradicted ty;
  tc_last_in : ty_last_uncontradicted ty = 0 ∨
    ∃ s e t, (address, s, e) ∈ l ∧ Evidence_fresh_failure e ttl now_ms = None ∧
      Evidence_fresh_success e ttl now_ms = Some t ∧ ty_last_uncontradicted ty = expiry ttl t
}.

Lemma tally_counts_nil ttl now a : tally_counts ttl now a [] Tally_empty.
Proof.
  split; simpl; try done.
  1-3: intros s; split; [set_solver|intros (e & He & _); by apply elem_of_nil in He].
  - intros s e t He. by apply elem_of_nil in He.
  - by left.
Qed.

Lemma snoc_entry (P : Evidence → Prop) (a b : bytes) (s0 s : TransportIdentity) e l :
  (∃ e0, (a, s0, e0) ∈ l ++ [(b, s, e)] ∧ P e0) ↔
  (∃ e0, (a, s0, e0) ∈ l ∧ P e0) ∨ (b = a ∧ s0 = s ∧ P e).
Proof.
  split.
  - intros (e0 & [Hin|Hin]%elem_of_app & HP); [left; by exists e0|right].
    apply list_elem_of_singleton in Hin. by simplify_eq.
  - intros [(e0 & Hin & HP)|(-> & -> & HP)].
    + exists e0. split; [apply elem_of_app; by left|done].
    + exists e. split; [apply elem_of_app; right; by apply list_elem_of_singleton|done].
Qed.
(** The three sets grow by the server of an entry under these conditions. *)
Lemma tally_one_sets ttl now a st b s e :
  let ty := st.1.1 in
  let ty' := (tally_one ttl now a st (b, s, e)).1.1 in
  let here := bool_decide (b = a) in
  let f := isSome (Evidence_fresh_failure e ttl now) in
  let g := isSome (Evidence_fresh_success e ttl now) in
  ty_saying_reachable ty' =
    (if here && (negb f && g) then {[s]} ∪ ty_saying_reachable ty else ty_saying_reachable ty) ∧
  ty_reversed ty' = (if here && (f && g) then {[s]} ∪ ty_reversed ty else ty_reversed ty) ∧
  ty_saying_unreachable ty' =
    (if here && f then {[s]} ∪ ty_saying_unreachable ty else ty_saying_unreachable ty) ∧
  ty_last_uncontradicted ty' =
    (if here && negb f then
       match Evidence_fresh_success e ttl now with
       | Some t => N.max (ty_last_uncontradicted ty) (expiry ttl t)
       | None => ty_last_uncontradicted ty
       end
     else ty_last_uncontradicted ty) ∧
  ty_quorum_expiries ty' =
    ty_quorum_expiries ty ++
    (match succ_entry ttl now a (b, s, e) with Some y => [y.2] | None => [] end).
Proof.
  destruct st as [[ty any] last]. unfold succ_entry. simpl.
  destruct (bool_decide (b = a)); simpl; [|by rw app_nil_r].
  destruct (Evidence_fresh_failure e ttl now), (Evidence_fresh_success e ttl now); simpl;
    by rw ?app_nil_r.
Qed.

Lemma grow_snoc (X : gset TransportIdentity) (p : Evidence → bool) (a b : bytes)
    (s : TransportIdentity) e (l : list (bytes * TransportIdentity * Evidence)) :
  (∀ s0, s0 ∈ X ↔ ∃ e0, (a, s0, e0) ∈ l ∧ p e0 = true) →
  ∀ s0, s0 ∈ (if bool_decide (b = a) && p e then {[s]} ∪ X else X) ↔
    ∃ e0, (a, s0, e0) ∈ l ++ [(b, s, e)] ∧ p e0 = true.
Proof.
  intros HX s0. rewrite (snoc_entry (λ e0, p e0 = true)) -HX.
  destruct (bool_decide (b = a)) eqn:Eb; simpl.
  - apply bool_decide_eq_true in Eb. destruct (p e); rw ?elem_of_union ?elem_of_singleton; naive_solver.
  - apply bool_decide_eq_false in Eb. naive_solver.
Qed.

Lemma tally_counts_snoc ttl now a l x st :
  tally_counts ttl now a l st.1.1 → tally_counts ttl now a (l ++ [x]) (tally_one ttl now a st x).1.1.
Proof.
  destruct x as [[b s] e]. intros [H1 H2 H3 H4 H5 H6].
  destruct (tally_one_sets ttl now a st b s e) as (E1 & E2 & E3 & E4 & E5). split.
  - rw E1. by apply (grow_snoc _ (λ e, negb (isSome (Evidence_fresh_failure e ttl now)) &&
      isSome (Evidence_fresh_success e ttl now))).
  - rw E2. by apply (grow_snoc _ (λ e, isSome (Evidence_fresh_failure e ttl now) &&
      isSome (Evidence_fresh_success e ttl now))).
  - rw E3. by apply (grow_snoc _ (λ e, isSome (Evidence_fresh_failure e ttl now))).
  - rw E5 H4. unfold succ_list. rw omap_app fmap_app. f_equal. simpl. by destruct (succ_entry _ _ _ _).
  - rw E4. intros s0 e0 t [Hin|Hin]%elem_of_app Hf Ht.
    + specialize (H5 _ _ _ Hin Hf Ht).
      clear E1 E2 E3 E4 E5. destruct (bool_decide (b = a)), (isSome (Evidence_fresh_failure e ttl now));
        simpl; try done. destruct (Evidence_fresh_success e ttl now); lia.
    + apply list_elem_of_singleton in Hin. simplify_eq. rw Hf Ht bool_decide_eq_true_2 //. simpl. lia.
  - rw E4. destruct (bool_decide (b = a)) eqn:Eb; simpl.
    2:{ destruct H6 as [?|(s0 & e0 & t & ? & ?)]; [by left|right]. exists s0, e0, t. set_solver. }
    apply bool_decide_eq_true in Eb as ->.
    assert (ty_last_uncontradicted st.1.1 = 0 ∨ ∃ s0 e0 t, (a, s0, e0) ∈ l ++ [(a, s, e)] ∧
      Evidence_fresh_failure e0 ttl now = None ∧ Evidence_fresh_success e0 ttl now = Some t ∧
      ty_last_uncontradicted st.1.1 = expiry ttl t) as Hold.
    { destruct H6 as [?|(s0 & e0 & t & ? & ?)]; [by left|right]. exists s0, e0, t. set_solver. }
    destruct (Evidence_fresh_failure e ttl now) eqn:Ef; simpl; [done|].
    destruct (Evidence_fresh_success e ttl now) as [t|] eqn:Et; [|done].
    destruct (N.max_spec (ty_last_uncontradicted st.1.1) (expiry ttl t)) as [[_ ->]|[_ ->]]; [|done].
    right. exists s, e, t. set_solver.
Qed.

Lemma tally_counts_fold ttl now a l l0 st :
  tally_counts ttl now a l0 st.1.1 →
  tally_counts ttl now a (l0 ++ l) (foldl (tally_one ttl now a) st l).1.1.
Proof.
  revert l0 st. induction l as [|x l IH]; intros l0 st H; [by rw app_nil_r|]. simpl.
  replace (l0 ++ x :: l) with ((l0 ++ [x]) ++ l) by (by rw -app_assoc).
  by apply IH, tally_counts_snoc.
Qed.

(** The shared failure flags do not influence the tally. *)
Lemma tally_one_flags ttl now a ty any last any' last' x :
  (tally_one ttl now a (ty, any, last) x).1.1 = (tally_one ttl now a (ty, any', last') x).1.1.
Proof.
  destruct x as [[b s] e]. simpl. destruct (bool_decide (b = a)); [|done].
  by destruct (Evidence_fresh_failure e ttl now), (Evidence_fresh_success e ttl now).
Qed.
Lemma tally_fold_flags ttl now a l ty any last any' last' :
  (foldl (tally_one ttl now a) (ty, any, last) l).1.1 =
  (foldl (tally_one ttl now a) (ty, any', last') l).1.1.
Proof.
  revert ty any last any' last'. induction l as [|x l IH]; intros ty any last any' last'; [done|].
  cbn [foldl]. pose proof (tally_one_flags ttl now a ty any last any' last' x) as Hx.
  destruct (tally_one ttl now a (ty, any, last) x) as [[t1 a1] l1].
  destruct (tally_one ttl now a (ty, any', last') x) as [[t2 a2] l2]. cbn [fst] in Hx. subst. apply IH.
Qed.

Lemma tally_of_counts ttl now a ev : tally_counts ttl now a (btree_to_list ev) (tally_of ttl now a ev).
Proof. apply (tally_counts_fold ttl now a (btree_to_list ev) [] (Tally_empty, false, None)), tally_counts_nil. Qed.

(** Whether a server's word on an address is fresh. *)
Definition says (p : Evidence → bool) (ev : gmap (bytes * TransportIdentity) Evidence) (a : bytes)
    (s : TransportIdentity) : Prop := ∃ e, ev !! (a, s) = Some e ∧ p e = true.
Definition has_success ttl now (e : Evidence) : bool := isSome (Evidence_fresh_success e ttl now).
Definition has_failure ttl now (e : Evidence) : bool := isSome (Evidence_fresh_failure e ttl now).

Lemma elem_of_reachable ttl now a ev s :
  s ∈ ty_saying_reachable (tally_of ttl now a ev) ↔
  says (λ e, negb (has_failure ttl now e) && has_success ttl now e) ev a s.
Proof.
  rewrite (tc_reachable _ _ _ _ _ (tally_of_counts ttl now a ev)). unfold says.
  by setoid_rewrite elem_of_btree_to_list.
Qed.
Lemma elem_of_reversed ttl now a ev s :
  s ∈ ty_reversed (tally_of ttl now a ev) ↔
  says (λ e, has_failure ttl now e && has_success ttl now e) ev a s.
Proof.
  rewrite (tc_reversed _ _ _ _ _ (tally_of_counts ttl now a ev)). unfold says.
  by setoid_rewrite elem_of_btree_to_list.
Qed.
Lemma elem_of_unreachable ttl now a ev s :
  s ∈ ty_saying_unreachable (tally_of ttl now a ev) ↔ says (has_failure ttl now) ev a s.
Proof.
  rewrite (tc_unreachable _ _ _ _ _ (tally_of_counts ttl now a ev)). unfold says.
  by setoid_rewrite elem_of_btree_to_list.
Qed.

(** The servers with a fresh success, one way or the other. *)
Definition quorum (ty : Tally) : gset TransportIdentity := ty_saying_reachable ty ∪ ty_reversed ty.
Lemma elem_of_quorum ttl now a ev s :
  s ∈ quorum (tally_of ttl now a ev) ↔ says (has_success ttl now) ev a s.
Proof.
  unfold quorum. rewrite elem_of_union elem_of_reachable elem_of_reversed. unfold says. split.
  - intros [(e & He & Hp)|(e & He & Hp)]; exists e; (split; [done|]);
      destruct (has_failure ttl now e), (has_success ttl now e); done.
  - intros (e & He & Hp). destruct (has_failure ttl now e) eqn:Ef; [right|left];
      exists e; by rw Ef Hp.
Qed.
Lemma quorum_size ttl now a ev :
  let ty := tally_of ttl now a ev in
  nsize (ty_saying_reachable ty) + nsize (ty_reversed ty) = nsize (quorum ty).
Proof.
  intros ty. unfold nsize, quorum. rw size_union; [lia|]. intros s.
  rewrite elem_of_reachable elem_of_reversed. intros (e & He & Hp) (e' & He' & Hp').
  simplify_eq. by destruct (has_failure ttl now e).
Qed.

(** ** Counting the fresh successes *)

Lemma succ_list_keys ttl now a ev :
  NoDup (succ_list ttl now a (btree_to_list ev)).*1.
Proof.
  unfold succ_list. pose proof (NoDup_btree_keys ev) as Hnd.
  induction (btree_to_list ev) as [|[[b s] e] l IH]; [constructor|].
  apply NoDup_cons in Hnd as [Hk Hnd]. cbn [omap list_omap].
  destruct (succ_entry ttl now a (b, s, e)) as [[s' t]|] eqn:E; [|by apply IH].
  cbn [fmap list_fmap]. apply NoDup_cons. split; [|by apply IH].
  unfold succ_entry in E. simpl in E. case_bool_decide; [subst|done].
  apply fmap_Some in E as (t0 & Et & E). injection E as -> ->. intros Hin.
  apply list_elem_of_fmap in Hin as ([s1 t1] & Hs1 & Hin). simpl in Hs1. subst s1.
  apply list_elem_of_omap in Hin as ([[b2 s2] e2] & Hin & E2). unfold succ_entry in E2. simpl in E2.
  case_bool_decide; [subst|done]. apply fmap_Some in E2 as (t2 & _ & E2). injection E2 as -> ->.
  apply Hk, (list_elem_of_fmap_2 fst l (a, s2, e2) Hin).
Qed.
Lemma elem_of_succ_list ttl now a ev s x :
  (s, x) ∈ succ_list ttl now a (btree_to_list ev) ↔
  ∃ e t, ev !! (a, s) = Some e ∧ Evidence_fresh_success e ttl now = Some t ∧ x = expiry ttl t.
Proof.
  unfold succ_list. rw list_elem_of_omap. split.
  - intros ([[b s'] e] & Hin%elem_of_btree_to_list & E). unfold succ_entry in E. simpl in *.
    case_bool_decide; [subst|done]. apply fmap_Some in E as (t & Et & [= -> ->]). by exists e, t.
  - intros (e & t & He & Ht & ->). exists (a, s, e). split; [by apply elem_of_btree_to_list|].
    unfold succ_entry. simpl. rw bool_decide_eq_true_2 // Ht //.
Qed.

Lemma fresh_Some ttl now o t : fresh ttl now o = Some t ↔ o = Some t ∧ now < expiry ttl t.
Proof.
  unfold fresh. destruct o as [t'|]; [|naive_solver].
  destruct (N.ltb_spec now (expiry ttl t')); split; naive_solver lia.
Qed.
Lemma fresh_later ttl now now' o t : now ≤ now' → fresh ttl now' o = Some t → fresh ttl now o = Some t.
Proof. rewrite !fresh_Some. intros ? [-> ?]. split; [done|lia]. Qed.

(** At a later time the fresh successes are those that expire after it. *)
Lemma quorum_later ttl now now' a ev :
  now ≤ now' →
  nsize (quorum (tally_of ttl now' a ev)) =
  len (filter (λ x, now' < x) (ty_quorum_expiries (tally_of ttl now a ev))).
Proof.
  intros Hle. rw (tc_expiries _ _ _ _ _ (tally_of_counts ttl now a ev)).
  set (l := succ_list ttl now a (btree_to_list ev)).
  assert (filter (λ x, now' < x) l.*2 = (filter (λ sx, now' < sx.2) l).*2) as ->.
  { generalize l. clear. induction l as [|[s x] l IH]; [done|]. cbn [fmap list_fmap]. rewrite !filter_cons.
    cbn [snd]. destruct (decide (now' < x)); cbn [fmap list_fmap]; by rw IH. }
  unfold len. rw length_fmap -(length_fmap fst). unfold nsize. f_equal.
  assert (quorum (tally_of ttl now' a ev) = list_to_set (filter (λ sx, now' < sx.2) l).*1) as ->.
  { apply set_eq. intros s. rewrite elem_of_quorum elem_of_list_to_set list_elem_of_fmap. split.
    - intros (e & He & Hs). unfold has_success in Hs. apply isSome_spec in Hs as [t Ht].
      pose proof Ht as Ht'. unfold Evidence_fresh_success in Ht'. apply fresh_Some in Ht' as [_ Hlt].
      exists (s, expiry ttl t). split; [done|]. apply list_elem_of_filter. split; [done|].
      apply elem_of_succ_list. exists e, t. split_and!; try done. by eapply fresh_later.
    - intros ([s' x] & -> & Hin). apply list_elem_of_filter in Hin as [Hx Hin].
      apply elem_of_succ_list in Hin as (e & t & He & Ht & ->). simpl in *. exists e. split; [done|].
      unfold has_success. apply isSome_spec. exists t. unfold Evidence_fresh_success in *.
      apply fresh_Some in Ht as [Ht _]. by apply fresh_Some. }
  apply size_list_to_set. eapply sublist_NoDup; [apply (succ_list_keys ttl now a ev)|].
  apply fmap_sublist, sublist_filter.
Qed.

(** ** The horizon of one address *)

Lemma filter_perm_len (P : N → Prop) `{!∀ x, Decision (P x)} (l k : list N) :
  l ≡ₚ k → len (filter P l) = len (filter P k).
Proof. intros Hp. unfold len. by rewrite -> Hp. Qed.

Lemma filter_length_le (P : N → Prop) `{!∀ x, Decision (P x)} (l : list N) : len (filter P l) ≤ len l.
Proof. unfold len. pose proof (length_filter P l). lia. Qed.
Lemma filter_all (P : N → Prop) `{!∀ x, Decision (P x)} (l : list N) : Forall P l → filter P l = l.
Proof. induction 1; [done|]. rewrite filter_cons_True //. by f_equal. Qed.
Lemma filter_none (P : N → Prop) `{!∀ x, Decision (P x)} (l : list N) :
  Forall (λ x, ¬ P x) l → filter P l = [].
Proof. induction 1; [done|]. by rewrite filter_cons_False. Qed.

Lemma N_sort_sorted (l : list N) : StronglySorted (λ a b, (a <=? b) = true) (sort_by N.leb l).
Proof.
  apply sort_by_sorted.
  - intros a b. rewrite !N.leb_le. lia.
  - intros a b c. rewrite !N.leb_le. lia.
Qed.

(** The [k]-th newest of [l] is after [t] exactly when [k] of them are. *)
Lemma kth_newest (l : list N) (k x t : N) :
  1 ≤ k → k ≤ len l → sort_by N.leb l !! N.to_nat (len l - k) = Some x →
  (t < x ↔ k ≤ len (filter (λ y, t < y) l)).
Proof.
  intros Hk1 Hk2 Hx. pose proof (sort_by_perm N.leb l) as Hp. pose proof (N_sort_sorted l) as Hs.
  rw -(filter_perm_len _ _ _ Hp). set (ys := sort_by N.leb l) in *.
  assert (len ys = len l) as Hlen by (unfold len; by rewrite -> Hp).
  set (i := N.to_nat (len l - k)) in *. pose proof (take_drop_middle ys i x Hx) as Hsplit.
  assert (length (take i ys) = i) as Hti.
  { rw length_take. unfold len in Hlen, Hk2. apply lookup_lt_Some in Hx. lia. }
  assert (len (drop (S i) ys) + 1 = k) as Hd.
  { unfold len in *. rw length_drop. lia. }
  rewrite <- Hsplit in Hs. apply StronglySorted_app in Hs as (Hlr & Hsl & Hsr).
  apply StronglySorted_inv in Hsr as [_ Hge]. rewrite <- Hsplit. rewrite filter_app filter_cons len_app. split.
  - intros Htx. rewrite -> decide_True by done. rw len_cons. rewrite -> (filter_all _ (drop (S i) ys)); [lia|].
    eapply Forall_impl; [exact Hge|]. intros y Hy%N.leb_le. lia.
  - intros Hcnt. destruct (N.lt_ge_cases t x) as [|Hxt]; [done|]. exfalso.
    rewrite -> decide_False in Hcnt by lia. rewrite -> (filter_none _ (take i ys)) in Hcnt.
    + change (len []) with 0 in Hcnt. pose proof (filter_length_le (λ y, t < y) (drop (S i) ys)). lia.
    + apply Forall_forall. intros y Hy. assert ((y <=? x) = true) as Hyx%N.leb_le; [|lia].
      apply Hlr; [done|by left].
Qed.

Section Address.
Context (ttl thr : N) (a : bytes) (ev : gmap (bytes * TransportIdentity) Evidence).

(** Expiries counted at the tally's own time are all of them. *)
Lemma quorum_expiries_len now :
  len (ty_quorum_expiries (tally_of ttl now a ev)) = nsize (quorum (tally_of ttl now a ev)).
Proof.
  rw (quorum_later ttl now now a ev); [|lia]. rewrite filter_all //.
  rw (tc_expiries _ _ _ _ _ (tally_of_counts ttl now a ev)). apply Forall_forall. intros x Hx.
  apply list_elem_of_fmap in Hx as ([s y] & -> & Hin). apply elem_of_succ_list in Hin as (e & t & _ & Ht & ->).
  unfold Evidence_fresh_success in Ht. apply fresh_Some in Ht as [_ ?]. done.
Qed.

Lemma verifies_quorum was now :
  1 ≤ thr → tally_verifies thr was (tally_of ttl now a ev) = true →
  thr ≤ nsize (quorum (tally_of ttl now a ev)) ∧
  ty_saying_reachable (tally_of ttl now a ev) ≠ ∅ ∧
  nsize (ty_saying_unreachable (tally_of ttl now a ev)) < 2.
Proof.
  intros Hthr Hv. pose proof (quorum_size ttl now a ev) as Hq. cbv zeta in Hq.
  unfold tally_verifies in Hv. apply andb_prop in Hv as [Hv Hu%N.ltb_lt]. apply orb_prop in Hv as [Hv|Hv].
  - apply N.leb_le in Hv. split_and!; [lia| |done]. intros He. unfold nsize in Hv. rw He size_empty in Hv. lia.
  - apply andb_prop in Hv as [[_ Hn]%andb_prop Hc%N.leb_le].
    apply negb_true_iff, bool_decide_eq_false in Hn. split_and!; [lia|done|done].
Qed.

(** Whenever the tally verifies, the index of the horizon is in range. *)
Lemma horizon_in_range was now :
  1 ≤ thr → tally_verifies thr was (tally_of ttl now a ev) = true →
  let sorted := sort_by N.leb (ty_quorum_expiries (tally_of ttl now a ev)) in
  N.min thr (len sorted) = thr ∧ (N.to_nat (len sorted - thr) < length sorted)%nat.
Proof.
  intros Hthr Hv sorted. destruct (verifies_quorum was now Hthr Hv) as (Hq & _ & _).
  assert (len sorted = nsize (quorum (tally_of ttl now a ev))) as Hl.
  { rw -quorum_expiries_len. unfold sorted, len. by rewrite -> sort_by_perm. }
  unfold len in *. lia.
Qed.

Lemma before_horizon was now t :
  1 ≤ thr → tally_verifies thr was (tally_of ttl now a ev) = true → now ≤ t →
  (t < tally_horizon thr (tally_of ttl now a ev) ↔
   thr ≤ nsize (quorum (tally_of ttl t a ev)) ∧
   t < ty_last_uncontradicted (tally_of ttl now a ev)).
Proof.
  intros Hthr Hv Hle. destruct (horizon_in_range was now Hthr Hv) as [Hmin Hlt].
  destruct (verifies_quorum was now Hthr Hv) as (Hq & _ & _). rw -quorum_expiries_len in Hq.
  unfold tally_horizon. set (l := ty_quorum_expiries (tally_of ttl now a ev)) in *.
  rw Hmin. assert (len (sort_by N.leb l) = len l) as Hl by (unfold len; by rewrite -> sort_by_perm).
  rw Hl in Hlt. rw Hl. destruct (lookup_lt_is_Some_2 _ _ Hlt) as [x Hx]. rw Hx. simpl.
  rw (quorum_later ttl now t a ev Hle). fold l. rewrite -(kth_newest l thr x t Hthr Hq Hx). lia.
Qed.

(** Before the horizon the address stays verified; at or after it, it is not
    ([failure_at] never precedes the success it contradicts). *)
Lemma verified_before_horizon was now t :
  1 ≤ thr → tally_verifies thr was (tally_of ttl now a ev) = true → now ≤ t →
  t < tally_horizon thr (tally_of ttl now a ev) → tally_verifies thr true (tally_of ttl t a ev) = true.
Proof.
  intros Hthr Hv Hle Ht. apply (before_horizon was now t Hthr Hv Hle) in Ht as [Hq Hlast].
  destruct (verifies_quorum was now Hthr Hv) as (_ & _ & Hu).
  pose proof (quorum_size ttl t a ev) as Hqs. cbv zeta in Hqs. unfold tally_verifies. apply andb_true_intro. split.
  - apply orb_true_intro. right. rw -Hqs in Hq. rewrite -> (proj2 (N.leb_le _ _) Hq).
    rw andb_true_r. simpl. apply negb_true_iff, bool_decide_eq_false.
    destruct (tc_last_in _ _ _ _ _ (tally_of_counts ttl now a ev)) as [H0|(s & e & t0 & Hin & Hf & Hs & Hl)]; [lia|].
    apply elem_of_btree_to_list in Hin. intros He.
    assert (s ∈ ty_saying_reachable (tally_of ttl t a ev)) as Hs'; [|rw He in Hs'; set_solver].
    apply elem_of_reachable. exists e. split; [done|]. unfold has_failure, has_success.
    assert (Evidence_fresh_failure e ttl t = None) as ->.
    { destruct (Evidence_fresh_failure e ttl t) as [f|] eqn:E; [|done].
      unfold Evidence_fresh_failure in *. apply (fresh_later _ now) in E; [congruence|done]. }
    unfold Evidence_fresh_success in *. apply fresh_Some in Hs as [Hs _].
    rewrite (proj2 (fresh_Some ttl t _ t0)); [done|]. split; [done|lia].
  - apply N.ltb_lt. eapply N.le_lt_trans; [|exact Hu]. unfold nsize.
    assert (size (ty_saying_unreachable (tally_of ttl t a ev)) ≤
      size (ty_saying_unreachable (tally_of ttl now a ev)))%nat; [|lia].
    apply subseteq_size. intros s. rewrite !elem_of_unreachable. intros (e & He & Hf). exists e.
    split; [done|]. unfold has_failure in *. apply isSome_spec in Hf as [f Hf]. apply isSome_spec.
    exists f. unfold Evidence_fresh_failure in *. by eapply fresh_later.
Qed.

Lemma unverified_after_horizon was was' now t :
  1 ≤ thr → (∀ s e f g, ev !! (a, s) = Some e → ev_failure_at_ms e = Some f →
     ev_success_at_ms e = Some g → g ≤ f) →
  tally_verifies thr was (tally_of ttl now a ev) = true → now ≤ t →
  tally_horizon thr (tally_of ttl now a ev) ≤ t → tally_verifies thr was' (tally_of ttl t a ev) = false.
Proof.
  intros Hthr Hord Hv Hle Ht. destruct (tally_verifies thr was' _) eqn:Hv'; [|done]. exfalso.
  destruct (verifies_quorum was' t Hthr Hv') as (Hq & Hne & _).
  assert (¬ t < tally_horizon thr (tally_of ttl now a ev)) as Hnot by lia. apply Hnot.
  apply (before_horizon was now t Hthr Hv Hle). split; [done|].
  apply set_choose_L in Hne as [s Hs]. apply elem_of_reachable in Hs as (e & He & Hp).
  unfold has_failure, has_success in Hp. apply andb_prop in Hp as [Hf%negb_true_iff Hsu].
  apply isNone_spec in Hf. apply isSome_spec in Hsu as [t0 Hsu]. pose proof Hsu as Hsu'.
  unfold Evidence_fresh_success in Hsu'. apply fresh_Some in Hsu' as [Hat Hlt].
  eapply N.lt_le_trans; [exact Hlt|].
  apply (tc_last_ge _ _ _ _ _ (tally_of_counts ttl now a ev) s e t0); [by apply elem_of_btree_to_list| |].
  - destruct (Evidence_fresh_failure e ttl now) as [f|] eqn:Ef; [|done]. exfalso.
    unfold Evidence_fresh_failure in *. apply fresh_Some in Ef as [Ef _].
    assert (fresh ttl t (ev_failure_at_ms e) = Some f); [|congruence]. apply fresh_Some. split; [done|].
    pose proof (Hord s e f t0 He Ef Hat). unfold expiry, sat_add in *. lia.
  - unfold Evidence_fresh_success in *. by eapply fresh_later.
Qed.
End Address.

(** ** The verdict *)

Definition threshold (m : ReachabilityManager) : N := rh_required_distinct_successes (rh_config m).
Definition evidence_ttl (m : ReachabilityManager) : N := rh_success_evidence_ttl_ms (rh_config m).
Definition verified_of (m : ReachabilityManager) : list bytes :=
  ReachabilityVerdict_verified_addresses (rh_state m).
Definition address_tally (m : ReachabilityManager) (now_ms : N) (a : bytes) : Tally :=
  tally_of (evidence_ttl m) now_ms a (rh_evidence m).
Definition was_verified (m : ReachabilityManager) (a : bytes) : bool :=
  existsb (λ v, bool_decide (v = a)) (verified_of m).
Definition verifies (m : ReachabilityManager) (now_ms : N) (a : bytes) : bool :=
  tally_verifies (threshold m) (was_verified m a) (address_tally m now_ms a).
Definition address_horizon (m : ReachabilityManager) (now_ms : N) (a : bytes) : N :=
  tally_horizon (threshold m) (address_tally m now_ms a).

Lemma was_verified_iff m a : was_verified m a = true ↔ a ∈ verified_of m.
Proof.
  unfold was_verified. rewrite existsb_exists. split.
  - intros (v & Hin & Hv%bool_decide_eq_true). subst. by apply list_elem_of_In.
  - intros Hin. exists a. split; [by apply list_elem_of_In|by apply bool_decide_eq_true].
Qed.

Lemma derive_one_spec m now vs u any last a :
  let r := derive_one m now (vs, u, any, last) a in
  r.1.1.1 = vs ++ (if verifies m now a then [a] else []) ∧
  r.1.1.2 = (if verifies m now a then N.min u (address_horizon m now a) else u).
Proof.
  unfold derive_one.
  pose proof (tally_fold_flags (rh_success_evidence_ttl_ms (rh_config m)) now a
    (btree_to_list (rh_evidence m)) Tally_empty any last false None) as Ht.
  destruct (foldl _ (Tally_empty, any, last) _) as [[ty any'] last']. cbn [fst] in Ht. subst ty.
  fold (tally_of (rh_success_evidence_ttl_ms (rh_config m)) now a (rh_evidence m)).
  change (tally_verifies _ _ _) with (verifies m now a).
  destruct (verifies m now a); simpl; [done|]. by rw app_nil_r.
Qed.
Lemma derive_fold_spec m now cands vs u any last :
  let r := foldl (derive_one m now) (vs, u, any, last) cands in
  let new := filter (λ a, verifies m now a = true) cands in
  r.1.1.1 = vs ++ new ∧ r.1.1.2 = foldl N.min u (address_horizon m now <$> new).
Proof.
  revert vs u any last. induction cands as [|a cands IH]; intros vs u any last.
  { simpl. by rw app_nil_r. }
  cbn [foldl]. destruct (derive_one_spec m now vs u any last a) as [H1 H2].
  destruct (derive_one m now (vs, u, any, last) a) as [[[vs' u'] any'] last']. cbn [fst snd] in H1, H2.
  destruct (IH vs' u' any' last') as [I1 I2]. cbv zeta. rw I1 I2 H1 H2. rewrite filter_cons.
  destruct (verifies m now a); [rewrite -> decide_True by done|rewrite -> decide_False by done].
  - rw -app_assoc. done.
  - by rw app_nil_r.
Qed.
Lemma derive_verified m now :
  let vs := filter (λ a, verifies m now a = true) (rh_candidates m) in
  ReachabilityVerdict_verified_addresses (ReachabilityManager_derive m now) = vs ∧
  ∀ l u, ReachabilityManager_derive m now = VVerifiedPublic l u →
    l = vs ∧ u = foldl N.min u64_max (address_horizon m now <$> vs) ∧ l ≠ [].
Proof.
  unfold ReachabilityManager_derive. destruct (derive_fold_spec m now (rh_candidates m) [] u64_max false None) as [H1 H2].
  destruct (foldl _ _ _) as [[[vs u] any] last]. cbn [fst snd app] in H1, H2. subst vs u. cbv zeta.
  destruct (bool_decide (filter _ _ = [])) eqn:E; cbn [negb].
  - apply bool_decide_eq_true in E. rw E. split; [by destruct any|]. intros l u. by destruct any.
  - apply bool_decide_eq_false in E. split; [done|]. by intros l u [= <- <-].
Qed.

(** Dropping what is not fresh at [now] changes no tally from [now] on. *)
Lemma says_live p ttl now t ev a s :
  now ≤ t → (∀ e, p e = true → has_success ttl t e = true ∨ has_failure ttl t e = true) →
  says p (filter (λ ke, evidence_live ttl now ke.2 = true) ev) a s ↔ says p ev a s.
Proof.
  intros Hle Hp. unfold says. split; intros (e & He & Hpe); exists e; (split; [|done]).
  - by apply map_lookup_filter_Some in He as [He _].
  - apply map_lookup_filter_Some. split; [done|]. simpl. unfold evidence_live.
    destruct (Hp e Hpe) as [H|H]; apply isSome_spec in H as [x Hx];
      unfold Evidence_fresh_success, Evidence_fresh_failure in *;
      rewrite -> (fresh_later _ now _ _ _ Hle Hx); [done|by destruct (fresh ttl now (ev_success_at_ms e))].
Qed.
Lemma tally_sets_live ttl now t a ev :
  now ≤ t →
  let ty := tally_of ttl t a ev in
  let ty' := tally_of ttl t a (filter (λ ke, evidence_live ttl now ke.2 = true) ev) in
  ty_saying_reachable ty' = ty_saying_reachable ty ∧ ty_reversed ty' = ty_reversed ty ∧
  ty_saying_unreachable ty' = ty_saying_unreachable ty.
Proof.
  intros Hle. cbv zeta. split_and!; apply set_eq; intros s.
  - rewrite !elem_of_reachable. apply (says_live _ ttl now t); [done|]. intros e.
    destruct (has_success ttl t e), (has_failure ttl t e); simpl; auto.
  - rewrite !elem_of_reversed. apply (says_live _ ttl now t); [done|]. intros e.
    destruct (has_success ttl t e), (has_failure ttl t e); simpl; auto.
  - rewrite !elem_of_unreachable. apply (says_live _ ttl now t); [done|]. intros e. auto.
Qed.
Lemma tally_verifies_live thr was ttl now t a ev :
  now ≤ t →
  tally_verifies thr was (tally_of ttl t a (filter (λ ke, evidence_live ttl now ke.2 = true) ev)) =
  tally_verifies thr was (tally_of ttl t a ev).
Proof.
  intros Hle. destruct (tally_sets_live ttl now t a ev Hle) as (H1 & H2 & H3).
  unfold tally_verifies. cbv zeta in *. by rw H1 H2 H3.
Qed.

(** The state [rederive] reaches. *)
Lemma rederive_spec m now :
  let m' := (ReachabilityManager_rederive m now).2 in
  rh_config m' = rh_config m ∧ rh_candidates m' = rh_candidates m ∧ rh_servers m' = rh_servers m ∧
  rh_evidence m' = filter (λ ke, evidence_live (evidence_ttl m) now ke.2 = true) (rh_evidence m) ∧
  verified_of m' = filter (λ a, verifies m now a = true) (rh_candidates m) ∧
  ∀ l u, rh_state m' = VVerifiedPublic l u →
    l = verified_of m' ∧ u = foldl N.min u64_max
      ((λ a, tally_horizon (threshold m) (address_tally m' now a)) <$> l) ∧ l ≠ [].
Proof.
  unfold ReachabilityManager_rederive. cbv zeta. cbn [snd].
  set (m1 := set_evidence m _). destruct (derive_verified m1 now) as [H1 H2]. cbv zeta in H1, H2.
  split_and!; try done.
  - unfold verified_of. cbn [set_verdict rh_state]. rw H1. apply list_filter_iff. intros a.
    unfold verifies, address_tally. cbn [m1 set_evidence rh_evidence].
    change (evidence_ttl m1) with (evidence_ttl m). unfold m1. cbn [set_evidence rh_evidence].
    rw tally_verifies_live; [|lia]. done.
  - intros l u E. cbn [set_verdict rh_state] in E. destruct (H2 _ _ E) as (-> & -> & Hne).
    split; [|done]. unfold verified_of. cbn [set_verdict rh_state]. by rw E.
Qed.

(** ** Histories *)

Inductive reach_op :=
| ROSetCandidates (addresses : list bytes) (now_ms : N)
| ROAddServer (server : TransportIdentity) (source : ServerSource)
| RORemoveServer (server : TransportIdentity) (now_ms : N)
| RORecord (address : bytes) (server : TransportIdentity) (outcome : ProbeOutcome) (now_ms : N)
| ROExpire (now_ms : N)
| RONetworkChanged.

(** One call, with the time of the last derivation. *)
Definition reach_step (st : ReachabilityManager * N) (op : reach_op) : ReachabilityManager * N :=
  let '(m, last) := st in
  match op with
  | ROSetCandidates l now => ((ReachabilityManager_set_candidates m l now).2, now)
  | ROAddServer s src => ((ReachabilityManager_add_server m s src).2, last)
  | RORemoveServer s now => ((ReachabilityManager_remove_server m s now).2, now)
  | RORecord a s o now =>
      let '(r, m) := ReachabilityManager_record_outcome m a s o now in
      (m, match r with Ok _ => now | Err _ => last end)
  | ROExpire now => ((ReachabilityManager_expire_evidence m now).2, now)
  | RONetworkChanged => ((ReachabilityManager_network_changed m).2, last)
  end.
Definition reach_run (m : ReachabilityManager) (ops : list reach_op) : ReachabilityManager * N :=
  foldl reach_step (m, 0) ops.

(** What the evidence supports at [now]. *)
Definition supported (m : ReachabilityManager) (now_ms : N) (a : bytes) : Prop :=
  let ty := address_tally m now_ms a in
  threshold m ≤ nsize (quorum ty) ∧ ty_saying_reachable ty ≠ ∅ ∧ nsize (ty_saying_unreachable ty) < 2.

Record reach_inv (m : ReachabilityManager) : Prop := {
  ri_threshold : 1 ≤ threshold m;
  ri_candidates : len (rh_candidates m) ≤ 64 ∧ NoDup (rh_candidates m) ∧
    Forall (λ a, is_probeable_address a = true) (rh_candidates m);
  ri_servers : N.of_nat (size (rh_servers m)) ≤ MAX_SERVERS;
  ri_evidence : ∀ a s e, rh_evidence m !! (a, s) = Some e →
    a ∈ rh_candidates m ∧ is_Some (rh_servers m !! s) ∧
    ∀ f g, ev_failure_at_ms e = Some f → ev_success_at_ms e = Some g → g ≤ f
}.
Definition verdict_ok (m : ReachabilityManager) (now_ms : N) : Prop :=
  ∀ a, a ∈ verified_of m → a ∈ rh_candidates m ∧ supported m now_ms a.

Lemma reach_new_inv config m :
  ReachabilityManager_new config = Ok m → reach_inv m ∧ verdict_ok m 0 ∧ rh_config m = config.
Proof.
  unfold ReachabilityManager_new. destruct (N.eqb_spec (rh_required_distinct_successes config) 0); [done|].
  destruct (_ =? 0); [done|]. intros [= <-]. split; [|split; [|done]].
  - split; simpl; [unfold threshold; simpl; lia|split_and!; [unfold len; simpl; lia|by apply NoDup_nil|by apply Forall_nil]|by vm_compute|].
    intros a s e. by rw lookup_empty.
  - intros a Ha. by apply elem_of_nil in Ha.
Qed.

Lemma rederive_inv m now : reach_inv m → reach_inv (ReachabilityManager_rederive m now).2.
Proof.
  intros [H1 H2 H3 H4]. destruct (rederive_spec m now) as (Ec & Ed & Es & Ee & _ & _). split.
  - unfold threshold. by rw Ec.
  - by rw Ed.
  - by rw Es.
  - intros a s e. rw Ee Ed Es. intros [He _]%map_lookup_filter_Some. by apply H4.
Qed.
Lemma rederive_verdict m now :
  reach_inv m → verdict_ok (ReachabilityManager_rederive m now).2 now.
Proof.
  intros Hm a Ha. destruct (rederive_spec m now) as (Ec & Ed & Es & Ee & Ev & _). rw Ev in Ha.
  apply list_elem_of_filter in Ha as [Hv Ha]. rw Ed. split; [done|].
  unfold verifies in Hv. destruct (verifies_quorum (evidence_ttl m) (threshold m) a (rh_evidence m)
    (was_verified m a) now (ri_threshold _ Hm) Hv) as (Q1 & Q2 & Q3).
  unfold supported, address_tally, evidence_ttl, threshold. rw Ec Ee.
  destruct (tally_sets_live (evidence_ttl m) now now a (rh_evidence m)) as (T1 & T2 & T3); [lia|].
  cbv zeta in *. unfold quorum in *. unfold evidence_ttl in *. by rw T1 T2 T3.
Qed.

Lemma offer_fold l acc seen rej tr :
  len acc ≤ 64 → NoDup acc → Forall (λ a, is_probeable_address a = true) acc →
  (∀ a, a ∈ acc → a ∈ seen) →
  let r := foldl offer_candidate (acc, seen, rej, tr) l in
  len r.1.1.1 ≤ 64 ∧ NoDup r.1.1.1 ∧ Forall (λ a, is_probeable_address a = true) r.1.1.1.
Proof.
  revert acc seen rej tr. induction l as [|a l IH]; intros acc seen rej tr H1 H2 H3 H4; [done|].
  cbn [foldl]. destruct (offer_candidate (acc, seen, rej, tr) a) as [[[acc' seen'] rej'] tr'] eqn:E.
  assert (len acc' ≤ 64 ∧ NoDup acc' ∧ Forall (λ a, is_probeable_address a = true) acc' ∧
    ∀ a, a ∈ acc' → a ∈ seen') as (I1 & I2 & I3 & I4); [|by apply IH].
  unfold offer_candidate in E. destruct (is_probeable_address a) eqn:Ep; simpl in E; [|by simplify_eq].
  case_bool_decide as Hs; [by simplify_eq|]. unfold MAX_TRACKED_CANDIDATES in E.
  destruct (N.ltb_spec (len acc) 64); simplify_eq.
  - split_and!.
    + len_simpl. lia.
    + apply NoDup_app. split_and!; [done| |apply NoDup_singleton].
      intros x Hx ->%list_elem_of_singleton. by apply Hs, H4.
    + apply Forall_app. split; [done|]. by constructor.
    + intros x [Hx|Hx]%elem_of_app; [set_solver|]. apply list_elem_of_singleton in Hx. set_solver.
  - split_and!; try done. set_solver.
Qed.

Lemma set_candidates_inv m l now : reach_inv m →
  reach_inv (ReachabilityManager_set_candidates m l now).2 ∧
  verdict_ok (ReachabilityManager_set_candidates m l now).2 now.
Proof.
  intros [H1 H2 H3 H4]. unfold ReachabilityManager_set_candidates.
  pose proof (offer_fold l [] ∅ 0 0) as Ho.
  destruct (foldl offer_candidate ([], ∅, 0, 0) l) as [[[acc seen] rej] tr]. cbn [fst snd] in Ho.
  assert (reach_inv (MkReachabilityManager (rh_config m) acc rej tr (rh_servers m)
    (filter (λ ke, ke.1.1 ∈ acc) (rh_evidence m)) (rh_state m))) as Hm.
  { split; simpl; try done.
    - apply Ho; [unfold len; simpl; lia|by apply NoDup_nil|by apply Forall_nil|set_solver].
    - intros a s e [He Ha]%map_lookup_filter_Some. destruct (H4 _ _ _ He) as (_ & ? & ?). done. }
  split; [by apply rederive_inv|by apply rederive_verdict].
Qed.
Lemma remove_server_inv m s now : reach_inv m →
  reach_inv (ReachabilityManager_remove_server m s now).2 ∧
  verdict_ok (ReachabilityManager_remove_server m s now).2 now.
Proof.
  intros [H1 H2 H3 H4]. unfold ReachabilityManager_remove_server.
  set (m1 := MkReachabilityManager _ _ _ _ _ _ _). assert (reach_inv m1) as Hm.
  { split; simpl; try done.
    - etrans; [|exact H3]. pose proof (map_subseteq_size _ _ (delete_subseteq (rh_servers m) s)). lia.
    - intros a s' e [He Hne]%map_lookup_filter_Some. simpl in Hne. destruct (H4 _ _ _ He) as (? & ? & ?).
      by rewrite -> lookup_delete_ne by done. }
  split; [by apply rederive_inv|by apply rederive_verdict].
Qed.
Lemma record_word_order e o now f g :
  (∀ f g, ev_failure_at_ms e = Some f → ev_success_at_ms e = Some g → g ≤ f) →
  ev_failure_at_ms (record_word e o now) = Some f → ev_success_at_ms (record_word e o now) = Some g → g ≤ f.
Proof. intros _. destruct o; simpl; [done|]. intros [= <-] Hg. rw Hg. lia. Qed.

Lemma record_outcome_inv m a s o now : reach_inv m →
  let r := ReachabilityManager_record_outcome m a s o now in
  match r.1 with Ok _ => reach_inv r.2 ∧ verdict_ok r.2 now | Err _ => r.2 = m end.
Proof.
  intros [H1 H2 H3 H4]. unfold ReachabilityManager_record_outcome.
  case_bool_decide as Hs; [done|]. destruct (existsb _ _) eqn:Ea; simpl; [|done].
  set (m1 := set_evidence m _). assert (reach_inv m1) as Hm.
  { split; try done. intros b s' e. simpl. rw lookup_insert. case_decide as Heq; [|apply H4].
    simplify_eq. intros [= <-]. split_and!.
    - apply existsb_exists in Ea as (c & Hc & Heq%bool_decide_eq_true). subst. by apply list_elem_of_In.
    - by apply not_eq_None_Some.
    - intros f g. apply record_word_order. intros f' g'.
      destruct (rh_evidence m !! (b, s')) as [e|] eqn:Ee; simpl; [|done]. by apply (H4 _ _ _ Ee). }
  exact (conj (rederive_inv m1 now Hm) (rederive_verdict m1 now Hm)).
Qed.

Lemma reach_step_inv st op :
  reach_inv st.1 → verdict_ok st.1 st.2 →
  reach_inv (reach_step st op).1 ∧ verdict_ok (reach_step st op).1 (reach_step st op).2.
Proof.
  destruct st as [m last]. intros Hm Hv. destruct op as [l now|s src|s now|a s o now|now|]; simpl in *.
  - by apply set_candidates_inv.
  - unfold ReachabilityManager_add_server. destruct (_ && _) eqn:E; [done|].
    destruct Hm as [H1 H2 H3 H4]. split; [|done]. split; try done; simpl.
    + destruct (rh_servers m !! s) eqn:Es; [by rewrite -> map_size_insert_Some by done|].
      rewrite -> map_size_insert_None by done. rw bool_decide_eq_true_2 // in E. simpl in E.
      apply N.leb_gt in E. lia.
    + intros a s' e He. destruct (H4 _ _ _ He) as (? & ? & ?). split_and!; try done.
      rw lookup_insert. case_decide; [by eexists|done].
  - by apply remove_server_inv.
  - pose proof (record_outcome_inv m a s o now Hm) as Hr.
    destruct (ReachabilityManager_record_outcome m a s o now) as [[c|e] m']; [done|]. by simpl in Hr; subst.
  - split; [by apply rederive_inv|by apply rederive_verdict].
  - destruct Hm as [H1 H2 H3 H4]. split; [|by intros a Ha%elem_of_nil]. split; try done.
Qed.
Lemma reach_run_inv config m ops :
  ReachabilityManager_new config = Ok m →
  reach_inv (reach_run m ops).1 ∧ verdict_ok (reach_run m ops).1 (reach_run m ops).2.
Proof.
  intros Hnew. destruct (reach_new_inv _ _ Hnew) as (Hi & Hv & _). unfold reach_run.
  assert (∀ st, reach_inv st.1 → verdict_ok st.1 st.2 →
    reach_inv (foldl reach_step st ops).1 ∧ verdict_ok (foldl reach_step st ops).1 (foldl reach_step st ops).2) as Hall.
  { induction ops as [|op ops IH]; intros st H1 H2; [done|]. simpl.
    destruct (reach_step_inv st op H1 H2). by apply IH. }
  by apply (Hall (m, 0)).
Qed.

(** C31: An address is in the verified set only on the word of enough distinct
    servers. After any history, a verified address is a literal, public, direct
    address; at the time of the last derivation at least the configured number
    of distinct servers, every one of them still offered, had a success on it
    within the evidence TTL, one of them has not contradicted itself, and no two
    servers had a fresh failure. *)
Theorem verified_addresses_supported config m0 ops a :
  ReachabilityManager_new config = Ok m0 →
  let m := (reach_run m0 ops).1 in
  let now := (reach_run m0 ops).2 in
  a ∈ verified_of m →
  is_probeable_address a = true ∧
  (∃ Q : gset TransportIdentity, threshold m ≤ nsize Q ∧
     (∀ s, s ∈ Q → ReachabilityManager_is_server m s = true ∧
        says (has_success (evidence_ttl m) now) (rh_evidence m) a s) ∧
     ∃ s, s ∈ Q ∧ ¬ says (has_failure (evidence_ttl m) now) (rh_evidence m) a s) ∧
  (∀ s s', says (has_failure (evidence_ttl m) now) (rh_evidence m) a s →
     says (has_failure (evidence_ttl m) now) (rh_evidence m) a s' → s = s').
Proof.
  intros Hnew m now Ha. destruct (reach_run_inv _ _ ops Hnew) as [Hm Hv]. fold m now in Hm, Hv.
  destruct (Hv _ Ha) as (Hc & Hq & Hr & Hu). split_and!.
  - destruct (ri_candidates _ Hm) as (_ & _ & Hp). rewrite Forall_forall in Hp. by apply Hp.
  - exists (quorum (address_tally m now a)). split_and!; [done| |].
    + intros s Hs%elem_of_quorum. split; [|done]. destruct Hs as (e & He & _).
      destruct (ri_evidence _ Hm _ _ _ He) as (_ & Hs & _). by apply bool_decide_eq_true_2.
    + apply set_choose_L in Hr as [s Hs]. exists s. split; [by apply elem_of_union_l|].
      apply elem_of_reachable in Hs as (e & He & Hp). intros (e' & He' & Hf). simplify_eq.
      by rw Hf in Hp.
  - intros s s' Hs%elem_of_unreachable Hs'%elem_of_unreachable.
    destruct (decide (s = s')) as [|Hne]; [done|]. exfalso.
    assert (size ({[s; s']} : gset TransportIdentity) ≤
      size (ty_saying_unreachable (address_tally m now a)))%nat as Hsz.
    { apply subseteq_size. unfold address_tally. set_solver. }
    rw size_union in Hsz; [|set_solver]. rw !size_singleton in Hsz. unfold nsize in Hu. lia.
Qed.

Lemma foldl_min_le (u : N) l x : x ∈ l → foldl N.min u l ≤ x.
Proof.
  revert u. induction l as [|y l IH]; intros u Hx; [by apply elem_of_nil in Hx|]. simpl.
  apply elem_of_cons in Hx as [->|Hx]; [|by apply IH].
  assert (∀ l v, foldl N.min v l ≤ v) as Hle.
  { clear. intros l. induction l as [|z l IH]; intros v; simpl; [lia|]. etrans; [apply IH|lia]. }
  etrans; [apply Hle|lia].
Qed.
Lemma foldl_min_in (u : N) l :
  foldl N.min u l = u ∨ foldl N.min u l ∈ l.
Proof.
  revert u. induction l as [|y l IH]; intros u; [by left|]. simpl.
  destruct (IH (N.min u y)) as [->|Hin]; [|right; by right].
  destruct (N.min_spec u y) as [[_ ->]|[_ ->]]; [by left|right; by left].
Qed.
Lemma horizon_le_max thr ttl now a ev : tally_horizon thr (tally_of ttl now a ev) ≤ u64_max.
Proof.
  unfold tally_horizon. etrans; [apply N.le_min_r|].
  destruct (tc_last_in _ _ _ _ _ (tally_of_counts ttl now a ev)) as [->|(s & e & t & _ & _ & _ & ->)]; [apply N.le_0_l|].
  unfold expiry, sat_add. apply N.le_min_r.
Qed.

(** [evidence_until_ms] is exactly the moment the verified set shrinks. With
    no further evidence, every address verified at [now] is still verified at
    any time before it, and at or after it one of them is not. *)
Theorem evidence_until_exact m now vs horizon t :
  reach_inv m →
  rh_state (ReachabilityManager_expire_evidence m now).2 = VVerifiedPublic vs horizon → now ≤ t →
  let later := verified_of (ReachabilityManager_expire_evidence
                 (ReachabilityManager_expire_evidence m now).2 t).2 in
  (t < horizon → ∀ a, a ∈ vs → a ∈ later) ∧ (horizon ≤ t → ∃ a, a ∈ vs ∧ a ∉ later).
Proof.
  unfold ReachabilityManager_expire_evidence. intros Hm Hst Hle. cbv zeta.
  pose proof (rederive_inv m now Hm) as Hm1. pose proof (rederive_spec m now) as Hspec.
  set (m1 := (ReachabilityManager_rederive m now).2) in *. cbv zeta in Hspec.
  destruct Hspec as (Ec & Ed & _ & Ee & Ev & Es). destruct (Es _ _ Hst) as (Hvs & Hh & Hne). clear Es Hst.
  destruct (rederive_spec m1 t) as (_ & _ & _ & _ & Ev1 & _). cbv zeta in Ev1. rw Ev1.
  assert (threshold m1 = threshold m) as Et by (unfold threshold; by rw Ec).
  assert (evidence_ttl m1 = evidence_ttl m) as El by (unfold evidence_ttl; by rw Ec).
  assert (∀ a, a ∈ vs → a ∈ rh_candidates m1 ∧
    tally_verifies (threshold m1) (was_verified m a) (address_tally m1 now a) = true) as Hver.
  { intros a Ha. rw Hvs Ev in Ha. apply list_elem_of_filter in Ha as [Hv Ha]. rw Ed. split; [done|].
    unfold address_tally. rw El Ee Et. rw tally_verifies_live; [exact Hv|lia]. }
  pose proof (ri_threshold _ Hm1) as Hthr. split.
  - intros Ht a Ha. destruct (Hver _ Ha) as [Hc Hv]. apply list_elem_of_filter. split; [|done].
    unfold verifies. rewrite -> (proj2 (was_verified_iff m1 a)) by (by rw -Hvs).
    eapply (verified_before_horizon _ _ _ _ (was_verified m a) now t Hthr Hv Hle).
    eapply N.lt_le_trans; [exact Ht|]. rw Hh. apply foldl_min_le. rw Et.
    by apply (list_elem_of_fmap_2 (λ a, tally_horizon (threshold m) (address_tally m1 now a))).
  - intros Ht. assert (∃ a, a ∈ vs ∧ horizon = tally_horizon (threshold m) (address_tally m1 now a)) as (a & Ha & Hx).
    { assert (∃ a, a ∈ vs) as [a0 Ha0] by (destruct vs as [|a0 vs']; [done|exists a0; by left]).
      set (hz := λ a, tally_horizon (threshold m) (address_tally m1 now a)) in *.
      destruct (foldl_min_in u64_max (hz <$> vs)) as [Hmax|Hin].
      - exists a0. split; [done|]. apply N.le_antisymm.
        + rw Hh. apply foldl_min_le. by apply (list_elem_of_fmap_2 hz).
        + rw Hh Hmax. apply horizon_le_max.
      - rw -Hh in Hin. apply list_elem_of_fmap in Hin as (a & Hx & Ha). by exists a. }
    destruct (Hver _ Ha) as [_ Hv]. exists a. split; [done|]. intros [Hv' _]%list_elem_of_filter.
    unfold verifies in Hv'. unfold address_tally in Hv, Hv'.
    rewrite -> (unverified_after_horizon (evidence_ttl m1) (threshold m1) a (rh_evidence m1)
      (was_verified m a) (was_verified m1 a) now t Hthr) in Hv'; try done.
    + intros s e f g He. by apply (ri_evidence _ Hm1 _ _ _ He).
    + by rw Et -Hx.
Qed.

(** ** One contradiction *)

Lemma says_insert p ev a s x s' :
  says p (<[(a, s) := x]> ev) a s' ↔ (if bool_decide (s' = s) then p x = true else says p ev a s').
Proof.
  unfold says. case_bool_decide as Hs.
  - subst. setoid_rewrite lookup_insert_eq. split; [by intros (e & [= <-] & Hp)|by exists x].
  - by setoid_rewrite (lookup_insert_ne ev (a, s) (a, s') x ltac:(congruence)).
Qed.
Lemma verifies_was_iff ttl thr a ev now : 1 ≤ thr →
  tally_verifies thr true (tally_of ttl now a ev) = true ↔
  thr ≤ nsize (quorum (tally_of ttl now a ev)) ∧
  (∃ s, s ∈ ty_saying_reachable (tally_of ttl now a ev)) ∧
  nsize (ty_saying_unreachable (tally_of ttl now a ev)) < 2.
Proof.
  intros Hthr. split.
  - intros Hv. destruct (verifies_quorum ttl thr a ev true now Hthr Hv) as (H1 & H2 & H3).
    by apply set_choose_L in H2.
  - intros (H1 & [s Hs] & H3). pose proof (quorum_size ttl now a ev) as Hq. cbv zeta in Hq.
    unfold tally_verifies. apply andb_true_intro. split; [|by apply N.ltb_lt].
    apply orb_true_intro. right. apply andb_true_intro. split; [|apply N.leb_le; lia].
    apply negb_true_iff, bool_decide_eq_false_2. set_solver.
Qed.
Lemma nsize_lt_2 (X : gset TransportIdentity) s : s ∈ X →
  nsize X < 2 ↔ ∀ s', s' ∈ X → s' = s.
Proof.
  intros Hs. unfold nsize. split.
  - intros Hlt s' Hs'. destruct (decide (s' = s)) as [|Hne]; [done|]. exfalso.
    assert (size ({[s; s']} : gset TransportIdentity) ≤ size X)%nat as Hsz by (apply subseteq_size; set_solver).
    rw size_union in Hsz; [|set_solver]. rw !size_singleton in Hsz. lia.
  - intros Hall. assert (X = {[s]}) as -> by set_solver. rw size_singleton. done.
Qed.

(** One server going back on its word does not unverify an address by
    itself. When a server reports a verified address unreachable, the address
    stays verified exactly when no other server has a fresh failure on it, some
    other server has a fresh success, and the servers with a fresh success,
    the contradicting one among them, still meet the threshold. *)
Theorem contradiction_hysteresis m a s now :
  reach_inv m → 1 ≤ evidence_ttl m → now < u64_max →
  a ∈ rh_candidates m → a ∈ verified_of m → ReachabilityManager_is_server m s = true →
  let m' := (ReachabilityManager_record_outcome m a s Unreachable now).2 in
  let success := says (has_success (evidence_ttl m) now) (rh_evidence m) a in
  let failure := says (has_failure (evidence_ttl m) now) (rh_evidence m) a in
  a ∈ verified_of m' ↔
  threshold m ≤ nsize (quorum (address_tally m now a)) ∧
  (∃ s', s' ≠ s ∧ success s') ∧ (∀ s', s' ≠ s → ¬ failure s').
Proof.
  intros Hm Httl Hnow Hc Ha Hs. cbv zeta. unfold ReachabilityManager_record_outcome.
  unfold ReachabilityManager_is_server in Hs. apply bool_decide_eq_true in Hs as [src Hsrc].
  rewrite -> bool_decide_eq_false_2 by (by rw Hsrc).
  assert (existsb (λ c, bool_decide (c = a)) (rh_candidates m) = true) as ->.
  { apply existsb_exists. exists a. split; [by apply list_elem_of_In|by apply bool_decide_eq_true]. }
  cbn [negb]. set (x := record_word _ _ _). set (m1 := set_evidence m _).
  destruct (rederive_spec m1 now) as (_ & _ & _ & _ & Ev & _). cbv zeta in Ev.
  destruct (ReachabilityManager_rederive m1 now) as [ch m2]. cbn [snd] in *. rw Ev.
  rewrite list_elem_of_filter. unfold verifies, was_verified.
  change (existsb _ _) with (was_verified m a). rewrite (proj2 (was_verified_iff m a) Ha).
  unfold address_tally. change (evidence_ttl m1) with (evidence_ttl m).
  change (threshold m1) with (threshold m). change (rh_candidates m1) with (rh_candidates m).
  change (rh_evidence m1) with (<[(a, s) := x]> (rh_evidence m)).
  rewrite (verifies_was_iff _ _ _ _ _ (ri_threshold _ Hm)).
  assert (has_failure (evidence_ttl m) now x = true) as Hxf.
  { unfold has_failure, Evidence_fresh_failure. apply isSome_spec. unfold x. cbn [record_word ev_failure_at_ms].
    eexists. apply fresh_Some. split; [done|]. unfold expiry, sat_add. case_match; lia. }
  assert (∀ s', says (has_success (evidence_ttl m) now) (<[(a, s) := x]> (rh_evidence m)) a s' ↔
    says (has_success (evidence_ttl m) now) (rh_evidence m) a s') as Hsu.
  { intros s'. rewrite says_insert. case_bool_decide as E; [|done]. subst s'. unfold says, x.
    unfold has_success, Evidence_fresh_success. cbn [record_word ev_success_at_ms].
    destruct (rh_evidence m !! (a, s)) as [e|] eqn:He; cbn [default]; [naive_solver|].
    split; [done|by intros (? & ? & _)]. }
  assert (quorum (tally_of (evidence_ttl m) now a (<[(a, s) := x]> (rh_evidence m))) =
    quorum (tally_of (evidence_ttl m) now a (rh_evidence m))) as ->.
  { apply set_eq. intros s'. by rewrite !elem_of_quorum. }
  rewrite (nsize_lt_2 _ s); [|apply elem_of_unreachable, says_insert; by rewrite bool_decide_eq_true_2].
  setoid_rewrite elem_of_unreachable. setoid_rewrite elem_of_reachable.
  split.
  - intros ((Hq & (s' & Hr) & Hu) & _). split_and!; [done| |].
    + exists s'. rewrite says_insert in Hr. case_bool_decide as E; [by rw Hxf in Hr|].
      split; [done|]. destruct Hr as (e & He & [_ Hp]%andb_prop). by exists e.
    + intros s2 Hne Hf. apply Hne, Hu, says_insert. by rewrite bool_decide_eq_false_2.
  - intros (Hq & (s' & Hne & e & He & Hp) & Hu). split_and!; [done| | |done].
    + exists s'. apply says_insert. rewrite bool_decide_eq_false_2; [exists e|done].
      split; [done|]. destruct (has_failure (evidence_ttl m) now e) eqn:Ef; [|by rw Hp].
      exfalso. apply (Hu s' Hne). by exists e.
    + intros s2 Hf. apply says_insert in Hf. case_bool_decide as E; [done|]. by destruct (Hu s2 E).
Qed.

(** ** A concrete history *)

Definition demo_address : bytes := bs "/ip4/8.8.8.8/tcp/4001".
Definition demo_history : list reach_op :=
  [ROSetCandidates [demo_address; bs "/ip4/10.0.0.1/tcp/4001"] 0;
   ROAddServer (relay_named "a") SrcStatic; ROAddServer (relay_named "b") SrcIdentify;
   RORecord demo_address (relay_named "a") Reachable 10;
   RORecord demo_address (relay_named "b") Reachable 20].
Definition demo_manager : ReachabilityManager :=
  MkReachabilityManager ReachabilityConfig_default [] 0 0 ∅ ∅ VUnknown.

Example demo_verified :
  rh_state (reach_run demo_manager demo_history).1 = VVerifiedPublic [demo_address] 900010 ∧
  rh_rejected_candidates (reach_run demo_manager demo_history).1 = 1.
Proof. by vm_compute. Qed.

Lemma verified_addresses_supported_witness :
  demo_address ∈ verified_of (reach_run demo_manager demo_history).1 ∧
  is_probeable_address demo_address = true.
Proof.
  assert (demo_address ∈ verified_of (reach_run demo_manager demo_history).1) as Ha.
  { unfold verified_of. rw (proj1 demo_verified). by left. }
  split; [exact Ha|].
  exact (proj1 (verified_addresses_supported ReachabilityConfig_default demo_manager demo_history
    demo_address eq_refl Ha)).
Defined.

Lemma evidence_until_exact_witness :
  let m := (reach_run demo_manager demo_history).1 in
  ∃ a, a ∈ [demo_address] ∧
    a ∉ verified_of (ReachabilityManager_expire_evidence
          (ReachabilityManager_expire_evidence m 20).2 900010).2.
Proof.
  cbv zeta. refine (proj2 (evidence_until_exact (reach_run demo_manager demo_history).1 20
    [demo_address] 900010 900010 _ _ _) _); [|by vm_compute|done|done].
  apply (reach_run_inv ReachabilityConfig_default demo_manager demo_history eq_refl).
Defined.

Lemma contradiction_hysteresis_witness :
  let m := (reach_run demo_manager demo_history).1 in
  demo_address ∈ verified_of (ReachabilityManager_record_outcome m demo_address (relay_named "a") Unreachable 30).2.
Proof.
  cbv zeta. refine (proj2 (contradiction_hysteresis (reach_run demo_manager demo_history).1 demo_address
    (relay_named "a") 30 _ _ _ _ _ _) _).
  - apply (reach_run_inv ReachabilityConfig_default demo_manager demo_history eq_refl).
  - done.
  - done.
  - apply (list_elem_of_lookup_2 _ 0%nat). by vm_compute.
  - unfold verified_of. rw (proj1 demo_verified). by left.
  - by vm_compute.
  - split_and!; [by vm_compute| |].
    + exists (relay_named "b"). split; [by apply (bool_decide_eq_true_1 (_ ≠ _)); vm_compute|].
      exists (MkEvidence (Some 20) None). split; by vm_compute.
    + intros s' _ (e & He & Hf). revert He Hf.
      assert (∀ k v, rh_evidence (reach_run demo_manager demo_history).1 !! k = Some v → ev_failure_at_ms v = None) as Hall.
      { apply map_Forall_lookup. apply (bool_decide_eq_true_1 (map_Forall (λ _ v, ev_failure_at_ms v = None) _)). by vm_compute. }
      intros He. unfold has_failure, Evidence_fresh_failure. by rw (Hall _ _ He).
Defined.

Lemma punchable_destination_witness :
  is_relayed (bs "/ip4/10.0.0.1/tcp/4001") = false.
Proof.
  refine (proj1 (punchable_destination (bs "/ip4/10.0.0.1/tcp/4001") [bs "/ip4/192.168.1.2/tcp/1"] _)).
  by vm_compute.
Defined.
