(* ===== verification/Provider.v ===== *)
(** * What a discovery provider promises

    [crates/api/discovery-api/src/lib.rs], from [PeerHint] on: the trait every
    provider implements, as a class, and the normative rules its documentation
    states, as the laws a lawful instance proves. [pump_provider] is the loop of
    [crates/transport/composition/src/discovery.rs] that drains one provider into
    the coordinator; it is verified against the laws alone. *)
From S2P Require Import Prelude Ids Trust DiscoveryApi Discovery.
Local Open Scope N_scope.

Inductive PeerHint :=
| ObservedReachable (peer_id : TransportIdentity) (address : bytes) (observed_at : N)
| ObservedProtocol (peer_id : TransportIdentity) (protocol_id : ProtocolId) (supported : bool) (observed_at : N)
| CandidateHint (candidate : CandidatePeer).

Inductive HintDisposition :=
| HintAccepted
| HintUnsupported
| HintRejected (e : DiscoveryError).

Inductive ProviderError :=
| AlreadyStarted
| NotStarted
| ProviderFailed (reason : string).

(** The trait. A [&mut self] method returns the provider beside its answer. *)
Class DiscoveryProvider (P : Type) := {
  descriptor : P → ProviderDescriptor;
  start : P → N → result () ProviderError * P;
  drain_events : P → N → N → list DiscoveryEvent * P;
  add_hint : P → PeerHint → N → HintDisposition * P;
  health : P → ProviderHealth;
  shutdown : P → N → P
}.

(** ** The contract *)

(** Where a provider is in its life. *)
Record Life := MkLife { lf_started : bool; lf_stopped : bool }.
Definition alive (l : Life) : bool := lf_started l && negb (lf_stopped l).

(** An event the coordinator has no ground to refuse from the provider [name]. *)
Definition deliverable (name : bytes) (e : DiscoveryEvent) : Prop :=
  match e with
  | CandidateObserved c => cand_source c = name ∧ CandidatePeer_validate c = Ok ()
  | CandidateExpired _ source _ => source = name
  | HealthChanged source _ => source = name
  end.

(** [provider_ok] holds of the states a provider can be in; the rest are the
    rules of the trait's documentation. *)
Class ProviderContract (P : Type) `{!DiscoveryProvider P} := {
  provider_ok : P → Prop;
  provider_life : P → Life;
  provider_descriptor : ProviderDescriptor;
  descriptor_fixed p : descriptor p = provider_descriptor;
  descriptor_valid : ProviderDescriptor_validate provider_descriptor = Ok ();
  start_ok p now : provider_ok p → provider_ok (start p now).2;
  start_once p now : lf_started (provider_life p) = true → start p now = (Err AlreadyStarted, p);
  start_first p now : lf_started (provider_life p) = false →
    (start p now).1 = Ok () ∧
    provider_life (start p now).2 = MkLife true (lf_stopped (provider_life p));
  drain_ok p now max : provider_ok p → provider_ok (drain_events p now max).2;
  drain_life p now max : provider_life (drain_events p now max).2 = provider_life p;
  drain_bounded p now max : len (drain_events p now max).1 ≤ max;
  drain_deliverable p now max : provider_ok p →
    Forall (deliverable (pd_name provider_descriptor)) (drain_events p now max).1;
  drain_silent p now max : alive (provider_life p) = false → drain_events p now max = ([], p);
  hint_ok p h now : now ≤ u64_max → provider_ok p → provider_ok (add_hint p h now).2;
  hint_life p h now : provider_life (add_hint p h now).2 = provider_life p;
  hint_refused p h now : pd_supports_hints provider_descriptor = false →
    add_hint p h now = (HintUnsupported, p);
  health_silent p : alive (provider_life p) = false → health p = Unavailable;
  shutdown_ok p now : provider_ok p → provider_ok (shutdown p now);
  shutdown_life p now : provider_life (shutdown p now) = MkLife (lf_started (provider_life p)) true;
  shutdown_twice p now now' : shutdown (shutdown p now) now' = shutdown p now
}.
#[global] Hint Mode DiscoveryProvider ! : typeclass_instances.
#[global] Hint Mode ProviderContract ! - : typeclass_instances.

(** ** The consumer *)

Definition DRAIN_PER_ROUND : N := 256.

(** Hand a batch to the coordinator, keeping its answers. *)
Fixpoint feed_events (m : DiscoveryManager) (source : bytes) (now_ms : N) (trust : PeerTrustPolicy)
    (events : list DiscoveryEvent) : list (result () RejectedEvent) * DiscoveryManager :=
  match events with
  | [] => ([], m)
  | e :: events =>
      let '(answer, m) := DiscoveryManager_on_event m source e now_ms trust in
      let '(answers, m) := feed_events m source now_ms trust events in
      (answer :: answers, m)
  end.
(** One provider of the pump: what it reported, what the coordinator answered. *)
Definition pump_provider {P} `{!DiscoveryProvider P} (p : P) (m : DiscoveryManager) (now_ms : N)
    (trust : PeerTrustPolicy) :
    list DiscoveryEvent * list (result () RejectedEvent) * P * DiscoveryManager :=
  let source := pd_name (descriptor p) in
  let '(events, p) := drain_events p now_ms DRAIN_PER_ROUND in
  let '(answers, m) := feed_events m source now_ms trust events in
  (events, answers, p, m).

Lemma deliverable_accepted m name e now trust : is_Some (dm_providers m !! name) → deliverable name e →
  (DiscoveryManager_on_event m name e now trust).1 = Ok ().
Proof.
  intros [r Hr] He. unfold DiscoveryManager_on_event. rewrite -> bool_decide_false by by rewrite Hr.
  destruct e as [c|q s a|s h]; simpl in He.
  - destruct He as [-> Hv]. rewrite bool_decide_true // Hv //.
  - subst. by rewrite bool_decide_true.
  - subst. by rewrite bool_decide_true.
Qed.
Lemma on_event_providers m name e now trust :
  dom (dm_providers (DiscoveryManager_on_event m name e now trust).2) = dom (dm_providers m).
Proof.
  unfold DiscoveryManager_on_event. case_bool_decide; [done|]. destruct e as [c|q s a|s h].
  - destruct (negb _); [done|]. by destruct (negb _).
  - by destruct (negb _).
  - destruct (negb _); [done|]. simpl. unfold set_health. destruct (dm_providers m !! name) as [r|] eqn:E; [|done].
    simpl. apply leibniz_equiv. rewrite dom_insert. apply elem_of_dom_2 in E. set_solver.
Qed.
Lemma feed_providers m name now trust evs :
  dom (dm_providers (feed_events m name now trust evs).2) = dom (dm_providers m).
Proof.
  revert m. induction evs as [|e evs IH]; intros m; [done|]. simpl.
  pose proof (on_event_providers m name e now trust) as He.
  destruct (DiscoveryManager_on_event m name e now trust) as [a m1]. simpl in He.
  specialize (IH m1). destruct (feed_events m1 name now trust evs) as [as' m2]. simpl in *. congruence.
Qed.
Lemma feed_accepted m name now trust evs : is_Some (dm_providers m !! name) → Forall (deliverable name) evs →
  Forall (λ a, a = Ok ()) (feed_events m name now trust evs).1.
Proof.
  revert m. induction evs as [|e evs IH]; intros m Hm Hevs; [by constructor|].
  apply Forall_cons in Hevs as [He Hevs]. simpl.
  pose proof (deliverable_accepted m name e now trust Hm He) as Ha.
  pose proof (on_event_providers m name e now trust) as Hd.
  destruct (DiscoveryManager_on_event m name e now trust) as [a m1]. simpl in *.
  assert (is_Some (dm_providers m1 !! name)) as Hm1.
  { apply elem_of_dom. rewrite Hd. by apply elem_of_dom. }
  specialize (IH m1 Hm1 Hevs). destruct (feed_events m1 name now trust evs) as [as' m2]. simpl in *.
  by constructor.
Qed.

(** ** Clients of the interface *)

Section client.
Context {P : Type} `{!DiscoveryProvider P, !ProviderContract P}.

Lemma pump_provider_spec (p : P) m now trust events answers p' m' :
  provider_ok p → is_Some (dm_providers m !! pd_name (provider_descriptor (P:=P))) →
  pump_provider p m now trust = (events, answers, p', m') →
  provider_ok p' ∧ provider_life p' = provider_life p ∧ len events ≤ DRAIN_PER_ROUND ∧
  Forall (λ a, a = Ok ()) answers ∧ dom (dm_providers m') = dom (dm_providers m).
Proof.
  intros Hok Hm. unfold pump_provider. rewrite descriptor_fixed.
  pose proof (drain_ok p now DRAIN_PER_ROUND Hok) as H1.
  pose proof (drain_life p now DRAIN_PER_ROUND) as H2.
  pose proof (drain_bounded p now DRAIN_PER_ROUND) as H3.
  pose proof (drain_deliverable p now DRAIN_PER_ROUND Hok) as H4.
  destruct (drain_events p now DRAIN_PER_ROUND) as [evs p1]. cbn [fst snd] in *.
  pose proof (feed_accepted m _ now trust evs Hm H4) as H5.
  pose proof (feed_providers m (pd_name (provider_descriptor (P:=P))) now trust evs) as H6.
  destruct (feed_events m _ now trust evs) as [ans m1]. cbn [fst snd] in *. by intros [= <- <- <- <-].
Qed.
End client.
