(* ===== verification/ProviderQueue.v ===== *)
(** * The providers' event queues

    The static and the cache provider ([crates/discovery/static/src/lib.rs],
    [crates/discovery/cache/src/provider.rs]) keep their undelivered events the
    same way: each queued event remembers what its consumer had been told before
    it, and past the bound the oldest are dropped and undone. The mDNS provider
    ([crates/discovery/mdns/src/lib.rs]) drops the same ones. Here are that queue
    and, beside it, the specification of a consumer: what it holds after the
    events it has heard. *)
From S2P Require Import Prelude Ids DiscoveryApi.
Local Open Scope N_scope.

Definition PROVIDER_INTERFACE_VERSION : bytes := bs "1.0".

Record Queued (R : Type) := MkQueued { qd_event : DiscoveryEvent; qd_before : option R }.
Arguments MkQueued {R}.
Arguments qd_event {R}.
Arguments qd_before {R}.

(** [matches!(event, DiscoveryEvent::HealthChanged { .. })] *)
Definition is_health (e : DiscoveryEvent) : bool := match e with HealthChanged _ _ => true | _ => false end.
(** The peer an event is about. *)
Definition event_peer (e : DiscoveryEvent) : option TransportIdentity :=
  match e with
  | CandidateObserved c => Some (cand_peer_id c)
  | CandidateExpired p _ _ => Some p
  | HealthChanged _ _ => None
  end.

(** The first [excess] items that may go, and the others. *)
Fixpoint drop_excess {A} (event : A → DiscoveryEvent) (excess : N) (l : list A) : list A * list A :=
  match l with
  | [] => ([], [])
  | q :: l =>
      if (0 <? excess) && negb (is_health (event q))
      then let '(dropped, kept) := drop_excess event (excess - 1) l in (q :: dropped, kept)
      else let '(dropped, kept) := drop_excess event excess l in (dropped, q :: kept)
  end.

(** One dropped event, undone. *)
Definition undo_queued {R} (emitted : gmap TransportIdentity R) (q : Queued R) : gmap TransportIdentity R :=
  match event_peer (qd_event q) with
  | Some p => match qd_before q with
              | Some r => <[p := r]> emitted
              | None => delete p emitted
              end
  | None => emitted
  end.
Definition enforce_pending_bound {R} (max : N) (pending : list (Queued R)) (emitted : gmap TransportIdentity R) :
    list (Queued R) * gmap TransportIdentity R :=
  if len pending <=? max then (pending, emitted)
  else
    let '(dropped, kept) := drop_excess qd_event (len pending - max) pending in
    (kept, foldl undo_queued emitted (rev dropped)).

(** [self.pending.drain(..take)] *)
Definition drain_front {A} (max : N) (pending : list A) : list A * list A :=
  let take := N.min max (len pending) in (ntake take pending, ndrop take pending).

(** ** Facts about the queue *)

Lemma len_omap {A B} (f : A → option B) (l : list A) : len (omap f l) ≤ len l.
Proof.
  induction l as [|x l IH]; [done|]. cbn [omap list_omap]. destruct (f x); rewrite ?len_cons; lia.
Qed.
Lemma list_filter_none {A} (P : A → Prop) `{!∀ x, Decision (P x)} (l : list A) :
  (∀ x, x ∈ l → ¬ P x) → filter P l = [].
Proof.
  induction l as [|x l IH]; intros Hl; [done|]. rewrite filter_cons_False; [|apply Hl; by left].
  apply IH. intros y Hy. apply Hl. by right.
Qed.
Lemma filter_sublist_len {A} (P : A → Prop) `{!∀ x, Decision (P x)} (l k : list A) : l `sublist_of` k →
  len (filter P l) ≤ len (filter P k).
Proof.
  intros Hs. induction Hs as [|x l k Hs IH|x l k Hs IH]; [done|..].
  - destruct (decide (P x)); [rewrite !filter_cons_True // !len_cons; lia|by rewrite !filter_cons_False].
  - destruct (decide (P x)); [rewrite [filter P (x :: k)]filter_cons_True // len_cons; lia|by rewrite [filter P (x :: k)]filter_cons_False].
Qed.
Lemma Forall_sublist {A} (P : A → Prop) (l k : list A) : l `sublist_of` k → Forall P k → Forall P l.
Proof. rewrite !Forall_forall. intros Hs Hk x Hx. apply Hk. by eapply sublist_elem_of. Qed.

Lemma drop_excess_perm {A} (event : A → DiscoveryEvent) n l :
  (drop_excess event n l).1 ++ (drop_excess event n l).2 ≡ₚ l.
Proof.
  revert n. induction l as [|q l IH]; intros n; [done|]. simpl. destruct ((0 <? n) && negb (is_health (event q))).
  - specialize (IH (n - 1)). destruct (drop_excess event (n - 1) l). simpl in *. by rewrite IH.
  - specialize (IH n). destruct (drop_excess event n l). simpl in *. by rewrite -Permutation_middle IH.
Qed.
Lemma drop_excess_kept {A} (event : A → DiscoveryEvent) n l : (drop_excess event n l).2 `sublist_of` l.
Proof.
  revert n. induction l as [|q l IH]; intros n; [done|]. simpl. destruct ((0 <? n) && negb (is_health (event q))).
  - specialize (IH (n - 1)). destruct (drop_excess event (n - 1) l). simpl in *. by constructor.
  - specialize (IH n). destruct (drop_excess event n l). simpl in *. by constructor.
Qed.
(** As many go as there are candidates for it, up to the excess. *)
Lemma drop_excess_length {A} (event : A → DiscoveryEvent) n l :
  len (drop_excess event n l).1 = N.min n (len (filter (λ q, is_health (event q) = false) l)).
Proof.
  revert n. induction l as [|q l IH]; intros n; simpl; [by rewrite N.min_0_r|].
  destruct (is_health (event q)) eqn:E; simpl.
  - rewrite andb_false_r filter_cons_False; [|by rewrite E]. specialize (IH n).
    by destruct (drop_excess event n l).
  - rewrite andb_true_r filter_cons_True //. destruct (N.ltb_spec 0 n).
    + specialize (IH (n - 1)). destruct (drop_excess event (n - 1) l). simpl in *. rewrite !len_cons IH. lia.
    + specialize (IH n). destruct (drop_excess event n l). simpl in *. rewrite IH. lia.
Qed.
Lemma drop_excess_health {A} (event : A → DiscoveryEvent) n l :
  filter (λ q, is_health (event q) = true) (drop_excess event n l).2 = filter (λ q, is_health (event q) = true) l.
Proof.
  revert n. induction l as [|q l IH]; intros n; [done|]. simpl.
  destruct (is_health (event q)) eqn:E; [rewrite andb_false_r|rewrite andb_true_r; destruct (0 <? n)].
  - specialize (IH n). destruct (drop_excess event n l). simpl in *. by rewrite !filter_cons_True // IH.
  - specialize (IH (n - 1)). destruct (drop_excess event (n - 1) l). simpl in *.
    rewrite [filter _ (q :: l)]filter_cons_False //. by rewrite E.
  - specialize (IH n). destruct (drop_excess event n l). simpl in *. rewrite !filter_cons_False // E //.
Qed.
Lemma drop_excess_bounded {A} (event : A → DiscoveryEvent) max l :
  len (filter (λ q, is_health (event q) = true) l) ≤ max → max ≤ len l →
  len (drop_excess event (len l - max) l).2 ≤ max.
Proof.
  intros Hh Hm. pose proof (drop_excess_length event (len l - max) l) as H1.
  pose proof (len_filter_split (λ q, is_health (event q)) l) as H2.
  pose proof (f_equal N.of_nat (Permutation_length (drop_excess_perm event (len l - max) l))) as H3.
  fold (len l) in H3. rewrite length_app in H3. unfold len in *. lia.
Qed.
Lemma enforce_small {R} max pending (emitted : gmap TransportIdentity R) : len pending ≤ max →
  enforce_pending_bound max pending emitted = (pending, emitted).
Proof. intros H. unfold enforce_pending_bound. by apply N.leb_le in H as ->. Qed.
Lemma enforce_sublist {R} max pending (emitted : gmap TransportIdentity R) :
  (enforce_pending_bound max pending emitted).1 `sublist_of` pending.
Proof.
  unfold enforce_pending_bound. destruct (_ <=? _); [done|].
  pose proof (drop_excess_kept qd_event (len pending - max) pending) as Hs. by destruct (drop_excess _ _ _).
Qed.
Lemma enforce_bounded {R} max pending (emitted : gmap TransportIdentity R) :
  len (filter (λ q, is_health (qd_event q) = true) pending) ≤ max →
  len (enforce_pending_bound max pending emitted).1 ≤ max.
Proof.
  intros Hh. unfold enforce_pending_bound. destruct (N.leb_spec (len pending) max); [done|].
  pose proof (drop_excess_bounded qd_event max pending Hh ltac:(lia)) as Hb. by destruct (drop_excess _ _ _).
Qed.
Lemma drain_front_app {A} max (l : list A) : (drain_front max l).1 ++ (drain_front max l).2 = l.
Proof. apply ntake_ndrop. Qed.
Lemma drain_front_len {A} max (l : list A) : len (drain_front max l).1 ≤ max.
Proof. unfold drain_front. cbn [fst]. rewrite len_ntake; lia. Qed.

(** ** The consumer *)

(** What a consumer holds for one peer after an event about it: an observation
    adds, an expiry takes away what it names, or everything. *)
Definition hear1 (held : option (gset bytes)) (e : DiscoveryEvent) : option (gset bytes) :=
  match e with
  | CandidateObserved c =>
      let s := default ∅ held ∪ cand_addresses c in if bool_decide (s = ∅) then None else Some s
  | CandidateExpired _ _ addresses =>
      if bool_decide (addresses = ∅) then None
      else let s := default ∅ held ∖ addresses in if bool_decide (s = ∅) then None else Some s
  | HealthChanged _ _ => held
  end.
Definition hear (held : gmap TransportIdentity (gset bytes)) (e : DiscoveryEvent) :
    gmap TransportIdentity (gset bytes) :=
  match event_peer e with
  | Some p => partial_alter (λ h, hear1 h e) p held
  | None => held
  end.
(** The last health reported. *)
Definition hear_health (h : ProviderHealth) (e : DiscoveryEvent) : ProviderHealth :=
  match e with HealthChanged _ h => h | _ => h end.

Definition about (p : TransportIdentity) (e : DiscoveryEvent) : Prop := event_peer e = Some p.
#[global] Instance about_dec p e : Decision (about p e).
Proof. unfold about. apply _. Defined.

Lemma hear_lookup held e p : hear held e !! p = if decide (about p e) then hear1 (held !! p) e else held !! p.
Proof.
  unfold hear. case_decide as Ha; unfold about in Ha.
  - rewrite Ha. by rewrite lookup_partial_alter_eq.
  - destruct (event_peer e) as [q|]; [|done]. rewrite lookup_partial_alter_ne //. congruence.
Qed.
(** A fold that treats each peer apart is, for one peer, the fold over what is
    about it. *)
Lemma foldl_about {Q V} (event : Q → DiscoveryEvent)
    (f : gmap TransportIdentity V → Q → gmap TransportIdentity V) (f1 : option V → Q → option V) p l m :
  (∀ m q, f m q !! p = if decide (about p (event q)) then f1 (m !! p) q else m !! p) →
  foldl f m l !! p = foldl f1 (m !! p) (filter (λ q, about p (event q)) l).
Proof.
  intros Hf. revert m. induction l as [|q l IH]; intros m; [done|]. simpl. rewrite IH Hf.
  case_decide; [by rewrite filter_cons_True|by rewrite filter_cons_False].
Qed.
Lemma hears_lookup evs held p : foldl hear held evs !! p = foldl hear1 (held !! p) (filter (about p) evs).
Proof. apply (foldl_about id hear hear1). intros. apply hear_lookup. Qed.
(** What a walk over a map queues about one peer. *)
Lemma about_none {V Q} (event : Q → DiscoveryEvent) (f : TransportIdentity * V → option Q) p l :
  (∀ k v q, f (k, v) = Some q → event_peer (event q) = Some k) → p ∉ l.*1 →
  filter (λ q, about p (event q)) (omap f l) = [].
Proof.
  intros Hf. induction l as [|[k v] l IH]; intros Hp; [done|]. apply not_elem_of_cons in Hp as [Hk Hp].
  cbn -[filter]. destruct (f (k, v)) as [q|] eqn:E; [|by apply IH].
  rewrite filter_cons_False; [by apply IH|]. unfold about. rewrite (Hf _ _ _ E). simpl in Hk. congruence.
Qed.
Lemma about_omap {V Q} (event : Q → DiscoveryEvent) (f : TransportIdentity * V → option Q) p
    (m : gmap TransportIdentity V) :
  (∀ k v q, f (k, v) = Some q → event_peer (event q) = Some k) →
  filter (λ q, about p (event q)) (omap f (btree_to_list m)) =
    match m !! p with Some v => option_list (f (p, v)) | None => [] end.
Proof.
  intros Hf. destruct (m !! p) as [v|] eqn:E.
  - apply elem_of_btree_to_list in E. pose proof (NoDup_btree_keys m) as Hn. revert E Hn.
    induction (btree_to_list m) as [|[k w] l IH]; intros Hin Hn; [by apply elem_of_nil in Hin|].
    apply NoDup_cons in Hn as [Hk Hn]. cbn [omap list_omap]. apply elem_of_cons in Hin as [[= -> ->]|Hin].
    + clear IH. destruct (f (k, w)) as [q|] eqn:E.
      * rewrite filter_cons_True; [|by apply (Hf k w)]. apply (f_equal (cons q)). by apply about_none.
      * by apply about_none.
    + destruct (f (k, w)) as [q|] eqn:E; [|by apply IH]. rewrite filter_cons_False; [by apply IH|].
      unfold about. rewrite (Hf _ _ _ E). intros [= ->]. apply Hk. apply list_elem_of_fmap. by exists (p, v).
  - apply about_none; [done|]. intros ([k v] & -> & Hin)%list_elem_of_fmap.
    apply elem_of_btree_to_list in Hin. simpl in E. congruence.
Qed.
Lemma about_events {R} p (l : list (Queued R)) :
  filter (about p) (qd_event <$> l) = qd_event <$> filter (λ q, about p (qd_event q)) l.
Proof.
  induction l as [|q l IH]; [done|]. rewrite fmap_cons. destruct (decide (about p (qd_event q))).
  - by rewrite !filter_cons_True // fmap_cons IH.
  - by rewrite !filter_cons_False // IH.
Qed.

(** ** A consumer, as sets *)

Definition hear_set (s : gset bytes) (e : DiscoveryEvent) : gset bytes :=
  match e with
  | CandidateObserved c => s ∪ cand_addresses c
  | CandidateExpired _ _ a => if bool_decide (a = ∅) then ∅ else s ∖ a
  | HealthChanged _ _ => s
  end.
(** A set as what is held of it. *)
Definition held_as (s : gset bytes) : option (gset bytes) := if bool_decide (s = ∅) then None else Some s.
Lemma held_as_empty : held_as ∅ = None.
Proof. unfold held_as. by rewrite bool_decide_true. Qed.
Lemma default_held_as s : default ∅ (held_as s) = s.
Proof. unfold held_as. by case_bool_decide. Qed.
Lemma hear1_held s e : hear1 (held_as s) e = held_as (hear_set s e).
Proof.
  destruct e as [c|p src a|src h]; simpl; rewrite ?default_held_as //.
  case_bool_decide; [by rewrite held_as_empty|]. done.
Qed.
Lemma hears_held l s : foldl hear1 (held_as s) l = held_as (foldl hear_set s l).
Proof. revert s. induction l as [|e l IH]; intros s; [done|]. simpl. by rewrite hear1_held IH. Qed.

(** Hearing less of what is observed leaves less. *)
Definition is_observation (e : DiscoveryEvent) : bool := match e with CandidateObserved _ => true | _ => false end.
Lemma hear_set_mono s t e : s ⊆ t → hear_set s e ⊆ hear_set t e.
Proof. destruct e as [c|p src a|src h]; simpl; [set_solver| |done]. case_bool_decide; set_solver. Qed.
Lemma hear_fewer l s t : s ⊆ t →
  foldl hear_set s (filter (λ e, is_observation e = false) l) ⊆ foldl hear_set t l.
Proof.
  revert s t. induction l as [|e l IH]; intros s t Hst; [done|]. destruct (is_observation e) eqn:E.
  - rewrite filter_cons_False; [|by rewrite E]. simpl. apply IH. destruct e; simpl in *; [set_solver|done|done].
  - rewrite filter_cons_True //. simpl. apply IH. by apply hear_set_mono.
Qed.

(** What is held of a peer, nothing when it is not known. *)
Definition held (m : gmap TransportIdentity (gset bytes)) (p : TransportIdentity) : gset bytes := default ∅ (m !! p).
Lemma held_hear m e p : held (hear m e) p = if decide (about p e) then hear_set (held m p) e else held m p.
Proof.
  unfold held. rewrite hear_lookup. case_decide; [|done]. destruct e as [c|q src a|src h]; cbn; [|case_bool_decide; [done|]|done]; by case_bool_decide.
Qed.
Definition heard_ok (told : gmap TransportIdentity (gset bytes)) : Prop := ∀ q, told !! q = held_as (default ∅ (told !! q)).
Lemma hear_heard_ok told evs : heard_ok told → heard_ok (foldl hear told evs).
Proof. intros Ht q. rewrite hears_lookup Ht hears_held. by rewrite default_held_as. Qed.
Lemma heard_default told evs q : heard_ok told →
  default ∅ (foldl hear told evs !! q) = foldl hear_set (default ∅ (told !! q)) (filter (about q) evs).
Proof. intros Ht. rewrite hears_lookup (Ht q) hears_held. by rewrite !default_held_as. Qed.

Lemma size_list_to_set_le {A} `{Countable A} (l : list A) : N.of_nat (size (list_to_set l : gset A)) ≤ len l.
Proof.
  induction l as [|x l IH]; [done|]. rewrite len_cons. cbn [list_to_set].
  pose proof (size_union_alt ({[x]} : gset A) (list_to_set l)) as H1.
  pose proof (subseteq_size (list_to_set l ∖ {[x]} : gset A) (list_to_set l) ltac:(set_solver)) as H2.
  rewrite size_singleton in H1. lia.
Qed.

(** ** Valid candidates *)

(** What an address set may be in a candidate. *)
Definition address_ok (a : bytes) : Prop := 0 < len a ≤ MAX_ADDRESS_BYTES.
Definition addresses_ok (s : gset bytes) : Prop :=
  N.of_nat (size s) ≤ MAX_ADDRESSES ∧ ∀ a, a ∈ s → address_ok a.

Lemma check_addresses_ok l : (∀ a, a ∈ l → address_ok a) → check_addresses l = Ok ().
Proof.
  induction l as [|a l IH]; intros Hl; [done|]. simpl. destruct (Hl a ltac:(by left)) as [H1 H2].
  rewrite (proj2 (N.eqb_neq _ _)); [|lia]. rewrite (proj2 (N.ltb_ge _ _)) //. apply IH.
  intros b Hb. apply Hl. by right.
Qed.
Lemma candidate_valid c : addresses_ok (cand_addresses c) →
  N.of_nat (size (cand_protocol_observations c)) ≤ MAX_PROTOCOL_OBSERVATIONS →
  0 < len (cand_source c) ≤ MAX_PROVIDER_NAME_BYTES →
  (∀ t, cand_expires_at c = Some t → cand_observed_at c ≤ t) → CandidatePeer_validate c = Ok ().
Proof.
  intros [H1 H2] H3 [H4 H5] H6. unfold CandidatePeer_validate.
  rewrite (proj2 (N.ltb_ge _ _)) // check_addresses_ok /=; [|intros a; rewrite elem_of_bset; apply H2].
  rewrite (proj2 (N.ltb_ge _ _)) // (proj2 (N.eqb_neq _ _)); [|lia]. rewrite (proj2 (N.ltb_ge _ _)) //=.
  destruct (cand_expires_at c) as [t|]; [|done]. rewrite (proj2 (N.ltb_ge _ _)) //. by apply H6.
Qed.
