(* ===== verification/StaticProvider.v ===== *)
(** * Configured bootstrap entries

    [crates/discovery/static/src/lib.rs]: the provider that reports what an
    operator configured, as the difference between what its consumer was told and
    what is configured now; its contract, and what its consumer ends up holding. *)
From S2P Require Import Prelude Ids DiscoveryApi Provider ProviderQueue.
Local Open Scope N_scope.

Definition STATIC_SOURCE : bytes := bs "static-bootstrap".
Definition MAX_ENTRIES : N := 64.
Definition STATIC_MAX_PENDING_EVENTS : N := 2 * MAX_ENTRIES.

Record StaticEntry := MkStaticEntry { se_peer_id : TransportIdentity; se_address : bytes }.
Definition StaticEntry_new (peer_id : TransportIdentity) (address : bytes) :
    result StaticEntry DiscoveryError :=
  if (len address =? 0) || (MAX_ADDRESS_BYTES <? len address)
  then Err (DiscInvalidLength "address" (len address) MAX_ADDRESS_BYTES)
  else Ok (MkStaticEntry peer_id address).

Abbreviation Told := (gmap TransportIdentity (gset bytes)) (only parsing).
Record StaticBootstrapDiscovery := MkStaticBootstrapDiscovery {
  sb_entries : Told;
  sb_emitted : Told;
  sb_started : bool;
  sb_stopped : bool;
  sb_pending : list (Queued (gset bytes))
}.

(** [grouped.entry(entry.peer_id).or_default().insert(entry.address)] *)
Definition group_entry (grouped : Told) (e : StaticEntry) : Told :=
  <[se_peer_id e := {[se_address e]} ∪ default ∅ (grouped !! se_peer_id e)]> grouped.
Definition group_entries (entries : list StaticEntry) : result Told DiscoveryError :=
  if MAX_ENTRIES <? len entries then Err (TooManyItems "entries" (len entries) MAX_ENTRIES)
  else Ok (foldl group_entry ∅ entries).
Definition Static_new (entries : list StaticEntry) : result StaticBootstrapDiscovery DiscoveryError :=
  grouped <-? group_entries entries;
  Ok (MkStaticBootstrapDiscovery grouped ∅ false false []).
Definition Static_peer_count (p : StaticBootstrapDiscovery) : N := N.of_nat (size (sb_entries p)).

Definition observed (peer_id : TransportIdentity) (addresses : gset bytes) (now_ms : N) : DiscoveryEvent :=
  CandidateObserved (MkCandidatePeer peer_id addresses STATIC_SOURCE now_ms None ∅).

(** The retraction owed to a peer the consumer was told of, if one is. *)
Definition static_retraction (entries : Told) (pa : TransportIdentity * gset bytes) :
    option (Queued (gset bytes)) :=
  let '(peer_id, addresses) := pa in
  match entries !! peer_id with
  | None => Some (MkQueued (CandidateExpired peer_id STATIC_SOURCE ∅) (Some addresses))
  | Some kept =>
      let dropped := addresses ∖ kept in
      if bool_decide (dropped = ∅) then None
      else Some (MkQueued (CandidateExpired peer_id STATIC_SOURCE dropped) (Some addresses))
  end.
Definition static_observation (emitted : Told) (now_ms : N) (pa : TransportIdentity * gset bytes) :
    option (Queued (gset bytes)) :=
  let '(peer_id, addresses) := pa in
  if bool_decide (emitted !! peer_id = Some addresses) then None
  else Some (MkQueued (observed peer_id addresses now_ms) (emitted !! peer_id)).
(** Everything one refresh queues. *)
Definition static_difference (p : StaticBootstrapDiscovery) (now_ms : N) : list (Queued (gset bytes)) :=
  omap (static_retraction (sb_entries p)) (btree_to_list (sb_emitted p)) ++
  omap (static_observation (sb_emitted p) now_ms) (btree_to_list (sb_entries p)).
(** [emitted] advanced to match one queued event. *)
Definition static_advance (emitted : Told) (q : Queued (gset bytes)) : Told :=
  match qd_event q with
  | CandidateObserved c => <[cand_peer_id c := cand_addresses c]> emitted
  | CandidateExpired peer_id _ addresses =>
      if bool_decide (addresses = ∅) then delete peer_id emitted
      else match emitted !! peer_id with
           | Some held => <[peer_id := held ∖ addresses]> emitted
           | None => emitted
           end
  | HealthChanged _ _ => emitted
  end.
Definition Static_refresh (p : StaticBootstrapDiscovery) (now_ms : N) : StaticBootstrapDiscovery :=
  let queued := static_difference p now_ms in
  let emitted := foldl static_advance (sb_emitted p) queued in
  let '(pending, emitted) :=
    enforce_pending_bound STATIC_MAX_PENDING_EVENTS (sb_pending p ++ queued) emitted in
  MkStaticBootstrapDiscovery (sb_entries p) emitted (sb_started p) (sb_stopped p) pending.
Definition Static_set_entries (p : StaticBootstrapDiscovery) (entries : list StaticEntry) (now_ms : N) :
    result () DiscoveryError * StaticBootstrapDiscovery :=
  match Static_new entries with
  | Err e => (Err e, p)
  | Ok fresh =>
      let p := MkStaticBootstrapDiscovery (sb_entries fresh) (sb_emitted p) (sb_started p) (sb_stopped p)
                 (sb_pending p) in
      (Ok (), if sb_started p && negb (sb_stopped p) then Static_refresh p now_ms else p)
  end.

Definition Static_descriptor (p : StaticBootstrapDiscovery) : ProviderDescriptor :=
  MkProviderDescriptor STATIC_SOURCE PROVIDER_INTERFACE_VERSION None ScopeConfigured Passive false false.
Definition Static_start (p : StaticBootstrapDiscovery) (now_ms : N) :
    result () ProviderError * StaticBootstrapDiscovery :=
  if sb_started p then (Err AlreadyStarted, p)
  else
    let p := MkStaticBootstrapDiscovery (sb_entries p) (sb_emitted p) true (sb_stopped p)
               (sb_pending p ++ [MkQueued (HealthChanged STATIC_SOURCE Healthy) None]) in
    (Ok (), Static_refresh p now_ms).
Definition Static_drain_events (p : StaticBootstrapDiscovery) (now_ms max : N) :
    list DiscoveryEvent * StaticBootstrapDiscovery :=
  if negb (sb_started p) || sb_stopped p then ([], p)
  else
    let p := Static_refresh p now_ms in
    let '(out, pending) := drain_front max (sb_pending p) in
    (qd_event <$> out,
     MkStaticBootstrapDiscovery (sb_entries p) (sb_emitted p) (sb_started p) (sb_stopped p) pending).
Definition Static_add_hint (p : StaticBootstrapDiscovery) (hint : PeerHint) (now_ms : N) :
    HintDisposition * StaticBootstrapDiscovery := (HintUnsupported, p).
Definition Static_health (p : StaticBootstrapDiscovery) : ProviderHealth :=
  if negb (sb_started p) || sb_stopped p then Unavailable else Healthy.
Definition Static_shutdown (p : StaticBootstrapDiscovery) (now_ms : N) : StaticBootstrapDiscovery :=
  MkStaticBootstrapDiscovery (sb_entries p) ∅ (sb_started p) true [].

#[global] Instance Static_provider : DiscoveryProvider StaticBootstrapDiscovery := {
  descriptor := Static_descriptor;
  start := Static_start;
  drain_events := Static_drain_events;
  add_hint := Static_add_hint;
  health := Static_health;
  shutdown := Static_shutdown
}.

(** ** The contract *)

Definition entry_ok (e : StaticEntry) : Prop := address_ok (se_address e).

Lemma entry_new_ok p a e : StaticEntry_new p a = Ok e → entry_ok e.
Proof.
  unfold StaticEntry_new. destruct (_ || _) eqn:E; [done|]. intros [= <-].
  apply orb_false_iff in E as [H1 H2]. apply N.eqb_neq in H1. apply N.ltb_ge in H2.
  split; simpl; lia.
Qed.
Lemma group_size l q : N.of_nat (size (default ∅ (foldl group_entry ∅ l !! q))) ≤ len l.
Proof.
  induction l as [|e l IH] using rev_ind; [done|]. rewrite foldl_app len_app. simpl. unfold group_entry at 1.
  destruct (decide (q = se_peer_id e)) as [->|Hq].
  - rewrite lookup_insert_eq /=. pose proof (size_union_alt {[se_address e]} (default ∅ (foldl group_entry ∅ l !! se_peer_id e))) as H1.
    pose proof (subseteq_size (default ∅ (foldl group_entry ∅ l !! se_peer_id e) ∖ {[se_address e]})
                  (default ∅ (foldl group_entry ∅ l !! se_peer_id e)) ltac:(set_solver)) as H2.
    rewrite size_singleton in H1. change (len [e]) with 1. lia.
  - rewrite lookup_insert_ne; [|congruence]. lia.
Qed.
Definition told_ok (m : Told) : Prop := ∀ q s, m !! q = Some s → addresses_ok s ∧ s ≠ ∅.
Lemma group_ok entries m : group_entries entries = Ok m →
  N.of_nat (size m) ≤ MAX_ENTRIES ∧ (∀ q s, m !! q = Some s → s ≠ ∅) ∧ (Forall entry_ok entries → told_ok m).
Proof.
  unfold group_entries. destruct (N.ltb_spec MAX_ENTRIES (len entries)) as [|Hn]; [done|]. intros [= <-].
  assert (∀ q s, foldl group_entry ∅ entries !! q = Some s → s ≠ ∅) as Hne.
  { clear Hn. induction entries as [|e l IH] using rev_ind; [done|]. rewrite foldl_app. simpl. intros q s.
    unfold group_entry at 1. intros [[<- <-]|[_ Hs]]%lookup_insert_Some; [set_solver|by eapply IH]. }
  split_and!; [|done|].
  - etrans; [|exact Hn]. clear Hn Hne. induction entries as [|e l IH] using rev_ind; [done|].
    rewrite foldl_app len_app. simpl. unfold group_entry at 1. rewrite map_size_insert. change (len [e]) with 1. case_match; simpl in *; lia.
  - intros Hok q s Hs. split; [split|by eapply Hne].
    + pose proof (group_size entries q) as Hsz. rewrite Hs /= in Hsz.
      change MAX_ADDRESSES with MAX_ENTRIES. lia.
    + clear Hn Hne. revert q s Hs. induction entries as [|e l IH] using rev_ind; [done|]. rewrite foldl_app. simpl.
      apply Forall_app in Hok as [Hl [He _]%Forall_cons]. intros q s.
      unfold group_entry at 1. intros [[<- <-]|[_ Hs]]%lookup_insert_Some a Ha; [|by eapply IH].
      apply elem_of_union in Ha as [->%elem_of_singleton|Ha]; [done|].
      destruct (foldl group_entry ∅ l !! se_peer_id e) as [t|] eqn:Et; [|set_solver]. by eapply (IH Hl).
Qed.

Lemma retraction_peer entries k s q : static_retraction entries (k, s) = Some q → event_peer (qd_event q) = Some k.
Proof. unfold static_retraction. repeat case_match; by intros; simplify_eq. Qed.
Lemma observation_peer emitted now k s q : static_observation emitted now (k, s) = Some q →
  event_peer (qd_event q) = Some k.
Proof. unfold static_observation. repeat case_match; by intros; simplify_eq. Qed.
Lemma difference_about p now q : filter (λ e, about q (qd_event e)) (static_difference p now) =
  match sb_emitted p !! q with Some s => option_list (static_retraction (sb_entries p) (q, s)) | None => [] end ++
  match sb_entries p !! q with Some s => option_list (static_observation (sb_emitted p) now (q, s)) | None => [] end.
Proof.
  unfold static_difference. rewrite filter_app. f_equal; apply (about_omap qd_event).
  - apply retraction_peer.
  - apply observation_peer.
Qed.
Lemma difference_deliverable p now : told_ok (sb_entries p) →
  Forall (λ q, deliverable STATIC_SOURCE (qd_event q) ∧ is_health (qd_event q) = false) (static_difference p now).
Proof.
  intros Hok. apply Forall_app; split; apply Forall_forall; intros q ([k s] & Hin & E)%list_elem_of_omap.
  - unfold static_retraction in E. repeat case_match; by simplify_eq.
  - apply elem_of_btree_to_list in Hin. unfold static_observation in E. case_match; simplify_eq. simpl.
    split_and!; try done. apply candidate_valid; simpl; try done. by apply (Hok k).
Qed.
Lemma refresh_life p now : sb_entries (Static_refresh p now) = sb_entries p ∧
  sb_started (Static_refresh p now) = sb_started p ∧ sb_stopped (Static_refresh p now) = sb_stopped p.
Proof. unfold Static_refresh. by destruct (enforce_pending_bound _ _ _). Qed.

(** The pending events are deliverable, the health report is there once at
    most, and before the start nothing is. *)
Definition static_ok (p : StaticBootstrapDiscovery) : Prop :=
  told_ok (sb_entries p) ∧
  Forall (λ q, deliverable STATIC_SOURCE (qd_event q)) (sb_pending p) ∧
  len (filter (λ q, is_health (qd_event q) = true) (sb_pending p)) ≤ 1 ∧
  (sb_started p = false → sb_pending p = []) ∧
  len (sb_pending p) ≤ STATIC_MAX_PENDING_EVENTS.

Lemma refresh_ok p now : told_ok (sb_entries p) →
  Forall (λ q, deliverable STATIC_SOURCE (qd_event q)) (sb_pending p) →
  len (filter (λ q, is_health (qd_event q) = true) (sb_pending p)) ≤ 1 → sb_started p = true →
  static_ok (Static_refresh p now).
Proof.
  intros Hok Hp Hh Hs. pose proof (difference_deliverable p now Hok) as Hd.
  set (l := sb_pending p ++ static_difference p now).
  assert (len (filter (λ q, is_health (qd_event q) = true) l) ≤ 1) as Hl.
  { subst l. rewrite filter_app len_app. rewrite [filter _ (static_difference p now)]list_filter_none; [rewrite len_nil; lia|].
    intros q Hq. rewrite -> Forall_forall in Hd. by destruct (Hd q Hq) as [_ ->]. }
  unfold static_ok, Static_refresh. fold l.
  pose proof (enforce_sublist STATIC_MAX_PENDING_EVENTS l (foldl static_advance (sb_emitted p) (static_difference p now))) as Hsub.
  pose proof (enforce_bounded STATIC_MAX_PENDING_EVENTS l (foldl static_advance (sb_emitted p) (static_difference p now))) as Hb.
  destruct (enforce_pending_bound _ _ _) as [pending emitted]. cbn [sb_entries sb_pending sb_started fst] in *.
  split_and!; [done| | |by rewrite Hs|].
  - eapply Forall_sublist; [exact Hsub|]. apply Forall_app. split; [done|]. eapply Forall_impl; [exact Hd|]. by intros ? [??].
  - etrans; [by apply filter_sublist_len|done].
  - apply Hb. etrans; [exact Hl|]. done.
Qed.
Lemma drained_ok p pending : static_ok p → (∃ out, sb_pending p = out ++ pending) →
  static_ok (MkStaticBootstrapDiscovery (sb_entries p) (sb_emitted p) (sb_started p) (sb_stopped p) pending).
Proof.
  intros (H1 & H2 & H3 & H4 & H5) [out Ho]. assert (pending `sublist_of` sb_pending p) as Hs.
  { rewrite Ho. by apply sublist_inserts_l. }
  unfold static_ok. simpl. split_and!; [done|by eapply Forall_sublist| |..].
  - etrans; [by apply filter_sublist_len|done].
  - intros Hst. specialize (H4 Hst). rewrite Ho in H4. by apply app_eq_nil in H4 as [_ ->].
  - rewrite Ho len_app in H5. lia.
Qed.
#[global] Program Instance Static_contract : ProviderContract StaticBootstrapDiscovery := {
  provider_ok := static_ok;
  provider_life p := MkLife (sb_started p) (sb_stopped p);
  provider_descriptor := Static_descriptor (MkStaticBootstrapDiscovery ∅ ∅ false false [])
}.
Next Obligation. done. Qed.
Next Obligation. by vm_compute. Qed.
Next Obligation.
  intros p now Hok. unfold start, Static_provider, Static_start. destruct (sb_started p) eqn:Es; [done|].
  destruct Hok as (H1 & H2 & H3 & H4 & H5). simpl. apply refresh_ok; simpl; try done.
  - rewrite H4 //. by repeat constructor.
  - by rewrite H4.
Qed.
Next Obligation. intros p now Hs. simpl in Hs. unfold start, Static_provider, Static_start. by rewrite Hs. Qed.
Next Obligation.
  intros p now Hs. simpl in Hs. unfold start, Static_provider, Static_start. rewrite Hs. simpl. split; [done|].
  by rewrite !(proj1 (proj2 (refresh_life _ _))) !(proj2 (proj2 (refresh_life _ _))).
Qed.
Next Obligation.
  intros p now max Hok. unfold drain_events, Static_provider, Static_drain_events.
  destruct (sb_started p) eqn:Es; [|done]. destruct (sb_stopped p) eqn:Ep; [done|]. simpl.
  destruct Hok as (H1 & H2 & H3 & H4 & H5). pose proof (refresh_ok p now H1 H2 H3 Es) as Hr.
  apply (drained_ok _ (ndrop (N.min max (len (sb_pending (Static_refresh p now)))) (sb_pending (Static_refresh p now)))); [done|].
  eexists. symmetry. apply ntake_ndrop.
Qed.
Next Obligation.
  intros p now max. unfold drain_events, Static_provider, Static_drain_events.
  destruct (negb _ || _); [done|]. simpl. by destruct (refresh_life p now) as (_ & -> & ->).
Qed.
Next Obligation.
  intros p now max. unfold drain_events, Static_provider, Static_drain_events.
  destruct (negb _ || _); [simpl; rewrite len_nil; lia|]. simpl. unfold len. rewrite length_fmap. apply drain_front_len.
Qed.
Next Obligation.
  intros p now max Hok. unfold drain_events, Static_provider, Static_drain_events.
  destruct (sb_started p) eqn:Es; [|by constructor]. destruct (sb_stopped p) eqn:Ep; [by constructor|]. simpl.
  destruct Hok as (H1 & H2 & H3 & H4 & H5). destruct (refresh_ok p now H1 H2 H3 Es) as (_ & Hd & _).
  apply Forall_fmap. eapply Forall_sublist; [|exact Hd]. apply sublist_take.
Qed.
Next Obligation.
  intros p now max Ha. unfold drain_events, Static_provider, Static_drain_events, alive in *. simpl in Ha.
  by destruct (sb_started p), (sb_stopped p).
Qed.
Next Obligation. done. Qed.
Next Obligation. done. Qed.
Next Obligation. done. Qed.
Next Obligation.
  intros p Ha. unfold health, Static_provider, Static_health, alive in *. simpl in Ha.
  by destruct (sb_started p), (sb_stopped p).
Qed.
Next Obligation. intros p now (H1 & H2 & H3 & H4 & H5). unfold shutdown. simpl. by split_and!. Qed.
Next Obligation. done. Qed.
Next Obligation. done. Qed.

(** ** What the consumer holds *)

Definition advance1 (told : option (gset bytes)) (q : Queued (gset bytes)) : option (gset bytes) :=
  match qd_event q with
  | CandidateObserved c => Some (cand_addresses c)
  | CandidateExpired _ _ addresses => if bool_decide (addresses = ∅) then None else (λ s, s ∖ addresses) <$> told
  | HealthChanged _ _ => told
  end.
Lemma advance_lookup m q p :
  static_advance m q !! p = if decide (about p (qd_event q)) then advance1 (m !! p) q else m !! p.
Proof.
  unfold static_advance, advance1. case_decide as Ha; unfold about in Ha; destruct (qd_event q) as [c|k s a|s h]; simpl in Ha; try done.
  - injection Ha as <-. by rewrite lookup_insert_eq.
  - injection Ha as <-. case_bool_decide; [by rewrite lookup_delete_eq|].
    destruct (m !! k) as [held|] eqn:E; [by rewrite lookup_insert_eq|by rewrite E].
  - rewrite lookup_insert_ne //. congruence.
  - case_bool_decide; [rewrite lookup_delete_ne //; congruence|].
    destruct (m !! k) as [held|] eqn:E; [rewrite lookup_insert_ne //; congruence|done].
Qed.
(** The difference takes the record, and the consumer, to the configuration. *)
Lemma difference_settles p now :
  foldl static_advance (sb_emitted p) (static_difference p now) = sb_entries p.
Proof.
  apply map_eq. intros q. rewrite (foldl_about qd_event _ advance1); [|intros; apply advance_lookup].
  rewrite difference_about. unfold static_retraction, static_observation.
  destruct (sb_emitted p !! q) as [a|] eqn:Ea, (sb_entries p !! q) as [k|] eqn:Ek; try done.
  destruct (decide (a = k)) as [->|Hne].
  - rewrite !bool_decide_true //. set_solver.
  - rewrite (bool_decide_false (Some a = Some k)); [|congruence]. rewrite foldl_app. by case_bool_decide.
Qed.
Lemma heard_within (s k : gset bytes) : k ≠ ∅ → s ⊆ k →
  (if bool_decide (s ∪ k = ∅) then None else Some (s ∪ k)) = Some k.
Proof. intros Hk Hs. replace (s ∪ k) with k by set_solver. by rewrite bool_decide_false. Qed.
Lemma difference_heard p now : (∀ q s, sb_entries p !! q = Some s → s ≠ ∅) →
  foldl hear (sb_emitted p) (qd_event <$> static_difference p now) = sb_entries p.
Proof.
  intros Hk. apply map_eq. intros q. rewrite hears_lookup about_events difference_about.
  unfold static_retraction, static_observation.
  destruct (sb_emitted p !! q) as [a|] eqn:Ea, (sb_entries p !! q) as [k|] eqn:Ek; try done; cbn.
  - pose proof (Hk q k Ek) as Hke. destruct (decide (a = k)) as [->|Hne].
    + rewrite !bool_decide_true //. set_solver.
    + rewrite (bool_decide_false (Some a = Some k)); [|congruence]. case_bool_decide as Hd; cbn -[difference].
      * apply heard_within; [done|]. set_solver.
      * apply heard_within; [done|]. intros x. repeat case_bool_decide; cbn -[difference];
          rewrite ?elem_of_empty ?elem_of_difference //. destruct (decide (x ∈ k)); naive_solver.
  - apply (heard_within ∅); [by eapply Hk|set_solver].
Qed.
Lemma difference_len p now : len (static_difference p now) ≤
  N.of_nat (size (sb_emitted p)) + N.of_nat (size (sb_entries p)).
Proof.
  unfold static_difference. rewrite len_app. rewrite -!length_btree_to_list.
  pose proof (len_omap (static_retraction (sb_entries p)) (btree_to_list (sb_emitted p))).
  pose proof (len_omap (static_observation (sb_emitted p) now) (btree_to_list (sb_entries p))).
  unfold len in *. lia.
Qed.
Lemma omap_none {A B} (f : A → option B) (l : list A) : (∀ x, x ∈ l → f x = None) → omap f l = [].
Proof.
  induction l as [|x l IH]; intros Hl; [done|]. cbn [omap list_omap]. rewrite Hl; [|by left].
  apply IH. intros y Hy. apply Hl. by right.
Qed.
Lemma difference_nil p now : sb_emitted p = sb_entries p → static_difference p now = [].
Proof.
  intros E. unfold static_difference. rewrite !omap_none //; intros [q s] Hin%elem_of_btree_to_list;
    rewrite E in Hin *.
  - simpl. by rewrite bool_decide_true.
  - simpl. rewrite Hin bool_decide_true //. set_solver.
Qed.
Lemma refresh_room p now : len (sb_pending p ++ static_difference p now) ≤ STATIC_MAX_PENDING_EVENTS →
  Static_refresh p now = MkStaticBootstrapDiscovery (sb_entries p) (sb_entries p) (sb_started p) (sb_stopped p)
                           (sb_pending p ++ static_difference p now).
Proof. intros Hl. unfold Static_refresh. by rewrite enforce_small // difference_settles. Qed.

Inductive static_op :=
| StaticStart (now : N)
| StaticReload (entries : list StaticEntry) (now : N)
| StaticDrain (now max : N)
| StaticShutdown (now : N).
(** One call, with what the consumer makes of the events it returns. *)
Definition static_step (w : StaticBootstrapDiscovery * Told) (op : static_op) : StaticBootstrapDiscovery * Told :=
  let '(p, told) := w in
  match op with
  | StaticStart now => ((Static_start p now).2, told)
  | StaticReload entries now => ((Static_set_entries p entries now).2, told)
  | StaticDrain now max => let '(events, p) := Static_drain_events p now max in (p, foldl hear told events)
  | StaticShutdown now => (Static_shutdown p now, told)
  end.
(** Every reload of a running provider finds nothing left to deliver. *)
Fixpoint prompt_reloads (w : StaticBootstrapDiscovery * Told) (ops : list static_op) : bool :=
  match ops with
  | [] => true
  | op :: ops =>
      match op with
      | StaticReload _ _ =>
          negb (sb_started w.1 && negb (sb_stopped w.1)) || bool_decide (length (sb_pending w.1) = 0%nat)
      | _ => true
      end && prompt_reloads (static_step w op) ops
  end.

Definition static_view_inv (w : StaticBootstrapDiscovery * Told) : Prop :=
  let '(p, told) := w in
  N.of_nat (size (sb_entries p)) ≤ MAX_ENTRIES ∧ (∀ q s, sb_entries p !! q = Some s → s ≠ ∅) ∧
  (sb_started p = false → sb_pending p = [] ∧ sb_emitted p = ∅ ∧ told = ∅) ∧
  (sb_started p = true → sb_stopped p = false →
     len (sb_pending p) ≤ STATIC_MAX_PENDING_EVENTS ∧ sb_emitted p = sb_entries p ∧
     foldl hear told (qd_event <$> sb_pending p) = sb_entries p).

Lemma drain_view p told now max events p' : static_view_inv (p, told) → sb_started p = true → sb_stopped p = false →
  Static_drain_events p now max = (events, p') →
  ∃ out, sb_pending p = out ++ sb_pending p' ∧ events = qd_event <$> out ∧
    len out = N.min max (len (sb_pending p)) ∧
    p' = MkStaticBootstrapDiscovery (sb_entries p) (sb_entries p) true false (sb_pending p').
Proof.
  intros (_ & _ & _ & Hi) Hs Hp. destruct (Hi Hs Hp) as (Hl & He & _).
  unfold Static_drain_events. rewrite Hs Hp. cbn [negb orb].
  rewrite -> refresh_room by by rewrite difference_nil // app_nil_r. rewrite difference_nil // app_nil_r Hs Hp.
  cbn. intros [= <- <-]. eexists. cbn. split; [symmetry; apply ntake_ndrop|]. split_and!; try done. rewrite len_ntake; lia.
Qed.
Lemma static_step_view w op : static_view_inv w → prompt_reloads w [op] = true → static_view_inv (static_step w op).
Proof.
  destruct w as [p told]. intros Hw Hpr. pose proof Hw as (Hsz & Hne & H0 & H1). destruct op as [now|entries now|now max|now]; cbn [static_step].
  - unfold Static_start. destruct (sb_started p) eqn:Es; [done|]. destruct (H0 eq_refl) as (Hp & He & ->). cbn [snd].
    rewrite Hp /=. set (p1 := MkStaticBootstrapDiscovery _ _ _ _ _).
    assert (len (sb_pending p1 ++ static_difference p1 now) ≤ STATIC_MAX_PENDING_EVENTS) as Hl.
    { rewrite len_app. pose proof (difference_len p1 now) as Hd. cbn in Hd |- *. rewrite He map_size_empty in Hd.
      change (len [_]) with 1. unfold STATIC_MAX_PENDING_EVENTS, MAX_ENTRIES in *. lia. }
    rewrite (refresh_room _ _ Hl). split_and!; cbn; try done. intros _ Hst. split_and!; [done|done|].
    pose proof (difference_heard p1 now Hne) as Hh. cbn in Hh. by rewrite He in Hh.
  - unfold Static_set_entries, Static_new. destruct (group_entries entries) as [m|e] eqn:Eg; [|done]. cbn.
    destruct (group_ok _ _ Eg) as (Hm & Hmne & _). destruct (sb_started p) eqn:Es; cbn; [|by split_and!].
    destruct (sb_stopped p) eqn:Ep; cbn; [by split_and!|]. destruct (H1 eq_refl eq_refl) as (Hl & He & Hh).
    cbn in Hpr. rewrite Es Ep andb_true_r /= in Hpr. apply bool_decide_eq_true in Hpr. apply nil_length_inv in Hpr.
    rewrite Hpr. set (p1 := MkStaticBootstrapDiscovery _ _ _ _ _).
    assert (len (sb_pending p1 ++ static_difference p1 now) ≤ STATIC_MAX_PENDING_EVENTS) as Hl1.
    { cbn. pose proof (difference_len p1 now) as Hd. cbn in Hd |- *. rewrite He in Hd.
      unfold STATIC_MAX_PENDING_EVENTS, MAX_ENTRIES in *. lia. }
    rewrite (refresh_room _ _ Hl1). split_and!; cbn; try done. intros _ _. split_and!; [done|done|].
    rewrite Hpr in Hh. cbn in Hh. subst told. pose proof (difference_heard p1 now Hmne) as Hd. cbn in Hd. by rewrite He in Hd.
  - destruct (Static_drain_events p now max) as [events p'] eqn:Ed.
    destruct (sb_started p) eqn:Es; [destruct (sb_stopped p) eqn:Ep|].
    + unfold Static_drain_events in Ed. rewrite Es Ep /= in Ed. by injection Ed as <- <-.
    + destruct (drain_view _ _ _ _ _ _ Hw Es Ep Ed) as (out & Ho & -> & _ & ->).
      destruct (H1 eq_refl eq_refl) as (Hl & _ & Hh). rewrite Ho in Hl Hh. rewrite fmap_app foldl_app in Hh. rewrite len_app in Hl.
      split_and!; cbn; try done. intros _ _. split_and!; [lia|done|done].
    + unfold Static_drain_events in Ed. rewrite Es /= in Ed. by injection Ed as <- <-.
  - split_and!; cbn; try done. intros Hs. by destruct (H0 Hs) as (_ & _ & ->).
Qed.
Lemma static_run_view ops w : static_view_inv w → prompt_reloads w ops = true →
  static_view_inv (foldl static_step w ops).
Proof.
  revert w. induction ops as [|op ops IH]; intros w Hw Hp; [done|]. cbn in *. apply andb_true_iff in Hp as [Ho Hp].
  apply IH; [|done]. apply static_step_view; [done|]. cbn. by rewrite Ho.
Qed.
Lemma static_new_view entries p : Static_new entries = Ok p → static_view_inv (p, ∅).
Proof.
  unfold Static_new. intros (m & Hm & [= <-])%result_bind_Ok.
  destruct (group_ok _ _ Hm) as (H1 & H2 & _). by split_and!.
Qed.

(** C21: a consumer that leaves nothing undelivered when the configuration is
    reloaded holds, after any drain of a running provider with room for the
    queue, exactly the configured addresses of exactly the configured peers:
    whatever the history of reloads and partial drains, no retraction is missing
    and nothing configured is. *)
Theorem static_view_exact (entries : list StaticEntry) (p0 p p' : StaticBootstrapDiscovery) (ops : list static_op)
    (told : gmap TransportIdentity (gset bytes)) (now max : N) (events : list DiscoveryEvent) :
  Static_new entries = Ok p0 → prompt_reloads (p0, ∅) ops = true → foldl static_step (p0, ∅) ops = (p, told) →
  sb_started p = true → sb_stopped p = false → STATIC_MAX_PENDING_EVENTS ≤ max →
  Static_drain_events p now max = (events, p') → foldl hear told events = sb_entries p.
Proof.
  intros Hn Hp Hr Hs Hst Hm Hd. pose proof (static_run_view ops _ (static_new_view _ _ Hn) Hp) as Hi. rewrite Hr in Hi.
  destruct (drain_view _ _ _ _ _ _ Hi Hs Hst Hd) as (out & Ho & -> & Hl & _).
  destruct Hi as (_ & _ & _ & Hi). destruct (Hi Hs Hst) as (Hb & _ & Hh). rewrite Ho in Hh Hl Hb. rewrite len_app in Hl Hb.
  assert (sb_pending p' = []) as E by (apply len_zero; lia). by rewrite E app_nil_r in Hh.
Qed.

(** ** Concrete histories *)

Definition static_peer (n : N) : TransportIdentity := MkTransportIdentity [byte_of n].
Definition static_first : list StaticEntry :=
  [MkStaticEntry (static_peer 1) (bs "/ip4/10.0.0.1"); MkStaticEntry (static_peer 2) (bs "/ip4/10.0.0.2")].
Definition static_second : list StaticEntry :=
  [MkStaticEntry (static_peer 2) (bs "/ip4/10.0.0.3"); MkStaticEntry (static_peer 3) (bs "/ip4/10.0.0.4")].
Definition static_p0 : StaticBootstrapDiscovery :=
  match Static_new static_first with Ok p => p | Err _ => MkStaticBootstrapDiscovery ∅ ∅ false false [] end.
Definition static_history : list static_op :=
  [StaticStart 1; StaticDrain 2 1; StaticDrain 3 200; StaticReload static_second 4; StaticDrain 5 2].
Definition static_end : StaticBootstrapDiscovery * Told := foldl static_step (static_p0, ∅) static_history.
Lemma static_view_exact_witness :
  foldl hear static_end.2 (Static_drain_events static_end.1 6 200).1 = sb_entries static_end.1 ∧
  bool_decide (foldl hear static_end.2 (Static_drain_events static_end.1 6 200).1 !! static_peer 3 =
               Some {[bs "/ip4/10.0.0.4"]}) = true.
Proof.
  split; [|by vm_compute].
  apply (static_view_exact static_first static_p0 static_end.1 (Static_drain_events static_end.1 6 200).2 static_history
           static_end.2 6 200); try by vm_compute.
Defined.

(** One entry for each of the peers [1..n], all at one address. *)
Definition static_many (n : nat) (address : bytes) : list StaticEntry :=
  (λ i, MkStaticEntry (static_peer (N.of_nat i)) address) <$> seq 1 n.
Definition static_p64 : StaticBootstrapDiscovery :=
  match Static_new (static_many 64 (bs "/ip4/10.0.0.1")) with Ok p => p | Err _ => static_p0 end.
(** Start, two reloads the consumer does not drain between, and a drain of
    everything. *)
Definition lost_retraction_history : list static_op :=
  [StaticStart 1; StaticReload (static_many 64 (bs "/ip4/10.0.0.2")) 2; StaticReload [] 3; StaticDrain 4 1000].
Definition lost_retraction_end : StaticBootstrapDiscovery * Told :=
  foldl static_step (static_p64, ∅) lost_retraction_history.
Lemma settled_drain p now max : sb_emitted p = sb_entries p → sb_pending p = [] →
  Static_drain_events p now max = ([], p).
Proof.
  intros He Hp. unfold Static_drain_events. destruct (negb _ || _); [done|].
  rewrite -> refresh_room by by rewrite difference_nil // Hp. rewrite difference_nil // Hp /=.
  unfold drain_front. rewrite len_nil N.min_0_r. destruct p; simpl in *. by subst.
Qed.

(** C39: rolling back what the queue's bound dropped does not make every dropped
    event recoverable: a peer whose first observation is dropped while a later
    one stays queued is forgotten by the record, so a reload that removes it
    queues no retraction. After one such history nothing is configured, nothing
    is left to deliver and no drain will ever report anything again, yet the
    consumer holds the sixty-four peers it was told of. *)
Theorem static_lost_retraction :
  let '(p, told) := lost_retraction_end in
  sb_entries p = ∅ ∧ sb_started p = true ∧ sb_stopped p = false ∧ size told = 64%nat ∧
  (∀ now max, Static_drain_events p now max = ([], p)).
Proof.
  destruct lost_retraction_end as [p told] eqn:E.
  assert (p = lost_retraction_end.1) as Hp by by rewrite E. assert (told = lost_retraction_end.2) as Ht by by rewrite E.
  assert (sb_entries p = ∅) as He by (rewrite Hp; by vm_compute).
  split_and!; [done|rewrite Hp; by vm_compute|rewrite Hp; by vm_compute|rewrite Ht; by vm_compute|].
  intros now max. apply settled_drain; [rewrite He|]; rewrite Hp; by vm_compute.
Qed.
