(* ===== verification/PeerCache.v ===== *)
(** * The bounded peer cache

    [crates/discovery/cache/src/limits.rs], [record.rs] and [cache.rs]: what this
    node reached, kept for a week and written to one file. The file system and
    [serde_json] enter as the answers they gave: a call that does I/O takes the
    outcome of each step it makes. The text of an error is not modelled, only
    which error it was. *)
From S2P Require Import Prelude Ids Payload DiscoveryApi ProviderQueue.
Local Open Scope N_scope.

(** ** Limits *)

Definition DEFAULT_TTL_MS : N := 7 * 24 * 60 * 60 * 1000.
Definition CACHE_MAX_PEERS : N := 1024.
Definition CACHE_MAX_ADDRESSES_PER_PEER : N := 8.
Definition MAX_CAPABILITIES_PER_PEER : N := 16.
Definition CACHE_MAX_ADDRESS_BYTES : N := 256.
Definition MAX_LABEL_BYTES : N := 128.
Definition MAX_CACHE_FILE_BYTES : N :=
  let STRUCTURE_PER_ITEM := 128 in
  let STRUCTURE_PER_CAPABILITY := 256 in
  let PEER_ID_BYTES := 64 in
  let TIMESTAMP_BYTES := 24 in
  let ESCAPE_FACTOR := 2 in
  let per_address := ESCAPE_FACTOR * CACHE_MAX_ADDRESS_BYTES + TIMESTAMP_BYTES + STRUCTURE_PER_ITEM in
  let per_capability := ESCAPE_FACTOR * 3 * MAX_LABEL_BYTES + 2 * TIMESTAMP_BYTES + STRUCTURE_PER_CAPABILITY in
  let per_peer := PEER_ID_BYTES + 3 * TIMESTAMP_BYTES + CACHE_MAX_ADDRESSES_PER_PEER * per_address +
                  MAX_CAPABILITIES_PER_PEER * per_capability + STRUCTURE_PER_ITEM in
  CACHE_MAX_PEERS * per_peer + 4096.
Definition WRITE_DEBOUNCE_MS : N := 5000.

Record CacheLimits := MkCacheLimits {
  cl_ttl_ms : N;
  cl_max_peers : N;
  cl_max_addresses_per_peer : N;
  cl_max_capabilities_per_peer : N;
  cl_write_debounce_ms : N
}.
Definition CacheLimits_default : CacheLimits :=
  MkCacheLimits DEFAULT_TTL_MS CACHE_MAX_PEERS CACHE_MAX_ADDRESSES_PER_PEER MAX_CAPABILITIES_PER_PEER
    WRITE_DEBOUNCE_MS.
Inductive InvalidCacheLimits :=
| PeersOutOfRange | AddressesPerPeerOutOfRange | CapabilitiesPerPeerOutOfRange | ZeroTtl.
(** The proposed limits have the fields of the checked ones. *)
Definition CacheLimitsBuilder_build (b : CacheLimits) : result CacheLimits InvalidCacheLimits :=
  if (cl_max_peers b =? 0) || (CACHE_MAX_PEERS <? cl_max_peers b) then Err PeersOutOfRange
  else if (cl_max_addresses_per_peer b =? 0) || (CACHE_MAX_ADDRESSES_PER_PEER <? cl_max_addresses_per_peer b)
  then Err AddressesPerPeerOutOfRange
  else if (cl_max_capabilities_per_peer b =? 0) || (MAX_CAPABILITIES_PER_PEER <? cl_max_capabilities_per_peer b)
  then Err CapabilitiesPerPeerOutOfRange
  else if cl_ttl_ms b =? 0 then Err ZeroTtl
  else Ok b.

(** ** Records *)

Record AddressObservation := MkAddressObservation { ao_address : bytes; ao_last_success_ms : N }.
Record ProtocolCapabilityObservation := MkCapability {
  pc_protocol_family : bytes;
  pc_wire_major : N;
  pc_network_hash : bytes;
  pc_role : bytes;
  pc_supported : bool;
  pc_observed_at_ms : N
}.
Record PeerRecord := MkPeerRecord {
  pr_peer_id : bytes;
  pr_addresses : list AddressObservation;
  pr_first_success_ms : N;
  pr_last_success_ms : N;
  pr_last_failure_ms : option N;
  pr_capabilities : list ProtocolCapabilityObservation
}.
#[global] Instance AddressObservation_eq_dec : EqDecision AddressObservation.
Proof. solve_decision. Defined.
#[global] Instance ProtocolCapabilityObservation_eq_dec : EqDecision ProtocolCapabilityObservation.
Proof. solve_decision. Defined.
#[global] Instance PeerRecord_eq_dec : EqDecision PeerRecord.
Proof. solve_decision. Defined.

Definition KAD_PROTOCOL_FAMILY : bytes := bs "interweave/kad".
Definition KAD_SERVER_ROLE : bytes := bs "server".

(** [{}] of an unsigned integer of at most [w] decimal digits. *)
Definition dec_char (d : N) : byte := byte_of (48 + d).
Fixpoint show_dec (w : nat) (v : N) : bytes :=
  match w with
  | O => []
  | S w => if v <? 10 then [dec_char v] else show_dec w (v / 10) ++ [dec_char (v mod 10)]
  end.
Definition show_u32 : N → bytes := show_dec 10.
(** [str::parse::<u32>] of a string of digits. *)
Definition dec_value (s : bytes) : N := foldl (λ acc b, 10 * acc + (byte_val b - 48)) 0 s.
Definition parse_u32_digits (s : bytes) : option N :=
  if dec_value s <=? u32_max then Some (dec_value s) else None.
(** [str::split_once] *)
Fixpoint split_once (sep : byte) (s : bytes) : option (bytes * bytes) :=
  match s with
  | [] => None
  | b :: s => if bool_decide (b = sep) then Some ([], s)
              else match split_once sep s with Some (l, r) => Some (b :: l, r) | None => None end
  end.
(** [str::strip_suffix] *)
Definition strip_suffix (x s : bytes) : option bytes :=
  if (len x <=? len s) && bool_decide (ndrop (len s - len x) s = x) then Some (ntake (len s - len x) s) else None.
Definition base32_lower (b : byte) : bool :=
  ((97 <=? byte_val b) && (byte_val b <=? 122)) || ((50 <=? byte_val b) && (byte_val b <=? 55)).

Definition kad_server_protocol_id (wire_major : N) (network_hash : bytes) : bytes :=
  bs "/" ++ KAD_PROTOCOL_FAMILY ++ bs "/" ++ show_u32 wire_major ++ bs ".0.0/" ++ network_hash.
Definition parse_kad_server_protocol_id (protocol_id : bytes) : option (N * bytes) :=
  rest ← strip_prefix (bs "/") protocol_id;
  rest ← strip_prefix KAD_PROTOCOL_FAMILY rest;
  rest ← strip_prefix (bs "/") rest;
  '(version, hash) ← split_once (byte_of 47) rest;
  major ← strip_suffix (bs ".0.0") version;
  if (len major =? 0) || (10 <? len major) || bool_decide (head major = Some (byte_of 48)) ||
     negb (forallb is_digit major) then None
  else
    major ← parse_u32_digits major;
    if negb (len hash =? 26) || negb (forallb base32_lower hash) then None
    else Some (major, hash).

Definition PeerRecord_expires_at_ms (r : PeerRecord) (ttl_ms : N) : N :=
  sat_add u64_max (pr_last_success_ms r) ttl_ms.
Definition PeerRecord_is_fresh_at (r : PeerRecord) (now_ms ttl_ms : N) : bool :=
  now_ms <? PeerRecord_expires_at_ms r ttl_ms.
Definition PeerRecord_fresh_capabilities (r : PeerRecord) (now_ms ttl_ms : N) :
    list ProtocolCapabilityObservation :=
  let record_fresh := PeerRecord_is_fresh_at r now_ms ttl_ms in
  filter (λ c, record_fresh && (now_ms <? sat_add u64_max (pc_observed_at_ms c) ttl_ms) = true)
    (pr_capabilities r).

(** ** The cache *)

Definition CACHE_SOURCE : bytes := bs "peer-cache".
Definition FORMAT_VERSION : N := 1.

Inductive IoError := NotFound | IoOther (code : N).
Inductive SerdeError := SerdeFailed (code : N).
Inductive CacheError :=
| CacheIo (e : IoError)
| CacheSerialize (e : SerdeError)
| OutOfBounds (field : string) (got max : N)
| TooLargeToPublish (got max : N).
Inductive RecordError :=
| RecordId (e : IdError)
| RecordAddresses (got : N)
| RecordAddressLength (got : N)
| RecordCapabilities (got : N)
| RecordLabel (what : string) (got : N)
| RecordTimes (last first : N).
(** Why a file was set aside. *)
Inductive QuarantineReason :=
| FileTooLarge (got : N)
| FileIo (e : IoError)
| FileNotUtf8
| TooManyPeers (got : N)
| BadRecord (e : RecordError)
| WrongVersion (got : N)
| NotJson (e : SerdeError).
Inductive CacheHealth :=
| CacheHealthy
| Quarantined (reason : QuarantineReason) (write_failure : option CacheError)
| WriteFailing (reason : CacheError).

Record CacheFile := MkCacheFile { cf_version : N; cf_peers : list PeerRecord }.
#[global] Instance CacheFile_eq_dec : EqDecision CacheFile.
Proof. solve_decision. Defined.
Record PeerCache := MkPeerCache {
  pca_limits : CacheLimits;
  pca_peers : gmap bytes PeerRecord;
  pca_health : CacheHealth;
  pca_dirty : bool;
  pca_last_write_ms : option N
}.
Definition with_cached (c : PeerCache) (peers : gmap bytes PeerRecord) (dirty : bool) : PeerCache :=
  MkPeerCache (pca_limits c) peers (pca_health c) dirty (pca_last_write_ms c).
Definition with_cache_health (c : PeerCache) (h : CacheHealth) : PeerCache :=
  MkPeerCache (pca_limits c) (pca_peers c) h (pca_dirty c) (pca_last_write_ms c).

Definition is_bounded_label (value : bytes) (max : N) : bool :=
  negb (len value =? 0) && (len value <=? max) && forallb printable value.
Definition bounded (field : string) (value : bytes) (max : N) : result () CacheError :=
  if negb (is_bounded_label value max) then Err (OutOfBounds field (len value) max) else Ok ().

(** [iter_mut().find(..)]: the first match is replaced, or the value appended. *)
Fixpoint upsert_first {A} (same : A → bool) (update : A → A) (fresh : A) (l : list A) : list A :=
  match l with
  | [] => [fresh]
  | x :: l => if same x then update x :: l else x :: upsert_first same update fresh l
  end.

Section cache.
Variable bs58_decode_onto : N → bytes → option bytes.

Fixpoint validate_addresses (l : list AddressObservation) : result () RecordError :=
  match l with
  | [] => Ok ()
  | a :: l => if negb (is_bounded_label (ao_address a) CACHE_MAX_ADDRESS_BYTES)
              then Err (RecordAddressLength (len (ao_address a))) else validate_addresses l
  end.
Definition validate_label (what : string) (value : bytes) : result () RecordError :=
  if negb (is_bounded_label value MAX_LABEL_BYTES) then Err (RecordLabel what (len value)) else Ok ().
Fixpoint validate_capabilities (l : list ProtocolCapabilityObservation) : result () RecordError :=
  match l with
  | [] => Ok ()
  | c :: l =>
      _ <-? validate_label "protocol_family" (pc_protocol_family c);
      _ <-? validate_label "network_hash" (pc_network_hash c);
      _ <-? validate_label "role" (pc_role c);
      validate_capabilities l
  end.
Definition validate_record (r : PeerRecord) (limits : CacheLimits) : result () RecordError :=
  _ <-? map_err RecordId (TransportIdentity_parse bs58_decode_onto (pr_peer_id r));
  if cl_max_addresses_per_peer limits <? len (pr_addresses r) then Err (RecordAddresses (len (pr_addresses r)))
  else
    _ <-? validate_addresses (pr_addresses r);
    if cl_max_capabilities_per_peer limits <? len (pr_capabilities r)
    then Err (RecordCapabilities (len (pr_capabilities r)))
    else
      _ <-? validate_capabilities (pr_capabilities r);
      if pr_last_success_ms r <? pr_first_success_ms r
      then Err (RecordTimes (pr_last_success_ms r) (pr_first_success_ms r)) else Ok ().
Fixpoint validate_records (l : list PeerRecord) (limits : CacheLimits) : result () RecordError :=
  match l with
  | [] => Ok ()
  | r :: l => _ <-? validate_record r limits; validate_records l limits
  end.

(** *** What was observed *)

Definition PeerCache_len (c : PeerCache) : N := N.of_nat (size (pca_peers c)).
Definition peer_fresh (c : PeerCache) (now_ms : N) (r : PeerRecord) : bool :=
  PeerRecord_is_fresh_at r now_ms (cl_ttl_ms (pca_limits c)).
(** Expired first, then oldest success first. *)
Definition eviction_leb (a b : bool * N * bytes) : bool :=
  if eqb a.1.1 b.1.1 then a.1.2 <=? b.1.2 else negb a.1.1.
Definition ranked_peers (c : PeerCache) (now_ms : N) : list (bool * N * bytes) :=
  sort_by eviction_leb
    ((λ kr, (peer_fresh c now_ms kr.2, pr_last_success_ms kr.2, pr_peer_id kr.2)) <$> btree_to_list (pca_peers c)).
Definition PeerCache_enforce_peer_cap (c : PeerCache) (now_ms : N) : PeerCache :=
  let max := cl_max_peers (pca_limits c) in
  if PeerCache_len c <=? max then c
  else
    let excess := PeerCache_len c - max in
    with_cached c (foldl (λ m x, delete x.2 m) (pca_peers c) (ntake excess (ranked_peers c now_ms)))
      (pca_dirty c).

(** Most recently successful first, then the tail goes. *)
Definition place_address (limit : N) (address : bytes) (now_ms : N) (l : list AddressObservation) :
    list AddressObservation :=
  ntake limit
    (sort_by (λ a b, ao_last_success_ms b <=? ao_last_success_ms a)
       (upsert_first (λ a, bool_decide (ao_address a = address))
          (λ a, MkAddressObservation (ao_address a) (N.max (ao_last_success_ms a) now_ms))
          (MkAddressObservation address now_ms) l)).
Definition PeerCache_record_success (c : PeerCache) (peer : TransportIdentity) (address : bytes) (now_ms : N) :
    result () CacheError * PeerCache :=
  match bounded "address" address CACHE_MAX_ADDRESS_BYTES with
  | Err e => (Err e, c)
  | Ok _ =>
      let key := TransportIdentity_as_str peer in
      let limit := cl_max_addresses_per_peer (pca_limits c) in
      let r := default (MkPeerRecord key [] now_ms now_ms None []) (pca_peers c !! key) in
      let r := MkPeerRecord (pr_peer_id r) (place_address limit address now_ms (pr_addresses r))
                 (pr_first_success_ms r) (N.max (pr_last_success_ms r) now_ms) (pr_last_failure_ms r)
                 (pr_capabilities r) in
      (Ok (), PeerCache_enforce_peer_cap (with_cached c (<[key := r]> (pca_peers c)) true) now_ms)
  end.
Definition PeerCache_record_failure (c : PeerCache) (peer : TransportIdentity) (now_ms : N) : PeerCache :=
  match pca_peers c !! TransportIdentity_as_str peer with
  | Some r =>
      let r := MkPeerRecord (pr_peer_id r) (pr_addresses r) (pr_first_success_ms r) (pr_last_success_ms r)
                 (Some now_ms) (pr_capabilities r) in
      with_cached c (<[TransportIdentity_as_str peer := r]> (pca_peers c)) true
  | None => c
  end.
Definition same_capability (o x : ProtocolCapabilityObservation) : bool :=
  bool_decide (pc_protocol_family x = pc_protocol_family o) && (pc_wire_major x =? pc_wire_major o) &&
  bool_decide (pc_network_hash x = pc_network_hash o) && bool_decide (pc_role x = pc_role o).
(** Recency decides, not arrival. *)
Definition place_capability (limit : N) (o : ProtocolCapabilityObservation)
    (l : list ProtocolCapabilityObservation) : list ProtocolCapabilityObservation :=
  ntake limit
    (sort_by (λ a b, pc_observed_at_ms b <=? pc_observed_at_ms a)
       (upsert_first (same_capability o)
          (λ x, if pc_observed_at_ms x <=? pc_observed_at_ms o then o else x) o l)).
Definition PeerCache_record_capability (c : PeerCache) (peer : TransportIdentity)
    (o : ProtocolCapabilityObservation) : result () CacheError * PeerCache :=
  match (_ <-? bounded "protocol_family" (pc_protocol_family o) MAX_LABEL_BYTES;
         _ <-? bounded "network_hash" (pc_network_hash o) MAX_LABEL_BYTES;
         bounded "role" (pc_role o) MAX_LABEL_BYTES) with
  | Err e => (Err e, c)
  | Ok _ =>
      match pca_peers c !! TransportIdentity_as_str peer with
      | None => (Ok (), c)
      | Some r =>
          let r := MkPeerRecord (pr_peer_id r) (pr_addresses r) (pr_first_success_ms r) (pr_last_success_ms r)
                     (pr_last_failure_ms r)
                     (place_capability (cl_max_capabilities_per_peer (pca_limits c)) o (pr_capabilities r)) in
          (Ok (), with_cached c (<[TransportIdentity_as_str peer := r]> (pca_peers c)) true)
      end
  end.

(** *** What is reported *)

(** A fresh Kademlia server capability, as the protocol a server advertises. *)
Definition export_capability (c : ProtocolCapabilityObservation) : option ProtocolObservation :=
  if bool_decide (pc_protocol_family c = KAD_PROTOCOL_FAMILY) && bool_decide (pc_role c = KAD_SERVER_ROLE)
  then match ProtocolId_parse (kad_server_protocol_id (pc_wire_major c) (pc_network_hash c)) with
       | Ok id => Some (MkProtocolObservation id (pc_supported c) (pc_observed_at_ms c))
       | Err _ => None
       end
  else None.
Definition record_candidate (limits : CacheLimits) (now_ms : N) (r : PeerRecord) : option CandidatePeer :=
  if PeerRecord_is_fresh_at r now_ms (cl_ttl_ms limits) then
    match TransportIdentity_parse bs58_decode_onto (pr_peer_id r) with
    | Ok peer =>
        Some (MkCandidatePeer peer (list_to_set (ao_address <$> pr_addresses r)) CACHE_SOURCE
                (pr_last_success_ms r) (Some (PeerRecord_expires_at_ms r (cl_ttl_ms limits)))
                (list_to_set (ntake MAX_PROTOCOL_OBSERVATIONS
                   (omap export_capability (PeerRecord_fresh_capabilities r now_ms (cl_ttl_ms limits))))))
    | Err _ => None
    end
  else None.
Definition PeerCache_candidates (c : PeerCache) (now_ms : N) : list CandidatePeer :=
  omap (record_candidate (pca_limits c) now_ms) (btree_to_list (pca_peers c)).*2.
Definition PeerCache_peer (c : PeerCache) (peer : TransportIdentity) (now_ms : N) : option PeerRecord :=
  match pca_peers c !! TransportIdentity_as_str peer with
  | Some r => if peer_fresh c now_ms r then Some r else None
  | None => None
  end.
Definition PeerCache_compact (c : PeerCache) (now_ms : N) : N * PeerCache :=
  let kept := filter (λ kr, peer_fresh c now_ms kr.2 = true) (pca_peers c) in
  let dropped := PeerCache_len c - N.of_nat (size kept) in
  (dropped, with_cached c kept (if 0 <? dropped then true else pca_dirty c)).

(** *** The file *)

(** The file system, as the contents of its files. *)
Abbreviation Fs := (gmap bytes bytes) (only parsing).
Variable serde_json_from_str : bytes → result CacheFile SerdeError.
Variable serde_json_to_vec_pretty : CacheFile → result bytes SerdeError.

(** What opening and reading a file answered. *)
Inductive ReadOutcome := OpenFailed (e : IoError) | ReadFailed (e : IoError) | Contents (b : bytes).
Definition read_capped (o : ReadOutcome) (limit : N) : result (option bytes) QuarantineReason :=
  match o with
  | OpenFailed NotFound => Ok None
  | OpenFailed e => Err (FileIo e)
  | ReadFailed e => Err (FileIo e)
  | Contents b =>
      let buf := ntake (sat_add u64_max limit 1) b in
      if limit <? len buf then Err (FileTooLarge limit)
      else if utf8_valid buf then Ok (Some buf) else Err FileNotUtf8
  end.

(** What a load met: the size of the file, its contents, and the rename that
    sets it aside. *)
Record LoadIo := MkLoadIo {
  li_metadata : result N IoError;
  li_read : ReadOutcome;
  li_rename : result () IoError
}.
Definition PeerCache_quarantine (io : LoadIo) (c : PeerCache) (reason : QuarantineReason) :
    result PeerCache CacheError :=
  match li_rename io with
  | Ok _ | Err NotFound =>
      Ok (MkPeerCache (pca_limits c) ∅ (Quarantined reason None) (pca_dirty c) (pca_last_write_ms c))
  | Err e => Err (CacheIo e)
  end.
(** The records of a readable file, or why it is not one. *)
Definition admit_file (limits : CacheLimits) (text : bytes) : result (gmap bytes PeerRecord) QuarantineReason :=
  match serde_json_from_str text with
  | Ok file =>
      if cf_version file =? FORMAT_VERSION then
        if cl_max_peers limits <? len (cf_peers file) then Err (TooManyPeers (len (cf_peers file)))
        else
          _ <-? map_err BadRecord (validate_records (cf_peers file) limits);
          Ok (foldl (λ m r, <[pr_peer_id r := r]> m) ∅ (cf_peers file))
      else Err (WrongVersion (cf_version file))
  | Err e => Err (NotJson e)
  end.
Definition PeerCache_load (io : LoadIo) (limits : CacheLimits) : result PeerCache CacheError :=
  let cache := MkPeerCache limits ∅ CacheHealthy false None in
  match li_metadata io with
  | Err NotFound => Ok cache
  | Err e => PeerCache_quarantine io cache (FileIo e)
  | Ok size =>
      if MAX_CACHE_FILE_BYTES <? size then PeerCache_quarantine io cache (FileTooLarge size)
      else match read_capped (li_read io) MAX_CACHE_FILE_BYTES with
           | Ok None => Ok cache
           | Err reason => PeerCache_quarantine io cache reason
           | Ok (Some text) =>
               match admit_file limits text with
               | Ok peers => Ok (MkPeerCache limits peers CacheHealthy false None)
               | Err reason => PeerCache_quarantine io cache reason
               end
           end
  end.

(** What the steps of a write met. A failed [write_all] leaves a prefix. *)
Record WriteIo := MkWriteIo {
  wi_create_dir : result () IoError;
  wi_create_new : result () IoError;
  wi_write_all : result () (IoError * N);
  wi_sync : result () IoError;
  wi_rename : result () IoError;
  wi_remove : result () IoError;
  wi_open_dir : result () IoError;
  wi_sync_dir : result () IoError
}.
Definition EEXIST : IoError := IoOther 17.
Definition publish_via_temp (io : WriteIo) (temp final_path json : bytes) (fs : Fs) : result () CacheError * Fs :=
  match wi_create_new io with
  | Err e => (Err (CacheIo e), fs)
  | Ok _ =>
      match fs !! temp with
      | Some _ => (Err (CacheIo EEXIST), fs)
      | None =>
          let '(written, fs) :=
            match wi_write_all io with
            | Err (e, n) => (Err (CacheIo e), <[temp := ntake n json]> fs)
            | Ok _ => (map_err CacheIo (wi_sync io), <[temp := json]> fs)
            end in
          let '(published, fs) :=
            match written with
            | Err e => (Err e, fs)
            | Ok _ => match wi_rename io with
                      | Err e => (Err (CacheIo e), fs)
                      | Ok _ => (Ok (), <[final_path := json]> (delete temp fs))
                      end
            end in
          match published with
          | Err e => (Err e, match wi_remove io with Ok _ => delete temp fs | Err _ => fs end)
          | Ok _ => (Ok (), fs)
          end
      end
  end.
Definition cache_file (c : PeerCache) : CacheFile := MkCacheFile FORMAT_VERSION (btree_to_list (pca_peers c)).*2.
(** [path] is the cache file's, [temp] the name [temp_beside] made for this
    attempt. *)
Definition PeerCache_write_file (c : PeerCache) (io : WriteIo) (path temp : bytes) (now_ms : N) (fs : Fs) :
    result () CacheError * PeerCache * Fs :=
  match serde_json_to_vec_pretty (cache_file c) with
  | Err e => (Err (CacheSerialize e), c, fs)
  | Ok json =>
      if MAX_CACHE_FILE_BYTES <? len json then (Err (TooLargeToPublish (len json) MAX_CACHE_FILE_BYTES), c, fs)
      else match wi_create_dir io with
           | Err e => (Err (CacheIo e), c, fs)
           | Ok _ =>
               let '(published, fs) := publish_via_temp io temp path json fs in
               match (_ <-? published; _ <-? map_err CacheIo (wi_open_dir io); map_err CacheIo (wi_sync_dir io)) with
               | Err e => (Err e, c, fs)
               | Ok _ => (Ok (), MkPeerCache (pca_limits c) (pca_peers c) (pca_health c) false (Some now_ms), fs)
               end
           end
  end.
Definition flushed_health (outcome : result () CacheError) (h : CacheHealth) : CacheHealth :=
  match outcome, h with
  | Ok _, WriteFailing _ => CacheHealthy
  | Ok _, Quarantined reason _ => Quarantined reason None
  | Err e, Quarantined reason _ => Quarantined reason (Some e)
  | Err e, _ => WriteFailing e
  | Ok _, CacheHealthy => CacheHealthy
  end.
Definition PeerCache_flush (c : PeerCache) (io : WriteIo) (path temp : bytes) (now_ms : N) (fs : Fs) :
    result () CacheError * PeerCache * Fs :=
  let '(outcome, c, fs) := PeerCache_write_file c io path temp now_ms fs in
  (outcome, with_cache_health c (flushed_health outcome (pca_health c)), fs).
Definition PeerCache_write_due (c : PeerCache) (now_ms : N) : bool :=
  pca_dirty c && match pca_last_write_ms c with
                 | Some last => cl_write_debounce_ms (pca_limits c) <=? sat_sub now_ms last
                 | None => true
                 end.
Definition PeerCache_flush_if_due (c : PeerCache) (io : WriteIo) (path temp : bytes) (now_ms : N) (fs : Fs) :
    result bool CacheError * PeerCache * Fs :=
  if negb (PeerCache_write_due c now_ms) then (Ok false, c, fs)
  else let '(outcome, c, fs) := PeerCache_flush c io path temp now_ms fs in
       (result_map (λ _, true) outcome, c, fs).
End cache.
