(* ===== verification/PeerCacheFacts.v ===== *)
(** * What the peer cache guarantees

    The protocol identifiers it stores and reports, what it evicts, and that the
    file it writes is a file it reads. *)
From S2P Require Import Prelude Ids Payload DiscoveryApi ProviderQueue PeerCache.
Local Open Scope N_scope.

(** ** Decimal integers *)

Lemma dec_char_val d : d < 10 → byte_val (dec_char d) = 48 + d.
Proof. intros Hd. unfold dec_char. rewrite byte_val_of N.mod_small; lia. Qed.
Lemma is_digit_val b : is_digit b = true → 48 ≤ byte_val b ≤ 57.
Proof. unfold is_digit. rewrite andb_true_iff !N.leb_le. lia. Qed.
Lemma dec_char_digit d : d < 10 → is_digit (dec_char d) = true.
Proof. intros Hd. unfold is_digit. rewrite dec_char_val // andb_true_iff !N.leb_le. lia. Qed.
Lemma dec_char_of b : is_digit b = true → dec_char (byte_val b - 48) = b.
Proof. intros Hb%is_digit_val. unfold dec_char. replace (48 + (byte_val b - 48)) with (byte_val b) by lia. apply byte_of_val. Qed.
Lemma dec_value_snoc s b : dec_value (s ++ [b]) = 10 * dec_value s + (byte_val b - 48).
Proof. unfold dec_value. by rewrite foldl_app. Qed.

Lemma show_dec_spec w v : v < 10 ^ N.of_nat (S w) →
  dec_value (show_dec (S w) v) = v ∧ forallb is_digit (show_dec (S w) v) = true ∧
  0 < len (show_dec (S w) v) ≤ N.of_nat (S w) ∧
  (0 < v → head (show_dec (S w) v) ≠ Some (byte_of 48)).
Proof.
  assert (∀ d, d < 10 → dec_value [dec_char d] = d) as Hone.
  { intros d Hd. unfold dec_value. simpl. rewrite dec_char_val //. lia. }
  assert (∀ d, 0 < d < 10 → dec_char d ≠ byte_of 48) as Hhd.
  { intros d Hd E. apply (f_equal byte_val) in E. rewrite dec_char_val in E; [|lia]. rewrite byte_val_of in E.
    change (48 mod 256) with 48 in E. lia. }
  revert v. induction w as [|w IH]; intros v Hv.
  - change (10 ^ N.of_nat 1) with 10 in Hv. cbn [show_dec]. rewrite (proj2 (N.ltb_lt _ _) Hv).
    split_and!; [by apply Hone|simpl; by rewrite dec_char_digit|done|done|].
    simpl. intros H0 [= E]. by apply (Hhd v); [lia|].
  - cbn [show_dec] in *. destruct (N.ltb_spec v 10) as [Hs|Hs].
    + split_and!; [by apply Hone|simpl; by rewrite dec_char_digit|done|unfold len; simpl; lia|].
      simpl. intros H0 [= E]. by apply (Hhd v); [lia|].
    + assert (v / 10 < 10 ^ N.of_nat (S w)) as Hd.
      { apply N.Div0.div_lt_upper_bound. rewrite Nat2N.inj_succ N.pow_succ_r' in Hv. lia. }
      destruct (IH _ Hd) as (H1 & H2 & H3 & H4). fold (show_dec (S w) (v / 10)) in *.
      change (if v / 10 <? 10 then [dec_char (v / 10)] else show_dec w (v / 10 / 10) ++ [dec_char ((v / 10) mod 10)])
        with (show_dec (S w) (v / 10)) in *.
      pose proof (N.mod_lt v 10 ltac:(lia)) as Hm. pose proof (N.div_mod v 10 ltac:(lia)) as Hdm.
      assert (0 < v / 10) as Hpos by (apply N.div_str_pos; lia).
      split_and!.
      * rewrite dec_value_snoc H1 dec_char_val //. clear -Hdm. generalize dependent (v `div` 10). generalize dependent (v `mod` 10). lia.
      * rewrite forallb_app H2 /= dec_char_digit //.
      * rewrite len_app len_cons len_nil. lia.
      * rewrite len_app len_cons len_nil. lia.
      * intros _. destruct (show_dec (S w) (v / 10)) as [|c s] eqn:E; [unfold len in H3; simpl in H3; lia|]. by apply H4.
Qed.
(** A canonical numeral is the one its value prints. *)
Lemma show_dec_value w s : forallb is_digit s = true → 0 < len s ≤ N.of_nat w → head s ≠ Some (byte_of 48) →
  show_dec w (dec_value s) = s ∧ 0 < dec_value s < 10 ^ len s.
Proof.
  revert w. induction s as [|b s IH] using rev_ind; intros w Hd Hl Hh; [unfold len in Hl; simpl in Hl; lia|].
  rewrite forallb_app in Hd. apply andb_true_iff in Hd as [Hd Hb]. simpl in Hb. rewrite andb_true_r in Hb.
  pose proof (is_digit_val b Hb) as Hbv. rewrite len_app in Hl |- *. change (len [b]) with 1 in *.
  destruct w as [|w]; [lia|]. cbn [show_dec]. destruct s as [|a s].
  - change (dec_value ([] ++ [b])) with (10 * 0 + (byte_val b - 48)). simpl in Hh.
    assert (byte_val b ≠ 48) as Hne.
    { intros E. apply Hh. f_equal. rewrite -(byte_of_val b) E //. }
    rewrite (proj2 (N.ltb_lt _ _)); [|lia]. simpl. change (10 ^ (len (@nil byte) + 1)) with 10. split; [|lia].
    f_equal. replace (10 * 0 + (byte_val b - 48)) with (byte_val b - 48) by lia. by apply dec_char_of.
  - set (t := a :: s) in *. assert (head t ≠ Some (byte_of 48)) as Ht by exact Hh.
    destruct (IH w Hd) as [H1 H2]; [subst t; rewrite len_cons in Hl |- *; lia|done|].
    rewrite dec_value_snoc. rewrite (proj2 (N.ltb_ge _ _)); [|lia].
    replace ((10 * dec_value t + (byte_val b - 48)) / 10) with (dec_value t) by (apply N.div_unique with (byte_val b - 48); lia).
    replace ((10 * dec_value t + (byte_val b - 48)) mod 10) with (byte_val b - 48) by (apply N.mod_unique with (dec_value t); lia).
    rewrite H1 dec_char_of //. split; [done|]. rewrite N.pow_add_r. change (10 ^ 1) with 10. lia.
Qed.

(** ** Protocol identifiers *)

Lemma strip_prefix_app p rest : strip_prefix p (p ++ rest) = Some rest.
Proof. unfold strip_prefix. by rewrite ntake_len_app ndrop_len_app decide_True. Qed.
Lemma split_once_Some sep s l r : split_once sep s = Some (l, r) → s = l ++ sep :: r.
Proof.
  revert l. induction s as [|b s IH]; intros l; [done|]. simpl. case_bool_decide as E.
  - intros [= <- <-]. by subst.
  - destruct (split_once sep s) as [[l' r']|]; [|done]. intros [= <- <-]. simpl. f_equal. by apply IH.
Qed.
Lemma split_once_app sep l r : sep ∉ l → split_once sep (l ++ sep :: r) = Some (l, r).
Proof.
  induction l as [|b l IH]; intros Hl; simpl; [by rewrite bool_decide_true|].
  apply not_elem_of_cons in Hl as [Hb Hl]. rewrite bool_decide_false; [|congruence]. by rewrite IH.
Qed.
Lemma strip_suffix_Some x s l : strip_suffix x s = Some l → s = l ++ x.
Proof.
  unfold strip_suffix. destruct (len x <=? len s); [|done]. simpl. case_bool_decide as E; [|done]. intros [= <-].
  rewrite -{1}(ntake_ndrop (len s - len x) s). by rewrite E.
Qed.
Lemma strip_suffix_app x l : strip_suffix x (l ++ x) = Some l.
Proof.
  unfold strip_suffix. rewrite len_app. rewrite (proj2 (N.leb_le _ _)); [|lia].
  replace (len l + len x - len x) with (len l) by lia.
  by rewrite ndrop_len_app ntake_len_app bool_decide_true.
Qed.
Lemma digits_no_slash s : forallb is_digit s = true → byte_of 47 ∉ s.
Proof. rewrite List.forallb_forall => Hs Hin. apply list_elem_of_In, Hs in Hin. by vm_compute in Hin. Qed.

Lemma kad_protocol_iff (s : bytes) (major : N) (hash : bytes) :
  parse_kad_server_protocol_id s = Some (major, hash) ↔
  s = kad_server_protocol_id major hash ∧ 0 < major ≤ u32_max ∧
  len hash = 26 ∧ forallb base32_lower hash = true.
Proof.
  unfold parse_kad_server_protocol_id, kad_server_protocol_id, parse_u32_digits. split.
  - intros H. apply bind_Some in H as (r1 & H1 & H). apply bind_Some in H as (r2 & H2 & H).
    apply bind_Some in H as (r3 & H3 & H). apply bind_Some in H as ([version h] & H4 & H).
    apply bind_Some in H as (m & H5 & H).
    destruct (_ || _ || _ || _) eqn:E; [done|]. rewrite !orb_false_iff in E. destruct E as [[[E1 E2] E3] E4].
    apply N.eqb_neq in E1. apply N.ltb_ge in E2. apply bool_decide_eq_false in E3. apply negb_false_iff in E4.
    apply bind_Some in H as (v & Hv & H). destruct (N.leb_spec (dec_value m) u32_max) as [Hm|]; [|done].
    injection Hv as <-. destruct (negb _ || _) eqn:E; [done|]. injection H as <- <-.
    apply orb_false_iff in E as [E5 E6]. apply negb_false_iff in E5, E6. apply N.eqb_eq in E5.
    apply strip_prefix_Some in H1, H2, H3. apply split_once_Some in H4. apply strip_suffix_Some in H5. subst.
    destruct (show_dec_value 10 m E4) as [Hs Hb]; [split; [lia|done]|done|].
    split_and!; [|lia|done|done|done]. unfold show_u32. rewrite Hs. by rewrite -!app_assoc.
  - intros (-> & Hm & Hl & Hh). destruct (show_dec_spec 9 major) as (H1 & H2 & H3 & H4).
    { apply (N.lt_le_trans _ 4294967296); [unfold u32_max in Hm; lia|by vm_compute]. }
    fold (show_u32 major) in *. do 3 (rewrite strip_prefix_app; cbn [mbind option_bind]).
    rewrite (_ : show_u32 major ++ bs ".0.0/" ++ hash = (show_u32 major ++ bs ".0.0") ++ byte_of 47 :: hash);
      [|by rewrite -app_assoc].
    rewrite split_once_app; [|rewrite not_elem_of_app; split; [by apply digits_no_slash|by vm_compute; set_solver]].
    cbn [mbind option_bind]. rewrite strip_suffix_app. cbn [mbind option_bind]. rewrite (proj2 (N.eqb_neq _ _)); [|lia]. rewrite (proj2 (N.ltb_ge _ _)); [|lia].
    rewrite bool_decide_false; [|apply H4; lia]. rewrite H2 /= H1. rewrite (proj2 (N.leb_le _ _)); [|lia].
    by rewrite /= Hl Hh.
Qed.
(** a protocol identifier is read as a Kademlia server protocol of some
    wire major and network exactly when it is the identifier the cache prints for
    them: the numeral is canonical and within 32 bits, the minor and patch are
    zero, and the hash is the 26 characters of a network hash. Nothing else
    parses, and nothing printed is misread. *)
Theorem kad_protocol_exact (s : bytes) (major : N) (hash : bytes) :
  parse_kad_server_protocol_id s = Some (major, hash) ↔
  s = kad_server_protocol_id major hash ∧ 0 < major ≤ u32_max ∧
  len hash = 26 ∧ forallb base32_lower hash = true.
Proof. apply kad_protocol_iff. Qed.

(** ** The invariant *)

Definition limits_ok (l : CacheLimits) : Prop :=
  0 < cl_max_peers l ≤ CACHE_MAX_PEERS ∧
  0 < cl_max_addresses_per_peer l ≤ CACHE_MAX_ADDRESSES_PER_PEER ∧
  0 < cl_max_capabilities_per_peer l ≤ MAX_CAPABILITIES_PER_PEER ∧ 0 < cl_ttl_ms l.
Lemma build_limits b l : CacheLimitsBuilder_build b = Ok l → l = b ∧ limits_ok l.
Proof.
  unfold CacheLimitsBuilder_build, limits_ok.
  case_match eqn:E1; [done|]. case_match eqn:E2; [done|]. case_match eqn:E3; [done|].
  destruct (N.eqb_spec (cl_ttl_ms b) 0) as [|E4]; [done|]. intros [= <-]. split; [done|].
  rewrite orb_false_iff N.eqb_neq N.ltb_ge in E1. rewrite orb_false_iff N.eqb_neq N.ltb_ge in E2.
  rewrite orb_false_iff N.eqb_neq N.ltb_ge in E3. lia.
Qed.

Definition label_ok (max : N) (s : bytes) : Prop := is_bounded_label s max = true.
Definition observation_ok (a : AddressObservation) : Prop := label_ok CACHE_MAX_ADDRESS_BYTES (ao_address a).
Definition capability_ok (c : ProtocolCapabilityObservation) : Prop :=
  label_ok MAX_LABEL_BYTES (pc_protocol_family c) ∧ label_ok MAX_LABEL_BYTES (pc_network_hash c) ∧
  label_ok MAX_LABEL_BYTES (pc_role c).
Record record_ok (limits : CacheLimits) (r : PeerRecord) : Prop := MkRecordOk {
  ro_addresses : len (pr_addresses r) ≤ cl_max_addresses_per_peer limits;
  ro_labels : Forall observation_ok (pr_addresses r);
  ro_capabilities : len (pr_capabilities r) ≤ cl_max_capabilities_per_peer limits;
  ro_facts : Forall capability_ok (pr_capabilities r);
  ro_times : pr_first_success_ms r ≤ pr_last_success_ms r
}.
Record cache_inv (c : PeerCache) : Prop := MkCacheInv {
  ci_size : N.of_nat (size (pca_peers c)) ≤ cl_max_peers (pca_limits c);
  ci_keys k r : pca_peers c !! k = Some r → pr_peer_id r = k;
  ci_records k r : pca_peers c !! k = Some r → record_ok (pca_limits c) r
}.

Section validate.
Variable dec : N → bytes → option bytes.
Definition id_valid (k : bytes) : Prop := is_ok (TransportIdentity_parse dec k) = true.

Lemma validate_addresses_Ok l : validate_addresses l = Ok () ↔ Forall observation_ok l.
Proof.
  induction l as [|a l IH]; [by split; constructor|]. simpl. rewrite Forall_cons -IH.
  unfold observation_ok, label_ok. destruct (is_bounded_label _ _); simpl; naive_solver.
Qed.
Lemma validate_capabilities_Ok l : validate_capabilities l = Ok () ↔ Forall capability_ok l.
Proof.
  induction l as [|c l IH]; [by split; constructor|]. simpl. rewrite Forall_cons -IH.
  unfold capability_ok, label_ok, validate_label.
  destruct (is_bounded_label (pc_protocol_family c) _), (is_bounded_label (pc_network_hash c) _),
    (is_bounded_label (pc_role c) _); simpl; naive_solver.
Qed.
Lemma validate_record_Ok r limits : validate_record dec r limits = Ok () ↔
  id_valid (pr_peer_id r) ∧ record_ok limits r.
Proof.
  unfold validate_record, id_valid. destruct (TransportIdentity_parse dec (pr_peer_id r)) as [p|e]; simpl; [|naive_solver].
  destruct (N.ltb_spec (cl_max_addresses_per_peer limits) (len (pr_addresses r))).
  { split; [done|]. intros [_ []]. lia. }
  pose proof (validate_addresses_Ok (pr_addresses r)) as H1. pose proof (validate_capabilities_Ok (pr_capabilities r)) as H2.
  destruct (validate_addresses (pr_addresses r)) as [[]|]; simpl; [|split; [done|]; intros [_ []]; naive_solver].
  destruct (N.ltb_spec (cl_max_capabilities_per_peer limits) (len (pr_capabilities r))).
  { split; [done|]. intros [_ []]. lia. }
  destruct (validate_capabilities (pr_capabilities r)) as [[]|]; simpl; [|split; [done|]; intros [_ []]; naive_solver].
  destruct (N.ltb_spec (pr_last_success_ms r) (pr_first_success_ms r)).
  { split; [done|]. intros [_ []]. lia. }
  split; [|done]. intros _. split; [done|]. constructor; naive_solver.
Qed.
Lemma validate_records_Ok l limits : validate_records dec l limits = Ok () ↔
  Forall (λ r, id_valid (pr_peer_id r) ∧ record_ok limits r) l.
Proof.
  induction l as [|r l IH]; [by split; constructor|]. simpl. rewrite Forall_cons -IH -validate_record_Ok.
  destruct (validate_record dec r limits) as [[]|]; simpl; naive_solver.
Qed.
End validate.

(** *** Bounded lists *)

Lemma len_ntake_le {A} n (l : list A) : len (ntake n l) ≤ n.
Proof. unfold ntake, len. rewrite length_take. lia. Qed.
Lemma Forall_ntake {A} (P : A → Prop) n l : Forall P l → Forall P (ntake n l).
Proof. apply Forall_take. Qed.
Lemma Forall_sort_by {A} (P : A → Prop) leb l : Forall P l → Forall P (sort_by leb l).
Proof. by rewrite sort_by_perm. Qed.
Lemma Forall_upsert {A} (P : A → Prop) same update fresh l : (∀ x, P x → P (update x)) → P fresh → Forall P l →
  Forall P (upsert_first same update fresh l).
Proof.
  intros Hu Hf. induction 1 as [|x l Hx Hl IH]; simpl; [by repeat constructor|].
  destruct (same x); constructor; auto.
Qed.
Lemma place_address_ok limit address now l : label_ok CACHE_MAX_ADDRESS_BYTES address → Forall observation_ok l →
  Forall observation_ok (place_address limit address now l).
Proof. intros Ha Hl. apply Forall_ntake, Forall_sort_by, Forall_upsert; done. Qed.
Lemma place_capability_ok limit o l : capability_ok o → Forall capability_ok l →
  Forall capability_ok (place_capability limit o l).
Proof. intros Ho Hl. apply Forall_ntake, Forall_sort_by, Forall_upsert; try done. intros x Hx. by case_match. Qed.

(** *** Operations *)

Lemma eviction_total a b : eviction_leb a b = true ∨ eviction_leb b a = true.
Proof.
  destruct a as [[[] x] k], b as [[[] y] j]; unfold eviction_leb; simpl; auto; rewrite !N.leb_le; lia.
Qed.
Lemma eviction_trans a b c : eviction_leb a b = true → eviction_leb b c = true → eviction_leb a c = true.
Proof.
  destruct a as [[[] x] k], b as [[[] y] j], c as [[[] z] i]; unfold eviction_leb; simpl; try done;
    rewrite !N.leb_le; lia.
Qed.
Lemma deletes_lookup {A} (l : list (A * bytes)) (m : gmap bytes PeerRecord) k :
  foldl (λ m x, delete x.2 m) m l !! k = if decide (k ∈ l.*2) then None else m !! k.
Proof.
  revert m. induction l as [|[a j] l IH]; intros m; [done|]. simpl. rewrite IH.
  destruct (decide (k ∈ l.*2)); [rewrite decide_True //; set_solver|].
  destruct (decide (k = j)) as [->|]; [rewrite lookup_delete_eq decide_True //; set_solver|].
  rewrite lookup_delete_ne // decide_False //. set_solver.
Qed.
Lemma ranked_elem c now x : x ∈ ranked_peers c now ↔
  ∃ k r, pca_peers c !! k = Some r ∧ x = (peer_fresh c now r, pr_last_success_ms r, pr_peer_id r).
Proof.
  unfold ranked_peers. rewrite sort_by_perm list_elem_of_fmap. split.
  - intros ([k r] & -> & Hin%elem_of_btree_to_list). by exists k, r.
  - intros (k & r & Hk & ->). exists (k, r). by rewrite elem_of_btree_to_list.
Qed.
Lemma ranked_keys c now : (∀ k r, pca_peers c !! k = Some r → pr_peer_id r = k) → NoDup (ranked_peers c now).*2.
Proof.
  intros Hk. unfold ranked_peers. rewrite sort_by_perm. rewrite -list_fmap_compose.
  rewrite (_ : _ <$> btree_to_list (pca_peers c) = (btree_to_list (pca_peers c)).*1); [apply NoDup_btree_keys|].
  apply list_fmap_ext. intros i [k r] Hi. simpl. apply Hk. apply elem_of_btree_to_list. by eapply list_elem_of_lookup_2.
Qed.
Lemma deletes_size {A} (l : list (A * bytes)) (m : gmap bytes PeerRecord) : NoDup l.*2 →
  (∀ k, k ∈ l.*2 → is_Some (m !! k)) →
  N.of_nat (size (foldl (λ m x, delete x.2 m) m l)) + len l = N.of_nat (size m).
Proof.
  revert m. induction l as [|[a j] l IH]; intros m Hn Hm; [rewrite len_nil; simpl; lia|].
  apply NoDup_cons in Hn as [Hj Hn]. simpl. destruct (Hm j ltac:(left)) as [r Hr].
  assert (size m = S (size (delete j m))) as Hs.
  { rewrite -{1}(insert_delete_id m j r Hr). rewrite map_size_insert_None // lookup_delete_eq //. }
  rewrite len_cons. specialize (IH (delete j m) Hn). rewrite Hs Nat2N.inj_succ -IH; [lia|].
  intros k Hk. destruct (decide (k = j)) as [->|]; [done|]. rewrite lookup_delete_ne //. apply Hm. by right.
Qed.
Lemma ranked_len c now : len (ranked_peers c now) = PeerCache_len c.
Proof. unfold ranked_peers, len. rewrite sort_by_perm length_fmap length_btree_to_list //. Qed.
Lemma elem_of_ntake {A} n (l : list A) x : x ∈ ntake n l → x ∈ l.
Proof. intros Hx. eapply sublist_elem_of; [exact Hx|apply sublist_take]. Qed.
Lemma ranked_rank c now k : (∀ k r, pca_peers c !! k = Some r → pr_peer_id r = k) → ∀ r, pca_peers c !! k = Some r →
  (peer_fresh c now r, pr_last_success_ms r, k) ∈ ranked_peers c now ∧
  (∀ x, x ∈ ranked_peers c now → x.2 = k → x = (peer_fresh c now r, pr_last_success_ms r, k)).
Proof.
  intros Hk r Hr. split.
  - apply ranked_elem. exists k, r. by rewrite (Hk _ _ Hr).
  - intros x (j & r' & Hj & ->)%ranked_elem. simpl. intros E. pose proof (Hk _ _ Hj). naive_solver.
Qed.
Lemma ranked_cut c now n k r j s : (∀ k r, pca_peers c !! k = Some r → pr_peer_id r = k) →
  pca_peers c !! k = Some r → pca_peers c !! j = Some s →
  k ∈ (ntake n (ranked_peers c now)).*2 → j ∉ (ntake n (ranked_peers c now)).*2 →
  eviction_leb (peer_fresh c now r, pr_last_success_ms r, k) (peer_fresh c now s, pr_last_success_ms s, j) = true.
Proof.
  intros Hk Hr Hs (x & -> & Hx)%list_elem_of_fmap Hj.
  pose proof (ranked_rank c now x.2 Hk r Hr) as [_ H1]. pose proof (ranked_rank c now j Hk s Hs) as [H2 _].
  rewrite -(H1 x) //; [|by eapply elem_of_ntake].
  apply (StronglySorted_app_1_elem_of (λ a b, eviction_leb a b = true) (ntake n (ranked_peers c now)) (ndrop n (ranked_peers c now))).
  - rewrite ntake_ndrop. apply sort_by_sorted; [apply eviction_total|apply eviction_trans].
  - done.
  - rewrite -(ntake_ndrop n (ranked_peers c now)) in H2. apply elem_of_app in H2 as [H2|H2]; [|done].
    destruct Hj. apply list_elem_of_fmap. eexists. by split; [|exact H2].
Qed.
Lemma cap_evicts c now : (∀ k r, pca_peers c !! k = Some r → pr_peer_id r = k) →
  let c' := PeerCache_enforce_peer_cap c now in
  pca_limits c' = pca_limits c ∧ N.of_nat (size (pca_peers c')) ≤ cl_max_peers (pca_limits c) ∧
  pca_peers c' ⊆ pca_peers c ∧
  (PeerCache_len c ≤ cl_max_peers (pca_limits c) → pca_peers c' = pca_peers c) ∧
  (∀ k r j s, pca_peers c !! k = Some r → pca_peers c' !! k = None → pca_peers c' !! j = Some s →
     (peer_fresh c now r = true → peer_fresh c now s = true) ∧
     (peer_fresh c now r = peer_fresh c now s → pr_last_success_ms r ≤ pr_last_success_ms s)).
Proof.
  intros Hk. unfold PeerCache_enforce_peer_cap. simpl.
  destruct (N.leb_spec (PeerCache_len c) (cl_max_peers (pca_limits c))) as [Hl|Hl].
  { split_and!; try done. intros. congruence. }
  simpl. assert (∀ n, (ntake n (ranked_peers c now)).*2 = ntake n (ranked_peers c now).*2) as Et by (intros; apply fmap_take).
  split_and!; [done| | |lia|].
  - assert (∀ n, n ≤ PeerCache_len c →
      N.of_nat (size (foldl (λ m x, delete x.2 m) (pca_peers c) (ntake n (ranked_peers c now)))) + n = PeerCache_len c) as Hs.
    { intros n Hn. rewrite -{2}(len_ntake n (ranked_peers c now)); [|by rewrite ranked_len]. apply deletes_size; rewrite Et.
      - eapply sublist_NoDup; [by apply (ranked_keys c now)|]. apply sublist_take.
      - intros k Hin%elem_of_ntake. apply list_elem_of_fmap in Hin as (x & -> & (j & r & Hj & ->)%ranked_elem).
        simpl. rewrite (Hk _ _ Hj). by exists r. }
    specialize (Hs (PeerCache_len c - cl_max_peers (pca_limits c)) ltac:(lia)). lia.
  - apply map_subseteq_spec. intros k r. rewrite deletes_lookup. by case_decide.
  - intros k r j s Hkr. rewrite !deletes_lookup. case_decide as Dk; [intros _|congruence]. case_decide as Dj; [done|].
    intros Hjs. pose proof (ranked_cut _ _ _ _ _ _ _ Hk Hkr Hjs Dk Dj) as He. unfold eviction_leb in He. simpl in He.
    destruct (peer_fresh c now r), (peer_fresh c now s); simpl in He; rewrite ?N.leb_le in He; split; intros; try done.
Qed.

Lemma bounded_Ok field s max : bounded field s max = Ok () → label_ok max s.
Proof. unfold bounded, label_ok. by destruct (is_bounded_label s max). Qed.
Lemma insert_inv c k r dirty : cache_inv c → pr_peer_id r = k → record_ok (pca_limits c) r →
  (∀ j s, (<[k := r]> (pca_peers c)) !! j = Some s → pr_peer_id s = j ∧ record_ok (pca_limits c) s) ∧
  (is_Some (pca_peers c !! k) → cache_inv (with_cached c (<[k := r]> (pca_peers c)) dirty)).
Proof.
  intros [H1 H2 H3] Hk Hr.
  assert (∀ j s, (<[k := r]> (pca_peers c)) !! j = Some s → pr_peer_id s = j ∧ record_ok (pca_limits c) s) as H.
  { intros j s [[<- <-]|[_ Hs]]%lookup_insert_Some; [done|]. split; [by apply H2|by eapply H3]. }
  split; [done|]. intros [s Hs]. constructor; simpl; [|apply H|apply H].
  by rewrite map_size_insert_Some.
Qed.
Lemma record_success_evicts c peer address now limits : cache_inv c → pca_limits c = limits →
  let c' := (PeerCache_record_success c peer address now).2 in
  PeerCache_len c' ≤ cl_max_peers limits ∧
  (PeerCache_len c < cl_max_peers limits → ∀ k, is_Some (pca_peers c !! k) → is_Some (pca_peers c' !! k)) ∧
  (∀ k r j s, k ≠ TransportIdentity_as_str peer → pca_peers c !! k = Some r → pca_peers c' !! k = None →
     pca_peers c' !! j = Some s →
     (peer_fresh c now r = true → peer_fresh c now s = true) ∧
     (peer_fresh c now r = peer_fresh c now s → pr_last_success_ms r ≤ pr_last_success_ms s)).
Proof.
  intros Hc Hlim. unfold PeerCache_record_success. simpl.
  destruct (bounded "address" address CACHE_MAX_ADDRESS_BYTES) as [[]|e] eqn:Eb; cbn [snd].
  - set (k := TransportIdentity_as_str peer). set (r := MkPeerRecord _ _ _ _ _ _).
    destruct (cap_evicts (with_cached c (<[k := r]> (pca_peers c)) true) now) as (_ & S & _ & Room & Ev).
    { cbn [pca_peers with_cached]. intros j s [[<- <-]|[_ Hs]]%lookup_insert_Some; [|by eapply (ci_keys c Hc)]. subst r k. simpl.
      destruct (pca_peers c !! _) eqn:E; [exact (ci_keys c Hc _ _ E)|done]. }
    cbn [pca_limits pca_peers with_cached] in *. rewrite Hlim in S, Room. split_and!; [exact S| |].
    + intros Hlt q [s Hs]. rewrite Room.
      * destruct (decide (q = k)) as [->|]; [rewrite lookup_insert_eq; by eexists|rewrite lookup_insert_ne //; by eexists].
      * unfold PeerCache_len in *. cbn [pca_peers with_cached]. rewrite map_size_insert. case_match; simpl; lia.
    + intros q s j t Hq Hqs Hqn Hjt. eapply (Ev q s j t); try done. by rewrite lookup_insert_ne.
  - split_and!; [|done|congruence]. rewrite -Hlim. apply (ci_size c Hc).
Qed.
Lemma record_success_inv c peer address now : cache_inv c →
  let c' := (PeerCache_record_success c peer address now).2 in
  cache_inv c' ∧ pca_limits c' = pca_limits c ∧
  (∀ k r, pca_peers c' !! k = Some r → k = TransportIdentity_as_str peer ∨ is_Some (pca_peers c !! k)).
Proof.
  intros Hc. unfold PeerCache_record_success. simpl.
  destruct (bounded "address" address CACHE_MAX_ADDRESS_BYTES) as [[]|e] eqn:Eb; simpl; [|by naive_solver].
  apply bounded_Ok in Eb. set (k := TransportIdentity_as_str peer).
  set (old := default (MkPeerRecord k [] now now None []) (pca_peers c !! k)).
  assert (pr_peer_id old = k ∧ record_ok (pca_limits c) old) as [Hk Hold].
  { subst old. destruct (pca_peers c !! k) as [r|] eqn:E; simpl; [split; [by eapply ci_keys|by eapply ci_records]|].
    split; [done|]. constructor; simpl; try done; rewrite ?len_nil; lia. }
  set (r := MkPeerRecord _ _ _ _ _ _).
  assert (record_ok (pca_limits c) r) as Hr.
  { destruct Hold as [A1 A2 A3 A4 A5]. constructor; simpl; try done.
    - apply len_ntake_le.
    - by apply place_address_ok.
    - lia. }
  destruct (insert_inv c k r true Hc Hk Hr) as [Hall _].
  destruct (cap_evicts (with_cached c (<[k := r]> (pca_peers c)) true) now) as (L & S & Sub & _ & _); [by intros j s Hs; apply Hall|].
  simpl in *. set (c' := PeerCache_enforce_peer_cap _ _) in *.
  assert (∀ j s, pca_peers c' !! j = Some s → (<[k := r]> (pca_peers c)) !! j = Some s) as Hin.
  { intros j s. by apply map_subseteq_spec. }
  split_and!; [|done|].
  - constructor; rewrite ?L //; intros j s Hs%Hin; by destruct (Hall _ _ Hs).
  - intros j s Hs%Hin. apply lookup_insert_Some in Hs as [[<- _]|[_ Hs]]; [by left|right; by exists s].
Qed.
Lemma record_failure_inv c peer now : cache_inv c →
  let c' := PeerCache_record_failure c peer now in
  cache_inv c' ∧ pca_limits c' = pca_limits c ∧ (∀ k r, pca_peers c' !! k = Some r → is_Some (pca_peers c !! k)).
Proof.
  intros Hc. unfold PeerCache_record_failure. simpl.
  destruct (pca_peers c !! TransportIdentity_as_str peer) as [r|] eqn:E; [|by naive_solver].
  pose proof (ci_records c Hc _ _ E) as [A1 A2 A3 A4 A5].
  set (r' := MkPeerRecord _ _ _ _ _ _). destruct (insert_inv c (TransportIdentity_as_str peer) r' true Hc) as [_ Hi].
  { exact (ci_keys c Hc _ _ E). }
  { by constructor. }
  split_and!; [apply Hi; by eexists|done|]. simpl. intros k s [[<- _]|[_ Hs]]%lookup_insert_Some; by eexists.
Qed.
Lemma record_capability_inv c peer o : cache_inv c →
  let c' := (PeerCache_record_capability c peer o).2 in
  cache_inv c' ∧ pca_limits c' = pca_limits c ∧ (∀ k r, pca_peers c' !! k = Some r → is_Some (pca_peers c !! k)).
Proof.
  intros Hc. unfold PeerCache_record_capability. simpl.
  destruct (result_bind _ _) as [[]|e] eqn:Eb; [|by simpl; naive_solver].
  apply result_bind_Ok in Eb as ([] & B1 & Eb). apply result_bind_Ok in Eb as ([] & B2 & B3).
  destruct (pca_peers c !! TransportIdentity_as_str peer) as [r|] eqn:E; [|by simpl; naive_solver]. simpl.
  pose proof (ci_records c Hc _ _ E) as [A1 A2 A3 A4 A5].
  set (r' := MkPeerRecord _ _ _ _ _ _). destruct (insert_inv c (TransportIdentity_as_str peer) r' true Hc) as [_ Hi].
  { exact (ci_keys c Hc _ _ E). }
  { constructor; simpl; try done; [apply len_ntake_le|]. apply place_capability_ok; [|done].
    split_and!; eapply bounded_Ok; eassumption. }
  split_and!; [apply Hi; by eexists|done|]. simpl. intros k s [[<- _]|[_ Hs]]%lookup_insert_Some; by eexists.
Qed.
Lemma compact_inv c now : cache_inv c →
  let c' := (PeerCache_compact c now).2 in
  cache_inv c' ∧ pca_limits c' = pca_limits c ∧ (∀ k r, pca_peers c' !! k = Some r → is_Some (pca_peers c !! k)).
Proof.
  intros [H1 H2 H3]. simpl. split_and!; [|done|].
  - constructor; simpl.
    + etrans; [|exact H1]. assert (size (filter (λ kr : bytes * PeerRecord, peer_fresh c now kr.2 = true) (pca_peers c)) ≤ size (pca_peers c))%nat; [|lia].
      rewrite -!size_dom. apply subseteq_size. apply dom_filter_subseteq.
    + intros k r [Hr _]%map_lookup_filter_Some. by apply H2.
    + intros k r [Hr _]%map_lookup_filter_Some. by eapply H3.
  - intros k r [Hr _]%map_lookup_filter_Some. by exists r.
Qed.

(** ** Histories *)

Inductive cache_op :=
| CacheSuccess (peer : TransportIdentity) (address : bytes) (now : N)
| CacheFailure (peer : TransportIdentity) (now : N)
| CacheCapability (peer : TransportIdentity) (o : ProtocolCapabilityObservation)
| CacheCompact (now : N)
| CacheFlush (io : WriteIo) (path temp : bytes) (now : N)
| CacheFlushIfDue (io : WriteIo) (path temp : bytes) (now : N).

Section history.
Variable dec : N → bytes → option bytes.
Variable from_str : bytes → result CacheFile SerdeError.
Variable to_vec : CacheFile → result bytes SerdeError.

Definition cache_step (w : PeerCache * gmap bytes bytes) (op : cache_op) : PeerCache * gmap bytes bytes :=
  let '(c, fs) := w in
  match op with
  | CacheSuccess peer address now => ((PeerCache_record_success c peer address now).2, fs)
  | CacheFailure peer now => (PeerCache_record_failure c peer now, fs)
  | CacheCapability peer o => ((PeerCache_record_capability c peer o).2, fs)
  | CacheCompact now => ((PeerCache_compact c now).2, fs)
  | CacheFlush io path temp now => let '(_, c, fs) := PeerCache_flush to_vec c io path temp now fs in (c, fs)
  | CacheFlushIfDue io path temp now =>
      let '(_, c, fs) := PeerCache_flush_if_due to_vec c io path temp now fs in (c, fs)
  end.
(** Only identities the code has parsed reach the cache. *)
Definition cache_op_valid (op : cache_op) : bool :=
  match op with
  | CacheSuccess peer _ _ => is_ok (TransportIdentity_parse dec (TransportIdentity_as_str peer))
  | _ => true
  end.

Definition cache_good (limits : CacheLimits) (c : PeerCache) : Prop :=
  cache_inv c ∧ pca_limits c = limits ∧ (∀ k r, pca_peers c !! k = Some r → id_valid dec k).

Lemma write_peers c io path temp now fs out c' fs' : PeerCache_write_file to_vec c io path temp now fs = (out, c', fs') →
  pca_peers c' = pca_peers c ∧ pca_limits c' = pca_limits c ∧ pca_health c' = pca_health c.
Proof.
  unfold PeerCache_write_file. destruct (to_vec (cache_file c)) as [json|]; [|by intros [= <- <- <-]].
  destruct (_ <? _); [by intros [= <- <- <-]|]. destruct (wi_create_dir io); [|by intros [= <- <- <-]].
  destruct (publish_via_temp _ _ _ _ _) as [published fs1].
  destruct (result_bind _ _); by intros [= <- <- <-].
Qed.
Lemma flush_peers c io path temp now fs out c' fs' : PeerCache_flush to_vec c io path temp now fs = (out, c', fs') →
  pca_peers c' = pca_peers c ∧ pca_limits c' = pca_limits c.
Proof.
  unfold PeerCache_flush. destruct (PeerCache_write_file _ _ _ _ _ _ _) as [[o c1] fs1] eqn:E. intros [= <- <- <-].
  simpl. by apply write_peers in E as (-> & -> & _).
Qed.
Lemma same_good limits c c' : pca_peers c' = pca_peers c → pca_limits c' = pca_limits c →
  cache_good limits c → cache_good limits c'.
Proof.
  intros Ep El ([H1 H2 H3] & H4 & H5). split_and!; [constructor|..]; rewrite ?Ep ?El //.
Qed.
Lemma cache_step_good limits c fs op : cache_good limits c → cache_op_valid op = true →
  cache_good limits (cache_step (c, fs) op).1.
Proof.
  intros (Hc & Hl & Hi) Hv. destruct op as [peer address now|peer now|peer o|now|io path temp now|io path temp now]; simpl.
  - destruct (record_success_inv c peer address now Hc) as (H1 & H2 & H3). split_and!; [done|congruence|].
    intros k r Hk. destruct (H3 _ _ Hk) as [->|[s Hs]]; [done|by eapply Hi].
  - destruct (record_failure_inv c peer now Hc) as (H1 & H2 & H3). split_and!; [done|congruence|].
    intros k r [s Hs]%H3. by eapply Hi.
  - destruct (record_capability_inv c peer o Hc) as (H1 & H2 & H3). split_and!; [done|congruence|].
    intros k r [s Hs]%H3. by eapply Hi.
  - destruct (compact_inv c now Hc) as (H1 & H2 & H3). split_and!; [done|done|].
    intros k r [s Hs]%H3. by eapply Hi.
  - destruct (PeerCache_flush to_vec c io path temp now fs) as [[out c1] fs1] eqn:E. simpl.
    apply flush_peers in E as [E1 E2]. by apply (same_good _ c).
  - unfold PeerCache_flush_if_due. destruct (negb _); [done|].
    destruct (PeerCache_flush to_vec c io path temp now fs) as [[out c1] fs1] eqn:E. simpl.
    apply flush_peers in E as [E1 E2]. by apply (same_good _ c).
Qed.
Lemma cache_run_good limits w ops : cache_good limits w.1 → forallb cache_op_valid ops = true →
  cache_good limits (foldl cache_step w ops).1.
Proof.
  revert w. induction ops as [|op ops IH]; intros [c fs] Hw Hv; [done|]. simpl in Hv. apply andb_true_iff in Hv as [H1 H2].
  cbn [foldl]. apply IH; [|done]. by apply cache_step_good.
Qed.

(** *** Loading *)

Lemma loads_lookup (l : list PeerRecord) (m : gmap bytes PeerRecord) k r :
  foldl (λ m r, <[pr_peer_id r := r]> m) m l !! k = Some r → (r ∈ l ∧ pr_peer_id r = k) ∨ m !! k = Some r.
Proof.
  revert m. induction l as [|x l IH]; intros m; [by right|]. simpl. intros [[??]|H]%IH; [left; split; [by right|done]|].
  apply lookup_insert_Some in H as [[<- <-]|[_ H]]; [left; split; [by left|done]|by right].
Qed.
Lemma loads_size (l : list PeerRecord) (m : gmap bytes PeerRecord) :
  N.of_nat (size (foldl (λ m r, <[pr_peer_id r := r]> m) m l)) ≤ N.of_nat (size m) + len l.
Proof.
  revert m. induction l as [|x l IH]; intros m; [simpl; lia|]. simpl. rewrite len_cons. etrans; [apply IH|].
  rewrite map_size_insert. case_match; simpl; lia.
Qed.
Lemma admit_file_good limits text m : admit_file dec from_str limits text = Ok m →
  cache_good limits (MkPeerCache limits m CacheHealthy false None).
Proof.
  unfold admit_file. destruct (from_str text) as [file|]; [|done]. destruct (_ =? _); [|done].
  destruct (N.ltb_spec (cl_max_peers limits) (len (cf_peers file))) as [|Hn]; [done|].
  intros ([] & Hv & [= <-])%result_bind_Ok. apply map_err_Ok, validate_records_Ok in Hv. rewrite -> Forall_forall in Hv.
  assert (∀ k r, foldl (λ (m : gmap bytes PeerRecord) r, <[pr_peer_id r := r]> m) ∅ (cf_peers file) !! k = Some r →
    r ∈ cf_peers file ∧ pr_peer_id r = k) as H.
  { intros k r [?|Hr]%loads_lookup; [done|]. by rewrite lookup_empty in Hr. }
  split_and!; [constructor|done|]; simpl.
  - pose proof (loads_size (cf_peers file) ∅) as Hs. rewrite map_size_empty in Hs. lia.
  - intros k r Hk. by apply H.
  - intros k r [Hr _]%H. by apply (Hv r).
  - intros k r [Hr <-]%H. by apply (Hv r).
Qed.
Lemma empty_good limits h : cache_good limits (MkPeerCache limits ∅ h false None).
Proof. split_and!; [constructor|done|]; simpl; try done. rewrite map_size_empty. lia. Qed.
Lemma load_good io limits c : PeerCache_load dec from_str io limits = Ok c → cache_good limits c.
Proof.
  assert (∀ reason, PeerCache_quarantine io (MkPeerCache limits ∅ CacheHealthy false None) reason = Ok c → cache_good limits c) as Hq.
  { intros reason. unfold PeerCache_quarantine. simpl. repeat case_match; intros; simplify_eq; apply empty_good. }
  unfold PeerCache_load. destruct (li_metadata io) as [size|[]]; [|intros [= <-]; apply empty_good|apply Hq].
  destruct (_ <? _); [apply Hq|]. destruct (read_capped _ _) as [[text|]|]; [|intros [= <-]; apply empty_good|apply Hq].
  destruct (admit_file dec from_str limits text) as [m|] eqn:E; [|apply Hq]. intros [= <-]. by eapply admit_file_good.
Qed.

(** *** Writing *)

Lemma publish_spec io temp path json fs out fs' : temp ≠ path →
  publish_via_temp io temp path json fs = (out, fs') →
  match out with
  | Ok _ => fs' = <[path := json]> fs
  | Err _ => fs' = fs ∨ (fs !! temp = None ∧ is_ok (wi_remove io) = false ∧ delete temp fs' = fs)
  end.
Proof.
  intros Hne. unfold publish_via_temp. destruct (wi_create_new io); [|intros [= <- <-]; by left].
  destruct (fs !! temp) as [old|] eqn:Et; [intros [= <- <-]; by left|].
  assert (∀ b, delete temp (<[temp := b]> fs) = fs) as Hd.
  { intros b. rewrite delete_insert_eq. by apply delete_id. }
  assert (∀ b e, (Err (A := ()) e, match wi_remove io with Ok _ => delete temp (<[temp := b]> fs) | Err _ => <[temp := b]> fs end) = (out, fs') →
    match out with Ok _ => fs' = <[path := json]> fs
    | Err _ => fs' = fs ∨ (fs !! temp = None ∧ is_ok (wi_remove io) = false ∧ delete temp fs' = fs) end) as Hfail.
  { intros b e [= <- <-]. destruct (wi_remove io); [left; apply Hd|right]. by rewrite Hd. }
  rewrite Et in Hfail. destruct (wi_write_all io) as [[]|[e n]]; [|apply Hfail]. destruct (wi_sync io); simpl; [|apply Hfail].
  destruct (wi_rename io); [|apply Hfail]. intros [= <- <-]. by rewrite Hd.
Qed.
Lemma write_spec c io path temp now fs out c' fs' : temp ≠ path →
  PeerCache_write_file to_vec c io path temp now fs = (out, c', fs') →
  (∃ json, to_vec (cache_file c) = Ok json ∧ len json ≤ MAX_CACHE_FILE_BYTES ∧ fs' = <[path := json]> fs) ∨
  (is_ok out = false ∧ (fs' = fs ∨ (fs !! temp = None ∧ is_ok (wi_remove io) = false ∧ delete temp fs' = fs))).
Proof using to_vec.
  intros Hne. unfold PeerCache_write_file. destruct (to_vec (cache_file c)) as [json|e]; [|intros [= <- <- <-]; by (right; split; [|left])].
  destruct (N.ltb_spec MAX_CACHE_FILE_BYTES (len json)); [intros [= <- <- <-]; by (right; split; [|left])|].
  destruct (wi_create_dir io); [|intros [= <- <- <-]; by (right; split; [|left])].
  destruct (publish_via_temp io temp path json fs) as [published fs1] eqn:Ep.
  pose proof (publish_spec _ _ _ _ _ _ _ Hne Ep) as Hp. destruct published as [[]|e]; simpl.
  - subst fs1. destruct (result_bind _ _); intros [= <- <- <-]; left; by eexists.
  - intros [= <- <- <-]. by right.
Qed.
End history.

(** What a load meets where no call fails: the file as it is. *)
Definition load_io (fs : gmap bytes bytes) (path : bytes) : LoadIo :=
  match fs !! path with
  | Some b => MkLoadIo (Ok (len b)) (Contents b) (Ok ())
  | None => MkLoadIo (Err NotFound) (OpenFailed NotFound) (Ok ())
  end.
Lemma loads_file (m : gmap bytes PeerRecord) : (∀ k r, m !! k = Some r → pr_peer_id r = k) →
  foldl (λ (m : gmap bytes PeerRecord) r, <[pr_peer_id r := r]> m) ∅ (btree_to_list m).*2 = m.
Proof.
  intros Hk. assert (∀ (l : list (bytes * PeerRecord)) (a : gmap bytes PeerRecord), (∀ k r, (k, r) ∈ l → pr_peer_id r = k) →
    foldl (λ m r, <[pr_peer_id r := r]> m) a l.*2 = foldl (λ m (kr : bytes * PeerRecord), <[kr.1 := kr.2]> m) a l) as H1.
  { induction l as [|[k r] l IH]; intros a Hl; [done|]. simpl. rewrite (Hl k r); [|by left]. apply IH.
    intros k' r' ?. apply Hl. by right. }
  rewrite H1; [|intros k r Hin%elem_of_btree_to_list; by apply Hk].
  assert (∀ (l : list (bytes * PeerRecord)) (a : gmap bytes PeerRecord), NoDup l.*1 →
    foldl (λ m (kr : bytes * PeerRecord), <[kr.1 := kr.2]> m) a l = list_to_map l ∪ a) as H2.
  { induction l as [|[k r] l IH]; intros a Hn; simpl; [by rewrite map_empty_union|]. apply NoDup_cons in Hn as [Hkn Hn].
    rewrite IH //. rewrite -insert_union_r; [|by apply not_elem_of_list_to_map]. by rewrite insert_union_l. }
  rewrite H2; [|apply NoDup_btree_keys]. rewrite map_union_empty. apply map_eq. intros k.
  destruct (m !! k) as [r|] eqn:E.
  - apply elem_of_list_to_map; [apply NoDup_btree_keys|]. by apply elem_of_btree_to_list.
  - apply not_elem_of_list_to_map. intros ([k' r] & -> & Hin%elem_of_btree_to_list)%list_elem_of_fmap. simpl in *. congruence.
Qed.

(** C17: a cache never writes a file it cannot read. Whatever file it was
    loaded from, whatever was observed, forgotten, flushed or failed to flush
    since, when a write succeeds the next load of that file under the same limits
    is not quarantined and holds exactly the peers written. [serde_json] enters
    with two laws: the text it prints is UTF-8, and it reads back as the value
    printed. *)
Theorem cache_file_reloads (dec : N → bytes → option bytes) (from_str : bytes → result CacheFile SerdeError)
    (to_vec : CacheFile → result bytes SerdeError) (limits : CacheLimits) (io0 : LoadIo) (c0 c c' : PeerCache)
    (ops : list cache_op) (io : WriteIo) (path temp : bytes) (now : N) (fs0 fs fs' : gmap bytes bytes) :
  (∀ f json, to_vec f = Ok json → utf8_valid json = true) →
  (∀ f json, to_vec f = Ok json → from_str json = Ok f) →
  PeerCache_load dec from_str io0 limits = Ok c0 → forallb (cache_op_valid dec) ops = true →
  foldl (cache_step to_vec) (c0, fs0) ops = (c, fs) → temp ≠ path →
  PeerCache_write_file to_vec c io path temp now fs = (Ok (), c', fs') →
  PeerCache_load dec from_str (load_io fs' path) limits = Ok (MkPeerCache limits (pca_peers c) CacheHealthy false None).
Proof.
  intros Hutf Hrt Hl Hv Hr Hne Hw. pose proof (load_good _ _ _ _ _ Hl) as Hg.
  pose proof (cache_run_good dec to_vec limits (c0, fs0) ops Hg Hv) as (Hinv & Hlim & Hids). rewrite Hr in Hinv, Hlim, Hids. simpl in *.
  destruct (write_spec _ _ _ _ _ _ _ _ _ _ Hne Hw) as [(json & Ej & Hsz & ->)|[? _]]; [|done].
  unfold PeerCache_load, load_io. rewrite lookup_insert_eq. cbn [li_metadata li_read].
  rewrite (proj2 (N.ltb_ge _ _)) //. unfold read_capped.
  assert (ntake (sat_add u64_max MAX_CACHE_FILE_BYTES 1) json = json) as ->.
  { unfold ntake. apply take_ge. assert (MAX_CACHE_FILE_BYTES ≤ sat_add u64_max MAX_CACHE_FILE_BYTES 1) by by vm_compute.
    unfold len in Hsz. lia. }
  rewrite (proj2 (N.ltb_ge _ _)) // (Hutf _ _ Ej). unfold admit_file. rewrite (Hrt _ _ Ej). cbn [cache_file cf_version cf_peers].
  rewrite N.eqb_refl. rewrite (proj2 (N.ltb_ge _ _)).
  - rewrite (_ : validate_records dec _ limits = Ok ()); [simpl; rewrite loads_file //; apply (ci_keys c Hinv)|].
    apply validate_records_Ok, Forall_forall. intros r ([k r'] & -> & Hin%elem_of_btree_to_list)%list_elem_of_fmap. simpl.
    split; [rewrite (ci_keys c Hinv _ _ Hin); by eapply Hids|]. rewrite -Hlim. by eapply (ci_records c Hinv).
  - pose proof (ci_size c Hinv) as Hs. rewrite Hlim in Hs. unfold len. by rewrite length_fmap length_btree_to_list.
Qed.

(** C18: whichever step of a write fails, the cache file is whole: it holds what
    it held before, or all of what was written and no more than a load reads. No
    other file is touched, a temporary name that already exists is left alone,
    and one this write created stays behind only if the file system refuses to
    remove it. *)
Theorem cache_write_whole (to_vec : CacheFile → result bytes SerdeError) (c c' : PeerCache) (io : WriteIo)
    (path temp : bytes) (now : N) (fs fs' : gmap bytes bytes) (out : result () CacheError) : temp ≠ path →
  PeerCache_write_file to_vec c io path temp now fs = (out, c', fs') →
  (∃ json, to_vec (cache_file c) = Ok json ∧ len json ≤ MAX_CACHE_FILE_BYTES ∧ fs' = <[path := json]> fs) ∨
  (is_ok out = false ∧ (fs' = fs ∨ (fs !! temp = None ∧ is_ok (wi_remove io) = false ∧ delete temp fs' = fs))).
Proof. apply write_spec. Qed.

(** what the cache gives up is the least useful of what it holds. From any
    cache a history of observations can build, recording a success leaves at most
    the configured number of peers, evicts nobody while there is room, and
    never evicts a peer while it keeps one that has expired when the evicted
    one has not, or, of the same freshness, one that worked less recently. *)
Theorem cache_evicts_least_useful (dec : N → bytes → option bytes) (from_str : bytes → result CacheFile SerdeError)
    (to_vec : CacheFile → result bytes SerdeError) (limits : CacheLimits) (io0 : LoadIo) (c0 c : PeerCache)
    (ops : list cache_op) (fs0 fs : gmap bytes bytes) (peer : TransportIdentity) (address : bytes) (now : N) :
  PeerCache_load dec from_str io0 limits = Ok c0 → forallb (cache_op_valid dec) ops = true →
  foldl (cache_step to_vec) (c0, fs0) ops = (c, fs) →
  let c' := (PeerCache_record_success c peer address now).2 in
  PeerCache_len c' ≤ cl_max_peers limits ∧
  (PeerCache_len c < cl_max_peers limits → ∀ k, is_Some (pca_peers c !! k) → is_Some (pca_peers c' !! k)) ∧
  (∀ k r j s, k ≠ TransportIdentity_as_str peer → pca_peers c !! k = Some r → pca_peers c' !! k = None →
     pca_peers c' !! j = Some s →
     (peer_fresh c now r = true → peer_fresh c now s = true) ∧
     (peer_fresh c now r = peer_fresh c now s → pr_last_success_ms r ≤ pr_last_success_ms s)).
Proof.
  intros Hl Hv Hr. pose proof (load_good _ _ _ _ _ Hl) as Hg.
  pose proof (cache_run_good dec to_vec limits (c0, fs0) ops Hg Hv) as (Hinv & Hlim & _). rewrite Hr in Hinv, Hlim. simpl in *.
  apply record_success_evicts; done.
Qed.

(** ** Concrete histories *)

Definition cache_dec (_ : N) (_ : bytes) : option bytes :=
  Some ([x00; x24; x08; x01; x12; x20] ++ replicate 32 x00).
Definition cache_p1 : TransportIdentity :=
  MkTransportIdentity (bs "12D3KooWDpJ7As7BWAwRMfu1VU2WCqNjvq387JEYKDBj4kx6nXTN").
Definition cache_p2 : TransportIdentity :=
  MkTransportIdentity (bs "12D3KooWK99VoVxNE7XzyBwXEzW7xhK7Gpv85r9F3V3fyKSUKPH5").
Definition cache_p3 : TransportIdentity :=
  MkTransportIdentity (bs "12D3KooWK99VoVxNE7XzyBwXEzW7xhK7Gpv85r9F3V3fyKSUKPH6").
Definition two_peers : CacheLimits := MkCacheLimits 1000 2 8 16 5000.
Definition empty_cache : PeerCache := MkPeerCache two_peers ∅ CacheHealthy false None.
Definition no_file : LoadIo := MkLoadIo (Err NotFound) (OpenFailed NotFound) (Ok ()).
Definition all_well : WriteIo := MkWriteIo (Ok ()) (Ok ()) (Ok ()) (Ok ()) (Ok ()) (Ok ()) (Ok ()) (Ok ()).
Definition cache_ops : list cache_op :=
  [CacheSuccess cache_p1 (bs "/ip4/10.0.0.1/tcp/1") 100; CacheSuccess cache_p2 (bs "/ip4/10.0.0.2/tcp/1") 200;
   CacheFailure cache_p1 250;
   CacheCapability cache_p2 (MkCapability KAD_PROTOCOL_FAMILY 1 (bs "ssbtblqj7mexczivog5qfbfjvi") KAD_SERVER_ROLE true 210)].
Definition no_json (_ : CacheFile) : result bytes SerdeError := Err (SerdeFailed 0).
Definition built_cache : PeerCache := (foldl (cache_step no_json) (empty_cache, ∅) cache_ops).1.
Definition one_json (f : CacheFile) : result bytes SerdeError :=
  if decide (f = cache_file built_cache) then Ok (bs "{}") else Err (SerdeFailed 0).
Definition read_json (_ : bytes) : result CacheFile SerdeError := Ok (cache_file built_cache).
Definition written_fs : gmap bytes bytes :=
  (PeerCache_write_file one_json built_cache all_well (bs "peers.json") (bs "tmp") 300 ∅).2.

Lemma triple_eta {A B C} (x : A * B * C) (a : A) : x.1.1 = a → x = (a, x.1.2, x.2).
Proof. by destruct x as [[??]?]; simpl; intros ->. Qed.
Lemma cache_file_reloads_witness :
  PeerCache_load cache_dec read_json (load_io written_fs (bs "peers.json")) two_peers =
    Ok (MkPeerCache two_peers (pca_peers built_cache) CacheHealthy false None) ∧
  size (pca_peers built_cache) = 2%nat.
Proof.
  split; [|by vm_compute].
  apply (cache_file_reloads cache_dec read_json one_json two_peers no_file empty_cache built_cache
           (PeerCache_write_file one_json built_cache all_well (bs "peers.json") (bs "tmp") 300 ∅).1.2
           cache_ops all_well (bs "peers.json") (bs "tmp") 300 ∅ ∅ written_fs).
  - intros f json. unfold one_json. case_decide; [|done]. by intros [= <-].
  - intros f json. unfold one_json, read_json. case_decide as E; [|done]. by rewrite E.
  - reflexivity.
  - by vm_compute.
  - vm_compute. reflexivity.
  - done.
  - apply triple_eta. by vm_compute.
Defined.
Definition failed_write : WriteIo :=
  MkWriteIo (Ok ()) (Ok ()) (Err (IoOther 28, 1)) (Ok ()) (Ok ()) (Ok ()) (Ok ()) (Ok ()).
Definition old_fs : gmap bytes bytes := {[bs "peers.json" := bs "old"]}.
Definition failed_result := PeerCache_write_file one_json built_cache failed_write (bs "peers.json") (bs "tmp") 300 old_fs.
Lemma cache_write_whole_witness :
  bool_decide (failed_result.2 = old_fs) = true ∧ is_ok failed_result.1.1 = false ∧
  ((∃ json, one_json (cache_file built_cache) = Ok json ∧ len json ≤ MAX_CACHE_FILE_BYTES ∧
            failed_result.2 = <[bs "peers.json" := json]> old_fs) ∨
   (is_ok failed_result.1.1 = false ∧
    (failed_result.2 = old_fs ∨ (old_fs !! bs "tmp" = None ∧ is_ok (wi_remove failed_write) = false ∧
                          delete (bs "tmp") failed_result.2 = old_fs)))).
Proof.
  split; [by vm_compute|]. split; [by vm_compute|].
  apply (cache_write_whole one_json built_cache failed_result.1.2 failed_write (bs "peers.json") (bs "tmp") 300 old_fs
           failed_result.2 failed_result.1.1); [done|]. by apply triple_eta.
Defined.
Definition after_third : PeerCache := (PeerCache_record_success built_cache cache_p3 (bs "/ip4/10.0.0.3/tcp/1") 300).2.
Lemma cache_evicts_least_useful_witness :
  bool_decide (pca_peers after_third !! TransportIdentity_as_str cache_p1 = None) = true ∧
  bool_decide (is_Some (pca_peers after_third !! TransportIdentity_as_str cache_p2)) = true ∧
  PeerCache_len after_third ≤ 2.
Proof.
  split; [by vm_compute|]. split; [by vm_compute|].
  destruct (cache_evicts_least_useful cache_dec read_json no_json two_peers no_file empty_cache built_cache cache_ops ∅
           (foldl (cache_step no_json) (empty_cache, ∅) cache_ops).2 cache_p3 (bs "/ip4/10.0.0.3/tcp/1") 300
           eq_refl ltac:(by vm_compute) (surjective_pairing _)) as [H _]. exact H.
Defined.
