(* ===== verification/CacheProvider.v ===== *)
(** * The peer cache as a provider

    [crates/discovery/cache/src/provider.rs]: the cache presented through the
    provider trait. Each drain queues the difference between what the consumer
    was last told of a peer and what the cache holds fresh. *)
From S2P Require Import Prelude Ids Payload DiscoveryApi Provider ProviderQueue PeerCache PeerCacheFacts.
Local Open Scope N_scope.

Definition CACHE_MAX_PENDING_EVENTS : N := 2 * CACHE_MAX_PEERS.

Record EmittedRecord := MkEmittedRecord {
  er_expires_at : option N;
  er_addresses : gset bytes;
  er_protocol_observations : gset ProtocolObservation
}.
#[global] Instance EmittedRecord_eq_dec : EqDecision EmittedRecord.
Proof. solve_decision. Defined.
Record PeerCacheDiscovery := MkPeerCacheDiscovery {
  pcd_cache : PeerCache;
  pcd_started : bool;
  pcd_stopped : bool;
  pcd_pending : list (Queued EmittedRecord);
  pcd_emitted : gmap TransportIdentity EmittedRecord
}.
Definition CacheProvider_new (c : PeerCache) : PeerCacheDiscovery := MkPeerCacheDiscovery c false false [] ∅.
Definition with_cache (p : PeerCacheDiscovery) (c : PeerCache) : PeerCacheDiscovery :=
  MkPeerCacheDiscovery c (pcd_started p) (pcd_stopped p) (pcd_pending p) (pcd_emitted p).
Definition with_pending (p : PeerCacheDiscovery) (l : list (Queued EmittedRecord)) : PeerCacheDiscovery :=
  MkPeerCacheDiscovery (pcd_cache p) (pcd_started p) (pcd_stopped p) l (pcd_emitted p).

Definition cache_alive (p : PeerCacheDiscovery) : bool := pcd_started p && negb (pcd_stopped p).
Definition CacheProvider_health (p : PeerCacheDiscovery) : ProviderHealth :=
  if negb (pcd_started p) || pcd_stopped p then Unavailable
  else match pca_health (pcd_cache p) with
       | CacheHealthy => Healthy
       | Quarantined _ _ | WriteFailing _ => Degraded
       end.
Definition report_health_change (p : PeerCacheDiscovery) (before : ProviderHealth) : PeerCacheDiscovery :=
  let after := CacheProvider_health p in
  if negb (bool_decide (after = before)) && cache_alive p
  then with_pending p (pcd_pending p ++ [MkQueued (HealthChanged CACHE_SOURCE after) None])
  else p.

(** *** The difference *)

Definition emitted_of (c : CandidatePeer) : EmittedRecord :=
  MkEmittedRecord (cand_expires_at c) (cand_addresses c) (cand_protocol_observations c).
(** A queued observation of [peer]. *)
Definition is_mine (peer : TransportIdentity) (q : Queued EmittedRecord) : bool :=
  match qd_event q with CandidateObserved c => bool_decide (cand_peer_id c = peer) | _ => false end.
(** What the cache dropped is retracted. *)
Definition retract_dropped (c : CandidatePeer) (previously : option EmittedRecord)
    (pending : list (Queued EmittedRecord)) : list (Queued EmittedRecord) :=
  match previously with
  | Some prev =>
      let dropped := er_addresses prev ∖ cand_addresses c in
      if bool_decide (dropped = ∅) then pending
      else pending ++ [MkQueued (CandidateExpired (cand_peer_id c) CACHE_SOURCE dropped) previously]
  | None => pending
  end.
(** A newer snapshot replaces an undelivered one and inherits what it would undo. *)
Definition supersede (c : CandidatePeer) (previously : option EmittedRecord)
    (pending : list (Queued EmittedRecord)) : list (Queued EmittedRecord) :=
  let before := match List.find (is_mine (cand_peer_id c)) pending with
                | Some q => qd_before q
                | None => previously
                end in
  filter (λ q, is_mine (cand_peer_id c) q = false) pending ++ [MkQueued (CandidateObserved c) before].
Definition refresh_candidate (emitted : gmap TransportIdentity EmittedRecord)
    (st : list (Queued EmittedRecord) * gmap TransportIdentity EmittedRecord) (c : CandidatePeer) :
    list (Queued EmittedRecord) * gmap TransportIdentity EmittedRecord :=
  let '(pending, live) := st in
  let record := emitted_of c in
  let previously := emitted !! cand_peer_id c in
  let pending := retract_dropped c previously pending in
  (if bool_decide (previously = Some record) then pending else supersede c previously pending,
   <[cand_peer_id c := record]> live).
(** A peer gone from the cache is an expiry. *)
Definition lapsed_peers (emitted live : gmap TransportIdentity EmittedRecord) : list (Queued EmittedRecord) :=
  omap (λ pr, if bool_decide (live !! pr.1 = None)
              then Some (MkQueued (CandidateExpired pr.1 CACHE_SOURCE ∅) (Some pr.2)) else None)
    (btree_to_list emitted).

Section provider.
Variable bs58_decode_onto : N → bytes → option bytes.
Variable serde_json_to_vec_pretty : CacheFile → result bytes SerdeError.

(** The queue and the record before the bound is enforced. *)
Definition cache_difference (p : PeerCacheDiscovery) (now_ms : N) :
    list (Queued EmittedRecord) * gmap TransportIdentity EmittedRecord :=
  let '(pending, live) :=
    foldl (refresh_candidate (pcd_emitted p)) (pcd_pending p, ∅)
      (PeerCache_candidates bs58_decode_onto (pcd_cache p) now_ms) in
  (pending ++ lapsed_peers (pcd_emitted p) live, live).
Definition CacheProvider_refresh (p : PeerCacheDiscovery) (now_ms : N) : PeerCacheDiscovery :=
  if negb (pcd_started p) || pcd_stopped p then p
  else
    let '(pending, live) := cache_difference p now_ms in
    let '(pending, emitted) := enforce_pending_bound CACHE_MAX_PENDING_EVENTS pending live in
    MkPeerCacheDiscovery (pcd_cache p) (pcd_started p) (pcd_stopped p) pending emitted.

Definition CacheProvider_descriptor (p : PeerCacheDiscovery) : ProviderDescriptor :=
  MkProviderDescriptor CACHE_SOURCE PROVIDER_INTERFACE_VERSION None ScopeConfigured Passive true true.
Definition CacheProvider_start (p : PeerCacheDiscovery) (now_ms : N) : result () ProviderError * PeerCacheDiscovery :=
  if pcd_started p then (Err AlreadyStarted, p)
  else
    let health := match pca_health (pcd_cache p) with CacheHealthy => Healthy | _ => Degraded end in
    let p := MkPeerCacheDiscovery (pcd_cache p) true (pcd_stopped p)
               (pcd_pending p ++ [MkQueued (HealthChanged CACHE_SOURCE health) None]) (pcd_emitted p) in
    (Ok (), CacheProvider_refresh p now_ms).
Definition CacheProvider_drain_events (p : PeerCacheDiscovery) (now_ms max : N) :
    list DiscoveryEvent * PeerCacheDiscovery :=
  if negb (pcd_started p) || pcd_stopped p then ([], p)
  else
    let p := CacheProvider_refresh p now_ms in
    let '(out, pending) := drain_front max (pcd_pending p) in
    (qd_event <$> out, with_pending p pending).
Definition CacheProvider_add_hint (p : PeerCacheDiscovery) (hint : PeerHint) (now_ms : N) :
    HintDisposition * PeerCacheDiscovery :=
  if negb (pcd_started p) || pcd_stopped p then (HintUnsupported, p)
  else match hint with
  | ObservedReachable peer_id address observed_at =>
      let '(answer, c) := PeerCache_record_success (pcd_cache p) peer_id address (N.min observed_at now_ms) in
      (match answer with
       | Ok _ => HintAccepted
       | Err _ => HintRejected (DiscInvalidLength "address" (len address) CACHE_MAX_ADDRESS_BYTES)
       end, with_cache p c)
  | ObservedProtocol peer_id protocol_id supported observed_at =>
      match parse_kad_server_protocol_id (ProtocolId_as_str protocol_id) with
      | None => (HintUnsupported, p)
      | Some (wire_major, network_hash) =>
          let o := MkCapability KAD_PROTOCOL_FAMILY wire_major network_hash KAD_SERVER_ROLE supported
                     (N.min observed_at now_ms) in
          let '(answer, c) := PeerCache_record_capability (pcd_cache p) peer_id o in
          (match answer with
           | Ok _ => HintAccepted
           | Err (OutOfBounds field got max) => HintRejected (DiscInvalidLength field got max)
           | Err _ => HintRejected (DiscInvalidLength "network_hash" (len network_hash) MAX_LABEL_BYTES)
           end, with_cache p c)
      end
  | CandidateHint _ => (HintUnsupported, p)
  end.
Definition CacheProvider_shutdown (p : PeerCacheDiscovery) (now_ms : N) : PeerCacheDiscovery :=
  MkPeerCacheDiscovery (pcd_cache p) (pcd_started p) true [] ∅.
Definition CacheProvider_flush (p : PeerCacheDiscovery) (io : WriteIo) (path temp : bytes) (now_ms : N)
    (fs : gmap bytes bytes) : result () CacheError * PeerCacheDiscovery * gmap bytes bytes :=
  let before := CacheProvider_health p in
  let '(outcome, c, fs) := PeerCache_flush serde_json_to_vec_pretty (pcd_cache p) io path temp now_ms fs in
  (outcome, report_health_change (with_cache p c) before, fs).
Definition CacheProvider_flush_if_due (p : PeerCacheDiscovery) (io : WriteIo) (path temp : bytes) (now_ms : N)
    (fs : gmap bytes bytes) : result bool CacheError * PeerCacheDiscovery * gmap bytes bytes :=
  let before := CacheProvider_health p in
  let '(outcome, c, fs) := PeerCache_flush_if_due serde_json_to_vec_pretty (pcd_cache p) io path temp now_ms fs in
  (outcome, report_health_change (with_cache p c) before, fs).

#[global] Instance CacheProvider_provider : DiscoveryProvider PeerCacheDiscovery := {
  descriptor := CacheProvider_descriptor;
  start := CacheProvider_start;
  drain_events := CacheProvider_drain_events;
  add_hint := CacheProvider_add_hint;
  health := CacheProvider_health;
  shutdown := CacheProvider_shutdown
}.
End provider.

(** ** The contract *)

Definition times_ok (c : PeerCache) : Prop := ∀ k r, pca_peers c !! k = Some r → pr_last_success_ms r ≤ u64_max.
Lemma record_success_times c peer address now : cache_inv c → now ≤ u64_max → times_ok c →
  times_ok (PeerCache_record_success c peer address now).2.
Proof.
  intros Hc Hn Ht. unfold PeerCache_record_success.
  destruct (bounded "address" address CACHE_MAX_ADDRESS_BYTES) as [[]|e]; [|done]. cbn [snd].
  set (k := TransportIdentity_as_str peer). set (r := MkPeerRecord _ _ _ _ _ _).
  destruct (cap_evicts (with_cached c (<[k := r]> (pca_peers c)) true) now) as (_ & _ & Sub & _).
  { cbn [pca_peers with_cached]. intros j s [[<- <-]|[_ Hs]]%lookup_insert_Some; [|by eapply (ci_keys c Hc)]. subst r k. simpl.
    destruct (pca_peers c !! _) eqn:E; [exact (ci_keys c Hc _ _ E)|done]. }
  intros j s Hs. eapply map_subseteq_spec in Hs; [|exact Sub]. cbn [pca_peers with_cached] in Hs.
  apply lookup_insert_Some in Hs as [[_ <-]|[_ Hs]]; [|by eapply Ht]. subst r. simpl.
  destruct (pca_peers c !! k) as [old|] eqn:E; simpl; [pose proof (Ht _ _ E)|]; lia.
Qed.
Lemma record_capability_times c peer o : times_ok c → times_ok (PeerCache_record_capability c peer o).2.
Proof.
  intros Ht. unfold PeerCache_record_capability. destruct (result_bind _ _); [|done].
  destruct (pca_peers c !! TransportIdentity_as_str peer) as [r|] eqn:E; [|done].
  unfold times_ok. cbn [snd pca_peers with_cached]. intros j s [[_ <-]|[_ Hs]]%lookup_insert_Some; [exact (Ht _ _ E)|by eapply Ht].
Qed.

Lemma record_candidate_ok dec limits now r c : limits_ok limits → record_ok limits r → pr_last_success_ms r ≤ u64_max →
  record_candidate dec limits now r = Some c → deliverable CACHE_SOURCE (CandidateObserved c).
Proof.
  intros (_ & Ha & _ & _) [A1 A2 A3 A4 A5] Ht. unfold record_candidate. destruct (PeerRecord_is_fresh_at _ _ _); [|done].
  destruct (TransportIdentity_parse dec (pr_peer_id r)) as [p|]; [|done]. intros [= <-]. split; [done|].
  apply candidate_valid; simpl; [|etrans; [apply size_list_to_set_le|apply len_ntake_le]|done|].
  - split.
    + etrans; [apply size_list_to_set_le|]. unfold len in *. rewrite length_fmap. unfold CACHE_MAX_ADDRESSES_PER_PEER in Ha.
      unfold MAX_ADDRESSES. lia.
    + intros a. rewrite elem_of_list_to_set list_elem_of_fmap. intros (o & -> & Ho).
      rewrite -> Forall_forall in A2. specialize (A2 o Ho). unfold observation_ok, label_ok, is_bounded_label in A2.
      apply andb_true_iff in A2 as [[H1 H2]%andb_true_iff _]. apply negb_true_iff, N.eqb_neq in H1. apply N.leb_le in H2.
      split; [lia|exact H2].
  - intros t [= <-]. unfold PeerRecord_expires_at_ms, sat_add. lia.
Qed.

Definition cache_ready (c : PeerCache) : Prop := cache_inv c ∧ limits_ok (pca_limits c) ∧ times_ok c.
Definition cache_provider_ok (p : PeerCacheDiscovery) : Prop :=
  cache_ready (pcd_cache p) ∧ Forall (λ q, deliverable CACHE_SOURCE (qd_event q)) (pcd_pending p).

Lemma candidates_ok dec c now : cache_ready c →
  Forall (λ x, deliverable CACHE_SOURCE (CandidateObserved x)) (PeerCache_candidates dec c now).
Proof.
  intros (H1 & H2 & H3). apply Forall_forall. intros x (r & Hr & Hx)%list_elem_of_omap.
  apply list_elem_of_fmap in Hr as ([k r'] & -> & Hin%elem_of_btree_to_list).
  eapply record_candidate_ok; [done|by eapply ci_records|by eapply H3|exact Hx].
Qed.
Lemma refresh_candidate_pending emitted st c (P : DiscoveryEvent → Prop) : P (CandidateObserved c) →
  (∀ s, P (CandidateExpired (cand_peer_id c) CACHE_SOURCE s)) →
  Forall (λ q, P (qd_event q)) st.1 → Forall (λ q, P (qd_event q)) (refresh_candidate emitted st c).1.
Proof.
  intros Ho He Hst. destruct st as [pending live]. simpl in *.
  assert (Forall (λ q, P (qd_event q)) (retract_dropped c (emitted !! cand_peer_id c) pending)) as Hr.
  { unfold retract_dropped. destruct (emitted !! cand_peer_id c); [|done]. case_bool_decide; [done|].
    apply Forall_app. split; [done|]. apply Forall_singleton, He. }
  case_bool_decide; [done|]. unfold supersede. apply Forall_app. split; [|by apply Forall_singleton].
  eapply Forall_sublist; [apply sublist_filter|done].
Qed.
Lemma difference_pending dec p now : cache_provider_ok p →
  Forall (λ q, deliverable CACHE_SOURCE (qd_event q)) (cache_difference dec p now).1.
Proof.
  intros [Hc Hp]. pose proof (candidates_ok dec _ now Hc) as Hf. unfold cache_difference.
  assert (∀ st, Forall (λ q, deliverable CACHE_SOURCE (qd_event q)) st.1 →
    Forall (λ q, deliverable CACHE_SOURCE (qd_event q))
      (foldl (refresh_candidate (pcd_emitted p)) st (PeerCache_candidates dec (pcd_cache p) now)).1) as H.
  { induction Hf as [|c l Hcand Hl IH]; intros st Hst; [done|]. simpl. apply IH.
    by apply (refresh_candidate_pending _ _ _ (deliverable CACHE_SOURCE)). }
  specialize (H (pcd_pending p, ∅) Hp).
  destruct (foldl _ _ _) as [pending live]. simpl in *. apply Forall_app. split; [done|].
  apply Forall_forall. intros q ([k r] & _ & E)%list_elem_of_omap. simpl in E. case_bool_decide; by simplify_eq.
Qed.
Lemma cache_refresh_ok dec p now : cache_provider_ok p → cache_provider_ok (CacheProvider_refresh dec p now) ∧
  pcd_started (CacheProvider_refresh dec p now) = pcd_started p ∧
  pcd_stopped (CacheProvider_refresh dec p now) = pcd_stopped p.
Proof.
  intros Hp. unfold CacheProvider_refresh. destruct (negb _ || _); [done|].
  pose proof (difference_pending dec p now Hp) as Hd. destruct (cache_difference dec p now) as [pending live]. simpl in Hd.
  pose proof (enforce_sublist CACHE_MAX_PENDING_EVENTS pending live) as Hs.
  destruct (enforce_pending_bound _ pending live) as [pending' emitted]. simpl in *. split_and!; try done.
  split; [apply Hp|]. simpl. by eapply Forall_sublist.
Qed.
Lemma cache_refresh_life dec p now : pcd_started (CacheProvider_refresh dec p now) = pcd_started p ∧
  pcd_stopped (CacheProvider_refresh dec p now) = pcd_stopped p.
Proof.
  unfold CacheProvider_refresh. destruct (negb _ || _); [done|]. destruct (cache_difference dec p now) as [pending live].
  by destruct (enforce_pending_bound _ pending live).
Qed.
Lemma hint_cache_ok p h now : now ≤ u64_max → cache_provider_ok p →
  cache_provider_ok (CacheProvider_add_hint p h now).2 ∧
  pcd_started (CacheProvider_add_hint p h now).2 = pcd_started p ∧
  pcd_stopped (CacheProvider_add_hint p h now).2 = pcd_stopped p.
Proof.
  intros Hn [(Hc & Hl & Ht) Hp]. assert (cache_provider_ok p) as Hok by by split. unfold CacheProvider_add_hint.
  destruct (negb _ || _); [done|]. destruct h as [peer a at_|peer id sup at_|c]; [| |done].
  - pose proof (record_success_inv (pcd_cache p) peer a (N.min at_ now) Hc) as (H1 & H2 & _).
    pose proof (record_success_times (pcd_cache p) peer a (N.min at_ now) Hc ltac:(lia) Ht) as H3.
    destruct (PeerCache_record_success _ _ _ _) as [ans c]. simpl in *. split_and!; try done. split; [|done].
    split_and!; [done|by rewrite H2|done].
  - destruct (parse_kad_server_protocol_id _) as [[m h]|]; [|done]. set (o := MkCapability _ _ _ _ _ _).
    pose proof (record_capability_inv (pcd_cache p) peer o Hc) as (H1 & H2 & _).
    pose proof (record_capability_times (pcd_cache p) peer o Ht) as H3.
    destruct (PeerCache_record_capability _ _ _) as [ans c]. simpl in *. split_and!; try done. split; [|done].
    split_and!; [done|by rewrite H2|done].
Qed.
Lemma cache_drain_ok dec p now max : cache_provider_ok p →
  cache_provider_ok (CacheProvider_drain_events dec p now max).2 ∧
  Forall (deliverable CACHE_SOURCE) (CacheProvider_drain_events dec p now max).1.
Proof.
  intros Hp. unfold CacheProvider_drain_events. destruct (negb _ || _); [by split; [|constructor]|].
  destruct (cache_refresh_ok dec p now Hp) as ([Hc Hd] & _ & _). simpl. split.
  - split; [done|]. simpl. eapply Forall_sublist; [apply sublist_drop|done].
  - apply Forall_fmap. eapply Forall_sublist; [|exact Hd]. apply sublist_take.
Qed.
Lemma cache_start_ok dec p now : cache_provider_ok p → cache_provider_ok (CacheProvider_start dec p now).2.
Proof.
  intros [Hc Hd]. unfold CacheProvider_start. destruct (pcd_started p); [by split|]. simpl.
  apply cache_refresh_ok. split; [done|]. simpl. apply Forall_app. split; [done|]. by apply Forall_singleton.
Qed.

Section contract.
Variable dec : N → bytes → option bytes.
#[local] Existing Instance CacheProvider_provider.
#[global] Program Instance CacheProvider_contract :
    @ProviderContract PeerCacheDiscovery (CacheProvider_provider dec) := {
  provider_ok := cache_provider_ok;
  provider_life p := MkLife (pcd_started p) (pcd_stopped p);
  provider_descriptor := MkProviderDescriptor CACHE_SOURCE PROVIDER_INTERFACE_VERSION None ScopeConfigured Passive true true
}.
Next Obligation. done. Qed.
Next Obligation. by vm_compute. Qed.
Next Obligation. intros p now. apply cache_start_ok. Qed.
Next Obligation. intros p now Hs. simpl in *. unfold CacheProvider_start. by rewrite Hs. Qed.
Next Obligation.
  intros p now Hs. simpl in *. unfold CacheProvider_start. rewrite Hs. simpl. split; [done|].
  by destruct (cache_refresh_life dec (MkPeerCacheDiscovery (pcd_cache p) true (pcd_stopped p)
    (pcd_pending p ++ [MkQueued (HealthChanged CACHE_SOURCE match pca_health (pcd_cache p) with CacheHealthy => Healthy | _ => Degraded end) None])
    (pcd_emitted p)) now) as [-> ->].
Qed.
Next Obligation. intros p now max Hp. by apply cache_drain_ok. Qed.
Next Obligation.
  intros p now max. simpl. unfold CacheProvider_drain_events. destruct (negb _ || _); [done|]. simpl.
  by destruct (cache_refresh_life dec p now) as [-> ->].
Qed.
Next Obligation.
  intros p now max. simpl. unfold CacheProvider_drain_events. destruct (negb _ || _); [simpl; rewrite len_nil; lia|].
  simpl. unfold len. rewrite length_fmap. apply drain_front_len.
Qed.
Next Obligation. intros p now max Hp. by apply cache_drain_ok. Qed.
Next Obligation.
  intros p now max Ha. simpl in *. unfold CacheProvider_drain_events, alive in *. simpl in Ha.
  by destruct (pcd_started p), (pcd_stopped p).
Qed.
Next Obligation. intros p h now Hn Hp. by apply hint_cache_ok. Qed.
Next Obligation.
  intros p h now. simpl. unfold CacheProvider_add_hint. destruct (negb _ || _); [done|].
  destruct h; [| |done].
  - by destruct (PeerCache_record_success _ _ _ _).
  - destruct (parse_kad_server_protocol_id _) as [[??]|]; [|done]. by destruct (PeerCache_record_capability _ _ _).
Qed.
Next Obligation. done. Qed.
Next Obligation.
  intros p Ha. simpl in *. unfold CacheProvider_health, alive in *. simpl in Ha. by destruct (pcd_started p), (pcd_stopped p).
Qed.
Next Obligation. intros p now [Hc Hd]. by split. Qed.
Next Obligation. done. Qed.
Next Obligation. done. Qed.
End contract.
