(* ===== verification/CacheView.v ===== *)
(** * What the cache provider's consumer knows

    The consumer of [CacheProvider] is told differences; here is what they add up
    to. *)
From S2P Require Import Prelude Ids Payload DiscoveryApi Provider ProviderQueue PeerCache PeerCacheFacts CacheProvider.
Local Open Scope N_scope.

(** The lifetime and the protocol facts of the last observation. *)
Abbreviation Word := (option N * gset ProtocolObservation)%type (only parsing).
Definition word1 (w : option Word) (e : DiscoveryEvent) : option Word :=
  match e with
  | CandidateObserved c => Some (cand_expires_at c, cand_protocol_observations c)
  | CandidateExpired _ _ a => if bool_decide (a = ∅) then None else w
  | HealthChanged _ _ => w
  end.
Definition hear_word (words : gmap TransportIdentity Word) (e : DiscoveryEvent) : gmap TransportIdentity Word :=
  match event_peer e with
  | Some p => partial_alter (λ w, word1 w e) p words
  | None => words
  end.
Lemma words_lookup evs (words : gmap TransportIdentity Word) p :
  foldl hear_word words evs !! p = foldl word1 (words !! p) (filter (about p) evs).
Proof.
  apply (foldl_about id hear_word word1). intros m e. unfold hear_word, id. case_decide as Ha; unfold about in Ha.
  - rewrite Ha. by rewrite lookup_partial_alter_eq.
  - destruct (event_peer e) as [q|]; [|done]. rewrite lookup_partial_alter_ne //. congruence.
Qed.

(** ** One peer *)

(** What the record says the consumer was told. *)
Definition told_addresses (r : option EmittedRecord) : gset bytes := from_option er_addresses ∅ r.
Definition told_word (r : option EmittedRecord) : option Word :=
  (λ r, (er_expires_at r, er_protocol_observations r)) <$> r.
(** The queued events about one peer take what was heard to what is recorded. *)
Definition settled (t : gset bytes) (w : option Word) (q : TransportIdentity) (pending : list (Queued EmittedRecord))
    (r : option EmittedRecord) : Prop :=
  foldl hear_set t (filter (about q) (qd_event <$> pending)) = told_addresses r ∧
  foldl word1 w (filter (about q) (qd_event <$> pending)) = told_word r.

Lemma settled_about t w q l k r : filter (about q) (qd_event <$> l) = filter (about q) (qd_event <$> k) →
  settled t w q l r → settled t w q k r.
Proof. unfold settled. by intros ->. Qed.
Lemma retract_other c prev pending q : q ≠ cand_peer_id c →
  filter (about q) (qd_event <$> retract_dropped c prev pending) = filter (about q) (qd_event <$> pending).
Proof.
  intros Hq. unfold retract_dropped. destruct prev; [|done]. case_bool_decide; [done|].
  rewrite fmap_app filter_app. rewrite [filter _ (qd_event <$> [_])]filter_cons_False; [by rewrite filter_nil app_nil_r|].
  unfold about. simpl. congruence.
Qed.
Lemma supersede_other c prev pending q : q ≠ cand_peer_id c →
  filter (about q) (qd_event <$> supersede c prev pending) = filter (about q) (qd_event <$> pending).
Proof.
  intros Hq. unfold supersede. rewrite fmap_app filter_app.
  rewrite [filter _ (qd_event <$> [_])]filter_cons_False; [|unfold about; simpl; congruence]. rewrite filter_nil app_nil_r.
  induction pending as [|x l IH]; [done|]. destruct (is_mine (cand_peer_id c) x) eqn:E.
  - rewrite filter_cons_False; [|by rewrite E]. rewrite IH fmap_cons. rewrite [RHS]filter_cons_False //.
    unfold is_mine in E. unfold about. destruct (qd_event x); [|done|done]. apply bool_decide_eq_true in E. simpl. congruence.
  - rewrite filter_cons_True // !fmap_cons. destruct (decide (about q (qd_event x))).
    + by rewrite !filter_cons_True // IH.
    + by rewrite !filter_cons_False // IH.
Qed.
Lemma supersede_mine c prev pending :
  filter (about (cand_peer_id c)) (qd_event <$> supersede c prev pending) =
    filter (λ e, is_observation e = false) (filter (about (cand_peer_id c)) (qd_event <$> pending)) ++ [CandidateObserved c].
Proof.
  unfold supersede. rewrite fmap_app filter_app. f_equal; [|rewrite filter_cons_True //].
  induction pending as [|x l IH]; [done|]. rewrite fmap_cons. destruct (decide (about (cand_peer_id c) (qd_event x))) as [Ha|Ha].
  - rewrite [filter (about _) (qd_event x :: _)]filter_cons_True //. destruct (is_observation (qd_event x)) eqn:E.
    + rewrite filter_cons_False; [|unfold is_mine, about in *; destruct (qd_event x); [|done|done]; injection Ha as ->; by rewrite bool_decide_true].
      rewrite [RHS]filter_cons_False //. by rewrite E.
    + rewrite filter_cons_True; [|unfold is_mine; by destruct (qd_event x)]. rewrite fmap_cons filter_cons_True // IH.
      by rewrite [RHS]filter_cons_True.
  - rewrite [filter (about _) (qd_event x :: _)]filter_cons_False // -IH. destruct (is_mine (cand_peer_id c) x) eqn:E.
    + rewrite filter_cons_False //. by rewrite E.
    + rewrite filter_cons_True // fmap_cons filter_cons_False //.
Qed.
Lemma settled_candidate t w (emitted : gmap TransportIdentity EmittedRecord) pending c : settled t w (cand_peer_id c) pending (emitted !! cand_peer_id c) →
  settled t w (cand_peer_id c)
    (if bool_decide (emitted !! cand_peer_id c = Some (emitted_of c))
     then retract_dropped c (emitted !! cand_peer_id c) pending
     else supersede c (emitted !! cand_peer_id c) (retract_dropped c (emitted !! cand_peer_id c) pending))
    (Some (emitted_of c)).
Proof.
  set (prev := emitted !! cand_peer_id c). intros [Ha Hw].
  assert (foldl hear_set t (filter (about (cand_peer_id c)) (qd_event <$> retract_dropped c prev pending)) ⊆ cand_addresses c) as Hsub.
  { unfold retract_dropped. destruct prev as [r|]; simpl in Ha; [|rewrite Ha; set_solver].
    case_bool_decide as Hd; [rewrite Ha; set_solver|].
    rewrite fmap_app filter_app [filter _ (qd_event <$> [_])]filter_cons_True // foldl_app Ha. simpl.
    rewrite bool_decide_false //. intros x. rewrite !elem_of_difference. destruct (decide (x ∈ cand_addresses c)); naive_solver. }
  case_bool_decide as Hc.
  - rewrite Hc in Ha Hw. unfold retract_dropped. rewrite Hc /=. rewrite bool_decide_true; [by split|]. set_solver.
  - unfold settled. rewrite supersede_mine !foldl_app. simpl. split; [|done].
    pose proof (hear_fewer (filter (about (cand_peer_id c)) (qd_event <$> retract_dropped c prev pending)) t t ltac:(done)) as Hf.
    set_solver.
Qed.

(** ** One refresh *)

Definition fresh_map (dec : N → bytes → option bytes) (c : PeerCache) (now : N) : gmap TransportIdentity EmittedRecord :=
  foldl (λ m x, <[cand_peer_id x := emitted_of x]> m) ∅ (PeerCache_candidates dec c now).
Definition or_else {A} (x y : option A) : option A := match x with Some a => Some a | None => y end.

Section refresh.
Variable (told : gmap TransportIdentity (gset bytes)) (words : gmap TransportIdentity Word).
Let all_settled (pending : list (Queued EmittedRecord)) (r : TransportIdentity → option EmittedRecord) : Prop :=
  ∀ q, settled (default ∅ (told !! q)) (words !! q) q pending (r q).

Lemma candidates_settled emitted cs pending live : NoDup (cand_peer_id <$> cs) →
  (∀ c, c ∈ cs → live !! cand_peer_id c = None) →
  all_settled pending (λ q, or_else (live !! q) (emitted !! q)) →
  let st := foldl (refresh_candidate emitted) (pending, live) cs in
  all_settled st.1 (λ q, or_else (st.2 !! q) (emitted !! q)) ∧
  st.2 = foldl (λ m x, <[cand_peer_id x := emitted_of x]> m) live cs.
Proof.
  revert pending live. induction cs as [|c cs IH]; intros pending live Hn Hl Hs; [done|].
  rewrite fmap_cons in Hn. apply NoDup_cons in Hn as [Hc Hn]. cbn [foldl refresh_candidate].
  apply IH; [done| |].
  - intros x Hx. rewrite lookup_insert_ne; [apply Hl; by right|]. intros E. apply Hc. rewrite E. apply list_elem_of_fmap. by exists x.
  - intros q. specialize (Hs q). destruct (decide (q = cand_peer_id c)) as [->|Hq].
    + rewrite lookup_insert_eq. apply settled_candidate. by rewrite -> Hl in Hs by by left.
    + rewrite lookup_insert_ne //. eapply settled_about; [|exact Hs].
      case_bool_decide; rewrite ?supersede_other // retract_other //.
Qed.
Lemma lapsed_settled emitted live pending : all_settled pending (λ q, or_else (live !! q) (emitted !! q)) →
  all_settled (pending ++ lapsed_peers emitted live) (λ q, live !! q).
Proof.
  intros Hs q. destruct (Hs q) as [Ha Hw]. unfold settled. rewrite fmap_app filter_app about_events.
  rewrite (about_events q (lapsed_peers emitted live)). unfold lapsed_peers.
  rewrite (about_omap qd_event _ q emitted); [|intros k v x; simpl; case_bool_decide; [|done]; by intros [= <-]].
  rewrite -about_events !foldl_app Ha Hw. destruct (emitted !! q) as [r|] eqn:E; simpl.
  - case_bool_decide as El; simpl; [rewrite El bool_decide_true //|]. by destruct (live !! q).
  - by destruct (live !! q).
Qed.
End refresh.

Lemma candidate_peers dec c now : cache_inv c → NoDup (cand_peer_id <$> PeerCache_candidates dec c now).
Proof.
  intros Hc. unfold PeerCache_candidates.
  assert (NoDup (pr_peer_id <$> (btree_to_list (pca_peers c)).*2)) as Hn.
  { rewrite -list_fmap_compose. rewrite (_ : _ <$> btree_to_list (pca_peers c) = (btree_to_list (pca_peers c)).*1); [apply NoDup_btree_keys|].
    apply list_fmap_ext. intros i [k r] Hi. simpl. apply (ci_keys c Hc). apply elem_of_btree_to_list. by eapply list_elem_of_lookup_2. }
  assert (∀ r x, record_candidate dec (pca_limits c) now r = Some x → TransportIdentity_as_str (cand_peer_id x) = pr_peer_id r) as Hid.
  { intros r x. unfold record_candidate. case_match; [|done].
    destruct (TransportIdentity_parse dec (pr_peer_id r)) as [p|] eqn:E; [|done]. intros [= <-]. simpl.
    by apply TransportIdentity_parse_Ok in E as [-> _]. }
  induction (btree_to_list (pca_peers c)).*2 as [|r l IH]; [by constructor|]. apply NoDup_cons in Hn as [Hr Hn].
  cbn [omap list_omap]. destruct (record_candidate dec (pca_limits c) now r) as [x|] eqn:E; [|by apply IH].
  rewrite fmap_cons. apply NoDup_cons. split; [|by apply IH].
  intros (y & Ey & (r' & Hr' & Hy)%list_elem_of_omap)%list_elem_of_fmap. apply Hr. apply list_elem_of_fmap. exists r'. split; [|done].
  by rewrite -(Hid _ _ E) -(Hid _ _ Hy) Ey.
Qed.
Definition view_settled (told : gmap TransportIdentity (gset bytes)) (words : gmap TransportIdentity Word)
    (p : PeerCacheDiscovery) : Prop :=
  ∀ q, settled (default ∅ (told !! q)) (words !! q) q (pcd_pending p) (pcd_emitted p !! q).
Lemma difference_settled dec told words p now : cache_inv (pcd_cache p) → view_settled told words p →
  (∀ q, settled (default ∅ (told !! q)) (words !! q) q (cache_difference dec p now).1 (fresh_map dec (pcd_cache p) now !! q)) ∧
  (cache_difference dec p now).2 = fresh_map dec (pcd_cache p) now.
Proof.
  intros Hc Hs. unfold cache_difference.
  destruct (candidates_settled told words (pcd_emitted p) (PeerCache_candidates dec (pcd_cache p) now) (pcd_pending p) ∅) as [H1 H2].
  - by apply candidate_peers.
  - intros. apply lookup_empty.
  - intros q. rewrite lookup_empty. apply Hs.
  - fold (fresh_map dec (pcd_cache p) now) in H2. destruct (foldl _ _ _) as [pending live]. simpl in *. subst live.
    split; [|done]. by apply lapsed_settled.
Qed.

(** ** Histories *)

Inductive cprov_op :=
| CpStart (now : N)
| CpDrain (now max : N)
| CpHint (h : PeerHint) (now : N)
| CpFlush (io : WriteIo) (path temp : bytes) (now : N)
| CpFlushIfDue (io : WriteIo) (path temp : bytes) (now : N)
| CpShutdown (now : N).
(** The provider, its file system, and what its consumer has heard. *)
Record cprov_world := MkCprovWorld {
  cw_provider : PeerCacheDiscovery;
  cw_fs : gmap bytes bytes;
  cw_told : gmap TransportIdentity (gset bytes);
  cw_words : gmap TransportIdentity Word
}.

Section history.
Variable dec : N → bytes → option bytes.
Variable to_vec : CacheFile → result bytes SerdeError.

Definition cprov_step (w : cprov_world) (op : cprov_op) : cprov_world :=
  let '(MkCprovWorld p fs told words) := w in
  match op with
  | CpStart now => MkCprovWorld (CacheProvider_start dec p now).2 fs told words
  | CpDrain now max =>
      let '(events, p) := CacheProvider_drain_events dec p now max in
      MkCprovWorld p fs (foldl hear told events) (foldl hear_word words events)
  | CpHint h now => MkCprovWorld (CacheProvider_add_hint p h now).2 fs told words
  | CpFlush io path temp now =>
      let '(_, p, fs) := CacheProvider_flush to_vec p io path temp now fs in MkCprovWorld p fs told words
  | CpFlushIfDue io path temp now =>
      let '(_, p, fs) := CacheProvider_flush_if_due to_vec p io path temp now fs in MkCprovWorld p fs told words
  | CpShutdown now => MkCprovWorld (CacheProvider_shutdown p now) fs told words
  end.
(** Whether a refresh overflows the queue: the start's, with its health report,
    or a drain's. *)
Definition refresh_fits (p : PeerCacheDiscovery) (now : N) : bool :=
  negb (cache_alive p) || (len (cache_difference dec p now).1 <=? CACHE_MAX_PENDING_EVENTS).
Definition started (p : PeerCacheDiscovery) : PeerCacheDiscovery :=
  MkPeerCacheDiscovery (pcd_cache p) true (pcd_stopped p)
    (pcd_pending p ++
     [MkQueued (HealthChanged CACHE_SOURCE match pca_health (pcd_cache p) with CacheHealthy => Healthy | _ => Degraded end) None])
    (pcd_emitted p).
Definition op_fits (p : PeerCacheDiscovery) (op : cprov_op) : bool :=
  match op with
  | CpStart now => pcd_started p || refresh_fits (started p) now
  | CpDrain now _ => refresh_fits p now
  | _ => true
  end.
Fixpoint history_fits (w : cprov_world) (ops : list cprov_op) : bool :=
  match ops with
  | [] => true
  | op :: ops => op_fits (cw_provider w) op && history_fits (cprov_step w op) ops
  end.

Definition cprov_inv (w : cprov_world) : Prop :=
  cache_inv (pcd_cache (cw_provider w)) ∧ heard_ok (cw_told w) ∧
  (pcd_started (cw_provider w) = false →
     pcd_pending (cw_provider w) = [] ∧ pcd_emitted (cw_provider w) = ∅ ∧ cw_told w = ∅ ∧ cw_words w = ∅) ∧
  (cache_alive (cw_provider w) = true → view_settled (cw_told w) (cw_words w) (cw_provider w)).

(** A refresh that fits leaves the record at what is fresh. *)
Lemma refresh_settled told words p now : cache_inv (pcd_cache p) → view_settled told words p → cache_alive p = true →
  refresh_fits p now = true → view_settled told words (CacheProvider_refresh dec p now) ∧
  pcd_emitted (CacheProvider_refresh dec p now) = fresh_map dec (pcd_cache p) now ∧
  pcd_cache (CacheProvider_refresh dec p now) = pcd_cache p.
Proof.
  intros Hc Hs Ha Hf. unfold refresh_fits in Hf. rewrite Ha /= in Hf. apply N.leb_le in Hf.
  destruct (difference_settled dec told words p now Hc Hs) as [H1 H2]. unfold CacheProvider_refresh.
  unfold cache_alive in Ha. apply andb_true_iff in Ha as [-> Hst]. apply negb_true_iff in Hst as ->. simpl.
  destruct (cache_difference dec p now) as [pending live]. simpl in *. rewrite enforce_small //. by subst live.
Qed.
(** A drain hands over a prefix of the refreshed queue. *)
Lemma drain_settled told words p now max : heard_ok told → cache_inv (pcd_cache p) → view_settled told words p → cache_alive p = true →
  refresh_fits p now = true →
  let '(events, p') := CacheProvider_drain_events dec p now max in
  view_settled (foldl hear told events) (foldl hear_word words events) p' ∧
  pcd_emitted p' = fresh_map dec (pcd_cache p) now ∧ pcd_cache p' = pcd_cache p.
Proof.
  intros Ht Hc Hs Ha Hf. destruct (refresh_settled told words p now Hc Hs Ha Hf) as (H1 & H2 & H3).
  unfold CacheProvider_drain_events. pose proof Ha as Ha'. unfold cache_alive in Ha'. apply andb_true_iff in Ha' as [-> Hst].
  apply negb_true_iff in Hst as ->. simpl. set (p1 := CacheProvider_refresh dec p now) in *.
  split_and!; [|done|done]. intros q. specialize (H1 q).
  rewrite -{1}(ntake_ndrop (N.min max (len (pcd_pending p1))) (pcd_pending p1)) in H1.
  unfold settled in *. rewrite fmap_app filter_app !foldl_app in H1. simpl.
  by rewrite words_lookup heard_default.
Qed.
Lemma report_cases p before : report_health_change p before = p ∨
  (cache_alive p = true ∧ ∃ h, report_health_change p before =
     with_pending p (pcd_pending p ++ [MkQueued (HealthChanged CACHE_SOURCE h) None])).
Proof.
  unfold report_health_change. destruct (negb (bool_decide _)); [|by left]. simpl.
  destruct (cache_alive p); [right|by left]. split; [done|by eexists].
Qed.
Lemma flushed_inv p c fs fs' told words before : cache_inv c → cprov_inv (MkCprovWorld p fs told words) →
  cprov_inv (MkCprovWorld (report_health_change (with_cache p c) before) fs' told words).
Proof.
  intros Hc (_ & Ht & H0 & Hs). cbn in *. destruct (report_cases (with_cache p c) before) as [->|(Ha & h & ->)]; [by split_and!|].
  split_and!; cbn; [done|done| |].
  - intros E. unfold cache_alive in Ha. cbn in Ha. by rewrite E in Ha.
  - intros _ q. eapply settled_about; [|apply (Hs Ha)]. cbn [with_pending pcd_pending]. rewrite fmap_app filter_app.
    rewrite [filter _ (qd_event <$> [_])]filter_cons_False //. by rewrite filter_nil app_nil_r.
Qed.
Lemma cprov_step_inv w op : cprov_inv w → op_fits (cw_provider w) op = true → cprov_inv (cprov_step w op).
Proof.
  destruct w as [p fs told words]. intros (Hc & Ht & H0 & Hs) Hf. simpl in *.
  destruct op as [now|now max|h now|io path temp now|io path temp now|now]; cbn [cprov_step].
  - simpl in Hf. unfold CacheProvider_start. fold (started p). destruct (pcd_started p) eqn:Es; [split_and!; cbn; try done; congruence|]. simpl in Hf |- *.
    destruct (H0 eq_refl) as (Hp & He & -> & ->).
    pose proof (cache_refresh_life dec (started p) now) as [L1 L2].
    destruct (cache_alive (started p)) eqn:Ea.
    + destruct (refresh_settled ∅ ∅ (started p) now) as (R1 & R2 & R3); [done| |done|done|].
      { intros q. rewrite !lookup_empty /= Hp He lookup_empty. by split. }
      split_and!; cbn [cw_provider cw_told cw_words]; [by rewrite R3|done|by rewrite L1|done].
    + assert (CacheProvider_refresh dec (started p) now = started p) as ->.
      { unfold CacheProvider_refresh, cache_alive in *. simpl in *. by destruct (pcd_stopped p). }
      split_and!; cbn [cw_provider cw_told cw_words]; try done. by rewrite Ea.
  - simpl in Hf. destruct (cache_alive p) eqn:Ea.
    + pose proof (drain_settled told words p now max Ht Hc (Hs eq_refl) Ea Hf) as Hd.
      pose proof (@drain_life _ (CacheProvider_provider dec) _ p now max) as Hl. simpl in Hl.
      destruct (CacheProvider_drain_events dec p now max) as [events p']. destruct Hd as (D1 & D2 & D3). simpl in Hl.
      injection Hl as L1 L2. split_and!; cbn; [by rewrite D3|by apply hear_heard_ok| |done].
      rewrite L1. unfold cache_alive in Ea. by destruct (pcd_started p).
    + assert (CacheProvider_drain_events dec p now max = ([], p)) as ->.
      { unfold CacheProvider_drain_events, cache_alive in *. by destruct (pcd_started p), (pcd_stopped p). }
      split_and!; cbn [cw_provider cw_told cw_words foldl]; try done. by rewrite Ea.
  - assert (∃ c, (CacheProvider_add_hint p h now).2 = with_cache p c ∧ cache_inv c) as (c & E & Hc').
    { unfold CacheProvider_add_hint. destruct (negb _ || _); [exists (pcd_cache p); by destruct p|].
      destruct h as [peer a at_|peer id sup at_|x]; [| |exists (pcd_cache p); by destruct p].
      - pose proof (record_success_inv (pcd_cache p) peer a (N.min at_ now) Hc) as (H1 & _ & _).
        destruct (PeerCache_record_success _ _ _ _) as [ans c]. by exists c.
      - destruct (parse_kad_server_protocol_id _) as [[m h]|]; [|exists (pcd_cache p); by destruct p].
        pose proof (record_capability_inv (pcd_cache p) peer (MkCapability KAD_PROTOCOL_FAMILY m h KAD_SERVER_ROLE sup (N.min at_ now)) Hc) as (H1 & _ & _).
        destruct (PeerCache_record_capability _ _ _) as [ans c]. by exists c. }
    rewrite E. by split_and!.
  - unfold CacheProvider_flush. destruct (PeerCache_flush _ _ _ _ _ _ _) as [[out c] fs'] eqn:E. apply flush_peers in E as [E1 E2].
    apply (flushed_inv p c fs); [|by split_and!]. destruct Hc as [C1 C2 C3]. constructor; rewrite ?E1 ?E2 //.
  - unfold CacheProvider_flush_if_due, PeerCache_flush_if_due. destruct (negb _).
    { apply (flushed_inv p _ fs); [done|by split_and!]. }
    destruct (PeerCache_flush _ _ _ _ _ _ _) as [[out c] fs'] eqn:E. apply flush_peers in E as [E1 E2].
    apply (flushed_inv p c fs); [|by split_and!]. destruct Hc as [C1 C2 C3]. constructor; rewrite ?E1 ?E2 //.
  - split_and!; cbn; try done.
    + intros Hst. by destruct (H0 Hst) as (_ & _ & ? & ?).
    + unfold cache_alive. cbn. by rewrite andb_false_r.
Qed.
Lemma cprov_run_inv ops w : cprov_inv w → history_fits w ops = true → cprov_inv (foldl cprov_step w ops).
Proof.
  revert w. induction ops as [|op ops IH]; intros w Hw Hf; [done|]. cbn in *. apply andb_true_iff in Hf as [H1 H2].
  apply IH; [|done]. by apply cprov_step_inv.
Qed.
Lemma cprov_new_inv c fs : cache_inv c → cprov_inv (MkCprovWorld (CacheProvider_new c) fs ∅ ∅).
Proof. intros Hc. by split_and!; cbn. Qed.
End history.

(** C16: a consumer of the cache provider knows the cache. From a cache loaded
    under any limits and through any history of hints, flushes, partial drains
    and time, as long as no refresh has overflowed the queue, a drain that leaves
    nothing queued brings the consumer to exactly what the cache holds fresh at
    that moment: the addresses of each fresh peer and of no other, and for each
    the lifetime and the protocol facts it has now. *)
Theorem cache_view_exact (dec : N → bytes → option bytes) (from_str : bytes → result CacheFile SerdeError)
    (to_vec : CacheFile → result bytes SerdeError) (limits : CacheLimits) (io0 : LoadIo) (c0 : PeerCache)
    (fs0 : gmap bytes bytes) (ops : list cprov_op) (w : cprov_world) (now max : N) (events : list DiscoveryEvent)
    (p' : PeerCacheDiscovery) (q : TransportIdentity) :
  PeerCache_load dec from_str io0 limits = Ok c0 →
  foldl (cprov_step dec to_vec) (MkCprovWorld (CacheProvider_new c0) fs0 ∅ ∅) ops = w →
  history_fits dec to_vec (MkCprovWorld (CacheProvider_new c0) fs0 ∅ ∅) (ops ++ [CpDrain now max]) = true →
  cache_alive (cw_provider w) = true →
  CacheProvider_drain_events dec (cw_provider w) now max = (events, p') → pcd_pending p' = [] →
  foldl hear (cw_told w) events !! q = held_as (told_addresses (fresh_map dec (pcd_cache (cw_provider w)) now !! q)) ∧
  foldl hear_word (cw_words w) events !! q = told_word (fresh_map dec (pcd_cache (cw_provider w)) now !! q).
Proof.
  intros Hl Hw Hf Ha Hd Hp. pose proof (load_good _ _ _ _ _ Hl) as (Hc & _ & _).
  assert (∀ w0 ops, history_fits dec to_vec w0 (ops ++ [CpDrain now max]) = true →
    history_fits dec to_vec w0 ops = true ∧ refresh_fits dec (cw_provider (foldl (cprov_step dec to_vec) w0 ops)) now = true) as Hsplit.
  { clear. intros w0 ops. revert w0. induction ops as [|op ops IH]; intros w0; cbn; [by rewrite andb_true_r|].
    intros [H1 H2]%andb_true_iff. rewrite H1. by apply IH. }
  apply Hsplit in Hf as [Hf1 Hf2]. rewrite Hw in Hf2.
  pose proof (cprov_run_inv dec to_vec ops _ (cprov_new_inv c0 fs0 Hc) Hf1) as Hi. rewrite Hw in Hi.
  destruct Hi as (Hci & Ht & _ & Hs).
  pose proof (drain_settled dec (cw_told w) (cw_words w) (cw_provider w) now max Ht Hci (Hs Ha) Ha Hf2) as H. rewrite Hd in H.
  destruct H as (D1 & D2 & _). destruct (D1 q) as [A B]. rewrite Hp /= D2 in A, B. split; [|done].
  rewrite (hear_heard_ok _ _ Ht q). by rewrite A.
Qed.

(** ** A concrete history *)

Definition kad_id : ProtocolId := MkProtocolId (bs "/interweave/kad/1.0.0/ssbtblqj7mexczivog5qfbfjvi").
Definition view_ops : list cprov_op :=
  [CpStart 0; CpHint (ObservedReachable cache_p1 (bs "/ip4/10.0.0.1/tcp/1") 100) 100; CpDrain 150 1;
   CpHint (ObservedReachable cache_p2 (bs "/ip4/10.0.0.2/tcp/1") 200) 200;
   CpHint (ObservedProtocol cache_p2 kad_id true 200) 200; CpDrain 250 2;
   CpHint (ObservedReachable cache_p3 (bs "/ip4/10.0.0.3/tcp/1") 300) 300].
Definition view_world : cprov_world :=
  foldl (cprov_step cache_dec no_json) (MkCprovWorld (CacheProvider_new empty_cache) ∅ ∅ ∅) view_ops.
Definition view_drain : list DiscoveryEvent * PeerCacheDiscovery :=
  CacheProvider_drain_events cache_dec (cw_provider view_world) 350 100.
Lemma cache_view_exact_witness :
  bool_decide (foldl hear (cw_told view_world) view_drain.1 !! cache_p2 = Some {[bs "/ip4/10.0.0.2/tcp/1"]}) = true ∧
  bool_decide (foldl hear (cw_told view_world) view_drain.1 !! cache_p1 = None) = true ∧
  (foldl hear (cw_told view_world) view_drain.1 !! cache_p2 =
     held_as (told_addresses (fresh_map cache_dec (pcd_cache (cw_provider view_world)) 350 !! cache_p2)) ∧
   foldl hear_word (cw_words view_world) view_drain.1 !! cache_p2 =
     told_word (fresh_map cache_dec (pcd_cache (cw_provider view_world)) 350 !! cache_p2)).
Proof.
  split; [by vm_compute|]. split; [by vm_compute|].
  apply (cache_view_exact cache_dec read_json no_json two_peers no_file empty_cache ∅ view_ops view_world 350 100
           view_drain.1 view_drain.2 cache_p2).
  - reflexivity.
  - reflexivity.
  - by vm_compute.
  - by vm_compute.
  - apply surjective_pairing.
  - by vm_compute.
Defined.
