(* ===== verification/Mdns.v ===== *)
(** * Candidates of the local network

    [crates/discovery/mdns/src/lib.rs]: what a multicast backend observed,
    normalized and bounded before any of it is reported. Anybody on the network
    can produce its input. *)
From S2P Require Import Prelude Ids DiscoveryApi Provider ProviderQueue.
Local Open Scope N_scope.

Definition MDNS_SOURCE : bytes := bs "mdns".
Definition MDNS_MAX_PEERS : N := 256.
Definition MDNS_MAX_ADDRESSES_PER_PEER : N := 8.
Definition REFRESH_INTERVAL_MS : N := 30000.
Definition OBSERVATION_TTL_MS : N := 120000.
Definition MDNS_MAX_PENDING_EVENTS : N := (MDNS_MAX_ADDRESSES_PER_PEER + 1) * MDNS_MAX_PEERS.

(** The lapse of each address held for a peer. *)
Abbreviation Held := (gmap bytes N) (only parsing).
Record MdnsDiscovery := MkMdnsDiscovery {
  md_seen : gmap TransportIdentity Held;
  md_last_emitted : gmap TransportIdentity N;
  md_started : bool;
  md_stopped : bool;
  md_backend_up : bool;
  md_pending : list DiscoveryEvent
}.
Definition Mdns_new : MdnsDiscovery := MkMdnsDiscovery ∅ ∅ false false true [].
Definition Mdns_peer_count (m : MdnsDiscovery) : N := N.of_nat (size (md_seen m)).
Definition with_seen (m : MdnsDiscovery) (s : gmap TransportIdentity Held) : MdnsDiscovery :=
  MkMdnsDiscovery s (md_last_emitted m) (md_started m) (md_stopped m) (md_backend_up m) (md_pending m).
Definition with_last_emitted (m : MdnsDiscovery) (l : gmap TransportIdentity N) : MdnsDiscovery :=
  MkMdnsDiscovery (md_seen m) l (md_started m) (md_stopped m) (md_backend_up m) (md_pending m).
Definition with_queue (m : MdnsDiscovery) (l : list DiscoveryEvent) : MdnsDiscovery :=
  MkMdnsDiscovery (md_seen m) (md_last_emitted m) (md_started m) (md_stopped m) (md_backend_up m) l.
Definition mdns_running (m : MdnsDiscovery) : bool := md_started m && negb (md_stopped m).

Definition Mdns_health (m : MdnsDiscovery) : ProviderHealth :=
  if negb (md_started m) || md_stopped m then Unavailable
  else if md_backend_up m then Healthy else Degraded.

(** ** The queue *)

(** The peer of a dropped observation is owed one. *)
Definition roll_back (last : gmap TransportIdentity N) (e : DiscoveryEvent) : gmap TransportIdentity N :=
  match e with CandidateObserved c => delete (cand_peer_id c) last | _ => last end.
Definition Mdns_enforce_pending_bound (m : MdnsDiscovery) : MdnsDiscovery :=
  if len (md_pending m) <=? MDNS_MAX_PENDING_EVENTS then m
  else
    let '(dropped, kept) := drop_excess id (len (md_pending m) - MDNS_MAX_PENDING_EVENTS) (md_pending m) in
    with_last_emitted (with_queue m kept) (foldl roll_back (md_last_emitted m) dropped).

(** Only the latest undrained health state. *)
Definition Mdns_queue_health (m : MdnsDiscovery) : MdnsDiscovery :=
  if negb (md_started m) || md_stopped m then m
  else Mdns_enforce_pending_bound
         (with_queue m (filter (λ e, is_health e = false) (md_pending m) ++
                        [HealthChanged MDNS_SOURCE (Mdns_health m)])).

(** An expiry contradicts a queued observation of the address and absorbs the
    peer's queued expiries. *)
Definition contradict (peer : TransportIdentity) (address : bytes) (e : DiscoveryEvent) : option DiscoveryEvent :=
  match e with
  | CandidateObserved c =>
      if bool_decide (cand_peer_id c = peer) then
        let rest := cand_addresses c ∖ {[address]} in
        if bool_decide (rest = ∅) then None
        else Some (CandidateObserved (MkCandidatePeer (cand_peer_id c) rest (cand_source c) (cand_observed_at c)
                                        (cand_expires_at c) (cand_protocol_observations c)))
      else Some e
  | CandidateExpired p _ _ => if bool_decide (p = peer) then None else Some e
  | HealthChanged _ _ => Some e
  end.
Definition absorbed (peer : TransportIdentity) (e : DiscoveryEvent) : gset bytes :=
  match e with CandidateExpired p _ a => if bool_decide (p = peer) then a else ∅ | _ => ∅ end.
(** [while merged.len() > max]: the first in order goes. *)
Definition cap_merged (merged : gset bytes) : gset bytes :=
  list_to_set (ndrop (N.of_nat (size merged) - MDNS_MAX_ADDRESSES_PER_PEER) (bset_to_list merged)).
Definition Mdns_queue_expiry (peer : TransportIdentity) (m : MdnsDiscovery) (address : bytes) : MdnsDiscovery :=
  let merged := {[address]} ∪ ⋃ (absorbed peer <$> md_pending m) in
  Mdns_enforce_pending_bound
    (with_queue m (omap (contradict peer address) (md_pending m) ++
                   [CandidateExpired peer MDNS_SOURCE (cap_merged merged)])).

(** One group of addresses per deadline. *)
Definition group_by_deadline (held : Held) (now_ms : N) : gmap N (gset bytes) :=
  foldl (λ groups ae, if now_ms <? ae.2
                      then <[ae.2 := {[ae.1]} ∪ default ∅ (groups !! ae.2)]> groups else groups)
    ∅ (btree_to_list held).
(** A re-announcement replaces queued observations and withdraws queued expiries. *)
Definition reannounce (peer : TransportIdentity) (live : gset bytes) (e : DiscoveryEvent) : option DiscoveryEvent :=
  match e with
  | CandidateObserved c => if bool_decide (cand_peer_id c = peer) then None else Some e
  | CandidateExpired p source a =>
      if bool_decide (p = peer)
      then let rest := a ∖ live in if bool_decide (rest = ∅) then None else Some (CandidateExpired p source rest)
      else Some e
  | HealthChanged _ _ => Some e
  end.
Definition mdns_observation (peer : TransportIdentity) (now_ms : N) (g : N * gset bytes) : DiscoveryEvent :=
  CandidateObserved (MkCandidatePeer peer g.2 MDNS_SOURCE now_ms (Some g.1) ∅).
Definition Mdns_queue_observation (m : MdnsDiscovery) (peer : TransportIdentity) (now_ms : N) : MdnsDiscovery :=
  match md_seen m !! peer with
  | None => m
  | Some held =>
      let groups := group_by_deadline held now_ms in
      if bool_decide (groups = ∅) then m
      else
        let live := ⋃ (btree_to_list groups).*2 in
        let m := with_last_emitted m (<[peer := now_ms]> (md_last_emitted m)) in
        Mdns_enforce_pending_bound
          (with_queue m (omap (reannounce peer live) (md_pending m) ++
                         (mdns_observation peer now_ms <$> btree_to_list groups)))
  end.

(** ** Lapsing *)

Definition gone_at (now_ms : N) (held : Held) : list bytes :=
  (filter (λ ae, (ae.2 <=? now_ms) = true) (btree_to_list held)).*1.
Definition Mdns_sweep (m : MdnsDiscovery) (now_ms : N) : MdnsDiscovery :=
  let lapsed := filter (λ pg, pg.2 ≠ []) ((λ ph, (ph.1, gone_at now_ms ph.2)) <$> btree_to_list (md_seen m)) in
  let seen := filter (λ ph, ph.2 ≠ ∅) ((λ held : Held, filter (λ ae, (now_ms <? ae.2) = true) held) <$> md_seen m) in
  let last := filter (λ pl, is_Some (seen !! pl.1)) (md_last_emitted m) in
  foldl (λ m pg, foldl (Mdns_queue_expiry pg.1) m pg.2) (with_last_emitted (with_seen m seen) last) lapsed.

(** ** What the backend reports *)

Section backend.
Variable bs58_decode_onto : N → bytes → option bytes.

Definition Mdns_push_discovered (m : MdnsDiscovery) (peer address : bytes) (now_ms : N) : bool * MdnsDiscovery :=
  if negb (md_started m) || md_stopped m then (false, m)
  else match TransportIdentity_parse bs58_decode_onto peer with
  | Err _ => (false, m)
  | Ok peer_id =>
      if (len address =? 0) || (MAX_ADDRESS_BYTES <? len address) then (false, m)
      else
        let m := Mdns_sweep m now_ms in
        if bool_decide (md_seen m !! peer_id = None) && (MDNS_MAX_PEERS <=? Mdns_peer_count m) then (false, m)
        else
          let held := default ∅ (md_seen m !! peer_id) in
          if bool_decide (held !! address = None) && (MDNS_MAX_ADDRESSES_PER_PEER <=? N.of_nat (size held))
          then (false, with_seen m (<[peer_id := held]> (md_seen m)))
          else
            let expires_at := sat_add u64_max now_ms OBSERVATION_TTL_MS in
            let refreshed := bool_decide (is_Some (held !! address)) in
            let m := with_seen m (<[peer_id := <[address := expires_at]> held]> (md_seen m)) in
            let due := match md_last_emitted m !! peer_id with
                       | Some last => REFRESH_INTERVAL_MS <=? sat_sub now_ms last
                       | None => true
                       end in
            (true, if negb refreshed || due then Mdns_queue_observation m peer_id now_ms else m)
  end.
Definition Mdns_push_expired (m : MdnsDiscovery) (peer address : bytes) (now_ms : N) : bool * MdnsDiscovery :=
  if negb (md_started m) || md_stopped m then (false, m)
  else match TransportIdentity_parse bs58_decode_onto peer with
  | Err _ => (false, m)
  | Ok peer_id =>
      match md_seen m !! peer_id with
      | None => (false, m)
      | Some held =>
          match held !! address with
          | None => (false, m)
          | Some _ =>
              let held := delete address held in
              let m := if bool_decide (held = ∅)
                       then with_last_emitted (with_seen m (delete peer_id (md_seen m)))
                              (delete peer_id (md_last_emitted m))
                       else with_seen m (<[peer_id := held]> (md_seen m)) in
              (true, Mdns_queue_expiry peer_id m address)
          end
      end
  end.
End backend.

Definition with_backend (m : MdnsDiscovery) (up : bool) : MdnsDiscovery :=
  MkMdnsDiscovery (md_seen m) (md_last_emitted m) (md_started m) (md_stopped m) up (md_pending m).
Definition Mdns_report_backend_down (m : MdnsDiscovery) (now_ms : N) : MdnsDiscovery :=
  if md_backend_up m then Mdns_queue_health (with_backend m false) else m.
Definition Mdns_report_backend_up (m : MdnsDiscovery) (now_ms : N) : MdnsDiscovery :=
  if negb (md_backend_up m) then Mdns_queue_health (with_backend m true) else m.

(** ** The provider *)

Definition Mdns_descriptor (m : MdnsDiscovery) : ProviderDescriptor :=
  MkProviderDescriptor MDNS_SOURCE PROVIDER_INTERFACE_VERSION None ScopeLocal Passive true false.
Definition Mdns_start (m : MdnsDiscovery) (now_ms : N) : result () ProviderError * MdnsDiscovery :=
  if md_started m then (Err AlreadyStarted, m)
  else (Ok (), MkMdnsDiscovery (md_seen m) (md_last_emitted m) true (md_stopped m) (md_backend_up m)
                 (md_pending m ++ [HealthChanged MDNS_SOURCE (if md_backend_up m then Healthy else Degraded)])).
(** Owed peers are requeued while there is room for a whole one. *)
Fixpoint regenerate (m : MdnsDiscovery) (owed : list TransportIdentity) (now_ms : N) : MdnsDiscovery :=
  match owed with
  | [] => m
  | peer :: owed =>
      if MDNS_MAX_PENDING_EVENTS <? len (md_pending m) + MDNS_MAX_ADDRESSES_PER_PEER then m
      else regenerate (Mdns_queue_observation m peer now_ms) owed now_ms
  end.
Definition owed_peers (m : MdnsDiscovery) : list TransportIdentity :=
  filter (λ p, md_last_emitted m !! p = None) (btree_to_list (md_seen m)).*1.
Definition Mdns_drain_events (m : MdnsDiscovery) (now_ms max : N) : list DiscoveryEvent * MdnsDiscovery :=
  if negb (md_started m) || md_stopped m then ([], m)
  else
    let m := Mdns_sweep m now_ms in
    let m := regenerate m (owed_peers m) now_ms in
    let '(out, pending) := drain_front max (md_pending m) in
    (out, with_queue m pending).
Definition Mdns_add_hint (m : MdnsDiscovery) (hint : PeerHint) (now_ms : N) : HintDisposition * MdnsDiscovery :=
  (HintUnsupported, m).
Definition Mdns_shutdown (m : MdnsDiscovery) (now_ms : N) : MdnsDiscovery :=
  MkMdnsDiscovery ∅ ∅ (md_started m) true (md_backend_up m) [].

#[global] Instance Mdns_provider : DiscoveryProvider MdnsDiscovery := {
  descriptor := Mdns_descriptor;
  start := Mdns_start;
  drain_events := Mdns_drain_events;
  add_hint := Mdns_add_hint;
  health := Mdns_health;
  shutdown := Mdns_shutdown
}.
