(* ===== verification/MdnsFacts.v ===== *)
(** * What the mDNS provider guarantees

    Its state is bounded whatever the network sends, and no address it holds is
    lost to its consumer, even when the queue overflows. *)
From S2P Require Import Prelude Ids DiscoveryApi Provider ProviderQueue Mdns.
Local Open Scope N_scope.

(** ** What a consumer of the queue hears of one peer *)

Definition heard (told : gmap TransportIdentity (gset bytes)) (p : TransportIdentity) (l : list DiscoveryEvent) :
    gset bytes := foldl hear_set (default ∅ (told !! p)) (filter (about p) l).

Lemma hear_about (p : TransportIdentity) (s : gset bytes) (l : list DiscoveryEvent) :
  foldl hear_set s (filter (about p) l) = foldl (λ s e, if decide (about p e) then hear_set s e else s) s l.
Proof.
  revert s. induction l as [|e l IH]; intros s; [done|]. cbn [foldl]. case_decide.
  - rewrite filter_cons_True //. cbn [foldl]. by rewrite IH.
  - by rewrite filter_cons_False // IH.
Qed.
(** Rewriting a queue event by event keeps an address that no rewriting touches. *)
Lemma heard_omap (p : TransportIdentity) (b : bytes) (f : DiscoveryEvent → option DiscoveryEvent) (l : list DiscoveryEvent)
    (s t : gset bytes) :
  (∀ e (s t : gset bytes), e ∈ l → (b ∈ s → b ∈ t) →
     b ∈ (if decide (about p e) then hear_set s e else s) →
     b ∈ from_option (λ e, if decide (about p e) then hear_set t e else t) t (f e)) →
  (b ∈ s → b ∈ t) → b ∈ foldl hear_set s (filter (about p) l) → b ∈ foldl hear_set t (filter (about p) (omap f l)).
Proof.
  rewrite !hear_about. revert s t. induction l as [|e l IH]; intros s t Hf Hst; [done|]. cbn [foldl omap list_omap].
  specialize (Hf e s t ltac:(left)) as He. intros Hb.
  assert (∀ t', (b ∈ (if decide (about p e) then hear_set s e else s) → b ∈ t') →
    b ∈ foldl (λ s e, if decide (about p e) then hear_set s e else s) t' (omap f l)) as Hk.
  { intros t' Ht'. eapply IH; [|exact Ht'|exact Hb]. intros. eapply Hf; [by right|done|done]. }
  destruct (f e) as [e'|]; simpl in *; apply Hk; by apply He.
Qed.
Lemma heard_app told p l k : heard told p (l ++ k) = foldl hear_set (heard told p l) (filter (about p) k).
Proof. unfold heard. by rewrite filter_app foldl_app. Qed.
(** Dropping events that are not observations of the peer leaves it more. *)
Lemma heard_drop (p : TransportIdentity) (n : N) (l : list DiscoveryEvent) (s t : gset bytes) : s ⊆ t →
  Forall (λ e, about p e → is_observation e = false) (drop_excess id n l).1 →
  foldl hear_set s (filter (about p) l) ⊆ foldl hear_set t (filter (about p) (drop_excess id n l).2).
Proof.
  rewrite !hear_about. revert n s t. induction l as [|e l IH]; intros n s t Hst; [done|]. cbn [drop_excess id].
  destruct ((0 <? n) && negb (is_health e)).
  - specialize (IH (n - 1)). destruct (drop_excess id (n - 1) l) as [d k]. simpl in *. intros [He Hd]%Forall_cons.
    apply IH; [|done]. case_decide as Ha; [|done]. specialize (He Ha). destruct e as [c|q src a|src h]; [done| |done]. simpl.
    case_bool_decide; set_solver.
  - specialize (IH n). destruct (drop_excess id n l) as [d k]. simpl in *. intros Hd. apply IH; [|done].
    case_decide; [|done]. by apply hear_set_mono.
Qed.

(** ** The invariant *)

Definition held_addresses (m : MdnsDiscovery) (p : TransportIdentity) : gset bytes := dom (default ∅ (md_seen m !! p)).
(** A queued event: an observation names only addresses it may name, an expiry
    none that is held. *)
Definition mdns_event_ok (allowed : TransportIdentity → gset bytes) (m : MdnsDiscovery) (e : DiscoveryEvent) : Prop :=
  match e with
  | CandidateObserved c =>
      cand_source c = MDNS_SOURCE ∧ cand_protocol_observations c = ∅ ∧ cand_addresses c ⊆ allowed (cand_peer_id c) ∧
      (∀ t, cand_expires_at c = Some t → cand_observed_at c ≤ t)
  | CandidateExpired p source a =>
      source = MDNS_SOURCE ∧ a ≠ ∅ ∧ N.of_nat (size a) ≤ MDNS_MAX_ADDRESSES_PER_PEER ∧ a ## held_addresses m p
  | HealthChanged source _ => source = MDNS_SOURCE
  end.
(** [queue_inv] holds while an operation is under way; the bound on the queue is
    restored by the trim. *)
Record queue_inv (allowed : TransportIdentity → gset bytes) (told : gmap TransportIdentity (gset bytes))
    (m : MdnsDiscovery) : Prop := MkQueueInv {
  qi_peers : N.of_nat (size (md_seen m)) ≤ MDNS_MAX_PEERS;
  qi_held p h : md_seen m !! p = Some h → h ≠ ∅;
  qi_allowed p : held_addresses m p ⊆ allowed p ∧ N.of_nat (size (allowed p)) ≤ MDNS_MAX_ADDRESSES_PER_PEER ∧
    (∀ a, a ∈ allowed p → address_ok a);
  qi_events : Forall (mdns_event_ok allowed m) (md_pending m);
  qi_health : len (filter (λ e, is_health e = true) (md_pending m)) ≤ 1;
  qi_last p : is_Some (md_last_emitted m !! p) → is_Some (md_seen m !! p);
  qi_heard p : is_Some (md_last_emitted m !! p) → held_addresses m p ⊆ heard told p (md_pending m)
}.
Definition mdns_inv (told : gmap TransportIdentity (gset bytes)) (m : MdnsDiscovery) : Prop :=
  queue_inv (held_addresses m) told m ∧ len (md_pending m) ≤ MDNS_MAX_PENDING_EVENTS.

(** *** The trim *)

Lemma roll_back_lookup l (last : gmap TransportIdentity N) p :
  foldl roll_back last l !! p = if existsb (λ e, is_observation e && bool_decide (about p e)) l then None else last !! p.
Proof.
  revert last. induction l as [|e l IH]; intros last; [done|]. simpl. rewrite IH.
  destruct e as [c|q src a|src h]; simpl; [|done|done]. case_bool_decide as Ha; unfold about in Ha; simpl in Ha.
  - injection Ha as <-. rewrite lookup_delete_eq. by destruct (existsb _ l).
  - rewrite lookup_delete_ne //. congruence.
Qed.
Lemma enforce_inv allowed told m : queue_inv allowed told m →
  queue_inv allowed told (Mdns_enforce_pending_bound m) ∧
  len (md_pending (Mdns_enforce_pending_bound m)) ≤ MDNS_MAX_PENDING_EVENTS ∧
  md_seen (Mdns_enforce_pending_bound m) = md_seen m.
Proof.
  intros [H1 H2 H3 H4 H5 H6 H7]. unfold Mdns_enforce_pending_bound.
  destruct (N.leb_spec (len (md_pending m)) MDNS_MAX_PENDING_EVENTS) as [|Hl]; [done|].
  set (n := len (md_pending m) - MDNS_MAX_PENDING_EVENTS).
  pose proof (drop_excess_kept id n (md_pending m)) as Hs. pose proof (drop_excess_health id n (md_pending m)) as Hh.
  pose proof (drop_excess_bounded id MDNS_MAX_PENDING_EVENTS (md_pending m)) as Hb. fold n in Hb.
  assert (∀ p, is_Some (foldl roll_back (md_last_emitted m) (drop_excess id n (md_pending m)).1 !! p) →
    is_Some (md_last_emitted m !! p) ∧ Forall (λ e, about p e → is_observation e = false) (drop_excess id n (md_pending m)).1) as Hr.
  { intros p. rewrite roll_back_lookup. destruct (existsb _ _) eqn:E; [by intros []|]. intros Hp. split; [done|].
    apply Forall_forall. intros e He Ha. destruct (is_observation e) eqn:Eo; [|done].
    assert (existsb (λ e, is_observation e && bool_decide (about p e)) (drop_excess id n (md_pending m)).1 = true); [|congruence].
    apply List.existsb_exists. exists e. split; [by apply list_elem_of_In|]. by rewrite Eo bool_decide_true. }
  pose proof (λ p, heard_drop p n (md_pending m) (default ∅ (told !! p)) (default ∅ (told !! p)) ltac:(done)) as Hd.
  destruct (drop_excess id n (md_pending m)) as [dropped kept]. simpl in *. split_and!; [|apply Hb; [|lia]|done].
  - constructor; simpl; try done.
    + eapply Forall_sublist; [exact Hs|]. eapply Forall_impl; [exact H4|]. done.
    + by rewrite Hh.
    + intros p [Hp _]%Hr. by apply H6.
    + intros p [Hp Ho]%Hr. etrans; [by apply H7|]. by apply Hd.
  - etrans; [exact H5|]. done.
Qed.

(** *** An expiry *)

Lemma cap_merged_spec merged : cap_merged merged ⊆ merged ∧
  N.of_nat (size (cap_merged merged)) ≤ MDNS_MAX_ADDRESSES_PER_PEER ∧ (merged ≠ ∅ → cap_merged merged ≠ ∅).
Proof.
  unfold cap_merged. set (l := bset_to_list merged).
  assert (length l = size merged) as Hl.
  { subst l. unfold bset_to_list. by rewrite merge_sort_Permutation. }
  assert (len (ndrop (N.of_nat (size merged) - MDNS_MAX_ADDRESSES_PER_PEER) l) = N.min (N.of_nat (size merged)) MDNS_MAX_ADDRESSES_PER_PEER) as Hd.
  { rewrite len_ndrop. unfold len. rewrite Hl. lia. }
  split_and!.
  - intros x. rewrite elem_of_list_to_set. intros Hx. assert (x ∈ l) as Hxl by (eapply sublist_elem_of; [exact Hx|apply sublist_drop]).
    by apply elem_of_bset in Hxl.
  - etrans; [apply size_list_to_set_le|]. rewrite Hd. lia.
  - intros Hne E. assert (size merged ≠ 0%nat) as Hz by (intros Hz; by apply Hne, leibniz_equiv, size_empty_inv). destruct (ndrop _ l) as [|x k]; [|set_solver].
    rewrite len_nil in Hd. unfold MDNS_MAX_ADDRESSES_PER_PEER in Hd. lia.
Qed.
Lemma contradict_health p a (l : list DiscoveryEvent) : filter (λ e, is_health e = true) (omap (contradict p a) l) = filter (λ e, is_health e = true) l.
Proof.
  induction l as [|e l IH]; [done|]. cbn [omap list_omap]. destruct e as [c|q src s|src h]; simpl.
  - rewrite [RHS]filter_cons_False //. repeat case_bool_decide; rewrite ?filter_cons_False //.
  - rewrite [RHS]filter_cons_False //. case_bool_decide; rewrite ?filter_cons_False //.
  - by rewrite !filter_cons_True // IH.
Qed.
Lemma expiry_heard allowed told m p a q : queue_inv allowed told m → a ∉ held_addresses m p →
  is_Some (md_last_emitted m !! q) → held_addresses m q ⊆ heard told q (omap (contradict p a) (md_pending m)).
Proof.
  intros Hm Ha Hq b Hb. pose proof (qi_heard _ _ _ Hm q Hq b Hb) as Hh. pose proof (qi_events _ _ _ Hm) as He.
  rewrite -> Forall_forall in He. unfold heard in *. eapply heard_omap; [|done|exact Hh].
  intros e s t Hin Hst. specialize (He e Hin). destruct e as [c|k src x|src h]; simpl in *.
  - case_bool_decide as Hc; [|simpl; case_decide; simpl; set_solver]. case_decide as Hab; unfold about in Hab; simpl in Hab.
    + injection Hab as Hab. assert (b ≠ a) as Hne by (intros ->; apply Ha; by rewrite -Hc Hab).
      case_bool_decide as Hr; simpl; [set_solver|]. rewrite decide_True; [simpl; set_solver|]. unfold about. simpl. by rewrite Hab.
    + case_bool_decide; simpl; [done|]. by rewrite decide_False.
  - destruct He as (_ & Hx & _ & Hd). rewrite (bool_decide_false (x = ∅)) //. case_bool_decide as Hk; simpl.
    + case_decide; set_solver.
    + case_decide; [|done]. rewrite (bool_decide_false (x = ∅)) //. set_solver.
  - done.
Qed.
Lemma queue_expiry_inv allowed told m p a : queue_inv allowed told m → a ∉ held_addresses m p →
  queue_inv (λ q, if decide (q = p) then allowed p ∖ {[a]} else allowed q) told (Mdns_queue_expiry p m a) ∧
  len (md_pending (Mdns_queue_expiry p m a)) ≤ MDNS_MAX_PENDING_EVENTS ∧
  md_seen (Mdns_queue_expiry p m a) = md_seen m.
Proof.
  intros Hm Ha. set (merged := {[a]} ∪ ⋃ (absorbed p <$> md_pending m)).
  pose proof (cap_merged_spec merged) as (C1 & C2 & C3).
  assert (merged ## held_addresses m p) as Hdis.
  { intros b [->%elem_of_singleton|Hb]%elem_of_union Hh; [done|]. apply elem_of_union_list in Hb as (x & Hx & Hb).
    apply list_elem_of_fmap in Hx as (e & -> & He). pose proof (qi_events _ _ _ Hm) as Hev. rewrite -> Forall_forall in Hev.
    specialize (Hev e He). destruct e as [c|k src y|src h]; simpl in *; [set_solver| |set_solver].
    case_bool_decide; [|set_solver]. subst k. set_solver. }
  specialize (C3 ltac:(set_solver)). unfold Mdns_queue_expiry. fold merged. set (m1 := with_queue m _).
  change (md_seen m) with (md_seen m1). apply enforce_inv. subst m1. constructor; simpl.
  - apply (qi_peers _ _ _ Hm).
  - apply (qi_held _ _ _ Hm).
  - intros q. change (held_addresses _ q) with (held_addresses m q). destruct (qi_allowed _ _ _ Hm q) as (A1 & A2 & A3).
    case_decide; [subst q|done]. split_and!; [set_solver| |set_solver].
    etrans; [|exact A2]. pose proof (subseteq_size (allowed p ∖ {[a]}) (allowed p) ltac:(set_solver)). lia.
  - apply Forall_app. split; [|by apply Forall_singleton; simpl; split_and!; [|..]; set_solver].
    apply Forall_forall. intros e' (e & He & E)%list_elem_of_omap. pose proof (qi_events _ _ _ Hm) as Hev.
    rewrite -> Forall_forall in Hev. specialize (Hev e He). destruct e as [c|k src y|src h]; simpl in E.
    + destruct Hev as (E1 & E2 & E3 & E4). case_bool_decide as Hp; [case_bool_decide; [done|]|]; injection E as <-; simpl.
      * rewrite decide_True //. split_and!; try done. rewrite Hp in E3. set_solver.
      * by rewrite decide_False.
    + case_bool_decide; [done|]. injection E as <-. done.
    + by injection E as <-.
  - rewrite filter_app contradict_health. rewrite [filter _ [_]]filter_cons_False // filter_nil app_nil_r. apply (qi_health _ _ _ Hm).
  - apply (qi_last _ _ _ Hm).
  - intros q Hq. change (held_addresses _ q) with (held_addresses m q). pose proof (expiry_heard _ _ _ _ _ _ Hm Ha Hq) as Hh.
    rewrite heard_app. destruct (decide (q = p)) as [->|Hne].
    + rewrite filter_cons_True // filter_nil. simpl. rewrite bool_decide_false //. set_solver.
    + rewrite filter_cons_False; [done|]. unfold about. simpl. congruence.
Qed.

(** *** The sweep *)

Lemma queue_inv_ext allowed allowed' told m : (∀ q, allowed q = allowed' q) → queue_inv allowed told m → queue_inv allowed' told m.
Proof.
  intros E [H1 H2 H3 H4 H5 H6 H7]. constructor; try done; [intros p; rewrite -E; apply H3|].
  eapply Forall_impl; [exact H4|]. intros [c|p src a|src h]; simpl; [by rewrite E|done|done].
Qed.
Definition expire_all (m : MdnsDiscovery) (l : list (TransportIdentity * list bytes)) : MdnsDiscovery :=
  foldl (λ m pg, foldl (Mdns_queue_expiry pg.1) m pg.2) m l.
Lemma expire_one_inv p gone allowed told m : queue_inv allowed told m → len (md_pending m) ≤ MDNS_MAX_PENDING_EVENTS →
  (∀ a, a ∈ gone → a ∉ held_addresses m p) →
  let m' := foldl (Mdns_queue_expiry p) m gone in
  ∃ allowed', queue_inv allowed' told m' ∧ len (md_pending m') ≤ MDNS_MAX_PENDING_EVENTS ∧ md_seen m' = md_seen m ∧
    (∀ q, allowed' q ⊆ allowed q) ∧ (∀ a, a ∈ gone → a ∉ allowed' p).
Proof.
  revert allowed m. induction gone as [|a gone IH]; intros allowed m Hm Hl Hg; simpl; [exists allowed; split_and!; [done|done|done|done|by intros ? ?%elem_of_nil]|].
  destruct (queue_expiry_inv allowed told m p a Hm (Hg a ltac:(left))) as (H1 & H2 & H3).
  destruct (IH _ _ H1 H2) as (allowed' & I1 & I2 & I3 & I4 & I5).
  { intros b Hb. unfold held_addresses. rewrite H3. apply Hg. by right. }
  exists allowed'. split_and!; [done|done|congruence| |].
  - intros q. etrans; [apply I4|]. case_decide; [subst; set_solver|done].
  - intros b [->|Hb]%elem_of_cons; [|by apply I5]. pose proof (I4 p) as Hp. rewrite decide_True in Hp; [set_solver|done].
Qed.
Lemma expire_all_inv l allowed told m : queue_inv allowed told m → len (md_pending m) ≤ MDNS_MAX_PENDING_EVENTS →
  (∀ p gone a, (p, gone) ∈ l → a ∈ gone → a ∉ held_addresses m p) →
  ∃ allowed', queue_inv allowed' told (expire_all m l) ∧ len (md_pending (expire_all m l)) ≤ MDNS_MAX_PENDING_EVENTS ∧
    md_seen (expire_all m l) = md_seen m ∧
    (∀ q, allowed' q ⊆ allowed q) ∧ (∀ p gone a, (p, gone) ∈ l → a ∈ gone → a ∉ allowed' p).
Proof.
  revert allowed m. induction l as [|[p gone] l IH]; intros allowed m Hm Hl Hg; [exists allowed; split_and!; [done|done|done|done|by intros ??? ?%elem_of_nil]|].
  unfold expire_all. cbn [foldl fst snd].
  destruct (expire_one_inv p gone allowed told m Hm Hl) as (al1 & H1 & H2 & H3 & H4 & H5).
  { intros a Ha. eapply Hg; [by left|done]. }
  destruct (IH al1 _ H1 H2) as (al2 & I1 & I2 & I3 & I4 & I5).
  { intros q g a Hin Ha. unfold held_addresses. rewrite H3. eapply Hg; [by right|done]. }
  exists al2. split_and!; [done|done|by etrans; [exact I3|exact H3]|intros q; etrans; [apply I4|apply H4]|].
  intros q g a [[= -> ->]|Hin]%elem_of_cons Ha; [|by eapply I5]. specialize (I4 p). specialize (H5 a Ha). set_solver.
Qed.
Lemma swept_lookup (now : N) (seen : gmap TransportIdentity (gmap bytes N)) (p : TransportIdentity) :
  filter (λ ph, ph.2 ≠ ∅) ((λ held : gmap bytes N, filter (λ ae, (now <? ae.2) = true) held) <$> seen) !! p =
  match seen !! p with
  | Some h => let h' : gmap bytes N := filter (λ ae, (now <? ae.2) = true) h in if decide (h' ≠ ∅) then Some h' else None
  | None => None
  end.
Proof.
  rewrite map_lookup_filter lookup_fmap. destruct (seen !! p) as [h|]; [|done]. simpl.
  by case_guard.
Qed.
(** The two halves of a sweep: what is forgotten, then what is said of it. *)
Definition forgotten (m : MdnsDiscovery) (now : N) : MdnsDiscovery :=
  let seen := filter (λ ph, ph.2 ≠ ∅) ((λ held : gmap bytes N, filter (λ ae, (now <? ae.2) = true) held) <$> md_seen m) in
  with_last_emitted (with_seen m seen) (filter (λ pl, is_Some (seen !! pl.1)) (md_last_emitted m)).
Definition lapsed (m : MdnsDiscovery) (now : N) : list (TransportIdentity * list bytes) :=
  filter (λ pg, pg.2 ≠ []) ((λ ph, (ph.1, gone_at now ph.2)) <$> btree_to_list (md_seen m)).
Lemma sweep_eq (m : MdnsDiscovery) (now : N) : Mdns_sweep m now = expire_all (forgotten m now) (lapsed m now).
Proof. done. Qed.
Lemma forgotten_held (m : MdnsDiscovery) (now : N) (p : TransportIdentity) (a : bytes) :
  a ∈ held_addresses (forgotten m now) p ↔ ∃ h x, md_seen m !! p = Some h ∧ h !! a = Some x ∧ now < x.
Proof.
  unfold held_addresses, forgotten. cbn [with_last_emitted with_seen md_seen]. rewrite swept_lookup.
  destruct (md_seen m !! p) as [h|]; simpl; [|set_solver]. split.
  - case_decide; simpl; [|set_solver]. intros (x & [H1 H2]%map_lookup_filter_Some)%elem_of_dom. simpl in H2. exists h, x.
    split_and!; [done|done|by apply N.ltb_lt].
  - intros (h' & x & [= <-] & Hx & Hlt). assert ((filter (λ ae, (now <? ae.2) = true) h : gmap bytes N) !! a = Some x) as Hf.
    { apply map_lookup_filter_Some. split; [done|]. by apply N.ltb_lt. }
    rewrite decide_True; [simpl; by apply elem_of_dom; exists x|]. intros E. by rewrite E lookup_empty in Hf.
Qed.
Lemma forgotten_inv (told : gmap TransportIdentity (gset bytes)) (m : MdnsDiscovery) (now : N) :
  queue_inv (held_addresses m) told m → queue_inv (held_addresses m) told (forgotten m now).
Proof.
  intros [H1 H2 H3 H4 H5 H6 H7].
  assert (∀ p, held_addresses (forgotten m now) p ⊆ held_addresses m p) as Hsub.
  { intros p a (h & x & Hh & Hx & _)%forgotten_held. unfold held_addresses. rewrite Hh. simpl. by apply elem_of_dom; exists x. }
  constructor.
  - etrans; [|exact H1]. assert (size (md_seen (forgotten m now)) ≤ size (md_seen m))%nat; [|lia]. rewrite -!size_dom. apply subseteq_size.
    etrans; [apply dom_filter_subseteq|]. by rewrite dom_fmap.
  - intros p h [_ Hp]%map_lookup_filter_Some. done.
  - intros p. destruct (H3 p) as (A1 & A2 & A3). split_and!; [apply Hsub|done|done].
  - eapply Forall_impl; [exact H4|]. intros [c|p src a|src h]; cbn [mdns_event_ok]; [done| |done]. intros (?&?&?&Hd). split_and!; try done.
    specialize (Hsub p). set_solver.
  - done.
  - intros p [x [_ Hp]%map_lookup_filter_Some]. done.
  - intros p [x [Hp _]%map_lookup_filter_Some]. etrans; [apply Hsub|]. apply H7. by exists x.
Qed.
(** What lapsed is what was held and is forgotten. *)
Lemma lapsed_spec (m : MdnsDiscovery) (now : N) (p : TransportIdentity) (a : bytes) :
  (∃ gone, (p, gone) ∈ lapsed m now ∧ a ∈ gone) ↔ a ∈ held_addresses m p ∧ a ∉ held_addresses (forgotten m now) p.
Proof.
  rewrite forgotten_held. unfold lapsed, held_addresses. split.
  - intros (gone & [_ ([q h] & [= -> ->] & Hin%elem_of_btree_to_list)%list_elem_of_fmap]%list_elem_of_filter & Ha).
    unfold gone_at in Ha. apply list_elem_of_fmap in Ha as ([b x] & -> & [Hx%N.leb_le Hb%elem_of_btree_to_list]%list_elem_of_filter).
    simpl in *. rewrite Hin. split; [by apply elem_of_dom; exists x|]. intros (h' & y & Hh' & Hy & Hlt). simplify_eq. lia.
  - intros [Ha Hn]. destruct (md_seen m !! p) as [h|] eqn:Eh; [|set_solver]. simpl in Ha. apply elem_of_dom in Ha as [x Hx].
    assert (a ∈ gone_at now h) as Hg.
    { unfold gone_at. apply list_elem_of_fmap. exists (a, x). split; [done|]. apply list_elem_of_filter.
      rewrite elem_of_btree_to_list. split; [|done]. simpl. apply N.leb_le. destruct (N.le_gt_cases x now); [done|].
      destruct Hn. by exists h, x. }
    exists (gone_at now h). split; [|done]. apply list_elem_of_filter. split; [simpl; by intros E; rewrite E in Hg; apply elem_of_nil in Hg|].
    apply list_elem_of_fmap. exists (p, h). by rewrite elem_of_btree_to_list.
Qed.
Lemma sweep_inv (told : gmap TransportIdentity (gset bytes)) (m : MdnsDiscovery) (now : N) : mdns_inv told m →
  mdns_inv told (Mdns_sweep m now) ∧
  (∀ p h, md_seen (Mdns_sweep m now) !! p = Some h → ∀ a x, h !! a = Some x → now < x).
Proof.
  intros [Hm Hl]. rewrite sweep_eq. pose proof (forgotten_inv told m now Hm) as Hm1.
  destruct (expire_all_inv (lapsed m now) _ told (forgotten m now) Hm1 Hl) as (al & I1 & I2 & I3 & I4 & I5).
  { intros p gone a Hin Ha. by apply (lapsed_spec m now p a); exists gone. }
  assert (∀ q, al q = held_addresses (expire_all (forgotten m now) (lapsed m now)) q) as Eal.
  { intros q. apply leibniz_equiv, set_equiv_subseteq. split; [|apply (qi_allowed _ _ _ I1 q)]. unfold held_addresses. rewrite I3.
    fold (held_addresses (forgotten m now) q). intros a Ha. destruct (decide (a ∈ held_addresses (forgotten m now) q)) as [|Hn]; [done|].
    exfalso. destruct (proj2 (lapsed_spec m now q a)) as (gone & Hin & Hg); [split; [by apply I4|done]|]. by eapply I5. }
  split; [split; [by eapply queue_inv_ext|done]|].
  rewrite I3. intros p h [Hp _]%map_lookup_filter_Some a x Hx.
  apply lookup_fmap_Some in Hp as (h0 & <- & _). apply map_lookup_filter_Some in Hx as [_ Hx]. by apply N.ltb_lt.
Qed.

(** *** An observation *)

Lemma group_fold_spec (now : N) (l : list (bytes * N)) :
  let g := foldl (λ (groups : gmap N (gset bytes)) (ae : bytes * N),
             if now <? ae.2 then <[ae.2 := {[ae.1]} ∪ default ∅ (groups !! ae.2)]> groups else groups) ∅ l in
  (∀ d a, a ∈ default ∅ (g !! d) ↔ (a, d) ∈ l ∧ now < d) ∧
  (∀ d s, g !! d = Some s → s ≠ ∅ ∧ now < d) ∧ (size g ≤ length l)%nat.
Proof.
  induction l as [|[b x] l IH] using rev_ind; cbn zeta.
  { split_and!; [|done|done]. intros d a. simpl. rewrite lookup_empty /=. set_solver. }
  rewrite foldl_app. cbn [foldl]. cbn zeta in IH. destruct IH as (I1 & I2 & I3). set (g := foldl _ ∅ l) in *. simpl.
  rewrite length_app. simpl. destruct (N.ltb_spec now x) as [Hx|Hx].
  - split_and!.
    + intros d a. destruct (decide (d = x)) as [->|Hd].
      * rewrite lookup_insert_eq /=. rewrite elem_of_union elem_of_singleton I1 elem_of_app list_elem_of_singleton. naive_solver.
      * rewrite lookup_insert_ne // I1 elem_of_app list_elem_of_singleton. naive_solver.
    + intros d s [[<- <-]|[_ Hs]]%lookup_insert_Some; [split; [set_solver|done]|by apply I2].
    + rewrite map_size_insert. case_match; simpl; lia.
  - split_and!; [|done|lia]. intros d a. rewrite I1 elem_of_app list_elem_of_singleton. naive_solver lia.
Qed.
Lemma group_spec (held : gmap bytes N) (now : N) :
  (∀ d a, a ∈ default ∅ (group_by_deadline held now !! d) ↔ held !! a = Some d ∧ now < d) ∧
  (∀ d s, group_by_deadline held now !! d = Some s → s ≠ ∅ ∧ now < d) ∧
  (size (group_by_deadline held now) ≤ size held)%nat.
Proof.
  destruct (group_fold_spec now (btree_to_list held)) as (H1 & H2 & H3). unfold group_by_deadline. split_and!; [|done|].
  - intros d a. by rewrite H1 elem_of_btree_to_list.
  - rewrite length_btree_to_list in H3. exact H3.
Qed.
Lemma group_in (held : gmap bytes N) (now d : N) (s : gset bytes) :
  (d, s) ∈ btree_to_list (group_by_deadline held now) → now < d ∧ ∀ a, a ∈ s ↔ held !! a = Some d ∧ now < d.
Proof.
  destruct (group_spec held now) as (H1 & H2 & _). intros Hin%elem_of_btree_to_list. split; [by apply (H2 d s)|].
  intros a. by rewrite -H1 Hin.
Qed.
Lemma hear_observations (l : list DiscoveryEvent) (s : gset bytes) :
  Forall (λ e, is_observation e = true) l →
  s ⊆ foldl hear_set s l ∧ (∀ c, CandidateObserved c ∈ l → cand_addresses c ⊆ foldl hear_set s l).
Proof.
  intros Hl. revert s. induction Hl as [|e l He Hl IH]; intros s; [split; [done|by intros c ?%elem_of_nil]|].
  destruct e as [c|q src a|src h]; try done. simpl. destruct (IH (s ∪ cand_addresses c)) as [H1 H2]. split; [set_solver|].
  intros c' [[= ->]|Hc]%elem_of_cons; [set_solver|by apply H2].
Qed.
Lemma reannounce_health p live (l : list DiscoveryEvent) :
  filter (λ e, is_health e = true) (omap (reannounce p live) l) = filter (λ e, is_health e = true) l.
Proof.
  induction l as [|e l IH]; [done|]. cbn [omap list_omap]. destruct e as [c|q src s|src h]; simpl.
  - rewrite [RHS]filter_cons_False //. case_bool_decide; rewrite ?filter_cons_False //.
  - rewrite [RHS]filter_cons_False //. repeat case_bool_decide; rewrite ?filter_cons_False //.
  - by rewrite !filter_cons_True // IH.
Qed.
Lemma reannounce_other told p q live l : q ≠ p → heard told q l ⊆ heard told q (omap (reannounce p live) l).
Proof.
  intros Hq b. unfold heard. apply heard_omap; [|done]. intros e s t _ Hst. destruct e as [c|k src x|src h]; simpl.
  - case_bool_decide; simpl.
    + rewrite decide_False; [done|]. unfold about. simpl. congruence.
    + case_decide; [set_solver|done].
  - destruct (decide (k = p)) as [->|Hk].
    + rewrite (bool_decide_true (p = p)) //. rewrite decide_False; [|unfold about; simpl; congruence].
      destruct (bool_decide (x ∖ live = ∅)); simpl; [done|]. rewrite decide_False; [done|]. unfold about. simpl. congruence.
    + rewrite (bool_decide_false (k = p)) //. simpl. case_decide; [|done]. case_bool_decide; set_solver.
  - done.
Qed.
Lemma queue_observation_eq m p now held : md_seen m !! p = Some held → group_by_deadline held now ≠ ∅ →
  Mdns_queue_observation m p now =
  Mdns_enforce_pending_bound
    (with_queue (with_last_emitted m (<[p := now]> (md_last_emitted m)))
       (omap (reannounce p (⋃ (btree_to_list (group_by_deadline held now)).*2)) (md_pending m) ++
        (mdns_observation p now <$> btree_to_list (group_by_deadline held now)))).
Proof. intros Hp Hg. unfold Mdns_queue_observation. rewrite Hp. by rewrite bool_decide_false. Qed.
Lemma groups_cover (held : gmap bytes N) (now : N) : (∀ a x, held !! a = Some x → now < x) →
  ⋃ (btree_to_list (group_by_deadline held now)).*2 = dom held ∧
  (held ≠ ∅ → group_by_deadline held now ≠ ∅).
Proof.
  intros Hlive. destruct (group_spec held now) as (H1 & _ & _).
  assert (∀ a x, held !! a = Some x → ∃ s, (x, s) ∈ btree_to_list (group_by_deadline held now) ∧ a ∈ s) as Hin.
  { intros a x Hx. assert (a ∈ default ∅ (group_by_deadline held now !! x)) as Ha by (apply H1; split; [done|by eapply Hlive]).
    destruct (group_by_deadline held now !! x) as [s|] eqn:E; [|set_solver]. exists s. by rewrite elem_of_btree_to_list. }
  split.
  - apply leibniz_equiv. intros a. rewrite elem_of_union_list. split.
    + intros (s & (g & -> & Hg)%list_elem_of_fmap & Ha). destruct g as [d s]. simpl in *. apply group_in in Hg as [_ Hg].
      apply Hg in Ha as [Ha _]. by apply elem_of_dom; exists d.
    + intros [x Hx]%elem_of_dom. destruct (Hin a x Hx) as (s & Hs & Ha). exists s. split; [|done].
      apply list_elem_of_fmap. by exists (x, s).
  - intros Hne E. destruct (map_choose held Hne) as (a & x & Hx). destruct (Hin a x Hx) as (s & Hs & _).
    rewrite E in Hs. by apply elem_of_btree_to_list in Hs.
Qed.
Lemma reannounce_event_ok (allowed : TransportIdentity → gset bytes) (m m' : MdnsDiscovery) (p : TransportIdentity)
    (held : gmap bytes N) (e e' : DiscoveryEvent) :
  mdns_event_ok allowed m e → reannounce p (dom held) e = Some e' →
  (∀ q, held_addresses m' q = if decide (q = p) then dom held else held_addresses m q) →
  mdns_event_ok (λ q, if decide (q = p) then dom held else allowed q) m' e'.
Proof.
  intros He E Eh. destruct e as [c|k src a|src h]; simpl in *.
  - case_bool_decide as Hp; [done|]. injection E as <-. simpl. by rewrite decide_False.
  - destruct He as (E1 & E2 & E3 & E4). case_bool_decide as Hp; [case_bool_decide as Hr; [done|]|]; injection E as <-; simpl; rewrite Eh.
    + rewrite decide_True //. split_and!; [done|done| |set_solver]. etrans; [|exact E3].
      pose proof (subseteq_size (a ∖ dom held) a ltac:(set_solver)). lia.
    + by rewrite decide_False.
  - by injection E as <-.
Qed.
Section observation.
Context (told : gmap TransportIdentity (gset bytes)) (m : MdnsDiscovery) (p : TransportIdentity) (held : gmap bytes N) (now : N).
Let obs : list DiscoveryEvent := mdns_observation p now <$> btree_to_list (group_by_deadline held now).
Let m1 : MdnsDiscovery := with_seen m (<[p := held]> (md_seen m)).
Let m2 : MdnsDiscovery := with_queue (with_last_emitted m1 (<[p := now]> (md_last_emitted m1)))
                            (omap (reannounce p (dom held)) (md_pending m) ++ obs).
Hypothesis Hm : mdns_inv told m.
Hypothesis Hne : held ≠ ∅.
Hypothesis Hsub : held_addresses m p ⊆ dom held.
Hypothesis Hsize : N.of_nat (size held) ≤ MDNS_MAX_ADDRESSES_PER_PEER.
Hypothesis Hok : ∀ a, a ∈ dom held → address_ok a.
Hypothesis Hlive : ∀ a x, held !! a = Some x → now < x.
Hypothesis Hpeers : N.of_nat (size (<[p := held]> (md_seen m))) ≤ MDNS_MAX_PEERS.

Lemma held_replaced q : held_addresses m2 q = if decide (q = p) then dom held else held_addresses m q.
Proof using. unfold held_addresses, m2, m1. simpl. case_decide; [subst; by rewrite lookup_insert_eq|by rewrite lookup_insert_ne]. Qed.
Lemma observations_about e : e ∈ obs → about p e ∧ is_observation e = true.
Proof using. unfold obs. intros ([d s] & -> & _)%list_elem_of_fmap. done. Qed.
Lemma observations_ok : Forall (mdns_event_ok (held_addresses m2) m2) obs.
Proof using.
  apply Forall_forall. unfold obs. intros e ([d s] & -> & Hin)%list_elem_of_fmap. simpl. apply group_in in Hin as [Hd Hs].
  split_and!; [done|done| |intros t [= <-]; by apply N.lt_le_incl]. rewrite held_replaced decide_True //. intros a [Ha _]%Hs. by apply elem_of_dom; exists d.
Qed.
Lemma observations_heard : dom held ⊆ heard told p (md_pending m2).
Proof using Hlive Hne.
  unfold m2. cbn [with_queue md_pending]. rewrite heard_app. rewrite (list_filter_all (about p) obs).
  2: { intros e He. by apply observations_about. }
  intros a [x Hx]%elem_of_dom. destruct (group_spec held now) as (H1 & _ & _).
  assert (a ∈ default ∅ (group_by_deadline held now !! x)) as Ha by (apply H1; split; [done|by eapply Hlive]).
  destruct (group_by_deadline held now !! x) as [s|] eqn:E; [|set_solver].
  destruct (hear_observations obs (heard told p (omap (reannounce p (dom held)) (md_pending m)))) as [_ Ho].
  { apply Forall_forall. intros e He. by apply observations_about. }
  apply (Ho (MkCandidatePeer p s MDNS_SOURCE now (Some x) ∅)); [|done].
  apply list_elem_of_fmap. exists (x, s). by rewrite elem_of_btree_to_list.
Qed.
Lemma observation_queue_inv : queue_inv (held_addresses m2) told m2.
Proof using Hm Hne Hsub Hsize Hok Hlive Hpeers.
  destruct Hm as [[H1 H2 H3 H4 H5 H6 H7] Hl]. constructor.
  - exact Hpeers.
  - unfold m2, m1. simpl. intros q h [[<- <-]|[_ Hq]]%lookup_insert_Some; [done|by eapply H2].
  - intros q. split; [done|]. rewrite held_replaced. case_decide; [|apply H3]. split; [|done]. by rewrite size_dom.
  - unfold m2. simpl. apply Forall_app. split; [|apply observations_ok]. apply Forall_forall.
    intros e' (e & He & E)%list_elem_of_omap. rewrite -> Forall_forall in H4. specialize (H4 e He).
    pose proof (reannounce_event_ok _ _ m2 _ _ _ _ H4 E held_replaced) as Hr. destruct e' as [c|k src a|src h]; simpl in *; [|done|done].
    by rewrite held_replaced.
  - unfold m2. simpl. rewrite filter_app reannounce_health (list_filter_none _ obs) ?app_nil_r //.
    intros e [_ He]%observations_about. by destruct e.
  - unfold m2, m1. simpl. intros q. rewrite !lookup_insert_is_Some. destruct (decide (p = q)); [by left|]. naive_solver.
  - intros q. rewrite held_replaced. case_decide as Hq; [subst q; intros _; apply observations_heard|].
    unfold m2, m1. simpl. rewrite lookup_insert_ne //. intros Hs%H7. rewrite heard_app (list_filter_none (about q) obs).
    2: { intros e [He _]%observations_about Ha. unfold about in *. congruence. }
    etrans; [exact Hs|]. by apply reannounce_other.
Qed.
End observation.
(** What telling one peer adds to the queue. *)
Lemma queued_length (m : MdnsDiscovery) (p : TransportIdentity) (held : gmap bytes N) (now : N) (live : gset bytes) :
  N.of_nat (size held) ≤ MDNS_MAX_ADDRESSES_PER_PEER →
  len (omap (reannounce p live) (md_pending m) ++ (mdns_observation p now <$> btree_to_list (group_by_deadline held now))) ≤
    len (md_pending m) + MDNS_MAX_ADDRESSES_PER_PEER.
Proof.
  intros Hsz. pose proof (len_omap (reannounce p live) (md_pending m)). pose proof (proj2 (proj2 (group_spec held now))).
  rewrite len_app. unfold len in *. rewrite length_fmap length_btree_to_list. lia.
Qed.
(** The state once [held] replaced what was held for [p]. *)
Lemma observation_inv (told : gmap TransportIdentity (gset bytes)) (m : MdnsDiscovery) (p : TransportIdentity)
    (held : gmap bytes N) (now : N) : mdns_inv told m → held ≠ ∅ →
  held_addresses m p ⊆ dom held → N.of_nat (size held) ≤ MDNS_MAX_ADDRESSES_PER_PEER →
  (∀ a, a ∈ dom held → address_ok a) → (∀ a x, held !! a = Some x → now < x) →
  N.of_nat (size (<[p := held]> (md_seen m))) ≤ MDNS_MAX_PEERS →
  let m1 := with_seen m (<[p := held]> (md_seen m)) in
  mdns_inv told (Mdns_queue_observation m1 p now) ∧ md_seen (Mdns_queue_observation m1 p now) = md_seen m1 ∧
  (len (md_pending m) + MDNS_MAX_ADDRESSES_PER_PEER ≤ MDNS_MAX_PENDING_EVENTS →
     md_last_emitted (Mdns_queue_observation m1 p now) = <[p := now]> (md_last_emitted m)).
Proof.
  intros Hm Hne Hsub Hsz Hok Hlive Hpeers m1. destruct (groups_cover held now Hlive) as [Hu Hg].
  rewrite (queue_observation_eq m1 p now held); [|by subst m1; rewrite /= lookup_insert_eq|by apply Hg]. rewrite Hu.
  pose proof (observation_queue_inv told m p held now Hm Hne Hsub Hsz Hok Hlive Hpeers) as Hm2. fold m1 in Hm2.
  destruct (enforce_inv _ _ _ Hm2) as (E1 & E2 & E3). split_and!.
  - split; [|done]. eapply queue_inv_ext; [|exact E1]. intros q. unfold held_addresses. by rewrite E3.
  - done.
  - intros Hroom. unfold Mdns_enforce_pending_bound. rewrite (proj2 (N.leb_le _ _)); [done|]. simpl.
    etrans; [by apply queued_length|exact Hroom].
Qed.
