(* ===== verification/MdnsView.v ===== *)
(** * What a consumer of the mDNS provider hears

    Every operation keeps the invariant of [MdnsFacts], so the provider is lawful,
    its state is bounded whatever the network sends, and what an overflow dropped
    is said again. *)
From S2P Require Import Prelude Ids DiscoveryApi Discovery Provider ProviderQueue Mdns MdnsFacts.
Local Open Scope N_scope.

(** ** The operations *)

(** Every held address is live at [now]. *)
Definition all_live (m : MdnsDiscovery) (now : N) : Prop :=
  ∀ p h, md_seen m !! p = Some h → ∀ a x, h !! a = Some x → now < x.
Lemma enforce_shorter (m : MdnsDiscovery) : len (md_pending (Mdns_enforce_pending_bound m)) ≤ len (md_pending m).
Proof.
  unfold Mdns_enforce_pending_bound. destruct (_ <=? _); [done|].
  pose proof (drop_excess_kept id (len (md_pending m) - MDNS_MAX_PENDING_EVENTS) (md_pending m)) as Hs%sublist_length.
  destruct (drop_excess _ _ _) as [d k]. simpl in *. unfold len. lia.
Qed.
Lemma with_seen_same (m : MdnsDiscovery) (p : TransportIdentity) (h : gmap bytes N) : md_seen m !! p = Some h →
  with_seen m (<[p := h]> (md_seen m)) = m.
Proof. intros Hp. unfold with_seen. rewrite insert_id //. by destruct m. Qed.
Lemma held_facts (told : gmap TransportIdentity (gset bytes)) (m : MdnsDiscovery) (p : TransportIdentity) (h : gmap bytes N) :
  mdns_inv told m → md_seen m !! p = Some h →
  h ≠ ∅ ∧ N.of_nat (size h) ≤ MDNS_MAX_ADDRESSES_PER_PEER ∧ (∀ a, a ∈ dom h → address_ok a) ∧ held_addresses m p = dom h.
Proof.
  intros [Hm _] Hp. destruct (qi_allowed _ _ _ Hm p) as (_ & H2 & H3). unfold held_addresses in *. rewrite Hp /= in H2, H3 |- *.
  split_and!; [by eapply qi_held|by rewrite size_dom in H2|done|done].
Qed.
(** Telling a peer again keeps everything but what is queued about it. *)
Lemma requeue_inv (told : gmap TransportIdentity (gset bytes)) (m : MdnsDiscovery) (p : TransportIdentity) (now : N) :
  mdns_inv told m → all_live m now →
  let m' := Mdns_queue_observation m p now in
  mdns_inv told m' ∧ md_seen m' = md_seen m ∧
  (len (md_pending m) + MDNS_MAX_ADDRESSES_PER_PEER ≤ MDNS_MAX_PENDING_EVENTS →
     (∀ q, is_Some (md_last_emitted m !! q) → is_Some (md_last_emitted m' !! q)) ∧
     (is_Some (md_seen m !! p) → is_Some (md_last_emitted m' !! p)) ∧
     len (md_pending m') ≤ len (md_pending m) + MDNS_MAX_ADDRESSES_PER_PEER).
Proof.
  intros Hm Hlive. destruct (md_seen m !! p) as [h|] eqn:Hp.
  - destruct (held_facts _ _ _ _ Hm Hp) as (H1 & H2 & H3 & H4).
    pose proof (observation_inv told m p h now Hm H1 ltac:(by rewrite H4) H2 H3 (Hlive p h Hp)) as Ho.
    cbn zeta in Ho. rewrite (with_seen_same _ _ _ Hp) (insert_id _ _ _ Hp) in Ho.
    destruct (Ho (qi_peers _ _ _ (proj1 Hm))) as (O1 & O2 & O3). cbn zeta. split_and!; [done|done|]. intros Hr.
    rewrite (O3 Hr). split_and!.
    + intros q Hq. destruct (decide (p = q)) as [->|Hne]; [by rewrite lookup_insert_eq|by rewrite lookup_insert_ne].
    + intros _. by rewrite lookup_insert_eq.
    + destruct (groups_cover h now (Hlive p h Hp)) as [_ Hg]. rewrite (queue_observation_eq m p now h Hp (Hg H1)).
      etrans; [apply enforce_shorter|]. by apply queued_length.
  - assert (Mdns_queue_observation m p now = m) as -> by (unfold Mdns_queue_observation; by rewrite Hp).
    split_and!; [done|done|]. intros _. split_and!; [done|by intros []|lia].
Qed.
Lemma regenerate_inv (told : gmap TransportIdentity (gset bytes)) (owed : list TransportIdentity) (m : MdnsDiscovery) (now : N) :
  mdns_inv told m → all_live m now →
  let m' := regenerate m owed now in
  mdns_inv told m' ∧ md_seen m' = md_seen m ∧
  (∀ q, is_Some (md_last_emitted m !! q) → is_Some (md_last_emitted m' !! q)) ∧
  (len (md_pending m) + MDNS_MAX_ADDRESSES_PER_PEER * len owed ≤ MDNS_MAX_PENDING_EVENTS →
     ∀ q, q ∈ owed → is_Some (md_seen m !! q) → is_Some (md_last_emitted m' !! q)).
Proof.
  revert m. induction owed as [|p owed IH]; intros m Hm Hlive; cbn [regenerate].
  { split_and!; [done|done|done|]. by intros _ q ?%elem_of_nil. }
  destruct (N.ltb_spec MDNS_MAX_PENDING_EVENTS (len (md_pending m) + MDNS_MAX_ADDRESSES_PER_PEER)) as [Hr|Hr].
  { split_and!; [done|done|done|]. rewrite len_cons. unfold MDNS_MAX_ADDRESSES_PER_PEER in *. lia. }
  destruct (requeue_inv told m p now Hm Hlive) as (R1 & R2 & R3). destruct (R3 Hr) as (S1 & S2 & S3).
  destruct (IH (Mdns_queue_observation m p now) R1) as (I1 & I2 & I3 & I4); [unfold all_live; by rewrite R2|].
  split_and!; [done|by rewrite I2|auto|]. rewrite len_cons. intros Hl q [->|Hq]%elem_of_cons Hs; [auto|].
  apply I4; [|done|by rewrite R2]. unfold MDNS_MAX_ADDRESSES_PER_PEER in *. lia.
Qed.
(** A peer told with a longer lapse. *)
Lemma prolong_inv (told : gmap TransportIdentity (gset bytes)) (m : MdnsDiscovery) (p : TransportIdentity) (h h' : gmap bytes N) :
  mdns_inv told m → md_seen m !! p = Some h → dom h' = dom h → mdns_inv told (with_seen m (<[p := h']> (md_seen m))).
Proof.
  intros [Hm Hl] Hp Hd. set (m1 := with_seen _ _).
  assert (∀ q, held_addresses m1 q = held_addresses m q) as E.
  { intros q. unfold held_addresses, m1. simpl. destruct (decide (p = q)) as [<-|Hne]; [by rewrite lookup_insert_eq Hp|by rewrite lookup_insert_ne]. }
  split; [|done]. apply (queue_inv_ext (held_addresses m)); [done|]. destruct Hm as [H1 H2 H3 H4 H5 H6 H7]. constructor.
  - simpl. by rewrite map_size_insert Hp.
  - simpl. intros q k [[<- <-]|[_ Hq]]%lookup_insert_Some; [|by eapply H2]. intros ->. specialize (H2 _ _ Hp).
    apply H2. apply dom_empty_inv_L. rewrite -Hd. apply dom_empty_L.
  - intros q. rewrite E. apply H3.
  - eapply Forall_impl; [exact H4|]. intros [c|q src a|src x]; cbn [mdns_event_ok]; [done|by rewrite E|done].
  - done.
  - simpl. intros q Hq%H6. rewrite lookup_insert_is_Some. destruct (decide (p = q)); [by left|by right].
  - intros q. rewrite E. apply H7.
Qed.

Lemma mdns_new_inv : mdns_inv ∅ Mdns_new.
Proof.
  split; [|by vm_compute]. constructor; simpl; try done; intros p [x Hx]; by rewrite lookup_empty in Hx.
Qed.
(** The flags are no part of it. *)
Lemma flags_inv (told : gmap TransportIdentity (gset bytes)) (m : MdnsDiscovery) (st sp up : bool) : mdns_inv told m →
  mdns_inv told (MkMdnsDiscovery (md_seen m) (md_last_emitted m) st sp up (md_pending m)).
Proof. intros [[H1 H2 H3 H4 H5 H6 H7] Hl]. split; [by constructor|done]. Qed.
(** A health report at the end of the queue, once the earlier one has gone. *)
Lemma health_heard (told : gmap TransportIdentity (gset bytes)) (p : TransportIdentity) (l : list DiscoveryEvent) (h : ProviderHealth) :
  heard told p (filter (λ e, is_health e = false) l ++ [HealthChanged MDNS_SOURCE h]) = heard told p l.
Proof.
  rewrite heard_app filter_cons_False // filter_nil. simpl. unfold heard. f_equal. induction l as [|e l IH]; [done|].
  destruct (is_health e) eqn:E.
  - rewrite filter_cons_False; [|by rewrite E]. rewrite [RHS]filter_cons_False; [done|]. by destruct e.
  - rewrite [filter (λ e, is_health e = false) _]filter_cons_True //. destruct (decide (about p e)).
    + by rewrite !filter_cons_True // IH.
    + by rewrite !filter_cons_False // IH.
Qed.
Lemma health_inv (told : gmap TransportIdentity (gset bytes)) (m : MdnsDiscovery) (h : ProviderHealth) : mdns_inv told m →
  mdns_inv told (Mdns_enforce_pending_bound
    (with_queue m (filter (λ e, is_health e = false) (md_pending m) ++ [HealthChanged MDNS_SOURCE h]))).
Proof.
  intros [[H1 H2 H3 H4 H5 H6 H7] Hl]. set (m1 := with_queue _ _).
  assert (queue_inv (held_addresses m1) told m1) as Hm1.
  { constructor; try done; subst m1; simpl.
    - apply Forall_app. split; [|by apply Forall_singleton]. apply Forall_forall. intros e [_ He]%list_elem_of_filter.
      rewrite -> Forall_forall in H4. by apply H4.
    - rewrite filter_app len_app list_filter_none; [rewrite len_nil filter_cons_True // len_cons filter_nil len_nil; lia|].
      intros e [He _]%list_elem_of_filter. by rewrite He.
    - intros p Hp. rewrite health_heard. by apply H7. }
  destruct (enforce_inv _ _ _ Hm1) as (E1 & E2 & E3). split; [|done]. eapply queue_inv_ext; [|exact E1].
  intros q. unfold held_addresses. by rewrite E3.
Qed.
Lemma queue_health_inv (told : gmap TransportIdentity (gset bytes)) (m : MdnsDiscovery) : mdns_inv told m → mdns_inv told (Mdns_queue_health m).
Proof. intros Hm. unfold Mdns_queue_health. destruct (negb _ || _); [done|]. by apply health_inv. Qed.
Lemma emptied_inv (told : gmap TransportIdentity (gset bytes)) (st sp up : bool) : mdns_inv told (MkMdnsDiscovery ∅ ∅ st sp up []).
Proof. split; [|by vm_compute]. constructor; simpl; try done; intros p [x Hx]; by rewrite lookup_empty in Hx. Qed.
(** What is taken from the front of the queue has been told. *)
Lemma taken_inv (told : gmap TransportIdentity (gset bytes)) (m : MdnsDiscovery) (max : N) : heard_ok told → mdns_inv told m →
  mdns_inv (foldl hear told (drain_front max (md_pending m)).1) (with_queue m (drain_front max (md_pending m)).2).
Proof.
  intros Ht [[H1 H2 H3 H4 H5 H6 H7] Hl]. pose proof (drain_front_app max (md_pending m)) as Happ.
  set (out := (drain_front max (md_pending m)).1) in *. set (rest := (drain_front max (md_pending m)).2) in *.
  rewrite -Happ in H4, H5, H7, Hl. apply Forall_app in H4 as [_ H4]. rewrite filter_app len_app in H5. rewrite len_app in Hl.
  split; [|cbn [with_queue md_pending]; lia]. constructor; try done; cbn [with_queue md_pending md_last_emitted]; [lia|]. intros p Hp. etrans; [by apply H7|].
  unfold heard. by rewrite filter_app foldl_app heard_default.
Qed.
(** An address the backend withdraws. *)
Lemma withdrawn_inv (told : gmap TransportIdentity (gset bytes)) (m m1 : MdnsDiscovery) (p : TransportIdentity) (a : bytes) :
  mdns_inv told m → md_pending m1 = md_pending m → N.of_nat (size (md_seen m1)) ≤ MDNS_MAX_PEERS →
  (∀ q h, md_seen m1 !! q = Some h → h ≠ ∅) →
  (∀ q, held_addresses m1 q = if decide (q = p) then held_addresses m p ∖ {[a]} else held_addresses m q) →
  (∀ q, is_Some (md_last_emitted m1 !! q) → is_Some (md_last_emitted m !! q) ∧ is_Some (md_seen m1 !! q)) →
  mdns_inv told (Mdns_queue_expiry p m1 a).
Proof.
  intros [[H1 H2 H3 H4 H5 H6 H7] Hl] Hq Hs Hne Hh Hlast.
  assert (∀ q, held_addresses m1 q ⊆ held_addresses m q) as Hsub by (intros q; rewrite Hh; case_decide; [subst|]; set_solver).
  assert (queue_inv (held_addresses m) told m1) as Hm1.
  { constructor; rewrite ?Hq; try done.
    - intros q. split; [apply Hsub|]. apply H3.
    - eapply Forall_impl; [exact H4|]. intros [c|q src s|src x]; cbn [mdns_event_ok]; [done| |done].
      intros (?&?&?&Hd). split_and!; try done. specialize (Hsub q). set_solver.
    - intros q Hq'. by apply Hlast.
    - intros q Hq'. etrans; [apply Hsub|]. apply H7. by apply Hlast. }
  destruct (queue_expiry_inv (held_addresses m) told m1 p a Hm1) as (E1 & E2 & E3).
  { rewrite Hh decide_True //. set_solver. }
  split; [|done]. eapply queue_inv_ext; [|exact E1]. intros q. transitivity (held_addresses m1 q); [by rewrite Hh|].
  unfold held_addresses. by rewrite E3.
Qed.

Section backend_inv.
Variable dec : N → bytes → option bytes.

Lemma push_expired_inv (told : gmap TransportIdentity (gset bytes)) (m : MdnsDiscovery) (peer address : bytes) (now : N) :
  mdns_inv told m → mdns_inv told (Mdns_push_expired dec m peer address now).2.
Proof.
  intros Hm. unfold Mdns_push_expired. destruct (negb _ || _); [done|].
  destruct (TransportIdentity_parse dec peer) as [p|]; [|done]. destruct (md_seen m !! p) as [h|] eqn:Hp; [|done].
  destruct (h !! address) as [x|] eqn:Ha; [|done]. cbn [snd]. destruct (held_facts _ _ _ _ Hm Hp) as (F1 & F2 & F3 & F4).
  pose proof (proj1 Hm) as [H1 H2 H3 H4 H5 H6 H7].
  apply (withdrawn_inv told m); [done| | | | |]; case_bool_decide as Hd; cbn.
  - done.
  - done.
  - rewrite map_size_delete Hp /=. unfold MDNS_MAX_PEERS in *. lia.
  - by rewrite map_size_insert Hp.
  - intros q k [_ Hk]%lookup_delete_Some. by eapply H2.
  - intros q k [[<- <-]|[_ Hk]]%lookup_insert_Some; [done|by eapply H2].
  - intros q. rewrite F4 -dom_delete_L Hd dom_empty_L. unfold held_addresses. cbn. case_decide; [subst; by rewrite lookup_delete_eq|by rewrite lookup_delete_ne].
  - intros q. rewrite F4 -dom_delete_L. unfold held_addresses. cbn. case_decide; [subst; by rewrite lookup_insert_eq|by rewrite lookup_insert_ne].
  - intros q [y [Hne Hy]%lookup_delete_Some]. rewrite lookup_delete_ne //. assert (is_Some (md_last_emitted m !! q)) as Hq by by exists y.
    split; [done|by apply H6].
  - intros q Hq. rewrite lookup_insert_is_Some. split; [done|]. destruct (decide (p = q)); [by left|right]. split; [done|by apply H6].
Qed.
Lemma push_discovered_inv (told : gmap TransportIdentity (gset bytes)) (m : MdnsDiscovery) (peer address : bytes) (now : N) :
  mdns_inv told m → now < u64_max → mdns_inv told (Mdns_push_discovered dec m peer address now).2.
Proof.
  intros Hm Hnow. unfold Mdns_push_discovered. destruct (negb _ || _); [done|].
  destruct (TransportIdentity_parse dec peer) as [p|]; [|done].
  destruct ((len address =? 0) || (MAX_ADDRESS_BYTES <? len address)) eqn:Ea; [done|].
  apply orb_false_iff in Ea as [A1%N.eqb_neq A2%N.ltb_ge].
  destruct (sweep_inv told m now Hm) as (Hs & Hlive). set (m1 := Mdns_sweep m now) in *. clearbody m1. clear m Hm.
  set (held := default ∅ (md_seen m1 !! p)).
  destruct (bool_decide (md_seen m1 !! p = None) && (MDNS_MAX_PEERS <=? Mdns_peer_count m1)) eqn:Ep; [done|].
  destruct (bool_decide (held !! address = None) && (MDNS_MAX_ADDRESSES_PER_PEER <=? N.of_nat (size held))) eqn:Eh.
  { apply andb_true_iff in Eh as [_ Hsz%N.leb_le]. cbn [snd]. destruct (md_seen m1 !! p) as [h|] eqn:Hp; subst held; cbn in *.
    - by rewrite with_seen_same.
    - rewrite map_size_empty in Hsz. unfold MDNS_MAX_ADDRESSES_PER_PEER in Hsz. lia. }
  set (x := sat_add u64_max now OBSERVATION_TTL_MS). assert (now < x) as Hx.
  { unfold x, sat_add, OBSERVATION_TTL_MS. lia. }
  cbn [snd]. set (held' := <[address := x]> held). destruct (negb _ || _) eqn:Eq.
  - apply observation_inv; [done|apply insert_non_empty| | | | |].
    + unfold held_addresses, held'. fold held. rewrite dom_insert_L. set_solver.
    + unfold held'. rewrite map_size_insert. destruct (held !! address) as [y|] eqn:Ey; cbn.
      * destruct (md_seen m1 !! p) as [h|] eqn:Hp; [|by rewrite lookup_empty in Ey]. by apply (held_facts told m1 p h).
      * rewrite bool_decide_true // in Eh. apply N.leb_gt in Eh. lia.
    + unfold held'. intros b. rewrite dom_insert_L. intros [->%elem_of_singleton|Hb]%elem_of_union; [unfold address_ok; lia|].
      destruct (qi_allowed _ _ _ (proj1 Hs) p) as (_ & _ & Hok). by apply Hok.
    + unfold held'. intros b y [[_ <-]|[_ Hy]]%lookup_insert_Some; [done|]. subst held.
      destruct (md_seen m1 !! p) as [h|] eqn:Hp; [|by rewrite lookup_empty in Hy]. by eapply Hlive.
    + rewrite map_size_insert. destruct (md_seen m1 !! p) as [h|] eqn:Hp; cbn.
      * apply (qi_peers _ _ _ (proj1 Hs)).
      * rewrite bool_decide_true // in Ep. apply N.leb_gt in Ep. unfold Mdns_peer_count in Ep. lia.
  - apply orb_false_iff in Eq as [Eq%negb_false_iff%bool_decide_eq_true _]. subst held held'.
    destruct (md_seen m1 !! p) as [h|] eqn:Hp; [|cbn in Eq; rewrite lookup_empty in Eq; by destruct Eq].
    apply (prolong_inv _ _ _ h); [done|done|]. cbn in *. rewrite dom_insert_L. apply elem_of_dom in Eq. set_solver.
Qed.
End backend_inv.
Lemma drain_inv (told : gmap TransportIdentity (gset bytes)) (m : MdnsDiscovery) (now max : N) : heard_ok told → mdns_inv told m →
  mdns_inv (foldl hear told (Mdns_drain_events m now max).1) (Mdns_drain_events m now max).2.
Proof.
  intros Ht Hm. unfold Mdns_drain_events. destruct (negb _ || _); [done|].
  destruct (sweep_inv told m now Hm) as (Hs & Hlive).
  destruct (regenerate_inv told (owed_peers (Mdns_sweep m now)) _ now Hs Hlive) as (Hr & _). by apply taken_inv.
Qed.
Lemma start_inv (told : gmap TransportIdentity (gset bytes)) (m : MdnsDiscovery) (now : N) : mdns_inv told m →
  (md_started m = false → md_pending m = []) → mdns_inv told (Mdns_start m now).2.
Proof.
  intros Hm H0. unfold Mdns_start. destruct (md_started m) eqn:Es; [done|]. cbn [snd]. rewrite (H0 eq_refl).
  destruct Hm as [[H1 H2 H3 H4 H5 H6 H7] Hl]. split; [|by vm_compute]. constructor; try done.
  - by apply Forall_singleton.
  - intros p Hp. specialize (H7 p Hp). rewrite (H0 eq_refl) in H7. unfold heard in *. cbn [md_pending].
    by rewrite filter_cons_False.
Qed.

(** ** A lawful provider *)

Definition mdns_ok (m : MdnsDiscovery) : Prop :=
  (∃ told, heard_ok told ∧ mdns_inv told m) ∧ (md_started m = false → md_pending m = []).
(** Only the start and the shutdown change where the provider is in its life, and
    only the two reports change the backend's state. *)
Definition flags (m : MdnsDiscovery) : Life * bool := (MkLife (md_started m) (md_stopped m), md_backend_up m).
Lemma enforce_flags m : flags (Mdns_enforce_pending_bound m) = flags m.
Proof. unfold Mdns_enforce_pending_bound. destruct (_ <=? _); [done|]. by destruct (drop_excess _ _ _). Qed.
Lemma expiry_flags p m a : flags (Mdns_queue_expiry p m a) = flags m.
Proof. unfold Mdns_queue_expiry. by rewrite enforce_flags. Qed.
Lemma observation_flags m p now : flags (Mdns_queue_observation m p now) = flags m.
Proof.
  unfold Mdns_queue_observation. destruct (md_seen m !! p); [|done]. case_bool_decide; [done|]. by rewrite enforce_flags.
Qed.
Lemma health_flags m : flags (Mdns_queue_health m) = flags m.
Proof. unfold Mdns_queue_health. destruct (negb _ || _); [done|]. by rewrite enforce_flags. Qed.
Lemma foldl_flags {A} (f : MdnsDiscovery → A → MdnsDiscovery) l m : (∀ m a, flags (f m a) = flags m) → flags (foldl f m l) = flags m.
Proof. intros Hf. revert m. induction l as [|a l IH]; intros m; [done|]. cbn [foldl]. by rewrite IH. Qed.
Lemma sweep_flags m now : flags (Mdns_sweep m now) = flags m.
Proof. unfold Mdns_sweep. rewrite foldl_flags //. intros k g. apply foldl_flags. intros. apply expiry_flags. Qed.
Lemma regenerate_flags owed m now : flags (regenerate m owed now) = flags m.
Proof.
  revert m. induction owed as [|p owed IH]; intros m; [done|]. cbn [regenerate]. destruct (_ <? _); [done|]. by rewrite IH observation_flags.
Qed.
Lemma drain_flags m now max : flags (Mdns_drain_events m now max).2 = flags m.
Proof.
  unfold Mdns_drain_events. destruct (negb _ || _); [done|]. cbn [snd].
  transitivity (flags (regenerate (Mdns_sweep m now) (owed_peers (Mdns_sweep m now)) now)); [done|]. by rewrite regenerate_flags sweep_flags.
Qed.
Lemma discovered_flags dec m peer a now : flags (Mdns_push_discovered dec m peer a now).2 = flags m.
Proof.
  unfold Mdns_push_discovered. destruct (negb _ || _); [done|]. destruct (TransportIdentity_parse dec peer) as [p|]; [|done].
  destruct (_ || _); [done|]. rewrite -(sweep_flags m now). set (m1 := Mdns_sweep m now). destruct (_ && _); [done|].
  destruct (_ && _); [done|]. cbn [snd]. destruct (_ || _); [by rewrite observation_flags|done].
Qed.
Lemma expired_flags dec m peer a now : flags (Mdns_push_expired dec m peer a now).2 = flags m.
Proof.
  unfold Mdns_push_expired. destruct (negb _ || _); [done|]. destruct (TransportIdentity_parse dec peer) as [p|]; [|done].
  destruct (md_seen m !! p) as [h|]; [|done]. destruct (h !! a); [|done]. cbn [snd]. rewrite expiry_flags. by case_bool_decide.
Qed.
Lemma event_deliverable (m : MdnsDiscovery) (e : DiscoveryEvent) (told : gmap TransportIdentity (gset bytes)) :
  mdns_inv told m → mdns_event_ok (held_addresses m) m e → deliverable MDNS_SOURCE e.
Proof.
  intros Hm He. destruct e as [c|q src a|src h]; cbn in *; [|by destruct He|done]. destruct He as (H1 & H2 & H3 & H4).
  destruct (qi_allowed _ _ _ (proj1 Hm) (cand_peer_id c)) as (_ & Q2 & Q3). split; [done|]. apply candidate_valid.
  - split; [|set_solver]. etrans; [|etrans; [exact Q2|by vm_compute]]. pose proof (subseteq_size _ _ H3). lia.
  - rewrite H2. by vm_compute.
  - rewrite H1. by vm_compute.
  - done.
Qed.
Lemma drain_deliverables (m : MdnsDiscovery) (now max : N) : mdns_ok m →
  Forall (deliverable MDNS_SOURCE) (Mdns_drain_events m now max).1.
Proof.
  intros [(told & Ht & Hm) _]. unfold Mdns_drain_events. destruct (negb _ || _); [by constructor|].
  destruct (sweep_inv told m now Hm) as (Hs & Hlive).
  destruct (regenerate_inv told (owed_peers (Mdns_sweep m now)) _ now Hs Hlive) as (Hr & _).
  set (m1 := regenerate _ _ _) in *. cbn [fst drain_front]. pose proof (qi_events _ _ _ (proj1 Hr)) as He.
  rewrite -(ntake_ndrop (N.min max (len (md_pending m1))) (md_pending m1)) in He. apply Forall_app in He as [He _].
  eapply Forall_impl; [exact He|]. intros e. by apply (event_deliverable _ _ told).
Qed.
#[global] Program Instance Mdns_contract : ProviderContract MdnsDiscovery := {
  provider_ok := mdns_ok;
  provider_life m := MkLife (md_started m) (md_stopped m);
  provider_descriptor := MkProviderDescriptor MDNS_SOURCE PROVIDER_INTERFACE_VERSION None ScopeLocal Passive true false
}.
Next Obligation. done. Qed.
Next Obligation. by vm_compute. Qed.
Next Obligation.
  intros m now [(told & Ht & Hm) H0]. split; [exists told; split; [done|by apply start_inv]|].
  cbn. unfold Mdns_start. by destruct (md_started m) eqn:E; cbn; rewrite ?E.
Qed.
Next Obligation. intros m now Hs. cbn in *. unfold Mdns_start. by rewrite Hs. Qed.
Next Obligation. intros m now Hs. cbn in *. unfold Mdns_start. by rewrite Hs. Qed.
Next Obligation.
  intros m now max [(told & Ht & Hm) H0]. split.
  - exists (foldl hear told (Mdns_drain_events m now max).1). split; [by apply hear_heard_ok|by apply drain_inv].
  - pose proof (drain_flags m now max) as [= Hf _ _]. intros Hs. cbn in *. rewrite Hf in Hs. unfold Mdns_drain_events. rewrite Hs. by apply H0.
Qed.
Next Obligation. intros m now max. pose proof (drain_flags m now max) as [= E1 E2 _]. cbn. by rewrite E1 E2. Qed.
Next Obligation.
  intros m now max. cbn. unfold Mdns_drain_events. destruct (negb _ || _); [cbn [fst]; rewrite len_nil; lia|]. apply drain_front_len.
Qed.
Next Obligation. intros m now max. apply drain_deliverables. Qed.
Next Obligation.
  intros m now max. unfold alive. cbn. unfold Mdns_drain_events. by destruct (md_started m), (md_stopped m).
Qed.
Next Obligation. done. Qed.
Next Obligation. done. Qed.
Next Obligation. done. Qed.
Next Obligation. intros m. unfold alive. cbn. unfold Mdns_health. by destruct (md_started m), (md_stopped m). Qed.
Next Obligation. intros m now [(told & Ht & _) _]. split; [|done]. exists told. split; [done|]. apply emptied_inv. Qed.
Next Obligation. done. Qed.
Next Obligation. done. Qed.

(** ** Histories *)

Inductive mdns_op :=
| MdStart (now : N)
| MdDiscovered (peer address : bytes) (now : N)
| MdExpired (peer address : bytes) (now : N)
| MdBackendDown (now : N)
| MdBackendUp (now : N)
| MdDrain (now max : N)
| MdHint (h : PeerHint) (now : N)
| MdShutdown (now : N).
(** A discovery comes before the end of time. *)
Definition mdns_op_ok (op : mdns_op) : bool :=
  match op with MdDiscovered _ _ now => now <? u64_max | _ => true end.

Section history.
Variable dec : N → bytes → option bytes.

(** The provider and what its consumer holds. *)
Definition mdns_step (w : MdnsDiscovery * gmap TransportIdentity (gset bytes)) (op : mdns_op) :
    MdnsDiscovery * gmap TransportIdentity (gset bytes) :=
  let '(m, told) := w in
  match op with
  | MdStart now => ((Mdns_start m now).2, told)
  | MdDiscovered peer address now => ((Mdns_push_discovered dec m peer address now).2, told)
  | MdExpired peer address now => ((Mdns_push_expired dec m peer address now).2, told)
  | MdBackendDown now => (Mdns_report_backend_down m now, told)
  | MdBackendUp now => (Mdns_report_backend_up m now, told)
  | MdDrain now max => let '(events, m) := Mdns_drain_events m now max in (m, foldl hear told events)
  | MdHint h now => ((Mdns_add_hint m h now).2, told)
  | MdShutdown now => (Mdns_shutdown m now, told)
  end.
Definition mdns_world_inv (w : MdnsDiscovery * gmap TransportIdentity (gset bytes)) : Prop :=
  mdns_inv w.2 w.1 ∧ heard_ok w.2 ∧ (md_started w.1 = false → md_pending w.1 = []).

Lemma idle_kept (m m' : MdnsDiscovery) : (md_started m = false → md_pending m = []) → flags m' = flags m →
  (md_started m = false → m' = m) → md_started m' = false → md_pending m' = [].
Proof. intros H0 [= Hf _ _] Hm Hs. rewrite Hf in Hs. rewrite Hm //. by apply H0. Qed.
Lemma mdns_step_inv w op : mdns_op_ok op = true → mdns_world_inv w → mdns_world_inv (mdns_step w op).
Proof.
  destruct w as [m told]. intros Hop (Hm & Ht & H0). cbn in Hm, Ht, H0.
  destruct op as [now|peer a now|peer a now|now|now|now max|h now|now]; cbn [mdns_step].
  - split_and!; cbn [fst snd]; [by apply start_inv|done|]. unfold Mdns_start. by destruct (md_started m) eqn:E; cbn; rewrite ?E.
  - cbn in Hop. apply N.ltb_lt in Hop. split_and!; cbn [fst snd]; [by apply push_discovered_inv|done|].
    apply (idle_kept m); [done|apply discovered_flags|]. intros E. unfold Mdns_push_discovered. by rewrite E.
  - split_and!; cbn [fst snd]; [by apply push_expired_inv|done|].
    apply (idle_kept m); [done|apply expired_flags|]. intros E. unfold Mdns_push_expired. by rewrite E.
  - unfold Mdns_report_backend_down. destruct (md_backend_up m); [|done].
    split_and!; cbn [fst snd]; [by apply queue_health_inv, flags_inv|done|].
    apply (idle_kept (with_backend m false)); [done|apply health_flags|]. intros E. unfold Mdns_queue_health. by rewrite E.
  - unfold Mdns_report_backend_up. destruct (md_backend_up m); [done|].
    split_and!; cbn [fst snd]; [by apply queue_health_inv, flags_inv|done|].
    apply (idle_kept (with_backend m true)); [done|apply health_flags|]. intros E. unfold Mdns_queue_health. by rewrite E.
  - rewrite (surjective_pairing (Mdns_drain_events m now max)).
    split_and!; cbn [fst snd]; [by apply drain_inv|by apply hear_heard_ok|].
    apply (idle_kept m); [done|apply drain_flags|]. intros E. unfold Mdns_drain_events. by rewrite E.
  - done.
  - split_and!; cbn [fst snd]; [apply emptied_inv|done|done].
Qed.
Definition mdns_run (ops : list mdns_op) : MdnsDiscovery * gmap TransportIdentity (gset bytes) := foldl mdns_step (Mdns_new, ∅) ops.
Lemma mdns_run_inv ops : forallb mdns_op_ok ops = true → mdns_world_inv (mdns_run ops).
Proof.
  assert (∀ w, mdns_world_inv w → forallb mdns_op_ok ops = true → mdns_world_inv (foldl mdns_step w ops)) as H.
  { induction ops as [|op ops IH]; intros w Hw Hops; [done|]. cbn in *. apply andb_true_iff in Hops as [H1 H2].
    apply IH; [|done]. by apply mdns_step_inv. }
  apply H. split_and!; [apply mdns_new_inv| |done]. intros q. by rewrite lookup_empty held_as_empty.
Qed.
End history.

(** A sweep at an instant that has been swept does nothing. *)
Lemma sweep_live (told : gmap TransportIdentity (gset bytes)) (m : MdnsDiscovery) (now : N) :
  mdns_inv told m → all_live m now → Mdns_sweep m now = m.
Proof.
  intros [Hm _] Hlive. unfold Mdns_sweep.
  assert (filter (λ ph, ph.2 ≠ ∅) ((λ held : gmap bytes N, filter (λ ae, (now <? ae.2) = true) held) <$> md_seen m) = md_seen m) as Es.
  { apply map_eq. intros p. rewrite swept_lookup. destruct (md_seen m !! p) as [h|] eqn:Hp; [|done]. cbn zeta.
    assert (filter (λ ae, (now <? ae.2) = true) h = h) as ->.
    { apply map_filter_id. intros a x Hx. apply N.ltb_lt. by eapply Hlive. }
    by rewrite decide_True; [|by eapply qi_held]. }
  rewrite Es. assert (filter (λ pl, is_Some (md_seen m !! pl.1)) (md_last_emitted m) = md_last_emitted m) as ->.
  { apply map_filter_id. intros p x Hp. eapply qi_last; [done|by exists x]. }
  rewrite (list_filter_none (λ pg : TransportIdentity * list bytes, pg.2 ≠ [])); [by destruct m|].
  intros pg ([p h] & -> & Hp%elem_of_btree_to_list)%list_elem_of_fmap. cbn [snd fst] in *.
  assert (gone_at now h = []) as ->; [|by intros []]. unfold gone_at. rewrite list_filter_none //.
  intros [a x] Ha%elem_of_btree_to_list. cbn. intros Hx%N.leb_le. specialize (Hlive p h Hp a x Ha). lia.
Qed.
(** A drain leaves only what is live. *)
Lemma drained_live (told : gmap TransportIdentity (gset bytes)) (m : MdnsDiscovery) (now max : N) :
  mdns_inv told m → mdns_running m = true → all_live (Mdns_drain_events m now max).2 now.
Proof.
  intros Hm Hr. unfold Mdns_drain_events. unfold mdns_running in Hr. apply andb_true_iff in Hr as [-> Hr].
  apply negb_true_iff in Hr as ->. cbn [negb orb]. destruct (sweep_inv told m now Hm) as (Hs & Hlive).
  destruct (regenerate_inv told (owed_peers (Mdns_sweep m now)) _ now Hs Hlive) as (_ & R2 & _).
  unfold all_live. cbn. by rewrite R2.
Qed.
(** With room for everything owed, a drain leaves nobody owed. *)
Lemma drain_settles (told : gmap TransportIdentity (gset bytes)) (m : MdnsDiscovery) (now max : N) :
  mdns_inv told m → all_live m now → mdns_running m = true → len (md_pending m) ≤ MDNS_MAX_PEERS →
  ∀ p, is_Some (md_seen (Mdns_drain_events m now max).2 !! p) → is_Some (md_last_emitted (Mdns_drain_events m now max).2 !! p).
Proof.
  intros Hm Hlive Hr Hl p. unfold Mdns_drain_events. unfold mdns_running in Hr. apply andb_true_iff in Hr as [-> Hr].
  apply negb_true_iff in Hr as ->. cbn [negb orb]. rewrite (sweep_live told) //. cbn.
  destruct (regenerate_inv told (owed_peers m) m now Hm Hlive) as (_ & R2 & R3 & R4). rewrite R2. intros Hs.
  destruct (md_last_emitted m !! p) as [x|] eqn:E; [apply R3; by exists x|]. apply R4; [| |done].
  - assert (len (owed_peers m) ≤ MDNS_MAX_PEERS) as Ho.
    { etrans; [|apply (qi_peers _ _ _ (proj1 Hm))]. unfold owed_peers. rewrite -length_btree_to_list -(length_fmap fst).
      pose proof (length_filter (λ p, md_last_emitted m !! p = None) (btree_to_list (md_seen m)).*1). unfold len. lia. }
    unfold MDNS_MAX_PENDING_EVENTS, MDNS_MAX_PEERS, MDNS_MAX_ADDRESSES_PER_PEER in *. lia.
  - apply list_elem_of_filter. split; [done|]. destruct Hs as [h Hs]. apply list_elem_of_fmap. exists (p, h). by rewrite elem_of_btree_to_list.
Qed.

(** C19: whatever the local network sends, the provider's state is bounded and
    consistent. Through any history of announcements, withdrawals, backend
    failures, partial drains and clock readings, however they move (but for an
    announcement at the last instant of a 64-bit clock): at most 256
    peers are held, each with one to eight addresses of an admissible length; at
    most 2304 events are queued, at most one of them a health report; a queued
    observation names only addresses that are held, and a queued expiry, of one to
    eight addresses, none that is. *)
Theorem mdns_bounded (dec : N → bytes → option bytes) (ops : list mdns_op) (m : MdnsDiscovery)
    (told : gmap TransportIdentity (gset bytes)) :
  forallb mdns_op_ok ops = true → mdns_run dec ops = (m, told) →
  Mdns_peer_count m ≤ 256 ∧
  (∀ p h, md_seen m !! p = Some h → h ≠ ∅ ∧ N.of_nat (size h) ≤ 8 ∧ ∀ a, a ∈ dom h → 0 < len a ≤ MAX_ADDRESS_BYTES) ∧
  len (md_pending m) ≤ 2304 ∧ len (filter (λ e, is_health e = true) (md_pending m)) ≤ 1 ∧
  (∀ e, e ∈ md_pending m →
     match e with
     | CandidateObserved c => cand_addresses c ⊆ held_addresses m (cand_peer_id c) ∧ CandidatePeer_validate c = Ok ()
     | CandidateExpired p _ a => a ≠ ∅ ∧ N.of_nat (size a) ≤ 8 ∧ a ## held_addresses m p
     | HealthChanged _ _ => True
     end).
Proof.
  intros Hops E. pose proof (mdns_run_inv dec ops Hops) as (Hm & _ & _). rewrite E in Hm. cbn in Hm.
  pose proof Hm as [Hq Hl]. split_and!.
  - apply (qi_peers _ _ _ Hq).
  - intros p h Hp. destruct (held_facts _ _ _ _ Hm Hp) as (H1 & H2 & H3 & _). by split_and!.
  - exact Hl.
  - apply (qi_health _ _ _ Hq).
  - intros e He. pose proof (qi_events _ _ _ Hq) as Hev. rewrite -> Forall_forall in Hev. specialize (Hev e He).
    pose proof (event_deliverable m e told Hm Hev) as Hd. destruct e as [c|p src a|src h]; [|by destruct Hev as (_&?&?&?)|done].
    destruct Hev as (_&_&?&_), Hd as [_ ?]. done.
Qed.
Lemma held_seen (m : MdnsDiscovery) (p : TransportIdentity) (a : bytes) : a ∈ held_addresses m p → is_Some (md_seen m !! p).
Proof. unfold held_addresses. destruct (md_seen m !! p); [done|]. cbn. by rewrite dom_empty_L. Qed.
(** C20: nothing the provider holds is lost to its consumer, even when its queue
    overflowed. After any history without an announcement at the last instant of a
    64-bit clock, two drains at one instant, of which the first
    leaves at most 256 events queued and the second none, bring the consumer to
    every address of every peer the provider then holds: what the trim dropped has
    been said again. *)
Theorem mdns_recovers (dec : N → bytes → option bytes) (ops : list mdns_op) (m m1 m2 : MdnsDiscovery)
    (told : gmap TransportIdentity (gset bytes)) (now max1 max2 : N) (events1 events2 : list DiscoveryEvent)
    (p : TransportIdentity) (a : bytes) :
  forallb mdns_op_ok ops = true → mdns_run dec ops = (m, told) → mdns_running m = true →
  Mdns_drain_events m now max1 = (events1, m1) → len (md_pending m1) ≤ 256 →
  Mdns_drain_events m1 now max2 = (events2, m2) → md_pending m2 = [] →
  a ∈ held_addresses m2 p → a ∈ default ∅ (foldl hear told (events1 ++ events2) !! p).
Proof.
  intros Hops E Hr E1 Hl E2 Hp Ha. pose proof (mdns_run_inv dec ops Hops) as (Hm & Ht & _). rewrite E in Hm, Ht. cbn in Hm, Ht.
  pose proof (drain_inv told m now max1 Ht Hm) as D1. pose proof (drained_live told m now max1 Hm Hr) as L1.
  pose proof (drain_flags m now max1) as F1. rewrite E1 /= in D1, L1, F1.
  assert (mdns_running m1 = true) as Hr1 by (revert F1; unfold flags; intros [= F1 F2 _]; unfold mdns_running; by rewrite F1 F2).
  pose proof (drain_inv _ m1 now max2 (hear_heard_ok told events1 Ht) D1) as D2.
  pose proof (drain_settles _ m1 now max2 D1 L1 Hr1 Hl p) as S2. rewrite E2 /= in D2, S2.
  pose proof (qi_heard _ _ _ (proj1 D2) p (S2 (held_seen _ _ _ Ha))) as Hheard. rewrite Hp in Hheard. rewrite foldl_app.
  by apply Hheard.
Qed.

(** ** A concrete history *)

Definition lan_dec (_ : N) (_ : bytes) : option bytes :=
  Some ([x00; x24; x08; x01; x12; x20] ++ replicate 32 x00).
Definition lan_p1 : bytes := bs "12D3KooWDpJ7As7BWAwRMfu1VU2WCqNjvq387JEYKDBj4kx6nXTN".
Definition lan_p2 : bytes := bs "12D3KooWK99VoVxNE7XzyBwXEzW7xhK7Gpv85r9F3V3fyKSUKPH5".
Definition lan_ops : list mdns_op :=
  [MdStart 0; MdDiscovered lan_p1 (bs "/ip4/10.0.0.1/tcp/1") 100; MdDiscovered lan_p1 (bs "/ip4/10.0.0.1/tcp/2") 200;
   MdDrain 250 1; MdBackendDown 260; MdBackendUp 270; MdExpired lan_p1 (bs "/ip4/10.0.0.1/tcp/1") 280;
   MdDiscovered lan_p2 (bs "/ip4/10.0.0.2/tcp/1") 60000].
Abbreviation lan := (mdns_run lan_dec lan_ops).
Abbreviation lan_drain1 := (Mdns_drain_events lan.1 120150 2).
Abbreviation lan_drain2 := (Mdns_drain_events lan_drain1.2 120150 2304).
Lemma mdns_bounded_witness :
  (len (md_pending lan.1) =? 4) = true ∧ Mdns_peer_count lan.1 ≤ 256 ∧ len (md_pending lan.1) ≤ 2304.
Proof.
  split; [by vm_compute|].
  destruct (mdns_bounded lan_dec lan_ops lan.1 lan.2 ltac:(by vm_compute) (surjective_pairing _)) as (H1 & _ & H2 & _).
  by split.
Defined.
Lemma mdns_recovers_witness :
  (len lan_drain1.1 =? 2) = true ∧ bs "/ip4/10.0.0.1/tcp/2" ∈
    default ∅ (foldl hear lan.2 (lan_drain1.1 ++ lan_drain2.1) !! MkTransportIdentity lan_p1).
Proof.
  split; [by vm_compute|].
  apply (mdns_recovers lan_dec lan_ops lan.1 lan_drain1.2 lan_drain2.2 lan.2 120150 2 2304 lan_drain1.1 lan_drain2.1
           (MkTransportIdentity lan_p1)).
  - by vm_compute.
  - exact (surjective_pairing lan).
  - by vm_compute.
  - exact (surjective_pairing lan_drain1).
  - by vm_compute.
  - exact (surjective_pairing lan_drain2).
  - by vm_compute.
  - apply elem_of_dom. exists 120200. vm_compute. reflexivity.
Defined.
