(* ===== verification/KademliaApi.v ===== *)
(** * The port between the Kademlia provider and its driver

    [crates/api/kademlia-control-api/src/lib.rs]: commands, events, query handles
    and the routing view. There is no command that writes a record or dials. *)
From S2P Require Import Prelude Ids DiscoveryApi.
Local Open Scope N_scope.

Definition MAX_RESULTS_PER_QUERY : N := 20.
Definition MAX_ROUTING_PEERS : N := 1024.
Definition SATURATION_ROUNDS : N := 3.
Definition MAX_EXPLORATION_INTERVAL_MS : N := 15 * 60 * 1000.

Inductive KademliaMode := Client | Server.
Inductive QueryClass := Bootstrap | Targeted | Exploration.
#[global] Instance KademliaMode_eq_dec : EqDecision KademliaMode.
Proof. solve_decision. Defined.
#[global] Instance QueryClass_eq_dec : EqDecision QueryClass.
Proof. solve_decision. Defined.

(** ** Handles: two minters, one bit apart *)

Record QueryHandle := MkQueryHandle { QueryHandle_get : N }.
#[global] Instance QueryHandle_eq_dec : EqDecision QueryHandle.
Proof. solve_decision. Defined.
#[global] Instance QueryHandle_countable : Countable QueryHandle.
Proof. by refine (inj_countable' QueryHandle_get MkQueryHandle _); intros []. Defined.
Inductive QueryOrigin := Commanded | Implicit.
#[global] Instance QueryOrigin_eq_dec : EqDecision QueryOrigin.
Proof. solve_decision. Defined.

Definition IMPLICIT_BIT : N := N.shiftl 1 63.
(** [seq & !IMPLICIT_BIT] on 64 bits. *)
Definition QueryHandle_commanded (seq : N) : QueryHandle := MkQueryHandle (N.land seq (u64_max - IMPLICIT_BIT)).
Definition QueryHandle_implicit (seq : N) : QueryHandle := MkQueryHandle (N.lor seq IMPLICIT_BIT).
Definition QueryHandle_origin (h : QueryHandle) : QueryOrigin :=
  if N.land (QueryHandle_get h) IMPLICIT_BIT =? 0 then Commanded else Implicit.

(** ** Keys: what the 32 bytes mean *)

Inductive LookupKey := Ed25519PublicKey (key : bytes) | KeySpacePoint (point : bytes).
Definition LookupKey_bytes (k : LookupKey) : bytes := match k with Ed25519PublicKey k | KeySpacePoint k => k end.
Definition LookupKey_as_public_key (k : LookupKey) : option bytes :=
  match k with Ed25519PublicKey k => Some k | KeySpacePoint _ => None end.

(** ** Bounded collections *)

Inductive PortLimit :=
| TooManyAddresses (got : N)
| AddressOutOfBounds (got : N)
| TooManyResults (got : N).
Record OfferedAddress := MkOfferedAddress { OfferedAddress_as_str : bytes }.
Record OfferedAddresses := MkOfferedAddresses { OfferedAddresses_as_slice : list OfferedAddress }.
Record ObservedCandidates := MkObservedCandidates { ObservedCandidates_as_slice : list CandidatePeer }.

Definition OfferedAddress_parse (address : bytes) : result OfferedAddress PortLimit :=
  if (len address =? 0) || (MAX_ADDRESS_BYTES <? len address) then Err (AddressOutOfBounds (len address))
  else Ok (MkOfferedAddress address).
(** Reads at most one item past the limit. *)
Fixpoint offered_loop (out : list OfferedAddress) (addresses : list OfferedAddress) : result OfferedAddresses PortLimit :=
  match addresses with
  | [] => Ok (MkOfferedAddresses out)
  | a :: addresses =>
      if MAX_ADDRESSES <=? len out then Err (TooManyAddresses (MAX_ADDRESSES + 1))
      else offered_loop (out ++ [a]) addresses
  end.
Definition OfferedAddresses_new (addresses : list OfferedAddress) : result OfferedAddresses PortLimit :=
  offered_loop [] addresses.
Fixpoint parse_loop (out : list OfferedAddress) (addresses : list bytes) : result OfferedAddresses PortLimit :=
  match addresses with
  | [] => Ok (MkOfferedAddresses out)
  | a :: addresses =>
      if MAX_ADDRESSES <=? len out then Err (TooManyAddresses (MAX_ADDRESSES + 1))
      else a <-? OfferedAddress_parse a; parse_loop (out ++ [a]) addresses
  end.
Definition OfferedAddresses_parse_all (addresses : list bytes) : result OfferedAddresses PortLimit :=
  parse_loop [] addresses.
Fixpoint observed_loop (out candidates : list CandidatePeer) : result ObservedCandidates PortLimit :=
  match candidates with
  | [] => Ok (MkObservedCandidates out)
  | c :: candidates =>
      if MAX_RESULTS_PER_QUERY <=? len out then Err (TooManyResults (MAX_RESULTS_PER_QUERY + 1))
      else observed_loop (out ++ [c]) candidates
  end.
Definition ObservedCandidates_new (candidates : list CandidatePeer) : result ObservedCandidates PortLimit :=
  observed_loop [] candidates.

(** ** Commands and events *)

Inductive KademliaCommand :=
| SetMode (mode : KademliaMode)
| OfferRoutingPeer (addresses : OfferedAddresses) (peer : TransportIdentity)
| StartQuery (handle : QueryHandle) (class : QueryClass) (key : LookupKey)
| KadShutdown.
Inductive QueryFailure := TimedOut | NoRoutingPeers | FailureBudgetExhausted | ShuttingDown.
Inductive KademliaEvent :=
| QueryStarted (handle : QueryHandle) (class : QueryClass) (origin : QueryOrigin)
| QueryResults (handle : QueryHandle) (candidates : ObservedCandidates) (class : QueryClass)
| RoutingPeerAdded (peer : TransportIdentity)
| RoutingPeerRemoved (peer : TransportIdentity)
| QueryFailed (handle : QueryHandle) (class : QueryClass) (reason : QueryFailure).

(** ** The routing view *)

Record RoutingView := MkRoutingView {
  rv_routing_peers : N;
  rv_target_routing_peers : N;
  rv_max_routing_peers : N;
  rv_remote_trusted_population : N;
  rv_no_progress_rounds : N
}.
Definition RoutingView_effective_target (v : RoutingView) : N :=
  let t := rv_target_routing_peers v in
  let t := if rv_max_routing_peers v <? t then rv_max_routing_peers v else t in
  if rv_remote_trusted_population v <? t then rv_remote_trusted_population v else t.
Definition RoutingView_is_target_satisfied (v : RoutingView) : bool :=
  RoutingView_effective_target v <=? rv_routing_peers v.
Definition RoutingView_is_saturated (v : RoutingView) : bool := SATURATION_ROUNDS <=? rv_no_progress_rounds v.
Definition RoutingView_can_become_healthy (v : RoutingView) : bool := 0 <? rv_remote_trusted_population v.
Definition RoutingView_health (v : RoutingView) (recent_queries_succeeded : bool) : ProviderHealth :=
  if negb (RoutingView_can_become_healthy v) then Unavailable
  else if recent_queries_succeeded && (RoutingView_is_target_satisfied v || RoutingView_is_saturated v)
  then Healthy else Degraded.
(** [while round < no_progress_rounds], on the rounds that are left. *)
Fixpoint back_off (rounds_left : nat) (interval : N) : N :=
  match rounds_left with
  | O => interval
  | S rounds_left =>
      let interval := sat_mul u64_max interval 2 in
      if MAX_EXPLORATION_INTERVAL_MS <=? interval then MAX_EXPLORATION_INTERVAL_MS
      else back_off rounds_left interval
  end.
Definition RoutingView_next_exploration_interval_ms (v : RoutingView) (base_ms : N) : N :=
  let interval := if MAX_EXPLORATION_INTERVAL_MS <? base_ms then MAX_EXPLORATION_INTERVAL_MS else base_ms in
  back_off (N.to_nat (rv_no_progress_rounds v)) interval.

Inductive LimitViolation := LimTargetAboveMax | LimRefreshBelowMinimum | LimResultsAboveBucket.
Definition validate_limits (target_routing_peers max_routing_peers bootstrap_min_interval_ms
    bootstrap_refresh_interval_ms max_results_per_query kbucket_size : N) : result () LimitViolation :=
  if max_routing_peers <? target_routing_peers then Err LimTargetAboveMax
  else if bootstrap_refresh_interval_ms <? bootstrap_min_interval_ms then Err LimRefreshBelowMinimum
  else if kbucket_size <? max_results_per_query then Err LimResultsAboveBucket
  else Ok ().

(** ** Facts *)

(** The doubling loop, in closed form. *)
Lemma back_off_spec n i : i ≤ MAX_EXPLORATION_INTERVAL_MS →
  back_off n i = N.min MAX_EXPLORATION_INTERVAL_MS (i * 2 ^ N.of_nat n).
Proof.
  revert i. induction n as [|n IH]; intros i Hi; cbn [back_off].
  { change (2 ^ N.of_nat 0) with 1. lia. }
  rewrite Nat2N.inj_succ N.pow_succ_r'. assert (0 < 2 ^ N.of_nat n) as Hp by (apply N.neq_0_lt_0, N.pow_nonzero; lia).
  assert (sat_mul u64_max i 2 = i * 2) as Hs.
  { unfold sat_mul. unfold MAX_EXPLORATION_INTERVAL_MS, u64_max in *. lia. }
  rewrite Hs. destruct (N.leb_spec MAX_EXPLORATION_INTERVAL_MS (i * 2)) as [Hc|Hc].
  - rewrite N.min_l //. nia.
  - rewrite IH; [|lia]. f_equal. lia.
Qed.
Lemma next_interval_spec v base : RoutingView_next_exploration_interval_ms v base =
  N.min MAX_EXPLORATION_INTERVAL_MS (base * 2 ^ rv_no_progress_rounds v).
Proof.
  unfold RoutingView_next_exploration_interval_ms.
  assert (0 < 2 ^ rv_no_progress_rounds v) as Hp by (apply N.neq_0_lt_0, N.pow_nonzero; lia).
  destruct (N.ltb_spec MAX_EXPLORATION_INTERVAL_MS base) as [Hb|Hb]; rewrite back_off_spec ?N2Nat.id //; nia.
Qed.
Lemma effective_target_min v : RoutingView_effective_target v =
  N.min (N.min (rv_target_routing_peers v) (rv_max_routing_peers v)) (rv_remote_trusted_population v).
Proof.
  unfold RoutingView_effective_target. destruct (N.ltb_spec (rv_max_routing_peers v) (rv_target_routing_peers v)) as [H|H];
    [destruct (N.ltb_spec (rv_remote_trusted_population v) (rv_max_routing_peers v))|
     destruct (N.ltb_spec (rv_remote_trusted_population v) (rv_target_routing_peers v))]; lia.
Qed.

(** The two minters never meet. *)
Lemma commanded_origin seq : QueryHandle_origin (QueryHandle_commanded seq) = Commanded.
Proof.
  unfold QueryHandle_origin, QueryHandle_commanded. cbn [QueryHandle_get]. rewrite -N.land_assoc.
  change (N.land (u64_max - IMPLICIT_BIT) IMPLICIT_BIT) with 0. by rewrite N.land_0_r.
Qed.
Lemma implicit_origin seq : QueryHandle_origin (QueryHandle_implicit seq) = Implicit.
Proof.
  unfold QueryHandle_origin, QueryHandle_implicit. cbn [QueryHandle_get]. rewrite N.land_lor_distr_l.
  destruct (N.eqb_spec (N.lor (N.land seq IMPLICIT_BIT) (N.land IMPLICIT_BIT IMPLICIT_BIT)) 0) as [E|]; [|done].
  by apply N.lor_eq_0_iff in E as [_ E].
Qed.
Lemma commanded_small seq : seq < IMPLICIT_BIT → QueryHandle_commanded seq = MkQueryHandle seq.
Proof.
  intros H. unfold QueryHandle_commanded. f_equal. change (u64_max - IMPLICIT_BIT) with (N.ones 63).
  rewrite N.land_ones. by apply N.mod_small.
Qed.
