(* ===== verification/Kademlia.v ===== *)
(** * The DHT as a discovery provider

    [crates/discovery/kademlia/src]: the query budgets ([budgets.rs]), the pacing
    ([scheduler.rs]), the filter on results ([normalize.rs]), the health
    ([health.rs]) and [KademliaDiscovery] ([provider.rs]), which decides what the
    driver is asked and what the consumer is told. *)
From S2P Require Import Prelude Ids DiscoveryApi Discovery Provider ProviderQueue PeerCache KademliaApi.
Local Open Scope N_scope.

(** ** [budgets.rs] *)

Definition WINDOW_MS : N := 60000.
Record Permit := MkPermit { permit_id : N }.
Inductive BudgetRefusal := BudgetConcurrency | BudgetRate.
(** [next_permit] counts acquisitions and stays below 2^64. *)
Record QueryBudgets := MkQueryBudgets {
  qb_max_concurrent : N;
  qb_max_per_minute : N;
  qb_starts : list N;
  qb_running : gmap QueryHandle (N * QueryClass);
  qb_unbound : gmap N N;
  qb_next_permit : N
}.
Definition QueryBudgets_new (max_concurrent max_per_minute : N) : QueryBudgets :=
  MkQueryBudgets max_concurrent max_per_minute [] ∅ ∅ 0.
Definition qb_with (b : QueryBudgets) (starts : list N) (running : gmap QueryHandle (N * QueryClass))
    (unbound : gmap N N) : QueryBudgets :=
  MkQueryBudgets (qb_max_concurrent b) (qb_max_per_minute b) starts running unbound (qb_next_permit b).
(** [while front().is_some_and(..) { pop_front() }] *)
Fixpoint drop_lapsed (now_ms : N) (starts : list N) : list N :=
  match starts with
  | t :: rest => if WINDOW_MS <=? sat_sub now_ms t then drop_lapsed now_ms rest else starts
  | [] => []
  end.
Definition QueryBudgets_prune (b : QueryBudgets) (now_ms : N) : QueryBudgets :=
  qb_with b (drop_lapsed now_ms (qb_starts b)) (qb_running b) (qb_unbound b).
Definition QueryBudgets_mint (b : QueryBudgets) (now_ms : N) : Permit * QueryBudgets :=
  let next := qb_next_permit b + 1 in
  (MkPermit next,
   MkQueryBudgets (qb_max_concurrent b) (qb_max_per_minute b) (qb_starts b ++ [now_ms]) (qb_running b)
     (<[next := now_ms]> (qb_unbound b)) next).
Definition QueryBudgets_held (b : QueryBudgets) : N := N.of_nat (size (qb_running b)) + N.of_nat (size (qb_unbound b)).
Definition QueryBudgets_acquire (b : QueryBudgets) (now_ms : N) : result Permit BudgetRefusal * QueryBudgets :=
  let b := QueryBudgets_prune b now_ms in
  if qb_max_concurrent b <=? QueryBudgets_held b then (Err BudgetConcurrency, b)
  else if qb_max_per_minute b <=? len (qb_starts b) then (Err BudgetRate, b)
  else let '(permit, b) := QueryBudgets_mint b now_ms in (Ok permit, b).
Definition QueryBudgets_charge_unscheduled (b : QueryBudgets) (now_ms : N) : Permit * QueryBudgets :=
  QueryBudgets_mint (QueryBudgets_prune b now_ms) now_ms.
(** [position(..)] and [remove(i)]: the first of the equal starts. *)
Fixpoint remove_start (at_ : N) (starts : list N) : list N :=
  match starts with
  | [] => []
  | t :: rest => if t =? at_ then rest else t :: remove_start at_ rest
  end.
Definition QueryBudgets_release (b : QueryBudgets) (permit : Permit) : QueryBudgets :=
  match qb_unbound b !! permit_id permit with
  | None => b
  | Some at_ => qb_with b (remove_start at_ (qb_starts b)) (qb_running b) (delete (permit_id permit) (qb_unbound b))
  end.
Definition QueryBudgets_bind (b : QueryBudgets) (permit : Permit) (handle : QueryHandle) (class : QueryClass) : QueryBudgets :=
  if bool_decide (is_Some (qb_running b !! handle)) then QueryBudgets_release b permit
  else match qb_unbound b !! permit_id permit with
       | Some _ => qb_with b (qb_starts b) (<[handle := (permit_id permit, class)]> (qb_running b))
                     (delete (permit_id permit) (qb_unbound b))
       | None => b
       end.
Definition QueryBudgets_finish (b : QueryBudgets) (handle : QueryHandle) (class : QueryClass) : bool * QueryBudgets :=
  match qb_running b !! handle with
  | Some (_, announced) =>
      if bool_decide (announced = class)
      then (true, qb_with b (qb_starts b) (delete handle (qb_running b)) (qb_unbound b)) else (false, b)
  | None => (false, b)
  end.
Definition is_implicit (h : QueryHandle) : bool := bool_decide (QueryHandle_origin h = Implicit).
Definition QueryBudgets_implicit_held (b : QueryBudgets) : N :=
  N.of_nat (size (filter (λ hp, is_implicit hp.1 = true) (qb_running b))).

(** ** [scheduler.rs] *)

Record Pacing := MkPacing { pc_next_exploration_due : option N; pc_last_bootstrap : option N }.
Definition Pacing_default : Pacing := MkPacing None None.
Definition Pacing_exploration_due (p : Pacing) (now_ms : N) : bool :=
  match pc_next_exploration_due p with Some due => due <=? now_ms | None => true end.
Definition Pacing_schedule_exploration (p : Pacing) (now_ms : N) (view : RoutingView)
    (base_interval_ms jitter_percent entropy : N) : Pacing :=
  let interval := RoutingView_next_exploration_interval_ms view base_interval_ms in
  let range := sat_mul u64_max interval jitter_percent / 100 in
  let span := sat_add u64_max (sat_mul u64_max range 2) 1 in
  let offset := entropy mod span in
  let jittered := sat_sub (sat_add u64_max interval offset) range in
  MkPacing (Some (sat_add u64_max now_ms jittered)) (pc_last_bootstrap p).
Definition Pacing_reset_exploration (p : Pacing) : Pacing := MkPacing None (pc_last_bootstrap p).
Definition Pacing_bootstrap_allowed (p : Pacing) (now_ms min_interval_ms : N) : bool :=
  match pc_last_bootstrap p with Some at_ => min_interval_ms <=? sat_sub now_ms at_ | None => true end.
Definition Pacing_bootstrap_refresh_due (p : Pacing) (now_ms refresh_interval_ms : N) : bool :=
  match pc_last_bootstrap p with Some at_ => refresh_interval_ms <=? sat_sub now_ms at_ | None => false end.
Definition Pacing_record_bootstrap (p : Pacing) (now_ms : N) : Pacing :=
  MkPacing (pc_next_exploration_due p) (Some now_ms).

(** ** [normalize.rs] *)

Definition ED25519_ENVELOPE : bytes := [x00; x24; x08; x01; x12; x20].
(** What follows the last occurrence of [pat]. *)
Fixpoint after_last (pat s : bytes) : option bytes :=
  match s with
  | [] => None
  | _ :: rest => match after_last pat rest with Some t => Some t | None => strip_prefix pat s end
  end.
Definition suffix_consistent (address : bytes) (peer : TransportIdentity) : bool :=
  match after_last (bs "/p2p/") address with
  | None => true
  | Some tail => byte_in tail (byte_of 47) || bool_decide (tail = TransportIdentity_as_str peer)
  end.
Definition normalized_addresses (candidate : CandidatePeer) (local : TransportIdentity) : option (gset bytes) :=
  if bool_decide (cand_peer_id candidate = local) then None
  else Some (list_to_set (ntake MAX_ADDRESSES
         (filter (λ a, negb (len a =? 0) && (len a <=? MAX_ADDRESS_BYTES) &&
                       suffix_consistent a (cand_peer_id candidate) = true)
            (bset_to_list (cand_addresses candidate))))).

(** ** [health.rs] *)

Definition provider_health (started stopped : bool) (mode : KademliaMode) (view : RoutingView)
    (recent_queries_succeeded saturation_valid : bool) : ProviderHealth :=
  if negb started || stopped then Unavailable
  else if negb (RoutingView_can_become_healthy view) then Unavailable
  else
    let effective := if saturation_valid then view
      else MkRoutingView (rv_routing_peers view) (rv_target_routing_peers view) (rv_max_routing_peers view)
             (rv_remote_trusted_population view) 0 in
    let population := RoutingView_health effective recent_queries_succeeded in
    if bool_decide (mode = Server) && bool_decide (population = Healthy) then Degraded else population.

(** ** [provider.rs] *)

Definition KAD_SOURCE : bytes := bs "kademlia".
Definition KAD_CONFIG_VERSION : bytes := bs "1.0".
Definition MAX_TRACKED_CANDIDATES : N := MAX_ROUTING_PEERS.
Definition MAX_CAPABILITY_EVIDENCE : N := MAX_ROUTING_PEERS.
Definition MAX_PENDING_COMMANDS : N := 256.
Definition MAX_IMPLICIT_CHARGES : N := 8.
Definition NETWORK_HASH_LEN : N := 26.

Record KademliaProviderConfig := MkKademliaProviderConfig {
  kc_mode : KademliaMode;
  kc_wire_major : N;
  kc_network_hash : bytes;
  kc_candidate_ttl_ms : N;
  kc_targeted_lookup_cooldown_ms : N;
  kc_target_routing_peers : N;
  kc_max_routing_peers : N;
  kc_exploration_interval_ms : N;
  kc_exploration_jitter_percent : N;
  kc_max_concurrent_queries : N;
  kc_max_queries_per_minute : N;
  kc_bootstrap_min_interval_ms : N;
  kc_bootstrap_refresh_interval_ms : N
}.
Inductive ProviderConfigError :=
| ZeroWireMajor
| MalformedNetworkHash
| ZeroCandidateTtl
| TargetAboveMax
| OutOfRange (field : string) (got lo hi : N)
| RefreshBelowMinimum.
Inductive BootstrapRefusal := BootNotRunning | BootTooSoon | BootBudgetExhausted | BootUntargetableSelf.
Inductive TargetedRefusal :=
| TgtNotRunning | SelfTarget | NotTrusted | NoServerEvidence | StaleServerEvidence | NegativeServerEvidence
| UsableAddressExists | CooldownActive | TgtBudgetExhausted | NotTargetableIdentity.
Record Tracked := MkTracked { tr_observed_at : N; tr_expires_at : N; tr_addresses : gset bytes }.
Record Evidence := MkEvidence { ev_supported : bool; ev_observed_at : N; ev_expires_at : N }.
#[global] Instance Tracked_eq_dec : EqDecision Tracked.
Proof. solve_decision. Defined.
#[global] Instance Evidence_eq_dec : EqDecision Evidence.
Proof. solve_decision. Defined.

Record KademliaDiscovery := MkKademliaDiscovery {
  kd_config : KademliaProviderConfig;
  kd_local : TransportIdentity;
  kd_expected_protocol : ProtocolId;
  kd_started : bool;
  kd_stopped : bool;
  kd_trusted : gset TransportIdentity;
  kd_routing : gset TransportIdentity;
  kd_last_query_success_ms : option N;
  kd_last_reported_health : option ProviderHealth;
  kd_commands : list KademliaCommand;
  kd_tracked : gmap TransportIdentity Tracked;
  kd_emitted : gmap TransportIdentity Tracked;
  kd_evidence : gmap TransportIdentity Evidence;
  kd_cooldowns : gmap TransportIdentity N;
  kd_budgets : QueryBudgets;
  kd_pacing : Pacing;
  kd_no_progress_rounds : N;
  kd_admissions : N;
  kd_exploration_snapshot : option N;
  kd_implicit_uncharged : N;
  kd_local_key : option bytes;
  kd_clock : N;
  kd_next_handle : N;
  kd_exploration_entropy : N
}.
Definition kd_set_started (k : KademliaDiscovery) (x : bool) : KademliaDiscovery :=
  MkKademliaDiscovery (kd_config k) (kd_local k) (kd_expected_protocol k) x (kd_stopped k) (kd_trusted k)
    (kd_routing k) (kd_last_query_success_ms k) (kd_last_reported_health k) (kd_commands k) (kd_tracked k)
    (kd_emitted k) (kd_evidence k) (kd_cooldowns k) (kd_budgets k) (kd_pacing k) (kd_no_progress_rounds k)
    (kd_admissions k) (kd_exploration_snapshot k) (kd_implicit_uncharged k) (kd_local_key k) (kd_clock k)
    (kd_next_handle k) (kd_exploration_entropy k).
Definition kd_set_stopped (k : KademliaDiscovery) (x : bool) : KademliaDiscovery :=
  MkKademliaDiscovery (kd_config k) (kd_local k) (kd_expected_protocol k) (kd_started k) x (kd_trusted k)
    (kd_routing k) (kd_last_query_success_ms k) (kd_last_reported_health k) (kd_commands k) (kd_tracked k)
    (kd_emitted k) (kd_evidence k) (kd_cooldowns k) (kd_budgets k) (kd_pacing k) (kd_no_progress_rounds k)
    (kd_admissions k) (kd_exploration_snapshot k) (kd_implicit_uncharged k) (kd_local_key k) (kd_clock k)
    (kd_next_handle k) (kd_exploration_entropy k).
Definition kd_set_trusted (k : KademliaDiscovery) (x : gset TransportIdentity) : KademliaDiscovery :=
  MkKademliaDiscovery (kd_config k) (kd_local k) (kd_expected_protocol k) (kd_started k) (kd_stopped k) x
    (kd_routing k) (kd_last_query_success_ms k) (kd_last_reported_health k) (kd_commands k) (kd_tracked k)
    (kd_emitted k) (kd_evidence k) (kd_cooldowns k) (kd_budgets k) (kd_pacing k) (kd_no_progress_rounds k)
    (kd_admissions k) (kd_exploration_snapshot k) (kd_implicit_uncharged k) (kd_local_key k) (kd_clock k)
    (kd_next_handle k) (kd_exploration_entropy k).
Definition kd_set_routing (k : KademliaDiscovery) (x : gset TransportIdentity) : KademliaDiscovery :=
  MkKademliaDiscovery (kd_config k) (kd_local k) (kd_expected_protocol k) (kd_started k) (kd_stopped k)
    (kd_trusted k) x (kd_last_query_success_ms k) (kd_last_reported_health k) (kd_commands k) (kd_tracked k)
    (kd_emitted k) (kd_evidence k) (kd_cooldowns k) (kd_budgets k) (kd_pacing k) (kd_no_progress_rounds k)
    (kd_admissions k) (kd_exploration_snapshot k) (kd_implicit_uncharged k) (kd_local_key k) (kd_clock k)
    (kd_next_handle k) (kd_exploration_entropy k).
Definition kd_set_last_query_success_ms (k : KademliaDiscovery) (x : option N) : KademliaDiscovery :=
  MkKademliaDiscovery (kd_config k) (kd_local k) (kd_expected_protocol k) (kd_started k) (kd_stopped k)
    (kd_trusted k) (kd_routing k) x (kd_last_reported_health k) (kd_commands k) (kd_tracked k) (kd_emitted k)
    (kd_evidence k) (kd_cooldowns k) (kd_budgets k) (kd_pacing k) (kd_no_progress_rounds k) (kd_admissions k)
    (kd_exploration_snapshot k) (kd_implicit_uncharged k) (kd_local_key k) (kd_clock k) (kd_next_handle k)
    (kd_exploration_entropy k).
Definition kd_set_last_reported_health (k : KademliaDiscovery) (x : option ProviderHealth) : KademliaDiscovery :=
  MkKademliaDiscovery (kd_config k) (kd_local k) (kd_expected_protocol k) (kd_started k) (kd_stopped k)
    (kd_trusted k) (kd_routing k) (kd_last_query_success_ms k) x (kd_commands k) (kd_tracked k) (kd_emitted k)
    (kd_evidence k) (kd_cooldowns k) (kd_budgets k) (kd_pacing k) (kd_no_progress_rounds k) (kd_admissions k)
    (kd_exploration_snapshot k) (kd_implicit_uncharged k) (kd_local_key k) (kd_clock k) (kd_next_handle k)
    (kd_exploration_entropy k).
Definition kd_set_commands (k : KademliaDiscovery) (x : list KademliaCommand) : KademliaDiscovery :=
  MkKademliaDiscovery (kd_config k) (kd_local k) (kd_expected_protocol k) (kd_started k) (kd_stopped k)
    (kd_trusted k) (kd_routing k) (kd_last_query_success_ms k) (kd_last_reported_health k) x (kd_tracked k)
    (kd_emitted k) (kd_evidence k) (kd_cooldowns k) (kd_budgets k) (kd_pacing k) (kd_no_progress_rounds k)
    (kd_admissions k) (kd_exploration_snapshot k) (kd_implicit_uncharged k) (kd_local_key k) (kd_clock k)
    (kd_next_handle k) (kd_exploration_entropy k).
Definition kd_set_tracked (k : KademliaDiscovery) (x : gmap TransportIdentity Tracked) : KademliaDiscovery :=
  MkKademliaDiscovery (kd_config k) (kd_local k) (kd_expected_protocol k) (kd_started k) (kd_stopped k)
    (kd_trusted k) (kd_routing k) (kd_last_query_success_ms k) (kd_last_reported_health k) (kd_commands k) x
    (kd_emitted k) (kd_evidence k) (kd_cooldowns k) (kd_budgets k) (kd_pacing k) (kd_no_progress_rounds k)
    (kd_admissions k) (kd_exploration_snapshot k) (kd_implicit_uncharged k) (kd_local_key k) (kd_clock k)
    (kd_next_handle k) (kd_exploration_entropy k).
Definition kd_set_emitted (k : KademliaDiscovery) (x : gmap TransportIdentity Tracked) : KademliaDiscovery :=
  MkKademliaDiscovery (kd_config k) (kd_local k) (kd_expected_protocol k) (kd_started k) (kd_stopped k)
    (kd_trusted k) (kd_routing k) (kd_last_query_success_ms k) (kd_last_reported_health k) (kd_commands k)
    (kd_tracked k) x (kd_evidence k) (kd_cooldowns k) (kd_budgets k) (kd_pacing k) (kd_no_progress_rounds k)
    (kd_admissions k) (kd_exploration_snapshot k) (kd_implicit_uncharged k) (kd_local_key k) (kd_clock k)
    (kd_next_handle k) (kd_exploration_entropy k).
Definition kd_set_evidence (k : KademliaDiscovery) (x : gmap TransportIdentity Evidence) : KademliaDiscovery :=
  MkKademliaDiscovery (kd_config k) (kd_local k) (kd_expected_protocol k) (kd_started k) (kd_stopped k)
    (kd_trusted k) (kd_routing k) (kd_last_query_success_ms k) (kd_last_reported_health k) (kd_commands k)
    (kd_tracked k) (kd_emitted k) x (kd_cooldowns k) (kd_budgets k) (kd_pacing k) (kd_no_progress_rounds k)
    (kd_admissions k) (kd_exploration_snapshot k) (kd_implicit_uncharged k) (kd_local_key k) (kd_clock k)
    (kd_next_handle k) (kd_exploration_entropy k).
Definition kd_set_cooldowns (k : KademliaDiscovery) (x : gmap TransportIdentity N) : KademliaDiscovery :=
  MkKademliaDiscovery (kd_config k) (kd_local k) (kd_expected_protocol k) (kd_started k) (kd_stopped k)
    (kd_trusted k) (kd_routing k) (kd_last_query_success_ms k) (kd_last_reported_health k) (kd_commands k)
    (kd_tracked k) (kd_emitted k) (kd_evidence k) x (kd_budgets k) (kd_pacing k) (kd_no_progress_rounds k)
    (kd_admissions k) (kd_exploration_snapshot k) (kd_implicit_uncharged k) (kd_local_key k) (kd_clock k)
    (kd_next_handle k) (kd_exploration_entropy k).
Definition kd_set_budgets (k : KademliaDiscovery) (x : QueryBudgets) : KademliaDiscovery :=
  MkKademliaDiscovery (kd_config k) (kd_local k) (kd_expected_protocol k) (kd_started k) (kd_stopped k)
    (kd_trusted k) (kd_routing k) (kd_last_query_success_ms k) (kd_last_reported_health k) (kd_commands k)
    (kd_tracked k) (kd_emitted k) (kd_evidence k) (kd_cooldowns k) x (kd_pacing k) (kd_no_progress_rounds k)
    (kd_admissions k) (kd_exploration_snapshot k) (kd_implicit_uncharged k) (kd_local_key k) (kd_clock k)
    (kd_next_handle k) (kd_exploration_entropy k).
Definition kd_set_pacing (k : KademliaDiscovery) (x : Pacing) : KademliaDiscovery :=
  MkKademliaDiscovery (kd_config k) (kd_local k) (kd_expected_protocol k) (kd_started k) (kd_stopped k)
    (kd_trusted k) (kd_routing k) (kd_last_query_success_ms k) (kd_last_reported_health k) (kd_commands k)
    (kd_tracked k) (kd_emitted k) (kd_evidence k) (kd_cooldowns k) (kd_budgets k) x (kd_no_progress_rounds k)
    (kd_admissions k) (kd_exploration_snapshot k) (kd_implicit_uncharged k) (kd_local_key k) (kd_clock k)
    (kd_next_handle k) (kd_exploration_entropy k).
Definition kd_set_no_progress_rounds (k : KademliaDiscovery) (x : N) : KademliaDiscovery :=
  MkKademliaDiscovery (kd_config k) (kd_local k) (kd_expected_protocol k) (kd_started k) (kd_stopped k)
    (kd_trusted k) (kd_routing k) (kd_last_query_success_ms k) (kd_last_reported_health k) (kd_commands k)
    (kd_tracked k) (kd_emitted k) (kd_evidence k) (kd_cooldowns k) (kd_budgets k) (kd_pacing k) x
    (kd_admissions k) (kd_exploration_snapshot k) (kd_implicit_uncharged k) (kd_local_key k) (kd_clock k)
    (kd_next_handle k) (kd_exploration_entropy k).
Definition kd_set_admissions (k : KademliaDiscovery) (x : N) : KademliaDiscovery :=
  MkKademliaDiscovery (kd_config k) (kd_local k) (kd_expected_protocol k) (kd_started k) (kd_stopped k)
    (kd_trusted k) (kd_routing k) (kd_last_query_success_ms k) (kd_last_reported_health k) (kd_commands k)
    (kd_tracked k) (kd_emitted k) (kd_evidence k) (kd_cooldowns k) (kd_budgets k) (kd_pacing k)
    (kd_no_progress_rounds k) x (kd_exploration_snapshot k) (kd_implicit_uncharged k) (kd_local_key k)
    (kd_clock k) (kd_next_handle k) (kd_exploration_entropy k).
Definition kd_set_exploration_snapshot (k : KademliaDiscovery) (x : option N) : KademliaDiscovery :=
  MkKademliaDiscovery (kd_config k) (kd_local k) (kd_expected_protocol k) (kd_started k) (kd_stopped k)
    (kd_trusted k) (kd_routing k) (kd_last_query_success_ms k) (kd_last_reported_health k) (kd_commands k)
    (kd_tracked k) (kd_emitted k) (kd_evidence k) (kd_cooldowns k) (kd_budgets k) (kd_pacing k)
    (kd_no_progress_rounds k) (kd_admissions k) x (kd_implicit_uncharged k) (kd_local_key k) (kd_clock k)
    (kd_next_handle k) (kd_exploration_entropy k).
Definition kd_set_implicit_uncharged (k : KademliaDiscovery) (x : N) : KademliaDiscovery :=
  MkKademliaDiscovery (kd_config k) (kd_local k) (kd_expected_protocol k) (kd_started k) (kd_stopped k)
    (kd_trusted k) (kd_routing k) (kd_last_query_success_ms k) (kd_last_reported_health k) (kd_commands k)
    (kd_tracked k) (kd_emitted k) (kd_evidence k) (kd_cooldowns k) (kd_budgets k) (kd_pacing k)
    (kd_no_progress_rounds k) (kd_admissions k) (kd_exploration_snapshot k) x (kd_local_key k) (kd_clock k)
    (kd_next_handle k) (kd_exploration_entropy k).
Definition kd_set_clock (k : KademliaDiscovery) (x : N) : KademliaDiscovery :=
  MkKademliaDiscovery (kd_config k) (kd_local k) (kd_expected_protocol k) (kd_started k) (kd_stopped k)
    (kd_trusted k) (kd_routing k) (kd_last_query_success_ms k) (kd_last_reported_health k) (kd_commands k)
    (kd_tracked k) (kd_emitted k) (kd_evidence k) (kd_cooldowns k) (kd_budgets k) (kd_pacing k)
    (kd_no_progress_rounds k) (kd_admissions k) (kd_exploration_snapshot k) (kd_implicit_uncharged k)
    (kd_local_key k) x (kd_next_handle k) (kd_exploration_entropy k).
Definition kd_set_next_handle (k : KademliaDiscovery) (x : N) : KademliaDiscovery :=
  MkKademliaDiscovery (kd_config k) (kd_local k) (kd_expected_protocol k) (kd_started k) (kd_stopped k)
    (kd_trusted k) (kd_routing k) (kd_last_query_success_ms k) (kd_last_reported_health k) (kd_commands k)
    (kd_tracked k) (kd_emitted k) (kd_evidence k) (kd_cooldowns k) (kd_budgets k) (kd_pacing k)
    (kd_no_progress_rounds k) (kd_admissions k) (kd_exploration_snapshot k) (kd_implicit_uncharged k)
    (kd_local_key k) (kd_clock k) x (kd_exploration_entropy k).
Definition kd_set_exploration_entropy (k : KademliaDiscovery) (x : N) : KademliaDiscovery :=
  MkKademliaDiscovery (kd_config k) (kd_local k) (kd_expected_protocol k) (kd_started k) (kd_stopped k)
    (kd_trusted k) (kd_routing k) (kd_last_query_success_ms k) (kd_last_reported_health k) (kd_commands k)
    (kd_tracked k) (kd_emitted k) (kd_evidence k) (kd_cooldowns k) (kd_budgets k) (kd_pacing k)
    (kd_no_progress_rounds k) (kd_admissions k) (kd_exploration_snapshot k) (kd_implicit_uncharged k)
    (kd_local_key k) (kd_clock k) (kd_next_handle k) x.

Section provider.
Variable bs58_decode_onto : N → bytes → option bytes.

Definition targeted_lookup_key (peer : TransportIdentity) : option bytes :=
  match bs58_decode_onto 64 (TransportIdentity_as_str peer) with
  | None => None
  | Some decoded =>
      if negb (len decoded =? 38) || negb (bool_decide (ntake 6 decoded = ED25519_ENVELOPE)) then None
      else Some (ndrop 6 decoded)
  end.

(** *** Construction *)

Fixpoint check_ranges (table : list (string * N * N * N)) : result () ProviderConfigError :=
  match table with
  | [] => Ok ()
  | (field, got, lo, hi) :: table =>
      if (got <? lo) || (hi <? got) then Err (OutOfRange field got lo hi) else check_ranges table
  end.
Definition canonical_ranges (c : KademliaProviderConfig) : list (string * N * N * N) :=
  [("max_routing_peers"%string, kc_max_routing_peers c, 20, MAX_ROUTING_PEERS);
   ("target_routing_peers"%string, kc_target_routing_peers c, 8, 256);
   ("max_concurrent_queries"%string, kc_max_concurrent_queries c, 1, 8);
   ("max_queries_per_minute"%string, kc_max_queries_per_minute c, 1, 60);
   ("exploration_jitter_percent"%string, kc_exploration_jitter_percent c, 0, 50);
   ("exploration_interval"%string, kc_exploration_interval_ms c, 30000, 3600000);
   ("targeted_lookup_cooldown"%string, kc_targeted_lookup_cooldown_ms c, 30000, 3600000);
   ("bootstrap_min_interval"%string, kc_bootstrap_min_interval_ms c, 60000, 3600000);
   ("bootstrap_refresh_interval"%string, kc_bootstrap_refresh_interval_ms c, 300000, 86400000)].
Definition rendered_protocol (c : KademliaProviderConfig) : bytes :=
  bs "/interweave/kad/" ++ show_u32 (kc_wire_major c) ++ bs ".0.0/" ++ kc_network_hash c.
Definition Kademlia_new (c : KademliaProviderConfig) (local : TransportIdentity) :
    result KademliaDiscovery ProviderConfigError :=
  if kc_wire_major c =? 0 then Err ZeroWireMajor
  else if negb ((len (kc_network_hash c) =? NETWORK_HASH_LEN) && forallb base32_lower (kc_network_hash c))
  then Err MalformedNetworkHash
  else if kc_candidate_ttl_ms c =? 0 then Err ZeroCandidateTtl
  else if kc_max_routing_peers c <? kc_target_routing_peers c then Err TargetAboveMax
  else
    _ <-? check_ranges (canonical_ranges c);
    if kc_bootstrap_refresh_interval_ms c <? kc_bootstrap_min_interval_ms c then Err RefreshBelowMinimum
    else
      expected <-? map_err (λ _, MalformedNetworkHash) (ProtocolId_parse (rendered_protocol c));
      Ok (MkKademliaDiscovery c local expected false false ∅ ∅ None None [] ∅ ∅ ∅ ∅
            (QueryBudgets_new (kc_max_concurrent_queries c) (kc_max_queries_per_minute c)) Pacing_default
            0 0 None 0 (targeted_lookup_key local) 0 0 0).

(** *** The view *)

Definition kad_running (k : KademliaDiscovery) : bool := kd_started k && negb (kd_stopped k).
Definition Kademlia_set_remote_trusted (k : KademliaDiscovery) (peers : gset TransportIdentity) : KademliaDiscovery :=
  let peers := peers ∖ {[kd_local k]} in
  let k := kd_set_cooldowns k (filter (λ pt, pt.1 ∈ peers) (kd_cooldowns k)) in
  let k := kd_set_trusted k peers in
  let k := kd_set_routing k (filter (λ p, p ∈ peers) (kd_routing k)) in
  kd_set_no_progress_rounds k 0.
Definition Kademlia_routing_view (k : KademliaDiscovery) : RoutingView :=
  MkRoutingView (try_from_or_max u32_max (N.of_nat (size (kd_routing k)))) (kc_target_routing_peers (kd_config k))
    (kc_max_routing_peers (kd_config k)) (try_from_or_max u32_max (N.of_nat (size (kd_trusted k))))
    (kd_no_progress_rounds k).
Definition Kademlia_recent_queries_succeeded (k : KademliaDiscovery) : bool :=
  match kd_last_query_success_ms k with
  | Some at_ => sat_sub (kd_clock k) at_ <=? kc_bootstrap_refresh_interval_ms (kd_config k)
  | None => false
  end.
(** Fresh evidence of a server outside the routing set that could be looked up now. *)
Definition blocks_saturation (k : KademliaDiscovery) (pe : TransportIdentity * Evidence) : bool :=
  ev_supported pe.2 && (kd_clock k <? ev_expires_at pe.2) && bool_decide (pe.1 ∈ kd_trusted k) &&
  negb (bool_decide (pe.1 ∈ kd_routing k)) && bool_decide (is_Some (targeted_lookup_key pe.1)) &&
  match kd_cooldowns k !! pe.1 with
  | Some last => sat_add u64_max last (kc_targeted_lookup_cooldown_ms (kd_config k)) <=? kd_clock k
  | None => true
  end.
Definition Kademlia_saturation_conjuncts_hold (k : KademliaDiscovery) : bool :=
  negb (bool_decide (kd_routing k = ∅)) && Kademlia_recent_queries_succeeded k &&
  negb (existsb (blocks_saturation k) (btree_to_list (kd_evidence k))).
Definition Kademlia_health_now (k : KademliaDiscovery) : ProviderHealth :=
  provider_health (kd_started k) (kd_stopped k) (kc_mode (kd_config k)) (Kademlia_routing_view k)
    (Kademlia_recent_queries_succeeded k) (Kademlia_saturation_conjuncts_hold k).
Definition Kademlia_next_exploration_due_ms (k : KademliaDiscovery) : option N := pc_next_exploration_due (kd_pacing k).
Definition Kademlia_bootstrap_refresh_due (k : KademliaDiscovery) (now_ms : N) : bool :=
  Pacing_bootstrap_refresh_due (kd_pacing k) now_ms (kc_bootstrap_refresh_interval_ms (kd_config k)).

(** *** Commands *)

Definition is_offer (c : KademliaCommand) : bool := match c with OfferRoutingPeer _ _ => true | _ => false end.
(** [commands.remove(position(offer))] *)
Fixpoint remove_first_offer (l : list KademliaCommand) : list KademliaCommand :=
  match l with
  | [] => []
  | c :: l => if is_offer c then l else c :: remove_first_offer l
  end.
Definition Kademlia_queue_command (k : KademliaDiscovery) (c : KademliaCommand) : KademliaDiscovery :=
  let commands := if is_offer c && (MAX_PENDING_COMMANDS <=? len (filter (λ c, is_offer c = true) (kd_commands k)))
                  then remove_first_offer (kd_commands k) else kd_commands k in
  kd_set_commands k (commands ++ [c]).
Definition Kademlia_drain_commands (k : KademliaDiscovery) (max : N) : list KademliaCommand * KademliaDiscovery :=
  let '(out, rest) := drain_front max (kd_commands k) in (out, kd_set_commands k rest).
(** [next_handle.wrapping_add(1)] *)
Definition Kademlia_mint_handle (k : KademliaDiscovery) : QueryHandle * KademliaDiscovery :=
  let next := (kd_next_handle k + 1) mod (u64_max + 1) in
  (QueryHandle_commanded next, kd_set_next_handle k next).
Definition kd_tick_clock (k : KademliaDiscovery) (now_ms : N) : KademliaDiscovery :=
  kd_set_clock k (N.max (kd_clock k) now_ms).
(** Mint a handle, queue the query and bind the permit to it. *)
Definition start_query (k : KademliaDiscovery) (permit : Permit) (class : QueryClass) (key : LookupKey) : KademliaDiscovery :=
  let '(handle, k) := Kademlia_mint_handle k in
  let k := Kademlia_queue_command k (StartQuery handle class key) in
  kd_set_budgets k (QueryBudgets_bind (kd_budgets k) permit handle class).

(** *** Events of the driver *)

Definition Kademlia_settle (k : KademliaDiscovery) (handle : QueryHandle) (class : QueryClass) (now_ms : N)
    (succeeded address_progress : bool) : bool * KademliaDiscovery :=
  let '(held, budgets) := QueryBudgets_finish (kd_budgets k) handle class in
  let k := kd_set_budgets k budgets in
  if negb held then (false, k)
  else match class, kd_exploration_snapshot k with
  | Exploration, Some snapshot =>
      let k := kd_set_exploration_snapshot k None in
      let k := if address_progress
               then kd_set_pacing (kd_set_no_progress_rounds k 0) (Pacing_reset_exploration (kd_pacing k))
               else if succeeded && (kd_admissions k =? snapshot)
               then kd_set_no_progress_rounds k (sat_add u32_max (kd_no_progress_rounds k) 1)
               else k in
      (true, kd_set_pacing k
         (Pacing_schedule_exploration (kd_pacing k) now_ms (Kademlia_routing_view k)
            (kc_exploration_interval_ms (kd_config k)) (kc_exploration_jitter_percent (kd_config k))
            (kd_exploration_entropy k)))
  | _, _ => (true, k)
  end.
Definition Kademlia_track (k : KademliaDiscovery) (candidate : CandidatePeer) (now_ms : N) : KademliaDiscovery :=
  match normalized_addresses candidate (kd_local k) with
  | None => k
  | Some addresses =>
      if bool_decide (addresses = ∅) then k
      else
        let entry := MkTracked now_ms (sat_add u64_max now_ms (kc_candidate_ttl_ms (kd_config k))) addresses in
        let tracked :=
          if bool_decide (kd_tracked k !! cand_peer_id candidate = None) &&
             (MAX_TRACKED_CANDIDATES <=? N.of_nat (size (kd_tracked k)))
          then match min_by (λ pt, tr_expires_at pt.2) (btree_to_list (kd_tracked k)) with
               | Some (peer, _) => delete peer (kd_tracked k)
               | None => kd_tracked k
               end
          else kd_tracked k in
        kd_set_tracked k (<[cand_peer_id candidate := entry]> tracked)
  end.
(** A new usable address of a routed peer. *)
Definition candidate_progress (k : KademliaDiscovery) (c : CandidatePeer) : bool :=
  bool_decide (cand_peer_id c ∈ kd_routing k) &&
  match normalized_addresses c (kd_local k) with
  | None => false
  | Some addresses =>
      let known := kd_tracked k !! cand_peer_id c in
      existsb (λ a, match known with Some t => negb (bool_decide (a ∈ tr_addresses t)) | None => true end)
        (bset_to_list addresses)
  end.
(** [debug_assert_eq!(handle.origin(), origin)] is off in release builds. *)
Definition Kademlia_ingest_driver_event (k : KademliaDiscovery) (event : KademliaEvent) (now_ms : N) : KademliaDiscovery :=
  if negb (kd_started k) || kd_stopped k then k
  else
    let k := kd_tick_clock k now_ms in
    match event with
    | QueryResults handle candidates class =>
        let progress := existsb (candidate_progress k) (ObservedCandidates_as_slice candidates) in
        let '(held, k) := Kademlia_settle k handle class now_ms true progress in
        if negb held then k
        else foldl (λ k c, Kademlia_track k c now_ms) (kd_set_last_query_success_ms k (Some now_ms))
               (ObservedCandidates_as_slice candidates)
    | QueryStarted handle class origin =>
        if is_implicit handle then
          if MAX_IMPLICIT_CHARGES <=? QueryBudgets_implicit_held (kd_budgets k)
          then kd_set_implicit_uncharged k (sat_add u64_max (kd_implicit_uncharged k) 1)
          else
            let '(permit, budgets) := QueryBudgets_charge_unscheduled (kd_budgets k) now_ms in
            kd_set_budgets k (QueryBudgets_bind budgets permit handle class)
        else k
    | RoutingPeerAdded peer =>
        let k := kd_set_routing k ({[peer]} ∪ kd_routing k) in
        let k := kd_set_admissions k (kd_admissions k + 1) in
        let k := kd_set_no_progress_rounds k 0 in
        kd_set_pacing k (Pacing_reset_exploration (kd_pacing k))
    | RoutingPeerRemoved peer =>
        if bool_decide (peer ∈ kd_routing k)
        then kd_set_no_progress_rounds (kd_set_routing k (kd_routing k ∖ {[peer]})) 0 else k
    | QueryFailed handle class reason =>
        let '(held, k) := Kademlia_settle k handle class now_ms false false in
        if negb held then k
        else match reason with
             | TimedOut | NoRoutingPeers => kd_set_last_query_success_ms k None
             | FailureBudgetExhausted | ShuttingDown => k
             end
    end.

(** *** Queries *)

(** [u64::from_le_bytes] of the first eight bytes. *)
Definition jitter_entropy (entropy : bytes) : N := from_be (rev (ntake 8 entropy)).
Definition Kademlia_tick (k : KademliaDiscovery) (now_ms : N) (entropy : bytes) : bool * KademliaDiscovery :=
  if negb (kd_started k) || kd_stopped k then (false, k)
  else
    let k := kd_tick_clock k now_ms in
    if bool_decide (is_Some (kd_exploration_snapshot k)) then (false, k)
    else
      let view := Kademlia_routing_view k in
      if RoutingView_is_target_satisfied view || (RoutingView_is_saturated view && Kademlia_saturation_conjuncts_hold k)
      then (false, k)
      else if bool_decide (kd_routing k = ∅) then (false, k)
      else if negb (Pacing_exploration_due (kd_pacing k) now_ms) then (false, k)
      else
        let '(got, budgets) := QueryBudgets_acquire (kd_budgets k) now_ms in
        let k := kd_set_budgets k budgets in
        match got with
        | Err _ => (false, k)
        | Ok permit =>
            let k := kd_set_exploration_entropy k (jitter_entropy entropy) in
            let k := start_query k permit Exploration (KeySpacePoint entropy) in
            (true, kd_set_exploration_snapshot k (Some (kd_admissions k)))
        end.
Definition Kademlia_request_bootstrap (k : KademliaDiscovery) (now_ms : N) :
    result () BootstrapRefusal * KademliaDiscovery :=
  if negb (kd_started k) || kd_stopped k then (Err BootNotRunning, k)
  else
    let k := kd_tick_clock k now_ms in
    match kd_local_key k with
    | None => (Err BootUntargetableSelf, k)
    | Some key =>
        if negb (Pacing_bootstrap_allowed (kd_pacing k) now_ms (kc_bootstrap_min_interval_ms (kd_config k)))
        then (Err BootTooSoon, k)
        else
          let '(got, budgets) := QueryBudgets_acquire (kd_budgets k) now_ms in
          let k := kd_set_budgets k budgets in
          match got with
          | Err _ => (Err BootBudgetExhausted, k)
          | Ok permit =>
              let k := start_query k permit Bootstrap (Ed25519PublicKey key) in
              (Ok (), kd_set_pacing k (Pacing_record_bootstrap (kd_pacing k) now_ms))
          end
    end.
Definition Kademlia_request_targeted_lookup (k : KademliaDiscovery) (target : TransportIdentity) (now_ms : N)
    (usable_address_exists : bool) : result () TargetedRefusal * KademliaDiscovery :=
  if negb (kd_started k) || kd_stopped k then (Err TgtNotRunning, k)
  else
    let k := kd_tick_clock k now_ms in
    if bool_decide (target = kd_local k) then (Err SelfTarget, k)
    else if negb (bool_decide (target ∈ kd_trusted k)) then (Err NotTrusted, k)
    else match kd_evidence k !! target with
    | None => (Err NoServerEvidence, k)
    | Some e =>
        if ev_expires_at e <=? now_ms then (Err StaleServerEvidence, k)
        else if negb (ev_supported e) then (Err NegativeServerEvidence, k)
        else if usable_address_exists then (Err UsableAddressExists, k)
        else if (match kd_cooldowns k !! target with
                 | Some last => now_ms <? sat_add u64_max last (kc_targeted_lookup_cooldown_ms (kd_config k))
                 | None => false
                 end) then (Err CooldownActive, k)
        else
          let '(got, budgets) := QueryBudgets_acquire (kd_budgets k) now_ms in
          let k := kd_set_budgets k budgets in
          match got with
          | Err _ => (Err TgtBudgetExhausted, k)
          | Ok permit =>
              match targeted_lookup_key target with
              | None => (Err NotTargetableIdentity, kd_set_budgets k (QueryBudgets_release (kd_budgets k) permit))
              | Some key =>
                  let k := start_query k permit Targeted (Ed25519PublicKey key) in
                  (Ok (), kd_set_cooldowns k (<[target := now_ms]> (kd_cooldowns k)))
              end
          end
    end.

(** *** Evidence *)

Definition Kademlia_record_evidence (k : KademliaDiscovery) (peer : TransportIdentity) (incoming : Evidence) :
    bool * KademliaDiscovery :=
  if bool_decide (peer = kd_local k) then (false, k)
  else match kd_evidence k !! peer with
  | Some held =>
      if ev_observed_at held <=? ev_observed_at incoming
      then (negb (bool_decide (incoming = held)), kd_set_evidence k (<[peer := incoming]> (kd_evidence k)))
      else (false, k)
  | None =>
      if MAX_CAPABILITY_EVIDENCE <=? N.of_nat (size (kd_evidence k)) then
        match min_by (λ pe, ev_observed_at pe.2) (btree_to_list (kd_evidence k)) with
        | Some (victim, held) =>
            if ev_observed_at held <? ev_observed_at incoming
            then (true, kd_set_evidence k (<[peer := incoming]> (delete victim (kd_evidence k))))
            else (false, k)
        | None => (false, k)
        end
      else (true, kd_set_evidence k (<[peer := incoming]> (kd_evidence k)))
  end.

(** *** The provider *)

Definition Kademlia_descriptor (k : KademliaDiscovery) : ProviderDescriptor :=
  MkProviderDescriptor KAD_SOURCE PROVIDER_INTERFACE_VERSION (Some KAD_CONFIG_VERSION) ScopeNetwork Active true true.
Definition Kademlia_start (k : KademliaDiscovery) (now_ms : N) : result () ProviderError * KademliaDiscovery :=
  if kd_started k then (Err AlreadyStarted, k)
  else (Ok (), kd_set_commands (kd_set_started k true) (kd_commands k ++ [SetMode (kc_mode (kd_config k))])).

Definition tracked_event (p : TransportIdentity) (t : Tracked) : DiscoveryEvent :=
  CandidateObserved (MkCandidatePeer p (tr_addresses t) KAD_SOURCE (tr_observed_at t) (Some (tr_expires_at t)) ∅).
(** The two loops of the drain; the answer says whether [max] stopped it. *)
Fixpoint emit_gone (max : N) (gone : list TransportIdentity) (out : list DiscoveryEvent)
    (emitted : gmap TransportIdentity Tracked) : bool * list DiscoveryEvent * gmap TransportIdentity Tracked :=
  match gone with
  | [] => (false, out, emitted)
  | p :: gone =>
      if max <=? len out then (true, out, emitted)
      else emit_gone max gone (out ++ [CandidateExpired p KAD_SOURCE ∅]) (delete p emitted)
  end.
Fixpoint emit_changed (max : N) (changed : list (TransportIdentity * Tracked)) (out : list DiscoveryEvent)
    (emitted : gmap TransportIdentity Tracked) : list DiscoveryEvent * gmap TransportIdentity Tracked :=
  match changed with
  | [] => (out, emitted)
  | (p, t) :: changed =>
      if max <=? len out then (out, emitted)
      else emit_changed max changed (out ++ [tracked_event p t]) (<[p := t]> emitted)
  end.
Definition Kademlia_drain_events (k : KademliaDiscovery) (now_ms max : N) : list DiscoveryEvent * KademliaDiscovery :=
  if negb (kd_started k) || kd_stopped k then ([], k)
  else
    let k := kd_tick_clock k now_ms in
    let health := Kademlia_health_now k in
    let report := negb (bool_decide (kd_last_reported_health k = Some health)) && (0 <? max) in
    let out := if report then [HealthChanged KAD_SOURCE health] else [] in
    let k := if report then kd_set_last_reported_health k (Some health) else k in
    let k := kd_set_tracked k (filter (λ pt, (now_ms <? tr_expires_at pt.2) = true) (kd_tracked k)) in
    let gone := filter (λ p, kd_tracked k !! p = None) (btree_to_list (kd_emitted k)).*1 in
    let '(full, out, emitted) := emit_gone max gone out (kd_emitted k) in
    let k := kd_set_emitted k emitted in
    if full : bool then (out, k)
    else
      let changed := filter (λ pt, kd_emitted k !! pt.1 ≠ Some pt.2) (btree_to_list (kd_tracked k)) in
      let '(out, emitted) := emit_changed max changed out (kd_emitted k) in
      (out, kd_set_emitted k emitted).

(** The evidence of a candidate hint, one observation at a time. *)
Definition candidate_evidence (c : CandidatePeer) (now_ms : N) (lk : bool * KademliaDiscovery) (o : ProtocolObservation) :
    bool * KademliaDiscovery :=
  let '(learned, k) := lk in
  if bool_decide (po_protocol_id o = kd_expected_protocol k) then
    let observed_at := N.min (po_observed_at o) now_ms in
    let '(changed, k) := Kademlia_record_evidence k (cand_peer_id c)
      (MkEvidence (po_supported o) observed_at
         (N.min (sat_add u64_max observed_at (kc_candidate_ttl_ms (kd_config k))) (default u64_max (cand_expires_at c)))) in
    (learned || changed, k)
  else (learned, k).
Definition Kademlia_add_hint (k : KademliaDiscovery) (hint : PeerHint) (now_ms : N) : HintDisposition * KademliaDiscovery :=
  if negb (kd_started k) || kd_stopped k then (HintUnsupported, k)
  else match hint with
  | ObservedProtocol peer protocol_id supported observed_at =>
      if negb (bool_decide (protocol_id = kd_expected_protocol k)) then (HintUnsupported, k)
      else
        let observed_at := N.min observed_at now_ms in
        let '(learned, k) := Kademlia_record_evidence k peer
          (MkEvidence supported observed_at (sat_add u64_max observed_at (kc_candidate_ttl_ms (kd_config k)))) in
        (HintAccepted, if learned : bool then kd_set_no_progress_rounds k 0 else k)
  | ObservedReachable peer address observed_at =>
      if bool_decide (peer = kd_local k) then (HintAccepted, k)
      else if sat_add u64_max (N.min observed_at now_ms) (kc_candidate_ttl_ms (kd_config k)) <=? now_ms
      then (HintAccepted, k)
      else match OfferedAddress_parse address with
      | Err _ => (HintRejected (DiscInvalidLength "address" (len address) MAX_ADDRESS_BYTES), k)
      | Ok parsed =>
          match OfferedAddresses_new [parsed] with
          | Err _ => (HintRejected (DiscInvalidLength "address" (len address) MAX_ADDRESS_BYTES), k)
          | Ok addresses =>
              (HintAccepted, kd_set_no_progress_rounds (Kademlia_queue_command k (OfferRoutingPeer addresses peer)) 0)
          end
      end
  | CandidateHint c =>
      if bool_decide (cand_source c = KAD_SOURCE) then (HintAccepted, k)
      else match CandidatePeer_validate c with
      | Err e => (HintRejected e, k)
      | Ok _ =>
          if bool_decide (cand_peer_id c = kd_local k) then (HintAccepted, k)
          else if negb (CandidatePeer_is_fresh_at c now_ms) then (HintAccepted, k)
          else
            let '(learned, k) := foldl (candidate_evidence c now_ms) (false, k)
                                   (bset_to_list (cand_protocol_observations c)) in
            if bool_decide (cand_addresses c = ∅)
            then (HintAccepted, if learned : bool then kd_set_no_progress_rounds k 0 else k)
            else match OfferedAddresses_parse_all (bset_to_list (cand_addresses c)) with
            | Err _ => (HintRejected (TooManyItems "addresses" (N.of_nat (size (cand_addresses c))) MAX_ADDRESSES), k)
            | Ok addresses =>
                (HintAccepted,
                 kd_set_no_progress_rounds (Kademlia_queue_command k (OfferRoutingPeer addresses (cand_peer_id c))) 0)
            end
      end
  end.
Definition Kademlia_shutdown (k : KademliaDiscovery) (now_ms : N) : KademliaDiscovery :=
  if kd_stopped k then k
  else
    let k := kd_set_stopped k true in
    let k := kd_set_commands k [KadShutdown] in
    let k := kd_set_tracked k ∅ in
    let k := kd_set_emitted k ∅ in
    let k := kd_set_evidence k ∅ in
    let k := kd_set_cooldowns k ∅ in
    let k := kd_set_routing k ∅ in
    kd_set_exploration_snapshot k None.

Definition Kademlia_provider : DiscoveryProvider KademliaDiscovery := {|
  descriptor := Kademlia_descriptor;
  start := Kademlia_start;
  drain_events := Kademlia_drain_events;
  add_hint := Kademlia_add_hint;
  health := Kademlia_health_now;
  shutdown := Kademlia_shutdown
|}.
End provider.
