(* ===== verification/KademliaFacts.v ===== *)
(** * What the Kademlia provider guarantees

    Its memory and its queries are bounded whatever the driver and the hints say,
    and its consumer ends up with exactly what it tracks. *)
From S2P Require Import Prelude Ids DiscoveryApi Discovery Provider ProviderQueue PeerCache KademliaApi Kademlia.
Local Open Scope N_scope.

(** ** What is tracked *)

Definition tracked_ok (t : Tracked) : Prop :=
  addresses_ok (tr_addresses t) ∧ tr_addresses t ≠ ∅ ∧ tr_observed_at t ≤ tr_expires_at t.
Definition all_tracked_ok (m : gmap TransportIdentity Tracked) : Prop := map_Forall (λ _ t, tracked_ok t) m.

Lemma normalized_ok (c : CandidatePeer) (local : TransportIdentity) (s : gset bytes) :
  normalized_addresses c local = Some s → addresses_ok s.
Proof.
  unfold normalized_addresses. case_bool_decide; [done|]. intros [= <-]. set (l := filter _ _). split.
  - etrans; [apply size_list_to_set_le|]. unfold ntake, len. rewrite length_take. lia.
  - intros a Ha%elem_of_list_to_set. assert (a ∈ l) as [Hl _]%list_elem_of_filter.
    { eapply sublist_elem_of; [exact Ha|]. apply sublist_take. }
    apply andb_true_iff in Hl as [[H1 H2]%andb_true_iff _]. apply N.leb_le in H2. unfold address_ok.
    destruct (N.eqb_spec (len a) 0); [done|]. lia.
Qed.
Lemma track_ok (k : KademliaDiscovery) (c : CandidatePeer) (now : N) : now ≤ u64_max → all_tracked_ok (kd_tracked k) →
  all_tracked_ok (kd_tracked (Kademlia_track k c now)).
Proof.
  intros Hn Hk. unfold Kademlia_track. destruct (normalized_addresses c (kd_local k)) as [s|] eqn:E; [|done].
  case_bool_decide as Hs; [done|]. cbn. apply map_Forall_insert_2.
  - split_and!; [by eapply normalized_ok|done|]. cbn. unfold sat_add. lia.
  - destruct (_ && _); [|done]. destruct (min_by _ _) as [[p t]|]; [|done]. by apply map_Forall_delete.
Qed.
Lemma event_deliverable_kad (p : TransportIdentity) (t : Tracked) : tracked_ok t → deliverable KAD_SOURCE (tracked_event p t).
Proof.
  intros (H1 & H2 & H3). split; [done|]. apply candidate_valid; cbn; [done|by rewrite size_empty|by vm_compute|by intros ? [= <-]].
Qed.

(** ** The budgets *)

Definition QueryBudgets_commanded_held (b : QueryBudgets) : N :=
  N.of_nat (size (filter (λ hp, is_implicit hp.1 = false) (qb_running b))).
Definition in_window (now t : N) : Prop := sat_sub now t < WINDOW_MS.
#[global] Instance in_window_dec now t : Decision (in_window now t).
Proof. unfold in_window. apply _. Defined.
(** [log] lists when the queries commanded so far were started; [next] is the
    last handle minted, [now] the last time the budgets were consulted. *)
Record budget_inv (b : QueryBudgets) (next now : N) (log : list N) : Prop := MkBudgetInv {
  bi_unbound : qb_unbound b = ∅;
  bi_commanded : QueryBudgets_commanded_held b ≤ qb_max_concurrent b;
  bi_implicit : QueryBudgets_implicit_held b ≤ MAX_IMPLICIT_CHARGES;
  bi_handles h x : qb_running b !! h = Some x → is_implicit h = false → QueryHandle_get h ≤ next;
  bi_recent : filter (in_window now) log ⊆+ qb_starts b;
  bi_rate t : len (filter (λ x, t ≤ x < t + WINDOW_MS) log) ≤ qb_max_per_minute b
}.

Lemma submseteq_filter {A} (P : A → Prop) `{!∀ x, Decision (P x)} (l k : list A) : l ⊆+ k → filter P l ⊆+ filter P k.
Proof.
  intros Hlk. induction Hlk as [|x l k Hlk IH|x y l|x l k Hlk IH|l k j _ IH1 _ IH2].
  - done.
  - destruct (decide (P x)); [rewrite !filter_cons_True //; by constructor|by rewrite !filter_cons_False].
  - rewrite !filter_cons. repeat case_decide; try done. by constructor.
  - rewrite [filter P (x :: k)]filter_cons. case_decide; [by constructor|done].
  - by etrans.
Qed.
Lemma drop_lapsed_keeps now (l : list N) : filter (in_window now) l ⊆+ drop_lapsed now l.
Proof.
  induction l as [|t l IH]; [done|]. cbn [drop_lapsed]. destruct (N.leb_spec WINDOW_MS (sat_sub now t)) as [H|H].
  - rewrite filter_cons_False; [done|]. unfold in_window. lia.
  - apply sublist_submseteq, sublist_filter.
Qed.
Lemma window_mono now now' (l : list N) : now ≤ now' →
  filter (in_window now') l = filter (in_window now') (filter (in_window now) l).
Proof.
  intros H. rewrite list_filter_filter. apply list_filter_iff. intros t. unfold in_window, sat_sub. lia.
Qed.
Lemma recent_later (l starts : list N) now now' : now ≤ now' → filter (in_window now) l ⊆+ starts →
  filter (in_window now') l ⊆+ filter (in_window now') starts.
Proof. intros H Hs. rewrite (window_mono now now') //. by apply submseteq_filter. Qed.
(** Time passes. *)
Lemma budget_later b next now now' log : now ≤ now' → budget_inv b next now log → budget_inv b next now' log.
Proof.
  intros Hn [H1 H2 H3 H4 H5 H6]. constructor; try done. etrans; [by eapply recent_later|].
  apply sublist_submseteq, sublist_filter.
Qed.
Lemma prune_inv b next now now' log : now ≤ now' → budget_inv b next now log →
  budget_inv (QueryBudgets_prune b now') next now' log.
Proof.
  intros Hn [H1 H2 H3 H4 H5 H6]. constructor; try done. cbn. etrans; [by eapply recent_later|]. apply drop_lapsed_keeps.
Qed.
Lemma mint_eq b now : QueryBudgets_mint b now =
  (MkPermit (qb_next_permit b + 1), (QueryBudgets_mint b now).2).
Proof. done. Qed.
Lemma remove_start_last t (l : list N) : remove_start t (l ++ [t]) ≡ₚ l.
Proof.
  induction l as [|x l IH]; cbn; [by rewrite N.eqb_refl|]. destruct (N.eqb_spec x t) as [->|]; [|by rewrite IH].
  by rewrite Permutation_app_comm.
Qed.
Lemma held_split b : QueryBudgets_held b =
  QueryBudgets_commanded_held b + QueryBudgets_implicit_held b + N.of_nat (size (qb_unbound b)).
Proof.
  unfold QueryBudgets_held, QueryBudgets_commanded_held, QueryBudgets_implicit_held.
  rewrite -{1}(map_filter_union_complement (λ hp, is_implicit hp.1 = true) (qb_running b)).
  rewrite map_size_disj_union; [|apply map_disjoint_filter_complement].
  assert (filter (λ hp, ¬ is_implicit hp.1 = true) (qb_running b) = filter (λ hp, is_implicit hp.1 = false) (qb_running b)) as ->.
  { apply map_filter_ext. intros h x _. cbn. by rewrite not_true_iff_false. }
  lia.
Qed.
(** Taking a permit: the two ceilings, and what the budgets are then. *)
Lemma acquire_spec b now : qb_unbound b = ∅ →
  match QueryBudgets_acquire b now with
  | (Err _, b') => b' = QueryBudgets_prune b now
  | (Ok permit, b') =>
      permit_id permit = qb_next_permit b + 1 ∧ b' = (QueryBudgets_mint (QueryBudgets_prune b now) now).2 ∧
      QueryBudgets_commanded_held b < qb_max_concurrent b ∧ len (drop_lapsed now (qb_starts b)) < qb_max_per_minute b
  end.
Proof.
  intros Hu. unfold QueryBudgets_acquire. rewrite held_split.
  destruct (N.leb_spec (qb_max_concurrent (QueryBudgets_prune b now))
    (QueryBudgets_commanded_held (QueryBudgets_prune b now) + QueryBudgets_implicit_held (QueryBudgets_prune b now) +
     N.of_nat (size (qb_unbound (QueryBudgets_prune b now))))) as [H|H]; [done|].
  destruct (N.leb_spec (qb_max_per_minute (QueryBudgets_prune b now)) (len (qb_starts (QueryBudgets_prune b now)))) as [H'|H']; [done|].
  cbn in *. rewrite Hu map_size_empty in H. split_and!; [done|done| |done]. unfold QueryBudgets_commanded_held in *. cbn in *. lia.
Qed.
(** A minted permit that becomes a query. *)
Lemma bind_minted b now h class : qb_unbound b = ∅ → qb_running b !! h = None →
  QueryBudgets_bind (QueryBudgets_mint b now).2 (MkPermit (qb_next_permit b + 1)) h class =
  MkQueryBudgets (qb_max_concurrent b) (qb_max_per_minute b) (qb_starts b ++ [now])
    (<[h := (qb_next_permit b + 1, class)]> (qb_running b)) ∅ (qb_next_permit b + 1).
Proof.
  intros Hu Hh. unfold QueryBudgets_bind. cbn. rewrite bool_decide_false; [|rewrite Hh; by intros []].
  rewrite lookup_insert_eq. unfold qb_with. cbn. by rewrite delete_insert_eq Hu delete_empty.
Qed.
(** One that does not. *)
Lemma release_minted b now : qb_unbound b = ∅ →
  QueryBudgets_release (QueryBudgets_mint b now).2 (MkPermit (qb_next_permit b + 1)) =
  MkQueryBudgets (qb_max_concurrent b) (qb_max_per_minute b) (remove_start now (qb_starts b ++ [now]))
    (qb_running b) ∅ (qb_next_permit b + 1).
Proof.
  intros Hu. unfold QueryBudgets_release. cbn. rewrite lookup_insert_eq. unfold qb_with. cbn.
  by rewrite delete_insert_eq Hu delete_empty.
Qed.
Lemma release_budget_inv b next now now' log : now ≤ now' → budget_inv b next now log →
  budget_inv (QueryBudgets_release (QueryBudgets_mint (QueryBudgets_prune b now') now').2 (MkPermit (qb_next_permit b + 1)))
    next now' log.
Proof.
  intros Hn Hb. pose proof (prune_inv b next now now' log Hn Hb) as [H1 H2 H3 H4 H5 H6].
  change (qb_next_permit b) with (qb_next_permit (QueryBudgets_prune b now')). rewrite release_minted //.
  constructor; try done. cbn [qb_starts]. by rewrite remove_start_last.
Qed.
Lemma held_insert (P : QueryHandle → bool) (m : gmap QueryHandle (N * QueryClass)) h x : m !! h = None →
  size (filter (λ hp, P hp.1 = true) (<[h := x]> m)) = (size (filter (λ hp, P hp.1 = true) m) + if P h then 1 else 0)%nat.
Proof.
  intros Hh. destruct (P h) eqn:E.
  - rewrite map_filter_insert_True //. rewrite map_size_insert_None; [|rewrite map_lookup_filter Hh //]. lia.
  - rewrite map_filter_insert_False; [|by rewrite /= E]. rewrite delete_id //.
Qed.
Lemma commanded_as b : QueryBudgets_commanded_held b =
  N.of_nat (size (filter (λ hp, negb (is_implicit hp.1) = true) (qb_running b))).
Proof.
  unfold QueryBudgets_commanded_held. do 2 f_equal. apply map_filter_ext. intros h x _. cbn. by rewrite negb_true_iff.
Qed.
(** A query commanded. *)
Lemma commanded_inv b next now now' log h class : now ≤ now' → budget_inv b next now log →
  QueryBudgets_commanded_held b < qb_max_concurrent b → len (drop_lapsed now' (qb_starts b)) < qb_max_per_minute b →
  QueryHandle_get h = next + 1 → is_implicit h = false →
  budget_inv (QueryBudgets_bind (QueryBudgets_mint (QueryBudgets_prune b now') now').2 (MkPermit (qb_next_permit b + 1)) h class)
    (next + 1) now' (log ++ [now']).
Proof.
  intros Hn Hb Hc Hr Hh Hi. assert (qb_running b !! h = None) as Hf.
  { destruct (qb_running b !! h) as [x|] eqn:E; [|done]. pose proof (bi_handles _ _ _ _ Hb h x E Hi). lia. }
  pose proof (prune_inv b next now now' log Hn Hb) as [H1 H2 H3 H4 H5 H6].
  change (qb_next_permit b) with (qb_next_permit (QueryBudgets_prune b now')). rewrite bind_minted //. constructor; cbn.
  - done.
  - rewrite commanded_as. cbn. rewrite (held_insert (λ h, negb (is_implicit h))) //= Hi. rewrite commanded_as in Hc. cbn in *. lia.
  - unfold QueryBudgets_implicit_held in *. cbn in *. rewrite (held_insert is_implicit) // Hi. lia.
  - intros h' x [[<- _]|[_ Hx]]%lookup_insert_Some Hi'; [lia|]. specialize (H4 h' x Hx Hi'). lia.
  - rewrite filter_app. apply submseteq_app; [done|]. rewrite filter_cons_True; [done|]. unfold in_window, sat_sub, WINDOW_MS. lia.
  - intros t. rewrite filter_app len_app. cbn in *. destruct (decide (t ≤ now' < t + WINDOW_MS)) as [Ht|Ht].
    + rewrite len_cons len_nil.
      assert (filter (λ x, t ≤ x < t + WINDOW_MS) log ⊆+ drop_lapsed now' (qb_starts b)) as Hs.
      { etrans; [|exact H5].
        assert (filter (λ x, t ≤ x < t + WINDOW_MS) log = filter (λ x, t ≤ x < t + WINDOW_MS) (filter (in_window now') log)) as ->.
        { rewrite list_filter_filter. apply list_filter_iff. intros x. unfold in_window, sat_sub, WINDOW_MS in *. lia. }
        apply sublist_submseteq, sublist_filter. }
      apply submseteq_length in Hs. unfold len in *. lia.
    + rewrite len_nil N.add_0_r. apply H6.
Qed.
(** A query of the library's own, announced. *)
Lemma announced_inv b next now now' log h class : now ≤ now' → budget_inv b next now log →
  QueryBudgets_implicit_held b < MAX_IMPLICIT_CHARGES → is_implicit h = true →
  budget_inv (QueryBudgets_bind (QueryBudgets_mint (QueryBudgets_prune b now') now').2 (MkPermit (qb_next_permit b + 1)) h class)
    next now' log.
Proof.
  intros Hn Hb Hc Hi. destruct (qb_running b !! h) as [x|] eqn:Hf.
  { unfold QueryBudgets_bind. cbn [qb_running QueryBudgets_mint snd QueryBudgets_prune qb_with]. rewrite bool_decide_true; [|by rewrite Hf].
    by apply (release_budget_inv b next now now' log). }
  pose proof (prune_inv b next now now' log Hn Hb) as [H1 H2 H3 H4 H5 H6].
  change (qb_next_permit b) with (qb_next_permit (QueryBudgets_prune b now')). rewrite bind_minted //. constructor; cbn.
  - done.
  - rewrite commanded_as. cbn. rewrite (held_insert (λ h, negb (is_implicit h))) //= Hi. rewrite commanded_as in H2. cbn in *. lia.
  - unfold QueryBudgets_implicit_held in *. cbn in *. rewrite (held_insert is_implicit) // Hi. lia.
  - intros h' x [[<- _]|[_ Hx]]%lookup_insert_Some Hi'; [congruence|]. by apply (H4 h' x).
  - etrans; [exact H5|]. by apply submseteq_inserts_r.
  - done.
Qed.
Lemma finish_inv b next now log h class : budget_inv b next now log → budget_inv (QueryBudgets_finish b h class).2 next now log.
Proof.
  intros [H1 H2 H3 H4 H5 H6]. unfold QueryBudgets_finish. destruct (qb_running b !! h) as [[id c]|] eqn:E; [|done].
  case_bool_decide; [|done]. constructor; cbn; try done.
  - etrans; [|exact H2]. unfold QueryBudgets_commanded_held. cbn. rewrite map_filter_delete.
    rewrite map_size_delete. case_match; cbn; lia.
  - etrans; [|exact H3]. unfold QueryBudgets_implicit_held. cbn. rewrite map_filter_delete.
    rewrite map_size_delete. case_match; cbn; lia.
  - intros h' x [_ Hx]%lookup_delete_Some. by apply (H4 h' x).
Qed.

(** ** The provider's memory *)

Definition offers (k : KademliaDiscovery) : N := len (filter (λ c, is_offer c = true) (kd_commands k)).
Record kad_mem (k : KademliaDiscovery) : Prop := MkKadMem {
  km_tracked : N.of_nat (size (kd_tracked k)) ≤ MAX_TRACKED_CANDIDATES;
  km_tracked_ok : all_tracked_ok (kd_tracked k);
  km_emitted_ok : all_tracked_ok (kd_emitted k);
  km_evidence : N.of_nat (size (kd_evidence k)) ≤ MAX_CAPABILITY_EVIDENCE;
  km_offers : offers k ≤ MAX_PENDING_COMMANDS;
  km_cooldowns : dom (kd_cooldowns k) ⊆ kd_trusted k
}.
(** [mem_same k k']: nothing [kad_mem] reads grew. *)
Lemma kad_mem_ext k k' : kad_mem k → kd_tracked k' = kd_tracked k → kd_emitted k' = kd_emitted k →
  kd_evidence k' = kd_evidence k → offers k' ≤ offers k → kd_cooldowns k' = kd_cooldowns k → kd_trusted k' = kd_trusted k →
  kad_mem k'.
Proof. intros [H1 H2 H3 H4 H5 H6] E1 E2 E3 E4 E5 E6. constructor; rewrite ?E1 ?E2 ?E3 ?E5 ?E6 //. lia. Qed.
Lemma offers_app k c : offers (kd_set_commands k (kd_commands k ++ [c])) = offers k + if is_offer c then 1 else 0.
Proof.
  unfold offers. cbn. rewrite filter_app len_app. destruct (is_offer c) eqn:E.
  - rewrite [filter _ [c]]filter_cons_True //.
  - by rewrite [filter _ [c]]filter_cons_False; [|by rewrite E].
Qed.
Lemma remove_first_offer_len (l : list KademliaCommand) : 0 < len (filter (λ c, is_offer c = true) l) →
  len (filter (λ c, is_offer c = true) (remove_first_offer l)) + 1 = len (filter (λ c, is_offer c = true) l).
Proof.
  induction l as [|c l IH]; [done|]. cbn [remove_first_offer]. destruct (is_offer c) eqn:E.
  - rewrite [filter _ (c :: l)]filter_cons_True // len_cons. lia.
  - rewrite !filter_cons_False ?E //.
Qed.
Lemma queue_command_offers k c : offers k ≤ MAX_PENDING_COMMANDS → offers (Kademlia_queue_command k c) ≤ MAX_PENDING_COMMANDS ∧
  (is_offer c = false → Kademlia_queue_command k c = kd_set_commands k (kd_commands k ++ [c])).
Proof.
  intros Hk. unfold Kademlia_queue_command. destruct (is_offer c) eqn:E; cbn [andb]; [|split; [|done]; rewrite offers_app E; lia].
  split; [|done]. unfold offers in *. destruct (N.leb_spec MAX_PENDING_COMMANDS (len (filter (λ c, is_offer c = true) (kd_commands k)))) as [H|H];
    cbn [kd_commands kd_set_commands]; rewrite filter_app len_app [filter _ [c]]filter_cons_True // filter_nil len_cons len_nil.
  - rewrite -(remove_first_offer_len (kd_commands k)) in Hk; [lia|]. unfold MAX_PENDING_COMMANDS in *. lia.
  - lia.
Qed.
Lemma queue_command_mem k c : kad_mem k → kad_mem (Kademlia_queue_command k c).
Proof.
  intros Hk. destruct (queue_command_offers k c (km_offers _ Hk)) as [Ho _]. destruct Hk as [H1 H2 H3 H4 H5 H6].
  constructor; try done; unfold Kademlia_queue_command; by destruct (_ && _).
Qed.
Lemma track_mem k c now : now ≤ u64_max → kad_mem k → kad_mem (Kademlia_track k c now).
Proof.
  intros Hn Hk. pose proof (track_ok k c now Hn (km_tracked_ok _ Hk)) as Ht. destruct Hk as [H1 H2 H3 H4 H5 H6].
  constructor; try done; revert Ht; unfold Kademlia_track; destruct (normalized_addresses c (kd_local k)) as [s|]; try done;
    case_bool_decide; try done. cbn. intros _.
  destruct (kd_tracked k !! cand_peer_id c) as [t|] eqn:E.
  - rewrite bool_decide_false; [|done]. cbn. by rewrite map_size_insert_Some.
  - rewrite bool_decide_true //. cbn. destruct (N.leb_spec MAX_TRACKED_CANDIDATES (N.of_nat (size (kd_tracked k)))) as [Hf|Hf].
    + destruct (min_by _ _) as [[p t]|] eqn:Em.
      * apply min_by_elem, elem_of_btree_to_list in Em. rewrite map_size_insert_None; [|by apply lookup_delete_None; right].
        rewrite map_size_delete Em. unfold MAX_TRACKED_CANDIDATES, MAX_ROUTING_PEERS in *. lia.
      * apply min_by_None in Em. pose proof (length_btree_to_list (kd_tracked k)) as Hl. rewrite Em in Hl. cbn in Hl.
        unfold MAX_TRACKED_CANDIDATES, MAX_ROUTING_PEERS in *. lia.
    + rewrite map_size_insert_None //. lia.
Qed.
Lemma tracks_mem cs k now : now ≤ u64_max → kad_mem k → kad_mem (foldl (λ k c, Kademlia_track k c now) k cs).
Proof. intros Hn. revert k. induction cs as [|c cs IH]; intros k Hk; [done|]. cbn. apply IH. by apply track_mem. Qed.
Lemma evidence_mem k p e : kad_mem k → kad_mem (Kademlia_record_evidence k p e).2.
Proof.
  intros [H1 H2 H3 H4 H5 H6]. unfold Kademlia_record_evidence. case_bool_decide; [done|].
  destruct (kd_evidence k !! p) as [held|] eqn:E.
  - destruct (_ <=? _); [|done]. constructor; try done. cbn. by rewrite map_size_insert_Some.
  - destruct (N.leb_spec MAX_CAPABILITY_EVIDENCE (N.of_nat (size (kd_evidence k)))) as [Hf|Hf].
    + destruct (min_by _ _) as [[v held]|] eqn:Em; [|done]. destruct (_ <? _); [|done]. constructor; try done. cbn.
      apply min_by_elem, elem_of_btree_to_list in Em. rewrite map_size_insert_None; [|by apply lookup_delete_None; right].
      rewrite map_size_delete Em. unfold MAX_CAPABILITY_EVIDENCE, MAX_ROUTING_PEERS in *. lia.
    + constructor; try done. cbn. rewrite map_size_insert_None //. lia.
Qed.

(** ** Every operation *)

(** What only a few operations touch. *)
Definition core (k : KademliaDiscovery) :
    KademliaProviderConfig * bool * bool * gmap TransportIdentity Tracked * QueryBudgets * N :=
  (kd_config k, kd_started k, kd_stopped k, kd_emitted k, kd_budgets k, kd_next_handle k).
Definition face (k : KademliaDiscovery) : KademliaProviderConfig * bool * bool * gmap TransportIdentity Tracked :=
  (kd_config k, kd_started k, kd_stopped k, kd_emitted k).
Lemma core_face k k' : core k' = core k → face k' = face k.
Proof. intros [= E1 E2 E3 E4 _ _]. unfold face. by rewrite E1 E2 E3 E4. Qed.
Lemma track_core k c now : core (Kademlia_track k c now) = core k.
Proof. unfold Kademlia_track. destruct (normalized_addresses _ _); [|done]. by case_bool_decide. Qed.
Lemma tracks_core cs k now : core (foldl (λ k c, Kademlia_track k c now) k cs) = core k.
Proof. revert k. induction cs as [|c cs IH]; intros k; [done|]. cbn. by rewrite IH track_core. Qed.
Lemma evidence_core k p e : core (Kademlia_record_evidence k p e).2 = core k.
Proof.
  unfold Kademlia_record_evidence. case_bool_decide; [done|]. destruct (kd_evidence k !! p); [by destruct (_ <=? _)|].
  destruct (_ <=? _); [|done]. destruct (min_by _ _) as [[v h]|]; [|done]. by destruct (_ <? _).
Qed.
Lemma queue_command_core k c : core (Kademlia_queue_command k c) = core k.
Proof. done. Qed.

Record kad_inv (n now : N) (log : list N) (k : KademliaDiscovery) : Prop := MkKadInv {
  ki_mem : kad_mem k;
  ki_budget : budget_inv (kd_budgets k) (kd_next_handle k) now log;
  ki_handles : kd_next_handle k ≤ n;
  ki_limits : qb_max_concurrent (kd_budgets k) = kc_max_concurrent_queries (kd_config k) ∧
    qb_max_per_minute (kd_budgets k) = kc_max_queries_per_minute (kd_config k)
}.
Lemma kad_inv_core n now now' log k k' : kad_inv n now log k → now ≤ now' → kad_mem k' → core k' = core k →
  kad_inv (n + 1) now' log k'.
Proof.
  intros [H1 H2 H3 H4] Hn Hm [= E1 _ _ _ E2 E3]. constructor; rewrite ?E1 ?E2 ?E3 //; [by eapply budget_later|lia].
Qed.
Lemma kad_inv_later n now now' log k : kad_inv n now log k → now ≤ now' → kad_inv (n + 1) now' log k.
Proof. intros Hk Hn. eapply kad_inv_core; [done|done|apply Hk|done]. Qed.
Lemma tick_clock_inv n now log k t : kad_inv n now log k → kad_inv n now log (kd_tick_clock k t).
Proof. intros [[] H2 H3 H4]. by constructor. Qed.

(** The budgets of a refused acquisition. *)
Lemma refused_inv n now now' log k : kad_inv n now log k → now ≤ now' →
  kad_inv (n + 1) now' log (kd_set_budgets k (QueryBudgets_prune (kd_budgets k) now')).
Proof.
  intros [[] H2 H3 H4] Hn. constructor; [done| |cbn; lia|done]. cbn. by eapply prune_inv.
Qed.
Lemma start_query_eq k permit class key : kd_next_handle k + 1 < IMPLICIT_BIT →
  start_query k permit class key =
  kd_set_budgets
    (kd_set_commands (kd_set_next_handle k (kd_next_handle k + 1))
       (kd_commands k ++ [StartQuery (MkQueryHandle (kd_next_handle k + 1)) class key]))
    (QueryBudgets_bind (kd_budgets k) permit (MkQueryHandle (kd_next_handle k + 1)) class).
Proof.
  intros Hn. unfold start_query, Kademlia_mint_handle, Kademlia_queue_command. cbn [is_offer andb].
  rewrite N.mod_small; [|change IMPLICIT_BIT with 9223372036854775808 in Hn; unfold u64_max; lia]. by rewrite commanded_small.
Qed.
(** A query commanded with a permit just taken. *)
Lemma started_inv n now now' log k permit b class key : kad_inv n now log k → now ≤ now' → n + 1 < IMPLICIT_BIT →
  QueryBudgets_acquire (kd_budgets k) now' = (Ok permit, b) →
  kad_inv (n + 1) now' (log ++ [now']) (start_query (kd_set_budgets k b) permit class key) ∧
  face (start_query (kd_set_budgets k b) permit class key) = face k ∧
  kd_cooldowns (start_query (kd_set_budgets k b) permit class key) = kd_cooldowns k.
Proof.
  intros [H1 H2 H3 H4] Hn Hb E. pose proof (acquire_spec (kd_budgets k) now' (bi_unbound _ _ _ _ H2)) as Ha. rewrite E in Ha.
  destruct Ha as (A1 & -> & A3 & A4). destruct permit as [id]. cbn in A1. subst id.
  rewrite start_query_eq; [|cbn; lia]. cbn [kd_next_handle kd_set_budgets kd_budgets kd_commands]. split; [|done].
  assert (QueryHandle_origin (MkQueryHandle (kd_next_handle k + 1)) = Commanded) as Ho.
  { rewrite -(commanded_small (kd_next_handle k + 1)); [apply commanded_origin|lia]. }
  constructor; cbn.
  - eapply kad_mem_ext; [exact H1|done|done|done| |done|done].
    unfold offers. cbn. rewrite filter_app len_app [filter _ [_]]filter_cons_False // filter_nil len_nil. lia.
  - eapply commanded_inv; [done|done|done|done|done|]. unfold is_implicit. by rewrite Ho.
  - lia.
  - unfold QueryBudgets_bind. cbn. case_bool_decide; [unfold QueryBudgets_release|]; cbn; by rewrite lookup_insert_eq.
Qed.
Lemma settle_inv n now now' log k h class ok progress : kad_inv n now log k → now ≤ now' →
  kad_inv (n + 1) now' log (Kademlia_settle k h class now' ok progress).2 ∧
  face (Kademlia_settle k h class now' ok progress).2 = face k.
Proof.
  intros [[] H2 H3 H4] Hn. pose proof (finish_inv _ _ _ _ h class H2) as Hf. unfold Kademlia_settle.
  assert (∀ b, qb_max_concurrent (QueryBudgets_finish b h class).2 = qb_max_concurrent b ∧
    qb_max_per_minute (QueryBudgets_finish b h class).2 = qb_max_per_minute b) as Hl.
  { intros b. unfold QueryBudgets_finish. destruct (qb_running b !! h) as [[id c]|]; [|done]. by case_bool_decide. }
  specialize (Hl (kd_budgets k)). destruct (QueryBudgets_finish (kd_budgets k) h class) as [held b]. cbn [snd] in Hf, Hl.
  assert (∀ k', face k' = face k → kad_mem k' → kd_budgets k' = b → kd_next_handle k' = kd_next_handle k →
    kad_inv (n + 1) now' log k' ∧ face k' = face k) as Hdone.
  { intros k' Ef Hm Eb En. split; [|done]. constructor; [done|rewrite Eb En; by eapply budget_later|lia|].
    rewrite Eb (proj1 Hl) (proj2 Hl). by injection Ef as -> _ _ _. }
  destruct held; cbn [negb]; [|by apply Hdone]. destruct class; [by apply Hdone..|].
  destruct (kd_exploration_snapshot _) as [s|]; [|by apply Hdone]. cbn [snd].
  destruct progress; [by apply Hdone|]. by destruct (_ && _); apply Hdone.
Qed.
Lemma ingest_inv n now now' log k e : now' ≤ u64_max → kad_inv n now log k → now ≤ now' →
  kad_inv (n + 1) now' log (Kademlia_ingest_driver_event k e now') ∧ face (Kademlia_ingest_driver_event k e now') = face k.
Proof.
  intros Hu Hk Hn. unfold Kademlia_ingest_driver_event. destruct (negb _ || _); [split; [by eapply kad_inv_later|done]|].
  pose proof (tick_clock_inv _ _ _ _ now' Hk) as Hk1. change (face k) with (face (kd_tick_clock k now')).
  set (k1 := kd_tick_clock k now') in *. clearbody k1. clear k Hk. rename k1 into k, Hk1 into Hk.
  destruct e as [h class origin|h cs class|p|p|h class reason].
  - destruct (is_implicit h) eqn:Eh; [|split; [by eapply kad_inv_later|done]].
    destruct (N.leb_spec MAX_IMPLICIT_CHARGES (QueryBudgets_implicit_held (kd_budgets k))) as [Hf|Hf].
    + split; [|done]. eapply kad_inv_core; [done|done| |done]. by destruct Hk as [[] _ _ _].
    + split; [|done]. destruct Hk as [[] H2 H3 H4]. unfold QueryBudgets_charge_unscheduled. rewrite mint_eq. constructor; [done| |cbn; lia|].
      * cbn [kd_budgets kd_set_budgets kd_next_handle]. by apply (announced_inv (kd_budgets k) _ now now' log).
      * cbn. unfold QueryBudgets_bind. cbn. case_bool_decide; [unfold QueryBudgets_release|]; cbn; by rewrite lookup_insert_eq.
  - destruct (settle_inv n now now' log k h class true (existsb (candidate_progress k) (ObservedCandidates_as_slice cs)) Hk Hn) as [H1 H2].
    destruct (Kademlia_settle _ _ _ _ _ _) as [held k1]. cbn [snd] in H1, H2. destruct held; cbn [negb]; [|done].
    pose proof (tracks_core (ObservedCandidates_as_slice cs) (kd_set_last_query_success_ms k1 (Some now')) now') as Ec.
    split; [|rewrite (core_face _ _ Ec); exact H2]. injection Ec as E1 _ _ _ E2 E3. destruct H1 as [M B Hh L]. constructor; rewrite ?E1 ?E2 ?E3 //.
    apply tracks_mem; [done|]. by destruct M.
  - split; [|done]. eapply kad_inv_core; [done|done| |done]. by destruct Hk as [[] _ _ _].
  - case_bool_decide; [|split; [by eapply kad_inv_later|done]]. split; [|done]. eapply kad_inv_core; [done|done| |done]. by destruct Hk as [[] _ _ _].
  - destruct (settle_inv n now now' log k h class false false Hk Hn) as [H1 H2].
    destruct (Kademlia_settle _ _ _ _ _ _) as [held k1]. cbn [snd] in H1, H2. destruct held; cbn [negb]; [|done].
    assert (kad_inv (n + 1) now' log (kd_set_last_query_success_ms k1 None)) by (by destruct H1 as [[] ? ? ?]).
    by destruct reason.
Qed.

Section queries.
Variable dec : N → bytes → option bytes.

(** The answer to a request for a query says whether one was commanded. *)
Definition when (b : bool) (now : N) : list N := if b then [now] else [].
Lemma explore_inv n now now' log k entropy : kad_inv n now log k → now ≤ now' → n + 1 < IMPLICIT_BIT →
  kad_inv (n + 1) now' (log ++ when (Kademlia_tick dec k now' entropy).1 now') (Kademlia_tick dec k now' entropy).2 ∧
  face (Kademlia_tick dec k now' entropy).2 = face k.
Proof.
  intros Hk Hn Hb. pose proof (kad_inv_later _ _ _ _ _ (tick_clock_inv _ _ _ _ now' Hk) Hn) as Hs. unfold Kademlia_tick.
  destruct (negb _ || _); [rewrite app_nil_r; split; [by eapply kad_inv_later|done]|].
  pose proof (tick_clock_inv _ _ _ _ now' Hk) as Hk1. change (face k) with (face (kd_tick_clock k now')).
  set (k1 := kd_tick_clock k now') in *. clearbody k1. clear k Hk. case_bool_decide; [by rewrite app_nil_r|].
  destruct (_ || _); [by rewrite app_nil_r|]. case_bool_decide; [by rewrite app_nil_r|]. destruct (negb _); [by rewrite app_nil_r|].
  destruct (QueryBudgets_acquire (kd_budgets k1) now') as [got b] eqn:E. destruct got as [permit|r]; cbn [fst snd].
  - destruct (started_inv n now now' log (kd_set_exploration_entropy k1 (jitter_entropy entropy)) permit b Exploration (KeySpacePoint entropy))
      as (S1 & S2 & _); [by destruct Hk1 as [[] ? ? ?]|done|done|done|]. split; [|done]. by destruct S1 as [[] ? ? ?].
  - pose proof (acquire_spec (kd_budgets k1) now' (bi_unbound _ _ _ _ (ki_budget _ _ _ _ Hk1))) as Ha. rewrite E in Ha. subst b.
    rewrite app_nil_r. split; [|done]. by eapply refused_inv.
Qed.
Lemma bootstrap_inv n now now' log k : kad_inv n now log k → now ≤ now' → n + 1 < IMPLICIT_BIT →
  kad_inv (n + 1) now' (log ++ when (is_ok (Kademlia_request_bootstrap k now').1) now') (Kademlia_request_bootstrap k now').2 ∧
  face (Kademlia_request_bootstrap k now').2 = face k.
Proof using.
  intros Hk Hn Hb. pose proof (kad_inv_later _ _ _ _ _ (tick_clock_inv _ _ _ _ now' Hk) Hn) as Hs. unfold Kademlia_request_bootstrap.
  destruct (negb _ || _); [rewrite app_nil_r; split; [by eapply kad_inv_later|done]|].
  pose proof (tick_clock_inv _ _ _ _ now' Hk) as Hk1. change (face k) with (face (kd_tick_clock k now')).
  set (k1 := kd_tick_clock k now') in *. clearbody k1. clear k Hk. destruct (kd_local_key k1) as [key|]; [|by rewrite app_nil_r].
  destruct (negb _); [by rewrite app_nil_r|].
  destruct (QueryBudgets_acquire (kd_budgets k1) now') as [got b] eqn:E. destruct got as [permit|r]; cbn [fst snd is_ok].
  - destruct (started_inv n now now' log k1 permit b Bootstrap (Ed25519PublicKey key) Hk1 Hn Hb E) as (S1 & S2 & _).
    split; [|done]. by destruct S1 as [[] ? ? ?].
  - pose proof (acquire_spec (kd_budgets k1) now' (bi_unbound _ _ _ _ (ki_budget _ _ _ _ Hk1))) as Ha. rewrite E in Ha. subst b.
    rewrite app_nil_r. split; [|done]. by eapply refused_inv.
Qed.
Lemma targeted_inv n now now' log k p usable : kad_inv n now log k → now ≤ now' → n + 1 < IMPLICIT_BIT →
  kad_inv (n + 1) now' (log ++ when (is_ok (Kademlia_request_targeted_lookup dec k p now' usable).1) now')
    (Kademlia_request_targeted_lookup dec k p now' usable).2 ∧
  face (Kademlia_request_targeted_lookup dec k p now' usable).2 = face k.
Proof.
  intros Hk Hn Hb. pose proof (kad_inv_later _ _ _ _ _ (tick_clock_inv _ _ _ _ now' Hk) Hn) as Hs. unfold Kademlia_request_targeted_lookup.
  destruct (negb _ || _); [rewrite app_nil_r; split; [by eapply kad_inv_later|done]|].
  pose proof (tick_clock_inv _ _ _ _ now' Hk) as Hk1. change (face k) with (face (kd_tick_clock k now')).
  set (k1 := kd_tick_clock k now') in *. clearbody k1. clear k Hk. case_bool_decide; [by rewrite app_nil_r|].
  case_bool_decide as Hp; cbn [negb]; [|by rewrite app_nil_r]. destruct (kd_evidence k1 !! p) as [e|]; [|by rewrite app_nil_r].
  destruct (_ <=? _); [by rewrite app_nil_r|]. destruct (negb _); [by rewrite app_nil_r|]. destruct usable; [by rewrite app_nil_r|].
  destruct (match kd_cooldowns k1 !! p with Some _ => _ | None => _ end); [by rewrite app_nil_r|].
  destruct (QueryBudgets_acquire (kd_budgets k1) now') as [got b] eqn:E.
  pose proof (acquire_spec (kd_budgets k1) now' (bi_unbound _ _ _ _ (ki_budget _ _ _ _ Hk1))) as Ha. rewrite E in Ha.
  destruct got as [permit|r]; cbn [fst snd is_ok].
  - destruct (targeted_lookup_key dec p) as [key|]; cbn [fst snd is_ok].
    + destruct (started_inv n now now' log k1 permit b Targeted (Ed25519PublicKey key) Hk1 Hn Hb E) as (S1 & S2 & S3).
      split; [|done]. assert (kd_trusted (start_query (kd_set_budgets k1 b) permit Targeted (Ed25519PublicKey key)) = kd_trusted k1) as Et.
      { rewrite start_query_eq //. cbn. pose proof (ki_handles _ _ _ _ Hk1). lia. }
      destruct S1 as [[M1 M2 M3 M4 M5 M6] ? ? ?]. constructor; [|done|done|done]. constructor; [done..|]. cbn.
      rewrite dom_insert_L. cbn in Et, S3. rewrite ?S3 ?Et. pose proof (km_cooldowns _ (ki_mem _ _ _ _ Hk1)). set_solver.
    + destruct Ha as (A1 & -> & _). destruct permit as [id]. cbn in A1. subst id. rewrite app_nil_r. split; [|done].
      destruct Hk1 as [[] H2 H3 H4]. constructor; [done| |cbn; lia|].
      * cbn [kd_budgets kd_set_budgets kd_next_handle]. by apply (release_budget_inv (kd_budgets k1) _ now now' log).
      * cbn. unfold QueryBudgets_release. cbn. by rewrite lookup_insert_eq.
  - subst b. rewrite app_nil_r. split; [|done]. by eapply refused_inv.
Qed.
End queries.
Lemma candidate_evidence_inv c now os b k : kad_mem k →
  kad_mem (foldl (candidate_evidence c now) (b, k) os).2 ∧ core (foldl (candidate_evidence c now) (b, k) os).2 = core k.
Proof.
  revert b k. induction os as [|o os IH]; intros b k Hk; [done|]. cbn [foldl candidate_evidence]. case_bool_decide; [|by apply IH].
  set (e := MkEvidence _ _ _). pose proof (evidence_mem k (cand_peer_id c) e Hk) as Hm.
  pose proof (evidence_core k (cand_peer_id c) e) as Hc. destruct (Kademlia_record_evidence k (cand_peer_id c) e) as [ch k1].
  cbn [snd] in *. destruct (IH (b || ch) k1 Hm) as [H1 H2]. split; [done|by rewrite H2].
Qed.
Lemma set_rounds_inv k x : kad_mem k → kad_mem (kd_set_no_progress_rounds k x) ∧ core (kd_set_no_progress_rounds k x) = core k.
Proof. by intros []. Qed.
Lemma hint_inv k h now : kad_mem k → kad_mem (Kademlia_add_hint k h now).2 ∧ core (Kademlia_add_hint k h now).2 = core k.
Proof.
  intros Hk. unfold Kademlia_add_hint. destruct (negb _ || _); [done|]. destruct h as [p a at_|p id sup at_|c].
  - case_bool_decide; [done|]. destruct (_ <=? _); [done|]. destruct (OfferedAddress_parse a) as [x|]; [|done].
    destruct (OfferedAddresses_new [x]) as [xs|]; [|done]. cbn [snd].
    exact (set_rounds_inv _ 0 (queue_command_mem k (OfferRoutingPeer xs p) Hk)).
  - destruct (negb _); [done|]. set (e := MkEvidence _ _ _). pose proof (evidence_mem k p e Hk) as Hm. pose proof (evidence_core k p e) as Hc.
    destruct (Kademlia_record_evidence k p e) as [learned k1]. cbn [snd] in *. destruct learned; [|done]. by destruct Hm.
  - case_bool_decide; [done|]. destruct (CandidatePeer_validate c); [|done]. case_bool_decide; [done|]. destruct (negb _); [done|].
    destruct (candidate_evidence_inv c now (bset_to_list (cand_protocol_observations c)) false k Hk) as [H1 H2].
    destruct (foldl _ _ _) as [learned k1]. cbn [snd] in *. case_bool_decide; [destruct learned; [by destruct H1|done]|].
    destruct (OfferedAddresses_parse_all _) as [xs|]; [|done]. cbn [snd].
    destruct (set_rounds_inv _ 0 (queue_command_mem k1 (OfferRoutingPeer xs (cand_peer_id c)) H1)) as [Hs Hc]. split; [done|by rewrite -H2].
Qed.
Lemma trust_inv k ps : kad_mem k → kad_mem (Kademlia_set_remote_trusted k ps) ∧ core (Kademlia_set_remote_trusted k ps) = core k.
Proof.
  intros [H1 H2 H3 H4 H5 H6]. split; [|done]. constructor; try done. cbn. intros p [x [_ Hp]%map_lookup_filter_Some]%elem_of_dom. done.
Qed.
Lemma commands_inv k max : kad_mem k → kad_mem (Kademlia_drain_commands k max).2 ∧ core (Kademlia_drain_commands k max).2 = core k.
Proof.
  intros Hk. split; [|done]. eapply kad_mem_ext; [exact Hk|done|done|done| |done|done]. unfold offers. cbn. apply filter_sublist_len, sublist_drop.
Qed.
Lemma shutdown_mem k now : kad_mem k → kad_mem (Kademlia_shutdown k now).
Proof.
  intros Hk. unfold Kademlia_shutdown. destruct (kd_stopped k); [done|]. constructor; try by vm_compute.
Qed.
