(* ===== verification/KademliaView.v ===== *)
(** * What a consumer of the Kademlia provider hears

    Events are derived from the difference between what is tracked and what was
    told, so a bounded drain loses nothing and draining ends. *)
From S2P Require Import Prelude Ids DiscoveryApi Discovery Provider ProviderQueue PeerCache PeerCacheFacts KademliaApi Kademlia KademliaFacts.
Local Open Scope N_scope.

(** ** The consumer *)

(** The consumer is the additive one of [ProviderQueue]: an observation adds its
    addresses to what is held of the peer, a retraction of the peer clears it.
    Of what [emitted] records, it holds the addresses of every peer, and nothing of
    the others. *)
Definition tells (told : gmap TransportIdentity (gset bytes)) (emitted : gmap TransportIdentity Tracked) : Prop :=
  ∀ p, match emitted !! p with Some t => tr_addresses t ⊆ held told p | None => held told p = ∅ end.
(** Of a tracked peer, what is held changes by the tracked addresses or not at all. *)
Definition grows (tracked : gmap TransportIdentity Tracked) (told told' : gmap TransportIdentity (gset bytes)) : Prop :=
  ∀ p t, tracked !! p = Some t → held told' p = held told p ∨ held told' p = held told p ∪ tr_addresses t.
Lemma grows_trans tracked a b c : grows tracked a b → grows tracked b c → grows tracked a c.
Proof. intros H1 H2 p t Hp. destruct (H1 p t Hp) as [E1|E1], (H2 p t Hp) as [E2|E2]; rewrite E2 E1; [by left|by right|by right|right; set_solver]. Qed.
Lemma tells_gone tracked told emitted p : tells told emitted → tracked !! p = None →
  tells (hear told (CandidateExpired p KAD_SOURCE ∅)) (delete p emitted) ∧ grows tracked told (hear told (CandidateExpired p KAD_SOURCE ∅)).
Proof.
  intros Ht Hp. split.
  - intros q. rewrite held_hear. case_decide as Ha; cbn in Ha.
    + injection Ha as ->. by rewrite lookup_delete_eq.
    + rewrite lookup_delete_ne; [apply Ht|]. by intros ->.
  - intros q t Hq. left. rewrite held_hear decide_False //. cbn. intros [= ->]. by rewrite Hp in Hq.
Qed.
Lemma tells_changed tracked told emitted p t : tells told emitted → tracked !! p = Some t →
  tells (hear told (tracked_event p t)) (<[p := t]> emitted) ∧ grows tracked told (hear told (tracked_event p t)).
Proof.
  intros Ht Hp. split.
  - intros q. rewrite held_hear. case_decide as Ha; cbn in Ha.
    + injection Ha as ->. rewrite lookup_insert_eq. cbn. set_solver.
    + rewrite lookup_insert_ne; [apply Ht|]. by intros ->.
  - intros q u Hq. rewrite held_hear. case_decide as Ha; cbn in Ha; [|by left]. injection Ha as ->. right. cbn. congruence.
Qed.

Lemma tells_self emitted : tells (tr_addresses <$> emitted) emitted.
Proof. intros p. unfold held. rewrite lookup_fmap. by destruct (emitted !! p). Qed.
(** When everything tracked was emitted, what is held of a peer is what was held
    and what is tracked. *)
Lemma view_of tracked told told' p : tells told' tracked → grows tracked told told' →
  held told' p = match tracked !! p with Some t => held told p ∪ tr_addresses t | None => ∅ end.
Proof.
  intros Ht Hg. specialize (Ht p). specialize (Hg p). destruct (tracked !! p) as [t|]; [|done].
  destruct (Hg t eq_refl) as [E|E]; [|done]. rewrite E. rewrite E in Ht. set_solver.
Qed.

(** ** The two loops *)

(** Told and not tracked; tracked and not told. *)
Definition gone_of (tracked emitted : gmap TransportIdentity Tracked) : gmap TransportIdentity Tracked :=
  filter (λ pt, tracked !! pt.1 = None) emitted.
Definition changed_of (tracked emitted : gmap TransportIdentity Tracked) : gmap TransportIdentity Tracked :=
  filter (λ pt, emitted !! pt.1 ≠ Some pt.2) tracked.
Definition behind (tracked emitted : gmap TransportIdentity Tracked) : N :=
  N.of_nat (size (gone_of tracked emitted)) + N.of_nat (size (changed_of tracked emitted)).
Lemma gone_size tracked emitted p t : emitted !! p = Some t → tracked !! p = None →
  behind tracked emitted = behind tracked (delete p emitted) + 1.
Proof.
  intros He Ht. unfold behind, gone_of, changed_of. rewrite map_filter_delete map_size_delete.
  assert (filter (λ pt, tracked !! pt.1 = None) emitted !! p = Some t) as Hp by by apply map_lookup_filter_Some.
  rewrite Hp. assert (size (filter (λ pt, tracked !! pt.1 = None) emitted) ≠ 0%nat) as Hz.
  { intros Hz. apply map_size_empty_inv in Hz. by rewrite Hz lookup_empty in Hp. }
  assert (filter (λ pt, delete p emitted !! pt.1 ≠ Some pt.2) tracked = filter (λ pt, emitted !! pt.1 ≠ Some pt.2) tracked) as ->.
  { apply map_filter_ext. intros q u Hq. cbn. rewrite lookup_delete_ne //. congruence. }
  cbn. lia.
Qed.
Lemma changed_size tracked emitted p t : tracked !! p = Some t → emitted !! p ≠ Some t →
  behind tracked emitted = behind tracked (<[p := t]> emitted) + 1.
Proof.
  intros Ht He. unfold behind, gone_of, changed_of.
  assert (filter (λ pt, tracked !! pt.1 = None) (<[p := t]> emitted) = filter (λ pt, tracked !! pt.1 = None) emitted) as ->.
  { rewrite map_filter_insert_False; [|cbn; congruence]. rewrite map_filter_delete delete_id //. rewrite map_lookup_filter.
    destruct (emitted !! p); [|done]. cbn. rewrite Ht. by case_guard. }
  assert (filter (λ pt, <[p := t]> emitted !! pt.1 ≠ Some pt.2) tracked = delete p (filter (λ pt, emitted !! pt.1 ≠ Some pt.2) tracked)) as ->.
  { apply map_eq. intros q. destruct (decide (p = q)) as [<-|Hne].
    - rewrite lookup_delete_eq map_lookup_filter Ht. cbn. rewrite lookup_insert_eq. by case_guard.
    - rewrite lookup_delete_ne // !map_lookup_filter. destruct (tracked !! q); [|done]. cbn. by rewrite lookup_insert_ne. }
  assert (filter (λ pt, emitted !! pt.1 ≠ Some pt.2) tracked !! p = Some t) as Hp by by apply map_lookup_filter_Some.
  rewrite map_size_delete Hp. assert (size (filter (λ pt, emitted !! pt.1 ≠ Some pt.2) tracked) ≠ 0%nat) as Hz.
  { intros Hz. apply map_size_empty_inv in Hz. by rewrite Hz lookup_empty in Hp. }
  cbn. lia.
Qed.
Lemma behind_zero tracked emitted : behind tracked emitted = 0 → emitted = tracked.
Proof.
  unfold behind. intros H. assert (gone_of tracked emitted = ∅ ∧ changed_of tracked emitted = ∅) as [H1 H2].
  { split; apply map_size_empty_inv; lia. }
  apply map_eq. intros p. destruct (tracked !! p) as [t|] eqn:Et.
  - destruct (decide (emitted !! p = Some t)) as [|Hn]; [done|]. exfalso.
    assert (changed_of tracked emitted !! p = Some t) as Hp by by apply map_lookup_filter_Some. by rewrite H2 lookup_empty in Hp.
  - destruct (emitted !! p) as [t|] eqn:Ee; [|done]. exfalso.
    assert (gone_of tracked emitted !! p = Some t) as Hp by by apply map_lookup_filter_Some. by rewrite H1 lookup_empty in Hp.
Qed.
(** What either loop guarantees of its output. *)
Definition loop_ok (tracked : gmap TransportIdentity Tracked) (max : N) (told : gmap TransportIdentity (gset bytes))
    (out : list DiscoveryEvent) (emitted : gmap TransportIdentity Tracked)
    (out' : list DiscoveryEvent) (emitted' : gmap TransportIdentity Tracked) : Prop :=
  ∃ said, out' = out ++ said ∧ (tells (foldl hear told said) emitted' ∧ grows tracked told (foldl hear told said)) ∧
    (len out ≤ max → len out' ≤ max) ∧ behind tracked emitted = behind tracked emitted' + len said ∧
    Forall (λ e, is_health e = false) said ∧
    (all_tracked_ok tracked → all_tracked_ok emitted → all_tracked_ok emitted' ∧ Forall (deliverable KAD_SOURCE) said).
Lemma loop_ok_refl tracked max told out emitted : tells told emitted → loop_ok tracked max told out emitted out emitted.
Proof. intros Ht. exists []. rewrite app_nil_r len_nil. split_and!; [done|done|by left|done|lia|done|done]. Qed.
Lemma loop_ok_step tracked max told out emitted e emitted1 out' emitted' : is_health e = false → len out < max →
  grows tracked told (hear told e) → behind tracked emitted = behind tracked emitted1 + 1 →
  (all_tracked_ok tracked → all_tracked_ok emitted → all_tracked_ok emitted1 ∧ deliverable KAD_SOURCE e) →
  loop_ok tracked max (hear told e) (out ++ [e]) emitted1 out' emitted' →
  loop_ok tracked max told out emitted out' emitted'.
Proof.
  intros Hh Hl Ht Hb Hok (said & E & [S0 S1] & S2 & S3 & S4 & S5). exists (e :: said). rewrite len_cons. split_and!.
  - by rewrite E -app_assoc.
  - done.
  - by eapply grows_trans.
  - intros _. apply S2. rewrite len_app len_cons len_nil. lia.
  - lia.
  - by constructor.
  - intros H1 H2. destruct (Hok H1 H2) as [H3 H4]. destruct (S5 H1 H3) as [H5 H6]. split; [done|by constructor].
Qed.
Lemma emit_gone_ok tracked max gone told out emitted :
  NoDup gone → (∀ p, p ∈ gone → is_Some (emitted !! p) ∧ tracked !! p = None) → tells told emitted →
  let '(full, out', emitted') := emit_gone max gone out emitted in
  loop_ok tracked max told out emitted out' emitted' ∧ (if full : bool then max ≤ len out' else ∀ p, emitted' !! p = if decide (p ∈ gone) then None else emitted !! p).
Proof.
  revert told out emitted. induction gone as [|p gone IH]; intros told out emitted Hd Hg Ht; cbn [emit_gone].
  { split; [by apply loop_ok_refl|]. intros p. case_decide as Hin; [by apply elem_of_nil in Hin|done]. }
  destruct (N.leb_spec max (len out)) as [Hm|Hm]; [split; [by apply loop_ok_refl|done]|].
  apply NoDup_cons in Hd as [Hp Hd]. destruct (Hg p ltac:(left)) as [[t He] Htr].
  specialize (IH (hear told (CandidateExpired p KAD_SOURCE ∅)) (out ++ [CandidateExpired p KAD_SOURCE ∅]) (delete p emitted) Hd).
  destruct (emit_gone max gone _ _) as [[full out'] emitted']. destruct IH as [I1 I2].
  - intros q Hq. destruct (Hg q ltac:(by right)) as [H1 H2]. rewrite lookup_delete_ne; [done|]. by intros ->.
  - by eapply tells_gone.
  - split.
    + eapply (loop_ok_step _ _ _ _ _ (CandidateExpired p KAD_SOURCE ∅)); [done|done|by eapply tells_gone|by eapply gone_size| |exact I1]. intros _ H. split; [by apply map_Forall_delete|done].
    + destruct full; [done|]. intros q. rewrite I2. destruct (decide (q = p)) as [->|Hne].
      * rewrite lookup_delete_eq. case_decide; case_decide; [done|done|done|set_solver].
      * rewrite lookup_delete_ne //. case_decide; case_decide; [done|set_solver|set_solver|done].
Qed.
Lemma emit_changed_ok tracked max changed told out emitted :
  NoDup changed.*1 → (∀ p t, (p, t) ∈ changed → tracked !! p = Some t ∧ emitted !! p ≠ Some t) → tells told emitted →
  let '(out', emitted') := emit_changed max changed out emitted in
  loop_ok tracked max told out emitted out' emitted' ∧
  (len out' < max → behind tracked emitted' + len changed = behind tracked emitted).
Proof.
  revert told out emitted. induction changed as [|[p t] changed IH]; intros told out emitted Hd Hg Ht; cbn [emit_changed].
  { split; [by apply loop_ok_refl|]. rewrite len_nil. lia. }
  destruct (N.leb_spec max (len out)) as [Hm|Hm]; [split; [by apply loop_ok_refl|lia]|].
  apply NoDup_cons in Hd as [Hp Hd]. destruct (Hg p t ltac:(left)) as [Htr He].
  specialize (IH (hear told (tracked_event p t)) (out ++ [tracked_event p t]) (<[p := t]> emitted) Hd).
  destruct (emit_changed max changed _ _) as [out' emitted']. destruct IH as [I1 I2].
  - intros q u Hq. destruct (Hg q u ltac:(by right)) as [H1 H2]. split; [done|]. rewrite lookup_insert_ne; [done|].
    intros ->. apply Hp. apply list_elem_of_fmap. by exists (q, u).
  - by eapply tells_changed.
  - pose proof (changed_size tracked emitted p t Htr He) as Hb. split.
    + eapply (loop_ok_step _ _ _ _ _ (tracked_event p t)); [done|done|by eapply tells_changed|done| |exact I1]. intros H1 H2.
      assert (tracked_ok t) by (by eapply map_Forall_lookup_1 in H1). split; [by apply map_Forall_insert_2|by apply event_deliverable_kad].
    + intros Hl. specialize (I2 Hl). rewrite len_cons. lia.
Qed.

(** ** The drain *)

Section drain.
Variable dec : N → bytes → option bytes.

Definition live_at (k : KademliaDiscovery) (now : N) : gmap TransportIdentity Tracked :=
  filter (λ pt, (now <? tr_expires_at pt.2) = true) (kd_tracked k).
Definition health_at (k : KademliaDiscovery) (now : N) : ProviderHealth := Kademlia_health_now dec (kd_tick_clock k now).
Definition unreported (k : KademliaDiscovery) (now : N) : N :=
  if decide (kd_last_reported_health k = Some (health_at k now)) then 0 else 1.
(** How many events the consumer is behind. *)
Definition outstanding (k : KademliaDiscovery) (now : N) : N := unreported k now + behind (live_at k now) (kd_emitted k).

(** The drain after its clock and its health report. *)
Definition reported (k : KademliaDiscovery) (now max : N) : list DiscoveryEvent * KademliaDiscovery :=
  let k1 := kd_tick_clock k now in
  if negb (bool_decide (kd_last_reported_health k = Some (health_at k now))) && (0 <? max)
  then ([HealthChanged KAD_SOURCE (health_at k now)], kd_set_last_reported_health k1 (Some (health_at k now)))
  else ([], k1).
Definition swept (k : KademliaDiscovery) (now max : N) : KademliaDiscovery :=
  kd_set_tracked (reported k now max).2 (live_at k now).
Lemma drain_eq k now max : kad_running k = true → Kademlia_drain_events dec k now max =
  let k2 := swept k now max in
  let '(full, out, emitted) := emit_gone max (filter (λ p, live_at k now !! p = None) (btree_to_list (kd_emitted k)).*1)
                                 (reported k now max).1 (kd_emitted k) in
  if full : bool then (out, kd_set_emitted k2 emitted)
  else
    let '(out, emitted') := emit_changed max (filter (λ pt, emitted !! pt.1 ≠ Some pt.2) (btree_to_list (live_at k now))) out emitted in
    (out, kd_set_emitted k2 emitted').
Proof.
  unfold kad_running. intros [Hs Hp]%andb_true_iff. apply negb_true_iff in Hp. unfold Kademlia_drain_events. rewrite Hs Hp. cbn [negb orb].
  unfold swept, reported, health_at. cbn [kd_last_reported_health kd_tick_clock kd_set_clock].
  destruct (negb (bool_decide (kd_last_reported_health k = _)) && (0 <? max));
    cbn [fst snd kd_set_last_reported_health kd_set_tracked kd_set_emitted kd_set_clock kd_tracked kd_emitted]; unfold live_at;
    destruct (emit_gone _ _ _ _) as [[[] out] emitted]; try done; by destruct (emit_changed _ _ _ _).
Qed.
Lemma reported_facts k now max : len (reported k now max).1 ≤ max ∧
  face (reported k now max).2 = face k ∧ kd_budgets (reported k now max).2 = kd_budgets k ∧
  kd_next_handle (reported k now max).2 = kd_next_handle k ∧
  health_at (reported k now max).2 now = health_at k now ∧
  unreported k now = unreported (reported k now max).2 now + len (reported k now max).1 ∧
  (kad_mem k → kad_mem (reported k now max).2) ∧ Forall (deliverable KAD_SOURCE) (reported k now max).1 ∧
  (∀ told, foldl hear told (reported k now max).1 = told) ∧ kd_last_reported_health (swept k now max) = kd_last_reported_health (reported k now max).2.
Proof.
  assert (∀ x, health_at (kd_set_last_reported_health (kd_tick_clock k now) x) now = health_at k now ∧
    health_at (kd_tick_clock k now) now = health_at k now) as Hh.
  { intros x. unfold health_at, kd_tick_clock. cbn. rewrite -N.max_assoc N.max_id. done. }
  unfold swept, reported. case_bool_decide as Hr; cbn [negb andb].
  - cbn [fst snd]. rewrite len_nil. split_and!; try done; [lia|by apply (Hh None)|unfold unreported; cbn; rewrite (proj2 (Hh None)); lia|by intros []].
  - destruct (N.ltb_spec 0 max) as [Hm|Hm]; cbn [fst snd].
    + rewrite len_cons len_nil. split_and!; try done; [lia|apply (Hh (Some (health_at k now)))| |by intros []|by repeat constructor].
      unfold unreported. rewrite (proj1 (Hh _)). cbn. rewrite decide_False // decide_True //.
    + rewrite len_nil. split_and!; try done; [lia|by apply (Hh None)|unfold unreported; cbn; rewrite (proj2 (Hh None)); lia|by intros []].
Qed.
Lemma loop_ok_trans tracked max told out emitted out1 emitted1 out2 emitted2 :
  loop_ok tracked max told out emitted out1 emitted1 →
  (∀ told1, tells told1 emitted1 → loop_ok tracked max told1 out1 emitted1 out2 emitted2) →
  loop_ok tracked max told out emitted out2 emitted2.
Proof using.
  intros (s1 & -> & [A0 A1] & A2 & A3 & A4 & A5) H2. destruct (H2 _ A0) as (s2 & -> & [B0 B1] & B2 & B3 & B4 & B5).
  exists (s1 ++ s2). rewrite foldl_app app_assoc. split_and!; [done|done|by eapply grows_trans|auto|rewrite len_app; lia|by apply Forall_app|].
  intros T E. destruct (A5 T E) as [C1 C2]. destruct (B5 T C1) as [D1 D2]. split; [done|by apply Forall_app].
Qed.
(** The difference is emitted in order, as far as [max] allows. *)
Lemma difference_spec (live : gmap TransportIdentity Tracked) (max : N) told out emitted :
  tells told emitted →
  ∃ emitted' out',
  (let '(full, out, emitted) := emit_gone max (filter (λ p, live !! p = None) (btree_to_list emitted).*1) out emitted in
   if full : bool then (out, emitted)
   else emit_changed max (filter (λ pt, emitted !! pt.1 ≠ Some pt.2) (btree_to_list live)) out emitted) = (out', emitted') ∧
  loop_ok live max told out emitted out' emitted' ∧ (len out' < max → emitted' = live).
Proof using.
  intros Ht. set (gone := filter _ (btree_to_list emitted).*1).
  assert (∀ p, p ∈ gone ↔ is_Some (emitted !! p) ∧ live !! p = None) as Hg.
  { intros p. unfold gone. rewrite list_elem_of_filter list_elem_of_fmap. split.
    - intros [Hl ([q t] & -> & Hq%elem_of_btree_to_list)]. split; [by exists t|done].
    - intros [[t He] Hl]. split; [done|]. exists (p, t). by rewrite elem_of_btree_to_list. }
  assert (NoDup gone) as Hnd by apply NoDup_filter, NoDup_btree_keys.
  pose proof (emit_gone_ok live max gone told out emitted Hnd ltac:(intros p; apply Hg) Ht) as Hgone.
  destruct (emit_gone max gone out emitted) as [[full out1] emitted1]. destruct Hgone as [L1 G1]. destruct full.
  { exists emitted1, out1. split_and!; [done|done|lia]. }
  set (changed := filter _ (btree_to_list live)).
  assert (∀ p t, (p, t) ∈ changed → live !! p = Some t ∧ emitted1 !! p ≠ Some t) as Hc.
  { intros p t [H1 H2%elem_of_btree_to_list]%list_elem_of_filter. done. }
  assert (NoDup changed.*1) as Hnc.
  { eapply sublist_NoDup; [apply (NoDup_btree_keys live)|]. apply fmap_sublist, sublist_filter. }
  assert (changed = btree_to_list (changed_of live emitted1)) as Ec by (symmetry; apply btree_to_list_filter).
  assert (gone_of live emitted1 = ∅) as Hz.
  { apply map_empty. intros p. rewrite map_lookup_filter G1. case_decide as Hp; [done|]. destruct (emitted !! p) as [t|] eqn:E; [|done].
    cbn. case_guard as Hn; [|done]. destruct Hp. apply Hg. split; [by exists t|done]. }
  assert (∀ told1, tells told1 emitted1 → let '(out2, emitted2) := emit_changed max changed out1 emitted1 in
    loop_ok live max told1 out1 emitted1 out2 emitted2 ∧ (len out2 < max → behind live emitted2 + len changed = behind live emitted1)) as L2.
  { intros told1 Ht1. by apply emit_changed_ok. }
  destruct (emit_changed max changed out1 emitted1) as [out2 emitted2]. exists emitted2, out2. split_and!; [done| |].
  - eapply loop_ok_trans; [exact L1|]. intros told1 Ht1. by apply L2.
  - intros Hl. destruct L1 as (said & _ & [Ht1 _] & _). destruct (L2 _ Ht1) as [_ Hb]. specialize (Hb Hl). apply behind_zero.
    unfold behind at 2 in Hb. rewrite Hz map_size_empty Ec in Hb. unfold len in Hb. rewrite length_btree_to_list in Hb. lia.
Qed.
(** A drain, in full. *)
Record drained (k : KademliaDiscovery) (now max : N) (told : gmap TransportIdentity (gset bytes))
    (out : list DiscoveryEvent) (k' : KademliaDiscovery) : Prop := MkDrained {
  dr_tracked : kd_tracked k' = live_at k now;
  dr_tells : tells (foldl hear told out) (kd_emitted k');
  dr_grows : grows (live_at k now) told (foldl hear told out);
  dr_len : len out ≤ max;
  dr_done : len out < max → kd_emitted k' = live_at k now;
  dr_outstanding : outstanding k now = outstanding k' now + len out;
  dr_core : (kd_config k', kd_started k', kd_stopped k') = (kd_config k, kd_started k, kd_stopped k) ∧
    kd_budgets k' = kd_budgets k ∧ kd_next_handle k' = kd_next_handle k;
  dr_mem : kad_mem k → kad_mem k' ∧ Forall (deliverable KAD_SOURCE) out
}.
Lemma live_twice k now : filter (λ pt, (now <? tr_expires_at pt.2) = true) (live_at k now) = live_at k now.
Proof. apply map_filter_id. by intros p t [_ Hp]%map_lookup_filter_Some. Qed.
Lemma live_ok k now : all_tracked_ok (kd_tracked k) → all_tracked_ok (live_at k now).
Proof. intros Hk p t [Hp _]%map_lookup_filter_Some. by eapply Hk. Qed.
Lemma drain_spec k now max told : kad_running k = true → tells told (kd_emitted k) →
  drained k now max told (Kademlia_drain_events dec k now max).1 (Kademlia_drain_events dec k now max).2.
Proof.
  intros Hr Ht. rewrite drain_eq //. destruct (reported_facts k now max) as (R1 & R2 & R3 & R4 & R5 & R6 & R7 & R8 & R9 & R10).
  destruct (difference_spec (live_at k now) max told (reported k now max).1 (kd_emitted k) Ht) as (emitted' & out' & E & L & D).
  assert (∀ X, X = (out', kd_set_emitted (swept k now max) emitted') →
    drained k now max told X.1 X.2) as Hfin.
  { intros X ->. cbn [fst snd]. destruct L as (said & -> & [L0 L1] & L2 & L3 & L4 & L5). cbn in R2. injection R2 as F1 F2 F3 F4. constructor.
    - done.
    - cbn. by rewrite foldl_app R9.
    - by rewrite foldl_app R9.
    - by apply L2.
    - intros Hl. by apply D.
    - unfold outstanding. rewrite R6 L3. change (kd_emitted (kd_set_emitted (swept k now max) emitted')) with emitted'.
      assert (live_at (kd_set_emitted (swept k now max) emitted') now = live_at k now) as -> by apply live_twice.
      assert (unreported (kd_set_emitted (swept k now max) emitted') now = unreported (reported k now max).2 now) as -> by done.
      rewrite len_app. lia.
    - cbn. rewrite F1 F2 F3 R3 R4. done.
    - intros Hm. destruct (R7 Hm) as [M1 M2 M3 M4 M5 M6]. destruct L5 as [T1 T2].
      { by apply live_ok, km_tracked_ok. }
      { apply Hm. }
      split; [|by apply Forall_app]. constructor; cbn; try done.
      + etrans; [|apply (km_tracked _ Hm)]. pose proof (map_size_filter (λ pt, (now <? tr_expires_at pt.2) = true) (kd_tracked k)).
        unfold live_at. lia.
      + by apply live_ok, km_tracked_ok. }
  apply Hfin. revert E. destruct (emit_gone _ _ _ _) as [[[] o1] e1]; [by intros [= -> ->]|].
  destruct (emit_changed _ _ _ _) as [o2 e2]. by intros [= -> ->].
Qed.
End drain.

(** ** Histories *)

Inductive kad_op :=
| KdStart (now : N)
| KdDrain (now max : N)
| KdHint (h : PeerHint) (now : N)
| KdEvent (e : KademliaEvent) (now : N)
| KdTick (now : N) (entropy : bytes)
| KdBootstrap (now : N)
| KdTargeted (target : TransportIdentity) (now : N) (usable : bool)
| KdCommands (max : N)
| KdTrust (peers : gset TransportIdentity)
| KdShutdown (now : N).
(** The provider, what its consumer holds, and when the queries it commanded were
    started. *)
Record kad_world := MkKadWorld {
  kw_provider : KademliaDiscovery;
  kw_told : gmap TransportIdentity (gset bytes);
  kw_log : list N
}.

Section history.
Variable dec : N → bytes → option bytes.

Definition kad_step (w : kad_world) (op : kad_op) : kad_world :=
  let '(MkKadWorld k told log) := w in
  match op with
  | KdStart now => MkKadWorld (Kademlia_start k now).2 told log
  | KdDrain now max => let '(out, k) := Kademlia_drain_events dec k now max in MkKadWorld k (foldl hear told out) log
  | KdHint h now => MkKadWorld (Kademlia_add_hint k h now).2 told log
  | KdEvent e now => MkKadWorld (Kademlia_ingest_driver_event k e now) told log
  | KdTick now entropy =>
      let '(asked, k) := Kademlia_tick dec k now entropy in MkKadWorld k told (log ++ when asked now)
  | KdBootstrap now =>
      let '(answer, k) := Kademlia_request_bootstrap k now in MkKadWorld k told (log ++ when (is_ok answer) now)
  | KdTargeted target now usable =>
      let '(answer, k) := Kademlia_request_targeted_lookup dec k target now usable in
      MkKadWorld k told (log ++ when (is_ok answer) now)
  | KdCommands max => MkKadWorld (Kademlia_drain_commands k max).2 told log
  | KdTrust peers => MkKadWorld (Kademlia_set_remote_trusted k peers) told log
  | KdShutdown now => MkKadWorld (Kademlia_shutdown k now) told log
  end.

(** *** Only drains and the shutdown touch what was told *)

Lemma start_query_face k permit class key : face (start_query k permit class key) = face k.
Proof. done. Qed.
Lemma settle_face k h class now ok progress : face (Kademlia_settle k h class now ok progress).2 = face k.
Proof.
  unfold Kademlia_settle. destruct (QueryBudgets_finish _ _ _) as [[] b]; cbn [negb]; [|done]. destruct class; [done..|].
  destruct (kd_exploration_snapshot _); [|done]. cbn [snd]. destruct progress; [done|]. by destruct (_ && _).
Qed.
Lemma ingest_face k e now : face (Kademlia_ingest_driver_event k e now) = face k.
Proof.
  unfold Kademlia_ingest_driver_event. destruct (negb _ || _); [done|]. change (face k) with (face (kd_tick_clock k now)).
  set (k1 := kd_tick_clock k now). destruct e as [h class origin|h cs class|p|p|h class reason]; [| |done|by case_bool_decide|].
  - destruct (is_implicit h); [|done]. destruct (_ <=? _); [done|]. by destruct (QueryBudgets_charge_unscheduled _ _).
  - pose proof (settle_face k1 h class now true (existsb (candidate_progress k1) (ObservedCandidates_as_slice cs))) as Hs.
    destruct (Kademlia_settle _ _ _ _ _ _) as [[] k2]; cbn [negb snd] in *; [|done].
    rewrite (core_face _ _ (tracks_core _ _ _)). exact Hs.
  - pose proof (settle_face k1 h class now false false) as Hs. destruct (Kademlia_settle _ _ _ _ _ _) as [[] k2]; cbn [negb snd] in *; [|done].
    by destruct reason.
Qed.
Lemma tick_face k now entropy : face (Kademlia_tick dec k now entropy).2 = face k.
Proof.
  unfold Kademlia_tick. destruct (negb _ || _); [done|]. case_bool_decide; [done|]. destruct (_ || _); [done|]. case_bool_decide; [done|].
  destruct (negb _); [done|]. by destruct (QueryBudgets_acquire _ _) as [[] b].
Qed.
Lemma bootstrap_face k now : face (Kademlia_request_bootstrap k now).2 = face k.
Proof.
  unfold Kademlia_request_bootstrap. destruct (negb _ || _); [done|]. destruct (kd_local_key _); [|done]. destruct (negb _); [done|].
  by destruct (QueryBudgets_acquire _ _) as [[] b].
Qed.
Lemma targeted_face k p now usable : face (Kademlia_request_targeted_lookup dec k p now usable).2 = face k.
Proof.
  unfold Kademlia_request_targeted_lookup. destruct (negb _ || _); [done|]. case_bool_decide; [done|]. destruct (negb _); [done|].
  destruct (kd_evidence _ !! p) as [e|]; [|done]. destruct (_ <=? _); [done|]. destruct (negb _); [done|]. destruct usable; [done|].
  destruct (match kd_cooldowns _ !! p with Some _ => _ | None => _ end); [done|]. destruct (QueryBudgets_acquire _ _) as [[] b]; [|done].
  by destruct (targeted_lookup_key dec p).
Qed.
Lemma hint_face k h now : face (Kademlia_add_hint k h now).2 = face k.
Proof.
  assert (∀ c os b k, core (foldl (candidate_evidence c now) (b, k) os).2 = core k) as Hf.
  { intros c os. induction os as [|o os IH]; intros b j; [done|]. cbn [foldl candidate_evidence]. case_bool_decide; [|done].
    set (e := MkEvidence _ _ _). pose proof (evidence_core j (cand_peer_id c) e) as Hc.
    destruct (Kademlia_record_evidence j (cand_peer_id c) e) as [ch j1]. cbn [snd] in *. by rewrite IH. }
  unfold Kademlia_add_hint. destruct (negb _ || _); [done|]. destruct h as [p a at_|p id sup at_|c].
  - case_bool_decide; [done|]. destruct (_ <=? _); [done|]. destruct (OfferedAddress_parse a) as [x|]; [|done].
    by destruct (OfferedAddresses_new [x]) as [xs|].
  - destruct (negb _); [done|]. set (e := MkEvidence _ _ _). pose proof (core_face _ _ (evidence_core k p e)) as Hc.
    destruct (Kademlia_record_evidence k p e) as [[] k1]; exact Hc.
  - case_bool_decide; [done|]. destruct (CandidatePeer_validate c); [|done]. case_bool_decide; [done|]. destruct (negb _); [done|].
    pose proof (core_face _ _ (Hf c (bset_to_list (cand_protocol_observations c)) false k)) as Hc.
    destruct (foldl _ _ _) as [learned k1]. cbn [snd] in *. case_bool_decide; [by destruct learned|].
    by destruct (OfferedAddresses_parse_all _) as [xs|].
Qed.
Definition told_inv (w : kad_world) : Prop :=
  (kd_stopped (kw_provider w) = false → tells (kw_told w) (kd_emitted (kw_provider w))).
Lemma face_told k k' told log log' : face k' = face k → told_inv (MkKadWorld k told log) → told_inv (MkKadWorld k' told log').
Proof using. intros [= _ _ E1 E2] H. unfold told_inv in *. cbn in *. by rewrite E1 E2. Qed.
Lemma kad_step_told w op : told_inv w → told_inv (kad_step w op).
Proof.
  destruct w as [k told log]. intros Hw.
  destruct op as [now|now max|h now|e now|now entropy|now|target now usable|max|peers|now]; cbn [kad_step].
  - apply (face_told (kd_set_started k (kd_started (Kademlia_start k now).2)) _ _ log); [|exact Hw]. unfold Kademlia_start. by destruct (kd_started k) eqn:E; cbn; rewrite /face /= ?E.
  - destruct (kad_running k) eqn:Er.
    + unfold kad_running in Er. apply andb_true_iff in Er as [E1 E2]. apply negb_true_iff in E2.
      pose proof (drain_spec dec k now max told ltac:(unfold kad_running; by rewrite E1 E2) (Hw E2)) as Hd.
      destruct (Kademlia_drain_events dec k now max) as [out k']. intros _. apply (dr_tells _ _ _ _ _ _ _ Hd).
    + unfold Kademlia_drain_events. unfold kad_running in Er. rewrite -[negb (kd_started k) || kd_stopped k]negb_involutive negb_orb negb_involutive Er. done.
  - eapply face_told; [apply hint_face|exact Hw].
  - eapply face_told; [apply ingest_face|exact Hw].
  - rewrite (surjective_pairing (Kademlia_tick dec k now entropy)). eapply face_told; [apply tick_face|exact Hw].
  - rewrite (surjective_pairing (Kademlia_request_bootstrap k now)). eapply face_told; [apply bootstrap_face|exact Hw].
  - rewrite (surjective_pairing (Kademlia_request_targeted_lookup dec k target now usable)). eapply face_told; [apply targeted_face|exact Hw].
  - exact Hw.
  - exact Hw.
  - unfold Kademlia_shutdown. destruct (kd_stopped k) eqn:E; [done|]. done.
Qed.
Lemma kad_run_told ops w : told_inv w → told_inv (foldl kad_step w ops).
Proof. revert w. induction ops as [|op ops IH]; intros w Hw; [done|]. cbn. by apply IH, kad_step_told. Qed.
Lemma kad_new_facts c local k : Kademlia_new dec c local = Ok k →
  told_inv (MkKadWorld k ∅ []) ∧ kad_inv 0 0 [] k ∧ kd_config k = c ∧ kd_started k = false ∧
  ProtocolId_as_str (kd_expected_protocol k) = rendered_protocol c.
Proof.
  unfold Kademlia_new. destruct (_ =? 0); [done|]. destruct (negb _); [done|]. destruct (_ =? 0); [done|]. destruct (_ <? _); [done|].
  rewrite result_bind_Ok. intros (u & _ & H). revert H. destruct (_ <? _); [done|]. rewrite result_bind_Ok. intros (e & He%map_err_Ok & [= <-]).
  split_and!; [|constructor|done|done|].
  - intros _ p. unfold held. by rewrite !lookup_empty.
  - constructor; try by vm_compute.
  - constructor; cbn; try done; [apply N.le_0_l|intros _; apply N.le_0_l].
  - done.
  - done.
  - revert He. unfold ProtocolId_parse. destruct (_ || _); [done|]. destruct (position _ _); [done|]. by intros [= <-].
Qed.

(** *** Bounds, with time that does not go back *)

Definition op_time (op : kad_op) : option N :=
  match op with
  | KdStart now | KdDrain now _ | KdHint _ now | KdEvent _ now | KdTick now _ | KdBootstrap now | KdTargeted _ now _
  | KdShutdown now => Some now
  | KdCommands _ | KdTrust _ => None
  end.
Fixpoint kad_times_ok (now : N) (ops : list kad_op) : bool :=
  match ops with
  | [] => true
  | op :: ops =>
      match op_time op with
      | Some t => (now <=? t) && (t <=? u64_max) && kad_times_ok t ops
      | None => kad_times_ok now ops
      end
  end.
Lemma drain_mem k now max : kad_mem k →
  kad_mem (Kademlia_drain_events dec k now max).2 ∧ Forall (deliverable KAD_SOURCE) (Kademlia_drain_events dec k now max).1 ∧
  kd_budgets (Kademlia_drain_events dec k now max).2 = kd_budgets k ∧
  kd_next_handle (Kademlia_drain_events dec k now max).2 = kd_next_handle k ∧
  (kd_config (Kademlia_drain_events dec k now max).2, kd_started (Kademlia_drain_events dec k now max).2,
   kd_stopped (Kademlia_drain_events dec k now max).2) = (kd_config k, kd_started k, kd_stopped k).
Proof.
  intros Hm. destruct (kad_running k) eqn:Er.
  - pose proof (drain_spec dec k now max (tr_addresses <$> kd_emitted k) Er (tells_self _)) as [_ _ _ _ _ _ (H1 & H2 & H3) H4].
    destruct (H4 Hm) as [H5 H6]. by split_and!.
  - unfold Kademlia_drain_events. unfold kad_running in Er. destruct (kd_started k) eqn:E1, (kd_stopped k) eqn:E2; try done; cbn; by rewrite ?E1 ?E2.
Qed.
Lemma kad_step_inv n now w op : kad_inv n now (kw_log w) (kw_provider w) → n + 1 < IMPLICIT_BIT →
  now ≤ default now (op_time op) → default 0 (op_time op) ≤ u64_max →
  kad_inv (n + 1) (default now (op_time op)) (kw_log (kad_step w op)) (kw_provider (kad_step w op)).
Proof.
  destruct w as [k told log]. cbn [kw_log kw_provider]. intros Hk Hb Hn Hu. pose proof (ki_mem _ _ _ _ Hk) as Hm.
  destruct op as [t|t max|h t|e t|t entropy|t|target t usable|max|peers|t]; cbn [kad_step op_time default] in *.
  - unfold Kademlia_start. destruct (kd_started k); [by eapply kad_inv_later|]. cbn [snd kw_provider kw_log].
    destruct Hk as [_ B H L]. constructor; [|by eapply budget_later|cbn; lia|done]. eapply kad_mem_ext; [exact Hm|done..| |done|done].
    unfold offers. cbn. rewrite filter_app len_app [filter _ [_]]filter_cons_False // filter_nil len_nil. lia.
  - destruct (drain_mem k t max Hm) as (D1 & _ & D2 & D3 & [= D4 _ _]). destruct (Kademlia_drain_events dec k t max) as [out k'].
    cbn in *. destruct Hk as [_ B H L]. constructor; rewrite ?D2 ?D3 ?D4 //; [by eapply budget_later|lia].
  - destruct (hint_inv k h t Hm) as [H1 H2]. by eapply kad_inv_core.
  - by apply (ingest_inv n now).
  - pose proof (explore_inv dec n now t log k entropy Hk Hn Hb) as [H _]. by destruct (Kademlia_tick dec k t entropy).
  - pose proof (bootstrap_inv n now t log k Hk Hn Hb) as [H _]. by destruct (Kademlia_request_bootstrap k t).
  - pose proof (targeted_inv dec n now t log k target usable Hk Hn Hb) as [H _]. by destruct (Kademlia_request_targeted_lookup dec k target t usable).
  - destruct (commands_inv k max Hm) as [H1 H2]. by eapply kad_inv_core.
  - destruct (trust_inv k peers Hm) as [H1 H2]. by eapply kad_inv_core.
  - pose proof (shutdown_mem k t Hm) as H. cbn [kw_provider kw_log]. revert H. unfold Kademlia_shutdown.
    destruct (kd_stopped k); [intros _; by eapply kad_inv_later|]. intros H. destruct Hk as [_ B Hh L].
    constructor; [done|by eapply budget_later|cbn; lia|done].
Qed.
Definition last_time (now : N) (ops : list kad_op) : N := foldl (λ t op, default t (op_time op)) now ops.
Lemma kad_run_inv ops n now w : kad_inv n now (kw_log w) (kw_provider w) → n + len ops < IMPLICIT_BIT →
  kad_times_ok now ops = true →
  kad_inv (n + len ops) (last_time now ops) (kw_log (foldl kad_step w ops)) (kw_provider (foldl kad_step w ops)).
Proof.
  revert n now w. induction ops as [|op ops IH]; intros n now w Hw Hl Ht; [by rewrite len_nil N.add_0_r|].
  rewrite len_cons in Hl |- *. cbn [kad_times_ok] in Ht.
  assert (now ≤ default now (op_time op) ∧ default 0 (op_time op) ≤ u64_max ∧ kad_times_ok (default now (op_time op)) ops = true) as (H1 & H2 & H3).
  { destruct (op_time op); cbn; [|split_and!; [done|lia|done]]. apply andb_true_iff in Ht as [[?%N.leb_le ?%N.leb_le]%andb_true_iff ?]. done. }
  rewrite N.add_assoc. cbn [foldl]. apply (IH (n + 1) (default now (op_time op)) (kad_step w op)); [|lia|exact H3].
  apply kad_step_inv; [done|lia|done|done].
Qed.
Lemma kad_times_snoc ops op now t : op_time op = Some t → kad_times_ok now (ops ++ [op]) = true →
  kad_times_ok now ops = true ∧ last_time now ops ≤ t.
Proof.
  intros Ho. revert now. induction ops as [|o ops IH]; intros now; cbn [app kad_times_ok].
  - rewrite Ho. intros [[H _]%andb_true_iff _]%andb_true_iff. split; [done|by apply N.leb_le].
  - unfold last_time. cbn [foldl]. destruct (op_time o) as [t'|]; cbn; [|by apply IH]. intros [H1 H2]%andb_true_iff. rewrite H1. by apply IH.
Qed.
Lemma kad_run_config ops w : kd_config (kw_provider (foldl kad_step w ops)) = kd_config (kw_provider w).
Proof.
  revert w. induction ops as [|op ops IH]; intros [k told log]; [done|]. cbn [foldl]. rewrite IH. clear IH.
  destruct op as [t|t max|h t|e t|t entropy|t|target t usable|max|peers|t]; cbn [kad_step].
  - unfold Kademlia_start. by destruct (kd_started k).
  - assert (kd_config (Kademlia_drain_events dec k t max).2 = kd_config k) as E.
    { unfold Kademlia_drain_events. destruct (negb _ || _); [done|]. cbn. destruct (negb _ && _); cbn;
        destruct (emit_gone _ _ _ _) as [[[] ?] ?]; try done; by destruct (emit_changed _ _ _ _). }
    by destruct (Kademlia_drain_events dec k t max).
  - by pose proof (hint_face k h t) as [= E _ _ _].
  - by pose proof (ingest_face k e t) as [= E _ _ _].
  - pose proof (tick_face k t entropy) as [= E _ _ _]. by destruct (Kademlia_tick dec k t entropy).
  - pose proof (bootstrap_face k t) as [= E _ _ _]. by destruct (Kademlia_request_bootstrap k t).
  - pose proof (targeted_face k target t usable) as [= E _ _ _]. by destruct (Kademlia_request_targeted_lookup dec k target t usable).
  - done.
  - done.
  - unfold Kademlia_shutdown. by destruct (kd_stopped k).
Qed.

(** ** A lawful provider *)

#[local] Existing Instance Kademlia_provider.
Definition kad_contract_life (k : KademliaDiscovery) : Life := MkLife (kd_started k) (kd_stopped k).
#[program] Definition Kademlia_contract : @ProviderContract KademliaDiscovery (Kademlia_provider dec) := {|
  provider_ok := kad_mem;
  provider_life := kad_contract_life;
  provider_descriptor := MkProviderDescriptor KAD_SOURCE PROVIDER_INTERFACE_VERSION (Some KAD_CONFIG_VERSION) ScopeNetwork Active true true
|}.
Next Obligation. done. Qed.
Next Obligation. by vm_compute. Qed.
Next Obligation.
  intros k now Hm. cbn. unfold Kademlia_start. destruct (kd_started k); [done|]. cbn. eapply kad_mem_ext; [exact Hm|done..| |done|done].
  unfold offers. cbn. rewrite filter_app len_app [filter _ [_]]filter_cons_False // filter_nil len_nil. lia.
Qed.
Next Obligation. intros k now Hs. cbn in *. unfold Kademlia_start. by rewrite Hs. Qed.
Next Obligation. intros k now Hs. cbn in *. unfold Kademlia_start. by rewrite Hs. Qed.
Next Obligation. intros k now max Hm. by apply drain_mem. Qed.
Next Obligation.
  intros k now max. cbn. unfold kad_contract_life, Kademlia_drain_events. destruct (negb _ || _); [done|]. cbn.
  destruct (negb _ && _); cbn; destruct (emit_gone _ _ _ _) as [[[] ?] ?]; try done; by destruct (emit_changed _ _ _ _).
Qed.
Next Obligation.
  intros k now max. cbn. destruct (kad_running k) eqn:Er.
  - apply (drain_spec dec k now max (tr_addresses <$> kd_emitted k) Er (tells_self _)).
  - unfold Kademlia_drain_events. unfold kad_running in Er. destruct (kd_started k), (kd_stopped k); try done; cbn; apply N.le_0_l.
Qed.
Next Obligation. intros k now max Hm. by apply drain_mem. Qed.
Next Obligation. intros k now max. unfold alive. cbn. unfold Kademlia_drain_events. by destruct (kd_started k), (kd_stopped k). Qed.
Next Obligation. intros k h now _ Hm. by apply hint_inv. Qed.
Next Obligation. intros k h now. pose proof (hint_face k h now) as [= _ E1 E2 _]. cbn. unfold kad_contract_life. by rewrite E1 E2. Qed.
Next Obligation. done. Qed.
Next Obligation. intros k. unfold alive. cbn. unfold Kademlia_health_now, provider_health. by destruct (kd_started k), (kd_stopped k). Qed.
Next Obligation. intros k now. apply shutdown_mem. Qed.
Next Obligation. intros k now. cbn. unfold Kademlia_shutdown, kad_contract_life. destruct (kd_stopped k) eqn:E; cbn; by rewrite ?E. Qed.
Next Obligation.
  intros k now now'. cbn. assert (kd_stopped (Kademlia_shutdown k now) = true) as E by (unfold Kademlia_shutdown; by destruct (kd_stopped k) eqn:E).
  set (k1 := Kademlia_shutdown k now) in *. unfold Kademlia_shutdown. by rewrite E.
Qed.
End history.
