(* ===== verification/KademliaClaims.v ===== *)
(** * The Kademlia provider, over its histories

    What a consumer holds after a drain, that draining ends, how many queries the
    driver is asked for, when a targeted lookup is granted, and which network's
    evidence counts. *)
From S2P Require Import Prelude Ids DiscoveryApi Discovery Provider ProviderQueue PeerCache PeerCacheFacts KademliaApi Kademlia KademliaFacts KademliaView.
Local Open Scope N_scope.

(** C12: a consumer of the Kademlia provider holds what it tracks. The consumer is
    the coordinator's: an observation adds its addresses to what is held of the
    peer, and a retraction clears the peer. Whatever the driver reported and
    however partial the drains before were, after a drain that returns fewer events
    than it was allowed the consumer holds nothing of a peer the provider does not
    track alive at that moment, and of every other peer exactly what it held
    before together with the addresses the provider tracks: what an earlier drain
    cut off was not lost. *)
Theorem kad_view_exact (dec : N → bytes → option bytes) (c : KademliaProviderConfig) (local : TransportIdentity)
    (k0 k' : KademliaDiscovery) (ops : list kad_op) (w : kad_world) (now max : N) (out : list DiscoveryEvent)
    (p : TransportIdentity) :
  Kademlia_new dec c local = Ok k0 → foldl (kad_step dec) (MkKadWorld k0 ∅ []) ops = w →
  kad_running (kw_provider w) = true →
  Kademlia_drain_events dec (kw_provider w) now max = (out, k') → len out < max →
  held (foldl hear (kw_told w) out) p =
    match live_at (kw_provider w) now !! p with Some t => held (kw_told w) p ∪ tr_addresses t | None => ∅ end.
Proof.
  intros Hn Hw Hr Hd Hl. destruct (kad_new_facts dec c local k0 Hn) as (Ht & _).
  pose proof (kad_run_told dec ops _ Ht) as Htold. rewrite Hw in Htold.
  assert (kd_stopped (kw_provider w) = false) as Hs.
  { unfold kad_running in Hr. apply andb_true_iff in Hr as [_ Hr]. by apply negb_true_iff. }
  pose proof (drain_spec dec (kw_provider w) now max (kw_told w) Hr (Htold Hs)) as D. rewrite Hd in D. cbn [fst snd] in D.
  apply view_of; [|apply D]. rewrite -(dr_done _ _ _ _ _ _ _ D Hl). apply D.
Qed.

(** Drain until nothing comes. *)
Fixpoint drain_all (dec : N → bytes → option bytes) (rounds : nat) (k : KademliaDiscovery) (now max : N) :
    option (list DiscoveryEvent * KademliaDiscovery) :=
  match rounds with
  | O => None
  | S rounds =>
      let '(out, k) := Kademlia_drain_events dec k now max in
      if bool_decide (len out = 0) then Some ([], k)
      else '(rest, k) ← drain_all dec rounds k now max; Some (out ++ rest, k)
  end.
Lemma drain_all_spec dec rounds k now max told : kad_running k = true → tells told (kd_emitted k) → 0 < max →
  outstanding dec k now < N.of_nat rounds →
  ∃ out k', drain_all dec rounds k now max = Some (out, k') ∧
    tells (foldl hear told out) (live_at k now) ∧ grows (live_at k now) told (foldl hear told out).
Proof.
  revert k told. induction rounds as [|rounds IH]; intros k told Hr Ht Hm Ho; [lia|]. cbn [drain_all].
  pose proof (drain_spec dec k now max told Hr Ht) as D. destruct (Kademlia_drain_events dec k now max) as [out k']. cbn [fst snd] in D.
  pose proof (dr_outstanding _ _ _ _ _ _ _ D) as Hout. case_bool_decide as Hz.
  - assert (out = []) as -> by by apply len_zero. exists [], k'. pose proof (dr_done _ _ _ _ _ _ _ D Hm) as Hdone. split_and!; [done| |by left].
    rewrite -Hdone. apply D.
  - destruct (IH k' (foldl hear told out)) as (rest & k2 & E & H1 & H2).
    + destruct (dr_core _ _ _ _ _ _ _ D) as ([= _ E1 E2] & _). unfold kad_running. by rewrite E1 E2.
    + apply (dr_tells _ _ _ _ _ _ _ D).
    + done.
    + lia.
    + exists (out ++ rest), k2. rewrite E. cbn. rewrite foldl_app.
      assert (live_at k' now = live_at k now) as El by (unfold live_at at 1; rewrite (dr_tracked _ _ _ _ _ _ _ D); apply live_twice).
      rewrite El in H1, H2. split_and!; [done|done|]. eapply grows_trans; [apply D|done].
Qed.
Lemma outstanding_le dec k now :
  outstanding dec k now ≤ 1 + N.of_nat (size (kd_emitted k)) + N.of_nat (size (kd_tracked k)).
Proof.
  unfold outstanding, unreported, behind, gone_of, changed_of, live_at.
  pose proof (map_size_filter (λ pt, (now <? tr_expires_at pt.2) = true) (kd_tracked k)) as H1.
  set (live := filter _ (kd_tracked k)) in *.
  pose proof (map_size_filter (λ pt, live !! pt.1 = None) (kd_emitted k)) as H2.
  pose proof (map_size_filter (λ pt, kd_emitted k !! pt.1 ≠ Some pt.2) live) as H3. case_decide; lia.
Qed.
(** C13: draining ends, and ends at the truth. After any history, a consumer that
    keeps draining a running Kademlia provider at one instant, however few events
    it takes at a time, receives an empty answer after at most two more rounds
    than there are peers tracked or told, and then, adding up what it hears as the
    coordinator does, holds nothing of a peer that is not tracked alive and of
    every other exactly what it held before together with what is tracked. *)
Theorem kad_drain_terminates (dec : N → bytes → option bytes) (c : KademliaProviderConfig) (local : TransportIdentity)
    (k0 : KademliaDiscovery) (ops : list kad_op) (w : kad_world) (now max : N) :
  Kademlia_new dec c local = Ok k0 → foldl (kad_step dec) (MkKadWorld k0 ∅ []) ops = w →
  kad_running (kw_provider w) = true → 0 < max →
  ∃ out k', drain_all dec (2 + size (kd_tracked (kw_provider w)) + size (kd_emitted (kw_provider w))) (kw_provider w) now max =
    Some (out, k') ∧
  ∀ p, held (foldl hear (kw_told w) out) p =
    match live_at (kw_provider w) now !! p with Some t => held (kw_told w) p ∪ tr_addresses t | None => ∅ end.
Proof.
  intros Hn Hw Hr Hm. destruct (kad_new_facts dec c local k0 Hn) as (Ht & _).
  pose proof (kad_run_told dec ops _ Ht) as Htold. rewrite Hw in Htold.
  assert (kd_stopped (kw_provider w) = false) as Hs.
  { unfold kad_running in Hr. apply andb_true_iff in Hr as [_ Hr]. by apply negb_true_iff. }
  pose proof (outstanding_le dec (kw_provider w) now) as Ho.
  destruct (drain_all_spec dec (2 + size (kd_tracked (kw_provider w)) + size (kd_emitted (kw_provider w))) (kw_provider w) now max (kw_told w))
    as (out & k' & E & H1 & H2); [done|by apply Htold|done|lia|]. exists out, k'. split; [done|]. intros p. by apply view_of.
Qed.

(** C14: the driver is never asked for more than the configuration allows. Over any
    history with time that does not go back, whatever the driver announces and
    completes, and in whatever order, the queries commanded and not settled stay
    within the concurrency ceiling, the charges held for queries of the library's
    own within eight, and the queries commanded in any sixty seconds within the
    configured rate; at most 1024 candidates and 1024 pieces of evidence are held
    and 256 offers wait. *)
Theorem kad_queries_bounded (dec : N → bytes → option bytes) (c : KademliaProviderConfig) (local : TransportIdentity)
    (k0 : KademliaDiscovery) (ops : list kad_op) (w : kad_world) :
  Kademlia_new dec c local = Ok k0 → foldl (kad_step dec) (MkKadWorld k0 ∅ []) ops = w →
  kad_times_ok 0 ops = true → len ops < 2 ^ 63 →
  QueryBudgets_commanded_held (kd_budgets (kw_provider w)) ≤ kc_max_concurrent_queries c ∧
  QueryBudgets_implicit_held (kd_budgets (kw_provider w)) ≤ 8 ∧
  (∀ t, len (filter (λ x, t ≤ x < t + 60000) (kw_log w)) ≤ kc_max_queries_per_minute c) ∧
  N.of_nat (size (kd_tracked (kw_provider w))) ≤ 1024 ∧ N.of_nat (size (kd_evidence (kw_provider w))) ≤ 1024 ∧
  offers (kw_provider w) ≤ 256.
Proof.
  intros Hn Hw Ht Hl. destruct (kad_new_facts dec c local k0 Hn) as (_ & Hi & Hc & _).
  pose proof (kad_run_inv dec ops 0 0 (MkKadWorld k0 ∅ []) Hi Hl Ht) as Hk. rewrite Hw in Hk.
  pose proof (kad_run_config dec ops (MkKadWorld k0 ∅ [])) as E. rewrite Hw in E. cbn in E. rewrite Hc in E.
  destruct Hk as [[M1 M2 M3 M4 M5 M6] [B1 B2 B3 B4 B5 B6] _ [L1 L2]]. rewrite L1 E in B2.
  split_and!; [done|done| |done|done|done]. intros t. rewrite -E -L2. apply B6.
Qed.

(** ** Targeted lookups *)

(** The conditions, each of them necessary. *)
Definition may_look_up (dec : N → bytes → option bytes) (k : KademliaDiscovery) (target : TransportIdentity) (now : N)
    (usable : bool) : Prop :=
  kad_running k = true ∧ target ≠ kd_local k ∧ target ∈ kd_trusted k ∧
  (∃ e, kd_evidence k !! target = Some e ∧ now < ev_expires_at e ∧ ev_supported e = true) ∧ usable = false ∧
  (∀ last, kd_cooldowns k !! target = Some last →
     sat_add u64_max last (kc_targeted_lookup_cooldown_ms (kd_config k)) ≤ now) ∧
  QueryBudgets_held (kd_budgets k) < qb_max_concurrent (kd_budgets k) ∧
  len (drop_lapsed now (qb_starts (kd_budgets k))) < qb_max_per_minute (kd_budgets k) ∧
  is_Some (targeted_lookup_key dec target).
(** What a refusal leaves: nothing queued, nothing held, nothing charged. *)
Definition untouched (k k' : KademliaDiscovery) : Prop :=
  kd_commands k' = kd_commands k ∧ kd_cooldowns k' = kd_cooldowns k ∧
  qb_running (kd_budgets k') = qb_running (kd_budgets k) ∧ qb_unbound (kd_budgets k') = qb_unbound (kd_budgets k) ∧
  qb_starts (kd_budgets k') ⊆+ qb_starts (kd_budgets k).
Lemma untouched_clock k now : untouched k (kd_tick_clock k now).
Proof. done. Qed.
Lemma drop_lapsed_sub now (l : list N) : drop_lapsed now l ⊆+ l.
Proof. induction l as [|t l IH]; [done|]. cbn. destruct (_ <=? _); [by apply submseteq_cons|done]. Qed.
Lemma acquire_iff b now : is_ok (QueryBudgets_acquire b now).1 = true ↔
  QueryBudgets_held b < qb_max_concurrent b ∧ len (drop_lapsed now (qb_starts b)) < qb_max_per_minute b.
Proof.
  unfold QueryBudgets_acquire. change (QueryBudgets_held (QueryBudgets_prune b now)) with (QueryBudgets_held b).
  change (qb_max_concurrent (QueryBudgets_prune b now)) with (qb_max_concurrent b). 
  change (qb_max_per_minute (QueryBudgets_prune b now)) with (qb_max_per_minute b).
  change (qb_starts (QueryBudgets_prune b now)) with (drop_lapsed now (qb_starts b)).
  destruct (N.leb_spec (qb_max_concurrent b) (QueryBudgets_held b)) as [H1|H1]; [split; [done|lia]|].
  destruct (N.leb_spec (qb_max_per_minute b) (len (drop_lapsed now (qb_starts b)))) as [H2|H2]; [split; [done|lia]|]. done.
Qed.
Lemma targeted_spec dec n t log k target now usable : kad_inv n t log k → n + 1 < IMPLICIT_BIT → t ≤ now →
  match Kademlia_request_targeted_lookup dec k target now usable with
  | (Ok _, k') =>
      may_look_up dec k target now usable ∧ kd_cooldowns k' = <[target := now]> (kd_cooldowns k) ∧
      ∃ h id key, targeted_lookup_key dec target = Some key ∧ qb_running (kd_budgets k) !! h = None ∧
        kd_commands k' = kd_commands k ++ [StartQuery h Targeted (Ed25519PublicKey key)] ∧
        qb_running (kd_budgets k') = <[h := (id, Targeted)]> (qb_running (kd_budgets k))
  | (Err _, k') => ¬ may_look_up dec k target now usable ∧ untouched k k'
  end.
Proof.
  intros Hk Hb Hn. unfold Kademlia_request_targeted_lookup, may_look_up.
  assert (kad_running k = negb (negb (kd_started k) || kd_stopped k)) as -> by by rewrite negb_orb negb_involutive.
  destruct (negb (kd_started k) || kd_stopped k); [split; [by intros []|done]|].
  case_bool_decide as Hl; [split; [by intros (_ & H & _)|done]|].
  case_bool_decide as Hp; cbn [negb]; [|split; [by intros (_ & _ & H & _)|done]]. cbn [kd_evidence kd_tick_clock kd_set_clock].
  destruct (kd_evidence k !! target) as [e|]; [|split; [by intros (_ & _ & _ & (e & ? & _) & _)|done]].
  destruct (N.leb_spec (ev_expires_at e) now) as [He|He]; [split; [intros (_ & _ & _ & (e' & [= <-] & ? & _) & _); lia|done]|].
  destruct (ev_supported e) eqn:Es; cbn [negb]; [|split; [intros (_ & _ & _ & (e' & [= <-] & _ & ?) & _); congruence|done]].
  destruct usable; [split; [by intros (_ & _ & _ & _ & ? & _)|done]|]. cbn [kd_cooldowns].
  destruct (match kd_cooldowns k !! target with Some _ => _ | None => _ end) eqn:Ec.
  { destruct (kd_cooldowns k !! target) as [last|]; [|done]. apply N.ltb_lt in Ec. split; [|done].
    intros (_ & _ & _ & _ & _ & H & _). specialize (H last eq_refl). cbn in Ec. lia. }
  pose proof (acquire_iff (kd_budgets k) now) as Ha. pose proof (acquire_spec (kd_budgets k) now (bi_unbound _ _ _ _ (ki_budget _ _ _ _ Hk))) as As.
  change (kd_budgets (kd_tick_clock k now)) with (kd_budgets k). destruct (QueryBudgets_acquire (kd_budgets k) now) as [got b] eqn:Eg. cbn [fst] in Ha. destruct got as [permit|r].
  2: { subst b. split; [intros (_ & _ & _ & _ & _ & _ & H1 & H2 & _); by assert (is_ok (@Err Permit _ r) = true) by by apply Ha|].
       split_and!; [done|done|done|done|]. apply drop_lapsed_sub. }
  destruct As as (A1 & -> & _). destruct permit as [id]. cbn in A1. subst id.
  pose proof (bi_unbound _ _ _ _ (ki_budget _ _ _ _ Hk)) as Hu.
  destruct (targeted_lookup_key dec target) as [key|] eqn:Ek.
  - assert (kd_next_handle k + 1 < IMPLICIT_BIT) as Hh by (pose proof (ki_handles _ _ _ _ Hk); lia).
    rewrite start_query_eq //. cbn [kd_next_handle kd_set_budgets kd_set_clock kd_commands kd_budgets].
    set (h := MkQueryHandle (kd_next_handle k + 1)).
    assert (qb_running (kd_budgets k) !! h = None) as Hf.
    { destruct (qb_running (kd_budgets k) !! h) as [x|] eqn:E; [|done].
      pose proof (bi_handles _ _ _ _ (ki_budget _ _ _ _ Hk) h x E) as Hx. unfold is_implicit in Hx.
      assert (QueryHandle_origin h = Commanded) as Ho by (unfold h; rewrite -(commanded_small (kd_next_handle k + 1)) //; apply commanded_origin).
      rewrite Ho in Hx. specialize (Hx eq_refl). cbn in Hx. lia. }
    split; [|split; [done|]].
    + destruct (proj1 Ha eq_refl) as [G1 G2]. split_and!; try done; [by exists e|].
      intros last Hlast. rewrite Hlast in Ec. cbn in Ec. by apply N.ltb_ge in Ec.
    + exists h, (qb_next_permit (kd_budgets k) + 1), key. split_and!; [done|done|done|].
      change (qb_next_permit (kd_budgets k)) with (qb_next_permit (QueryBudgets_prune (kd_budgets k) now)). cbn [kd_budgets kd_set_cooldowns]. by rewrite bind_minted.
  - split; [by intros (_ & _ & _ & _ & _ & _ & _ & _ & [? ?])|]. cbn [kd_budgets kd_set_budgets].
    change (qb_next_permit (kd_budgets k)) with (qb_next_permit (QueryBudgets_prune (kd_budgets k) now)).
    unfold untouched. cbn [kd_budgets kd_set_budgets kd_commands kd_cooldowns kd_set_clock]. rewrite release_minted //. split_and!; [done|done|done|done|].
    cbn. rewrite remove_start_last. apply drop_lapsed_sub.
Qed.
(** C15: a targeted lookup is granted exactly when everything it needs is there.
    After any history with time that does not go back, a request is answered with a
    query if and only if the provider runs, the target is another, trusted peer with fresh positive evidence
    of serving this network, no usable address is known, its cooldown has passed,
    both budgets have room and its identity carries a key; then exactly one query is
    queued, for that key and under a handle nobody holds, and the cooldown starts. A
    refusal, whatever its reason, queues nothing, holds no permit and charges the
    rate window nothing. *)
Theorem kad_targeted_exact (dec : N → bytes → option bytes) (c : KademliaProviderConfig) (local : TransportIdentity)
    (k0 : KademliaDiscovery) (ops : list kad_op) (w : kad_world) (target : TransportIdentity) (now : N) (usable : bool)
    (answer : result () TargetedRefusal) (k' : KademliaDiscovery) :
  Kademlia_new dec c local = Ok k0 → foldl (kad_step dec) (MkKadWorld k0 ∅ []) ops = w →
  kad_times_ok 0 (ops ++ [KdTargeted target now usable]) = true → len ops + 1 < 2 ^ 63 →
  Kademlia_request_targeted_lookup dec (kw_provider w) target now usable = (answer, k') →
  match answer with
  | Ok _ =>
      may_look_up dec (kw_provider w) target now usable ∧
      kd_cooldowns k' = <[target := now]> (kd_cooldowns (kw_provider w)) ∧
      ∃ h id key, targeted_lookup_key dec target = Some key ∧ qb_running (kd_budgets (kw_provider w)) !! h = None ∧
        kd_commands k' = kd_commands (kw_provider w) ++ [StartQuery h Targeted (Ed25519PublicKey key)] ∧
        qb_running (kd_budgets k') = <[h := (id, Targeted)]> (qb_running (kd_budgets (kw_provider w)))
  | Err _ => ¬ may_look_up dec (kw_provider w) target now usable ∧ untouched (kw_provider w) k'
  end.
Proof.
  intros Hn Hw Ht Hl Hr. destruct (kad_new_facts dec c local k0 Hn) as (_ & Hi & _).
  destruct (kad_times_snoc ops (KdTargeted target now usable) 0 now eq_refl Ht) as [T1 T2].
  pose proof (kad_run_inv dec ops 0 0 (MkKadWorld k0 ∅ []) Hi ltac:(change IMPLICIT_BIT with (2 ^ 63); lia) T1) as Hk. rewrite Hw in Hk.
  pose proof (targeted_spec dec _ _ _ _ target now usable Hk ltac:(change IMPLICIT_BIT with (2 ^ 63); lia) T2) as Hs.
  by rewrite Hr in Hs.
Qed.

(** the provider counts the evidence of its own network and of no other. The
    protocol a provider requires as evidence is the identifier the peer cache
    prints and reads for the same wire major and network hash: a string is that
    identifier if and only if the cache reads those two out of it. *)
Theorem kad_network_exact (dec : N → bytes → option bytes) (c : KademliaProviderConfig) (local : TransportIdentity)
    (k0 : KademliaDiscovery) (s : bytes) :
  Kademlia_new dec c local = Ok k0 → kc_wire_major c ≤ u32_max →
  s = ProtocolId_as_str (kd_expected_protocol k0) ↔
  parse_kad_server_protocol_id s = Some (kc_wire_major c, kc_network_hash c).
Proof.
  intros Hn Hu. destruct (kad_new_facts dec c local k0 Hn) as (_ & _ & _ & _ & ->).
  revert Hn. unfold Kademlia_new. destruct (N.eqb_spec (kc_wire_major c) 0) as [|Hz]; [done|].
  destruct (negb _) eqn:Eh; [done|]. intros _. apply negb_false_iff, andb_true_iff in Eh as [E1%N.eqb_eq E2].
  rewrite kad_protocol_iff. split; [|by intros [-> _]]. intros ->. split_and!; [done|lia|done|done|done].
Qed.

(** ** A concrete history *)

Definition kad_dec (_ : N) (_ : bytes) : option bytes := Some (ED25519_ENVELOPE ++ replicate 32 x00).
Definition kad_local : TransportIdentity := MkTransportIdentity (bs "12D3KooWDpJ7As7BWAwRMfu1VU2WCqNjvq387JEYKDBj4kx6nXTN").
Definition kad_p1 : TransportIdentity := MkTransportIdentity (bs "12D3KooWK99VoVxNE7XzyBwXEzW7xhK7Gpv85r9F3V3fyKSUKPH5").
Definition kad_p2 : TransportIdentity := MkTransportIdentity (bs "12D3KooWK99VoVxNE7XzyBwXEzW7xhK7Gpv85r9F3V3fyKSUKPH6").
Definition kad_config : KademliaProviderConfig :=
  MkKademliaProviderConfig Client 1 (bs "ssbtblqj7mexczivog5qfbfjvi") 600000 60000 8 32 60000 10 4 6 300000 900000.
Definition kad_k0 : KademliaDiscovery :=
  match Kademlia_new kad_dec kad_config kad_local with
  | Ok k => k
  | Err _ => MkKademliaDiscovery kad_config kad_local (MkProtocolId []) false false ∅ ∅ None None [] ∅ ∅ ∅ ∅
               (QueryBudgets_new 0 0) Pacing_default 0 0 None 0 None 0 0 0
  end.
Definition kad_found : ObservedCandidates :=
  MkObservedCandidates [MkCandidatePeer kad_p2 {[bs "/ip4/10.0.0.2/tcp/1"]} KAD_SOURCE 40 None ∅].
Definition kad_ops : list kad_op :=
  [KdStart 0; KdTrust {[kad_p1; kad_p2]}; KdEvent (RoutingPeerAdded kad_p1) 10;
   KdHint (ObservedProtocol kad_p2 (kd_expected_protocol kad_k0) true 20) 20; KdTick 30 (replicate 32 x01);
   KdEvent (QueryStarted (QueryHandle_implicit 1) Bootstrap Implicit) 35;
   KdEvent (QueryResults (QueryHandle_commanded 1) kad_found Exploration) 40; KdDrain 50 1; KdBootstrap 55].
Definition kad_w : kad_world := foldl (kad_step kad_dec) (MkKadWorld kad_k0 ∅ []) kad_ops.
Definition kad_drain : list DiscoveryEvent * KademliaDiscovery := Kademlia_drain_events kad_dec (kw_provider kad_w) 60 10.
Definition kad_lookup : result () TargetedRefusal * KademliaDiscovery :=
  Kademlia_request_targeted_lookup kad_dec (kw_provider kad_w) kad_p2 70 false.
Lemma kad_k0_ok : Kademlia_new kad_dec kad_config kad_local = Ok kad_k0.
Proof. unfold kad_k0. destruct (Kademlia_new kad_dec kad_config kad_local) eqn:E; [done|]. by vm_compute in E. Qed.
Lemma kad_w_eq : foldl (kad_step kad_dec) (MkKadWorld kad_k0 ∅ []) kad_ops = kad_w.
Proof. unfold kad_w. exact eq_refl. Qed.
Lemma kad_drain_eq : Kademlia_drain_events kad_dec (kw_provider kad_w) 60 10 = (kad_drain.1, kad_drain.2).
Proof. unfold kad_drain. apply surjective_pairing. Qed.
Lemma kad_lookup_eq : Kademlia_request_targeted_lookup kad_dec (kw_provider kad_w) kad_p2 70 false = (kad_lookup.1, kad_lookup.2).
Proof. unfold kad_lookup. apply surjective_pairing. Qed.
Lemma kad_view_exact_witness : (len kad_drain.1 =? 1) = true ∧
  bool_decide (is_Some (live_at (kw_provider kad_w) 60 !! kad_p2)) = true ∧
  held (foldl hear (kw_told kad_w) kad_drain.1) kad_p2 =
    match live_at (kw_provider kad_w) 60 !! kad_p2 with Some t => held (kw_told kad_w) kad_p2 ∪ tr_addresses t | None => ∅ end.
Proof.
  split; [by vm_compute|]. split; [by vm_compute|].
  apply (kad_view_exact kad_dec kad_config kad_local kad_k0 kad_drain.2 kad_ops kad_w 60 10 kad_drain.1 kad_p2
    kad_k0_ok kad_w_eq).
  - by vm_compute.
  - exact kad_drain_eq.
  - by vm_compute.
Defined.
(** A peer found at one address and then at another: the provider replaces the
    address and retracts nothing, so the coordinator goes on holding both. *)
Definition kad_moved : ObservedCandidates :=
  MkObservedCandidates [MkCandidatePeer kad_p2 {[bs "/ip4/10.0.0.3/tcp/1"]} KAD_SOURCE 65 None ∅].
Definition kad_moved_w : kad_world :=
  foldl (kad_step kad_dec) kad_w [KdDrain 60 10; KdEvent (QueryResults (QueryHandle_commanded 2) kad_moved Bootstrap) 65; KdDrain 70 10].
(** an address that is replaced is not retracted. A provider that heard of a peer
    at one address and then at another tracks the second alone, while a consumer
    that heard every event holds both. *)
Theorem kad_replaced_address_kept :
  tr_addresses <$> kd_tracked (kw_provider kad_moved_w) !! kad_p2 = Some {[bs "/ip4/10.0.0.3/tcp/1"]} ∧
  kd_emitted (kw_provider kad_moved_w) = kd_tracked (kw_provider kad_moved_w) ∧
  held (kw_told kad_moved_w) kad_p2 = {[bs "/ip4/10.0.0.2/tcp/1"; bs "/ip4/10.0.0.3/tcp/1"]}.
Proof.
  split; [|split]; apply (bool_decide_eq_true_1 (_ = _)); by vm_compute.
Qed.
Lemma kad_drain_terminates_witness : ∃ out k',
  drain_all kad_dec (2 + size (kd_tracked (kw_provider kad_w)) + size (kd_emitted (kw_provider kad_w))) (kw_provider kad_w) 60 1 =
    Some (out, k') ∧
  ∀ p, held (foldl hear (kw_told kad_w) out) p =
    match live_at (kw_provider kad_w) 60 !! p with Some t => held (kw_told kad_w) p ∪ tr_addresses t | None => ∅ end.
Proof.
  apply (kad_drain_terminates kad_dec kad_config kad_local kad_k0 kad_ops kad_w 60 1 kad_k0_ok kad_w_eq).
  - by vm_compute.
  - by vm_compute.
Defined.
Lemma kad_queries_bounded_witness : (len (kw_log kad_w) =? 2) = true ∧
  len (filter (λ x, 0 ≤ x < 0 + 60000) (kw_log kad_w)) ≤ kc_max_queries_per_minute kad_config.
Proof.
  split; [by vm_compute|].
  apply (kad_queries_bounded kad_dec kad_config kad_local kad_k0 kad_ops kad_w kad_k0_ok kad_w_eq).
  - by vm_compute.
  - by vm_compute.
Defined.
Lemma kad_targeted_exact_witness : is_ok kad_lookup.1 = true ∧
  match kad_lookup.1 with
  | Ok _ =>
      may_look_up kad_dec (kw_provider kad_w) kad_p2 70 false ∧
      kd_cooldowns kad_lookup.2 = <[kad_p2 := 70]> (kd_cooldowns (kw_provider kad_w)) ∧
      ∃ h id key, targeted_lookup_key kad_dec kad_p2 = Some key ∧ qb_running (kd_budgets (kw_provider kad_w)) !! h = None ∧
        kd_commands kad_lookup.2 = kd_commands (kw_provider kad_w) ++ [StartQuery h Targeted (Ed25519PublicKey key)] ∧
        qb_running (kd_budgets kad_lookup.2) = <[h := (id, Targeted)]> (qb_running (kd_budgets (kw_provider kad_w)))
  | Err _ => ¬ may_look_up kad_dec (kw_provider kad_w) kad_p2 70 false ∧ untouched (kw_provider kad_w) kad_lookup.2
  end.
Proof.
  split; [by vm_compute|].
  apply (kad_targeted_exact kad_dec kad_config kad_local kad_k0 kad_ops kad_w kad_p2 70 false kad_lookup.1 kad_lookup.2
    kad_k0_ok kad_w_eq).
  - by vm_compute.
  - by vm_compute.
  - exact kad_lookup_eq.
Defined.
Lemma kad_network_exact_witness :
  parse_kad_server_protocol_id (bs "/interweave/kad/1.0.0/ssbtblqj7mexczivog5qfbfjvi") =
    Some (1, bs "ssbtblqj7mexczivog5qfbfjvi") ∧
  (bs "/interweave/kad/1.0.0/ssbtblqj7mexczivog5qfbfjvi" = ProtocolId_as_str (kd_expected_protocol kad_k0) ↔
   parse_kad_server_protocol_id (bs "/interweave/kad/1.0.0/ssbtblqj7mexczivog5qfbfjvi") =
     Some (kc_wire_major kad_config, kc_network_hash kad_config)).
Proof.
  split; [by vm_compute|].
  apply (kad_network_exact kad_dec kad_config kad_local kad_k0 _ kad_k0_ok). by vm_compute.
Defined.
