(* ===== verification/Composition.v ===== *)
(** * Discovery, composed

    [crates/transport/composition/src/discovery.rs]: the four providers beside one
    coordinator, pumped round by round, with what is handed to the address book,
    whom a round asks to reconnect and what the Kademlia driver is told; and, of
    [crates/transport/libp2p/src/runtime/kademlia_driver.rs], the names of a
    network. *)
From S2P Require Import Prelude Ids Trust DiscoveryApi Discovery Provider ProviderQueue StaticProvider PeerCache CacheProvider Mdns KademliaApi Kademlia Fingerprint.
Local Open Scope N_scope.

(** ** The names of a network ([kademlia_driver.rs]) *)

Definition BASE32 : bytes := bs "abcdefghijklmnopqrstuvwxyz234567".
(** [BASE32[i]]; the code masks [i] to five bits. *)
Definition base32_char (i : N) : byte := nth (N.to_nat i) BASE32 x61.
Definition KAD_NETWORK_DOMAIN : bytes := bs "interweave/kad-network/v1" ++ [x00].
Definition network_id_is_legal (id : bytes) : bool :=
  match id with
  | [] => false
  | first :: rest =>
      if negb (is_ascii_lowercase first || is_ascii_digit first) then false
      else if 64 <? len id then false
      else forallb (λ b, is_ascii_lowercase b || is_ascii_digit b || byte_in (bs "._-") b) rest
  end.
(** [while bits >= 5], which runs [bits / 5] times. *)
Fixpoint emit_quintets (rounds : nat) (acc bits : N) (out : bytes) : N * bytes :=
  match rounds with
  | O => (bits, out)
  | S rounds =>
      let bits := bits - 5 in
      emit_quintets rounds acc bits (out ++ [base32_char (N.land (N.shiftr acc bits) 31)])
  end.
(** One byte of the digest; [acc] is 32 bits wide. *)
Definition hash_byte (st : N * N * bytes) (b : byte) : N * N * bytes :=
  let '(acc, bits, out) := st in
  let acc := N.lor (N.shiftl acc 8 mod 2 ^ 32) (byte_val b) in
  let bits := bits + 8 in
  let '(bits, out) := emit_quintets (N.to_nat (bits / 5)) acc bits out in
  (acc, bits, out).

Section names.
Context {sha : Sha256}.
Definition network_hash (network_id : bytes) : bytes :=
  let digest := sha256 (KAD_NETWORK_DOMAIN ++ network_id) in
  let '(acc, bits, out) := foldl hash_byte (0, 0, []) (ntake 16 digest) in
  if 0 <? bits then out ++ [base32_char (N.land (N.shiftl acc (5 - bits) mod 2 ^ 32) 31)] else out.
Definition kad_protocol (network_id : bytes) : bytes := bs "/interweave/kad/1.0.0/" ++ network_hash network_id.
End names.

(** ** The plan *)

(** What the provider's configuration reads of a resolved [kademlia] entry
    ([config/profile-config/src/kademlia.rs]). *)
Record KademliaProfile := MkKademliaProfile {
  kp_network_id : bytes;
  kp_mode : KademliaMode;
  kp_seed_sources : list bytes;
  kp_candidate_ttl_ms : N;
  kp_kbucket_size : N;
  kp_max_routing_peers : N;
  kp_query_timeout_ms : N;
  kp_parallelism : N;
  kp_disjoint_query_paths : bool;
  kp_max_concurrent_queries : N;
  kp_max_queries_per_minute : N;
  kp_exploration_interval_ms : N;
  kp_exploration_jitter_percent : N;
  kp_max_results_per_query : N;
  kp_target_routing_peers : N;
  kp_targeted_lookup_cooldown_ms : N;
  kp_bootstrap_min_interval_ms : N;
  kp_bootstrap_refresh_interval_ms : N
}.
Record DiscoveryPlan := MkDiscoveryPlan {
  dp_static_bootstrap : option (list StaticEntry * Z);
  dp_peer_cache : option (CacheLimits * Z);
  dp_mdns : option Z;
  dp_kademlia : option (KademliaProfile * Z)
}.
(** [CompositionError::Discovery], by what it reports. *)
Inductive DiscoveryFailure :=
| RegisterFailed (e : DiscoveryError)
| StartFailed (e : ProviderError)
| StaticFailed (e : DiscoveryError)
| NoCacheFile
| CacheFailed (e : CacheError)
| KademliaFailed (e : ProviderConfigError).
Definition KADEMLIA_WIRE_MAJOR : N := 1.
Definition MAX_RECONNECTS_PER_ROUND : N := 16.
Definition RELEARN_INTERVAL_MS : N := 300000.

Record Discovery := MkDiscovery {
  ds_manager : DiscoveryManager;
  ds_statics : option StaticBootstrapDiscovery;
  ds_cache : option PeerCacheDiscovery;
  ds_mdns : option MdnsDiscovery;
  ds_kademlia : option KademliaDiscovery;
  ds_trust : PeerTrustPolicy;
  ds_learned : gmap TransportIdentity (list bytes * N);
  ds_reconnect_cursor : N;
  ds_seed_sources : gset bytes;
  ds_bootstrapped : bool
}.
Definition ds_set_manager (d : Discovery) (m : DiscoveryManager) : Discovery :=
  MkDiscovery m (ds_statics d) (ds_cache d) (ds_mdns d) (ds_kademlia d) (ds_trust d) (ds_learned d)
    (ds_reconnect_cursor d) (ds_seed_sources d) (ds_bootstrapped d).
Definition ds_set_providers (d : Discovery) (s : option StaticBootstrapDiscovery) (c : option PeerCacheDiscovery)
    (m : option MdnsDiscovery) (k : option KademliaDiscovery) : Discovery :=
  MkDiscovery (ds_manager d) s c m k (ds_trust d) (ds_learned d) (ds_reconnect_cursor d) (ds_seed_sources d)
    (ds_bootstrapped d).
Definition ds_set_cache (d : Discovery) (c : option PeerCacheDiscovery) : Discovery :=
  ds_set_providers d (ds_statics d) c (ds_mdns d) (ds_kademlia d).
Definition ds_set_mdns (d : Discovery) (m : option MdnsDiscovery) : Discovery :=
  ds_set_providers d (ds_statics d) (ds_cache d) m (ds_kademlia d).
Definition ds_set_kademlia (d : Discovery) (k : option KademliaDiscovery) : Discovery :=
  ds_set_providers d (ds_statics d) (ds_cache d) (ds_mdns d) k.
Definition ds_set_bootstrapped (d : Discovery) (b : bool) : Discovery :=
  MkDiscovery (ds_manager d) (ds_statics d) (ds_cache d) (ds_mdns d) (ds_kademlia d) (ds_trust d) (ds_learned d)
    (ds_reconnect_cursor d) (ds_seed_sources d) b.
Definition ds_set_learned (d : Discovery) (l : gmap TransportIdentity (list bytes * N)) : Discovery :=
  MkDiscovery (ds_manager d) (ds_statics d) (ds_cache d) (ds_mdns d) (ds_kademlia d) (ds_trust d) l
    (ds_reconnect_cursor d) (ds_seed_sources d) (ds_bootstrapped d).
Definition ds_set_cursor (d : Discovery) (n : N) : Discovery :=
  MkDiscovery (ds_manager d) (ds_statics d) (ds_cache d) (ds_mdns d) (ds_kademlia d) (ds_trust d) (ds_learned d)
    n (ds_seed_sources d) (ds_bootstrapped d).

(** [iter().cycle().skip(start).take(take)]: with [start] within the list and at
    most one turn, two copies of it are enough. *)
Definition rotate {A} (items : list A) (start max : N) : list A * N :=
  if bool_decide (items = []) then ([], 0)
  else
    let start := start mod len items in
    let take := N.min max (len items) in
    (ntake take (ndrop start (items ++ items)), (start + take) mod len items).

(** What the substrate reports, as far as discovery tells it apart
    ([libp2p/src/runtime/messages.rs]). *)
Inductive SwarmEvent :=
| SwKademlia (event : KademliaEvent)
| SwMdnsDiscovered (candidates : list CandidatePeer)
| SwMdnsExpired (expired : list (TransportIdentity * bytes))
| SwRouteConfirmed (peer : TransportIdentity) (address : bytes)
| SwKademliaServerObserved (peer : TransportIdentity) (protocol_id : bytes) (supported : bool)
| SwMdnsInterfaceFailed
| SwMdnsWatcherFailed
| SwMdnsRebuildFailed
| SwMdnsUnavailable
| SwOther.

Definition register {P} {DP : DiscoveryProvider P} (m : DiscoveryManager) (p : P) (priority : Z) (now_ms : N) :
    result (DiscoveryManager * P) DiscoveryFailure :=
  let '(answer, m) := DiscoveryManager_register m (descriptor p) priority in
  _ <-? map_err RegisterFailed answer;
  let '(answer, p) := start p now_ms in
  _ <-? map_err StartFailed answer;
  Ok (m, p).

(** The observations of a batch: what a seeding provider passes on. *)
Definition observed_in (events : list DiscoveryEvent) : list CandidatePeer :=
  omap (λ e, match e with CandidateObserved c => Some c | _ => None end) events.
(** One turn of the pump's loop: the answers, which the code discards, the seeds and
    the coordinator so far. *)
Definition pump_slot {P} {DP : DiscoveryProvider P} (d : Discovery) (now_ms : N) (slot : option P)
    (st : list (result () RejectedEvent) * list CandidatePeer * DiscoveryManager) :
    option P * (list (result () RejectedEvent) * list CandidatePeer * DiscoveryManager) :=
  match slot with
  | None => (None, st)
  | Some p =>
      let '(answers, seeds, m) := st in
      let seeding := bool_decide (pd_name (descriptor p) ∈ ds_seed_sources d) in
      let '(events, answered, p, m) := pump_provider p m now_ms (ds_trust d) in
      (Some p, (answers ++ answered, if seeding then seeds ++ observed_in events else seeds, m))
  end.

Definition is_due_again (learned : gmap TransportIdentity (list bytes * N)) (now_ms : N) (peer : TransportIdentity)
    (addresses : list bytes) : bool :=
  match learned !! peer with
  | None => true
  | Some (offered, at_) => negb (bool_decide (offered = addresses)) || (RELEARN_INTERVAL_MS <=? sat_sub now_ms at_)
  end.
(** The loop over the candidates: the record so far, and what is handed over. *)
Definition offer_one (now_ms : N)
    (st : gmap TransportIdentity (list bytes * N) * list (TransportIdentity * list bytes)) (c : AggregatedCandidate) :
    gmap TransportIdentity (list bytes * N) * list (TransportIdentity * list bytes) :=
  let '(learned, changed) := st in
  let addresses := AggregatedCandidate_address_list c in
  if is_due_again learned now_ms (ag_peer_id c) addresses
  then (<[ag_peer_id c := (addresses, now_ms)]> learned, changed ++ [(ag_peer_id c, addresses)])
  else (learned, changed).
Definition Discovery_changed_candidates (d : Discovery) (now_ms : N) :
    list (TransportIdentity * list bytes) * Discovery :=
  let m := DiscoveryManager_sweep (ds_manager d) now_ms in
  let candidates := DiscoveryManager_candidates m now_ms in
  let current : gset TransportIdentity := list_to_set (ag_peer_id <$> candidates) in
  let learned := filter (λ pl, pl.1 ∈ current) (ds_learned d) in
  let '(learned, changed) := foldl (offer_one now_ms) (learned, []) candidates in
  (changed, ds_set_learned (ds_set_manager d m) learned).

Definition eligible (d : Discovery) (now_ms : N) (connected : TransportIdentity → bool) : list TransportIdentity :=
  filter (λ p, PeerTrustPolicy_decide (ds_trust d) p = Allowed ∧ connected p = false)
    (ag_peer_id <$> DiscoveryManager_candidates (ds_manager d) now_ms).
Definition Discovery_reconnect_targets (d : Discovery) (now_ms : N) (connected : TransportIdentity → bool) :
    list TransportIdentity * Discovery :=
  let '(window, next) := rotate (eligible d now_ms connected) (ds_reconnect_cursor d) MAX_RECONNECTS_PER_ROUND in
  (window, ds_set_cursor d next).

Definition Discovery_set_trust (d : Discovery) (trust : PeerTrustPolicy) : Discovery :=
  let kademlia := (λ k, Kademlia_set_remote_trusted k (ptp_allowed_peers trust)) <$> ds_kademlia d in
  let learned :=
    filter (λ pl, TrustDecision_is_allowed (PeerTrustPolicy_decide (ds_trust d) pl.1) ||
                  negb (TrustDecision_is_allowed (PeerTrustPolicy_decide trust pl.1)) = true) (ds_learned d) in
  MkDiscovery (ds_manager d) (ds_statics d) (ds_cache d) (ds_mdns d) kademlia trust learned
    (ds_reconnect_cursor d) (ds_seed_sources d) (ds_bootstrapped d).

Inductive Health := HealthHealthy | HealthDegraded | HealthUnavailable.
Definition Discovery_health (d : Discovery) : Health :=
  match DiscoveryManager_aggregate_health (ds_manager d) with
  | Healthy => HealthHealthy
  | Degraded => HealthDegraded
  | Unavailable => HealthUnavailable
  end.

Section composition.
Variable bs58_decode_onto : N → bytes → option bytes.
Variable serde_json_from_str : bytes → result CacheFile SerdeError.
Variable serde_json_to_vec_pretty : CacheFile → result bytes SerdeError.
Context {sha : Sha256}.
Abbreviation Cache_instance := (CacheProvider_provider bs58_decode_onto).
Abbreviation Kad_instance := (Kademlia_provider bs58_decode_onto).

Definition provider_config (k : KademliaProfile) : KademliaProviderConfig :=
  MkKademliaProviderConfig (kp_mode k) KADEMLIA_WIRE_MAJOR (network_hash (kp_network_id k)) (kp_candidate_ttl_ms k)
    (kp_targeted_lookup_cooldown_ms k) (kp_target_routing_peers k) (kp_max_routing_peers k)
    (kp_exploration_interval_ms k) (kp_exploration_jitter_percent k) (kp_max_concurrent_queries k)
    (kp_max_queries_per_minute k) (kp_bootstrap_min_interval_ms k) (kp_bootstrap_refresh_interval_ms k).

Definition new_statics (plan : DiscoveryPlan) (m : DiscoveryManager) (now_ms : N) :
    result (DiscoveryManager * option StaticBootstrapDiscovery) DiscoveryFailure :=
  match dp_static_bootstrap plan with
  | Some (entries, priority) =>
      p <-? map_err StaticFailed (Static_new entries);
      '(m, p) <-? register m p priority now_ms;
      Ok (m, Some p)
  | None => Ok (m, None)
  end.
(** The path of the cache file enters as the outcomes of reading it. *)
Definition new_cache (plan : DiscoveryPlan) (cache_file : option LoadIo) (m : DiscoveryManager) (now_ms : N) :
    result (DiscoveryManager * option PeerCacheDiscovery) DiscoveryFailure :=
  match dp_peer_cache plan with
  | Some (limits, priority) =>
      io <-? match cache_file with Some io => Ok io | None => Err NoCacheFile end;
      cache <-? map_err CacheFailed (PeerCache_load bs58_decode_onto serde_json_from_str io limits);
      '(m, p) <-? register (DP := Cache_instance) m (CacheProvider_new cache) priority now_ms;
      Ok (m, Some p)
  | None => Ok (m, None)
  end.
Definition new_mdns (plan : DiscoveryPlan) (m : DiscoveryManager) (now_ms : N) :
    result (DiscoveryManager * option MdnsDiscovery) DiscoveryFailure :=
  match dp_mdns plan with
  | Some priority =>
      '(m, p) <-? register m Mdns_new priority now_ms;
      Ok (m, Some p)
  | None => Ok (m, None)
  end.
Definition new_kademlia (plan : DiscoveryPlan) (trusted : gset TransportIdentity) (local : TransportIdentity)
    (m : DiscoveryManager) (now_ms : N) :
    result (DiscoveryManager * option KademliaDiscovery) DiscoveryFailure :=
  match dp_kademlia plan with
  | Some (k, priority) =>
      p <-? map_err KademliaFailed (Kademlia_new bs58_decode_onto (provider_config k) local);
      '(m, p) <-? register (DP := Kad_instance) m p priority now_ms;
      Ok (m, Some (Kademlia_set_remote_trusted p trusted))
  | None => Ok (m, None)
  end.
Definition Discovery_new (plan : DiscoveryPlan) (cache_file : option LoadIo) (trust : PeerTrustPolicy)
    (trusted : gset TransportIdentity) (local : TransportIdentity) (now_ms : N) : result Discovery DiscoveryFailure :=
  '(m, statics) <-? new_statics plan DiscoveryManager_new now_ms;
  '(m, cache) <-? new_cache plan cache_file m now_ms;
  '(m, mdns) <-? new_mdns plan m now_ms;
  let seed_sources : gset bytes :=
    match dp_kademlia plan with Some (k, _) => list_to_set (kp_seed_sources k) | None => ∅ end in
  '(m, kademlia) <-? new_kademlia plan trusted local m now_ms;
  Ok (MkDiscovery m statics cache mdns kademlia trust ∅ 0 seed_sources false).

Definition Discovery_pump (d : Discovery) (now_ms : N) : list (result () RejectedEvent) * Discovery :=
  let '(statics, st) := pump_slot d now_ms (ds_statics d) ([], [], ds_manager d) in
  let '(cache, st) := pump_slot (DP := Cache_instance) d now_ms (ds_cache d) st in
  let '(mdns, st) := pump_slot d now_ms (ds_mdns d) st in
  let '(kademlia, (answers, seeds, m)) := pump_slot (DP := Kad_instance) d now_ms (ds_kademlia d) st in
  let kademlia :=
    (λ k, foldl (λ k c, (Kademlia_add_hint k (CandidateHint c) now_ms).2) k seeds) <$> kademlia in
  (answers, ds_set_providers (ds_set_manager d m) statics cache mdns kademlia).

(** [rand::random()] is [entropy]. *)
Definition Discovery_kademlia_commands (d : Discovery) (now_ms : N) (entropy : bytes) :
    list KademliaCommand * Discovery :=
  match ds_kademlia d with
  | None => ([], d)
  | Some k =>
      let '(bootstrapped, k) :=
        if rv_routing_peers (Kademlia_routing_view k) =? 0 then (false, k)
        else if negb (ds_bootstrapped d) || Kademlia_bootstrap_refresh_due k now_ms then
          let '(answer, k) := Kademlia_request_bootstrap k now_ms in
          (match answer with Ok _ => true | Err _ => ds_bootstrapped d end, k)
        else (ds_bootstrapped d, k) in
      let '(_, k) := Kademlia_tick bs58_decode_onto k now_ms entropy in
      let '(commands, k) := Kademlia_drain_commands k usize_max in
      (commands, ds_set_kademlia (ds_set_bootstrapped d bootstrapped) (Some k))
  end.

Definition discovered_one (now_ms : N) (m : MdnsDiscovery) (c : CandidatePeer) : MdnsDiscovery :=
  foldl (λ m a, (Mdns_push_discovered bs58_decode_onto m (TransportIdentity_as_str (cand_peer_id c)) a now_ms).2) m
    (bset_to_list (cand_addresses c)).
Definition Discovery_on_swarm_event (d : Discovery) (event : SwarmEvent) (now_ms : N) : bool * Discovery :=
  match event with
  | SwKademlia event =>
      (true, ds_set_kademlia d
               ((λ k, Kademlia_ingest_driver_event k event now_ms) <$> ds_kademlia d))
  | SwMdnsDiscovered candidates =>
      (true, ds_set_mdns d ((λ m, foldl (discovered_one now_ms) m candidates) <$> ds_mdns d))
  | SwMdnsExpired expired =>
      (true, ds_set_mdns d
               ((λ m, foldl (λ m pa, (Mdns_push_expired bs58_decode_onto m (TransportIdentity_as_str pa.1) pa.2 now_ms).2)
                        m expired) <$> ds_mdns d))
  | SwRouteConfirmed peer address =>
      (true, ds_set_cache d
               ((λ c, (CacheProvider_add_hint c (ObservedReachable peer address now_ms) now_ms).2) <$> ds_cache d))
  | SwKademliaServerObserved peer protocol_id supported =>
      (true, match ds_cache d, ProtocolId_parse protocol_id with
             | Some c, Ok protocol_id =>
                 ds_set_cache d (Some (CacheProvider_add_hint c
                                         (ObservedProtocol peer protocol_id supported now_ms) now_ms).2)
             | _, _ => d
             end)
  | SwMdnsInterfaceFailed | SwMdnsWatcherFailed | SwMdnsRebuildFailed | SwMdnsUnavailable =>
      (true, ds_set_mdns d ((λ m, Mdns_report_backend_down m now_ms) <$> ds_mdns d))
  | SwOther => (false, d)
  end.

Definition Discovery_flush (d : Discovery) (io : WriteIo) (path temp : bytes) (now_ms : N) (fs : gmap bytes bytes) :
    Discovery * gmap bytes bytes :=
  match ds_cache d with
  | None => (d, fs)
  | Some c =>
      let '(_, c, fs) := CacheProvider_flush_if_due serde_json_to_vec_pretty c io path temp now_ms fs in
      (ds_set_cache d (Some c), fs)
  end.
Definition Discovery_shutdown (d : Discovery) (io : WriteIo) (path temp : bytes) (now_ms : N) (fs : gmap bytes bytes) :
    Discovery * gmap bytes bytes :=
  let '(cache, fs) :=
    match ds_cache d with
    | None => (None, fs)
    | Some c =>
        let '(_, c, fs) := CacheProvider_flush serde_json_to_vec_pretty c io path temp now_ms fs in (Some c, fs)
    end in
  (ds_set_providers d ((λ p, Static_shutdown p now_ms) <$> ds_statics d)
     ((λ p, CacheProvider_shutdown p now_ms) <$> cache) ((λ p, Mdns_shutdown p now_ms) <$> ds_mdns d)
     ((λ p, Kademlia_shutdown p now_ms) <$> ds_kademlia d), fs).

(** ** Diagnostics *)

Record ProviderDiagnostics := MkProviderDiagnostics {
  pdg_name : bytes;
  pdg_health : option ProviderHealth;
  pdg_priority : option Z;
  pdg_interface_version : option bytes
}.
Record DiscoveryDiagnostics := MkDiscoveryDiagnostics {
  ddg_provider_count : N;
  ddg_providers : list ProviderDiagnostics;
  ddg_candidates : N;
  ddg_overflow : OverflowStats;
  ddg_kademlia_effective_target : option N
}.
Definition provider_names (d : Discovery) : list bytes :=
  omap id [(λ p, pd_name (Static_descriptor p)) <$> ds_statics d;
           (λ p, pd_name (CacheProvider_descriptor p)) <$> ds_cache d;
           (λ p, pd_name (Mdns_descriptor p)) <$> ds_mdns d;
           (λ p, pd_name (Kademlia_descriptor p)) <$> ds_kademlia d].
Definition Discovery_diagnostics (d : Discovery) : DiscoveryDiagnostics :=
  let m := ds_manager d in
  MkDiscoveryDiagnostics (msize (dm_providers m))
    ((λ name, MkProviderDiagnostics name (DiscoveryManager_provider_health m name)
                (DiscoveryManager_provider_priority m name)
                ((λ r, pd_interface_version (rg_descriptor r)) <$> dm_providers m !! name)) <$> provider_names d)
    (DiscoveryManager_candidate_count m) (cs_overflow (dm_candidates m))
    (RoutingView_effective_target ∘ Kademlia_routing_view <$> ds_kademlia d).
End composition.
