(* ===== verification/CompositionFacts.v ===== *)
(** * Discovery composed: its parts

    The names of a network, the rotating window, what is offered to the address
    book, and the providers' contract carried through every operation. *)
From S2P Require Import Prelude Ids Trust DiscoveryApi Discovery DiscoveryFacts DiscoveryHistory Provider ProviderQueue StaticProvider PeerCache PeerCacheFacts CacheProvider CacheView Mdns MdnsFacts MdnsView KademliaApi Kademlia KademliaFacts KademliaView Fingerprint Composition.
Local Open Scope N_scope.

(** ** The names of a network *)

Lemma base32_char_ok i : base32_lower (base32_char i) = true.
Proof.
  unfold base32_char. assert (Forall (λ b, base32_lower b = true) BASE32) as H by by vm_compute; repeat constructor.
  destruct (nth_in_or_default (N.to_nat i) BASE32 x61) as [Hin| ->]; [|by vm_compute].
  rewrite -> Forall_forall in H. apply H. by apply list_elem_of_In.
Qed.
(** The characters so far are base32 and, with the bits that wait, are the bytes so far. *)
Definition hash_ok (bytes_read : N) (st : N * N * bytes) : Prop :=
  forallb base32_lower st.2 = true ∧ 5 * len st.2 + st.1.2 = 8 * bytes_read ∧ st.1.2 < 5.
Lemma quintets_ok rounds acc bits out : forallb base32_lower out = true → 5 * N.of_nat rounds ≤ bits →
  let r := emit_quintets rounds acc bits out in
  forallb base32_lower r.2 = true ∧ r.1 = bits - 5 * N.of_nat rounds ∧ len r.2 = len out + N.of_nat rounds.
Proof.
  revert bits out. induction rounds as [|rounds IH]; intros bits out Ho Hb; [cbn; split_and!; [done|lia|lia]|].
  cbn [emit_quintets]. cbn zeta. set (c := base32_char _). destruct (IH (bits - 5) (out ++ [c])) as (H1 & H2 & H3).
  - rewrite forallb_app Ho /=. by rewrite base32_char_ok.
  - lia.
  - split_and!; [done|rewrite H2; lia|rewrite H3 len_app len_cons len_nil; lia].
Qed.
Lemma hash_byte_ok n st b : hash_ok n st → hash_ok (n + 1) (hash_byte st b).
Proof.
  destruct st as [[acc bits] out]. intros (H1 & H2 & H3). cbn [fst snd] in *. unfold hash_byte. cbn zeta.
  generalize (N.lor (N.shiftl acc 8 mod 2 ^ 32) (byte_val b)). intros acc'.
  pose proof (N.div_mod (bits + 8) 5 ltac:(lia)) as Hd. pose proof (N.mod_lt (bits + 8) 5 ltac:(lia)) as Hm.
  destruct (quintets_ok (N.to_nat ((bits + 8) / 5)) acc' (bits + 8) out H1) as (Q1 & Q2 & Q3); [rewrite N2Nat.id; apply N.Div0.mul_div_le|].
  rewrite N2Nat.id in Q2, Q3. set (q := (bits + 8) / 5) in *. set (r := (bits + 8) mod 5) in *. clearbody q r.
  destruct (emit_quintets _ _ _ _) as [bits' out']. cbn [fst snd] in *. split_and!; cbn [fst snd]; [done|lia|lia].
Qed.
Lemma hash_bytes_ok l n st : hash_ok n st → hash_ok (n + len l) (foldl hash_byte st l).
Proof.
  revert n st. induction l as [|b l IH]; intros n st H; [by rewrite len_nil N.add_0_r|].
  cbn [foldl]. rewrite len_cons. replace (n + (1 + len l)) with (n + 1 + len l) by lia. by apply IH, hash_byte_ok.
Qed.
Lemma network_hash_ok {sha : Sha256} id : 16 ≤ len (sha256 (KAD_NETWORK_DOMAIN ++ id)) →
  len (network_hash id) = 26 ∧ forallb base32_lower (network_hash id) = true.
Proof.
  intros Hs. unfold network_hash. cbn zeta. set (digest := sha256 _) in *.
  assert (hash_ok 0 (0, 0, [])) as H0 by (split_and!; [done|done|cbn; lia]).
  pose proof (hash_bytes_ok (ntake 16 digest) 0 _ H0) as Hh. assert (len (ntake 16 digest) = 16) as Hl by (rewrite len_ntake; lia).
  rewrite Hl in Hh. destruct (foldl hash_byte (0, 0, []) (ntake 16 digest)) as [[acc bits] out]. destruct Hh as (H1 & H2 & H3).
  cbn [fst snd] in *. destruct (N.ltb_spec 0 bits) as [Hb|Hb]; [|lia].
  rewrite len_app len_cons len_nil forallb_app H1 /= base32_char_ok. split; [lia|done].
Qed.

(** ** The window *)

Section window.
Context {A : Type}.
(** How far the cursor is from position [i]. *)
Definition ahead (l : list A) (cursor i : N) : N := (i + len l - cursor mod len l) mod len l.
Lemma len_pos (l : list A) : l ≠ [] → 0 < len l.
Proof. intros Hl. destruct l; [done|]. rewrite len_cons. lia. Qed.
Lemma ahead_lt (l : list A) cursor i : l ≠ [] → ahead l cursor i < len l.
Proof. intros Hl. apply N.mod_lt. pose proof (len_pos l Hl). lia. Qed.
Lemma ahead_at (l : list A) cursor i : i < len l → (cursor mod len l + ahead l cursor i) mod len l = i.
Proof.
  intros Hi. unfold ahead. pose proof (N.mod_lt cursor (len l) ltac:(lia)). rewrite N.Div0.add_mod_idemp_r.
  replace (cursor mod len l + (i + len l - cursor mod len l)) with (i + 1 * len l) by lia.
  rewrite N.Div0.mod_add. by apply N.mod_small.
Qed.
Lemma rotate_reaches (l : list A) cursor max i x : l !! N.to_nat i = Some x → ahead l cursor i < max →
  x ∈ (rotate l cursor max).1.
Proof.
  intros Hx Ha. assert (l ≠ []) as Hl by by intros ->. pose proof (ahead_lt l cursor i Hl) as Hb.
  assert (i < len l) as Hi by (apply lookup_lt_Some in Hx; unfold len; lia).
  unfold rotate. rewrite bool_decide_false //. cbn [fst]. pose proof (ahead_at l cursor i Hi) as He.
  set (s := cursor mod len l) in *. set (a := ahead l cursor i) in *.
  pose proof (N.mod_lt cursor (len l) ltac:(lia)) as Hs. fold s in Hs.
  apply list_elem_of_lookup_2 with (i := N.to_nat a). unfold ntake, ndrop. rewrite lookup_take_lt; [|lia]. rewrite lookup_drop.
  destruct (decide (s + a < len l)) as [Hin|Hout].
  - rewrite lookup_app_l; [|unfold len in *; lia]. rewrite N.mod_small // in He. by replace (N.to_nat s + N.to_nat a)%nat with (N.to_nat i) by lia.
  - rewrite lookup_app_r; [|unfold len in *; lia]. assert (s + a - len l = i) as Hw.
    { rewrite -He. replace (s + a) with (s + a - len l + 1 * len l) at 2 by lia. rewrite N.Div0.mod_add N.mod_small; lia. }
    replace (N.to_nat s + N.to_nat a - length l)%nat with (N.to_nat i); [done|]. unfold len in *. lia.
Qed.
Lemma rotate_advances (l : list A) cursor max i : i < len l → max ≤ ahead l cursor i →
  ahead l (rotate l cursor max).2 i = ahead l cursor i - max.
Proof.
  intros Hi Ha. assert (l ≠ []) as Hl by (intros ->; rewrite len_nil in Hi; lia). pose proof (ahead_lt l cursor i Hl) as Hb.
  unfold rotate. rewrite bool_decide_false //. cbn [snd]. rewrite N.min_l; [|lia]. pose proof (ahead_at l cursor i Hi) as He.
  unfold ahead at 1. rewrite N.Div0.mod_mod. set (s := cursor mod len l) in *. set (a := ahead l cursor i) in *.
  pose proof (N.mod_lt cursor (len l) ltac:(lia)) as Hs. fold s in Hs.
  destruct (decide (s + max < len l)) as [Hm|Hm].
  - rewrite (N.mod_small (s + max)) //. destruct (decide (s + a < len l)) as [Hin|Hout].
    + rewrite N.mod_small // in He. replace (i + len l - (s + max)) with (a - max + 1 * len l) by lia.
      rewrite N.Div0.mod_add N.mod_small; lia.
    + assert (s + a - len l = i) as Hw.
      { rewrite -He. replace (s + a) with (s + a - len l + 1 * len l) at 2 by lia. rewrite N.Div0.mod_add N.mod_small; lia. }
      rewrite N.mod_small; lia.
  - assert ((s + max) mod len l = s + max - len l) as ->.
    { replace (s + max) with (s + max - len l + 1 * len l) at 1 by lia. rewrite N.Div0.mod_add N.mod_small; lia. }
    assert (s + a - len l = i) as Hw.
    { rewrite -He. replace (s + a) with (s + a - len l + 1 * len l) at 2 by lia. rewrite N.Div0.mod_add N.mod_small; lia. }
    replace (i + len l - (s + max - len l)) with (a - max + 1 * len l) by lia. rewrite N.Div0.mod_add N.mod_small; lia.
Qed.
End window.

(** ** What the book is offered *)

(** The offers made, the latest of a peer replacing the earlier. *)
Definition make_offers (now : N) (o : gmap TransportIdentity (list bytes * N)) (changed : list (TransportIdentity * list bytes)) :
    gmap TransportIdentity (list bytes * N) :=
  foldl (λ o pa, <[pa.1 := (pa.2, now)]> o) o changed.
Lemma offer_one_sub now o st c : st.1 ⊆ make_offers now o st.2 →
  (offer_one now st c).1 ⊆ make_offers now o (offer_one now st c).2.
Proof.
  destruct st as [learned changed]. intros H. unfold offer_one. cbn zeta. destruct (is_due_again _ _ _ _); [|done].
  unfold make_offers in *. cbn [fst snd] in *. rewrite foldl_app. cbn. by apply insert_mono.
Qed.
Lemma offers_sub now o cs st : st.1 ⊆ make_offers now o st.2 →
  (foldl (offer_one now) st cs).1 ⊆ make_offers now o (foldl (offer_one now) st cs).2.
Proof. revert st. induction cs as [|c cs IH]; intros st H; [done|]. cbn [foldl]. by apply IH, offer_one_sub. Qed.
Lemma offer_one_fresh now st c : ∃ at_,
  (offer_one now st c).1 !! ag_peer_id c = Some (AggregatedCandidate_address_list c, at_) ∧ now < at_ + RELEARN_INTERVAL_MS.
Proof.
  destruct st as [learned changed]. unfold offer_one. cbn zeta. destruct (is_due_again learned now _ _) eqn:E; cbn [fst].
  - exists now. rewrite lookup_insert_eq. unfold RELEARN_INTERVAL_MS. split; [done|lia].
  - unfold is_due_again in E. destruct (learned !! ag_peer_id c) as [[offered at_]|]; [|done].
    apply orb_false_iff in E as [E1%negb_false_iff%bool_decide_eq_true E2%N.leb_gt]. subst offered. exists at_. split; [done|].
    unfold sat_sub in E2. lia.
Qed.
Lemma offer_one_other now st c p : p ≠ ag_peer_id c → (offer_one now st c).1 !! p = st.1 !! p.
Proof.
  destruct st as [learned changed]. intros Hp. unfold offer_one. cbn zeta. destruct (is_due_again _ _ _ _); [|done].
  cbn [fst]. by rewrite lookup_insert_ne.
Qed.
Lemma offers_other now cs st p : p ∉ ag_peer_id <$> cs → (foldl (offer_one now) st cs).1 !! p = st.1 !! p.
Proof.
  revert st. induction cs as [|c cs IH]; intros st Hp; [done|]. cbn [foldl]. rewrite fmap_cons in Hp.
  apply not_elem_of_cons in Hp as [Hc Hp]. rewrite IH //. by apply offer_one_other.
Qed.
Lemma offers_fresh now cs st c : NoDup (ag_peer_id <$> cs) → c ∈ cs → ∃ at_,
  (foldl (offer_one now) st cs).1 !! ag_peer_id c = Some (AggregatedCandidate_address_list c, at_) ∧ now < at_ + RELEARN_INTERVAL_MS.
Proof.
  revert st. induction cs as [|x cs IH]; intros st Hn Hc; [by apply not_elem_of_nil in Hc|]. rewrite fmap_cons in Hn.
  apply NoDup_cons in Hn as [Hx Hn]. cbn [foldl]. apply elem_of_cons in Hc as [->|Hc]; [|by apply IH].
  rewrite offers_other //. apply offer_one_fresh.
Qed.
Lemma candidates_peers m now : NoDup (ag_peer_id <$> DiscoveryManager_candidates m now).
Proof.
  unfold DiscoveryManager_candidates, CandidateSet_candidates.
  eapply sublist_NoDup; [apply (NoDup_btree_keys (cs_peers (dm_candidates m)))|].
  induction (btree_to_list (cs_peers (dm_candidates m))) as [|[p e] l IH]; [done|]. cbn [omap list_omap].
  destruct (aggregate now (DiscoveryManager_provider_priority m) (p, e)) as [c|] eqn:E; cbn [fmap list_fmap].
  - assert (ag_peer_id c = p) as ->; [|by apply sublist_skip].
    revert E. unfold aggregate. cbn. repeat case_match; try done; by intros [= <-].
  - by apply sublist_cons.
Qed.

(** ** The providers stay lawful *)

Definition slot_ok {P} {DP : DiscoveryProvider P} (C : ProviderContract P) (names : gset bytes) (slot : option P) : Prop :=
  ∀ p, slot = Some p → provider_ok p ∧ pd_name (provider_descriptor (P := P)) ∈ names.
Lemma slot_map {P} {DP : DiscoveryProvider P} (C : ProviderContract P) names (f : P → P) slot :
  (∀ p, provider_ok p → provider_ok (f p)) → slot_ok C names slot → slot_ok C names (f <$> slot).
Proof. intros Hf Hs p' (p & -> & ->)%fmap_Some. destruct (Hs p eq_refl). split; [by apply Hf|done]. Qed.

Lemma register_spec {P} {DP : DiscoveryProvider P} (C : ProviderContract P) m p priority now m' p' : provider_ok p →
  register m p priority now = Ok (m', p') →
  slot_ok C (dom (dm_providers m')) (Some p') ∧ dom (dm_providers m) ⊆ dom (dm_providers m').
Proof.
  intros Hp. unfold register, DiscoveryManager_register. rewrite descriptor_fixed descriptor_valid.
  destruct (bool_decide _ && _); [done|]. cbn. pose proof (start_ok p now Hp) as Hs. destruct (start p now) as [[[]|e] p1]; [|done].
  cbn in *. intros [= <- <-]. cbn. rewrite dom_insert_L. split; [|set_solver]. intros ? [= <-]. split; [done|set_solver].
Qed.
Lemma slot_grows {P} {DP : DiscoveryProvider P} (C : ProviderContract P) names names' slot :
  names ⊆ names' → slot_ok C names slot → slot_ok C names' slot.
Proof. intros Hn Hs p Hp. destruct (Hs p Hp). set_solver. Qed.

Definition all_ok (answers : list (result () RejectedEvent)) : Prop := Forall (λ a, a = Ok ()) answers.
Lemma pump_slot_ok {P} {DP : DiscoveryProvider P} (C : ProviderContract P) d now slot answers seeds m slot' answers' seeds' m' :
  slot_ok C (dom (dm_providers m)) slot → all_ok answers →
  pump_slot d now slot (answers, seeds, m) = (slot', (answers', seeds', m')) →
  slot_ok C (dom (dm_providers m)) slot' ∧ all_ok answers' ∧ dom (dm_providers m') = dom (dm_providers m).
Proof.
  intros Hs Ha. unfold pump_slot. destruct slot as [p|]; [|by intros [= <- <- <- <-]]. destruct (Hs p eq_refl) as [Hp Hn].
  destruct (pump_provider p m now (ds_trust d)) as [[[events answered] p1] m1] eqn:E.
  apply pump_provider_spec in E as (H1 & _ & _ & H2 & H3); [|done|by apply elem_of_dom].
  intros [= <- <- _ <-]. split_and!; [intros ? [= <-]; done|by apply Forall_app|done].
Qed.

(** *** Kademlia, past the trait *)

Lemma settle_mem k h class now ok progress : kad_mem k → kad_mem (Kademlia_settle k h class now ok progress).2.
Proof.
  intros Hk. eapply kad_mem_ext; [exact Hk|..]; unfold Kademlia_settle; destruct (QueryBudgets_finish _ _ _) as [[] b]; cbn [negb]; try done;
    destruct class; try done; destruct (kd_exploration_snapshot _); try done; cbn [snd]; destruct progress; try done; by destruct (_ && _).
Qed.
Lemma ingest_mem k e now : now ≤ u64_max → kad_mem k → kad_mem (Kademlia_ingest_driver_event k e now).
Proof.
  intros Hn Hk. unfold Kademlia_ingest_driver_event. destruct (negb _ || _); [done|].
  assert (kad_mem (kd_tick_clock k now)) as H1 by by destruct Hk. set (k1 := kd_tick_clock k now) in *.
  destruct e as [h class origin|h cs class|p|p|h class reason].
  - destruct (is_implicit h); [|done]. destruct (_ <=? _); [by destruct H1|].
    destruct (QueryBudgets_charge_unscheduled _ _) as [permit b]. by destruct H1.
  - pose proof (settle_mem k1 h class now true (existsb (candidate_progress k1) (ObservedCandidates_as_slice cs)) H1) as H2.
    destruct (Kademlia_settle _ _ _ _ _ _) as [held k2]. cbn [snd] in H2. destruct (negb held); [done|].
    apply tracks_mem; [done|]. by destruct H2.
  - by destruct H1.
  - case_bool_decide; by destruct H1.
  - pose proof (settle_mem k1 h class now false false H1) as H2.
    destruct (Kademlia_settle _ _ _ _ _ _) as [held k2]. cbn [snd] in H2. destruct (negb held); [done|]. destruct reason; by destruct H2.
Qed.
Lemma start_query_mem k permit class key : kad_mem k → kad_mem (start_query k permit class key).
Proof.
  intros Hk. unfold start_query. destruct (Kademlia_mint_handle k) as [h k1] eqn:E.
  assert (kad_mem k1) as H1 by (injection E as _ <-; by destruct Hk).
  pose proof (queue_command_mem k1 (StartQuery h class key) H1) as H2. by destruct H2.
Qed.
Lemma tick_mem dec k now entropy : kad_mem k → kad_mem (Kademlia_tick dec k now entropy).2.
Proof.
  intros Hk. unfold Kademlia_tick. destruct (negb _ || _); [done|].
  assert (kad_mem (kd_tick_clock k now)) as H1 by by destruct Hk. set (k1 := kd_tick_clock k now) in *.
  case_bool_decide; [done|]. destruct (_ || _); [done|]. case_bool_decide; [done|]. destruct (negb _); [done|].
  destruct (QueryBudgets_acquire _ _) as [[permit|] b]; [|by destruct H1].
  assert (∀ k, kad_mem k → kad_mem (kd_set_exploration_snapshot k (Some (kd_admissions k)))) as Hs by by intros ? [].
  apply Hs, start_query_mem. by destruct H1.
Qed.
Lemma bootstrap_mem k now : kad_mem k → kad_mem (Kademlia_request_bootstrap k now).2.
Proof.
  intros Hk. unfold Kademlia_request_bootstrap. destruct (negb _ || _); [done|].
  assert (kad_mem (kd_tick_clock k now)) as H1 by by destruct Hk. set (k1 := kd_tick_clock k now) in *.
  destruct (kd_local_key k1); [|done]. destruct (negb _); [done|].
  destruct (QueryBudgets_acquire _ _) as [[permit|] b]; [|by destruct H1]. cbn [snd].
  assert (∀ k x, kad_mem k → kad_mem (kd_set_pacing k x)) as Hs by by intros ? ? [].
  apply Hs, start_query_mem. by destruct H1.
Qed.
