(* ===== verification/CompositionClaims.v ===== *)
(** * Discovery composed, over its histories

    No provider's report is refused, the address book is offered what is current,
    every eligible peer is asked within a full turn, the driver and the provider
    name the same network; and what a failed mDNS interface leaves. *)
From S2P Require Import Prelude Ids Trust DiscoveryApi Discovery DiscoveryFacts DiscoveryHistory Provider ProviderQueue StaticProvider PeerCache PeerCacheFacts CacheProvider CacheView Mdns MdnsFacts MdnsView KademliaApi Kademlia KademliaFacts KademliaView Fingerprint Composition CompositionFacts.
Local Open Scope N_scope.

(** ** Histories *)

Inductive ds_op :=
| DsPump (now : N)
| DsCommands (now : N) (entropy : bytes)
| DsSwarm (event : SwarmEvent) (now : N)
| DsChanged (now : N)
| DsReconnect (now : N) (connected : TransportIdentity → bool)
| DsTrust (trust : PeerTrustPolicy)
| DsFlush (io : WriteIo) (path temp : bytes) (now : N)
| DsShutdown (io : WriteIo) (path temp : bytes) (now : N).
Definition ds_time (op : ds_op) : N :=
  match op with
  | DsPump now | DsCommands now _ | DsSwarm _ now | DsChanged now | DsReconnect now _ | DsFlush _ _ _ now
  | DsShutdown _ _ _ now => now
  | DsTrust _ => 0
  end.
(** The composition, its files, and what it told its surroundings: the answers of
    the coordinator to the pump, the offer each peer's addresses stand at in the
    book (a peer that becomes allowed has none: the book took nothing of it
    before), and the peers asked to reconnect. *)
Record ds_world := MkDsWorld {
  dw_discovery : Discovery;
  dw_fs : gmap bytes bytes;
  dw_answers : list (result () RejectedEvent);
  dw_offers : gmap TransportIdentity (list bytes * N);
  dw_asked : list TransportIdentity
}.
(** A policy change that admits [p] anew. *)
Definition newly_allowed (old new : PeerTrustPolicy) (p : TransportIdentity) : Prop :=
  PeerTrustPolicy_decide old p ≠ Allowed ∧ PeerTrustPolicy_decide new p = Allowed.
#[global] Instance newly_allowed_dec old new p : Decision (newly_allowed old new p).
Proof. apply _. Defined.

Section history.
Variable dec : N → bytes → option bytes.
Variable to_vec : CacheFile → result bytes SerdeError.

Definition ds_step (w : ds_world) (op : ds_op) : ds_world :=
  let d := dw_discovery w in
  match op with
  | DsPump now =>
      let '(answers, d) := Discovery_pump dec d now in
      MkDsWorld d (dw_fs w) (dw_answers w ++ answers) (dw_offers w) (dw_asked w)
  | DsCommands now entropy =>
      MkDsWorld (Discovery_kademlia_commands dec d now entropy).2 (dw_fs w) (dw_answers w) (dw_offers w) (dw_asked w)
  | DsSwarm event now =>
      MkDsWorld (Discovery_on_swarm_event dec d event now).2 (dw_fs w) (dw_answers w) (dw_offers w) (dw_asked w)
  | DsChanged now =>
      let '(changed, d) := Discovery_changed_candidates d now in
      MkDsWorld d (dw_fs w) (dw_answers w) (make_offers now (dw_offers w) changed) (dw_asked w)
  | DsReconnect now connected =>
      let '(window, d) := Discovery_reconnect_targets d now connected in
      MkDsWorld d (dw_fs w) (dw_answers w) (dw_offers w) (dw_asked w ++ window)
  | DsTrust trust =>
      MkDsWorld (Discovery_set_trust d trust) (dw_fs w) (dw_answers w)
        (filter (λ po, ¬ newly_allowed (ds_trust d) trust po.1) (dw_offers w)) (dw_asked w)
  | DsFlush io path temp now =>
      let '(d, fs) := Discovery_flush to_vec d io path temp now (dw_fs w) in
      MkDsWorld d fs (dw_answers w) (dw_offers w) (dw_asked w)
  | DsShutdown io path temp now =>
      let '(d, fs) := Discovery_shutdown to_vec d io path temp now (dw_fs w) in
      MkDsWorld d fs (dw_answers w) (dw_offers w) (dw_asked w)
  end.

(** ** What every operation keeps *)

Record ds_ok (d : Discovery) : Prop := MkDsOk {
  dk_statics : slot_ok Static_contract (dom (dm_providers (ds_manager d))) (ds_statics d);
  dk_cache : slot_ok (CacheProvider_contract dec) (dom (dm_providers (ds_manager d))) (ds_cache d);
  dk_mdns : slot_ok Mdns_contract (dom (dm_providers (ds_manager d))) (ds_mdns d);
  dk_kademlia : slot_ok (Kademlia_contract dec) (dom (dm_providers (ds_manager d))) (ds_kademlia d)
}.
Lemma hints_mem seeds k now : kad_mem k → kad_mem (foldl (λ k c, (Kademlia_add_hint k (CandidateHint c) now).2) k seeds).
Proof. revert k. induction seeds as [|c seeds IH]; intros k Hk; [done|]. cbn [foldl]. by apply IH, hint_inv. Qed.
Lemma pump_ok d now : ds_ok d → all_ok (Discovery_pump dec d now).1 ∧ ds_ok (Discovery_pump dec d now).2.
Proof.
  intros [H1 H2 H3 H4]. unfold Discovery_pump.
  destruct (pump_slot d now (ds_statics d) ([], [], ds_manager d)) as [s [[a1 s1] m1]] eqn:E1.
  apply (pump_slot_ok Static_contract) in E1 as (S1 & A1 & D1); [|done|by constructor].
  destruct (pump_slot d now (ds_cache d) (a1, s1, m1)) as [c [[a2 s2] m2]] eqn:E2.
  apply (pump_slot_ok (CacheProvider_contract dec)) in E2 as (S2 & A2 & D2); [|by rewrite D1|done].
  destruct (pump_slot d now (ds_mdns d) (a2, s2, m2)) as [m [[a3 s3] m3]] eqn:E3.
  apply (pump_slot_ok Mdns_contract) in E3 as (S3 & A3 & D3); [|by rewrite D2 D1|done].
  destruct (pump_slot d now (ds_kademlia d) (a3, s3, m3)) as [k [[a4 s4] m4]] eqn:E4.
  apply (pump_slot_ok (Kademlia_contract dec)) in E4 as (S4 & A4 & D4); [|by rewrite D3 D2 D1|done].
  split; [done|]. constructor; cbn; rewrite D4 D3 D2 D1; [done|by rewrite -D1|by rewrite -D1 -D2|].
  apply (slot_map (Kademlia_contract dec)); [intros p; apply hints_mem|by rewrite -D1 -D2 -D3].
Qed.
Lemma commands_ok d now entropy : ds_ok d → ds_ok (Discovery_kademlia_commands dec d now entropy).2.
Proof.
  intros [H1 H2 H3 H4]. unfold Discovery_kademlia_commands. destruct (ds_kademlia d) as [k|] eqn:Ek; [|by constructor; rewrite ?Ek].
  destruct (H4 k eq_refl) as [Hk Hn]. cbn in Hk. 
  set (boot := (if rv_routing_peers (Kademlia_routing_view k) =? 0 then (false, k) else _)).
  assert (kad_mem boot.2) as Hb.
  { subst boot. destruct (_ =? 0); [done|]. destruct (_ || _); [|done]. pose proof (bootstrap_mem k now Hk) as Hm.
    by destruct (Kademlia_request_bootstrap k now). }
  destruct boot as [b k1]. cbn [snd] in Hb. pose proof (tick_mem dec k1 now entropy Hb) as Ht.
  destruct (Kademlia_tick dec k1 now entropy) as [r k2]. cbn [snd] in Ht. destruct (commands_inv k2 usize_max Ht) as [Hc _].
  destruct (Kademlia_drain_commands k2 usize_max) as [cs k3]. cbn [snd] in Hc |- *. constructor; try done. by intros ? [= <-].
Qed.
Lemma mdns_op_keeps op m : mdns_op_ok op = true → mdns_ok m → ∃ told, mdns_ok (mdns_step dec (m, told) op).1.
Proof.
  intros Hop [(told & Ht & Hm) H0]. destruct (mdns_step_inv dec (m, told) op Hop) as (I1 & I2 & I3); [done|].
  exists told. split; [by exists (mdns_step dec (m, told) op).2|done].
Qed.
Lemma discovered_ok m peer a now : now < u64_max → mdns_ok m → mdns_ok (Mdns_push_discovered dec m peer a now).2.
Proof. intros Hn Hm. destruct (mdns_op_keeps (MdDiscovered peer a now) m) as [told H]; [by apply N.ltb_lt|done|done]. Qed.
Lemma expired_ok m peer a now : mdns_ok m → mdns_ok (Mdns_push_expired dec m peer a now).2.
Proof. intros Hm. by destruct (mdns_op_keeps (MdExpired peer a now) m) as [told H]. Qed.
Lemma backend_down_ok m now : mdns_ok m → mdns_ok (Mdns_report_backend_down m now).
Proof. intros Hm. by destruct (mdns_op_keeps (MdBackendDown now) m) as [told H]. Qed.
Lemma foldl_ok {A B} (Q : A → Prop) (f : A → B → A) l a : (∀ a b, Q a → Q (f a b)) → Q a → Q (foldl f a l).
Proof. intros Hf. revert a. induction l as [|b l IH]; intros a Ha; [done|]. cbn. by apply IH, Hf. Qed.
Lemma swarm_ok d event now : now < u64_max → ds_ok d → ds_ok (Discovery_on_swarm_event dec d event now).2.
Proof.
  intros Hn [H1 H2 H3 H4]. destruct event as [e|cs|ex|p a|p id sup| | | | |]; cbn [Discovery_on_swarm_event snd]; try by constructor.
  - constructor; try done. cbn. apply (slot_map (Kademlia_contract dec)); [|done]. intros k. apply ingest_mem. lia.
  - constructor; try done. cbn. apply (slot_map Mdns_contract); [|done]. intros m. apply foldl_ok. intros m' c. apply foldl_ok.
    intros m'' a. by apply discovered_ok.
  - constructor; try done. cbn. apply (slot_map Mdns_contract); [|done]. intros m. apply foldl_ok. intros m' pa. apply expired_ok.
  - constructor; try done. cbn. apply (slot_map (CacheProvider_contract dec)); [|done]. intros c Hc.
    apply (hint_ok (ProviderContract := CacheProvider_contract dec) c); [lia|done].
  - destruct (ds_cache d) as [c|] eqn:Ec; [|by constructor; rewrite ?Ec]. destruct (ProtocolId_parse id) as [pid|]; [|by constructor; rewrite ?Ec].
    constructor; try done. cbn. intros ? [= <-]. destruct (H2 c eq_refl) as [Hc Hm]. split; [|done].
    apply (hint_ok (ProviderContract := CacheProvider_contract dec) c); [lia|done].
  - constructor; try done. cbn. apply (slot_map Mdns_contract); [|done]. intros m. apply backend_down_ok.
  - constructor; try done. cbn. apply (slot_map Mdns_contract); [|done]. intros m. apply backend_down_ok.
  - constructor; try done. cbn. apply (slot_map Mdns_contract); [|done]. intros m. apply backend_down_ok.
  - constructor; try done. cbn. apply (slot_map Mdns_contract); [|done]. intros m. apply backend_down_ok.
Qed.
Lemma trust_ok d trust : ds_ok d → ds_ok (Discovery_set_trust d trust).
Proof.
  intros [H1 H2 H3 H4]. constructor; try done. cbn. apply (slot_map (Kademlia_contract dec)); [|done]. intros k Hk. by apply trust_inv.
Qed.
Lemma changed_ok d now : ds_ok d → ds_ok (Discovery_changed_candidates d now).2.
Proof.
  intros [H1 H2 H3 H4]. unfold Discovery_changed_candidates. cbn zeta. destruct (foldl (offer_one now) _ _) as [learned changed]. by constructor.
Qed.
Lemma reconnect_ok d now connected : ds_ok d → ds_ok (Discovery_reconnect_targets d now connected).2.
Proof. intros [H1 H2 H3 H4]. unfold Discovery_reconnect_targets. destruct (rotate _ _ _). by constructor. Qed.
Lemma flushed_ok c p before : pca_peers c = pca_peers (pcd_cache p) → pca_limits c = pca_limits (pcd_cache p) →
  cache_provider_ok p → cache_provider_ok (report_health_change (with_cache p c) before).
Proof.
  intros E1 E2 [([C1 C2 C3] & L & T) Hp].
  assert (cache_provider_ok (with_cache p c)) as [G1 G2].
  { split; [split_and!|done]; cbn; [constructor; rewrite ?E1 ?E2 //|by rewrite E2|unfold times_ok; by rewrite E1]. }
  destruct (report_cases (with_cache p c) before) as [->|(_ & h & ->)]; [done|]. split; [done|]. cbn.
  apply Forall_app. split; [done|by apply Forall_singleton].
Qed.
Lemma flush_ok p io path temp now fs out p' fs' : cache_provider_ok p →
  CacheProvider_flush to_vec p io path temp now fs = (out, p', fs') → cache_provider_ok p'.
Proof.
  intros Hp. unfold CacheProvider_flush. destruct (PeerCache_flush to_vec (pcd_cache p) io path temp now fs) as [[o c] f] eqn:E.
  apply flush_peers in E as [E1 E2]. intros [= _ <- _]. by apply flushed_ok.
Qed.
Lemma flush_if_due_ok p io path temp now fs out p' fs' : cache_provider_ok p →
  CacheProvider_flush_if_due to_vec p io path temp now fs = (out, p', fs') → cache_provider_ok p'.
Proof.
  intros Hp. unfold CacheProvider_flush_if_due, PeerCache_flush_if_due. destruct (negb _); [intros [= _ <- _]; by apply flushed_ok|].
  destruct (PeerCache_flush to_vec (pcd_cache p) io path temp now fs) as [[o c] f] eqn:E.
  apply flush_peers in E as [E1 E2]. intros [= _ <- _]. by apply flushed_ok.
Qed.
Lemma ds_flush_ok d io path temp now fs : ds_ok d → ds_ok (Discovery_flush to_vec d io path temp now fs).1.
Proof.
  intros [H1 H2 H3 H4]. unfold Discovery_flush. destruct (ds_cache d) as [c|] eqn:Ec; [|by constructor; rewrite ?Ec].
  destruct (H2 c eq_refl) as [Hc Hm]. destruct (CacheProvider_flush_if_due to_vec c io path temp now fs) as [[o c'] f] eqn:E.
  apply flush_if_due_ok in E; [|done]. constructor; try done. by intros ? [= <-].
Qed.
Lemma ds_shutdown_ok d io path temp now fs : ds_ok d → ds_ok (Discovery_shutdown to_vec d io path temp now fs).1.
Proof.
  intros [H1 H2 H3 H4]. unfold Discovery_shutdown.
  assert (∀ cache, slot_ok (CacheProvider_contract dec) (dom (dm_providers (ds_manager d))) cache →
    ds_ok (ds_set_providers d ((λ p, Static_shutdown p now) <$> ds_statics d) ((λ p, CacheProvider_shutdown p now) <$> cache)
             ((λ p, Mdns_shutdown p now) <$> ds_mdns d) ((λ p, Kademlia_shutdown p now) <$> ds_kademlia d))) as H.
  { intros cache Hc. constructor; cbn.
    - apply (slot_map Static_contract); [|done]. intros p. apply (shutdown_ok (ProviderContract := Static_contract)).
    - apply (slot_map (CacheProvider_contract dec)); [|done]. intros p. apply (shutdown_ok (ProviderContract := CacheProvider_contract dec)).
    - apply (slot_map Mdns_contract); [|done]. intros p. apply (shutdown_ok (ProviderContract := Mdns_contract)).
    - apply (slot_map (Kademlia_contract dec)); [|done]. intros p. apply (shutdown_ok (ProviderContract := Kademlia_contract dec)). }
  destruct (ds_cache d) as [c|] eqn:Ec; [|by apply (H None)]. destruct (H2 c eq_refl) as [Hc Hm].
  destruct (CacheProvider_flush to_vec c io path temp now fs) as [[o c'] f] eqn:E. apply flush_ok in E; [|done].
  apply (H (Some c')). by intros ? [= <-].
Qed.
Lemma ds_step_ok w op : ds_time op < u64_max → ds_ok (dw_discovery w) → all_ok (dw_answers w) →
  ds_ok (dw_discovery (ds_step w op)) ∧ all_ok (dw_answers (ds_step w op)).
Proof.
  intros Ht Hd Ha. destruct w as [d fs answers offers asked]. cbn in Hd, Ha.
  destruct op as [now|now entropy|event now|now|now connected|trust|io path temp now|io path temp now]; cbn in Ht |- *.
  - destruct (pump_ok d now Hd) as [H1 H2]. destruct (Discovery_pump dec d now) as [a d']. split; [done|by apply Forall_app].
  - split; [by apply commands_ok|done].
  - split; [by apply swarm_ok|done].
  - pose proof (changed_ok d now Hd). by destruct (Discovery_changed_candidates d now).
  - pose proof (reconnect_ok d now connected Hd). by destruct (Discovery_reconnect_targets d now connected).
  - split; [by apply trust_ok|done].
  - pose proof (ds_flush_ok d io path temp now fs Hd). by destruct (Discovery_flush to_vec d io path temp now fs).
  - pose proof (ds_shutdown_ok d io path temp now fs Hd). by destruct (Discovery_shutdown to_vec d io path temp now fs).
Qed.
Lemma ds_run_ok ops w : Forall (λ op, ds_time op < u64_max) ops → ds_ok (dw_discovery w) → all_ok (dw_answers w) →
  ds_ok (dw_discovery (foldl ds_step w ops)) ∧ all_ok (dw_answers (foldl ds_step w ops)).
Proof.
  intros Ho. revert w. induction Ho as [|op ops H Ho IH]; intros w Hd Ha; [done|]. cbn [foldl].
  destruct (ds_step_ok w op H Hd Ha). by apply IH.
Qed.

(** ** A new composition *)

Variable from_str : bytes → result CacheFile SerdeError.
Context {sha : Sha256}.
(** The parts of a plan as their constructors make them. *)
Definition plan_ok (plan : DiscoveryPlan) : Prop :=
  (∀ entries priority, dp_static_bootstrap plan = Some (entries, priority) →
     Forall (λ e, StaticEntry_new (se_peer_id e) (se_address e) = Ok e) entries) ∧
  (∀ limits priority, dp_peer_cache plan = Some (limits, priority) → CacheLimitsBuilder_build limits = Ok limits).
(** The decoder reads 64-bit times. *)
Definition decoder_u64 : Prop :=
  ∀ text file, from_str text = Ok file → Forall (λ r, pr_last_success_ms r ≤ u64_max) (cf_peers file).
Lemma load_times io limits c : decoder_u64 → PeerCache_load dec from_str io limits = Ok c → times_ok c.
Proof.
  intros Hj. assert (∀ l h, times_ok (MkPeerCache l ∅ h false None)) as H0 by by intros l h k r [=].
  assert (∀ reason, PeerCache_quarantine io (MkPeerCache limits ∅ CacheHealthy false None) reason = Ok c → times_ok c) as Hq.
  { intros reason. unfold PeerCache_quarantine. simpl. repeat case_match; intros; simplify_eq; apply H0. }
  unfold PeerCache_load. destruct (li_metadata io) as [size|[]]; [|intros [= <-]; apply H0|apply Hq].
  destruct (_ <? _); [apply Hq|]. destruct (read_capped _ _) as [[text|]|]; [|intros [= <-]; apply H0|apply Hq].
  destruct (admit_file dec from_str limits text) as [m|] eqn:E; [|apply Hq]. intros [= <-]. revert E. unfold admit_file.
  destruct (from_str text) as [file|] eqn:Ef; [|done]. destruct (_ =? _); [|done]. destruct (_ <? _); [done|].
  intros ([] & _ & [= <-])%result_bind_Ok. intros k r [[Hr _]|Hr]%loads_lookup; [|done].
  specialize (Hj text file Ef). rewrite -> Forall_forall in Hj. by apply Hj.
Qed.
Lemma new_statics_ok plan m now m' s : plan_ok plan → new_statics plan m now = Ok (m', s) →
  slot_ok Static_contract (dom (dm_providers m')) s ∧ dom (dm_providers m) ⊆ dom (dm_providers m').
Proof.
  intros [Hp _]. unfold new_statics. destruct (dp_static_bootstrap plan) as [[entries priority]|] eqn:E; [|by intros [= <- <-]].
  intros (p & Hn%map_err_Ok & H)%result_bind_Ok. apply result_bind_Ok in H as ([m1 p1] & Hr & [= <- <-]).
  apply (register_spec Static_contract) in Hr; [done|]. revert Hn. unfold Static_new. intros (told & Hg & [= <-])%result_bind_Ok.
  destruct (group_ok entries told Hg) as (_ & _ & Ht). split_and!; cbn; try done.
  apply Ht. eapply Forall_impl; [by eapply Hp|]. intros e. apply entry_new_ok.
Qed.
Lemma new_cache_ok plan file m now m' s : plan_ok plan → decoder_u64 → new_cache dec from_str plan file m now = Ok (m', s) →
  slot_ok (CacheProvider_contract dec) (dom (dm_providers m')) s ∧ dom (dm_providers m) ⊆ dom (dm_providers m').
Proof.
  intros [_ Hp] Hj. unfold new_cache. destruct (dp_peer_cache plan) as [[limits priority]|] eqn:E; [|by intros [= <- <-]].
  intros (io & _ & H)%result_bind_Ok. apply result_bind_Ok in H as (c & Hl%map_err_Ok & H).
  apply result_bind_Ok in H as ([m1 p1] & Hr & [= <- <-]). apply (register_spec (CacheProvider_contract dec)) in Hr; [done|].
  destruct (build_limits _ _ (Hp limits priority eq_refl)) as [_ Hlim]. pose proof (load_times _ _ _ Hj Hl) as Ht.
  apply load_good in Hl as (Hc & El & _). split; [split_and!; cbn; [done|by rewrite El|done]|by constructor].
Qed.
Lemma new_mdns_ok plan m now m' s : new_mdns plan m now = Ok (m', s) →
  slot_ok Mdns_contract (dom (dm_providers m')) s ∧ dom (dm_providers m) ⊆ dom (dm_providers m').
Proof.
  unfold new_mdns. destruct (dp_mdns plan) as [priority|] eqn:E; [|by intros [= <- <-]].
  intros ([m1 p1] & Hr & [= <- <-])%result_bind_Ok. apply (register_spec Mdns_contract) in Hr; [done|].
  split; [|done]. exists ∅. split; [|apply mdns_new_inv]. intros q. by rewrite lookup_empty held_as_empty.
Qed.
Lemma new_kademlia_ok plan trusted local m now m' s : new_kademlia dec plan trusted local m now = Ok (m', s) →
  slot_ok (Kademlia_contract dec) (dom (dm_providers m')) s ∧ dom (dm_providers m) ⊆ dom (dm_providers m').
Proof.
  unfold new_kademlia. destruct (dp_kademlia plan) as [[k priority]|] eqn:E; [|by intros [= <- <-]].
  intros (p & Hn%map_err_Ok & H)%result_bind_Ok. apply result_bind_Ok in H as ([m1 p1] & Hr & [= <- <-]).
  destruct (kad_new_facts dec _ _ _ Hn) as (_ & Hi & _).
  apply (register_spec (Kademlia_contract dec)) in Hr as [Hs Hd]; [|exact (ki_mem _ _ _ _ Hi)]. split; [|done].
  destruct (Hs p1 eq_refl) as [Hp Hm]. intros ? [= <-]. split; [by apply trust_inv|done].
Qed.
Lemma ds_new_ok plan file trust trusted local now d : plan_ok plan → decoder_u64 →
  Discovery_new dec from_str plan file trust trusted local now = Ok d → ds_ok d.
Proof.
  intros Hp Hj. unfold Discovery_new. intros ([m1 s] & E1 & H)%result_bind_Ok. apply result_bind_Ok in H as ([m2 c] & E2 & H).
  apply result_bind_Ok in H as ([m3 mm] & E3 & H). apply result_bind_Ok in H as ([m4 k] & E4 & [= <-]).
  apply new_statics_ok in E1 as [S1 _]; [|done]. apply new_cache_ok in E2 as [S2 D2]; [|done|done].
  apply new_mdns_ok in E3 as [S3 D3]. apply new_kademlia_ok in E4 as [S4 D4].
  constructor; cbn; [eapply slot_grows; [|done]; set_solver|eapply slot_grows; [|done]; set_solver|by eapply slot_grows|done].
Qed.

(** C22: the pump loses nothing. However the four providers, the coordinator and the
    substrate are driven, in whatever order and at whatever times but the last
    instant of a 64-bit clock, the coordinator
    accepts every event a provider reports: the answers the pump discards are all
    acceptances, and every configured provider stays registered under its own name. *)
Theorem pump_refuses_nothing (plan : DiscoveryPlan) (file : option LoadIo) (trust : PeerTrustPolicy)
    (trusted : gset TransportIdentity) (local : TransportIdentity) (now : N) (d : Discovery) (fs : gmap bytes bytes)
    (ops : list ds_op) (w : ds_world) :
  plan_ok plan → decoder_u64 → Discovery_new dec from_str plan file trust trusted local now = Ok d →
  Forall (λ op, ds_time op < u64_max) ops → foldl ds_step (MkDsWorld d fs [] ∅ []) ops = w →
  Forall (λ a, a = Ok ()) (dw_answers w) ∧
  ∀ name, name ∈ provider_names (dw_discovery w) → name ∈ dom (dm_providers (ds_manager (dw_discovery w))).
Proof.
  intros Hp Hj Hn Ht <-. destruct (ds_run_ok ops (MkDsWorld d fs [] ∅ []) Ht) as [Hd Ha]; [by eapply ds_new_ok|by constructor|].
  split; [done|]. destruct Hd as [H1 H2 H3 H4]. unfold provider_names. intros name Hname.
  apply list_elem_of_omap in Hname as (x & Hx & Hid). cbn in Hid. subst x. rewrite !elem_of_cons elem_of_nil in Hx.
  destruct Hx as [Hx|[Hx|[Hx|[Hx|[]]]]]; symmetry in Hx; apply fmap_Some in Hx as (p & Hp' & ->);
    [by destruct (H1 p Hp')|by destruct (H2 p Hp')|by destruct (H3 p Hp')|by destruct (H4 p Hp')].
Qed.

(** ** The address book *)

(** The record holds only standing offers. *)
Definition offers_inv (w : ds_world) : Prop := ds_learned (dw_discovery w) ⊆ dw_offers w.
Lemma changed_spec d now o : ds_learned d ⊆ o →
  let '(changed, d') := Discovery_changed_candidates d now in
  ds_learned d' ⊆ make_offers now o changed ∧
  (∀ c, c ∈ DiscoveryManager_candidates (ds_manager d') now → ∃ at_,
     ds_learned d' !! ag_peer_id c = Some (AggregatedCandidate_address_list c, at_) ∧ now < at_ + RELEARN_INTERVAL_MS) ∧
  dom (ds_learned d') = list_to_set (ag_peer_id <$> DiscoveryManager_candidates (ds_manager d') now).
Proof.
  intros Ho. unfold Discovery_changed_candidates. cbn zeta. set (m := DiscoveryManager_sweep (ds_manager d) now).
  set (cs := DiscoveryManager_candidates m now). set (kept := filter _ (ds_learned d)).
  pose proof (offers_sub now o cs (kept, [])) as Hs. pose proof (λ c, offers_fresh now cs (kept, []) c (candidates_peers m now)) as Hf.
  pose proof (offers_other now cs (kept, [])) as Hx. destruct (foldl (offer_one now) (kept, []) cs) as [learned changed].
  cbn [fst snd ds_learned ds_set_learned ds_manager ds_set_manager] in *. split_and!; [|done|].
  - apply Hs. etrans; [apply map_filter_subseteq|done].
  - apply set_eq. intros p. rewrite elem_of_list_to_set elem_of_dom. destruct (decide (p ∈ ag_peer_id <$> cs)) as [Hp|Hp].
    + split; [done|]. intros _. apply list_elem_of_fmap in Hp as (c & -> & Hc). destruct (Hf c Hc) as (at_ & -> & _). done.
    + rewrite (Hx p Hp). split; [|done]. intros [x [_ Hin]%map_lookup_filter_Some]. cbn in Hin. by apply elem_of_list_to_set in Hin.
Qed.
Lemma commands_learned d now entropy : ds_learned (Discovery_kademlia_commands dec d now entropy).2 = ds_learned d.
Proof.
  unfold Discovery_kademlia_commands. destruct (ds_kademlia d) as [k|]; [|done].
  destruct (if _ =? 0 then _ else _) as [b k1]. destruct (Kademlia_tick dec k1 now entropy) as [r k2]. by destruct (Kademlia_drain_commands k2 usize_max).
Qed.
Lemma pump_learned d now : ds_learned (Discovery_pump dec d now).2 = ds_learned d ∧
  ds_reconnect_cursor (Discovery_pump dec d now).2 = ds_reconnect_cursor d.
Proof.
  unfold Discovery_pump. destruct (pump_slot d now (ds_statics d) _) as [s st1]. destruct (pump_slot d now (ds_cache d) st1) as [c st2].
  destruct (pump_slot d now (ds_mdns d) st2) as [m st3]. by destruct (pump_slot d now (ds_kademlia d) st3) as [k [[a4 s4] m4]].
Qed.
Lemma swarm_learned d event now : ds_learned (Discovery_on_swarm_event dec d event now).2 = ds_learned d ∧
  ds_reconnect_cursor (Discovery_on_swarm_event dec d event now).2 = ds_reconnect_cursor d.
Proof. destruct event; try done. cbn. destruct (ds_cache d); [|done]. by destruct (ProtocolId_parse protocol_id). Qed.
Lemma flush_learned d io path temp now fs : ds_learned (Discovery_flush to_vec d io path temp now fs).1 = ds_learned d ∧
  ds_reconnect_cursor (Discovery_flush to_vec d io path temp now fs).1 = ds_reconnect_cursor d.
Proof. unfold Discovery_flush. destruct (ds_cache d); [|done]. by destruct (CacheProvider_flush_if_due _ _ _ _ _ _ _) as [[? ?] ?]. Qed.
Lemma shutdown_learned d io path temp now fs : ds_learned (Discovery_shutdown to_vec d io path temp now fs).1 = ds_learned d ∧
  ds_reconnect_cursor (Discovery_shutdown to_vec d io path temp now fs).1 = ds_reconnect_cursor d.
Proof. unfold Discovery_shutdown. destruct (ds_cache d); [|done]. by destruct (CacheProvider_flush _ _ _ _ _ _ _) as [[? ?] ?]. Qed.
Lemma trust_offers (d : Discovery) trust o : ds_learned d ⊆ o →
  ds_learned (Discovery_set_trust d trust) ⊆ filter (λ po, ¬ newly_allowed (ds_trust d) trust po.1) o.
Proof.
  intros Ho. apply map_subseteq_spec. intros p x [Hp Ha]%map_lookup_filter_Some. apply map_lookup_filter_Some.
  split; [by eapply lookup_weaken|]. cbn in Ha |- *. intros [H1 H2]. rewrite H2 in Ha. cbn in Ha. rewrite orb_false_r in Ha.
  by destruct (PeerTrustPolicy_decide (ds_trust d) p).
Qed.
Lemma offers_step w op : offers_inv w → offers_inv (ds_step w op).
Proof.
  destruct w as [d fs answers o asked]. unfold offers_inv. cbn [dw_discovery dw_offers]. intros Ho.
  destruct op as [now|now entropy|event now|now|now connected|trust|io path temp now|io path temp now]; cbn [ds_step dw_discovery dw_offers dw_fs].
  - pose proof (pump_learned d now) as [E _]. destruct (Discovery_pump dec d now) as [a d']. cbn in *. by rewrite E.
  - by rewrite commands_learned.
  - by rewrite (proj1 (swarm_learned d event now)).
  - pose proof (changed_spec d now o Ho) as H. destruct (Discovery_changed_candidates d now) as [changed d']. by destruct H.
  - unfold Discovery_reconnect_targets. by destruct (rotate _ _ _).
  - by apply trust_offers.
  - pose proof (flush_learned d io path temp now fs) as [E _]. destruct (Discovery_flush to_vec d io path temp now fs) as [d' fs']. cbn in *. by rewrite E.
  - pose proof (shutdown_learned d io path temp now fs) as [E _]. destruct (Discovery_shutdown to_vec d io path temp now fs) as [d' fs']. cbn in *. by rewrite E.
Qed.
Lemma offers_run ops w : offers_inv w → offers_inv (foldl ds_step w ops).
Proof. revert w. induction ops as [|op ops IH]; intros w Hw; [done|]. cbn. by apply IH, offers_step. Qed.

(** C23: the address book is offered what is current. After any history, a round that
    hands changed candidates over leaves every candidate the coordinator holds with
    a standing offer of exactly its addresses, in their order, that is less than
    five minutes old and, for a peer the policy came to allow, made since it was
    allowed; and the record kept for it names those candidates alone. *)
Theorem book_offers_current (plan : DiscoveryPlan) (file : option LoadIo) (trust : PeerTrustPolicy)
    (trusted : gset TransportIdentity) (local : TransportIdentity) (at0 : N) (d : Discovery) (fs : gmap bytes bytes)
    (ops : list ds_op) (now : N) (w : ds_world) :
  Discovery_new dec from_str plan file trust trusted local at0 = Ok d →
  foldl ds_step (MkDsWorld d fs [] ∅ []) (ops ++ [DsChanged now]) = w →
  (∀ c, c ∈ DiscoveryManager_candidates (ds_manager (dw_discovery w)) now → ∃ at_,
     dw_offers w !! ag_peer_id c = Some (AggregatedCandidate_address_list c, at_) ∧ now < at_ + RELEARN_INTERVAL_MS) ∧
  dom (ds_learned (dw_discovery w)) =
    list_to_set (ag_peer_id <$> DiscoveryManager_candidates (ds_manager (dw_discovery w)) now).
Proof.
  intros Hn Hw. rewrite foldl_app in Hw. set (w1 := foldl ds_step (MkDsWorld d fs [] ∅ []) ops) in *.
  assert (offers_inv w1) as H1.
  { apply offers_run. unfold offers_inv. cbn. revert Hn. unfold Discovery_new. intros ([m1 s] & _ & H)%result_bind_Ok.
    apply result_bind_Ok in H as ([m2 c] & _ & H). apply result_bind_Ok in H as ([m3 mm] & _ & H).
    apply result_bind_Ok in H as ([m4 k] & _ & [= <-]). done. }
  clearbody w1. subst w. cbn. pose proof (changed_spec (dw_discovery w1) now (dw_offers w1) H1) as H.
  destruct (Discovery_changed_candidates (dw_discovery w1) now) as [changed d']. cbn. destruct H as (Hs & Hc & Hd). split; [|done].
  intros c Hin. destruct (Hc c Hin) as (at_ & E & Hat). exists at_. split; [|done]. by eapply lookup_weaken.
Qed.

(** ** Reconnecting *)

Definition cursor (w : ds_world) : N := ds_reconnect_cursor (dw_discovery w).
Lemma other_cursor w op : (∀ now connected, op ≠ DsReconnect now connected) →
  cursor (ds_step w op) = cursor w ∧ dw_asked (ds_step w op) = dw_asked w.
Proof.
  destruct w as [d fs answers o asked]. intros Hop. unfold cursor.
  destruct op as [now|now entropy|event now|now|now connected|trust|io path temp now|io path temp now]; cbn [ds_step dw_discovery dw_asked dw_fs].
  - pose proof (pump_learned d now) as [_ E]. destruct (Discovery_pump dec d now) as [a d']. by cbn in *.
  - split; [|done]. unfold Discovery_kademlia_commands. destruct (ds_kademlia d) as [k|]; [|done].
    destruct (if _ =? 0 then _ else _) as [b k1]. destruct (Kademlia_tick dec k1 now entropy) as [r k2]. by destruct (Kademlia_drain_commands k2 usize_max).
  - split; [|done]. apply swarm_learned.
  - unfold Discovery_changed_candidates. cbn zeta. by destruct (foldl (offer_one now) _ _).
  - by destruct (Hop now connected).
  - done.
  - pose proof (flush_learned d io path temp now fs) as [_ E]. destruct (Discovery_flush to_vec d io path temp now fs). by cbn in *.
  - pose proof (shutdown_learned d io path temp now fs) as [_ E]. destruct (Discovery_shutdown to_vec d io path temp now fs). by cbn in *.
Qed.
(** Every round finds the same peers eligible. *)
Fixpoint steady (l : list TransportIdentity) (w : ds_world) (ops : list ds_op) : Prop :=
  match ops with
  | [] => True
  | op :: ops =>
      (match op with DsReconnect now connected => eligible (dw_discovery w) now connected = l | _ => True end) ∧
      steady l (ds_step w op) ops
  end.
Definition is_reconnect (op : ds_op) : bool := match op with DsReconnect _ _ => true | _ => false end.
Definition rounds (ops : list ds_op) : N := len (filter (λ op, is_reconnect op = true) ops).
Lemma asked_grows ops w : ∃ asked, dw_asked (foldl ds_step w ops) = dw_asked w ++ asked.
Proof.
  revert w. induction ops as [|op ops IH]; intros w; [by exists []; rewrite app_nil_r|]. cbn [foldl]. destruct (IH (ds_step w op)) as [asked ->].
  destruct op; try (eexists; f_equal; by apply other_cursor).
  cbn. unfold Discovery_reconnect_targets. destruct (rotate _ _ _) as [window next]. cbn. eexists. by rewrite -app_assoc.
Qed.
Lemma turn_reaches ops l w i p : steady l w ops → l !! N.to_nat i = Some p → ahead l (cursor w) i < MAX_RECONNECTS_PER_ROUND * rounds ops →
  ∃ asked, dw_asked (foldl ds_step w ops) = dw_asked w ++ asked ∧ p ∈ asked.
Proof.
  intros Hs Hp. assert (i < len l) as Hi by (apply lookup_lt_Some in Hp; unfold len; lia). revert w Hs.
  induction ops as [|op ops IH]; intros w Hs Hr; [unfold rounds in Hr; rewrite filter_nil len_nil in Hr; lia|]. destruct Hs as [He Hs]. cbn [foldl].
  destruct (is_reconnect op) eqn:Eop.
  2: { destruct (other_cursor w op) as [E1 E2]; [by intros now connected ->|].
       rewrite -E2. apply IH; [done|]. rewrite E1. unfold rounds in *. rewrite filter_cons_False // in Hr. by rewrite Eop. }
  destruct op as [| | | |now connected| | |]; try done.
  assert (rounds (DsReconnect now connected :: ops) = 1 + rounds ops) as Er by (unfold rounds; rewrite filter_cons_True // len_cons //).
  assert (dw_asked (ds_step w (DsReconnect now connected)) = dw_asked w ++ (rotate l (cursor w) MAX_RECONNECTS_PER_ROUND).1 ∧
          cursor (ds_step w (DsReconnect now connected)) = (rotate l (cursor w) MAX_RECONNECTS_PER_ROUND).2) as [A1 A2].
  { cbn. unfold Discovery_reconnect_targets. rewrite He. fold (cursor w). by destruct (rotate l (cursor w) MAX_RECONNECTS_PER_ROUND). }
  destruct (N.lt_ge_cases (ahead l (cursor w) i) MAX_RECONNECTS_PER_ROUND) as [Ha|Ha].
  - destruct (asked_grows ops (ds_step w (DsReconnect now connected))) as [asked ->]. rewrite A1. eexists. rewrite -app_assoc. split; [done|].
    apply elem_of_app. left. by eapply rotate_reaches.
  - destruct (IH (ds_step w (DsReconnect now connected)) Hs) as (asked & -> & Hin).
    + rewrite A2 rotate_advances //. unfold MAX_RECONNECTS_PER_ROUND in *. lia.
    + rewrite A1. eexists. rewrite -app_assoc. split; [done|]. apply elem_of_app. by right.
Qed.

(** C24: no eligible peer starves. From any state, while the peers eligible to be
    asked stay the same, and whatever else happens between, every one of them is
    asked to reconnect within as many rounds as sixteen goes into their number,
    rounded up, wherever the window stood. *)
Theorem reconnect_no_starvation (w : ds_world) (ops : list ds_op) (l : list TransportIdentity) (p : TransportIdentity) :
  steady l w ops → p ∈ l → (len l + (MAX_RECONNECTS_PER_ROUND - 1)) / MAX_RECONNECTS_PER_ROUND ≤ rounds ops →
  ∃ asked, dw_asked (foldl ds_step w ops) = dw_asked w ++ asked ∧ p ∈ asked.
Proof.
  intros Hs Hp Hr. apply list_elem_of_lookup_1 in Hp as [i Hi]. apply (turn_reaches ops l w (N.of_nat i) p Hs); [by rewrite Nat2N.id|].
  assert (l ≠ []) as Hl by by intros ->. pose proof (ahead_lt l (cursor w) (N.of_nat i) Hl) as Ha.
  pose proof (N.div_mod (len l + (MAX_RECONNECTS_PER_ROUND - 1)) MAX_RECONNECTS_PER_ROUND ltac:(done)) as Hd.
  pose proof (N.mod_lt (len l + (MAX_RECONNECTS_PER_ROUND - 1)) MAX_RECONNECTS_PER_ROUND ltac:(done)) as Hm.
  set (q := (len l + (MAX_RECONNECTS_PER_ROUND - 1)) / MAX_RECONNECTS_PER_ROUND) in *.
  set (r := (len l + (MAX_RECONNECTS_PER_ROUND - 1)) mod MAX_RECONNECTS_PER_ROUND) in *. clearbody q r. unfold MAX_RECONNECTS_PER_ROUND in *. lia.
Qed.
End history.

(** ** One network, two names *)

Lemma ranges_err table : check_ranges table ≠ Err MalformedNetworkHash.
Proof. induction table as [|[[[field got] lo] hi] table IH]; [done|]. cbn. by destruct (_ || _). Qed.
Lemma position_none (f : byte → bool) l : forallb (λ b, negb (f b)) l = true → position f l = None.
Proof. induction l as [|b l IH]; [done|]. cbn. destruct (f b); [done|]. cbn. intros H. by rewrite IH. Qed.
Lemma base32_printable b : base32_lower b = true → printable b = true.
Proof. destruct b; done. Qed.
Lemma rendered_eq {sha : Sha256} k : rendered_protocol (provider_config k) = bs "/interweave/kad/1.0.0/" ++ network_hash (kp_network_id k).
Proof. done. Qed.
Lemma rendered_ok {sha : Sha256} k : len (network_hash (kp_network_id k)) = 26 → forallb base32_lower (network_hash (kp_network_id k)) = true →
  ∃ e, ProtocolId_parse (rendered_protocol (provider_config k)) = Ok e.
Proof.
  intros H1 H2. rewrite rendered_eq. unfold ProtocolId_parse. rewrite len_app H1. 
  change (len (bs "/interweave/kad/1.0.0/") + 26) with 48. cbn [N.eqb orb].
  change (MAX_PROTOCOL_ID_BYTES <? 48) with false. rewrite position_none; [by eexists|]. rewrite forallb_app. apply andb_true_iff.
  split; [done|]. rewrite forallb_forall in H2. apply forallb_forall. intros b Hb. rewrite negb_involutive. by apply base32_printable, H2.
Qed.

(** C25: the driver and the provider speak of the same network. For every resolved
    [kademlia] entry, the namespace the composition hashes is never the reason a
    provider is refused, and the protocol the provider takes as evidence is the one
    the driver speaks for that namespace. *)
Theorem kad_names_agree {sha : Sha256} (dec : N → bytes → option bytes) (k : KademliaProfile) (local : TransportIdentity) :
  (∀ x, len (sha256 x) = 32) →
  Kademlia_new dec (provider_config k) local ≠ Err MalformedNetworkHash ∧
  ∀ p, Kademlia_new dec (provider_config k) local = Ok p →
    ProtocolId_as_str (kd_expected_protocol p) = kad_protocol (kp_network_id k).
Proof.
  intros Hs. destruct (network_hash_ok (kp_network_id k)) as [H1 H2]; [rewrite Hs; lia|]. split.
  - unfold Kademlia_new. cbn [kc_wire_major kc_network_hash provider_config]. rewrite H1 H2. cbn [N.eqb KADEMLIA_WIRE_MAJOR negb andb].
    destruct (_ =? 0); [done|]. destruct (_ <? _); [done|]. pose proof (ranges_err (canonical_ranges (provider_config k))) as Hr.
    destruct (check_ranges _) as [[]|e]; cbn [result_bind]; [|intros [= ->]; by apply Hr]. destruct (_ <? _); [done|].
    by destruct (rendered_ok k H1 H2) as [e ->].
  - intros p Hp. by destruct (kad_new_facts dec _ _ _ Hp) as (_ & _ & _ & _ & ->).
Qed.

(** ** What a failed interface leaves *)

Definition mdns_down (slot : option MdnsDiscovery) : Prop := ∀ m, slot = Some m → md_backend_up m = false.
Lemma down_map (f : MdnsDiscovery → MdnsDiscovery) slot : (∀ m, md_backend_up m = false → md_backend_up (f m) = false) →
  mdns_down slot → mdns_down (f <$> slot).
Proof. intros Hf Hs m' (m & -> & ->)%fmap_Some. apply Hf. by apply Hs. Qed.
Lemma flags_down m m' : flags m' = flags m → md_backend_up m = false → md_backend_up m' = false.
Proof. by intros [= _ _ ->]. Qed.
Lemma pump_mdns d now m st : ∃ st', pump_slot d now (Some m) st = (Some (Mdns_drain_events m now DRAIN_PER_ROUND).2, st').
Proof.
  destruct st as [[answers seeds] dm]. unfold pump_slot, pump_provider. cbn.
  destruct (Mdns_drain_events m now DRAIN_PER_ROUND) as [events m1]. destruct (feed_events _ _ _ _ _) as [a dm1]. by eexists.
Qed.
Lemma down_step dec to_vec w op : mdns_down (ds_mdns (dw_discovery w)) → mdns_down (ds_mdns (dw_discovery (ds_step dec to_vec w op))).
Proof.
  destruct w as [d fs answers o asked]. intros Hd. cbn in Hd.
  destruct op as [now|now entropy|event now|now|now connected|trust|io path temp now|io path temp now]; cbn [ds_step dw_discovery dw_fs].
  - unfold Discovery_pump. destruct (pump_slot d now (ds_statics d) _) as [s st1]. destruct (pump_slot d now (ds_cache d) st1) as [c st2].
    destruct (pump_slot d now (ds_mdns d) st2) as [m st3] eqn:E. destruct (pump_slot d now (ds_kademlia d) st3) as [k [[a4 s4] m4]]. cbn.
    destruct (ds_mdns d) as [m0|]; [|by injection E as <- _]. destruct (pump_mdns d now m0 st2) as [st' E']. rewrite E' in E.
    injection E as <- _. intros ? [= <-]. eapply flags_down; [apply drain_flags|]. by apply Hd.
  - unfold Discovery_kademlia_commands. destruct (ds_kademlia d) as [k|]; [|done].
    destruct (if _ =? 0 then _ else _) as [b k1]. destruct (Kademlia_tick dec k1 now entropy) as [r k2]. by destruct (Kademlia_drain_commands k2 usize_max).
  - assert (∀ m, md_backend_up m = false → md_backend_up (Mdns_report_backend_down m now) = false) as Hr
      by (intros m Hm; unfold Mdns_report_backend_down; by rewrite Hm).
    destruct event as [e|cs|ex|p a|p id sup| | | | |]; cbn [Discovery_on_swarm_event snd]; try done; try by apply down_map.
    + apply down_map; [|done]. intros m. apply (foldl_ok (λ m, md_backend_up m = false)). intros m' c. apply (foldl_ok (λ m, md_backend_up m = false)). intros m'' a. by apply flags_down, discovered_flags.
    + apply down_map; [|done]. intros m. apply (foldl_ok (λ m, md_backend_up m = false)). intros m' pa. by apply flags_down, expired_flags.
    + destruct (ds_cache d); [|done]. by destruct (ProtocolId_parse id).
  - unfold Discovery_changed_candidates. cbn zeta. by destruct (foldl (offer_one now) _ _).
  - unfold Discovery_reconnect_targets. by destruct (rotate _ _ _).
  - done.
  - unfold Discovery_flush. destruct (ds_cache d); [|done]. by destruct (CacheProvider_flush_if_due _ _ _ _ _ _ _) as [[? ?] ?].
  - assert (∀ c, mdns_down (ds_mdns (ds_set_providers d ((λ p, Static_shutdown p now) <$> ds_statics d) c
      ((λ p, Mdns_shutdown p now) <$> ds_mdns d) ((λ p, Kademlia_shutdown p now) <$> ds_kademlia d)))) as H by by intros c; apply down_map.
    unfold Discovery_shutdown. destruct (ds_cache d); [|apply H]. destruct (CacheProvider_flush _ _ _ _ _ _ _) as [[? ?] ?]. apply H.
Qed.

(** C40: one failed mDNS interface degrades the provider for good. Whatever the
    substrate reports afterwards, discoveries included, the composed mDNS provider
    is never healthy again: no event of the substrate reaches the report that the
    backend has multicast again. *)
Theorem mdns_never_recovers (dec : N → bytes → option bytes) (to_vec : CacheFile → result bytes SerdeError)
    (w : ds_world) (now : N) (ops : list ds_op) (m : MdnsDiscovery) :
  ds_mdns (dw_discovery (foldl (ds_step dec to_vec) w (DsSwarm SwMdnsInterfaceFailed now :: ops))) = Some m →
  Mdns_health m ≠ Healthy.
Proof.
  intros Hm. assert (md_backend_up m = false) as Hu.
  { revert m Hm. cbn [foldl]. apply (foldl_ok (λ w, mdns_down (ds_mdns (dw_discovery w)))); [intros w' op; apply down_step|]. cbn. intros m (m0 & _ & ->)%fmap_Some.
    unfold Mdns_report_backend_down. destruct (md_backend_up m0) eqn:E; [|done]. by eapply flags_down; [apply health_flags|]. }
  unfold Mdns_health. rewrite Hu. by destruct (negb _ || _).
Qed.

(** ** A concrete history *)

Definition comp_sha : Sha256 := λ _, replicate 32 x00.
Definition comp_dec (_ : N) (_ : bytes) : option bytes := Some (ED25519_ENVELOPE ++ replicate 32 x00).
Definition comp_from (_ : bytes) : result CacheFile SerdeError := Ok (MkCacheFile 1 []).
Definition comp_to (_ : CacheFile) : result bytes SerdeError := Ok (bs "{}").
Definition comp_local : TransportIdentity := MkTransportIdentity (bs "12D3KooWDpJ7As7BWAwRMfu1VU2WCqNjvq387JEYKDBj4kx6nXTN").
Definition comp_p1 : TransportIdentity := MkTransportIdentity (bs "12D3KooWK99VoVxNE7XzyBwXEzW7xhK7Gpv85r9F3V3fyKSUKPH5").
Definition comp_p2 : TransportIdentity := MkTransportIdentity (bs "12D3KooWK99VoVxNE7XzyBwXEzW7xhK7Gpv85r9F3V3fyKSUKPH6").
Definition comp_profile : KademliaProfile :=
  MkKademliaProfile (bs "lab") Client [STATIC_SOURCE; MDNS_SOURCE] 600000 20 256 30000 3 true 4 6 60000 10 20 8 60000 300000 900000.
Definition comp_plan : DiscoveryPlan :=
  MkDiscoveryPlan (Some ([MkStaticEntry comp_p1 (bs "/ip4/8.8.8.8/tcp/4001")], 10%Z)) None (Some 20%Z) (Some (comp_profile, 40%Z)).
Definition comp_trust : PeerTrustPolicy := MkPeerTrustPolicy {[comp_p1; comp_p2]} (Some comp_local).
Definition comp_d0 : Discovery :=
  match Discovery_new (sha := comp_sha) comp_dec comp_from comp_plan None comp_trust {[comp_p1; comp_p2]} comp_local 0 with
  | Ok d => d
  | Err _ => MkDiscovery DiscoveryManager_new None None None None comp_trust ∅ 0 ∅ false
  end.
Definition comp_heard : CandidatePeer := MkCandidatePeer comp_p2 {[bs "/ip4/10.0.0.2/tcp/1"]} MDNS_SOURCE 5 None ∅.
Definition comp_ops : list ds_op :=
  [DsPump 1; DsSwarm (SwMdnsDiscovered [comp_heard]) 5; DsPump 6; DsChanged 7; DsCommands 8 (replicate 32 x01)].
Definition comp_w : ds_world := foldl (ds_step comp_dec comp_to) (MkDsWorld comp_d0 ∅ [] ∅ []) comp_ops.
Definition comp_w2 : ds_world := foldl (ds_step comp_dec comp_to) (MkDsWorld comp_d0 ∅ [] ∅ []) (comp_ops ++ [DsChanged 9]).
Lemma comp_d0_ok : Discovery_new (sha := comp_sha) comp_dec comp_from comp_plan None comp_trust {[comp_p1; comp_p2]} comp_local 0 = Ok comp_d0.
Proof.
  assert (is_ok (Discovery_new (sha := comp_sha) comp_dec comp_from comp_plan None comp_trust {[comp_p1; comp_p2]} comp_local 0) = true) as H
    by by vm_compute.
  unfold comp_d0. by destruct (Discovery_new _ _ _ _ _ _ _ _).
Qed.
Lemma comp_plan_ok : plan_ok comp_plan.
Proof. split; [intros entries priority [= <- _]; by repeat constructor|done]. Qed.
Lemma comp_from_ok : decoder_u64 comp_from.
Proof. by intros text file [= <-]. Qed.
Lemma comp_w_eq : foldl (ds_step comp_dec comp_to) (MkDsWorld comp_d0 ∅ [] ∅ []) comp_ops = comp_w.
Proof. unfold comp_w. exact eq_refl. Qed.
Lemma comp_w2_eq : foldl (ds_step comp_dec comp_to) (MkDsWorld comp_d0 ∅ [] ∅ []) (comp_ops ++ [DsChanged 9]) = comp_w2.
Proof. unfold comp_w2. exact eq_refl. Qed.

Lemma pump_refuses_nothing_witness : (len (dw_answers comp_w) =? 5) = true ∧
  Forall (λ a, a = Ok ()) (dw_answers comp_w) ∧
  ∀ name, name ∈ provider_names (dw_discovery comp_w) → name ∈ dom (dm_providers (ds_manager (dw_discovery comp_w))).
Proof.
  split; [by vm_compute|].
  apply (pump_refuses_nothing (sha := comp_sha) comp_dec comp_to comp_from comp_plan None comp_trust {[comp_p1; comp_p2]} comp_local 0 comp_d0 ∅ comp_ops
    comp_w comp_plan_ok comp_from_ok comp_d0_ok).
  - by repeat constructor.
  - exact comp_w_eq.
Defined.
Lemma book_offers_current_witness : (len (DiscoveryManager_candidates (ds_manager (dw_discovery comp_w2)) 9) =? 2) = true ∧
  (∀ c, c ∈ DiscoveryManager_candidates (ds_manager (dw_discovery comp_w2)) 9 → ∃ at_,
     dw_offers comp_w2 !! ag_peer_id c = Some (AggregatedCandidate_address_list c, at_) ∧ 9 < at_ + RELEARN_INTERVAL_MS) ∧
  dom (ds_learned (dw_discovery comp_w2)) =
    list_to_set (ag_peer_id <$> DiscoveryManager_candidates (ds_manager (dw_discovery comp_w2)) 9).
Proof.
  split; [by vm_compute|].
  apply (book_offers_current (sha := comp_sha) comp_dec comp_to comp_from comp_plan None comp_trust {[comp_p1; comp_p2]} comp_local 0 comp_d0 ∅ comp_ops 9
    comp_w2 comp_d0_ok comp_w2_eq).
Defined.
Definition comp_eligible : list TransportIdentity := eligible (dw_discovery comp_w) 9 (λ _, false).
Lemma comp_steady : steady comp_dec comp_to comp_eligible comp_w [DsReconnect 9 (λ _, false)].
Proof. split; [exact eq_refl|exact I]. Qed.
Lemma comp_p2_eligible : comp_p2 ∈ comp_eligible.
Proof. apply (bool_decide_unpack _). by vm_compute. Qed.
Lemma reconnect_no_starvation_witness : ∃ asked,
  dw_asked (foldl (ds_step comp_dec comp_to) comp_w [DsReconnect 9 (λ _, false)]) = dw_asked comp_w ++ asked ∧ comp_p2 ∈ asked.
Proof.
  apply (reconnect_no_starvation comp_dec comp_to comp_w [DsReconnect 9 (λ _, false)] comp_eligible comp_p2 comp_steady comp_p2_eligible).
  by vm_compute.
Defined.
Lemma kad_names_agree_witness :
  (len (kad_protocol (sha := comp_sha) (kp_network_id comp_profile)) =? 48) = true ∧
  (Kademlia_new comp_dec (provider_config (sha := comp_sha) comp_profile) comp_local ≠ Err MalformedNetworkHash ∧
   ∀ p, Kademlia_new comp_dec (provider_config (sha := comp_sha) comp_profile) comp_local = Ok p →
     ProtocolId_as_str (kd_expected_protocol p) = kad_protocol (sha := comp_sha) (kp_network_id comp_profile)).
Proof.
  split; [by vm_compute|]. apply (kad_names_agree (sha := comp_sha) comp_dec comp_profile comp_local). intros x. by vm_compute.
Defined.
Definition comp_failed : ds_world :=
  foldl (ds_step comp_dec comp_to) comp_w (DsSwarm SwMdnsInterfaceFailed 20 :: [DsSwarm (SwMdnsDiscovered [comp_heard]) 21]).
Definition comp_mdns : MdnsDiscovery := default Mdns_new (ds_mdns (dw_discovery comp_failed)).
Lemma comp_mdns_eq : ds_mdns (dw_discovery comp_failed) = Some comp_mdns.
Proof.
  assert (match ds_mdns (dw_discovery comp_failed) with Some _ => true | None => false end = true) as H by by vm_compute.
  unfold comp_mdns. by destruct (ds_mdns (dw_discovery comp_failed)).
Qed.
Lemma mdns_never_recovers_witness : Mdns_health comp_mdns ≠ Healthy.
Proof.
  apply (mdns_never_recovers comp_dec comp_to comp_w 20 [DsSwarm (SwMdnsDiscovered [comp_heard]) 21] comp_mdns). exact comp_mdns_eq.
Defined.
