(* ===== verification/Base64url.v ===== *)
(** * Unpadded base64url

    [crates/api/transport-api/src/base64url.rs]: the encoder, and the decoder that
    refuses every spelling but the canonical one. *)
From S2P Require Import Prelude Ids.
Local Open Scope N_scope.

Inductive Base64Error :=
| IllegalCharacter (index : N) (b : byte)
| InvalidLength (length : N)
| NonZeroTrailingBits.
#[global] Instance Base64Error_eq_dec : EqDecision Base64Error.
Proof. solve_decision. Defined.

Definition ALPHABET : bytes := bs "ABCDEFGHIJKLMNOPQRSTUVWXYZabcdefghijklmnopqrstuvwxyz0123456789-_".
Definition decode_char (b : byte) : option N :=
  let v := byte_val b in
  if (65 <=? v) && (v <=? 90) then Some (v - 65)
  else if (97 <=? v) && (v <=? 122) then Some (v - 97 + 26)
  else if (48 <=? v) && (v <=? 57) then Some (v - 48 + 52)
  else if v =? 45 then Some 62
  else if v =? 95 then Some 63
  else None.

(** The characters of one chunk: [ALPHABET[idx(shift)]]. *)
Definition alphabet_at (v : N) : byte := default x00 (ALPHABET !! N.to_nat v).
Definition chunk_char (n shift : N) : byte := alphabet_at (N.land (N.shiftr n shift) 63).
Definition chunk_word (b0 b1 b2 : N) : N := N.lor (N.lor (N.shiftl b0 16) (N.shiftl b1 8)) b2.
Fixpoint base64url_encode (l : bytes) : bytes :=
  match l with
  | [] => []
  | [b0] => let n := chunk_word (byte_val b0) 0 0 in [chunk_char n 18; chunk_char n 12]
  | [b0; b1] =>
      let n := chunk_word (byte_val b0) (byte_val b1) 0 in [chunk_char n 18; chunk_char n 12; chunk_char n 6]
  | b0 :: b1 :: b2 :: l =>
      let n := chunk_word (byte_val b0) (byte_val b1) (byte_val b2) in
      [chunk_char n 18; chunk_char n 12; chunk_char n 6; chunk_char n 0] ++ base64url_encode l
  end.

(** The inner loop of [decode]: the bits of one chunk, of which the first
    character is [i]-th, at [index] of the text. *)
Fixpoint chunk_bits (chunk : bytes) (index i n : N) : result N Base64Error :=
  match chunk with
  | [] => Ok n
  | b :: chunk =>
      match decode_char b with
      | None => Err (IllegalCharacter (index + i) b)
      | Some v => chunk_bits chunk index (i + 1) (N.lor n (N.shiftl v (18 - 6 * i)))
      end
  end.
Definition low_byte (n : N) : byte := byte_of (N.land n 255).
(** The outer loop, from [index] on. *)
Fixpoint decode_chunks (src : bytes) (index : N) : result bytes Base64Error :=
  match src with
  | [] => Ok []
  | [c0] => (* no text of this length gets here *) n <-? chunk_bits [c0] index 0 0; Err NonZeroTrailingBits
  | [c0; c1] =>
      n <-? chunk_bits [c0; c1] index 0 0;
      if negb (N.land n 65535 =? 0) then Err NonZeroTrailingBits else Ok [low_byte (N.shiftr n 16)]
  | [c0; c1; c2] =>
      n <-? chunk_bits [c0; c1; c2] index 0 0;
      if negb (N.land n 255 =? 0) then Err NonZeroTrailingBits
      else Ok [low_byte (N.shiftr n 16); low_byte (N.shiftr n 8)]
  | c0 :: c1 :: c2 :: c3 :: src =>
      n <-? chunk_bits [c0; c1; c2; c3] index 0 0;
      rest <-? decode_chunks src (index + 4);
      Ok ([low_byte (N.shiftr n 16); low_byte (N.shiftr n 8); low_byte n] ++ rest)
  end.
Definition base64url_decode (text : bytes) : result bytes Base64Error :=
  if len text mod 4 =? 1 then Err (InvalidLength (len text)) else decode_chunks text 0.

(** ** Proofs *)

Lemma alphabet_decode v : v < 64 → decode_char (alphabet_at v) = Some v.
Proof.
  intros H. assert (forallb (λ n, bool_decide (decode_char (alphabet_at (N.of_nat n)) = Some (N.of_nat n))) (seq 0 64) = true) as Hall by by vm_compute.
  rewrite forallb_forall in Hall. specialize (Hall (N.to_nat v)). rewrite N2Nat.id bool_decide_eq_true in Hall. apply Hall, in_seq. lia.
Qed.
Lemma decode_alphabet b v : decode_char b = Some v → v < 64 ∧ alphabet_at v = b.
Proof. destruct b; vm_compute; intros H; simplify_eq; by split. Qed.

(** Bits put beside each other are a sum. *)
Lemma lor_beside a b k : b < 2 ^ k → N.lor (N.shiftl a k) b = a * 2 ^ k + b.
Proof.
  intros H. rewrite -{1}(N.mod_small b (2 ^ k)) //.
  assert (N.land (N.shiftl a k) (b mod 2 ^ k) = 0) as Hl.
  { apply N.bits_inj. intros i. rewrite N.land_spec N.bits_0. destruct (N.ltb_spec i k).
    - by rewrite N.shiftl_spec_low.
    - by rewrite N.mod_pow2_bits_high // andb_false_r. }
  rewrite -N.lxor_lor // -N.add_nocarry_lxor // N.shiftl_mul_pow2 N.mod_small //.
Qed.
Lemma lor_above a b k : b < 2 ^ k → N.lor b (N.shiftl a k) = b + a * 2 ^ k.
Proof. intros H. rewrite N.lor_comm lor_beside //. lia. Qed.
Lemma chunk_word_val b0 b1 b2 : b0 < 256 → b1 < 256 → b2 < 256 → chunk_word b0 b1 b2 = b0 * 65536 + b1 * 256 + b2.
Proof.
  intros H0 H1 H2. unfold chunk_word. replace 16 with (8 + 8) by done. rewrite -N.shiftl_shiftl -N.shiftl_lor.
  rewrite (lor_beside b0 b1) // (lor_beside _ b2) //. change (2 ^ 8) with 256. lia.
Qed.
Lemma chunk_char_val n shift : chunk_char n shift = alphabet_at (n / 2 ^ shift mod 64).
Proof. unfold chunk_char. rewrite N.shiftr_div_pow2. change 63 with (N.ones 6). by rewrite N.land_ones. Qed.
Lemma low_byte_val n shift : low_byte (N.shiftr n shift) = byte_of (n / 2 ^ shift).
Proof.
  unfold low_byte. rewrite N.shiftr_div_pow2. change 255 with (N.ones 8). rewrite N.land_ones. apply (inj byte_val). rewrite !byte_val_of. apply N.Div0.mod_mod.
Qed.
Lemma lor_step m v k : v < 64 → N.lor (m * 2 ^ (k + 6)) (N.shiftl v k) = (m * 64 + v) * 2 ^ k.
Proof.
  intros Hv. rewrite -N.shiftl_mul_pow2 lor_beside.
  - rewrite N.shiftl_mul_pow2 N.pow_add_r. change (2 ^ 6) with 64. lia.
  - rewrite N.shiftl_mul_pow2 N.pow_add_r. change (2 ^ 6) with 64. pose proof (N.pow_nonzero 2 k). nia.
Qed.
(** The bits of the characters that stand for [vs]. *)
Lemma chunk_bits_4 v0 v1 v2 v3 index : v0 < 64 → v1 < 64 → v2 < 64 → v3 < 64 →
  chunk_bits (alphabet_at <$> [v0; v1; v2; v3]) index 0 0 = Ok (v0 * 262144 + v1 * 4096 + v2 * 64 + v3).
Proof.
  intros. cbn [fmap list_fmap chunk_bits]. rewrite !alphabet_decode // N.lor_0_l. f_equal.
  change (18 - 6 * 0) with 18. change (18 - 6 * (0 + 1)) with 12. change (18 - 6 * (0 + 1 + 1)) with 6. change (18 - 6 * (0 + 1 + 1 + 1)) with 0.
  rewrite N.shiftl_mul_pow2. rewrite (lor_step v0 v1 12) // (lor_step _ v2 6) // (lor_step _ v3 0) //. change (2 ^ 0) with 1. lia.
Qed.
Lemma chunk_bits_3 v0 v1 v2 index : v0 < 64 → v1 < 64 → v2 < 64 →
  chunk_bits (alphabet_at <$> [v0; v1; v2]) index 0 0 = Ok (v0 * 262144 + v1 * 4096 + v2 * 64).
Proof.
  intros. cbn [fmap list_fmap chunk_bits]. rewrite !alphabet_decode // N.lor_0_l. f_equal.
  change (18 - 6 * 0) with 18. change (18 - 6 * (0 + 1)) with 12. change (18 - 6 * (0 + 1 + 1)) with 6.
  rewrite N.shiftl_mul_pow2. rewrite (lor_step v0 v1 12) // (lor_step _ v2 6) //. change (2 ^ 6) with 64. lia.
Qed.
Lemma chunk_bits_2 v0 v1 index : v0 < 64 → v1 < 64 →
  chunk_bits (alphabet_at <$> [v0; v1]) index 0 0 = Ok (v0 * 262144 + v1 * 4096).
Proof.
  intros. cbn [fmap list_fmap chunk_bits]. rewrite !alphabet_decode // N.lor_0_l. f_equal.
  change (18 - 6 * 0) with 18. change (18 - 6 * (0 + 1)) with 12. rewrite N.shiftl_mul_pow2. rewrite (lor_step v0 v1 12) //. change (2 ^ 12) with 4096. lia.
Qed.
Lemma chunk_bits_ok chunk index i n m : chunk_bits chunk index i n = Ok m →
  ∃ vs, chunk = alphabet_at <$> vs ∧ Forall (λ v, v < 64) vs.
Proof.
  revert i n. induction chunk as [|b chunk IH]; intros i n H; [by exists []|]. cbn [chunk_bits] in H.
  destruct (decode_char b) as [v|] eqn:E; [|done]. apply decode_alphabet in E as [Hv <-]. destruct (IH _ _ H) as (vs & -> & Hvs).
  exists (v :: vs). by split; [|constructor].
Qed.
Lemma land_low n k : N.land n (N.ones k) = n mod 2 ^ k.
Proof. apply N.land_ones. Qed.
(** [lia], with quotients and remainders. *)
Ltac div_lia := Z.to_euclidean_division_equations; lia.
Lemma sextets n : n < 16777216 → n / 2 ^ 18 mod 64 * 262144 + n / 2 ^ 12 mod 64 * 4096 + n / 2 ^ 6 mod 64 * 64 + n / 2 ^ 0 mod 64 = n.
Proof. intros H. change (2 ^ 18) with 262144. change (2 ^ 12) with 4096. change (2 ^ 6) with 64. change (2 ^ 0) with 1. zify. div_lia. Qed.
Lemma sextet_lt n : n mod 64 < 64.
Proof. by apply N.mod_lt. Qed.
#[local] Hint Resolve sextet_lt byte_val_lt : core.
Lemma octets b0 b1 b2 : b1 < 256 → b2 < 256 →
  (b0 * 65536 + b1 * 256 + b2) / 2 ^ 16 = b0 ∧ (b0 * 65536 + b1 * 256 + b2) / 2 ^ 8 mod 256 = b1 ∧ (b0 * 65536 + b1 * 256 + b2) mod 256 = b2.
Proof. intros H1 H2. change (2 ^ 16) with 65536. change (2 ^ 8) with 256. zify. split_and!; div_lia. Qed.
Lemma low_byte_0 n : low_byte n = byte_of n.
Proof. rewrite -{1}(N.shiftr_0_r n) low_byte_val. by rewrite N.div_1_r. Qed.
Lemma byte_of_eq n b : n mod 256 = byte_val b → byte_of n = b.
Proof. intros H. apply (inj byte_val). by rewrite byte_val_of. Qed.
(** The characters of a chunk hold its bits. *)
Lemma written_4 n index : n < 16777216 → chunk_bits [chunk_char n 18; chunk_char n 12; chunk_char n 6; chunk_char n 0] index 0 0 = Ok n.
Proof.
  intros Hn. rewrite !chunk_char_val. pose proof (chunk_bits_4 (n / 2 ^ 18 mod 64) (n / 2 ^ 12 mod 64) (n / 2 ^ 6 mod 64) (n / 2 ^ 0 mod 64) index) as H.
  rewrite sextets // in H. by apply H.
Qed.
Lemma written_3 n index : n < 16777216 → n mod 64 = 0 → chunk_bits [chunk_char n 18; chunk_char n 12; chunk_char n 6] index 0 0 = Ok n.
Proof.
  intros Hn Hz. rewrite !chunk_char_val. pose proof (chunk_bits_3 (n / 2 ^ 18 mod 64) (n / 2 ^ 12 mod 64) (n / 2 ^ 6 mod 64) index) as H.
  replace n with (n / 2 ^ 18 mod 64 * 262144 + n / 2 ^ 12 mod 64 * 4096 + n / 2 ^ 6 mod 64 * 64) at 4; [by apply H|].
  pose proof (sextets n Hn) as Hs. change (2 ^ 0) with 1 in Hs. rewrite N.div_1_r Hz in Hs. lia.
Qed.
Lemma written_2 n index : n < 16777216 → n mod 4096 = 0 → chunk_bits [chunk_char n 18; chunk_char n 12] index 0 0 = Ok n.
Proof.
  intros Hn Hz. rewrite !chunk_char_val. pose proof (chunk_bits_2 (n / 2 ^ 18 mod 64) (n / 2 ^ 12 mod 64) index) as H.
  replace n with (n / 2 ^ 18 mod 64 * 262144 + n / 2 ^ 12 mod 64 * 4096) at 3; [by apply H|].
  change (2 ^ 18) with 262144. change (2 ^ 12) with 4096. zify. div_lia.
Qed.
Lemma decode_encode_chunks l : ∀ index, decode_chunks (base64url_encode l) index = Ok l.
Proof.
  induction l as [l IH] using (induction_ltof1 _ (@length byte)). unfold ltof in IH. intros index.
  destruct l as [|b0 [|b1 [|b2 l]]]; [done|..]; pose proof (byte_val_lt b0); cbn [base64url_encode app decode_chunks].
  - rewrite chunk_word_val // written_2; [|lia|zify; div_lia]. cbn [result_bind]. destruct (octets (byte_val b0) 0 0) as (E0 & _ & _); [done..|].
    change 65535 with (N.ones 16). rewrite land_low low_byte_val E0 byte_of_val. replace (_ mod 2 ^ 16) with 0; [done|]. change (2 ^ 16) with 65536. zify. div_lia.
  - pose proof (byte_val_lt b1). rewrite chunk_word_val // written_3; [|lia|zify; div_lia]. cbn [result_bind].
    destruct (octets (byte_val b0) (byte_val b1) 0) as (E0 & E1 & E2); [done..|]. change 255 with (N.ones 8). rewrite land_low !low_byte_val E0 byte_of_val (byte_of_eq _ b1) //.
    change (2 ^ 8) with 256 in *. by rewrite E2.
  - pose proof (byte_val_lt b1). pose proof (byte_val_lt b2). rewrite chunk_word_val // written_4; [|lia]. cbn [result_bind]. rewrite IH; [|cbn; lia]. cbn [result_bind app].
    destruct (octets (byte_val b0) (byte_val b1) (byte_val b2)) as (E0 & E1 & E2); [done..|].
    by rewrite !low_byte_val low_byte_0 E0 byte_of_val (byte_of_eq _ b1) // (byte_of_eq _ b2).
Qed.
Lemma encode_length l : len (base64url_encode l) mod 4 ≠ 1.
Proof.
  induction l as [l IH] using (induction_ltof1 _ (@length byte)). unfold ltof in IH.
  destruct l as [|b0 [|b1 [|b2 l]]]; [done..|]. cbn [base64url_encode]. rewrite len_app. change (len [_; _; _; _]) with 4. specialize (IH l). cbn in IH. zify. div_lia.
Qed.
(** A word read from characters writes them again. *)
Lemma read_chars v0 v1 v2 v3 : v0 < 64 → v1 < 64 → v2 < 64 → v3 < 64 →
  let n := v0 * 262144 + v1 * 4096 + v2 * 64 + v3 in
  n / 2 ^ 18 mod 64 = v0 ∧ n / 2 ^ 12 mod 64 = v1 ∧ n / 2 ^ 6 mod 64 = v2 ∧ n / 2 ^ 0 mod 64 = v3.
Proof.
  intros H0 H1 H2 H3 n. change (2 ^ 18) with 262144. change (2 ^ 12) with 4096. change (2 ^ 6) with 64. change (2 ^ 0) with 1. subst n.
  zify. split_and!; div_lia.
Qed.
Lemma read_word n : n < 16777216 → chunk_word (n / 2 ^ 16 mod 256) (n / 2 ^ 8 mod 256) (n mod 256) = n.
Proof. intros H. rewrite chunk_word_val; [|by apply N.mod_lt..]. change (2 ^ 16) with 65536. change (2 ^ 8) with 256. zify. div_lia. Qed.
(** What a chunk decodes to encodes as the chunk. *)
Lemma reread_2 c0 c1 index n : chunk_bits [c0; c1] index 0 0 = Ok n → n mod 2 ^ 16 = 0 → base64url_encode [low_byte (N.shiftr n 16)] = [c0; c1].
Proof.
  intros Hb Hz. destruct (chunk_bits_ok _ _ _ _ _ Hb) as (vs & Hc & Hv).
  destruct vs as [|v0 [|v1 [|]]]; try done. injection Hc as -> ->. rewrite !Forall_cons in Hv. destruct Hv as (V0 & V1 & _).
  pose proof (chunk_bits_2 v0 v1 index V0 V1) as Hn. cbn [fmap list_fmap] in Hn. rewrite Hn in Hb. injection Hb as Hb.
  assert (n < 16777216) as Hlt by lia. cbn [base64url_encode]. rewrite low_byte_val byte_val_of !chunk_char_val. pose proof (read_word n Hlt) as Hw.
  replace (n / 2 ^ 8 mod 256) with 0 in Hw by (change (2 ^ 8) with 256; change (2 ^ 16) with 65536 in Hz; zify; div_lia).
  replace (n mod 256) with 0 in Hw by (change (2 ^ 16) with 65536 in Hz; zify; div_lia). rewrite Hw.
  destruct (read_chars v0 v1 0 0) as (R0 & R1 & _); [done..|]. cbv zeta in R0, R1. replace (v0 * 262144 + v1 * 4096 + 0 * 64 + 0) with n in R0, R1 by lia. by rewrite R0 R1.
Qed.
Lemma reread_3 c0 c1 c2 index n : chunk_bits [c0; c1; c2] index 0 0 = Ok n → n mod 2 ^ 8 = 0 →
  base64url_encode [low_byte (N.shiftr n 16); low_byte (N.shiftr n 8)] = [c0; c1; c2].
Proof.
  intros Hb Hz. destruct (chunk_bits_ok _ _ _ _ _ Hb) as (vs & Hc & Hv).
  destruct vs as [|v0 [|v1 [|v2 [|]]]]; try done. injection Hc as -> -> ->. rewrite !Forall_cons in Hv. destruct Hv as (V0 & V1 & V2 & _).
  pose proof (chunk_bits_3 v0 v1 v2 index V0 V1 V2) as Hn. cbn [fmap list_fmap] in Hn. rewrite Hn in Hb. injection Hb as Hb.
  assert (n < 16777216) as Hlt by lia. cbn [base64url_encode]. rewrite !low_byte_val !byte_val_of !chunk_char_val. pose proof (read_word n Hlt) as Hw.
  change (2 ^ 8) with 256 in Hz. rewrite Hz in Hw. rewrite Hw.
  destruct (read_chars v0 v1 v2 0) as (R0 & R1 & R2 & _); [done..|]. cbv zeta in R0, R1, R2. replace (v0 * 262144 + v1 * 4096 + v2 * 64 + 0) with n in R0, R1, R2 by lia.
  by rewrite R0 R1 R2.
Qed.
Lemma reread_4 c0 c1 c2 c3 index n l : chunk_bits [c0; c1; c2; c3] index 0 0 = Ok n →
  base64url_encode ([low_byte (N.shiftr n 16); low_byte (N.shiftr n 8); low_byte n] ++ l) = [c0; c1; c2; c3] ++ base64url_encode l.
Proof.
  intros Hb. destruct (chunk_bits_ok _ _ _ _ _ Hb) as (vs & Hc & Hv).
  destruct vs as [|v0 [|v1 [|v2 [|v3 [|]]]]]; try done. injection Hc as -> -> -> ->. rewrite !Forall_cons in Hv. destruct Hv as (V0 & V1 & V2 & V3 & _).
  pose proof (chunk_bits_4 v0 v1 v2 v3 index V0 V1 V2 V3) as Hn. cbn [fmap list_fmap] in Hn. rewrite Hn in Hb. injection Hb as Hb.
  assert (n < 16777216) as Hlt by lia. rewrite !low_byte_val low_byte_0. cbn [app base64url_encode]. rewrite !byte_val_of !chunk_char_val (read_word n Hlt).
  destruct (read_chars v0 v1 v2 v3) as (R0 & R1 & R2 & R3); [done..|]. cbv zeta in R0, R1, R2, R3. rewrite Hb in R0, R1, R2, R3. by rewrite R0 R1 R2 R3.
Qed.
Lemma encode_decode_chunks src : ∀ index l, decode_chunks src index = Ok l → base64url_encode l = src.
Proof.
  induction src as [src IH] using (induction_ltof1 _ (@length byte)). unfold ltof in IH. intros index l.
  destruct src as [|c0 [|c1 [|c2 [|c3 src]]]]; cbn [decode_chunks]; intros H; [by simplify_eq|apply result_bind_Ok in H as (n & Hb & H)..].
  - done.
  - change 65535 with (N.ones 16) in H. rewrite land_low in H. destruct (N.eqb_spec (n mod 2 ^ 16) 0); [|done]. injection H as <-. by eapply reread_2.
  - change 255 with (N.ones 8) in H. rewrite land_low in H. destruct (N.eqb_spec (n mod 2 ^ 8) 0); [|done]. injection H as <-. by eapply reread_3.
  - apply result_bind_Ok in H as (rest & Hr & H). injection H as <-. apply IH in Hr; [|cbn; lia]. rewrite (reread_4 _ _ _ _ _ _ rest Hb) Hr. done.
Qed.
(** base64url has one spelling per byte string. A text decodes to bytes if and
    only if it is their encoding: padding, the other alphabet, impossible lengths
    and stray low bits are all refused, and nothing that was encoded is. *)
Theorem base64url_decode_iff (text l : bytes) : base64url_decode text = Ok l ↔ text = base64url_encode l.
Proof.
  unfold base64url_decode. split.
  - destruct (len text mod 4 =? 1); [done|]. intros H. by apply encode_decode_chunks in H.
  - intros ->. destruct (N.eqb_spec (len (base64url_encode l) mod 4) 1) as [H|_]; [by apply encode_length in H|apply decode_encode_chunks].
Qed.
