(* ===== verification/Ipc.v ===== *)
(** * The local socket

    Frames on a stream ([crates/api/ipc-protocol/src/framing.rs], and the reader of
    [crates/local/ipc-server/src/frames.rs]), the version and the hello
    ([version.rs], [handshake.rs]), the connection slots ([admission.rs],
    [counters.rs]) and the keepalive ([keepalive.rs]). JSON is a third-party
    parser and a parameter. *)
From S2P Require Import Prelude Ids Payload Registry.
Local Open Scope N_scope.

(** ** Frames *)

Definition LENGTH_PREFIX_BYTES : N := 4.
Definition MAX_BODY_BYTES : N := 131072.
Inductive IpcFrameError :=
| BodyTooLarge (declared max : N)
| ZeroLength
| Incomplete (needed : N)
| NotUtf8
| NotJson (detail : bytes)
| NotAnObject.
#[global] Instance IpcFrameError_eq_dec : EqDecision IpcFrameError.
Proof. solve_decision. Defined.
Record DecodedFrame := MkDecodedFrame { df_body : bytes; df_consumed : N }.

(** *** The stream *)

Inductive IpcReadError := ReadFrame (e : IpcFrameError) | Truncated | ReadIo.
(** What is left of the socket: the outcome of each read to come; after the last
    one, and at an empty one, the stream has ended. *)
Definition Reads : Type := list (result bytes ()).
Record FrameReader := MkFrameReader { fr_inner : Reads; fr_buf : bytes }.

Section frames.
(** [serde_json::from_str::<Value>]: whether the value is an object, or the
    parser's message. *)
Variable json_is_object : bytes → result bool bytes.

Definition encode_frame (body : bytes) : result bytes IpcFrameError :=
  if len body =? 0 then Err ZeroLength
  else if MAX_BODY_BYTES <? len body then Err (BodyTooLarge (len body) MAX_BODY_BYTES)
  else
    object <-? map_err NotJson (json_is_object body);
    if negb object then Err NotAnObject
    else if u32_max <? len body then Err (BodyTooLarge (len body) MAX_BODY_BYTES)
    else Ok (to_be 4 (len body) ++ body).
Definition decode_frame (buffer : bytes) : result DecodedFrame IpcFrameError :=
  if len buffer <? LENGTH_PREFIX_BYTES then Err (Incomplete (LENGTH_PREFIX_BYTES - len buffer))
  else
    let declared := from_be (ntake LENGTH_PREFIX_BYTES buffer) in
    if declared =? 0 then Err ZeroLength
    else if MAX_BODY_BYTES <? declared then Err (BodyTooLarge declared MAX_BODY_BYTES)
    else
      let total := LENGTH_PREFIX_BYTES + declared in
      if len buffer <? total then Err (Incomplete (total - len buffer))
      else
        let text := ntake declared (ndrop LENGTH_PREFIX_BYTES buffer) in
        if negb (utf8_valid text) then Err NotUtf8
        else
          object <-? map_err NotJson (json_is_object text);
          if negb object then Err NotAnObject else Ok (MkDecodedFrame text total).

(** The loop of [FrameReader::next], on the reads to come. *)
Fixpoint next_loop (inner : Reads) (buf : bytes) : result (option bytes) IpcReadError * FrameReader :=
  match decode_frame buf with
  | Ok f => (Ok (Some (df_body f)), MkFrameReader inner (ndrop (df_consumed f) buf))
  | Err (Incomplete _) =>
      let ended (inner : Reads) :=
        (if len buf =? 0 then Ok None else Err Truncated, MkFrameReader inner buf) in
      match inner with
      | [] => ended []
      | Err _ :: inner => (Err ReadIo, MkFrameReader inner buf)
      | Ok chunk :: inner =>
          if len chunk =? 0 then ended inner else next_loop inner (buf ++ chunk)
      end
  | Err e => (Err (ReadFrame e), MkFrameReader inner buf)
  end.
Definition FrameReader_new (inner : Reads) : FrameReader := MkFrameReader inner [].
Definition FrameReader_next (r : FrameReader) : result (option bytes) IpcReadError * FrameReader :=
  next_loop (fr_inner r) (fr_buf r).
End frames.

(** ** Version and hello *)

Definition IPC_MAJOR : N := 2.
Definition IPC_MAX_MINOR : N := 5.
Record IpcVersion := MkIpcVersion { iv_major : N; iv_minor : N }.
Record UnsupportedMajor := MkUnsupportedMajor { um_major : N }.
Definition negotiate (proposed : IpcVersion) : result IpcVersion UnsupportedMajor :=
  if negb (iv_major proposed =? IPC_MAJOR) then Err (MkUnsupportedMajor (iv_major proposed))
  else Ok (MkIpcVersion IPC_MAJOR (N.min (iv_minor proposed) IPC_MAX_MINOR)).

Definition MAX_REQUESTED : N := 8.
Definition MAX_CLIENT_KIND_CHARS : N := 64.
Definition FEATURE_KEEPALIVE : bytes := bs "keepalive".
Inductive AuthorityDomain := DomainData | DomainAdmin.
Inductive DataCapability := CapEvents | CapCommands | CapEndpointsQuery.
Inductive AdminCapability := CapStatus | CapEndpoints | CapShutdown | CapTrust.
Inductive RequestedCapability :=
| ReqEvents | ReqCommands | ReqEndpointsQuery | ReqAdminStatus | ReqAdminEndpoints | ReqAdminShutdown | ReqAdminTrust.
#[global] Instance AuthorityDomain_eq_dec : EqDecision AuthorityDomain.
Proof. solve_decision. Defined.
#[global] Instance DataCapability_eq_dec : EqDecision DataCapability.
Proof. solve_decision. Defined.
#[global] Instance AdminCapability_eq_dec : EqDecision AdminCapability.
Proof. solve_decision. Defined.
#[global] Instance RequestedCapability_eq_dec : EqDecision RequestedCapability.
Proof. solve_decision. Defined.
Definition data_code (c : DataCapability) : N := match c with CapEvents => 0 | CapCommands => 1 | CapEndpointsQuery => 2 end.
Definition admin_code (c : AdminCapability) : N :=
  match c with CapStatus => 0 | CapEndpoints => 1 | CapShutdown => 2 | CapTrust => 3 end.
#[global] Instance DataCapability_countable : Countable DataCapability.
Proof.
  refine (inj_countable data_code (λ n, if n =? 0 then Some CapEvents else if n =? 1 then Some CapCommands
    else Some CapEndpointsQuery) _). by intros [].
Defined.
#[global] Instance AdminCapability_countable : Countable AdminCapability.
Proof.
  refine (inj_countable admin_code (λ n, if n =? 0 then Some CapStatus else if n =? 1 then Some CapEndpoints
    else if n =? 2 then Some CapShutdown else Some CapTrust) _). by intros [].
Defined.
Definition RequestedCapability_as_data (c : RequestedCapability) : option DataCapability :=
  match c with
  | ReqEvents => Some CapEvents
  | ReqCommands => Some CapCommands
  | ReqEndpointsQuery => Some CapEndpointsQuery
  | ReqAdminStatus | ReqAdminEndpoints | ReqAdminShutdown | ReqAdminTrust => None
  end.
Definition RequestedCapability_as_admin (c : RequestedCapability) : option AdminCapability :=
  match c with
  | ReqAdminStatus => Some CapStatus
  | ReqAdminEndpoints => Some CapEndpoints
  | ReqAdminShutdown => Some CapShutdown
  | ReqAdminTrust => Some CapTrust
  | ReqEvents | ReqCommands | ReqEndpointsQuery => None
  end.
#[global] Instance RequestedCapability_countable : Countable RequestedCapability.
Proof.
  refine (inj_countable (λ c, (RequestedCapability_as_data c, RequestedCapability_as_admin c))
    (λ da, match da with
           | (Some CapEvents, _) => Some ReqEvents | (Some CapCommands, _) => Some ReqCommands
           | (Some CapEndpointsQuery, _) => Some ReqEndpointsQuery | (_, Some CapStatus) => Some ReqAdminStatus
           | (_, Some CapEndpoints) => Some ReqAdminEndpoints | (_, Some CapShutdown) => Some ReqAdminShutdown
           | (_, Some CapTrust) => Some ReqAdminTrust | _ => None
           end) _).
  by intros [].
Defined.
Definition RequestedCapability_since_minor (c : RequestedCapability) : N :=
  match c with
  | ReqEvents | ReqCommands | ReqEndpointsQuery | ReqAdminStatus | ReqAdminEndpoints | ReqAdminShutdown => 0
  | ReqAdminTrust => 1
  end.
Definition RequestedCapability_available_at (c : RequestedCapability) (version : IpcVersion) : bool :=
  RequestedCapability_since_minor c <=? iv_minor version.

Record ClientInfo := MkClientInfo { ci_kind : bytes; ci_version : option bytes }.
Record EndpointClaim := MkEndpointClaim { ec_id : bytes }.
Record Hello := MkHello {
  hl_ipc_version : IpcVersion;
  hl_client : ClientInfo;
  hl_endpoint : option EndpointClaim;
  hl_requested_capabilities : gset RequestedCapability;
  hl_features : gset bytes
}.
Record HandshakeOutcome := MkHandshakeOutcome {
  ho_granted_data : gset DataCapability;
  ho_granted_admin : gset AdminCapability;
  ho_endpoint : option EndpointId
}.
(** [str::chars().count()] of a valid string: the bytes that begin a character. *)
Definition chars_count (s : bytes) : N := len (filter (λ b, utf8_cont b = false) s).
Definition Hello_capabilities_available_at (h : Hello) (version : IpcVersion) : bool :=
  forallb (λ c, RequestedCapability_available_at c version) (elements (hl_requested_capabilities h)).
Definition isSomeb {A} (o : option A) : bool := match o with Some _ => true | None => false end.
Definition claimed_endpoint (h : Hello) : result (option EndpointId) TransportError :=
  match hl_endpoint h with
  | None => Ok None
  | Some claim => e <-? map_err (λ _, TE_InvalidArgument) (EndpointId_parse (ec_id claim)); Ok (Some e)
  end.
Definition Hello_evaluate (h : Hello) (domain : AuthorityDomain) (keepalive_required_for_lease : bool) :
    result HandshakeOutcome TransportError :=
  if negb (iv_major (hl_ipc_version h) =? IPC_MAJOR) then Err TE_VersionIncompatible
  else
    let kind := chars_count (ci_kind (hl_client h)) in
    if (kind =? 0) || (MAX_CLIENT_KIND_CHARS <? kind) then Err TE_InvalidArgument
    else if (MAX_REQUESTED <? N.of_nat (size (hl_requested_capabilities h))) || (MAX_REQUESTED <? N.of_nat (size (hl_features h)))
    then Err TE_InvalidArgument
    else
      let wants_admin := existsb (λ c, isSomeb (RequestedCapability_as_admin c)) (elements (hl_requested_capabilities h)) in
      let wants_data := existsb (λ c, isSomeb (RequestedCapability_as_data c)) (elements (hl_requested_capabilities h)) in
      match domain with
      | DomainData =>
          claimed <-? claimed_endpoint h;
          if wants_admin : bool then Err TE_CapabilityDenied
          else if isSomeb (hl_endpoint h) && keepalive_required_for_lease && negb (bool_decide (FEATURE_KEEPALIVE ∈ hl_features h))
          then Err TE_CapabilityDenied
          else Ok (MkHandshakeOutcome (set_omap RequestedCapability_as_data (hl_requested_capabilities h)) ∅ claimed)
      | DomainAdmin =>
          if isSomeb (hl_endpoint h) then Err TE_CapabilityDenied
          else if wants_data : bool then Err TE_CapabilityDenied
          else Ok (MkHandshakeOutcome ∅ (set_omap RequestedCapability_as_admin (hl_requested_capabilities h)) None)
      end.

(** ** Slots *)

Record Counters := MkCounters {
  ct_data_connections : N;
  ct_admin_connections : N;
  ct_cross_domain_capability_denied : N;
  ct_peer_credential_refused : N
}.
(** [fetch_add] and [fetch_sub] on 64 bits. *)
Definition add_u64 (n : N) : N := (n + 1) mod 2 ^ 64.
Definition sub_u64 (n : N) : N := (n + (2 ^ 64 - 1)) mod 2 ^ 64.
Definition Counters_default : Counters := MkCounters 0 0 0 0.
Definition Counters_peer_credential_refused (c : Counters) : Counters :=
  MkCounters (ct_data_connections c) (ct_admin_connections c) (ct_cross_domain_capability_denied c)
    (add_u64 (ct_peer_credential_refused c)).
Definition Counters_cross_domain_denied (c : Counters) : Counters :=
  MkCounters (ct_data_connections c) (ct_admin_connections c) (add_u64 (ct_cross_domain_capability_denied c))
    (ct_peer_credential_refused c).
Definition Counters_open (f : N → N) (c : Counters) (domain : AuthorityDomain) : Counters :=
  match domain with
  | DomainData => MkCounters (f (ct_data_connections c)) (ct_admin_connections c) (ct_cross_domain_capability_denied c)
                    (ct_peer_credential_refused c)
  | DomainAdmin => MkCounters (ct_data_connections c) (f (ct_admin_connections c)) (ct_cross_domain_capability_denied c)
                     (ct_peer_credential_refused c)
  end.
Definition Counters_opened : Counters → AuthorityDomain → Counters := Counters_open add_u64.
Definition Counters_closed : Counters → AuthorityDomain → Counters := Counters_open sub_u64.

Record IpcLimits := MkIpcLimits { il_max_clients : N; il_max_admin_clients : N }.
Definition IpcLimits_default : IpcLimits := MkIpcLimits 16 4.
Inductive Refusal := PeerCredential | SlotsFull.
(** The mutex makes each operation one step. *)
Record Slots := MkSlots { st_limits : IpcLimits; st_held : N * N; st_counters : Counters }.
Definition Slots_new (limits : IpcLimits) (counters : Counters) : Slots := MkSlots limits (0, 0) counters.
(** A held slot is its domain; the answer [Ok] hands one out. *)
Definition Slots_admit (s : Slots) (peer_uid : option N) (owner_uid : N) (domain : AuthorityDomain) :
    result AuthorityDomain Refusal * Slots :=
  if negb (bool_decide (peer_uid = Some owner_uid))
  then (Err PeerCredential, MkSlots (st_limits s) (st_held s) (Counters_peer_credential_refused (st_counters s)))
  else
    let '(total, admin) := st_held s in
    let admin_full := bool_decide (domain = DomainAdmin) && (il_max_admin_clients (st_limits s) <=? admin) in
    if (il_max_clients (st_limits s) <=? total) || admin_full then (Err SlotsFull, s)
    else
      (Ok domain,
       MkSlots (st_limits s) (total + 1, if bool_decide (domain = DomainAdmin) then admin + 1 else admin)
         (Counters_opened (st_counters s) domain)).
Definition Slot_drop (s : Slots) (domain : AuthorityDomain) : Slots :=
  let '(total, admin) := st_held s in
  MkSlots (st_limits s) (sat_sub total 1, if bool_decide (domain = DomainAdmin) then sat_sub admin 1 else admin)
    (Counters_closed (st_counters s) domain).

(** ** Keepalive *)

Record KeepalivePolicy := MkKeepalivePolicy {
  kpl_enabled : bool;
  kpl_required_for_lease : bool;
  kpl_interval : N;
  kpl_response_timeout : N;
  kpl_max_missed : N
}.
Definition KeepalivePolicy_default : KeepalivePolicy := MkKeepalivePolicy true true 30000 10000 3.
Inductive KeepaliveAction := KaNothing | KaProbe (nonce : bytes) | KaClose.
(** Instants and durations are milliseconds of a clock that does not end. *)
Record Keepalive := MkKeepalive {
  ka_policy : KeepalivePolicy;
  ka_outstanding : option (bytes * N);
  ka_missed : N;
  ka_next_probe : N
}.
Definition Keepalive_new (policy : KeepalivePolicy) (now : N) : Keepalive :=
  MkKeepalive policy None 0 (now + kpl_interval policy).
Definition Keepalive_next_wake (k : Keepalive) : N :=
  match ka_outstanding k with
  | None => ka_next_probe k
  | Some (_, sent) => sent + kpl_response_timeout (ka_policy k)
  end.
(** The end of [wake]: a probe, when one is due. [nonce] is what [mint] returns. *)
Definition probe_if_due (k : Keepalive) (now : N) (nonce : bytes) : KeepaliveAction * Keepalive :=
  if now <? ka_next_probe k then (KaNothing, k)
  else (KaProbe nonce, MkKeepalive (ka_policy k) (Some (nonce, now)) (ka_missed k) (now + kpl_interval (ka_policy k))).
Definition Keepalive_wake (k : Keepalive) (now : N) (nonce : bytes) : KeepaliveAction * Keepalive :=
  match ka_outstanding k with
  | Some (_, sent) =>
      if now <? sent + kpl_response_timeout (ka_policy k) then (KaNothing, k)
      else
        let k := MkKeepalive (ka_policy k) None (ka_missed k + 1) (ka_next_probe k) in
        if kpl_max_missed (ka_policy k) <=? ka_missed k then (KaClose, k) else probe_if_due k now nonce
  | None => probe_if_due k now nonce
  end.
Definition Keepalive_pong (k : Keepalive) (pong : bytes) : Keepalive :=
  match ka_outstanding k with
  | Some (nonce, _) =>
      if bool_decide (nonce = pong) then MkKeepalive (ka_policy k) None 0 (ka_next_probe k) else k
  | None => k
  end.
