(* ===== verification/IpcFacts.v ===== *)
(** * The local socket, proved

    Frames survive any splitting of the stream, the reader holds a bounded buffer,
    a socket's authority is its own, slots are exact, and a silent client is
    closed on time. *)
From S2P Require Import Prelude Ids Payload Registry Ipc.
Local Open Scope N_scope.

Section frames.
Variable json : bytes → result bool bytes.

Lemma ipc_decode_inv (buffer body : bytes) (n : N) : decode_frame json buffer = Ok (MkDecodedFrame body n) →
  utf8_valid body = true ∧ ∃ frame rest, encode_frame json body = Ok frame ∧ buffer = frame ++ rest ∧ n = len frame.
Proof.
  unfold decode_frame, encode_frame. cbn zeta. destruct (N.ltb_spec (len buffer) LENGTH_PREFIX_BYTES) as [|Hp]; [done|].
  set (declared := from_be (ntake LENGTH_PREFIX_BYTES buffer)) in *.
  destruct (N.eqb_spec declared 0) as [|Hz]; [done|]. destruct (N.ltb_spec MAX_BODY_BYTES declared) as [|Hm]; [done|].
  destruct (N.ltb_spec (len buffer) (LENGTH_PREFIX_BYTES + declared)) as [|Ht]; [done|].
  set (text := ntake declared (ndrop LENGTH_PREFIX_BYTES buffer)). destruct (utf8_valid text) eqn:Eu; cbn [negb]; [|done].
  intros (object & Hj & H)%result_bind_Ok. destruct object; cbn [negb] in H; [|done]. injection H as <- <-. split; [done|].
  assert (len text = declared) as Hl by (apply len_ntake; rewrite len_ndrop; lia).
  assert (len (ntake LENGTH_PREFIX_BYTES buffer) = LENGTH_PREFIX_BYTES) as Hpre by by apply len_ntake.
  exists (ntake LENGTH_PREFIX_BYTES buffer ++ text), (ndrop declared (ndrop LENGTH_PREFIX_BYTES buffer)). split_and!.
  - rewrite Hl. destruct (N.eqb_spec declared 0); [done|]. destruct (N.ltb_spec MAX_BODY_BYTES declared); [lia|].
    rewrite Hj. cbn [result_bind negb]. destruct (N.ltb_spec u32_max declared); [unfold MAX_BODY_BYTES, u32_max in *; lia|].
    unfold declared. by rewrite to_be_from_be_len.
  - by rewrite -app_assoc /text !ntake_ndrop.
  - by rewrite len_app Hl Hpre.
Qed.
Lemma ipc_decode_encode (body frame rest : bytes) : utf8_valid body = true → encode_frame json body = Ok frame →
  decode_frame json (frame ++ rest) = Ok (MkDecodedFrame body (len frame)).
Proof.
  intros Hu. unfold decode_frame, encode_frame. cbn zeta. destruct (N.eqb_spec (len body) 0) as [|Hz]; [done|].
  destruct (N.ltb_spec MAX_BODY_BYTES (len body)) as [|Hm]; [done|]. intros (object & Hj & H)%result_bind_Ok.
  destruct object; cbn [negb] in H; [|done]. destruct (u32_max <? len body); [done|]. injection H as <-.
  rewrite -app_assoc. assert (len (to_be 4 (len body)) = LENGTH_PREFIX_BYTES) as Hp by by rewrite len_to_be.
  assert (ntake LENGTH_PREFIX_BYTES (to_be 4 (len body) ++ body ++ rest) = to_be 4 (len body)) as E1 by (rewrite -Hp; apply ntake_len_app).
  assert (ndrop LENGTH_PREFIX_BYTES (to_be 4 (len body) ++ body ++ rest) = body ++ rest) as E2 by (rewrite -Hp; apply ndrop_len_app).
  assert (len body < 256 ^ N.of_nat 4) as Hb by (unfold MAX_BODY_BYTES in Hm; change (256 ^ N.of_nat 4) with 4294967296; lia).
  pose proof (from_be_to_be 4 (len body) Hb) as Hf. revert Hp E1 E2 Hf. generalize (to_be 4 (len body)). intros pre Hp E1 E2 Hf.
  rewrite E1 E2 Hf !len_app Hp ntake_len_app.
  destruct (N.ltb_spec (LENGTH_PREFIX_BYTES + (len body + len rest)) LENGTH_PREFIX_BYTES); [lia|].
  destruct (N.eqb_spec (len body) 0); [done|]. destruct (N.ltb_spec MAX_BODY_BYTES (len body)); [lia|].
  destruct (N.ltb_spec (LENGTH_PREFIX_BYTES + (len body + len rest)) (LENGTH_PREFIX_BYTES + len body)); [lia|].
  rewrite Hu. cbn [negb]. by rewrite Hj.
Qed.
(** a frame decodes to a body exactly when it is that body's encoding. Whatever
    follows it, a buffer decodes to a body and a length if and only if the body is
    a text, its encoding has that length, and the buffer begins with it. *)
Theorem ipc_frame_decode_iff (buffer body : bytes) (n : N) :
  decode_frame json buffer = Ok (MkDecodedFrame body n) ↔
  utf8_valid body = true ∧ ∃ frame rest, encode_frame json body = Ok frame ∧ buffer = frame ++ rest ∧ n = len frame.
Proof. split; [apply ipc_decode_inv|]. intros (Hu & frame & rest & He & -> & ->). by apply ipc_decode_encode. Qed.

(** *** The stream *)

(** What is decided of a buffer stays decided when more arrives. *)
Definition decided (r : result DecodedFrame IpcFrameError) : Prop := ∀ n, r ≠ Err (Incomplete n).
Lemma prefix_take n (a b : bytes) : n ≤ len a → ntake n (a ++ b) = ntake n a.
Proof. intros H. unfold ntake, len in *. apply take_app_le. lia. Qed.
Lemma drop_app_le n (a b : bytes) : n ≤ len a → ndrop n (a ++ b) = ndrop n a ++ b.
Proof. intros H. unfold ndrop, len in *. apply drop_app_le. lia. Qed.
Lemma decode_more a b : decided (decode_frame json a) → decode_frame json (a ++ b) = decode_frame json a.
Proof.
  unfold decided, decode_frame. cbn zeta. intros Hd. rewrite len_app.
  destruct (N.ltb_spec (len a) LENGTH_PREFIX_BYTES) as [H1|H1]; [by destruct (Hd (LENGTH_PREFIX_BYTES - len a))|].
  destruct (N.ltb_spec (len a + len b) LENGTH_PREFIX_BYTES) as [|_]; [lia|]. rewrite prefix_take //.
  set (declared := from_be (ntake LENGTH_PREFIX_BYTES a)) in *. destruct (declared =? 0); [done|]. destruct (MAX_BODY_BYTES <? declared); [done|].
  destruct (N.ltb_spec (len a) (LENGTH_PREFIX_BYTES + declared)) as [H2|H2]; [by destruct (Hd (LENGTH_PREFIX_BYTES + declared - len a))|].
  destruct (N.ltb_spec (len a + len b) (LENGTH_PREFIX_BYTES + declared)) as [|_]; [lia|].
  rewrite drop_app_le // prefix_take //. rewrite len_ndrop. lia.
Qed.
Lemma decode_consumed a f : decode_frame json a = Ok f → df_consumed f ≤ len a.
Proof.
  destruct f as [body n]. intros (_ & frame & rest & _ & -> & ->)%ipc_decode_inv. cbn. rewrite len_app. lia.
Qed.
(** The reader, told all the bytes at once. *)
Definition next_whole (all : bytes) : result (option bytes) IpcReadError * bytes :=
  match decode_frame json all with
  | Ok f => (Ok (Some (df_body f)), ndrop (df_consumed f) all)
  | Err (Incomplete _) => (if len all =? 0 then Ok None else Err Truncated, all)
  | Err e => (Err (ReadFrame e), all)
  end.
Definition bytes_of (inner : Reads) : bytes := concat (omap (λ r, match r with Ok c => Some c | Err _ => None end) inner).
(** Reads that bring bytes. *)
Definition flowing (inner : Reads) : Prop := Forall (λ r, ∃ c, r = Ok c ∧ c ≠ []) inner.
Lemma next_loop_whole inner buf : flowing inner →
  let '(answer, r) := next_loop json inner buf in
  (answer, fr_buf r ++ bytes_of (fr_inner r)) = next_whole (buf ++ bytes_of inner) ∧ flowing (fr_inner r).
Proof.
  intros Hf. revert buf. induction Hf as [|? inner (c & -> & Hc) Hf IH]; intros buf.
  - unfold bytes_of. cbn [omap list_omap concat]. rewrite app_nil_r. unfold next_whole. cbn [next_loop].
    destruct (decode_frame json buf) as [f|[]]; cbn; by rewrite ?app_nil_r; split; [|constructor].
  - assert (bytes_of (Ok c :: inner) = c ++ bytes_of inner) as Eb by done. assert (len c =? 0 = false) as Ec by (apply N.eqb_neq; by intros ?%len_zero).
    assert (decided (decode_frame json buf) → decode_frame json (buf ++ bytes_of (Ok c :: inner)) = decode_frame json buf) as Hm by apply decode_more.
    assert (flowing (Ok c :: inner)) as Hall by (constructor; [by exists c|done]). unfold decided in Hm. cbn [next_loop]. rewrite Ec.
    destruct (decode_frame json buf) as [f|e] eqn:E.
    { unfold next_whole. rewrite Hm //. cbn [fr_buf fr_inner]. rewrite drop_app_le; [done|by apply decode_consumed]. }
    destruct e; try (unfold next_whole; rewrite Hm //; done). rewrite Eb app_assoc. apply IH.
Qed.
Fixpoint read_frames (rounds : nat) (r : FrameReader) : list (result (option bytes) IpcReadError) :=
  match rounds with
  | O => []
  | S rounds => let '(answer, r) := FrameReader_next json r in answer :: read_frames rounds r
  end.
(** The same, over the bytes at once. *)
Fixpoint read_whole (rounds : nat) (all : bytes) : list (result (option bytes) IpcReadError) :=
  match rounds with
  | O => []
  | S rounds => let '(answer, all) := next_whole all in answer :: read_whole rounds all
  end.
Lemma read_frames_whole rounds r : flowing (fr_inner r) → read_frames rounds r = read_whole rounds (fr_buf r ++ bytes_of (fr_inner r)).
Proof.
  revert r. induction rounds as [|rounds IH]; intros r Hf; [done|]. cbn [read_frames read_whole]. unfold FrameReader_next.
  pose proof (next_loop_whole (fr_inner r) (fr_buf r) Hf) as H. destruct (next_loop json (fr_inner r) (fr_buf r)) as [answer r'].
  destruct H as [<- Hf']. by rewrite IH.
Qed.
(** how a stream is cut into reads is invisible. Two connections that deliver the
    same bytes, in any two divisions into reads, give the same answers to any
    number of calls, errors and the end of the stream included. *)
Theorem ipc_chunking_invisible (reads1 reads2 : Reads) (rounds : nat) :
  flowing reads1 → flowing reads2 → bytes_of reads1 = bytes_of reads2 →
  read_frames rounds (FrameReader_new reads1) = read_frames rounds (FrameReader_new reads2).
Proof. intros H1 H2 E. rewrite !read_frames_whole //. cbn [FrameReader_new fr_buf fr_inner]. by rewrite E. Qed.

(** [bodies] and the frames that carry them. *)
Definition carries (bodies frames : list bytes) : Prop :=
  Forall2 (λ body frame, utf8_valid body = true ∧ encode_frame json body = Ok frame) bodies frames.
(** the reader returns what was sent. Whatever bodies are encoded one after the
    other and however the socket cuts the bytes, successive calls return the bodies
    in their order and then the clean end of the stream. *)
Theorem ipc_stream_roundtrip (bodies frames : list bytes) (reads : Reads) :
  carries bodies frames → flowing reads → bytes_of reads = concat frames →
  read_frames (S (length bodies)) (FrameReader_new reads) = ((λ b, Ok (Some b)) <$> bodies) ++ [Ok None].
Proof.
  intros Hc Hf Hb. rewrite read_frames_whole //. cbn [FrameReader_new fr_buf fr_inner app]. rewrite Hb. clear Hf Hb reads.
  induction Hc as [|body frame bodies frames [Hu He] Hc IH]; [done|]. cbn [length concat]. 
  change (read_whole (S (S (length bodies))) (frame ++ concat frames)) with
    (let '(answer, all) := next_whole (frame ++ concat frames) in answer :: read_whole (S (length bodies)) all).
  unfold next_whole. rewrite (ipc_decode_encode body frame (concat frames) Hu He). cbn [df_body df_consumed].
  rewrite ndrop_len_app IH. done.
Qed.

(** The reader never holds more than a frame at its ceiling and one read. *)
Definition BUFFER_CEILING : N := LENGTH_PREFIX_BYTES + MAX_BODY_BYTES + 8192.
Lemma incomplete_bound buf n : decode_frame json buf = Err (Incomplete n) → len buf < LENGTH_PREFIX_BYTES + MAX_BODY_BYTES.
Proof.
  unfold decode_frame. cbn zeta. destruct (N.ltb_spec (len buf) LENGTH_PREFIX_BYTES); [unfold MAX_BODY_BYTES; lia|].
  set (declared := from_be _). destruct (declared =? 0); [done|]. destruct (N.ltb_spec MAX_BODY_BYTES declared); [done|].
  destruct (N.ltb_spec (len buf) (LENGTH_PREFIX_BYTES + declared)) as [Hl|]; [lia|]. destruct (negb _); [done|].
  destruct (json _) as [[]|]; done.
Qed.
(** What one read of the code's buffer can bring. *)
Definition in_chunks (inner : Reads) : Prop := Forall (λ r, ∀ c, r = Ok c → len c ≤ 8192) inner.
Lemma next_bound inner buf : in_chunks inner → len buf ≤ BUFFER_CEILING →
  len (fr_buf (next_loop json inner buf).2) ≤ BUFFER_CEILING ∧ in_chunks (fr_inner (next_loop json inner buf).2).
Proof.
  intros Hi. revert buf. induction Hi as [|r inner Hr Hi IH]; intros buf Hb; cbn [next_loop].
  - destruct (decode_frame json buf) as [f|[]]; cbn; try (split; [done|constructor]). split; [rewrite len_ndrop; lia|constructor].
  - assert (in_chunks (r :: inner)) as Hall by by constructor.
    destruct (decode_frame json buf) as [f|e] eqn:E; [cbn; split; [rewrite len_ndrop; lia|done]|]. destruct e; try done.
    apply incomplete_bound in E. destruct r as [c|[]]; [|done]. destruct (len c =? 0); [done|]. apply IH. rewrite len_app.
    specialize (Hr c eq_refl). unfold BUFFER_CEILING. lia.
Qed.
(** The reader after [rounds] calls, whatever they answered. *)
Definition after_calls (rounds : nat) (r : FrameReader) : FrameReader := Nat.iter rounds (λ r, (FrameReader_next json r).2) r.
(** a hostile peer costs a bounded buffer. Whatever arrives, failed reads and
    frames that are not frames included, after any number of calls the reader holds
    at most the largest frame and one read of its eight-kibibyte chunk, however
    long a length the peer declares. *)
Theorem ipc_reader_bounded (reads : Reads) (rounds : nat) :
  in_chunks reads → len (fr_buf (after_calls rounds (FrameReader_new reads))) ≤ BUFFER_CEILING.
Proof.
  intros Hr. assert (len (fr_buf (after_calls rounds (FrameReader_new reads))) ≤ BUFFER_CEILING ∧ in_chunks (fr_inner (after_calls rounds (FrameReader_new reads)))) as [H _]; [|done].
  induction rounds as [|rounds [IH1 IH2]]; [done|]. by apply next_bound.
Qed.
End frames.

(** A parser that takes what begins with a brace for an object. *)
Definition brace (text : bytes) : result bool bytes := Ok (match text with c :: _ => bool_decide (c = "{"%byte) | [] => false end).
Definition two_frames : bytes := to_be 4 2 ++ bs "{}" ++ to_be 4 3 ++ bs "{ }".
Lemma ipc_chunking_invisible_witness :
  read_frames brace 3 (FrameReader_new [Ok (ntake 1 two_frames); Ok (ndrop 1 two_frames)]) =
  read_frames brace 3 (FrameReader_new [Ok (ntake 7 two_frames); Ok (ndrop 7 two_frames)]).
Proof.
  apply (ipc_chunking_invisible brace _ _ 3).
  - repeat constructor; by eexists.
  - repeat constructor; by eexists.
  - vm_compute. reflexivity.
Defined.
Lemma ipc_reader_bounded_witness :
  len (fr_buf (after_calls brace 3 (FrameReader_new [Ok (to_be 4 131073); Err (); Ok (bs "{")]))) ≤ BUFFER_CEILING.
Proof.
  apply (ipc_reader_bounded brace [Ok (to_be 4 131073); Err (); Ok (bs "{")] 3).
  repeat constructor; intros c Hc; simplify_eq; vm_compute; done.
Defined.
Lemma ipc_stream_roundtrip_witness :
  read_frames brace 3 (FrameReader_new [Ok (ntake 7 two_frames); Ok (ndrop 7 two_frames)]) = [Ok (Some (bs "{}")); Ok (Some (bs "{ }")); Ok None].
Proof.
  apply (ipc_stream_roundtrip brace [bs "{}"; bs "{ }"] [to_be 4 2 ++ bs "{}"; to_be 4 3 ++ bs "{ }"]).
  - repeat constructor; vm_compute; reflexivity.
  - repeat constructor; by eexists.
  - vm_compute. reflexivity.
Defined.

(** ** The hello *)

(** Every condition a hello meets on the socket [domain]. *)
Definition hello_admissible (h : Hello) (domain : AuthorityDomain) (keepalive_required : bool) : Prop :=
  iv_major (hl_ipc_version h) = IPC_MAJOR ∧
  0 < chars_count (ci_kind (hl_client h)) ≤ MAX_CLIENT_KIND_CHARS ∧
  N.of_nat (size (hl_requested_capabilities h)) ≤ MAX_REQUESTED ∧ N.of_nat (size (hl_features h)) ≤ MAX_REQUESTED ∧
  match domain with
  | DomainData =>
      (∀ c, c ∈ hl_requested_capabilities h → is_Some (RequestedCapability_as_data c)) ∧
      (∀ claim, hl_endpoint h = Some claim → is_ok (EndpointId_parse (ec_id claim)) = true ∧
         (keepalive_required = true → FEATURE_KEEPALIVE ∈ hl_features h))
  | DomainAdmin =>
      (∀ c, c ∈ hl_requested_capabilities h → is_Some (RequestedCapability_as_admin c)) ∧ hl_endpoint h = None
  end.
Lemma data_or_admin c : isSomeb (RequestedCapability_as_admin c) = negb (isSomeb (RequestedCapability_as_data c)).
Proof. by destruct c. Qed.
Lemma wants_none (f : RequestedCapability → bool) (s : gset RequestedCapability) :
  existsb f (elements s) = false ↔ ∀ c, c ∈ s → f c = false.
Proof.
  rewrite -not_true_iff_false existsb_exists. split.
  - intros H c Hc. apply not_true_iff_false. intros Hf. apply H. exists c. split; [|done]. by apply list_elem_of_In, elem_of_elements.
  - intros H (c & Hc%list_elem_of_In%elem_of_elements & Hf). by rewrite (H c Hc) in Hf.
Qed.
Lemma only_data (s : gset RequestedCapability) : existsb (λ c, isSomeb (RequestedCapability_as_admin c)) (elements s) = false ↔
  ∀ c, c ∈ s → is_Some (RequestedCapability_as_data c).
Proof.
  rewrite wants_none. split; intros H c Hc; specialize (H c Hc); revert H; rewrite data_or_admin;
    destruct (RequestedCapability_as_data c); cbn; naive_solver.
Qed.
Lemma only_admin (s : gset RequestedCapability) : existsb (λ c, isSomeb (RequestedCapability_as_data c)) (elements s) = false ↔
  ∀ c, c ∈ s → is_Some (RequestedCapability_as_admin c).
Proof. rewrite wants_none. split; intros H c Hc; specialize (H c Hc); revert H; destruct c; cbn; naive_solver. Qed.
Lemma evaluate_checks h : 
  (iv_major (hl_ipc_version h) = IPC_MAJOR ∧ 0 < chars_count (ci_kind (hl_client h)) ≤ MAX_CLIENT_KIND_CHARS ∧
   N.of_nat (size (hl_requested_capabilities h)) ≤ MAX_REQUESTED ∧ N.of_nat (size (hl_features h)) ≤ MAX_REQUESTED) ↔
  (iv_major (hl_ipc_version h) =? IPC_MAJOR) = true ∧
  ((chars_count (ci_kind (hl_client h)) =? 0) || (MAX_CLIENT_KIND_CHARS <? chars_count (ci_kind (hl_client h)))) = false ∧
  ((MAX_REQUESTED <? N.of_nat (size (hl_requested_capabilities h))) || (MAX_REQUESTED <? N.of_nat (size (hl_features h)))) = false.
Proof. rewrite N.eqb_eq !orb_false_iff N.eqb_neq !N.ltb_ge. lia. Qed.
(** Close the case of a hello that fails a check every socket makes. *)
Ltac unmet Hc :=
  split; [done|]; intros ((A1 & A2 & A3 & A4 & _) & _); by destruct (proj1 Hc (conj A1 (conj A2 (conj A3 A4)))) as (? & ? & ?).
Lemma evaluate_data h kr o : Hello_evaluate h DomainData kr = Ok o ↔
  hello_admissible h DomainData kr ∧ claimed_endpoint h = Ok (ho_endpoint o) ∧ ho_granted_admin o = ∅ ∧
  ho_granted_data o = set_omap RequestedCapability_as_data (hl_requested_capabilities h).
Proof.
  pose proof (evaluate_checks h) as Hc. pose proof (only_data (hl_requested_capabilities h)) as Hd.
  unfold hello_admissible, Hello_evaluate. cbn zeta.
  assert (∀ claim, hl_endpoint h = Some claim → is_ok (EndpointId_parse (ec_id claim)) = is_ok (claimed_endpoint h)) as He.
  { intros claim E. unfold claimed_endpoint. rewrite E. by destruct (EndpointId_parse (ec_id claim)). }
  destruct (iv_major (hl_ipc_version h) =? IPC_MAJOR); cbn [negb]; [|unmet Hc].
  destruct ((_ =? 0) || _); [unmet Hc|]. destruct ((MAX_REQUESTED <? N.of_nat (size (hl_requested_capabilities h))) || _); [unmet Hc|].
  destruct (proj2 Hc) as (C1 & C2 & C3 & C4); [done|]. destruct (claimed_endpoint h) as [claimed|e] eqn:Ec; cbn [result_bind]; [|naive_solver].
  destruct (existsb _ _); [split; [done|]; intros ((_ & _ & _ & _ & D & _) & _); by apply Hd in D|].
  destruct (hl_endpoint h) as [claim|] eqn:Eh; cbn [isSomeb andb].
  - destruct kr; cbn [andb].
    + case_bool_decide as Hk; cbn [negb]; [|naive_solver]. specialize (He claim eq_refl). cbn in He. rewrite -Hd. destruct o. naive_solver.
    + specialize (He claim eq_refl). cbn in He. rewrite -Hd. destruct o. naive_solver.
  - rewrite -Hd. destruct o. naive_solver.
Qed.
Lemma evaluate_admin h kr o : Hello_evaluate h DomainAdmin kr = Ok o ↔
  hello_admissible h DomainAdmin kr ∧ ho_endpoint o = None ∧ ho_granted_data o = ∅ ∧
  ho_granted_admin o = set_omap RequestedCapability_as_admin (hl_requested_capabilities h).
Proof.
  pose proof (evaluate_checks h) as Hc. pose proof (only_admin (hl_requested_capabilities h)) as Hd.
  unfold hello_admissible, Hello_evaluate. cbn zeta.
  destruct (iv_major (hl_ipc_version h) =? IPC_MAJOR); cbn [negb]; [|unmet Hc].
  destruct ((_ =? 0) || _); [unmet Hc|]. destruct ((MAX_REQUESTED <? N.of_nat (size (hl_requested_capabilities h))) || _); [unmet Hc|].
  destruct (proj2 Hc) as (C1 & C2 & C3 & C4); [done|]. destruct (hl_endpoint h) as [claim|] eqn:Eh; cbn [isSomeb]; [naive_solver|].
  destruct (existsb _ _); [split; [done|]; intros ((_ & _ & _ & _ & D & _) & _); by apply Hd in D|].
  rewrite -Hd. destruct o. naive_solver.
Qed.
(** a socket's authority is its own. A hello is granted on a socket exactly when
    every condition of that socket holds; on the data socket it is then granted
    the data capabilities it asked for and no administrative one, with the endpoint
    it claimed, and on the administrative socket the administrative ones it asked
    for, no data capability and no endpoint. *)
Theorem hello_exact (h : Hello) (domain : AuthorityDomain) (keepalive_required : bool) (o : HandshakeOutcome) :
  Hello_evaluate h domain keepalive_required = Ok o ↔
  hello_admissible h domain keepalive_required ∧
  match domain with
  | DomainData =>
      (∀ d, d ∈ ho_granted_data o ↔ ∃ c, c ∈ hl_requested_capabilities h ∧ RequestedCapability_as_data c = Some d) ∧
      ho_granted_admin o = ∅ ∧ claimed_endpoint h = Ok (ho_endpoint o)
  | DomainAdmin =>
      ho_granted_data o = ∅ ∧ ho_endpoint o = None ∧
      (∀ a, a ∈ ho_granted_admin o ↔ ∃ c, c ∈ hl_requested_capabilities h ∧ RequestedCapability_as_admin c = Some a)
  end.
Proof.
  destruct domain.
  - rewrite evaluate_data. split.
    + intros (H1 & H2 & H3 & H4). split_and!; [done| |done|done]. intros d. rewrite H4. by rewrite elem_of_set_omap.
    + intros (H1 & H2 & H3 & H4). split_and!; [done|done|done|]. apply set_eq. intros d. rewrite H2. by rewrite elem_of_set_omap.
  - rewrite evaluate_admin. split.
    + intros (H1 & H2 & H3 & H4). split_and!; [done|done|done|]. intros d. rewrite H4. by rewrite elem_of_set_omap.
    + intros (H1 & H2 & H3 & H4). split_and!; [done|done|done|]. apply set_eq. intros d. rewrite H4. by rewrite elem_of_set_omap.
Qed.

(** ** Slots *)

Inductive slot_op :=
| SlAdmit (peer_uid : option N) (owner_uid : N) (domain : AuthorityDomain)
| SlDrop (domain : AuthorityDomain).
(** The slots and the connections that hold one, by domain; only a connection that
    holds a slot can drop it. *)
Definition slot_step (w : Slots * list AuthorityDomain) (op : slot_op) : Slots * list AuthorityDomain :=
  let '(s, live) := w in
  match op with
  | SlAdmit peer owner domain =>
      match Slots_admit s peer owner domain with
      | (Ok slot, s) => (s, slot :: live)
      | (Err _, s) => (s, live)
      end
  | SlDrop domain =>
      match list_find (λ d, d = domain) live with
      | Some (i, _) => (Slot_drop s domain, delete i live)
      | None => (s, live)
      end
  end.
Definition admins (live : list AuthorityDomain) : N := len (filter (λ d, d = DomainAdmin) live).
Definition datas (live : list AuthorityDomain) : N := len (filter (λ d, d = DomainData) live).
Record slots_inv (w : Slots * list AuthorityDomain) : Prop := MkSlotsInv {
  si_held : st_held w.1 = (len w.2, admins w.2);
  si_total : len w.2 ≤ il_max_clients (st_limits w.1);
  si_admin : admins w.2 ≤ il_max_admin_clients (st_limits w.1);
  si_data_count : ct_data_connections (st_counters w.1) = datas w.2;
  si_admin_count : ct_admin_connections (st_counters w.1) = admins w.2
}.
Lemma live_split live : len live = datas live + admins live.
Proof.
  unfold datas, admins. induction live as [|[] live IH]; [done| |]; rewrite len_cons.
  - rewrite filter_cons_True // [filter (λ d, d = DomainAdmin) _]filter_cons_False // len_cons. lia.
  - rewrite filter_cons_False // [filter (λ d, d = DomainAdmin) _]filter_cons_True // len_cons. lia.
Qed.
Lemma live_delete live i d : live !! i = Some d →
  len live = 1 + len (delete i live) ∧
  admins live = (if bool_decide (d = DomainAdmin) then 1 else 0) + admins (delete i live) ∧
  datas live = (if bool_decide (d = DomainData) then 1 else 0) + datas (delete i live).
Proof.
  intros Hi. pose proof (delete_Permutation live i d Hi) as Hp.
  assert (∀ (P : AuthorityDomain → Prop) `{∀ x, Decision (P x)}, len (filter P live) = (if bool_decide (P d) then 1 else 0) + len (filter P (delete i live))) as H.
  { intros P HP. unfold len. rewrite {1}Hp. destruct (decide (P d)) as [Hd|Hd].
    - rewrite filter_cons_True // bool_decide_true // length_cons. lia.
    - rewrite filter_cons_False // bool_decide_false //. }
  split; [unfold len; rewrite {1}Hp length_cons; lia|]. split; apply H.
Qed.
Lemma live_cons d live :
  admins (d :: live) = (if bool_decide (d = DomainAdmin) then 1 else 0) + admins live ∧
  datas (d :: live) = (if bool_decide (d = DomainData) then 1 else 0) + datas live.
Proof. unfold admins, datas. rewrite !filter_cons. destruct d; cbn; by rewrite ?len_cons. Qed.
(** Decide which of the two domains is meant. *)
Ltac domains :=
  change (bool_decide (DomainData = DomainAdmin)) with false in *; change (bool_decide (DomainData = DomainData)) with true in *;
  change (bool_decide (DomainAdmin = DomainAdmin)) with true in *; change (bool_decide (DomainAdmin = DomainData)) with false in *;
  cbn [andb] in *.
Lemma u64_up n : n < u64_max → add_u64 n = n + 1.
Proof. intros H. unfold add_u64. apply N.mod_small. unfold u64_max in H. lia. Qed.
Lemma u64_down n : n < u64_max → sub_u64 (n + 1) = n.
Proof.
  intros H. unfold sub_u64, u64_max in *. replace (n + 1 + (2 ^ 64 - 1)) with (n + 1 * 2 ^ 64) by lia.
  rewrite N.Div0.mod_add. apply N.mod_small. lia.
Qed.
Lemma slot_admit_inv s live peer owner domain : il_max_clients (st_limits s) < u64_max → slots_inv (s, live) →
  slots_inv (slot_step (s, live) (SlAdmit peer owner domain)) ∧
  st_limits (slot_step (s, live) (SlAdmit peer owner domain)).1 = st_limits s.
Proof.
  intros Hm [H1 H2 H3 H4 H5]. cbn [fst snd] in *. pose proof (live_split live) as Hs. cbn [slot_step].
  unfold Slots_admit. destruct (negb _); [done|]. rewrite H1.
  destruct (N.leb_spec (il_max_clients (st_limits s)) (len live)) as [|Hl]; [done|]. cbn [orb].
  destruct (bool_decide (domain = DomainAdmin) && (il_max_admin_clients (st_limits s) <=? admins live)) eqn:Ea; [done|].
  split; [|done]. destruct (live_cons domain live) as [Ca Cd].
  destruct domain; domains; constructor; cbn [fst snd]; rewrite ?len_cons ?Ca ?Cd; cbn [st_limits st_held st_counters]; try apply N.leb_gt in Ea;
    try lia; cbn; try (f_equal; lia); rewrite ?H4 ?H5 ?u64_up; lia.
Qed.
Lemma slot_drop_inv s live domain : il_max_clients (st_limits s) < u64_max → slots_inv (s, live) →
  slots_inv (slot_step (s, live) (SlDrop domain)) ∧ st_limits (slot_step (s, live) (SlDrop domain)).1 = st_limits s.
Proof.
  intros Hm [H1 H2 H3 H4 H5]. cbn [fst snd] in *. pose proof (live_split live) as Hs. cbn [slot_step].
  destruct (list_find (λ d, d = domain) live) as [[i d]|] eqn:E; [|done]. apply list_find_Some in E as (Hi & -> & _).
  destruct (live_delete live i domain Hi) as (D1 & D2 & D3). split; [|by unfold Slot_drop; destruct (st_held s)].
  unfold Slot_drop. rewrite H1. unfold sat_sub.
  destruct domain; domains; constructor; cbn [fst snd st_limits st_held st_counters]; try lia; cbn; try (f_equal; lia);
    rewrite ?H4 ?H5 ?D2 ?D3 ?[1 + _]N.add_comm ?u64_down; lia.
Qed.
Lemma slot_step_inv w op : il_max_clients (st_limits w.1) < u64_max → slots_inv w →
  slots_inv (slot_step w op) ∧ st_limits (slot_step w op).1 = st_limits w.1.
Proof. destruct w as [s live], op; [apply slot_admit_inv|apply slot_drop_inv]. Qed.
(** connection slots are exact. Over any history of connections admitted, refused
    and gone, on both sockets, the slots held are the connections alive: never more
    than the ceiling, nor than the administrative ceiling for administrative ones,
    and the reported counts are theirs. A connection is admitted exactly when its
    process belongs to the owner and both ceilings leave room. *)
Theorem slots_exact (limits : IpcLimits) (ops : list slot_op) (s : Slots) (live : list AuthorityDomain)
    (peer_uid : option N) (owner_uid : N) (domain : AuthorityDomain) :
  il_max_clients limits < u64_max →
  foldl slot_step (Slots_new limits Counters_default, []) ops = (s, live) →
  len live ≤ il_max_clients limits ∧ admins live ≤ il_max_admin_clients limits ∧
  ct_data_connections (st_counters s) = datas live ∧ ct_admin_connections (st_counters s) = admins live ∧
  (is_ok (Slots_admit s peer_uid owner_uid domain).1 = true ↔
   peer_uid = Some owner_uid ∧ len live < il_max_clients limits ∧
   (domain = DomainAdmin → admins live < il_max_admin_clients limits)).
Proof.
  intros Hm Hr. assert (∀ w, slots_inv w → st_limits w.1 = limits → slots_inv (foldl slot_step w ops) ∧ st_limits (foldl slot_step w ops).1 = limits) as H.
  { clear Hr. induction ops as [|op ops IH]; intros w Hw El; [done|]. cbn [foldl].
    destruct (slot_step_inv w op) as [S1 S2]; [by rewrite El|done|]. apply IH; [done|by rewrite S2]. }
  destruct (H (Slots_new limits Counters_default, [])) as [[H1 H2 H3 H4 H5] El]; [by constructor; cbn; try done; apply N.le_0_l|done|].
  rewrite Hr in H1, H2, H3, H4, H5, El. cbn [fst snd] in *. rewrite El in H2, H3. split_and!; [done..|].
  unfold Slots_admit. rewrite H1 El. case_bool_decide as Hp; cbn [negb]; [|naive_solver].
  destruct (N.leb_spec (il_max_clients limits) (len live)); cbn [orb]; [split; [done|lia]|].
  destruct domain; domains; [naive_solver|].
  destruct (N.leb_spec (il_max_admin_clients limits) (admins live)); cbn; [split; [done|]; intros (_ & _ & Ha); specialize (Ha eq_refl); lia|naive_solver].
Qed.
Lemma slots_exact_witness :
  let ops := [SlAdmit (Some 7) 7 DomainAdmin; SlAdmit None 7 DomainData; SlAdmit (Some 7) 7 DomainData; SlAdmit (Some 7) 7 DomainData;
              SlDrop DomainAdmin] in
  let '(s, live) := foldl slot_step (Slots_new (MkIpcLimits 2 1) Counters_default, []) ops in
  len live ≤ 2 ∧ admins live ≤ 1 ∧ ct_data_connections (st_counters s) = datas live ∧ ct_admin_connections (st_counters s) = admins live ∧
  (is_ok (Slots_admit s (Some 7) 7 DomainAdmin).1 = true ↔
   Some 7 = Some 7 ∧ len live < 2 ∧ (DomainAdmin = DomainAdmin → admins live < 1)).
Proof.
  apply (slots_exact (MkIpcLimits 2 1) [SlAdmit (Some 7) 7 DomainAdmin; SlAdmit None 7 DomainData; SlAdmit (Some 7) 7 DomainData;
    SlAdmit (Some 7) 7 DomainData; SlDrop DomainAdmin]); vm_compute; reflexivity.
Defined.

(** ** Keepalive *)

(** A client that never echoes the nonce it is asked for: the connection woken when
    it asks to be, with whatever else the client sent in between. *)
Section silent.
Variables (mint : N → bytes) (echoes : Keepalive → list bytes).
Fixpoint silent (fuel : nat) (k : Keepalive) : option N :=
  match fuel with
  | O => None
  | S fuel =>
      let k := foldl Keepalive_pong k (echoes k) in
      let now := Keepalive_next_wake k in
      match Keepalive_wake k now (mint now) with
      | (KaClose, _) => Some now
      | (_, k) => silent fuel k
      end
  end.
Hypothesis never_current : ∀ k nonce sent, ka_outstanding k = Some (nonce, sent) → nonce ∉ echoes k.
Lemma wrong_pongs k : foldl Keepalive_pong k (echoes k) = k.
Proof.
  assert (∀ l, (∀ nonce sent, ka_outstanding k = Some (nonce, sent) → nonce ∉ l) → foldl Keepalive_pong k l = k) as H; [|apply H; intros; by eapply never_current].
  induction l as [|e l IH]; intros Hl; [done|]. cbn [foldl]. assert (Keepalive_pong k e = k) as ->; [|apply IH; set_solver].
  unfold Keepalive_pong. destruct (ka_outstanding k) as [[n s]|] eqn:E; [|done]. case_bool_decide as Hn; [|done]. subst. set_solver.
Qed.
Lemma silent_S fuel k : silent (S fuel) k =
  match Keepalive_wake k (Keepalive_next_wake k) (mint (Keepalive_next_wake k)) with
  | (KaClose, _) => Some (Keepalive_next_wake k)
  | (_, k) => silent fuel k
  end.
Proof. cbn [silent]. by rewrite wrong_pongs. Qed.
(** From a probe at [sent], with [n + 1] misses to go. *)
Lemma silent_waiting policy n nonce sent missed fuel :
  missed + N.of_nat n + 1 = N.max 1 (kpl_max_missed policy) → (2 * n + 1 ≤ fuel)%nat →
  silent fuel (MkKeepalive policy (Some (nonce, sent)) missed (sent + kpl_interval policy)) =
  Some (sent + N.of_nat n * N.max (kpl_interval policy) (kpl_response_timeout policy) + kpl_response_timeout policy).
Proof.
  revert nonce sent missed fuel. induction n as [|n IH]; intros nonce sent missed [|fuel] Hm Hf; try lia; rewrite silent_S; cbn [Keepalive_next_wake Keepalive_wake ka_outstanding ka_policy ka_missed ka_next_probe].
  - rewrite N.ltb_irrefl. destruct (N.leb_spec (kpl_max_missed policy) (missed + 1)); [|lia]. f_equal. lia.
  - rewrite N.ltb_irrefl. destruct (N.leb_spec (kpl_max_missed policy) (missed + 1)); [lia|]. unfold probe_if_due. cbn [ka_policy ka_missed ka_next_probe].
    destruct (N.ltb_spec (sent + kpl_response_timeout policy) (sent + kpl_interval policy)).
    + destruct fuel as [|fuel]; [lia|]. rewrite silent_S. cbn [Keepalive_next_wake Keepalive_wake ka_outstanding ka_next_probe].
      unfold probe_if_due. cbn [ka_policy ka_missed ka_next_probe]. rewrite N.ltb_irrefl. rewrite IH; [|lia..]. f_equal. lia.
    + rewrite IH; [|lia..]. f_equal. lia.
Qed.
(** a client that stops answering is closed, and exactly when. Whatever it sends
    but the nonce it is asked for, the connection is closed after at most two
    wake-ups a permitted miss, one response timeout after the last of the permitted
    probes, which are the longer of the interval and the timeout apart. *)
Theorem keepalive_silent_closed (policy : KeepalivePolicy) (now : N) :
  let m := N.max 1 (kpl_max_missed policy) in
  silent (2 * N.to_nat m) (Keepalive_new policy now) =
  Some (now + kpl_interval policy + (m - 1) * N.max (kpl_interval policy) (kpl_response_timeout policy) + kpl_response_timeout policy).
Proof.
  intros m. assert (∃ n, N.to_nat m = S n) as [n En] by (exists (N.to_nat (m - 1)); lia). rewrite En.
  replace (2 * S n)%nat with (S (2 * n + 1)) by lia. rewrite silent_S. unfold Keepalive_new. cbn [Keepalive_next_wake Keepalive_wake ka_outstanding ka_next_probe].
  unfold probe_if_due. cbn [ka_policy ka_missed ka_next_probe]. rewrite N.ltb_irrefl. rewrite (silent_waiting _ n); [|lia..]. f_equal. replace (N.of_nat n) with (m - 1) by lia. lia.
Qed.
End silent.
(** The defaults close a silent client 100 seconds after it connected, whatever
    stale nonce it repeats. *)
Lemma keepalive_silent_closed_witness :
  silent (λ now, to_be 8 now) (λ k, match ka_outstanding k with Some (n, _) => filter (λ e, e ≠ n) [bs "stale"] | None => [] end) 6 (Keepalive_new KeepalivePolicy_default 0) = Some 100000.
Proof.
  refine (keepalive_silent_closed (λ now, to_be 8 now) (λ k, match ka_outstanding k with Some (n, _) => filter (λ e, e ≠ n) [bs "stale"] | None => [] end) _ KeepalivePolicy_default 0).
  intros k nonce sent ->. rewrite list_elem_of_filter. by intros [? _].
Defined.

(** Every probe that was sent, newest first, and what became of it. *)
Inductive probe_fate := Waiting | Answered | Missed.
Record sent_probe := MkSentProbe { sp_nonce : bytes; sp_sent : N; sp_fate : probe_fate }.
Inductive ka_event := EvWake (now : N) (nonce : bytes) | EvPong (nonce : bytes).
Definition expire (policy : KeepalivePolicy) (now : N) (log : list sent_probe) : list sent_probe :=
  match log with
  | MkSentProbe nonce sent Waiting :: rest =>
      if sent + kpl_response_timeout policy <=? now then MkSentProbe nonce sent Missed :: rest else log
  | _ => log
  end.
Definition answer (pong : bytes) (log : list sent_probe) : list sent_probe :=
  match log with
  | MkSentProbe nonce sent Waiting :: rest => if bool_decide (nonce = pong) then MkSentProbe nonce sent Answered :: rest else log
  | _ => log
  end.
(** The probes missed in a row, one in flight aside. *)
Fixpoint misses (log : list sent_probe) : N :=
  match log with
  | MkSentProbe _ _ Missed :: rest => 1 + misses rest
  | MkSentProbe _ _ Waiting :: rest => misses rest
  | _ => 0
  end.
(** The connection up to its close. *)
Fixpoint ka_run (k : Keepalive) (log : list sent_probe) (events : list ka_event) : option (Keepalive * list sent_probe) :=
  match events with
  | [] => Some (k, log)
  | EvPong nonce :: events => ka_run (Keepalive_pong k nonce) (answer nonce log) events
  | EvWake now nonce :: events =>
      let log := expire (ka_policy k) now log in
      match Keepalive_wake k now nonce with
      | (KaClose, _) => None
      | (KaNothing, k) => ka_run k log events
      | (KaProbe nonce, k) => ka_run k (MkSentProbe nonce now Waiting :: log) events
      end
  end.
Definition in_flight (log : list sent_probe) : option (bytes * N) :=
  match log with MkSentProbe nonce sent Waiting :: _ => Some (nonce, sent) | _ => None end.
Record ka_inv (policy : KeepalivePolicy) (k : Keepalive) (log : list sent_probe) : Prop := MkKaInv {
  ki_policy : ka_policy k = policy;
  ki_outstanding : ka_outstanding k = in_flight log;
  ki_missed : ka_missed k = misses log;
  ki_below : misses log < N.max 1 (kpl_max_missed policy)
}.
Lemma probe_inv policy k log now nonce : ka_inv policy k log → in_flight log = None →
  match probe_if_due k now nonce with
  | (KaClose, _) => False
  | (KaNothing, k) => ka_inv policy k log
  | (KaProbe n, k) => ka_inv policy k (MkSentProbe n now Waiting :: log)
  end.
Proof. intros [H1 H2 H3 H4] Hi. unfold probe_if_due. destruct (now <? ka_next_probe k); by constructor. Qed.
Lemma wake_inv policy k log now nonce : ka_inv policy k log →
  match Keepalive_wake k now nonce with
  | (KaClose, _) => N.max 1 (kpl_max_missed policy) ≤ misses (expire policy now log)
  | (KaNothing, k) => ka_inv policy k (expire policy now log)
  | (KaProbe n, k) => ka_inv policy k (MkSentProbe n now Waiting :: expire policy now log)
  end.
Proof.
  intros Hinv. pose proof Hinv as [H1 H2 H3 H4]. unfold Keepalive_wake. rewrite H1 H2.
  destruct log as [|[n s []] log]; cbn [in_flight expire] in *.
  - pose proof (probe_inv policy k [] now nonce Hinv eq_refl). by destruct (probe_if_due k now nonce) as [[] ?].
  - destruct (N.ltb_spec now (s + kpl_response_timeout policy)) as [Hn|Hn].
    { destruct (N.leb_spec (s + kpl_response_timeout policy) now); [lia|done]. }
    destruct (N.leb_spec (s + kpl_response_timeout policy) now); [|lia]. cbn zeta. rewrite -{1}H1. cbn [ka_policy ka_missed].
    rewrite H1 H3. cbn [misses] in *. destruct (N.leb_spec (kpl_max_missed policy) (misses log + 1)) as [Hc|Hc]; [lia|].
    pose proof (probe_inv policy (MkKeepalive policy None (misses log + 1) (ka_next_probe k)) (MkSentProbe n s Missed :: log) now nonce) as Hp.
    assert (ka_inv policy (MkKeepalive policy None (misses log + 1) (ka_next_probe k)) (MkSentProbe n s Missed :: log)) as Hi by (constructor; cbn; lia || done).
    specialize (Hp Hi eq_refl). by destruct (probe_if_due _ now nonce) as [[] ?].
  - pose proof (probe_inv policy k _ now nonce Hinv eq_refl). by destruct (probe_if_due k now nonce) as [[] ?].
  - pose proof (probe_inv policy k _ now nonce Hinv eq_refl). by destruct (probe_if_due k now nonce) as [[] ?].
Qed.
Lemma pong_inv policy k log pong : ka_inv policy k log → ka_inv policy (Keepalive_pong k pong) (answer pong log).
Proof.
  intros Hinv. pose proof Hinv as [H1 H2 H3 H4]. unfold Keepalive_pong. rewrite H2. destruct log as [|[n s []] log]; cbn; try done.
  case_bool_decide; [|done]. constructor; cbn; [done..|lia].
Qed.
Lemma ka_run_inv policy events : ∀ k log k' log', ka_inv policy k log → ka_run k log events = Some (k', log') → ka_inv policy k' log'.
Proof.
  induction events as [|[now nonce|pong] events IH]; intros k log k' log' Hinv H; cbn [ka_run] in H.
  - by simplify_eq.
  - pose proof (wake_inv policy k log now nonce Hinv) as Hw. cbn zeta in H. rewrite (ki_policy _ _ _ Hinv) in H.
    destruct (Keepalive_wake k now nonce) as [[|n|] k1]; [by eapply IH|by eapply IH|done].
  - eapply IH; [|done]. by apply pong_inv.
Qed.
(** a connection is closed for exactly the misses that are permitted. Over any
    wake-ups at any times and any echoes, a wake-up closes the connection if and
    only if, the probe in flight counted once its time is out, the newest probes
    that went unanswered in a row are as many as the policy permits; one echo of
    the nonce in flight and no other message starts the count again. The count
    does not pass 32 bits. *)
Theorem keepalive_close_exact (policy : KeepalivePolicy) (start now : N) (nonce : bytes) (events : list ka_event)
    (k : Keepalive) (log : list sent_probe) :
  kpl_max_missed policy ≤ u32_max → ka_run (Keepalive_new policy start) [] events = Some (k, log) →
  ((Keepalive_wake k now nonce).1 = KaClose ↔ N.max 1 (kpl_max_missed policy) ≤ misses (expire policy now log)) ∧
  ka_missed k = misses log ∧ ka_missed k + 1 ≤ u32_max.
Proof.
  intros Hm Hr. assert (ka_inv policy k log) as Hinv.
  { eapply ka_run_inv; [|done]. constructor; try done. cbn. lia. }
  pose proof (wake_inv policy k log now nonce Hinv) as Hw. destruct Hinv as [H1 H2 H3 H4]. split.
  - destruct (Keepalive_wake k now nonce) as [[|n|] k1]; cbn; [| |done]; destruct Hw as [_ _ _ Hb]; cbn in Hb; (split; [done|lia]).
  - rewrite H3. split; [done|]. assert (1 ≤ u32_max) by done. lia.
Qed.
Lemma keepalive_close_exact_witness :
  let policy := MkKeepalivePolicy true true 30 10 2 in
  match ka_run (Keepalive_new policy 0) [] [EvWake 30 (bs "a"); EvWake 40 (bs "-"); EvWake 60 (bs "b"); EvPong (bs "a")] with
  | Some (k, log) => ((Keepalive_wake k 70 (bs "c")).1 = KaClose ↔ 2 ≤ misses (expire policy 70 log)) ∧
                     ka_missed k = misses log ∧ ka_missed k + 1 ≤ u32_max
  | None => False
  end.
Proof.
  apply (keepalive_close_exact (MkKeepalivePolicy true true 30 10 2) 0 70 (bs "c")
    [EvWake 30 (bs "a"); EvWake 40 (bs "-"); EvWake 60 (bs "b"); EvPong (bs "a")]); vm_compute; (reflexivity || done).
Defined.
